(* ===== verification/_CoqProject ===== *)
-Q . S2P
Prelude.v
Word.v
Phase.v
Atomics.v
SpinWait.v
Locker.v
Tickets.v
Tokens.v
Clients.v
Futex.v
FutexLocker.v
FutexInv.v
FutexRules.v
Seats.v
FutexSafety.v
LockStats.v
FutexBug.v
ParkingLot.v
FutexLive.v
UnSync.v
SpinLocker.v
Quiet.v
Sequentializer.v
Policy.v
Traits.v
GenericLazy.v
Lazy.v
LazyTypes.v
OwnedLazies.v
LockedClients.v
LazySafety.v
LockedSafety.v
SeatedLazies.v
PrimedSafety.v
FutexLazies.v
ExitSequentializer.v
PthreadExit.v
ExitWorld.v
ExitSafety.v
ThreadExit.v
ThreadSafety.v
Tests.v
DebugMode.v
SoloLocker.v
Cyclic.v
ProgramLife.v
RawStatic.v
RawSafety.v
Macro.v
Generate.v
Targets.v
