(* ===== verification/Prelude.v ===== *)
(** * Verification of the static_init crate

    A model of the Rust crate [static_init] and of its procedural macros, with
    the theorems that make them correct. The crate gives a program statics that
    are initialised on their first access or before [main], and finalised when
    the program or the thread ends.

    ** The program

    From the bottom up:
    - a _phase_ (src/lib.rs, module [phase]) is a set of flags that tells where
      in its life an object is: initialised, initialisation panicked or skipped,
      registered for finalisation, finalised, ...;
    - a _phase locker_ (src/phase_locker.rs and the directory beside it) is a
      word that holds a phase, a count of readers and a locked bit; a write
      guard may change the phase when it is dropped. There is one for threads
      that spin, one on futexes, one for a single thread;
    - a _sequentializer_ (src/lazy_sequentializer.rs) runs the initialisation,
      the registration and the finalisation of an object under its locker;
    - the _exit sequentializers_ (src/exit_sequentializer.rs) also keep lists of
      the objects to finalise at the end of the program or of the thread;
    - a _generic lazy_ (src/generic_lazy.rs) pairs storage, generator,
      sequentializer and policy; the _lazy types_ (src/lazy.rs) are its
      instances, with the methods a user calls;
    - _raw statics_ (src/raw_static.rs) are initialised before [main], in the
      order of their priorities;
    - the _macros_ (static_init_macro/src/lib.rs) read the options of an
      attribute and choose the type of a static and the functions that are run
      before and after [main].

    ** The files

    Foundations:
    - [Prelude]: results, outcomes, partial commutative monoids, lemmas.
    - [Word]: the lock word, its fields and the bit operations on them.
    - [Phase]: the phases and their display. The crate [bitflags] is the class
      [Bitflags].
    - [Atomics]: programs as trees of atomic operations ([prog]), their
      sequential run ([run]), the interleavings of a pool of threads
      ([pool_step]) and the rely-guarantee judgement [ok] with its adequacy
      ([ok_pool]).

    The lockers:
    - [SpinWait]: src/phase_locker/spin_wait.rs.
    - [Locker]: the traits of src/phase_locker.rs as classes of operations, and
      [PhaseLockerSpec], the contract between lockers and their clients.
    - [Tickets]: contracts with a ticket, a right that one step creates and one
      step spends.
    - [Tokens]: the ownership of a lock word without waiters.
    - [Clients]: threads that use a locker as an arbitrary script says.
    - [UnSync], [SpinLocker]: src/phase_locker/unsync.rs and sync_spinning.rs,
      each proved to satisfy the contract ([unsync_spec], [spin_spec]).
    - [Futex]: src/phase_locker/futex.rs, parked threads and the calls of the
      system. [FutexLocker]: src/phase_locker/sync.rs, the default locker.
      [FutexInv], [FutexRules] and [FutexSafety] prove the contract for it
      ([futex_spec]): the ownership of its word, the rules of its atomic steps,
      its operations. [Seats]: the count of waiting writers, and which programs
      leave it right. [FutexLive]: what it does when nobody is in the way.
      [FutexBug]: executions in which it fails. [ParkingLot]: the implementation
      of futexes over the crate parking_lot_core, and that it is interchangeable
      with the one on the system's. [LockStats]: the feature [lock_statistics].
    - [Quiet]: no locker, but for those counters, touches the state of its users, which is what [Tickets]
      needs.

    Sequentializers and lazies:
    - [Sequentializer]: src/lazy_sequentializer.rs, over any locker.
    - [Policy]: when a lazy is to be initialised and when it is accessible.
    - [Traits]: the traits of src/lib.rs between lazies and sequentializers as
      classes, and who implements them.
    - [GenericLazy], [Lazy]: src/generic_lazy.rs and src/lazy.rs, with the table
      of the 22 lazy types ([impl_of]).
    - [LazyTypes]: generators, the trait [LazyAccess] with a client verified against
      it, and what else src/lazy.rs gives its types. [OwnedLazies]: the lazies that
      need not be statics, from their creation to their drop.
    - [LockedClients]: [LockedLazySpec], what a locked lazy promises, and threads
      that use all of its locks as scripts say.
    - [LazySafety], [LockedSafety], [PrimedSafety]: threads that share a lazy, a
      locked lazy, a primed lazy. [FutexLazies]: the same on the default locker.
      [SeatedLazies]: they leave the count of waiting writers to the locker.
    - [ExitSequentializer]: src/exit_sequentializer.rs, the exit of the program
      as a step relation and the three ways a thread ends.
    - [PthreadExit]: the end of a thread under POSIX, with the iterations of the system.
    - [ExitWorld]: a lazy beside the register of the objects to finalise, and
      the ends of the program and of a thread that run its callback; the three
      registers are instances of [Registers].
    - [ExitSafety]: threads that use lazies while the program exits.
    - [ThreadExit], [ThreadSafety]: a thread-local lazy through the calls of its
      thread and the end of the thread, and the reference semantics it refines.
    - [DebugMode]: the mode [debug_mode] of the sequentializers, which detects a
      generator that needs the lazy it initialises. [SoloLocker]: a locker in the
      hands of one thread. [Cyclic]: what is detected. [ProgramLife]: these lazies
      from the first access to the exit of the program, or to the end of the thread;
      both are one loop over a register, by the laws that [ExitWorld] states.
    - [Tests]: unit tests of src/lazy.rs and twelve functions of the integration
      tests of src/tests, run in the model; [RawSafety] and [Cyclic] have the tests
      about the order of raw statics and about cycles.

    Statics and macros:
    - [RawStatic]: src/raw_static.rs, its two implementations behind [RawStatics].
      [RawSafety]: what the checks accept.
    - [Macro], [Generate]: static_init_macro/src/lib.rs, what the macros decide
      and what they generate.
    - [Targets]: build.rs of both crates, and what is compiled for a target.

    A definition bears the name of the function it models; where one name is
    used by several types of a source file, a prefix tells them apart ([fin_init]
    and [lazy_init], [guard_drop] and [read_drop]). Methods that a trait or a
    macro of the source defines once for several types are defined once.

    ** What is proved

    - Lockers: no schedule of any number of threads breaks the exclusion that
      guards promise, and no assertion or [unreachable!] of the locker is
      reached ([SpinLocker.spin_clients_safe], [FutexSafety.futex_clients_safe],
      [UnSync.unsync_client_safe]; of the default locker, but the one named below); its word always is a phase, a count of
      readers and the bits of waiters ([FutexSafety.futex_word_typed]); taking a
      free lock ends ([SpinLocker.spin_lock_returns],
      [FutexLive.futex_lock_returns]), the attempt to take it agrees with it
      ([FutexLive.try_lock_agrees]) and dropping it undoes it
      ([FutexLive.lock_drop_roundtrip]); both implementations of futexes take any
      threads through the same states ([ParkingLot.other_implements_futex]); the
      locker that counts how its locks are obtained does the same and keeps the
      contract, and what it counts tells at which attempt the lock was got
      ([LockStats.counting_clients_safe], [LockStats.statistics_tell_attempts]); the
      functional behaviour of [lock] on every branch ([UnSync.lock_functional]); the
      bounds of the backoff ([SpinWait]).
    - Lazies: at most one value is stored, after runs of the generator that all
      panicked, no access reads uninitialised memory, every reference shows the
      value ([LazySafety]); a guard of a locked lazy is of an initialised value
      that changes through it only ([LockedSafety]); the primed value is what is
      read before the initialisation, and is never written ([PrimedSafety]).
      These theorems are about pools of threads and follow from the contract of
      the locker, whichever it is; [FutexLazies] has them for the default one. The
      global hint of a quasi-lazy is set once it is initialised
      ([FutexLazies.lesser_lazy_hint_safe]). A
      lazy that is a local variable answers its owner as a reference says and
      drops every value it ever held once ([OwnedLazies.owned_lazy_drops_all]).
    - Cycles: in debug mode every access of a thread to lazies that read each other
      ends, with the value that the generators define or with the panic that names a
      lazy on a cycle, and lazies that are finalised are registered once
      ([Cyclic.cyclic_access_detected]).
    - Policies: the shortcuts that skip the test of the phase are right
      ([Policy.finalized_checkers_sound]).
    - Exit: every object whose registration was accepted is finalised once,
      objects that finalisers register included ([exit_finalises_all],
      [exit_lifo], [cxa_finalises_all], [PthreadExit.posix_finalises_all]); with any
      number of lazies that read each other, the exit of the program and the end of
      the thread finalise those that are to be finalised and have a value, once
      ([ProgramLife.program_finalises_all], [ProgramLife.thread_finalises_all]);
      threads that use a lazy while the program finalises it neither see a dropped value nor have it finalised twice
      ([exit_lazy_safe], [exit_locked_lazy_safe]); every script of a thread on its
      thread-local lazy has the results of a reference without locks nor lists
      ([ThreadSafety.thread_refines_reference]) and the end of the thread finalises
      what the thread initialised before it, once
      ([ThreadSafety.thread_end_finalises_once]); threads agree on the key of POSIX
      systems ([get_key_agrees]).
    - Tests: the assertions of these tests hold in the model ([tests_pass]).
    - Raw statics: the checks of the debug mode accept exactly the programs whose
      initialisers read statics of greater priorities and whose destructors read
      statics that are dropped later, and a program that passes them runs the same
      without them, from its first constructor to its last destructor ([RawSafety]).
    - Macros: the options that are accepted are the coherent ones, may be written in
      any order, and give a type that does what they asked for; section names order
      the functions by priority ([Macro]); the macro [dynamic] panics on raw
      identifiers only, and the static, the generator and the functions that it
      generates fit each other ([Generate.dynamic_coherent]).
    - Targets: both build scripts agree, and the crate compiles one register of
      threads and one kind of futexes on each system, but for
      [Targets.thread_module_unique].
    - What does not hold, each with the execution that shows it:
      [FutexBug.lost_wakeup], [FutexBug.conversion_panics],
      [FutexLive.commit_then_drop_undone], [SpinLocker.commit_then_drop_panics],
      [UnSync.clone_overflow_breaks_exclusion],
      [LazySafety.try_init_once_hint_unsound],
      [Policy.lesser_policy_trusts_registration],
      [ExitSequentializer.windows_drops_late_registrations],
      [ExitSequentializer.exit_empty_stays_open],
      [PthreadExit.posix_last_iteration_lost],
      [ThreadSafety.late_retry_never_finalised], [Cyclic.write_cycle_waits],
      [Cyclic.number_erased], [Targets.thread_module_unique],
      [Targets.fuchsia_uses_keys], [Targets.test_feature_policy] and, in
      [Macro.parse_prime_spec], the test of the matched path.

    ** Conventions and bounds

    A [u32] is a [Z] in range with its wrap-around written out. A program is a
    [prog]: [Panic] unwinds through [catch], [Undef] is undefined behaviour
    ([unreachable_unchecked], a reference to uninitialised storage), [Diverge]
    is a loop that ran out of fuel, [Stops] a thread that does nothing more after an
    assertion. Loops that wait for other threads take a
    fuel: safety theorems hold for every fuel, since a thread without fuel only
    stops; [spin_lock_returns] and [futex_lock_returns] say how much is enough for
    a lock that is free. The loops over the lists of exit end with as much fuel as
    there are objects, which [exit_lifo] and [cxa_finalises_all] prove.
    Everything else is structurally recursive.

    Atomic operations are sequentially consistent: the orderings that the source
    gives them are not modelled. The mode is that of a release build: debug
    assertions and, except in [RawStatic] and [DebugMode], [debug_mode] are left out, and the
    arithmetic of the reader counts wraps. The configuration of the target is an
    argument ([Macro.cfg], [enabled] of the hint, the availability of the C++
    runtime), which [Targets] computes for a target. Third-party code is a parameter: [bitflags] by [Bitflags],
    [pthread] keys by [Keys], the system's futexes by [Kernel], which chooses who
    is woken and has [kernel_1] for an instance, parking_lot_core by [ParkingLot],
    with the instance [parking_lot_1], the strings that proc_macro2 takes for
    identifiers by [Idents], with [ascii_idents]; the storage of a lazy and the
    hint are classes on the user's state ([Memory], [GlobalHint]).

    An assertion of the source that fails panics. Three of the futex locker are
    named, and its operations have a parameter [aborts] that tells which of the
    named ones leave the thread at [Stops] instead, where it does nothing more and
    [catch] does not reach it. The contract is proved where the three do: the two on
    the count of waiting writers, which 2^32 threads make fail, and the one on a
    writer that turns into a reader, which [FutexBug.conversion_panics] makes fail.
    Every other assertion is proved never to fail. The theorems on the clients of the
    locker, of locked lazies and of quasi-lazies ([futex_clients_safe],
    [futex_locked_lazy_safe], [primed_lazy_safe], [exit_locked_lazy_safe],
    [lesser_lazy_hint_safe]) state besides that, with fewer than 2^32 threads, a
    thread at [Stops] has failed the third ([stops_at_conversions]): up to that
    failure a run is one of the source, and what a thread does after it, when it
    unwinds, is beyond them.

    ** What is not modelled

    The theorems about lazies take the generator made of an [FnOnce] in a cell, which
    [LazyTypes] has, as one whose later runs panic. The tokens that the macros print
    and the positions of their errors. The
    reference of thread-local lazies ([ThreadSafety]) is proved with the flags of
    [bitflags_1], for one object that is not primed, on the registers of the C++ runtime and of
    Windows; that of POSIX keys is verified on its own ([PthreadExit]). The benchmarks
    and the other integration tests have no model. *)

From stdpp Require Import base list option numbers relations.

(** ** Rust's [Result] *)

Inductive result (T E : Type) : Type :=
| Ok (v : T)
| Err (e : E).
Arguments Ok {T E} v.
Arguments Err {T E} e.

#[export] Instance result_eq_dec {T E} `{EqDecision T, EqDecision E} : EqDecision (result T E).
Proof. solve_decision. Defined.

(** The operator [?]. *)
Definition and_then {T S E} (r : result T E) (f : T → result S E) : result S E :=
  match r with
  | Ok v => f v
  | Err e => Err e
  end.

(** What a sequential run of a model program ends with. *)
Inductive outcome (A : Type) : Type :=
| Returned (a : A)
| Panicked
| Undefined
| OutOfFuel
| Stopped. (* at a failed assertion that ends the thread *)
Arguments Returned {A} a.
Arguments Panicked {A}.
Arguments Undefined {A}.
Arguments OutOfFuel {A}.
Arguments Stopped {A}.

#[export] Instance outcome_bind : MBind outcome := λ A B f o,
  match o with
  | Returned a => f a
  | Panicked => Panicked
  | Undefined => Undefined
  | OutOfFuel => OutOfFuel
  | Stopped => Stopped
  end.

(** Membership in lists put together with [++] and [::]. *)
Ltac list_mem :=
  intros;
  repeat match goal with
  | H : _ ∈ _ ++ _ |- _ => apply elem_of_app in H
  | H : _ ∈ _ :: _ |- _ => apply elem_of_cons in H
  | H : _ ∈ [] |- _ => by apply elem_of_nil in H
  | H : _ ∨ _ |- _ => destruct H
  end;
  rewrite ?not_elem_of_app, ?not_elem_of_cons, ?elem_of_app, ?elem_of_cons, ?elem_of_nil;
  solve [subst; intuition auto].

(** ** Commutative monoids of ownership

    The concurrency proofs account for who holds what in a commutative monoid:
    each thread owns an element, and the invariant of the shared state is
    stated about the product of all of them. *)

Class PCM (G : Type) := {
  pcm_unit : G;
  pcm_op : G → G → G;
  pcm_assoc : Assoc (=) pcm_op;
  pcm_comm : Comm (=) pcm_op;
  pcm_left_id : LeftId (=) pcm_unit pcm_op;
}.
#[export] Hint Mode PCM ! : typeclass_instances.
#[export] Existing Instances pcm_assoc pcm_comm pcm_left_id.

Declare Scope pcm_scope.
Delimit Scope pcm_scope with pcm.
Infix "⋅" := pcm_op (at level 50, left associativity) : pcm_scope.
Open Scope pcm_scope.

Section pcm.
Context {G : Type} {P : PCM G}.
Implicit Types g h : G.

#[export] Instance pcm_right_id : RightId (=) pcm_unit (pcm_op (G:=G)).
Proof. intros g. rewrite (comm_L pcm_op). apply (left_id_L pcm_unit pcm_op). Qed.

Definition pcm_sum (gs : list G) : G := foldr pcm_op pcm_unit gs.

#[export] Instance pcm_sum_proper : Proper ((≡ₚ) ==> (=)) pcm_sum.
Proof.
  intros gs hs H. unfold pcm_sum.
  induction H as [|g gs hs _ IH|g h gs|gs hs ks _ IH1 _ IH2]; simpl; try congruence.
  by rewrite !(assoc_L pcm_op), (comm_L pcm_op h g).
Qed.

(** The product of the pool is the share of one thread times a frame. *)
Lemma pcm_sum_lookup gs i g :
  gs !! i = Some g → pcm_sum gs = g ⋅ pcm_sum (delete i gs).
Proof. intros H. exact (pcm_sum_proper _ _ (delete_Permutation gs i g H)). Qed.

Lemma pcm_sum_insert gs i g h :
  gs !! i = Some g → pcm_sum (<[i:=h]> gs) = h ⋅ pcm_sum (delete i gs).
Proof.
  intros H%lookup_lt_Some.
  rewrite (pcm_sum_lookup _ i h) by (by apply list_lookup_insert_eq).
  f_equal. f_equal. apply list_eq. intros j.
  destruct (decide (j < i)).
  - rewrite !list_lookup_delete_lt by done. apply list_lookup_insert_ne. lia.
  - rewrite !list_lookup_delete_ge by lia. apply list_lookup_insert_ne. lia.
Qed.

Lemma pcm_sum_replicate_unit n : pcm_sum (replicate n pcm_unit) = pcm_unit.
Proof. induction n as [|n IH]; simpl; [done|]. by rewrite IH, (left_id_L pcm_unit pcm_op). Qed.
End pcm.

(** What is owned for each of a list of things that are held. *)
Section owned.
Context {H G : Type} {P : PCM G} (owns : H → G → Prop).

Definition owns_with (hs : list H) (o : G) : Prop := ∃ os, Forall2 owns hs os ∧ o = pcm_sum os.

Lemma owns_with_nil : owns_with [] pcm_unit.
Proof. exists []. by split; [constructor|]. Qed.

Lemma owns_with_cons h hs o o' : owns h o → owns_with hs o' → owns_with (h :: hs) (o ⋅ o').
Proof. intros Hh (os & Hos & ->). exists (o :: os). split; [by constructor|done]. Qed.

Lemma owns_with_lookup hs i h o :
  owns_with hs o → hs !! i = Some h →
  ∃ o1 o2, o = o1 ⋅ o2 ∧ owns h o1 ∧ owns_with (delete i hs) o2 ∧
    ∀ h' o', owns h' o' → owns_with (<[i := h']> hs) (o' ⋅ o2).
Proof.
  intros (os & Hos & ->) Hi.
  destruct (Forall2_lookup_l _ _ _ _ _ Hos Hi) as (o1 & Ho1 & Hown).
  exists o1, (pcm_sum (delete i os)). split_and!; [by apply pcm_sum_lookup|done|..].
  - exists (delete i os). split; [by apply Forall2_delete|done].
  - intros h' o' Hown'. exists (<[i := o']> os). split; [by apply Forall2_insert|].
    symmetry. by eapply pcm_sum_insert.
Qed.
End owned.

(** Products of monoids are monoids, pointwise. *)
#[export] Instance prod_pcm {G H} `{!PCM G, !PCM H} : PCM (G * H).
Proof.
  refine {| pcm_unit := (pcm_unit, pcm_unit);
            pcm_op x y := (x.1 ⋅ y.1, x.2 ⋅ y.2) |}.
  - intros [??] [??] [??]; simpl. by rewrite !(assoc_L pcm_op).
  - intros [??] [??]; simpl. f_equal; apply (comm_L pcm_op).
  - intros [??]; simpl. by rewrite !(left_id_L pcm_unit pcm_op).
Defined.

(** Exclusive ownership of a value: at most one owner in a valid product. *)
Inductive excl (A : Type) : Type :=
| ExclNone
| Excl (a : A)
| ExclBot.
Arguments ExclNone {A}.
Arguments Excl {A} a.
Arguments ExclBot {A}.

Definition excl_op {A} (x y : excl A) : excl A :=
  match x, y with
  | ExclNone, z | z, ExclNone => z
  | _, _ => ExclBot
  end.

#[export] Instance excl_pcm A : PCM (excl A).
Proof.
  refine {| pcm_unit := ExclNone; pcm_op := excl_op |}.
  - by intros [] [] [].
  - by intros [] [].
  - by intros [].
Defined.

(** A number of shared owners who agree on a value. *)
Inductive agree (A : Type) : Type :=
| AgreeNone
| Agree (n : positive) (a : A)
| AgreeBot.
Arguments AgreeNone {A}.
Arguments Agree {A} n a.
Arguments AgreeBot {A}.

Section agree.
Context {A : Type} `{!EqDecision A}.

Definition agree_op (x y : agree A) : agree A :=
  match x, y with
  | AgreeNone, z | z, AgreeNone => z
  | Agree n a, Agree m b => if decide (a = b) then Agree (n + m) a else AgreeBot
  | _, _ => AgreeBot
  end.

#[export] Instance agree_pcm : PCM (agree A).
Proof.
  refine {| pcm_unit := AgreeNone; pcm_op := agree_op |}.
  - intros [|n a|] [|m b|] [|k c|]; simpl; repeat (case_decide; simpl); subst;
      try done; f_equal; lia.
  - intros [|n a|] [|m b|]; simpl; repeat case_decide; subst; try done; f_equal; lia.
  - by intros [].
Defined.

Definition agree_count (x : agree A) : Z :=
  match x with Agree n _ => Z.pos n | _ => 0 end.
End agree.
