(* ===== verification/Word.v ===== *)
(** * Machine words and the layout of the lock word

    A [u32] is a [Z] between 0 and 2^32. The lock word packs, from the low
    bits up: 8 phase bits, a reader count of 21 bits (20 [READER_BITS] and the
    [READER_OVERF] bit), the [LOCKED_BIT] and the two waiter bits (src/lib.rs,
    module [phase]). [word] builds a lock word from those fields; the lemmas
    say that the bit operations of the lockers act field by field. *)

From stdpp Require Import base numbers.
From S2P Require Import Prelude.
Open Scope Z_scope.

Abbreviation u32 := Z (only parsing).

Definition wrap (bits v : Z) : Z := v `mod` 2 ^ bits.

(** ** The constants of module [phase] of src/lib.rs *)

Definition WRITE_WAITER_BIT : u32 := 0x80000000.
Definition READ_WAITER_BIT : u32 := 0x40000000.
Definition LOCKED_BIT : u32 := 0x20000000.
Definition READER_BITS : u32 := 0x0FFFFF00.
Definition READER_OVERF : u32 := 0x10000000.
Definition READER_UNITY : u32 := 0x00000100.
Definition MAX_WAKED_READERS : Z := READER_OVERF `div` READER_UNITY.

(** ** Splitting bit operations at a bit position *)

Section split.
Context (k : Z) (Hk : 0 <= k).

Lemma testbit_split a b i :
  0 <= a < 2 ^ k → 0 <= i →
  Z.testbit (a + 2 ^ k * b) i =
    if i <? k then Z.testbit a i else Z.testbit b (i - k).
Proof using Hk.
  intros Ha Hi. destruct (Z.ltb_spec i k) as [H|H].
  - rewrite <- (Z.mod_pow2_bits_low (a + 2 ^ k * b) k i H).
    f_equal. rewrite Z.mul_comm, Z.mod_add by lia. by apply Z.mod_small.
  - replace i with ((i - k) + k) at 1 by lia.
    rewrite <- Z.div_pow2_bits by lia. f_equal.
    rewrite Z.mul_comm, Z.div_add by lia. rewrite Z.div_small by lia. lia.
Qed.

Lemma bits_above a i : 0 <= a < 2 ^ k → k <= i → Z.testbit a i = false.
Proof using Hk.
  intros Ha Hi. rewrite <- (Z.mod_small a (2 ^ k)) by done.
  by apply Z.mod_pow2_bits_high.
Qed.

(** A bitwise operation [f] computes [g] on every bit. *)
Definition bitwise (f : Z → Z → Z) (g : bool → bool → bool) : Prop :=
  g false false = false ∧
  (∀ a b i, 0 <= i → Z.testbit (f a b) i = g (Z.testbit a i) (Z.testbit b i)) ∧
  (∀ a b, 0 <= a → 0 <= b → 0 <= f a b).

Lemma bitwise_bound f g a b :
  bitwise f g → 0 <= a < 2 ^ k → 0 <= b < 2 ^ k → 0 <= f a b < 2 ^ k.
Proof using Hk.
  intros (Hg & Hf & Hpos) Ha Hb. split; [apply Hpos; lia|].
  destruct (Z.lt_ge_cases (f a b) (2 ^ k)) as [|Hge]; [done|exfalso].
  assert (0 < f a b) as H0 by (pose proof (Z.pow_pos_nonneg 2 k); lia).
  pose proof (Z.bit_log2 _ H0) as Hbit.
  assert (k <= Z.log2 (f a b)) as Hlog by (by apply Z.log2_le_pow2).
  rewrite Hf, !bits_above, Hg in Hbit by lia. done.
Qed.

Lemma bitwise_split f g a b c d :
  bitwise f g → 0 <= a < 2 ^ k → 0 <= c < 2 ^ k →
  f (a + 2 ^ k * b) (c + 2 ^ k * d) = f a c + 2 ^ k * f b d.
Proof using Hk.
  intros Hfg Ha Hc. apply Z.bits_inj'. intros i Hi.
  pose proof (bitwise_bound f g a c Hfg Ha Hc) as Hac.
  destruct Hfg as (Hg & Hf & _).
  rewrite Hf, !testbit_split by lia.
  destruct (Z.ltb_spec i k); by rewrite Hf by lia.
Qed.
End split.

Lemma bitwise_land : bitwise Z.land andb.
Proof.
  split_and!; [done|by intros; apply Z.land_spec|].
  intros. apply Z.land_nonneg. by left.
Qed.
Lemma bitwise_lor : bitwise Z.lor orb.
Proof. split_and!; [done|by intros; apply Z.lor_spec|]. intros. by apply Z.lor_nonneg. Qed.
Lemma bitwise_lxor : bitwise Z.lxor xorb.
Proof. split_and!; [done|by intros; apply Z.lxor_spec|]. intros. by apply Z.lxor_nonneg. Qed.
Lemma bitwise_ldiff : bitwise Z.ldiff (λ a b, a && negb b).
Proof.
  split_and!; [done|by intros; apply Z.ldiff_spec|].
  intros. apply Z.ldiff_nonneg. by left.
Qed.

(** ** The lock word *)

(** [word ph n l rw ww]: phase bits [ph], reader count [n], the locked bit and
    the two waiter bits. *)
Definition word (ph n : Z) (l rw ww : bool) : u32 :=
  ph + 2 ^ 8 * (n + 2 ^ 21 * (Z.b2z l + 2 ^ 1 * (Z.b2z rw + 2 ^ 1 * Z.b2z ww))).

Definition phase_range (ph : Z) : Prop := 0 <= ph < 2 ^ 8.
Definition count_range (n : Z) : Prop := 0 <= n < 2 ^ 21.

Lemma b2z_range b : 0 <= Z.b2z b < 2 ^ 1.
Proof. destruct b; simpl; lia. Qed.

Section word_op.
Context (f : Z → Z → Z) (g : bool → bool → bool) (Hfg : bitwise f g).

Lemma bitwise_b2z a b : f (Z.b2z a) (Z.b2z b) = Z.b2z (g a b).
Proof using Hfg.
  apply Z.bits_inj'. intros i Hi. destruct Hfg as (Hg & Hf & _). rewrite Hf by done.
  destruct (decide (i = 0)) as [->|Hne]; [by rewrite !Z.b2z_bit0|].
  assert (∀ c, Z.testbit (Z.b2z c) i = false) as Hz.
  { intros c. apply (bits_above 1); [lia|apply b2z_range|lia]. }
  by rewrite !Hz.
Qed.

Lemma word_op ph n l rw ww ph' n' l' rw' ww' :
  phase_range ph → count_range n → phase_range ph' → count_range n' →
  f (word ph n l rw ww) (word ph' n' l' rw' ww') =
    word (f ph ph') (f n n') (g l l') (g rw rw') (g ww ww').
Proof using Hfg.
  intros. unfold word.
  rewrite (λ H, bitwise_split 8 H f g), (λ H, bitwise_split 21 H f g),
    !(λ H, bitwise_split 1 H f g) by (done || lia || apply b2z_range).
  by rewrite !bitwise_b2z.
Qed.
End word_op.

Definition word_land := word_op _ _ bitwise_land.
Definition word_lor := word_op _ _ bitwise_lor.
Definition word_lxor := word_op _ _ bitwise_lxor.
Definition word_ldiff := word_op _ _ bitwise_ldiff.

Lemma word_inj ph n l rw ww ph' n' l' rw' ww' :
  phase_range ph → count_range n → phase_range ph' → count_range n' →
  word ph n l rw ww = word ph' n' l' rw' ww' →
  ph = ph' ∧ n = n' ∧ l = l' ∧ rw = rw' ∧ ww = ww'.
Proof.
  unfold phase_range, count_range, word. intros.
  destruct l, rw, ww, l', rw', ww'; simpl Z.b2z in *; split_and!; try done; lia.
Qed.

Lemma word_range ph n l rw ww :
  phase_range ph → count_range n → 0 <= word ph n l rw ww < 2 ^ 32.
Proof.
  unfold phase_range, count_range, word. intros.
  destruct l, rw, ww; simpl Z.b2z; lia.
Qed.

(** ** The constants as lock words, and what testing and setting them does *)

Lemma phase_word p : p = word p 0 false false false.
Proof. unfold word. simpl. lia. Qed.
Lemma LOCKED_BIT_word : LOCKED_BIT = word 0 0 true false false.
Proof. reflexivity. Qed.
Lemma READ_WAITER_BIT_word : READ_WAITER_BIT = word 0 0 false true false.
Proof. reflexivity. Qed.
Lemma WRITE_WAITER_BIT_word : WRITE_WAITER_BIT = word 0 0 false false true.
Proof. reflexivity. Qed.
Lemma READER_BITS_word : READER_BITS = word 0 (2 ^ 20 - 1) false false false.
Proof. reflexivity. Qed.
Lemma READER_UNITY_word : READER_UNITY = word 0 1 false false false.
Proof. reflexivity. Qed.
Lemma READER_OVERF_word : READER_OVERF = word 0 (2 ^ 20) false false false.
Proof. reflexivity. Qed.
Lemma READER_ALL_word :
  Z.lor READER_OVERF READER_BITS = word 0 (2 ^ 21 - 1) false false false.
Proof. reflexivity. Qed.
Lemma LOCKED_READERS_word :
  Z.lor LOCKED_BIT READER_BITS = word 0 (2 ^ 20 - 1) true false false.
Proof. reflexivity. Qed.
Lemma WAITERS_word :
  Z.lor READ_WAITER_BIT WRITE_WAITER_BIT = word 0 0 false true true.
Proof. reflexivity. Qed.

Lemma word_0 ph n l rw ww :
  phase_range ph → count_range n →
  word ph n l rw ww = 0 ↔ ph = 0 ∧ n = 0 ∧ l = false ∧ rw = false ∧ ww = false.
Proof.
  intros Hp Hn. split; [|intros (-> & -> & -> & -> & ->); reflexivity].
  change 0 with (word 0 0 false false false) at 1. intros H.
  apply word_inj in H; [done|done|done|unfold phase_range; lia|unfold count_range; lia].
Qed.

Lemma word_add_unity ph n l rw ww :
  word ph n l rw ww + READER_UNITY = word ph (n + 1) l rw ww.
Proof. unfold word, READER_UNITY. lia. Qed.
Lemma word_sub_unity ph n l rw ww :
  word ph n l rw ww - READER_UNITY = word ph (n - 1) l rw ww.
Proof. unfold word, READER_UNITY. lia. Qed.

Lemma wrap_word ph n l rw ww :
  phase_range ph → count_range n → wrap 32 (word ph n l rw ww) = word ph n l rw ww.
Proof. intros. apply Z.mod_small. by apply word_range. Qed.

Lemma land_small k v : 0 <= k → 0 <= v < 2 ^ k → Z.land v (2 ^ k - 1) = v.
Proof.
  intros Hk Hv. replace (2 ^ k - 1) with (Z.ones k) by (rewrite Z.ones_equiv; lia).
  rewrite Z.land_ones by done. by apply Z.mod_small.
Qed.
Lemma land_ones_mod k v : 0 <= k → Z.land v (2 ^ k - 1) = v `mod` 2 ^ k.
Proof.
  intros Hk. replace (2 ^ k - 1) with (Z.ones k) by (rewrite Z.ones_equiv; lia).
  by rewrite Z.land_ones by done.
Qed.

Lemma phase_range_0 : phase_range 0.
Proof. unfold phase_range. lia. Qed.
Lemma count_range_0 : count_range 0.
Proof. unfold count_range. lia. Qed.
Lemma count_range_1 : count_range 1.
Proof. unfold count_range. lia. Qed.
Lemma count_range_max : count_range (2 ^ 21 - 1).
Proof. unfold count_range. lia. Qed.
Lemma count_range_bits : count_range (2 ^ 20 - 1).
Proof. unfold count_range. lia. Qed.
Lemma count_range_overf : count_range (2 ^ 20).
Proof. unfold count_range. lia. Qed.

Create HintDb word.
#[export] Hint Resolve phase_range_0 count_range_0 count_range_1 count_range_max
  count_range_bits count_range_overf : word.

Section fields.
Context (ph n : Z) (l rw ww : bool) (Hph : phase_range ph) (Hn : count_range n).
Abbreviation w := (word ph n l rw ww).

Lemma word_land_locked : Z.land w LOCKED_BIT = if l then LOCKED_BIT else 0.
Proof using Hph Hn.
  rewrite LOCKED_BIT_word, word_land by auto with word.
  rewrite !Z.land_0_r, !andb_false_r, andb_true_r. by destruct l.
Qed.

Lemma word_land_readers : Z.land w (Z.lor READER_OVERF READER_BITS) = word 0 n false false false.
Proof using Hph Hn.
  rewrite READER_ALL_word, word_land by auto with word.
  rewrite !Z.land_0_r, !andb_false_r, land_small; [done|lia|apply Hn].
Qed.

Lemma word_land_reader_bits :
  Z.land w READER_BITS = word 0 (n `mod` 2 ^ 20) false false false.
Proof using Hph Hn.
  rewrite READER_BITS_word, word_land by auto with word.
  by rewrite !Z.land_0_r, !andb_false_r, land_ones_mod by lia.
Qed.

Lemma word_land_locked_readers :
  Z.land w (Z.lor LOCKED_BIT READER_BITS) = word 0 (n `mod` 2 ^ 20) l false false.
Proof using Hph Hn.
  rewrite LOCKED_READERS_word, word_land by auto with word.
  by rewrite !Z.land_0_r, !andb_false_r, andb_true_r, land_ones_mod by lia.
Qed.

Lemma word_land_waiters :
  Z.land w (Z.lor READ_WAITER_BIT WRITE_WAITER_BIT) = word 0 0 false rw ww.
Proof using Hph Hn.
  rewrite WAITERS_word, word_land by auto with word.
  by rewrite !Z.land_0_r, !andb_false_r, !andb_true_r.
Qed.

Lemma word_lor_locked : Z.lor w LOCKED_BIT = word ph n true rw ww.
Proof using Hph Hn.
  rewrite LOCKED_BIT_word, word_lor by auto with word.
  by rewrite !Z.lor_0_r, !orb_false_r, orb_true_r.
Qed.
End fields.

Lemma phase_lor_locked ph : phase_range ph → Z.lor ph LOCKED_BIT = word ph 0 true false false.
Proof. intros. rewrite (phase_word ph) at 1. by rewrite word_lor_locked by auto with word. Qed.
Lemma phase_lor_unity ph : phase_range ph → Z.lor ph READER_UNITY = word ph 1 false false false.
Proof.
  intros. rewrite (phase_word ph) at 1. rewrite READER_UNITY_word, word_lor by auto with word.
  by rewrite Z.lor_0_r, Z.lor_0_l.
Qed.

Lemma mod_count n : 0 <= n < 2 ^ 20 → n `mod` 2 ^ 20 = n.
Proof. apply Z.mod_small. Qed.
Lemma count_range_mod n : count_range (n `mod` 2 ^ 20).
Proof. unfold count_range. pose proof (Z.mod_pos_bound n (2 ^ 20)). lia. Qed.
#[export] Hint Resolve count_range_mod : word.
