(* ===== verification/Phase.v ===== *)
(** * The phase of an object (src/lib.rs, module [phase])

    [Phase] is declared with the macro of the third-party crate [bitflags].
    What that macro generates is a parameter: the class [Bitflags] lists the
    generated operations on the raw bits and states what the crate documents
    about each. [bitflags_1] is a concrete instance, used by the witnesses. *)

From stdpp Require Import base numbers strings list.
From S2P Require Import Prelude Word.
Open Scope Z_scope.

(** ** The flags, as raw bits (a [Phase] is its [bits]) *)

Abbreviation Phase := Z (only parsing).

Definition INITIALIZED : Phase := 1.
Definition INITIALIZATION_PANICKED : Phase := 2.
Definition INITIALIZATION_SKIPED : Phase := 4.
Definition REGISTERED : Phase := 8.
Definition REGISTRATION_PANICKED : Phase := 16.
Definition REGISTRATION_REFUSED : Phase := 32.
Definition FINALIZED : Phase := 64.
Definition FINALIZATION_PANICKED : Phase := 128.
Definition INITIALIZED_AND_REGISTERED : Phase := Z.lor INITIALIZED REGISTERED.

(** ** What the [bitflags] crate generates *)

(** Every flag of the declaration is one of the low eight bits. *)
Definition all_flags : Z := 255.

Class Bitflags := {
  empty_flags : Phase;
  from_bits : Z → option Phase;
  from_bits_truncate : Z → Phase;
  is_empty : Phase → bool;
  intersects : Phase → Phase → bool;
  flags_or : Phase → Phase → Phase;
  flags_and : Phase → Phase → Phase;
  flags_xor : Phase → Phase → Phase;
  flags_not : Phase → Phase;
  empty_flags_eq : empty_flags = 0;
  from_bits_eq v : from_bits v = if Z.ldiff v all_flags =? 0 then Some v else None;
  from_bits_truncate_eq v : from_bits_truncate v = Z.land v all_flags;
  is_empty_eq p : is_empty p = (p =? 0);
  intersects_eq p q : intersects p q = negb (Z.land p q =? 0);
  flags_or_eq p q : flags_or p q = Z.lor p q;
  flags_and_eq p q : flags_and p q = Z.land p q;
  flags_xor_eq p q : flags_xor p q = Z.lxor p q;
  flags_not_eq p : flags_not p = Z.ldiff all_flags p;
}.

Declare Scope phase_scope.
Delimit Scope phase_scope with phase.
Infix ".|" := flags_or (at level 50, left associativity) : phase_scope.
Infix ".&" := flags_and (at level 40, left associativity) : phase_scope.
Infix ".^" := flags_xor (at level 45, left associativity) : phase_scope.
Notation "'~.' p" := (flags_not p) (at level 35, right associativity) : phase_scope.
Open Scope phase_scope.

(** The crate's own definitions, for evaluation. *)
Definition bitflags_1 : Bitflags.
Proof.
  refine {|
    empty_flags := 0;
    from_bits v := if Z.ldiff v all_flags =? 0 then Some v else None;
    from_bits_truncate v := Z.land v all_flags;
    is_empty p := p =? 0;
    intersects p q := negb (Z.land p q =? 0);
    flags_or := Z.lor; flags_and := Z.land; flags_xor := Z.lxor;
    flags_not p := Z.ldiff all_flags p |}; reflexivity.
Defined.

(** ** Lemmas on phases *)

Lemma all_flags_ones : all_flags = Z.ones 8.
Proof. reflexivity. Qed.

Lemma phase_land_all p : phase_range p → Z.land p all_flags = p.
Proof.
  intros H. rewrite all_flags_ones, Z.land_ones by lia. by apply Z.mod_small.
Qed.

Lemma phase_ldiff_all p : phase_range p → Z.ldiff p all_flags = 0.
Proof.
  intros H. rewrite all_flags_ones, Z.ldiff_ones_r by lia.
  rewrite Z.shiftr_div_pow2 by lia. rewrite Z.div_small by done. done.
Qed.

Lemma phase_lor p q : phase_range p → phase_range q → phase_range (Z.lor p q).
Proof. apply (bitwise_bound 8 ltac:(lia) _ _ _ _ bitwise_lor). Qed.
Lemma phase_land p q : phase_range p → phase_range q → phase_range (Z.land p q).
Proof. apply (bitwise_bound 8 ltac:(lia) _ _ _ _ bitwise_land). Qed.
Lemma phase_lxor p q : phase_range p → phase_range q → phase_range (Z.lxor p q).
Proof. apply (bitwise_bound 8 ltac:(lia) _ _ _ _ bitwise_lxor). Qed.
Lemma phase_ldiff p q : phase_range p → phase_range q → phase_range (Z.ldiff p q).
Proof. apply (bitwise_bound 8 ltac:(lia) _ _ _ _ bitwise_ldiff). Qed.

Create HintDb phase.
#[export] Hint Resolve phase_lor phase_land phase_lxor phase_ldiff : phase.

(** A single-bit flag is a bit test. *)
Definition flag_bit (i : Z) : Phase := 2 ^ i.

Section phase.
Context {BF : Bitflags}.

Lemma phase_range_or p q : phase_range p → phase_range q → phase_range (p .| q).
Proof. rewrite flags_or_eq. apply phase_lor. Qed.
Lemma phase_range_and p q : phase_range p → phase_range q → phase_range (p .& q).
Proof. rewrite flags_and_eq. apply phase_land. Qed.
Lemma phase_range_xor p q : phase_range p → phase_range q → phase_range (p .^ q).
Proof. rewrite flags_xor_eq. apply phase_lxor. Qed.
Lemma phase_range_not p : phase_range p → phase_range (~. p).
Proof. rewrite flags_not_eq. apply phase_ldiff. unfold phase_range, all_flags. lia. Qed.
Lemma phase_range_empty : phase_range empty_flags.
Proof. rewrite empty_flags_eq. unfold phase_range. lia. Qed.
Lemma phase_range_truncate v : 0 <= v → phase_range (from_bits_truncate v).
Proof.
  intros. rewrite from_bits_truncate_eq, all_flags_ones, Z.land_ones by lia.
  apply Z.mod_pos_bound. lia.
Qed.

(** Truncating a lock word yields its phase field. *)
Lemma truncate_word ph n l rw ww :
  phase_range ph → count_range n → from_bits_truncate (word ph n l rw ww) = ph.
Proof.
  intros. rewrite from_bits_truncate_eq, all_flags_ones, Z.land_ones by lia.
  unfold word. rewrite Z.mul_comm, Z.mod_add by lia. by apply Z.mod_small.
Qed.

Lemma truncate_phase p : phase_range p → from_bits_truncate p = p.
Proof. intros. rewrite from_bits_truncate_eq. by apply phase_land_all. Qed.

Lemma xor_cancel p q : p .^ (p .^ q) = q.
Proof. by rewrite !flags_xor_eq, <- Z.lxor_assoc, Z.lxor_nilpotent, Z.lxor_0_l. Qed.

Lemma intersects_or p q r : intersects (p .| q) r = intersects p r || intersects q r.
Proof.
  rewrite !intersects_eq, flags_or_eq, Z.land_lor_distr_l, <- negb_andb. f_equal.
  apply eq_true_iff_eq. by rewrite andb_true_iff, !Z.eqb_eq, Z.lor_eq_0_iff.
Qed.

Lemma intersects_or_r p q r : intersects p (q .| r) = intersects p q || intersects p r.
Proof.
  rewrite !intersects_eq, flags_or_eq, Z.land_lor_distr_r, <- negb_andb. f_equal.
  apply eq_true_iff_eq. by rewrite andb_true_iff, !Z.eqb_eq, Z.lor_eq_0_iff.
Qed.

Lemma intersects_empty r : intersects empty_flags r = false.
Proof. by rewrite intersects_eq, empty_flags_eq, Z.land_0_l. Qed.

(** [intersects] against one flag is a bit test. *)
Lemma intersects_bit p i : 0 <= i → intersects p (flag_bit i) = Z.testbit p i.
Proof.
  intros Hi. rewrite intersects_eq. unfold flag_bit.
  destruct (Z.testbit p i) eqn:E.
  - apply negb_true_iff, Z.eqb_neq. intros H0.
    apply (f_equal (λ z, Z.testbit z i)) in H0.
    by rewrite Z.land_spec, E, Z.pow2_bits_true, Z.bits_0 in H0.
  - apply negb_false_iff, Z.eqb_eq. apply Z.bits_inj'. intros j Hj.
    rewrite Z.land_spec, Z.bits_0. destruct (decide (i = j)) as [->|].
    + by rewrite E.
    + rewrite Z.pow2_bits_false by done. by rewrite andb_false_r.
Qed.

Lemma intersects_and p q i :
  0 <= i → intersects (p .& q) (flag_bit i) = intersects p (flag_bit i) && intersects q (flag_bit i).
Proof. intros. by rewrite !intersects_bit, flags_and_eq, Z.land_spec. Qed.

Lemma intersects_not p i :
  0 <= i < 8 → intersects (~. p) (flag_bit i) = negb (intersects p (flag_bit i)).
Proof.
  intros. rewrite !intersects_bit, flags_not_eq, Z.ldiff_spec, all_flags_ones by lia.
  by rewrite Z.ones_spec_low by lia.
Qed.

Lemma is_empty_true p : is_empty p = true ↔ p = empty_flags.
Proof. by rewrite is_empty_eq, empty_flags_eq, Z.eqb_eq. Qed.

(** ** [impl Display for Phase] *)

(** One flag: its text is written when the flag is set, with the separator
    unless it is the first one written. *)
Definition write_flag (p : Phase) (acc : bool * string) (f : Phase * string) : bool * string :=
  let '(is_first, out) := acc in
  let '(flag, s) := f in
  if intersects p flag then
    (false, if is_first then String.append out s
            else String.append out (String.append " | " s))
  else acc.

Definition flag_names : list (Phase * string) :=
  [(INITIALIZED, "Initialized"); (INITIALIZATION_PANICKED, "Initialization panicked");
   (INITIALIZATION_SKIPED, "Initialization skiped"); (REGISTERED, "Registered");
   (REGISTRATION_PANICKED, "Registration panicked");
   (REGISTRATION_REFUSED, "Registration refused"); (FINALIZED, "Finalized");
   (FINALIZATION_PANICKED, "Finalization panicked")]%string.

Definition fmt (p : Phase) : string :=
  if is_empty p then "Phase (not initialized)"%string
  else
    let '(_, out) := foldl (write_flag p) (true, "Phase ("%string) flag_names in
    String.append out ")".
End phase.

#[export] Hint Resolve phase_range_or phase_range_and phase_range_xor phase_range_not
  phase_range_empty phase_range_truncate : phase.
#[export] Hint Extern 2 (phase_range _) =>
  (unfold phase_range; vm_compute; by split) : phase.

(** Evaluates the tests between constant flags. *)
Ltac flags_const :=
  repeat match goal with
  | |- context [intersects ?a ?b] =>
      let v := eval vm_compute in (negb (Z.land a b =? 0)) in
      lazymatch v with true => idtac | false => idtac end;
      replace (intersects a b) with v by (rewrite intersects_eq; reflexivity)
  end.

(** The text does not depend on how the flag operations are implemented. *)
Lemma fmt_bitflags_1 {BF : Bitflags} p : fmt p = @fmt bitflags_1 p.
Proof.
  unfold fmt. rewrite is_empty_eq. simpl is_empty. destruct (p =? 0); [done|].
  assert (∀ acc f, @write_flag BF p acc f = @write_flag bitflags_1 p acc f) as Hw.
  { intros [b o] [q t]. unfold write_flag. by rewrite intersects_eq. }
  assert (∀ l acc, foldl (@write_flag BF p) acc l = foldl (@write_flag bitflags_1 p) acc l) as Hf.
  { induction l as [|x l IH]; intros acc; simpl; [done|]. by rewrite Hw, IH. }
  by rewrite Hf.
Qed.

Definition phases : list Phase := Z.of_nat <$> seq 0 256.

Lemma phases_complete p : phase_range p → p ∈ phases.
Proof.
  intros [? ?]. unfold phases. apply list_elem_of_fmap. exists (Z.to_nat p).
  split; [lia|]. apply elem_of_seq. lia.
Qed.

Lemma fmt_NoDup : NoDup (@fmt bitflags_1 <$> phases).
Proof. apply (bool_decide_unpack _). vm_compute. done. Qed.

(** The displayed text determines the phase: no two phases print alike. *)
Lemma fmt_inj {BF : Bitflags} p q :
  phase_range p → phase_range q → fmt p = fmt q → p = q.
Proof.
  rewrite (fmt_bitflags_1 p), (fmt_bitflags_1 q). intros Hp Hq Heq.
  apply phases_complete, list_elem_of_lookup in Hp as [i Hi].
  apply phases_complete, list_elem_of_lookup in Hq as [j Hj].
  assert (i = j) as ->; [|congruence].
  assert ((@fmt bitflags_1 <$> phases) !! i = Some (@fmt bitflags_1 p)) as Hi' by (by rewrite list_lookup_fmap, Hi).
  assert ((@fmt bitflags_1 <$> phases) !! j = Some (@fmt bitflags_1 q)) as Hj' by (by rewrite list_lookup_fmap, Hj).
  rewrite <- Heq in Hj'. exact (NoDup_lookup _ _ _ _ fmt_NoDup Hi' Hj').
Qed.
