(* ===== verification/Atomics.v ===== *)
(** * Programs on atomic cells

    The shallow embedding of the crate's code: a program is a tree of atomic
    operations ([core::sync::atomic], [core::cell::Cell] and atomic steps on
    the protected data), ended by a result or a panic. The file gives programs
    their sequential run, their interleavings in a pool of threads, schedules that run
    such a pool, and a rely-guarantee judgement [ok] with its rules and its adequacy.

    Memory orderings are not modelled: the operations are sequentially
    consistent. A weak compare-exchange may fail spuriously. *)

From stdpp Require Import base list option numbers gmap relations.
From S2P Require Import Prelude Word.
Open Scope Z_scope.

Abbreviation loc := positive (only parsing).

(** The cells and the part of the state the cells protect. *)
Record state (U : Type) := State { mem : gmap loc Z; usr : U }.
Arguments State {U} mem usr.
Arguments mem {U} s.
Arguments usr {U} s.

(** ** Atomic operations

    [Local] is a sequence of accesses to a [Cell] that only one thread can
    reach, so nothing can happen between them; [Usr] is an atomic step on the
    protected part; [Sys] is a call of the operating system, atomic for the
    process, which also works on memory of its own. *)

Inductive op (U : Type) : Type → Type :=
| Load (l : loc) : op U Z
| Store (l : loc) (v : Z) : op U unit
| CompareExchange (weak : bool) (l : loc) (current new : Z) : op U (result Z Z)
| FetchXor (l : loc) (v : Z) : op U Z
| FetchOr (l : loc) (v : Z) : op U Z
| FetchAnd (l : loc) (v : Z) : op U Z
| FetchAdd (bits : Z) (l : loc) (v : Z) : op U Z
| FetchSub (bits : Z) (l : loc) (v : Z) : op U Z
| Local (T : Type) (l : loc) (f : Z → T * Z) : op U T
| Usr (T : Type) (f : U → T * U) : op U T
| Sys (T : Type) (f : gmap loc Z → T * gmap loc Z) : op U T.
Arguments Load {U} l.
Arguments Store {U} l v.
Arguments CompareExchange {U} weak l current new.
Arguments FetchXor {U} l v.
Arguments FetchOr {U} l v.
Arguments FetchAnd {U} l v.
Arguments FetchAdd {U} bits l v.
Arguments FetchSub {U} bits l v.
Arguments Local {U T} l f.
Arguments Usr {U T} f.
Arguments Sys {U T} f.

Section op.
Context {U : Type}.
Implicit Types s : state U.

Definition rd s (l : loc) : Z := default 0 (mem s !! l).
Definition wr s (l : loc) (v : Z) : state U := State (<[l := v]> (mem s)) (usr s).
Definition upd s (u : U) : state U := State (mem s) u.

(** A read-modify-write: the previous value is returned. *)
Definition rmw (f : Z → Z) (l : loc) s : Z * state U := (rd s l, wr s l (f (rd s l))).

Definition op_run {T} (o : op U T) : state U → T * state U :=
  match o in op _ T return state U → T * state U with
  | Load l => λ s, (rd s l, s)
  | Store l v => λ s, (tt, wr s l v)
  | CompareExchange _ l c n => λ s,
      if rd s l =? c then (Ok c, wr s l n) else (Err (rd s l), s)
  | FetchXor l v => rmw (λ x, Z.lxor x v) l
  | FetchOr l v => rmw (λ x, Z.lor x v) l
  | FetchAnd l v => rmw (λ x, Z.land x v) l
  | FetchAdd bits l v => rmw (λ x, wrap bits (x + v)) l
  | FetchSub bits l v => rmw (λ x, wrap bits (x - v)) l
  | Local l f => λ s, let '(x, v) := f (rd s l) in (x, wr s l v)
  | Usr f => λ s, let '(x, u) := f (usr s) in (x, upd s u)
  | Sys f => λ s, let '(x, m) := f (mem s) in (x, State m (usr s))
  end.

(** The spurious failure of a weak compare-exchange. *)
Definition op_spurious {T} (o : op U T) : state U → option T :=
  match o in op _ T return state U → option T with
  | CompareExchange true l _ _ => λ s, Some (Err (rd s l))
  | _ => λ _, None
  end.

Definition op_step {T} (o : op U T) s (x : T) s' : Prop :=
  op_run o s = (x, s') ∨ (op_spurious o s = Some x ∧ s' = s).

Lemma rd_wr s l v : rd (wr s l v) l = v.
Proof. unfold rd, wr; simpl. by rewrite lookup_insert_eq. Qed.
Lemma rd_wr_ne s l l' v : l ≠ l' → rd (wr s l v) l' = rd s l'.
Proof. intros. unfold rd, wr; simpl. by rewrite lookup_insert_ne. Qed.
Lemma rd_upd s u l : rd (upd s u) l = rd s l.
Proof. done. Qed.
Lemma usr_wr s l v : usr (wr s l v) = usr s.
Proof. done. Qed.
Lemma usr_upd s u : usr (upd s u) = u.
Proof. done. Qed.
End op.
Create Rewrite HintDb state.
#[export] Hint Rewrite @rd_wr @rd_upd @usr_wr @usr_upd : state.

(** ** Programs *)

(** The assertions of the futex locker that the model tells apart, where it is built
    to stop a thread in which one of them fails. *)
Inductive assertion := WriterCountOverflow | WriterCountUnderflow | ReadersConverted | Other.
#[export] Instance assertion_eq_dec : EqDecision assertion.
Proof. solve_decision. Defined.

Inductive prog (U A : Type) : Type :=
| Ret (a : A)
| Panic
| Undef  (** undefined behaviour, [unreachable_unchecked] among it *)
| Diverge  (** a bounded loop ran out of fuel *)
| Stops (a : assertion)  (** a failed assertion ended the thread *)
| Vis (T : Type) (o : op U T) (k : T → prog U A).
Arguments Ret {U A} a.
Arguments Panic {U A}.
Arguments Undef {U A}.
Arguments Diverge {U A}.
Arguments Stops {U A} a.
Arguments Vis {U A T} o k.

Section prog.
Context {U : Type}.

#[export] Instance prog_ret : MRet (prog U) := λ A a, Ret a.

Fixpoint prog_bind_def {A B} (k : A → prog U B) (p : prog U A) : prog U B :=
  match p with
  | Ret a => k a
  | Panic => Panic
  | Undef => Undef
  | Diverge => Diverge
  | Stops a => Stops a
  | Vis o k' => Vis o (λ x, prog_bind_def k (k' x))
  end.
#[export] Instance prog_bind : MBind (prog U) := λ A B, prog_bind_def.

Definition do_op {T} (o : op U T) : prog U T := Vis o Ret.

(** Unwinding: [None] when the program panics. *)
Fixpoint catch {A} (p : prog U A) : prog U (option A) :=
  match p with
  | Ret a => Ret (Some a)
  | Panic => Ret None
  | Undef => Undef
  | Diverge => Diverge
  | Stops a => Stops a
  | Vis o k => Vis o (λ x, catch (k x))
  end.

Definition assert_prog (b : bool) : prog U unit := if b then Ret tt else Panic.

Lemma assert_bind {A} b (k : unit → prog U A) : b = true → assert_prog b ≫= k = k tt.
Proof. by intros ->. Qed.

(** ** Sequential run

    The oracle lists which of the weak compare-exchanges fail spuriously; none
    does once it is exhausted. *)
Fixpoint run {A} (p : prog U A) (orc : list bool) (s : state U) : outcome A * state U :=
  match p with
  | Ret a => (Returned a, s)
  | Panic => (Panicked, s)
  | Undef => (Undefined, s)
  | Diverge => (OutOfFuel, s)
  | Stops _ => (Stopped, s)
  | Vis o k =>
      match op_spurious o s, orc with
      | Some x, true :: orc => run (k x) orc s
      | Some _, false :: orc => let '(x, s') := op_run o s in run (k x) orc s'
      | _, _ => let '(x, s') := op_run o s in run (k x) orc s'
      end
  end.

(** A program without fuel-bounded loops, and without assertions that stop it,
    always comes to an end. *)
Fixpoint fuel_free {A} (p : prog U A) : Prop :=
  match p with
  | Ret _ | Panic | Undef => True
  | Diverge | Stops _ => False
  | Vis o k => ∀ x, fuel_free (k x)
  end.

Lemma fuel_free_bind {A B} (p : prog U A) (k : A → prog U B) :
  fuel_free p → (∀ a, fuel_free (k a)) → fuel_free (p ≫= k).
Proof. intros Hp Hk. induction p as [a| | | | |T o k' IH]; simpl in *; auto. Qed.

Lemma fuel_free_catch {A} (p : prog U A) : fuel_free p → fuel_free (catch p).
Proof. induction p as [a| | | | |T o k' IH]; simpl in *; auto. Qed.

Lemma fuel_free_run {A} (p : prog U A) orc s : fuel_free p → (run p orc s).1 ≠ OutOfFuel ∧ (run p orc s).1 ≠ Stopped.
Proof.
  revert orc s. induction p as [a| | | | |T o k IH]; simpl; intros orc s Hp; try done.
  destruct (op_spurious o s) as [x|], (op_run o s) as [y s'], orc as [|[] orc]; auto.
Qed.

Lemma run_bind {A B} (p : prog U A) (k : A → prog U B) s :
  run (p ≫= k) [] s =
    match run p [] s with
    | (Returned a, s') => run (k a) [] s'
    | (Panicked, s') => (Panicked, s')
    | (Undefined, s') => (Undefined, s')
    | (OutOfFuel, s') => (OutOfFuel, s')
    | (Stopped, s') => (Stopped, s')
    end.
Proof.
  revert s. induction p as [a| | | | |T o k' IH]; simpl; intros s; try done.
  destruct (op_spurious o s) as [x|], (op_run o s) as [y s']; apply IH.
Qed.

(** A compare-exchange on the value the cell holds: it succeeds, or it consumes
    a spurious failure. *)
Lemma run_cas {A} weak l cur new (k : result Z Z → prog U A) orc s :
  rd s l = cur →
  (∃ orc', (length orc' <= length orc)%nat ∧
     run (Vis (CompareExchange weak l cur new) k) orc s = run (k (Ok cur)) orc' (wr s l new)) ∨
  (∃ orc', weak = true ∧ (length orc' < length orc)%nat ∧
     run (Vis (CompareExchange weak l cur new) k) orc s = run (k (Err cur)) orc' s).
Proof.
  intros Hrd. cbn [run op_run op_spurious]. rewrite Hrd, Z.eqb_refl.
  destruct weak; [|left; exists orc; split; [lia|done]].
  destruct orc as [|[] orc]; cbn [length].
  - left. exists []. split; [simpl; lia|done].
  - right. exists orc. split_and!; [done|lia|by rewrite Hrd].
  - left. exists orc. split; [lia|done].
Qed.

(** With an oracle, the continuation is run with what is left of it. *)
Lemma run_bind_oracle {A B} (p : prog U A) (k : A → prog U B) orc s :
  ∃ orc', (length orc' <= length orc)%nat ∧
  run (p ≫= k) orc s =
    match run p orc s with
    | (Returned a, s') => run (k a) orc' s'
    | (Panicked, s') => (Panicked, s')
    | (Undefined, s') => (Undefined, s')
    | (OutOfFuel, s') => (OutOfFuel, s')
    | (Stopped, s') => (Stopped, s')
    end.
Proof.
  revert orc s. induction p as [a| | | | |T o k' IH]; simpl; intros orc s;
    [exists orc; split; [lia|done]..|].
  destruct (op_spurious o s) as [x|]; [|destruct (op_run o s); apply IH].
  destruct orc as [|[] orc]; destruct (op_run o s) as [y s']; [apply IH| |].
  - destruct (IH x orc s) as (orc' & ? & ?). exists orc'. simpl. split; [lia|done].
  - destruct (IH y orc s') as (orc' & ? & ?). exists orc'. simpl. split; [lia|done].
Qed.

Lemma run_catch {A} (p : prog U A) s :
  run (catch p) [] s =
    match run p [] s with
    | (Returned a, s') => (Returned (Some a), s')
    | (Panicked, s') => (Returned None, s')
    | (Undefined, s') => (Undefined, s')
    | (OutOfFuel, s') => (OutOfFuel, s')
    | (Stopped, s') => (Stopped, s')
    end.
Proof.
  revert s. induction p as [a| | | | |T o k' IH]; simpl; intros s; try done.
  destruct (op_spurious o s) as [x|], (op_run o s) as [y s']; apply IH.
Qed.

(** ** Interleavings *)

Inductive pool_step : relation (list (prog U unit) * state U) :=
| PoolStep i T (o : op U T) k ps s x s' :
    ps !! i = Some (Vis o k) → op_step o s x s' →
    pool_step (ps, s) (<[i := k x]> ps, s').

Definition reachable (ps : list (prog U unit)) s ps' s' : Prop :=
  rtc pool_step (ps, s) (ps', s').

(** No thread has panicked or run into undefined behaviour. *)
Definition no_panic (ps : list (prog U unit)) : Prop := (Panic ∉ ps) ∧ (Undef ∉ ps).
Definition no_undef (ps : list (prog U unit)) : Prop := Undef ∉ ps.
End prog.

(** ** Running a pool by a schedule *)

Section exec.
Context {U : Type}.

Definition sched_step (i : nat) (c : list (prog U unit) * state U)
    : option (list (prog U unit) * state U) :=
  match c.1 !! i with
  | Some (Vis o k) => let '(x, s) := op_run o c.2 in Some (<[i := k x]> c.1, s)
  | _ => None
  end.

(** Each number of the schedule is a thread that does one operation. *)
Fixpoint exec (sched : list nat) (c : list (prog U unit) * state U)
    : option (list (prog U unit) * state U) :=
  match sched with
  | [] => Some c
  | i :: sched => match sched_step i c with Some c => exec sched c | None => None end
  end.

Lemma sched_step_sound i c c' : sched_step i c = Some c' → pool_step c c'.
Proof.
  destruct c as [ps s]. unfold sched_step. simpl.
  destruct (ps !! i) as [[a| | | | |T o k]|] eqn:E; try done.
  destruct (op_run o s) as [x s'] eqn:Eo. intros [= <-]. econstructor; [exact E|by left].
Qed.

Lemma exec_sound sched c c' : exec sched c = Some c' → rtc pool_step c c'.
Proof.
  revert c. induction sched as [|i sched IH]; intros c; simpl; [by intros [= <-]|].
  destruct (sched_step i c) as [c1|] eqn:E; [|done]. intros Hc.
  eapply rtc_l; [by eapply sched_step_sound|by apply IH].
Qed.

(** What a test finds at the end of a schedule holds of a reachable state. *)
Lemma exec_reaches sched ps s (P : list (prog U unit) → state U → bool) :
  match exec sched (ps, s) with Some (ps', s') => P ps' s' | None => false end = true →
  ∃ ps' s', reachable ps s ps' s' ∧ P ps' s' = true.
Proof.
  destruct (exec sched (ps, s)) as [[ps' s']|] eqn:E; [|done].
  intros HP. exists ps', s'. split; [by eapply exec_sound|done].
Qed.
End exec.

Definition has_panicked {U} (ps : list (prog U unit)) (i : nat) : bool :=
  match ps !! i with Some Panic => true | _ => false end.
Definition has_returned {U} (ps : list (prog U unit)) (i : nat) : bool :=
  match ps !! i with Some (Ret tt) => true | _ => false end.
Definition all_returned {U} (ps : list (prog U unit)) : bool := forallb (has_returned ps) (seq 0 (length ps)).

(** ** Rely-guarantee *)

(** Takes a program apart to show that it has no fuel-bounded loop. *)
Ltac fuel_free_step :=
  lazymatch goal with
  | |- fuel_free (_ ≫= _) => apply fuel_free_bind; [|intros ?]
  | |- fuel_free (catch _) => apply fuel_free_catch
  | |- fuel_free (do_op _) => intros ?; exact I
  | |- fuel_free (assert_prog ?b) => destruct b; exact I
  | |- fuel_free (match ?x with _ => _ end) => destruct x; cbv beta iota
  | |- fuel_free (Ret _) => exact I
  | |- fuel_free Panic => exact I
  | |- fuel_free Undef => exact I
  | |- fuel_free (Vis _ _) => intros ?; cbv beta
  | |- ∀ _, _ => intros ?; cbv beta
  end.

Section ok.
Context {U G : Type} `{!PCM G} (inv : state U → G → Prop).

(** [ok p g Q Qp]: a thread that owns [g] can run [p] among any others. Every
    step keeps the invariant for some new share of the thread and the same
    frame; a result satisfies [Q] and a panic [Qp]. *)
Fixpoint ok {A} (p : prog U A) (g : G) (Q : A → G → Prop) (Qp : G → Prop) : Prop :=
  match p with
  | Ret a => Q a g
  | Panic => Qp g
  | Undef => False
  | Diverge | Stops _ => True
  | Vis o k => ∀ f s, inv s (g ⋅ f) → ∀ x s', op_step o s x s' →
      ∃ g', inv s' (g' ⋅ f) ∧ ok (k x) g' Q Qp
  end.

Lemma ok_mono {A} (p : prog U A) g Q Q' Qp Qp' :
  ok p g Q Qp → (∀ a h, Q a h → Q' a h) → (∀ h, Qp h → Qp' h) → ok p g Q' Qp'.
Proof.
  intros Hok HQ HQp. revert g Hok.
  induction p as [a| | | | |T o k IH]; simpl; intros g Hok; auto.
  intros f s Hinv x s' Hstep. destruct (Hok f s Hinv x s' Hstep) as (g' & ? & ?); eauto.
Qed.

Lemma ok_bind {A B} (p : prog U A) (k : A → prog U B) g Q Qp :
  ok p g (λ a h, ok (k a) h Q Qp) Qp → ok (p ≫= k) g Q Qp.
Proof.
  revert g. induction p as [a| | | | |T o k' IH]; simpl; intros g Hok; auto.
  intros f s Hinv x s' Hstep. destruct (Hok f s Hinv x s' Hstep) as (g' & ? & ?); eauto.
Qed.

Lemma ok_catch {A} (p : prog U A) g Q Qp :
  ok p g (λ a, Q (Some a)) (Q None) → ok (catch p) g Q Qp.
Proof.
  revert g. induction p as [a| | | | |T o k' IH]; simpl; intros g Hok; auto.
  intros f s Hinv x s' Hstep. destruct (Hok f s Hinv x s' Hstep) as (g' & ? & ?); eauto.
Qed.

Lemma ok_frame {A} (p : prog U A) g h Q Qp :
  ok p g (λ a g', Q a (g' ⋅ h)) (λ g', Qp (g' ⋅ h)) → ok p (g ⋅ h) Q Qp.
Proof.
  revert g. induction p as [a| | | | |T o k' IH]; simpl; intros g Hok; auto.
  intros f s Hinv x s' Hstep. rewrite <- (assoc_L pcm_op) in Hinv.
  destruct (Hok _ s Hinv x s' Hstep) as (g' & Hinv' & Hk).
  exists (g' ⋅ h). rewrite <- (assoc_L pcm_op). auto.
Qed.

(** A step that uses the part [o1] of what the thread owns. *)
Lemma ok_frame_bind {A B} (p : prog U A) (k : A → prog U B) o1 o2 Q Q' Qp :
  ok p o1 Q Qp → (∀ a o, Q a o → ok (k a) (o ⋅ o2) Q' (λ _, False)) → (∀ o, ¬ Qp o) →
  ok (p ≫= k) (o1 ⋅ o2) Q' (λ _, False).
Proof.
  intros Hp Hk HQp. apply ok_bind, ok_frame. eapply ok_mono; [exact Hp|exact Hk|].
  intros o Ho. by apply HQp in Ho.
Qed.

(** One operation that cannot fail spuriously. *)
Lemma ok_det {A T} (o : op U T) (k : T → prog U A) g Q Qp :
  (∀ s, op_spurious o s = None) →
  (∀ f s, inv s (g ⋅ f) →
    let '(x, s') := op_run o s in ∃ g', inv s' (g' ⋅ f) ∧ ok (k x) g' Q Qp) →
  ok (Vis o k) g Q Qp.
Proof.
  intros Hsp H f s Hinv x s' [Hstep|[Hbad _]]; [|by rewrite Hsp in Hbad].
  specialize (H f s Hinv). by rewrite Hstep in H.
Qed.

Lemma ok_op {T} (o : op U T) g Q Qp :
  (∀ s, op_spurious o s = None) →
  (∀ f s, inv s (g ⋅ f) →
    let '(x, s') := op_run o s in ∃ g', inv s' (g' ⋅ f) ∧ Q x g') →
  ok (do_op o) g Q Qp.
Proof. intros. by apply ok_det. Qed.

(** A compare-exchange succeeds on the expected value only; it may fail on any
    when it is weak. *)
Lemma ok_cas {A} weak l cur new (k : result Z Z → prog U A) g Q Qp :
  (∀ f s, inv s (g ⋅ f) → rd s l = cur →
    ∃ g', inv (wr s l new) (g' ⋅ f) ∧ ok (k (Ok cur)) g' Q Qp) →
  (∀ f s, inv s (g ⋅ f) → weak = true ∨ rd s l ≠ cur →
    ∃ g', inv s (g' ⋅ f) ∧ ok (k (Err (rd s l))) g' Q Qp) →
  ok (Vis (CompareExchange weak l cur new) k) g Q Qp.
Proof.
  intros Hok Herr f s Hinv x s' [Hstep|[Hsp ->]]; simpl in *.
  - destruct (Z.eqb_spec (rd s l) cur) as [Heq|Hne]; simplify_eq; eauto.
  - destruct weak; [|done]. simplify_eq. eauto.
Qed.

(** A solo run of a program that is [ok] keeps the invariant. *)
Lemma ok_run {A} (p : prog U A) orc g f s Q Qp :
  ok p g Q Qp → inv s (g ⋅ f) →
  let '(r, s') := run p orc s in
  match r with
  | Returned a => ∃ g', inv s' (g' ⋅ f) ∧ Q a g'
  | Panicked => ∃ g', inv s' (g' ⋅ f) ∧ Qp g'
  | Undefined => False
  | OutOfFuel | Stopped => True
  end.
Proof.
  revert orc g s. induction p as [a| | | | |T o k IH]; simpl; intros orc g s Hok Hinv; eauto.
  assert (∀ orc, let '(r, s') := (let '(x, s') := op_run o s in run (k x) orc s') in
     match r with
     | Returned a => ∃ g', inv s' (g' ⋅ f) ∧ Q a g'
     | Panicked => ∃ g', inv s' (g' ⋅ f) ∧ Qp g'
     | Undefined => False
     | OutOfFuel | Stopped => True
     end) as Hrun.
  { intros orc'. destruct (op_run o s) as [x s'] eqn:E.
    destruct (Hok f s Hinv x s' (or_introl E)) as (g' & ? & ?). by apply (IH x orc' g'). }
  destruct (op_spurious o s) as [x|] eqn:E; [|apply Hrun].
  destruct orc as [|[] orc]; try apply Hrun.
  destruct (Hok f s Hinv x s (or_intror (conj E eq_refl))) as (g' & ? & ?). by apply (IH x orc g').
Qed.

(** Adequacy: in every state a pool of [ok] threads reaches, the invariant
    holds for some shares of the threads and no thread has panicked. *)
Lemma ok_pool ps gs s ps' s' :
  Forall2 (λ p g, ok p g (λ _ _, True) (λ _, False)) ps gs →
  inv s (pcm_sum gs) →
  reachable ps s ps' s' →
  ∃ gs', inv s' (pcm_sum gs') ∧
    Forall2 (λ p g, ok p g (λ _ _, True) (λ _, False)) ps' gs'.
Proof.
  intros Hok Hinv Hreach. unfold reachable in Hreach.
  remember (ps, s) as c eqn:Ec. remember (ps', s') as c' eqn:Ec'.
  revert ps gs s Ec Hok Hinv.
  induction Hreach as [c|c c1 c2 Hstep Hrtc IH]; intros ps gs s -> Hok Hinv.
  { simplify_eq. eauto. }
  inversion Hstep as [i T o k ps0 s0 x s1 Hi Hop]; subst.
  destruct (Forall2_lookup_l _ _ _ _ _ Hok Hi) as (g & Hg & Hokg).
  rewrite (pcm_sum_lookup _ _ _ Hg) in Hinv.
  destruct (Hokg _ _ Hinv _ _ Hop) as (g' & Hinv' & Hk).
  apply (IH eq_refl (<[i := k x]> ps) (<[i := g']> gs) s1); [done| |].
  - by apply Forall2_insert.
  - by rewrite (pcm_sum_insert _ _ _ g' Hg).
Qed.

Lemma ok_pool_no_panic ps gs s ps' s' :
  Forall2 (λ p g, ok p g (λ _ _, True) (λ _, False)) ps gs →
  inv s (pcm_sum gs) → reachable ps s ps' s' → no_panic ps'.
Proof.
  intros Hok Hinv Hreach.
  destruct (ok_pool _ _ _ _ _ Hok Hinv Hreach) as (gs' & _ & Hok').
  split; intros [i Hi]%list_elem_of_lookup;
    by destruct (Forall2_lookup_l _ _ _ _ _ Hok' Hi) as (g & _ & ?).
Qed.
End ok.
