(* ===== verification/SpinWait.v ===== *)
(** * Exponential backoff (src/phase_locker/spin_wait.rs)

    A [SpinWait] only counts how often it was asked to wait. What the wait is
    (a busy loop of some iterations, or yielding the processor) has no effect
    on the state; it is returned so that its length can be bounded. *)

From stdpp Require Import base numbers.
From S2P Require Import Prelude Word.
Open Scope Z_scope.

Inductive pause :=
| SpinLoop (iterations : Z)  (** [hint::spin_loop] that many times *)
| YieldNow
| NoPause.

(** [cpu_relax] *)
Definition cpu_relax (iterations : u32) : pause := SpinLoop iterations.

Record SpinWait := { counter : u32 }.

Definition new : SpinWait := {| counter := 0 |}.

Definition reset (_ : SpinWait) : SpinWait := {| counter := 0 |}.

Definition spin (sw : SpinWait) : bool * pause * SpinWait :=
  if counter sw >=? 10 then (false, NoPause, sw)
  else
    let c := wrap 32 (counter sw + 1) in
    if c <=? 3 then (true, cpu_relax (wrap 32 (Z.shiftl 1 c)), {| counter := c |})
    else (true, YieldNow, {| counter := c |}).

Definition spin_no_yield (sw : SpinWait) : bool * pause * SpinWait :=
  let c := wrap 32 (counter sw + 1) in
  let c := if c >? 10 then 10 else c in
  (true, cpu_relax (wrap 32 (Z.shiftl 1 c)), {| counter := c |}).

(** Calls [spin] until it answers that the thread should park, at most [fuel]
    times; the number of waits. *)
Fixpoint spins (fuel : nat) (sw : SpinWait) : option nat :=
  match fuel with
  | O => None
  | S fuel =>
      let '(b, _, sw') := spin sw in
      if b then option_map S (spins fuel sw') else Some O
  end.

Definition spin_ok (sw : SpinWait) : Prop := 0 <= counter sw <= 10.

Lemma spin_wait_cases sw :
  spin_ok sw →
  counter sw = 0 ∨ counter sw = 1 ∨ counter sw = 2 ∨ counter sw = 3 ∨ counter sw = 4 ∨
  counter sw = 5 ∨ counter sw = 6 ∨ counter sw = 7 ∨ counter sw = 8 ∨ counter sw = 9 ∨
  counter sw = 10.
Proof. unfold spin_ok. lia. Qed.

(** Case analysis on the counter of a well-formed [SpinWait]. *)
Ltac spin_cases sw H :=
  pose proof (spin_wait_cases sw H); destruct sw as [c]; cbn [counter] in *;
  repeat match goal with H : _ ∨ _ |- _ => destruct H as [H|H] end; subst c.

Ltac spin_eval :=
  repeat match goal with
  | |- context [spin ?s] => let v := eval vm_compute in (spin s) in change (spin s) with v
  | |- context [spin_no_yield ?s] =>
      let v := eval vm_compute in (spin_no_yield s) in change (spin_no_yield s) with v
  end.

(** C32: the backoff never overflows its counter and never busy-waits more than
    1024 iterations, and [spin_no_yield] never asks to park. *)
Theorem spin_wait_bounds sw :
  spin_ok sw →
  (let '(b, p, sw') := spin sw in
   spin_ok sw' ∧ (b = false ↔ counter sw = 10) ∧ ∀ n, p = SpinLoop n → 2 <= n <= 8) ∧
  (let '(b, p, sw') := spin_no_yield sw in
   spin_ok sw' ∧ b = true ∧ ∃ n, p = SpinLoop n ∧ 2 <= n <= 1024).
Proof.
  intros H. spin_cases sw H; spin_eval; unfold spin_ok; simpl counter;
    (split; [split; [lia|]; split; [done|]; intros n Hn; simplify_eq; lia|]);
    (split; [lia|]; split; [done|]; eexists; split; [done|lia]).
Qed.

Lemma spin_wait_bounds_witness :
  spin_ok new ∧
  (let '(b, _, sw') := spin new in spin_ok sw' ∧ (b = false ↔ counter new = 10)).
Proof.
  assert (spin_ok new) as H by (unfold spin_ok; simpl; lia).
  split; [exact H|]. destruct (spin_wait_bounds new H) as [(? & ? & _) _]. split; assumption.
Defined.

(** A fresh [SpinWait] makes the caller wait exactly ten times, then says
    that it should park. *)
Theorem spins_ten fuel : (11 <= fuel)%nat → spins fuel new = Some 10%nat.
Proof.
  intros H. do 11 (destruct fuel as [|fuel]; [lia|]). reflexivity.
Qed.

Lemma spins_ten_witness : spins 11 new = Some 10%nat.
Proof. apply (spins_ten 11). lia. Defined.
