(* ===== verification/Locker.v ===== *)
(** * Phase lockers (src/phase_locker.rs)

    The traits [PhaseLocker] and [PhaseGuard] as a class of operations, and
    the contract of a phase locker as a class of laws, [PhaseLockerSpec]: what
    the sequentializers are verified against and what each implementation
    proves. *)

From stdpp Require Import base list option numbers.
From S2P Require Import Prelude Word Phase Atomics.
Open Scope Z_scope.

Inductive LockNature := LNRead | LNWrite | LNNone.
#[export] Instance LockNature_eq_dec : EqDecision LockNature.
Proof. solve_decision. Defined.

Inductive LockResult (R W : Type) : Type :=
| LRRead (r : R)
| LRWrite (w : W)
| LRNone (p : Phase).
Arguments LRRead {R W} r.
Arguments LRWrite {R W} w.
Arguments LRNone {R W} p.

Abbreviation How := (Phase → LockNature) (only parsing).

(** The guards are parameterised by the type [T] of the reference they hold. *)
Class PhaseLocker (U L : Type) := {
  ReadGuard : Type → Type;
  WriteGuard : Type → Type;
  pl_lock {T} : L → T → How → How → Phase → prog U (LockResult (ReadGuard T) (WriteGuard T));
  pl_try_lock {T} : L → T → How → Phase → prog U (option (LockResult (ReadGuard T) (WriteGuard T)));
  pl_lock_mut {T} : L → T → prog U (WriteGuard T);
  pl_phase : L → prog U Phase;
  (* PhaseGuard *)
  wg_target {T} : WriteGuard T → T;
  wg_set_phase {T} : WriteGuard T → Phase → WriteGuard T;
  wg_commit_phase {T} : WriteGuard T → prog U unit;
  wg_phase {T} : WriteGuard T → Phase;
  wg_map {T S} : WriteGuard T → (T → S) → WriteGuard S;
  wg_drop {T} : WriteGuard T → prog U unit;
  wg_into_read {T} : WriteGuard T → prog U (ReadGuard T);
  (* read guards *)
  rg_target {T} : ReadGuard T → T;
  rg_phase {T} : ReadGuard T → prog U Phase;
  rg_map {T S} : ReadGuard T → (T → S) → ReadGuard S;
  rg_clone {T} : ReadGuard T → prog U (ReadGuard T);
  rg_drop {T} : ReadGuard T → prog U unit;
}.

(** [PhaseGuard::transition]: both implementations read the same. The guard is
    returned beside the caught outcome, [None] when [f] panicked: unwinding
    then drops the guard in the frame that owns it. *)
Definition transition {U L} `{!PhaseLocker U L} {T R}
    (g : WriteGuard T) (f : T → prog U R) (on_success on_panic : Phase)
    : prog U (WriteGuard T * option R) :=
  let g := wg_set_phase g on_panic in
  res ← catch (f (wg_target g));
  match res with
  | Some r => Ret (wg_set_phase g on_success, Some r)
  | None => Ret (g, None)
  end.

(** The trait [MutPhaseLocker]: the same through an exclusive reference. *)
Class MutPhaseLocker (U L : Type) := {
  get_phase_unique : L → prog U Phase;
  set_phase_unique : L → Phase → prog U unit;
  transition_unique {R} : L → prog U R → Phase → Phase → prog U R;
}.

(** ** The contract

    The part of the user state a locker protects is seen through [view]: only
    the holder of the write lock changes it. [R] relates it to the phase
    whenever no writer is at work. [K] relates the whole user state to the phase
    in the lock word at any time. The phases satisfying [pub] are left for such
    phases only: once one has been observed, [K] holds for one, with or without
    a guard. [tick] tells that a ticket has been given out ([Tickets]): only who
    gives or takes it changes its value. *)

Record contract (U D : Type) := Contract {
  view : U → D;
  K : Phase → U → Prop;
  R : Phase → D → Prop;
  pub : Phase → bool;
  tick : U → bool;
}.
Arguments Contract {U D} view K R pub tick.
Arguments view {U D} c.
Arguments K {U D} c.
Arguments R {U D} c.
Arguments pub {U D} c.
Arguments tick {U D} c.

(** With data [d] under the write lock, the phase may go from [p] to [q]. *)
Definition moves {U D} (c : contract U D) (p q : Phase) (d : D) : Prop :=
  (∀ u, view c u = d → K c p u → K c q u) ∧ R c q d ∧ (pub c p = true → pub c q = true).

(** Ownership: [own_w p d] is the exclusive access of a writer that found
    phase [p] and whose data is now [d]; [own_r p d] one of the shared
    accesses; [own_pub] the knowledge that a public phase has been reached. *)
Class PhaseLockerSpec {U L} (ops : PhaseLocker U L) {G : Type} {P : PCM G} {D : Type}
    (c : contract U D) (l : L) := {
  linv : state U → G → Prop;
  own_w : Phase → D → G;
  own_r : Phase → D → G;
  own_pub : G;
  (** [wg_is g t p q]: [g] guards [t] on the locker, was taken at phase [p]
      and will leave phase [q]. [lock_panics] tells whether [lock] may panic, and
      [clones_bounded] whether cloning a read guard respects the bound of the
      reader count. *)
  wg_is {T} : WriteGuard T → T → Phase → Phase → Prop;
  rg_is {T} : ReadGuard T → T → Phase → Prop;
  lock_panics : bool;
  clones_bounded : bool;
  spec_lock {T} (t : T) how wake hint :
    phase_range hint →
    ok linv (pl_lock l t how wake hint) pcm_unit
      (λ r g, match r with
        | LRRead rg => ∃ p d, g = own_r p d ∧ R c p d ∧ rg_is rg t p ∧ how p = LNRead
        | LRWrite wg => ∃ p d, g = own_w p d ∧ R c p d ∧ wg_is wg t p p ∧ how p = LNWrite
        | LRNone p => g = (if pub c p then own_pub else pcm_unit) ∧ phase_range p ∧
                      (how p = LNNone ∨ wake p = LNNone)
        end)
      (λ g, g = pcm_unit ∧ lock_panics = true);
  spec_try_lock {T} (t : T) how hint :
    phase_range hint →
    ok linv (pl_try_lock l t how hint) pcm_unit
      (λ r g, match r with
        | Some (LRRead rg) => ∃ p d, g = own_r p d ∧ R c p d ∧ rg_is rg t p ∧ how p = LNRead
        | Some (LRWrite wg) => ∃ p d, g = own_w p d ∧ R c p d ∧ wg_is wg t p p ∧ how p = LNWrite
        | Some (LRNone p) => g = (if pub c p then own_pub else pcm_unit) ∧ phase_range p ∧
                             how p = LNNone
        | None => g = pcm_unit ∨ ∃ p, g = (if pub c p then own_pub else pcm_unit)
        end)
      (λ _, False);
  spec_phase :
    ok linv (pl_phase l) pcm_unit
      (λ p g, g = (if pub c p then own_pub else pcm_unit) ∧ phase_range p) (λ _, False);
  spec_wg_target {T} (g : WriteGuard T) t p q : wg_is g t p q → wg_target g = t;
  spec_wg_phase {T} (g : WriteGuard T) t p q : wg_is g t p q → wg_phase g = q ∧ phase_range p ∧ phase_range q;
  spec_wg_set_phase {T} (g : WriteGuard T) t p q q' :
    wg_is g t p q → phase_range q' → wg_is (wg_set_phase g q') t p q';
  spec_wg_map {T S} (g : WriteGuard T) (f : T → S) t p q : wg_is g t p q → wg_is (wg_map g f) (f t) p q;
  spec_wg_drop {T} (g : WriteGuard T) t p q d :
    wg_is g t p q → moves c p q d →
    ok linv (wg_drop g) (own_w p d)
      (λ _ h, h = (if pub c q then own_pub else pcm_unit)) (λ _, False);
  spec_wg_into_read {T} (g : WriteGuard T) t p q d :
    wg_is g t p q → moves c p q d →
    ok linv (wg_into_read g) (own_w p d) (λ r h, h = own_r q d ∧ rg_is r t q) (λ _, False);
  spec_rg_target {T} (g : ReadGuard T) t p : rg_is g t p → rg_target g = t;
  spec_rg_phase {T} (g : ReadGuard T) t p d :
    rg_is g t p →
    ok linv (rg_phase g) (own_r p d) (λ p' h, p' = p ∧ h = own_r p d) (λ _, False);
  spec_rg_map {T S} (g : ReadGuard T) (f : T → S) t p : rg_is g t p → rg_is (rg_map g f) (f t) p;
  spec_rg_drop {T} (g : ReadGuard T) t p d :
    rg_is g t p →
    ok linv (rg_drop g) (own_r p d)
      (λ _ h, h = (if pub c p then own_pub else pcm_unit)) (λ _, False);
  spec_rg_clone {T} (g : ReadGuard T) t p d :
    clones_bounded = true → rg_is g t p →
    ok linv (rg_clone g) (own_r p d)
      (λ r h, h = own_r p d ⋅ own_r p d ∧ rg_is r t p) (λ _, False);
  spec_write {T} (f : U → T * U) p d :
    (∀ u, view c u = d → K c p u → tick c (f u).2 = tick c u) →
    (∀ u, view c u = d → K c p u → K c p (f u).2) →
    ok linv (do_op (Usr f)) (own_w p d)
      (λ x h, ∃ u, view c u = d ∧ K c p u ∧ x = (f u).1 ∧ h = own_w p (view c (f u).2)) (λ _, False);
  spec_read {T} (f : U → T * U) p d :
    (∀ u, view c u = d → K c p u → tick c (f u).2 = tick c u) →
    (∀ u, view c (f u).2 = view c u) →
    (∀ u, view c u = d → K c p u → K c p (f u).2) →
    ok linv (do_op (Usr f)) (own_r p d)
      (λ x h, ∃ u, view c u = d ∧ K c p u ∧ x = (f u).1 ∧ h = own_r p d) (λ _, False);
  spec_step {T} (f : U → T * U) :
    (∀ p u, K c p u → tick c (f u).2 = tick c u) →
    (∀ u, view c (f u).2 = view c u) →
    (∀ p u, K c p u → K c p (f u).2) →
    ok linv (do_op (Usr f)) pcm_unit
      (λ x h, ∃ u p, K c p u ∧ x = (f u).1 ∧ h = pcm_unit) (λ _, False);
  spec_pub {T} (f : U → T * U) :
    (∀ p u, pub c p = true → K c p u → tick c (f u).2 = tick c u) →
    (∀ u, view c (f u).2 = view c u) →
    (∀ p u, pub c p = true → K c p u → K c p (f u).2) →
    ok linv (do_op (Usr f)) own_pub
      (λ x h, ∃ u p, pub c p = true ∧ K c p u ∧ x = (f u).1 ∧ h = own_pub) (λ _, False);
  spec_observe {T} (f : U → T * U) (learns : T → bool) :
    (∀ u, (f u).2 = u) →
    (∀ p u, K c p u → learns (f u).1 = true → pub c p = true) →
    ok linv (do_op (Usr f)) pcm_unit
      (λ x h, h = (if learns x then own_pub else pcm_unit)) (λ _, False);
  spec_inv s g : linv s g → ∃ p, phase_range p ∧ K c p (usr s);
  spec_own_pub_idemp : own_pub ⋅ own_pub = own_pub;
}.

Section transition.
Context {U L : Type} {ops : PhaseLocker U L}.
Context {G : Type} {P : PCM G} {D : Type} {c : contract U D} {l : L}.
Context {spec : PhaseLockerSpec (G:=G) ops c l}.

(** [transition] leaves the success phase when [f] returns and the panic phase
    when it panics, whatever [f] does under the lock. *)
Lemma transition_ok {T X} (g : WriteGuard T) (t : T) p q (f : T → prog U X) sp pp h Q :
  wg_is g t p q → phase_range sp → phase_range pp →
  (∀ g', wg_is g' t p pp →
    ok linv (f t) h (λ x h', ∀ g', wg_is g' t p sp → Q (g', Some x) h') (λ h', Q (g', None) h')) →
  ok linv (transition g f sp pp) h Q (λ _, False).
Proof.
  intros Hg Hsp Hpp Hf. unfold transition.
  pose proof (spec_wg_set_phase g t p q pp Hg Hpp) as Hg'.
  rewrite (spec_wg_target _ t p pp Hg').
  apply ok_bind, ok_catch.
  eapply ok_mono; [apply (Hf _ Hg')|..]; simpl; [|done].
  intros x h' HQ. apply HQ. by eapply spec_wg_set_phase.
Qed.
End transition.

(** A pool of threads that each satisfy their triple panics nowhere, and the
    contract holds in every state it reaches. *)
Section pools.
Context {U L : Type} {ops : PhaseLocker U L}.
Context {G : Type} {P : PCM G} {D : Type} {c : contract U D} {l : L}.
Context {spec : PhaseLockerSpec (G:=G) ops c l}.

Lemma safe_pool pool s ps s' :
  Forall (λ p, ok linv p pcm_unit (λ _ _, True) (λ _, False)) pool →
  linv s pcm_unit → reachable pool s ps s' →
  no_panic ps ∧ ∃ p, K c p (usr s').
Proof.
  intros Hpool Hinv Hreach.
  assert (Forall2 (λ p g, ok linv p g (λ _ _, True) (λ _, False)) pool
            (replicate (length pool) pcm_unit)) as Hall.
  { clear -Hpool. induction Hpool; simpl; constructor; auto. }
  rewrite <- (pcm_sum_replicate_unit (length pool)) in Hinv.
  split; [by eapply ok_pool_no_panic|].
  destruct (ok_pool _ _ _ _ _ _ Hall Hinv Hreach) as (gs & Hinv' & _).
  apply spec_inv in Hinv' as (p & _ & HK). by exists p.
Qed.
End pools.
