(* ===== verification/Tickets.v ===== *)
(** * Tickets: exclusive knowledge about the protected data

    The contract of a locker gives exclusive access to the holder of its write
    lock only. A program that hands out a task once, like the one that finalises
    an object at exit, has another exclusive right: the ticket to do it, taken by
    a step of the user state without any lock. This file adds a ticket to any
    locker whose operations leave the user state alone ([QuietLocker]): the
    locker with tickets satisfies the contract [PhaseLockerSpec] again, and the
    ticket has rules of its own. *)

From stdpp Require Import base list option numbers.
From S2P Require Import Prelude Word Phase Atomics Locker.
Open Scope Z_scope.

(** ** Programs that do not touch the user state *)

Section quiet.
Context {U : Type}.

Definition op_quiet {T} (o : op U T) : Prop := match o with Usr _ => False | _ => True end.

Fixpoint quiet {A} (p : prog U A) : Prop :=
  match p with
  | Vis o k => op_quiet o ∧ ∀ x, quiet (k x)
  | _ => True
  end.

Lemma op_quiet_usr {T} (o : op U T) s x s' : op_quiet o → op_step o s x s' → usr s' = usr s.
Proof.
  intros Ho [Hrun|[_ ->]]; [|done].
  destruct o; simpl in *; try done; unfold rmw in *; simplify_eq/=; try done;
    repeat case_match; by simplify_eq/=.
Qed.

Lemma quiet_bind {A B} (p : prog U A) (k : A → prog U B) :
  quiet p → (∀ a, quiet (k a)) → quiet (p ≫= k).
Proof. intros Hp Hk. induction p as [a| | | | |T o k' IH]; simpl in *; try done. split; [apply Hp|intros x; apply IH, Hp]. Qed.

Lemma quiet_catch {A} (p : prog U A) : quiet p → quiet (catch p).
Proof. intros Hp. induction p as [a| | | | |T o k' IH]; simpl in *; try done. split; [apply Hp|intros x; apply IH, Hp]. Qed.
End quiet.

(** Takes a program apart to show that it is quiet. *)
Ltac quiet_step :=
  lazymatch goal with
  | |- quiet (_ ≫= _) => apply quiet_bind; [|intros ?]
  | |- quiet (catch _) => apply quiet_catch
  | |- quiet (do_op _) => split; [exact I|intros ?; exact I]
  | |- quiet (match ?x with _ => _ end) => destruct x; cbv beta iota
  | |- quiet (let '(_, _) := ?x in _) => destruct x; cbv beta iota
  | |- quiet (Ret _) => exact I
  | |- quiet Panic => exact I
  | |- quiet Undef => exact I
  | |- quiet Diverge => exact I
  | |- quiet (Stops _) => exact I
  | |- ∀ _, _ => intros ?; cbv beta
  end.

Create HintDb quiet.
Ltac quiet_tac := repeat first [solve [eauto 6 with quiet nocore] | quiet_step].

Class QuietLocker {U L} (ops : PhaseLocker U L) : Prop := {
  quiet_lock {T} l (t : T) how wake hint : quiet (pl_lock l t how wake hint);
  quiet_try_lock {T} l (t : T) how hint : quiet (pl_try_lock l t how hint);
  quiet_phase l : quiet (pl_phase l);
  quiet_wg_drop {T} (g : WriteGuard T) : quiet (wg_drop g);
  quiet_into_read {T} (g : WriteGuard T) : quiet (wg_into_read g);
  quiet_rg_phase {T} (g : ReadGuard T) : quiet (rg_phase g);
  quiet_rg_clone {T} (g : ReadGuard T) : quiet (rg_clone g);
  quiet_rg_drop {T} (g : ReadGuard T) : quiet (rg_drop g);
}.

(** ** The locker with tickets *)

Section tickets.
Context {U L : Type} {ops : PhaseLocker U L} {Hq : QuietLocker ops}.
Context {G : Type} {P : PCM G} {D : Type} (c : contract U D) (l : L).

(** The contract of the locker itself says nothing of tickets. *)
Definition ticketless : contract U D := Contract (view c) (K c) (R c) (pub c) (λ _, false).

Context (base : PhaseLockerSpec (G:=G) ops ticketless l).

Abbreviation tickets := (G * excl unit)%type.
Definition own_ticket : tickets := (pcm_unit, Excl tt).

(** At most one ticket is out, and only when the user state tells so. *)
Definition ticket_inv (s : state U) (g : tickets) : Prop :=
  linv s g.1 ∧ match g.2 with ExclNone => True | Excl _ => tick c (usr s) = true | ExclBot => False end.

Lemma lift_ok {A} (p : prog U A) g t Q Qp :
  quiet p → ok linv p g Q Qp →
  ok ticket_inv p (g, t) (λ x h, h.2 = t ∧ Q x h.1) (λ h, h.2 = t ∧ Qp h.1).
Proof using.
  revert g. induction p as [a| | | | |T o k IH]; intros g Hp Hok; try done.
  destruct Hp as [Ho Hk]. intros [f ft] s [Hinv Ht] x s' Hstep.
  destruct (Hok f s Hinv x s' Hstep) as (g' & Hinv' & Hok').
  exists (g', t). split; [|by apply IH].
  split; [done|]. by rewrite (op_quiet_usr _ _ _ _ Ho Hstep).
Qed.

(** A step of the user state, together with the state it found. *)
Definition found {T} (f : U → T * U) (u : U) : (T * U) * U := ((f u).1, u, (f u).2).

(** A step that the locker's own contract allows and that leaves [tick] alone. *)
Lemma lift_usr {T} (f : U → T * U) g Q :
  ok linv (do_op (Usr (found f))) g (λ x h, tick c (f x.2).2 = tick c x.2 ∧ Q x.1 h) (λ _, False) →
  ok ticket_inv (do_op (Usr f)) (g, ExclNone) (λ x h, h.2 = ExclNone ∧ Q x h.1) (λ _, False).
Proof using.
  intros Hok. intros [fr ft] s [Hinv Ht] x s' [Hstep|[? _]]; [|done]. simpl in Hstep.
  assert (op_step (Usr (found f)) s (x, usr s) s') as Hstep'.
  { left. simpl. destruct (f (usr s)). by simplify_eq/=. }
  destruct (Hok fr s Hinv _ s' Hstep') as (g' & Hinv' & Htick & HQ). simpl in Htick, HQ.
  exists (g', ExclNone). split; [|done]. split; [done|].
  destruct (f (usr s)) as [y u]. simplify_eq/=. destruct ft; simpl in *; congruence.
Qed.

(** Elements without a ticket. *)
Definition no_ticket (g : G) : tickets := (g, ExclNone).

Lemma no_ticket_intro (h : tickets) : h.2 = ExclNone → h = no_ticket h.1.
Proof using. destruct h as [g t]. simpl. by intros ->. Qed.

Ltac lifted :=
  eapply ok_mono; [eapply lift_ok; [solve [apply Hq]|]| |];
  [|cbv beta; intros ? ? [Ht H]; apply no_ticket_intro in Ht
   |cbv beta; intros ? [Ht H]; apply no_ticket_intro in Ht].

Lemma pub_case (p : Phase) :
  no_ticket (if pub c p then own_pub (PhaseLockerSpec := base) else pcm_unit) =
    if pub c p then no_ticket (own_pub (PhaseLockerSpec := base)) else pcm_unit.
Proof using. by destruct (pub c p). Qed.

Definition ticketed : PhaseLockerSpec (G:=tickets) ops c l.
Proof using Hq base.
  refine (@Build_PhaseLockerSpec _ _ ops _ _ _ c l ticket_inv
    (λ p d, no_ticket (own_w p d)) (λ p d, no_ticket (own_r p d)) (no_ticket own_pub)
    (@wg_is _ _ _ _ _ _ _ _ base) (@rg_is _ _ _ _ _ _ _ _ base)
    (@lock_panics _ _ _ _ _ _ _ _ base) (@clones_bounded _ _ _ _ _ _ _ _ base)
    _ _ _ _ _ _ _ _ _ _ _ _ _ _ _ _ _ _ _ _ _).
  - intros T t how wake hint Hh. lifted; [by apply spec_lock| |].
    + destruct a as [r|g|p]; rewrite Ht.
      * destruct H as (p & d & -> & ? & ? & ?). by exists p, d.
      * destruct H as (p & d & -> & ? & ? & ?). by exists p, d.
      * destruct H as (-> & ? & ?). by rewrite <- pub_case.
    + destruct H as [H ?]. by rewrite Ht, H.
  - intros T t how hint Hh. lifted; [by apply spec_try_lock| |done].
    destruct a as [[r|g|p]|]; rewrite Ht.
    + destruct H as (p & d & -> & ? & ? & ?). by exists p, d.
    + destruct H as (p & d & -> & ? & ? & ?). by exists p, d.
    + destruct H as (-> & ? & ?). by rewrite <- pub_case.
    + destruct H as [-> | [p ->]]; [by left|right; exists p; by rewrite <- pub_case].
  - lifted; [apply spec_phase| |done]. destruct H as [H ?]. by rewrite Ht, H, <- pub_case.
  - intros T. apply spec_wg_target.
  - intros T. apply spec_wg_phase.
  - intros T. apply spec_wg_set_phase.
  - intros T S. apply spec_wg_map.
  - intros T g t p q d Hg Hm. lifted; [by apply (spec_wg_drop (PhaseLockerSpec := base) g t p q d)| |done].
    by rewrite Ht, H, <- pub_case.
  - intros T g t p q d Hg Hm.
    lifted; [by apply (spec_wg_into_read (PhaseLockerSpec := base) g t p q d)| |done].
    destruct H as [H ?]. by rewrite Ht, H.
  - intros T. apply spec_rg_target.
  - intros T g t p d Hg. lifted; [by apply (spec_rg_phase (PhaseLockerSpec := base) g t p d)| |done].
    destruct H as [? H]. by rewrite Ht, H.
  - intros T S. apply spec_rg_map.
  - intros T g t p d Hg. lifted; [by apply (spec_rg_drop (PhaseLockerSpec := base) g t p d)| |done].
    by rewrite Ht, H, <- pub_case.
  - intros T g t p d Hc Hg.
    lifted; [by apply (spec_rg_clone (PhaseLockerSpec := base) g t p d)| |done].
    destruct H as [H ?]. by rewrite Ht, H.
  - intros T f p d Htick HK.
    eapply ok_mono; [apply (lift_usr f (own_w p d)
      (λ x h, ∃ u, view c u = d ∧ K c p u ∧ x = (f u).1 ∧ h = own_w p (view c (f u).2)))|cbv beta|done].
    + eapply ok_mono; [by apply (spec_write (PhaseLockerSpec := base) (found f))|cbv beta|done].
      intros x h (u & Hu & HKu & -> & ->). split; [by apply Htick|by exists u].
    + intros x h [Ht%no_ticket_intro (u & ? & ? & ? & H)]. exists u. by rewrite Ht, H.
  - intros T f p d Htick Hv HK.
    eapply ok_mono; [apply (lift_usr f (own_r p d)
      (λ x h, ∃ u, view c u = d ∧ K c p u ∧ x = (f u).1 ∧ h = own_r p d))|cbv beta|done].
    + eapply ok_mono; [by apply (spec_read (PhaseLockerSpec := base) (found f))|cbv beta|done].
      intros x h (u & Hu & HKu & -> & ->). split; [by apply Htick|by exists u].
    + intros x h [Ht%no_ticket_intro (u & ? & ? & ? & H)]. exists u. by rewrite Ht, H.
  - intros T f Htick Hv HK.
    eapply ok_mono; [apply (lift_usr f pcm_unit
      (λ x h, ∃ u p, K c p u ∧ x = (f u).1 ∧ h = pcm_unit))|cbv beta|done].
    + eapply ok_mono; [by apply (spec_step (PhaseLockerSpec := base) (found f))|cbv beta|done].
      intros x h (u & p & HKu & -> & ->). split; [by eapply Htick|by exists u, p].
    + intros x h [Ht%no_ticket_intro (u & p & ? & ? & H)]. exists u, p. by rewrite Ht, H.
  - intros T f Htick Hv HK.
    eapply ok_mono; [apply (lift_usr f own_pub
      (λ x h, ∃ u p, pub c p = true ∧ K c p u ∧ x = (f u).1 ∧ h = own_pub))|cbv beta|done].
    + eapply ok_mono; [by apply (spec_pub (PhaseLockerSpec := base) (found f))|cbv beta|done].
      intros x h (u & p & Hp & HKu & -> & ->). split; [by eapply Htick|by exists u, p].
    + intros x h [Ht%no_ticket_intro (u & p & ? & ? & ? & H)]. exists u, p. by rewrite Ht, H.
  - intros T f learns Hf Hl.
    eapply ok_mono; [apply (lift_usr f pcm_unit (λ x h, h = if learns x then own_pub else pcm_unit))|cbv beta|done].
    + eapply ok_mono;
        [apply (spec_observe (PhaseLockerSpec := base) (found f) (λ x, learns x.1)); [done|by apply Hl]|cbv beta|done].
      intros x h ->. by rewrite Hf.
    + intros x h [Ht%no_ticket_intro H]. rewrite Ht, H. by destruct (learns x).
  - intros s g [Hinv _]. by apply (spec_inv (PhaseLockerSpec := base)) in Hinv.
  - unfold no_ticket. cbn. by rewrite (spec_own_pub_idemp (PhaseLockerSpec := base)).
Defined.

(** ** The rules of the ticket *)

(** A step of the user state gives the ticket when it comes to an answer that
    says so, in a state in which none is out. *)
Lemma ticket_take {T} (f : U → T * U) (gives : T → bool) :
  (∀ u, view c (f u).2 = view c u) → (∀ p u, K c p u → K c p (f u).2) →
  (∀ p u, K c p u → if gives (f u).1 then tick c u = false ∧ tick c (f u).2 = true
                    else tick c (f u).2 = tick c u) →
  ok (linv (PhaseLockerSpec := ticketed)) (do_op (Usr f)) pcm_unit
    (λ x h, ∃ u p, K c p u ∧ x = (f u).1 ∧ h = if gives x then own_ticket else pcm_unit) (λ _, False).
Proof using Hq base.
  intros Hv HK Hg [fr ft] s [Hinv Ht] x s' Hstep.
  assert (ok linv (do_op (Usr f)) (pcm_unit (G:=G))
    (λ x h, ∃ u p, K ticketless p u ∧ x = (f u).1 ∧ h = pcm_unit) (λ _, False)) as Hok
    by (by apply (spec_step (PhaseLockerSpec := base))).
  destruct (spec_inv (PhaseLockerSpec := base) _ _ Hinv) as (p & _ & HKs).
  destruct (Hok fr s Hinv x s' Hstep) as (g' & Hinv' & (_ & _ & _ & _ & ->)).
  specialize (Hg p (usr s) HKs). destruct Hstep as [Hstep|[? _]]; [|done]. simpl in Hstep.
  exists (if gives x then own_ticket else pcm_unit). split.
  - destruct (f (usr s)) as [y u]. simplify_eq/=.
    destruct (gives x); (split; [done|]); destruct ft; simpl in *; try done; intuition congruence.
  - exists (usr s), p. split; [done|]. split; [|done]. destruct (f (usr s)). by simplify_eq/=.
Qed.

(** Who holds the ticket and the write lock knows that it is out; the step may
    end that, and keeps the ticket otherwise. *)
Lemma ticket_use {T} (f : U → T * U) (keep : bool) p d :
  (∀ u, view c u = d → tick c u = true → K c p u →
     K c p (f u).2 ∧ (keep = true → tick c (f u).2 = true)) →
  ok (linv (PhaseLockerSpec := ticketed)) (do_op (Usr f)) (own_w (PhaseLockerSpec := ticketed) p d ⋅ own_ticket)
    (λ x h, ∃ u, view c u = d ∧ tick c u = true ∧ K c p u ∧ x = (f u).1 ∧
       h = own_w (PhaseLockerSpec := ticketed) p (view c (f u).2) ⋅ (if keep then own_ticket else pcm_unit)) (λ _, False).
Proof using Hq base.
  intros HK [fr ft] s [Hinv Ht] x s' Hstep. simpl in Hinv, Ht. rewrite (right_id_L pcm_unit pcm_op) in Hinv.
  assert (tick c (usr s) = true ∧ ft = ExclNone) as [Htick ->] by (by destruct ft).
  (* what the contract of the locker sees: a step that also returns the state it
     found, and does nothing without the ticket *)
  set (f' := λ u, if tick c u then ((f u).1, u, (f u).2) else ((f u).1, u, u)).
  assert (ok linv (do_op (Usr f')) (own_w p d)
    (λ x h, ∃ u, view c u = d ∧ K c p u ∧ x = (f' u).1 ∧ h = own_w p (view c (f' u).2)) (λ _, False)) as Hok.
  { apply (spec_write (PhaseLockerSpec := base)); [done|]. intros u Hu HKu. unfold f'.
    destruct (tick c u) eqn:E; [by apply HK|done]. }
  assert (op_step (Usr f') s (x, usr s) s') as Hstep'.
  { destruct Hstep as [Hstep|[? _]]; [left|done]. simpl in *. unfold f'. rewrite Htick.
    destruct (f (usr s)). by simplify_eq/=. }
  destruct (Hok fr s Hinv _ s' Hstep') as (g' & Hinv' & (u & Hu & HKu & Hx & ->)).
  assert (u = usr s) as ->.
  { apply (f_equal snd) in Hx. unfold f' in Hx. by destruct (tick c u). }
  unfold f' in *. rewrite Htick in *. simpl in *. injection Hx as ->.
  destruct (HK (usr s) Hu Htick HKu) as [_ Hkeep].
  exists (no_ticket (own_w p (view c (f (usr s)).2)) ⋅ (if keep then own_ticket else pcm_unit)).
  split; [|exists (usr s); by split_and!].
  split; [by destruct keep; simpl; rewrite (right_id_L pcm_unit pcm_op)|].
  destruct keep; simpl; [|done].
  destruct Hstep as [Hstep|[? _]]; [|done]. simpl in Hstep. specialize (Hkeep eq_refl).
  destruct (f (usr s)). by simplify_eq/=.
Qed.
End tickets.
