(* ===== verification/Tokens.v ===== *)
(** * The ownership model of a lock word without waiters

    The spinning locker and the unsynchronised locker keep their whole state
    in a word of phase, reader count and locked bit. This file gives the
    ownership monoid that goes with such a word, its invariant and the effect
    on it of each transition of the word: both implementations prove their
    contract from these lemmas. *)

From stdpp Require Import base list option numbers.
From S2P Require Import Prelude Word Phase Atomics Locker.
Open Scope Z_scope.

(** Persistent knowledge of a fact. *)
#[export] Instance bool_pcm : PCM bool.
Proof.
  refine {| pcm_unit := false; pcm_op := orb |}.
  - intros [] [] []; reflexivity.
  - intros [] []; reflexivity.
  - intros []; reflexivity.
Defined.

Abbreviation tokens D := (bool * (excl (Phase * D) * agree (Phase * D)))%type.

Section tokens.
Context {U D : Type} `{!EqDecision D} (c : contract U D) (l : loc).
(** The largest reader count of the word. *)
Context (maxr : Z) (Hmin : 1 <= maxr) (Hmax : maxr < 2 ^ 21).

Definition tok_w (p : Phase) (d : D) : tokens D := (false, (Excl (p, d), AgreeNone)).
Definition tok_r (p : Phase) (d : D) : tokens D := (false, (ExclNone, Agree 1 (p, d))).
Definition tok_pub : tokens D := (true, (ExclNone, AgreeNone)).
Definition tok_if (b : bool) : tokens D := if b then tok_pub else pcm_unit.

Definition cell_inv (s : state U) (g : tokens D) : Prop :=
  ∃ p n lk,
    rd s l = word p n lk false false ∧ phase_range p ∧
    K c p (usr s) ∧ (g.1 = true → pub c p = true) ∧
    match g.2 with
    | (ExclNone, AgreeNone) => n = 0 ∧ lk = false ∧ R c p (view c (usr s))
    | (Excl (p', d), AgreeNone) => n = 0 ∧ lk = true ∧ p' = p ∧ d = view c (usr s)
    | (ExclNone, Agree m (p', d)) =>
        n = Z.pos m ∧ n <= maxr ∧ lk = false ∧ p' = p ∧ d = view c (usr s) ∧
        R c p (view c (usr s))
    | _ => False
    end.

Lemma cell_inv_decode s g :
  cell_inv s g →
  ∃ p n lk, rd s l = word p n lk false false ∧ phase_range p ∧ 0 <= n <= maxr.
Proof using Hmin Hmax.
  intros (p & n & lk & Hrd & Hp & _ & _ & Hg). exists p, n, lk. split_and!; try done;
    destruct g as [pb [[|[??]|] [|m [??]|]]]; simpl in Hg; try done; destruct_and? Hg; lia.
Qed.

Lemma count_ok n : 0 <= n <= maxr → count_range n.
Proof using Hmin Hmax. unfold count_range. lia. Qed.

(** The decoded word determines the fields. *)
Lemma cell_inv_fields s g p n lk :
  cell_inv s g → rd s l = word p n lk false false → phase_range p → count_range n →
  0 <= n <= maxr ∧ K c p (usr s) ∧ (g.1 = true → pub c p = true) ∧
  match g.2 with
  | (ExclNone, AgreeNone) => n = 0 ∧ lk = false ∧ R c p (view c (usr s))
  | (Excl (p', d), AgreeNone) => n = 0 ∧ lk = true ∧ p' = p ∧ d = view c (usr s)
  | (ExclNone, Agree m (p', d)) =>
      n = Z.pos m ∧ lk = false ∧ p' = p ∧ d = view c (usr s) ∧ R c p (view c (usr s))
  | _ => False
  end.
Proof using Hmin Hmax.
  intros (p0 & n0 & lk0 & Hrd & Hp & HK & Hpub & Hg) Hrd' Hp' Hn'.
  assert (0 <= n0 <= maxr) as Hn0.
  { destruct g as [pb [[|[??]|] [|m [??]|]]]; simpl in Hg; try done; destruct_and? Hg; lia. }
  rewrite Hrd in Hrd'. apply word_inj in Hrd' as (-> & -> & -> & _); [|auto using count_ok..].
  split_and!; try done; try lia.
  destruct g as [pb [[|[??]|] [|m [??]|]]]; simpl in Hg |- *; try done; destruct_and? Hg; done.
Qed.

Ltac frame f := destruct f as [?fb [[|[??]|] [|?m [??]|]]].
Ltac token_solve :=
  unfold cell_inv; simpl in *; repeat case_decide; simpl in *; simplify_eq/=; try done;
  destruct_and?; simplify_eq/=; rewrite ?rd_wr.

Ltac inv_intro :=
  eexists _, _, _; split; [reflexivity|]; split_and!; try done; try lia; try naive_solver.

Lemma acquire_write s f p :
  cell_inv s f → rd s l = word p 0 false false false → phase_range p →
  cell_inv (wr s l (word p 0 true false false)) (tok_w p (view c (usr s)) ⋅ f) ∧
  R c p (view c (usr s)).
Proof using Hmin Hmax.
  intros Hinv Hrd Hp.
  destruct (cell_inv_fields _ _ _ _ _ Hinv Hrd Hp) as (_ & HK & Hpub & Hf); [by apply count_ok; lia|].
  frame f; token_solve; (split; [|done]); inv_intro.
Qed.

Lemma acquire_read s f p n :
  cell_inv s f → rd s l = word p n false false false → phase_range p → 0 <= n < maxr →
  cell_inv (wr s l (word p (n + 1) false false false)) (tok_r p (view c (usr s)) ⋅ f) ∧
  R c p (view c (usr s)).
Proof using Hmin Hmax.
  intros Hinv Hrd Hp Hn.
  destruct (cell_inv_fields _ _ _ _ _ Hinv Hrd Hp) as (_ & HK & Hpub & Hf); [by apply count_ok; lia|].
  frame f; token_solve; (split; [|done]); inv_intro.
Qed.

Lemma writer_word s f p d :
  cell_inv s (tok_w p d ⋅ f) →
  rd s l = word p 0 true false false ∧ phase_range p ∧ d = view c (usr s).
Proof using Hmin Hmax.
  intros (p0 & n & lk & Hrd & Hp & HK & Hpub & Hf).
  frame f; token_solve; done.
Qed.

Lemma release_write s f p d q :
  cell_inv s (tok_w p d ⋅ f) → phase_range q → moves c p q d →
  cell_inv (wr s l (word q 0 false false false)) (tok_if (pub c q) ⋅ f).
Proof using Hmin Hmax.
  intros (p0 & n & lk & Hrd & Hp & HK & Hpub & Hf) Hq (HKq & HRq & Hmono).
  unfold tok_if; destruct (pub c q) eqn:?; frame f; token_solve; inv_intro.
Qed.

Lemma downgrade s f p d q :
  cell_inv s (tok_w p d ⋅ f) → phase_range q → moves c p q d →
  cell_inv (wr s l (word q 1 false false false)) (tok_r q d ⋅ f).
Proof using Hmin Hmax.
  intros (p0 & n & lk & Hrd & Hp & HK & Hpub & Hf) Hq (HKq & HRq & Hmono).
  frame f; token_solve; inv_intro.
Qed.

Lemma reader_word s f p d :
  cell_inv s (tok_r p d ⋅ f) →
  ∃ n, rd s l = word p n false false false ∧ phase_range p ∧ 1 <= n <= maxr ∧
       d = view c (usr s).
Proof using Hmin Hmax.
  intros (p0 & n & lk & Hrd & Hp & HK & Hpub & Hf).
  frame f; token_solve; eexists; split_and!; try done; lia.
Qed.

Lemma release_read s f p d n :
  cell_inv s (tok_r p d ⋅ f) → rd s l = word p n false false false → count_range n →
  cell_inv (wr s l (word p (n - 1) false false false)) (tok_if (pub c p) ⋅ f).
Proof using Hmin Hmax.
  intros Hinv Hrd Hcr. pose proof Hinv as (p0 & n0 & lk0 & Hrd0 & Hp0 & _).
  destruct (reader_word _ _ _ _ Hinv) as (n' & _ & Hp & _ & _).
  destruct (cell_inv_fields _ _ _ _ _ Hinv Hrd Hp Hcr) as (Hn & HK & Hpub & Hf).
  unfold tok_if; destruct (pub c p) eqn:?; frame f; token_solve; inv_intro.
Qed.

Lemma clone_read s f p d n :
  cell_inv s (tok_r p d ⋅ f) → rd s l = word p n false false false → 0 <= n < maxr →
  cell_inv (wr s l (word p (n + 1) false false false)) (tok_r p d ⋅ tok_r p d ⋅ f).
Proof using Hmin Hmax.
  intros Hinv Hrd Hn.
  destruct (reader_word _ _ _ _ Hinv) as (n' & Hrd' & Hp & Hn' & ->).
  rewrite <- (assoc_L pcm_op). apply acquire_read; done.
Qed.

Lemma observe_phase s f p n lk :
  cell_inv s f → rd s l = word p n lk false false → phase_range p → count_range n →
  cell_inv s (tok_if (pub c p) ⋅ f).
Proof using Hmin Hmax.
  intros Hinv Hrd Hp Hn.
  destruct (cell_inv_fields _ _ _ _ _ Hinv Hrd Hp Hn) as (Hn' & HK & Hpub & Hf).
  exists p, n, lk. unfold tok_if. destruct (pub c p) eqn:E; frame f; token_solve; by split_and!.
Qed.

Lemma forget_pub s b f : cell_inv s (tok_if b ⋅ f) → cell_inv s f.
Proof using.
  unfold tok_if. destruct b; [|by rewrite (left_id_L pcm_unit pcm_op)].
  intros (p & n & lk & Hrd & Hp & HK & Hpub & Hf). exists p, n, lk.
  frame f; simpl in *; split_and!; try tauto; destruct_and? Hf; try done.
Qed.

(** Accesses to the protected data. *)
Lemma write_ok {T} (f : U → T * U) p d :
  (∀ u, view c u = d → K c p u → K c p (f u).2) →
  ok cell_inv (do_op (Usr f)) (tok_w p d)
    (λ x h, ∃ u, view c u = d ∧ K c p u ∧ x = (f u).1 ∧ h = tok_w p (view c (f u).2)) (λ _, False).
Proof using Hmin Hmax.
  intros HK fr s Hinv x s' [Hstep|[? _]]; [|done]. simpl in Hstep.
  pose proof (writer_word _ _ _ _ Hinv) as (Hrd & Hp & ->).
  destruct (f (usr s)) as [y u] eqn:Ef. simplify_eq/=.
  destruct (cell_inv_fields _ _ _ _ _ Hinv Hrd Hp) as (_ & HKp & Hpub & Hf);
    [by apply count_ok; lia|].
  exists (tok_w p (view c u)). split; [|exists (usr s); by rewrite Ef].
  specialize (HK (usr s) eq_refl HKp). rewrite Ef in HK.
  frame fr; token_solve.
  exists p, 0, true. rewrite rd_upd. by split_and!.
Qed.

Lemma read_step (f : U → U) s g p n lk :
  (∀ u, view c (f u) = view c u) →
  (∀ u, view c u = view c (usr s) → K c p u → K c p (f u)) →
  cell_inv s g → rd s l = word p n lk false false → phase_range p → count_range n →
  K c p (usr s) ∧ (g.1 = true → pub c p = true) ∧ cell_inv (upd s (f (usr s))) g.
Proof using Hmin Hmax.
  intros Hf HfK Hinv Hrd Hp Hn.
  destruct (cell_inv_fields _ _ _ _ _ Hinv Hrd Hp Hn) as (Hn' & HK & Hpub & Hg).
  split_and!; [done..|]. exists p, n, lk.
  rewrite rd_upd, usr_upd, Hf. split_and!; try done; [by apply HfK|].
  destruct g as [pb [[|[??]|] [|m [??]|]]]; simpl in Hg |- *; try done; destruct_and? Hg;
    split_and!; try done; lia.
Qed.

Lemma read_ok {T} (f : U → T * U) p d :
  (∀ u, view c (f u).2 = view c u) →
  (∀ u, view c u = d → K c p u → K c p (f u).2) →
  ok cell_inv (do_op (Usr f)) (tok_r p d)
    (λ x h, ∃ u, view c u = d ∧ K c p u ∧ x = (f u).1 ∧ h = tok_r p d) (λ _, False).
Proof using Hmin Hmax.
  intros Hf HfK fr s Hinv x s' [Hstep|[? _]]; [|done]. simpl in Hstep.
  pose proof (reader_word _ _ _ _ Hinv) as (n & Hrd & Hp & Hn & ->).
  destruct (read_step (λ u, (f u).2) s _ p n false Hf HfK Hinv Hrd Hp) as (HK & _ & Hinv');
    [apply count_ok; lia|].
  cbv beta in Hinv'. destruct (f (usr s)) as [y u] eqn:Ef. simplify_eq/=.
  exists (tok_r p (view c (usr s))). split; [done|]. exists (usr s). by rewrite Ef.
Qed.

Lemma pub_ok {T} (f : U → T * U) :
  (∀ u, view c (f u).2 = view c u) →
  (∀ p u, pub c p = true → K c p u → K c p (f u).2) →
  ok cell_inv (do_op (Usr f)) tok_pub
    (λ x h, ∃ u p, pub c p = true ∧ K c p u ∧ x = (f u).1 ∧ h = tok_pub) (λ _, False).
Proof using Hmin Hmax.
  intros Hf HfK fr s Hinv x s' [Hstep|[? _]]; [|done]. simpl in Hstep.
  pose proof (cell_inv_decode _ _ Hinv) as (p & n & lk & Hrd & Hp & Hn).
  assert (pub c p = true) as Hpub.
  { destruct (cell_inv_fields _ _ _ _ _ Hinv Hrd Hp) as (_ & _ & Hpub & _); [by apply count_ok|].
    by apply Hpub. }
  destruct (read_step (λ u, (f u).2) s _ p n lk Hf (λ u _, HfK p u Hpub) Hinv Hrd Hp)
    as (HK & _ & Hinv'); [by apply count_ok|].
  cbv beta in Hinv'. destruct (f (usr s)) as [y u] eqn:Ef. simplify_eq/=.
  exists tok_pub. split; [done|]. exists (usr s), p. by rewrite Ef.
Qed.

(** A step of the user state that every phase allows. *)
Lemma step_ok {T} (f : U → T * U) :
  (∀ u, view c (f u).2 = view c u) →
  (∀ p u, K c p u → K c p (f u).2) →
  ok cell_inv (do_op (Usr f)) pcm_unit
    (λ x h, ∃ u p, K c p u ∧ x = (f u).1 ∧ h = pcm_unit) (λ _, False).
Proof using Hmin Hmax.
  intros Hf HfK fr s Hinv x s' [Hstep|[? _]]; [|done]. simpl in Hstep.
  pose proof (cell_inv_decode _ _ Hinv) as (p & n & lk & Hrd & Hp & Hn).
  destruct (read_step (λ u, (f u).2) s _ p n lk Hf (λ u _, HfK p u) Hinv Hrd Hp)
    as (HK & _ & Hinv'); [by apply count_ok|].
  cbv beta in Hinv'. destruct (f (usr s)) as [y u] eqn:Ef. simplify_eq/=.
  exists pcm_unit. split; [done|]. exists (usr s), p. by rewrite Ef.
Qed.

(** A step of the user state that tells that a public phase has been reached. *)
Lemma observe_ok {T} (f : U → T * U) (learns : T → bool) :
  (∀ u, (f u).2 = u) →
  (∀ p u, K c p u → learns (f u).1 = true → pub c p = true) →
  ok cell_inv (do_op (Usr f)) pcm_unit (λ x h, h = tok_if (learns x)) (λ _, False).
Proof using Hmin Hmax.
  intros Hf Hl fr s Hinv x s' [Hstep|[? _]]; [|done]. simpl in Hstep.
  rewrite (left_id_L pcm_unit pcm_op) in Hinv.
  pose proof (cell_inv_decode _ _ Hinv) as (p & n & lk & Hrd & Hp & Hn).
  pose proof (Hf (usr s)) as Hu. specialize (Hl p (usr s)).
  destruct (f (usr s)) as [y u] eqn:Ef. simplify_eq/=.
  exists (tok_if (learns x)). split; [|done].
  assert (cell_inv (upd s (usr s)) fr) as Hinv' by (by destruct s).
  destruct (learns x); [|by destruct fr as [? [??]]].
  replace (tok_if true) with (tok_if (pub c p)); [by eapply observe_phase; eauto using count_ok|].
  destruct (cell_inv_fields _ _ _ _ _ Hinv Hrd Hp) as (_ & HK & _); [by apply count_ok|].
  by rewrite Hl.
Qed.

Lemma inv_K s g : cell_inv s g → ∃ p, phase_range p ∧ K c p (usr s).
Proof using. intros (p & n & lk & _ & Hp & HK & _). by exists p. Qed.
End tokens.
