(* ===== verification/Clients.v ===== *)
(** * Clients of a phase locker

    The strongest users of a phase locker: threads that each run an arbitrary
    script of lock operations, keeping any number of guards, writing the
    protected data through write guards, and asserting all along what the
    guards promise them. The contract of the locker implies that no assertion
    of any script ever fails, whatever the interleaving ([clients_ok]); the
    files of the implementations instantiate this. *)

From stdpp Require Import base list option numbers.
From S2P Require Import Prelude Word Phase Atomics Locker.
Open Scope Z_scope.

(** The protected data is one cell of the state, or all of it. *)
Class ClientData (U : Type) := {
  data_of : U → Z;
  with_data : Z → U → U;
  data_with x u : data_of (with_data x u) = x;
}.
#[export, refine] Instance data_Z : ClientData Z := {| data_of := id; with_data x _ := x |}.
Proof. done. Defined.

(** Every value of it is legal. *)
Definition free_contract {U} `{!ClientData U} : contract U Z :=
  Contract data_of (λ _ _, True) (λ _ _, True) (λ _, false) (λ _, false).

Inductive cmd :=
| CLock (how wake : How) (hint : Phase)
| CTryLock (how : How) (hint : Phase)
| CPhase
| CWrite (i : nat) (x : Z)
| CCheck (i : nat)
| CSetPhase (i : nat) (q : Phase)
| CDowngrade (i : nat)
| CClone (i : nat)
| CDrop (i : nat).

(** The phases a script mentions are phases, and it clones guards only when the
    locker bounds the clones. *)
Definition cmd_ok (clones : bool) (c : cmd) : Prop :=
  match c with
  | CClone _ => clones = true
  | CLock _ _ h | CTryLock _ h => phase_range h
  | CSetPhase _ q => phase_range q
  | _ => True
  end.

Section clients.
Context {U : Type} {CD : ClientData U} {L : Type} {ops : PhaseLocker U L}.
(** Whether [lock] may panic rather than wait, see the documentation of the
    locker; clients of such a locker catch it. *)
Context (may_panic : bool).

(** A guard the client holds, with the phase it promises and the data the
    client saw or wrote last. *)
Inductive held :=
| HW (g : WriteGuard unit) (q : Phase) (x : Z)
| HR (g : ReadGuard unit) (p : Phase) (x : Z).

Definition get_data : prog U Z := do_op (Usr (λ u, (data_of u, u))).

(** What a client does with a guard it has just obtained. *)
Definition acquired (how : How) (g : LockResult (ReadGuard unit) (WriteGuard unit)) (hs : list held)
    : prog U (list held) :=
  match g with
  | LRWrite g =>
      assert_prog (bool_decide (how (wg_phase g) = LNWrite));;
      x ← get_data;
      Ret (HW g (wg_phase g) x :: hs)
  | LRRead g =>
      p ← rg_phase g;
      assert_prog (bool_decide (how p = LNRead));;
      x ← get_data;
      Ret (HR g p x :: hs)
  | LRNone p => Ret hs
  end.

Definition run_cmd (l : L) (c : cmd) (hs : list held) : prog U (list held) :=
  match c with
  | CLock how wake hint =>
      r ← (if may_panic then catch (pl_lock l tt how wake hint)
           else r ← pl_lock l tt how wake hint; Ret (Some r));
      match r with
      | Some (LRNone p) =>
          assert_prog (bool_decide (how p = LNNone ∨ wake p = LNNone));; Ret hs
      | Some g => acquired how g hs
      | None => Ret hs
      end
  | CTryLock how hint =>
      r ← pl_try_lock l tt how hint;
      match r with
      | Some (LRNone p) => assert_prog (bool_decide (how p = LNNone));; Ret hs
      | Some g => acquired how g hs
      | None => Ret hs
      end
  | CPhase => _ ← pl_phase l; Ret hs
  | CWrite i x =>
      match hs !! i with
      | Some (HW g q _) => do_op (Usr (λ u, (tt, with_data x u)));; Ret (<[i := HW g q x]> hs)
      | _ => Ret hs
      end
  | CCheck i =>
      match hs !! i with
      | Some (HW g q x) =>
          y ← get_data;
          assert_prog (bool_decide (y = x) && bool_decide (wg_phase g = q));;
          Ret hs
      | Some (HR g p x) =>
          y ← get_data;
          p' ← rg_phase g;
          assert_prog (bool_decide (y = x) && bool_decide (p' = p));;
          Ret hs
      | None => Ret hs
      end
  | CSetPhase i q =>
      match hs !! i with
      | Some (HW g _ x) => Ret (<[i := HW (wg_set_phase g q) q x]> hs)
      | _ => Ret hs
      end
  | CDowngrade i =>
      match hs !! i with
      | Some (HW g q x) => r ← wg_into_read g; Ret (<[i := HR r q x]> hs)
      | _ => Ret hs
      end
  | CClone i =>
      match hs !! i with
      | Some (HR g p x) =>
          r ← rg_clone g;
          p' ← rg_phase r;
          assert_prog (bool_decide (p' = p));;
          Ret (HR r p x :: hs)
      | _ => Ret hs
      end
  | CDrop i =>
      match hs !! i with
      | Some (HW g _ _) => wg_drop g;; Ret (delete i hs)
      | Some (HR g _ _) => rg_drop g;; Ret (delete i hs)
      | None => Ret hs
      end
  end.

Fixpoint client (l : L) (script : list cmd) (hs : list held) : prog U unit :=
  match script with
  | [] => Ret tt
  | c :: script => hs ← run_cmd l c hs; client l script hs
  end.

(** ** A locker that panics rather than wait *)

Record never_waits : Prop := {
  nw_lock {T} (l : L) (t : T) how wake hint : fuel_free (pl_lock l t how wake hint);
  nw_try_lock {T} (l : L) (t : T) how hint : fuel_free (pl_try_lock l t how hint);
  nw_phase (l : L) : fuel_free (pl_phase l);
  nw_wg_drop {T} (g : WriteGuard T) : fuel_free (wg_drop g);
  nw_into_read {T} (g : WriteGuard T) : fuel_free (wg_into_read g);
  nw_rg_phase {T} (g : ReadGuard T) : fuel_free (rg_phase g);
  nw_rg_clone {T} (g : ReadGuard T) : fuel_free (rg_clone g);
  nw_rg_drop {T} (g : ReadGuard T) : fuel_free (rg_drop g);
}.

Lemma client_fuel_free (H : never_waits) l script hs : fuel_free (client l script hs).
Proof using.
  revert hs. induction script as [|c script IH]; intros hs; [done|].
  apply fuel_free_bind; [|done].
  destruct c; cbn [run_cmd]; unfold acquired, get_data;
    repeat first
      [ fuel_free_step | apply (nw_lock H) | apply (nw_try_lock H) | apply (nw_phase H)
      | apply (nw_wg_drop H) | apply (nw_into_read H) | apply (nw_rg_phase H)
      | apply (nw_rg_clone H) | apply (nw_rg_drop H) ].
Qed.

(** ** No assertion fails *)

#[local] Arguments ok : simpl never.

Context {G : Type} {P : PCM G} {l : L} {spec : PhaseLockerSpec (G:=G) ops free_contract l}.
Context (Hpanic : lock_panics = true → may_panic = true).

(** What a client owns for the guards it holds. *)
Definition owns (h : held) (o : G) : Prop :=
  match h with
  | HW g q x => ∃ p, o = own_w p x ∧ wg_is g tt p q
  | HR g p x => o = own_r p x ∧ rg_is g tt p
  end.

Abbreviation owns_all := (owns_with owns).

Lemma get_data_w p x : ok linv get_data (own_w p x) (λ y h, y = x ∧ h = own_w p x) (λ _, False).
Proof using.
  eapply ok_mono; [apply spec_write; done|simpl|done].
  by intros y h (u & Hu & _ & -> & ->); simpl in *; subst.
Qed.
Lemma get_data_r p x : ok linv get_data (own_r p x) (λ y h, y = x ∧ h = own_r p x) (λ _, False).
Proof using.
  eapply ok_mono; [apply spec_read; done|simpl|done].
  by intros y h (u & Hu & _ & -> & ->); simpl in *; subst.
Qed.

Lemma acquired_write how g hs p d o :
  wg_is g tt p p → how p = LNWrite → owns_all hs o →
  ok linv (acquired how (LRWrite g) hs) (own_w p d ⋅ o) owns_all (λ _, False).
Proof using.
  intros Hg Hhow Ho. destruct (spec_wg_phase _ _ _ _ Hg) as (Hp & _). cbn [acquired]. rewrite Hp.
  rewrite assert_bind by (by apply bool_decide_true).
  eapply ok_frame_bind; [apply get_data_w|cbv beta|by intros ? []].
  intros x h [-> ->]. apply owns_with_cons; [|done]. by exists p.
Qed.

Lemma acquired_read how g hs p d o :
  rg_is g tt p → how p = LNRead → owns_all hs o →
  ok linv (acquired how (LRRead g) hs) (own_r p d ⋅ o) owns_all (λ _, False).
Proof using.
  intros Hg Hhow Ho. cbn [acquired].
  eapply ok_frame_bind; [by eapply spec_rg_phase|cbv beta|by intros ? []].
  intros p' h [-> ->]. rewrite assert_bind by (by apply bool_decide_true).
  eapply ok_frame_bind; [apply get_data_r|cbv beta|by intros ? []].
  intros x h [-> ->]. by apply owns_with_cons.
Qed.

Lemma pub_unit p : (if pub free_contract p then own_pub else pcm_unit) = pcm_unit.
Proof using. done. Qed.

(** What the result of locking gives, with the rest of the client's guards. *)
Lemma lock_ok how wake hint o :
  phase_range hint →
  ok linv (if may_panic then catch (pl_lock l tt how wake hint)
           else r ← pl_lock l tt how wake hint; Ret (Some r)) (pcm_unit ⋅ o)
    (λ r h, match r with
      | Some (LRRead g) => ∃ p d, h = own_r p d ⋅ o ∧ rg_is g tt p ∧ how p = LNRead
      | Some (LRWrite g) => ∃ p d, h = own_w p d ⋅ o ∧ wg_is g tt p p ∧ how p = LNWrite
      | Some (LRNone p) => h = o ∧ (how p = LNNone ∨ wake p = LNNone)
      | None => h = o
      end) (λ _, False).
Proof using Hpanic.
  intros Hhint. destruct may_panic eqn:Hmp.
  - apply ok_catch, ok_frame. eapply ok_mono; [by apply spec_lock|..]; simpl.
    + intros [g|g|p] h; simpl.
      * intros (p & d & -> & _ & ? & ?). by exists p, d.
      * intros (p & d & -> & _ & ? & ?). by exists p, d.
      * intros (-> & _ & ?). by rewrite (left_id_L pcm_unit pcm_op).
    + intros h [-> _]. by rewrite (left_id_L pcm_unit pcm_op).
  - apply ok_bind, ok_frame. eapply ok_mono; [by apply spec_lock|..]; simpl.
    + intros [g|g|p] h; simpl.
      * intros (p & d & -> & _ & ? & ?). by exists p, d.
      * intros (p & d & -> & _ & ? & ?). by exists p, d.
      * intros (-> & _ & ?). by rewrite (left_id_L pcm_unit pcm_op).
    + intros h [_ Hl]. by apply Hpanic in Hl.
Qed.

Lemma run_lock_ok how wake hint hs o :
  phase_range hint → owns_all hs o →
  ok linv (run_cmd l (CLock how wake hint) hs) o owns_all (λ _, False).
Proof using Hpanic.
  intros Hhint Ho. cbn [run_cmd]. apply ok_bind.
  rewrite <- (left_id_L pcm_unit pcm_op o).
  eapply ok_mono; [by apply lock_ok|cbv beta|done].
  intros [[g|g|p]|] h; [| | |by intros ->].
  - intros (p & d & -> & Hg & Hhow). by eapply acquired_read.
  - intros (p & d & -> & Hg & Hhow). by eapply acquired_write.
  - intros (-> & Hhow). by rewrite assert_bind by (by apply bool_decide_true).
Qed.

Lemma run_try_lock_ok how hint hs o :
  phase_range hint → owns_all hs o →
  ok linv (run_cmd l (CTryLock how hint) hs) o owns_all (λ _, False).
Proof using.
  intros Hhint Ho. cbn [run_cmd]. rewrite <- (left_id_L pcm_unit pcm_op o).
  eapply ok_frame_bind; [by apply spec_try_lock|cbv beta|by intros ? []].
  intros [[g|g|p]|] h.
  - intros (p & d & -> & _ & Hg & Hhow). by eapply acquired_read.
  - intros (p & d & -> & _ & Hg & Hhow). by eapply acquired_write.
  - intros (-> & _ & Hhow). rewrite assert_bind by (by apply bool_decide_true).
    cbn [pub free_contract]. by rewrite (left_id_L pcm_unit pcm_op).
  - cbn [pub free_contract]. intros [->|[_ ->]]; by rewrite (left_id_L pcm_unit pcm_op).
Qed.


(** The commands that use the guard at one index. *)
Lemma run_guard_ok c i hs o :
  cmd_ok clones_bounded c →
  match c with
  | CWrite j _ | CCheck j | CSetPhase j _ | CDowngrade j | CClone j | CDrop j => j = i
  | _ => False
  end →
  owns_all hs o → ok linv (run_cmd l c hs) o owns_all (λ _, False).
Proof using.
  intros Hc Hi Ho.
  destruct (hs !! i) as [h|] eqn:E;
    [|by destruct c; try done; subst; cbn [run_cmd]; rewrite E].
  destruct (owns_with_lookup _ _ _ _ _ Ho E) as (o1 & o2 & -> & Hown & Hdel & Hins).
  destruct h as [g q x|g q x]; [destruct Hown as (p & -> & Hg)|destruct Hown as (-> & Hg)];
    destruct c; try done; subst; cbn [run_cmd]; rewrite E; try done.
  - eapply ok_frame_bind; [by apply spec_write|cbv beta|by intros ? []].
    intros [] h (u & _ & _ & _ & ->). cbn [view free_contract snd]. rewrite data_with. apply Hins. by exists p.
  - destruct (spec_wg_phase _ _ _ _ Hg) as (Hq & _).
    eapply ok_frame_bind; [apply get_data_w|cbv beta|by intros ? []].
    intros y h [-> ->]. by rewrite assert_bind by (by rewrite !bool_decide_true).
  - apply Hins. exists p. split; [done|]. by eapply spec_wg_set_phase.
  - eapply ok_frame_bind; [by eapply spec_wg_into_read|cbv beta|by intros ? []].
    intros r h [-> Hr]. by apply Hins.
  - eapply ok_frame_bind; [by eapply spec_wg_drop|cbv beta|by intros ? []].
    intros [] h ->. cbn [pub free_contract]. by rewrite (left_id_L pcm_unit pcm_op).
  - eapply ok_frame_bind; [apply get_data_r|cbv beta|by intros ? []].
    intros y h [-> ->].
    eapply ok_frame_bind; [by eapply spec_rg_phase|cbv beta|by intros ? []].
    intros y h [-> ->]. by rewrite assert_bind by (by rewrite !bool_decide_true).
  - eapply ok_frame_bind; [by eapply spec_rg_clone|cbv beta|by intros ? []].
    intros r h [-> Hr]. rewrite <- (assoc_L pcm_op).
    eapply ok_frame_bind; [by eapply spec_rg_phase|cbv beta|by intros ? []].
    intros p' h [-> ->]. rewrite assert_bind by (by rewrite bool_decide_true).
    apply owns_with_cons; [done|]. rewrite <- (list_insert_id hs i _ E). by apply Hins.
  - eapply ok_frame_bind; [by eapply spec_rg_drop|cbv beta|by intros ? []].
    intros [] h ->. cbn [pub free_contract]. by rewrite (left_id_L pcm_unit pcm_op).
Qed.

Lemma run_cmd_ok c hs o :
  cmd_ok clones_bounded c → owns_all hs o → ok linv (run_cmd l c hs) o owns_all (λ _, False).
Proof using Hpanic.
  intros Hc Ho. destruct c; try by eapply run_guard_ok.
  - by apply run_lock_ok.
  - by apply run_try_lock_ok.
  - cbn [run_cmd]. rewrite <- (left_id_L pcm_unit pcm_op o).
    eapply ok_frame_bind; [apply spec_phase|cbv beta|by intros ? []].
    intros p h [-> _]. cbn [pub free_contract]. by rewrite (left_id_L pcm_unit pcm_op).
Qed.

Lemma client_ok script hs o :
  Forall (cmd_ok clones_bounded) script → owns_all hs o →
  ok linv (client l script hs) o (λ _ _, True) (λ _, False).
Proof using Hpanic.
  intros Hs. revert hs o. induction Hs as [|c script Hc _ IH]; intros hs o Ho; [done|].
  cbn [client]. apply ok_bind. eapply ok_mono; [by apply run_cmd_ok|cbv beta|done]. eauto.
Qed.

(** In any reachable state the invariant holds, and no assertion of any client
    has failed. *)
Lemma clients_inv scripts s ps s' :
  Forall (Forall (cmd_ok clones_bounded)) scripts → linv s pcm_unit →
  reachable ((λ script, client l script []) <$> scripts) s ps s' →
  (∃ g, linv s' g) ∧ no_panic ps.
Proof using Hpanic.
  intros Hs Hinv Hreach.
  assert (Forall2 (λ p (g : G), ok linv p g (λ _ _, True) (λ _, False))
    ((λ script, client l script []) <$> scripts) (replicate (length scripts) pcm_unit)) as Hall.
  { apply Forall2_fmap_l. apply Forall2_same_length_lookup_2; [by rewrite length_replicate|].
    intros i script g Hscript Hg. apply lookup_replicate in Hg as [-> _].
    apply client_ok; [by eapply Forall_lookup_1 in Hs|apply owns_with_nil]. }
  rewrite <- (pcm_sum_replicate_unit (length scripts)) in Hinv.
  split; [|by eapply ok_pool_no_panic].
  destruct (ok_pool _ _ _ _ _ _ Hall Hinv Hreach) as (gs & Hinv' & _). eauto.
Qed.

Lemma clients_ok scripts s ps s' :
  Forall (Forall (cmd_ok clones_bounded)) scripts → linv s pcm_unit →
  reachable ((λ script, client l script []) <$> scripts) s ps s' → no_panic ps.
Proof using Hpanic. intros Hs Hinv Hreach. by eapply clients_inv. Qed.
End clients.
Arguments never_waits {U L} ops.
