(* ===== verification/Futex.v ===== *)
(** * Futexes (src/phase_locker/futex.rs)

    The word of a lock with the calls that park a thread on it and wake the
    threads that are parked. The operating system is a parameter: the class
    [Kernel] has the calls the crate makes and what their documentation says of
    them. The implementation over parking_lot_core is in
    [ParkingLot]; [linux] tells which of the two preferences of
    [prefer_wake_one_writer] is compiled. *)

From stdpp Require Import base list option numbers gmap gmultiset.
From S2P Require Import Prelude Word Atomics.
Open Scope Z_scope.

(** ** The system

    A thread that is parked has a ticket. It is parked on an address with a set
    of bits, and it stays in the queue until it has noticed that it is woken. *)
Record parked := Parked { pk_addr : loc; pk_bits : u32; pk_woken : bool }.
#[export] Instance parked_eq_dec : EqDecision parked.
Proof. solve_decision. Defined.

Abbreviation queue_of := (gmap positive parked).

Definition set_woken (k : parked) : parked := Parked (pk_addr k) (pk_bits k) true.
Definition set_all_woken (ts : list positive) (q : queue_of) : queue_of :=
  foldr (alter set_woken) q ts.

(** The system keeps its queue in memory of its own, which the cells of the
    process do not overlap. *)
Class Kernel := {
  queue : gmap loc Z → queue_of;
  user_cell : loc → Prop;
  queue_insert l v m : user_cell l → queue (<[l := v]> m) = queue m;
  (** [FUTEX_WAIT_BITSET]: parks the caller if the word still has the value. *)
  sys_wait : loc → u32 → u32 → gmap loc Z → option positive * gmap loc Z;
  sys_wait_law l v bits m :
    let '(r, m') := sys_wait l v bits m in
    (∀ l', user_cell l' → m' !! l' = m !! l') ∧
    match r with
    | Some t => queue m !! t = None ∧ queue m' = <[t := Parked l bits false]> (queue m)
    | None => queue m' = queue m
    end;
  (** The return of the call: with [true] for a thread that was woken, or with
      [false] for one that a signal interrupts. *)
  sys_return : positive → gmap loc Z → option bool * gmap loc Z;
  sys_return_law t m :
    let '(r, m') := sys_return t m in
    (∀ l', user_cell l' → m' !! l' = m !! l') ∧
    match r with
    | Some w => queue m' = delete t (queue m) ∧ ∀ k, queue m !! t = Some k → pk_woken k = w
    | None => queue m' = queue m
    end;
  (** [FUTEX_WAKE_BITSET]: wakes at most [n] threads of those that are parked
      on the address with the bits, and returns their number. *)
  sys_wake : loc → Z → u32 → gmap loc Z → Z * gmap loc Z;
  sys_wake_law l n bits m :
    let '(c, m') := sys_wake l n bits m in
    (∀ l', user_cell l' → m' !! l' = m !! l') ∧
    ∃ ts, NoDup ts ∧ c = Z.of_nat (length ts) ∧ c <= Z.max 0 n ∧
      Forall (λ t, queue m !! t = Some (Parked l bits false)) ts ∧
      queue m' = set_all_woken ts (queue m);
}.

(** A system with one queue, which it keeps in cell 1. *)
#[export] Instance parked_countable : Countable parked.
Proof.
  apply (inj_countable' (λ k, (pk_addr k, pk_bits k, pk_woken k))
           (λ '(a, b, w), Parked a b w)); by intros [].
Defined.

Definition queue_1 (m : gmap loc Z) : queue_of :=
  match m !! 1%positive with Some (Zpos x) => default ∅ (decode x) | _ => ∅ end.
Definition store_queue (q : queue_of) (m : gmap loc Z) : gmap loc Z :=
  <[1%positive := Zpos (encode q)]> m.

Lemma queue_store q m : queue_1 (store_queue q m) = q.
Proof. unfold queue_1, store_queue. by rewrite lookup_insert_eq, decode_encode. Qed.
Lemma store_other q m l : l ≠ 1%positive → store_queue q m !! l = m !! l.
Proof. intros. unfold store_queue. by rewrite lookup_insert_ne. Qed.

Definition kernel_1 : Kernel.
Proof.
  refine {|
    queue := queue_1;
    user_cell l := l ≠ 1%positive;
    sys_wait l v bits m :=
      if default 0 (m !! l) =? v then
        let t := fresh (dom (queue_1 m)) in
        (Some t, store_queue (<[t := Parked l bits false]> (queue_1 m)) m)
      else (None, m);
    sys_return t m :=
      match queue_1 m !! t with
      | Some k => if pk_woken k then (Some true, store_queue (delete t (queue_1 m)) m) else (None, m)
      | None => (None, m)
      end;
    sys_wake l n bits m :=
      let ts := take (Z.to_nat n)
                  (filter (λ t, queue_1 m !! t = Some (Parked l bits false)) (elements (dom (queue_1 m)))) in
      (Z.of_nat (length ts), store_queue (set_all_woken ts (queue_1 m)) m);
  |}.
  - intros l v m Hl. unfold queue_1. by rewrite lookup_insert_ne.
  - intros l v bits m. cbv zeta. destruct (_ =? v); [|done].
    split; [intros; by apply store_other|]. rewrite queue_store. split; [|done].
    apply not_elem_of_dom, is_fresh.
  - intros t m. destruct (queue_1 m !! t) as [k|] eqn:Ek; [|done].
    destruct (pk_woken k) eqn:Ew; [|done].
    split; [intros; by apply store_other|]. rewrite queue_store. split; [done|].
    intros k' Hk'. by simplify_eq.
  - intros l n bits m. cbv zeta. split; [intros; by apply store_other|].
    set (xs := filter _ _). exists (take (Z.to_nat n) xs). split_and!.
    + apply (sublist_NoDup _ xs); [|apply sublist_take]. apply list.NoDup_filter, NoDup_elements.
    + done.
    + rewrite length_take. lia.
    + apply list.Forall_forall. intros t Ht%(subseteq_take _ _ _).
      by apply list_elem_of_filter in Ht as [? _].
    + by rewrite queue_store.
Defined.

(** ** The structure [Futex] *)

Definition READ_FAIRNESS_PERIOD : Z := 32.
Definition READER_BIT : u32 := 1.
Definition WRITER_BIT : u32 := 2.

Record Futex := FutexC { fx_futex : loc; fx_writer_count : loc; fx_fairness : loc }.

(** An assertion that fails panics; those of [aborts] end the thread instead, with
    the assertion as the last thing that is known of it. *)
Definition assert_at {U} (aborts : assertion → bool) (a : assertion) (b : bool) : prog U unit :=
  if b then Ret tt else if aborts a then Stops a else Panic.

Section futex.
Context {KN : Kernel} {U : Type} (aborts : assertion → bool) (linux : bool).

Definition prefer_wake_one_writer (self : Futex) : prog U bool :=
  v ← do_op (Load (fx_fairness self));
  Ret (if linux then negb (v `mod` READ_FAIRNESS_PERIOD =? 0) else v `mod` READ_FAIRNESS_PERIOD =? 0).

(** The thread is parked until the call returns. *)
Fixpoint parked_until (fuel : nat) (t : positive) : prog U bool :=
  match fuel with
  | O => Diverge
  | S fuel =>
      r ← do_op (Sys (sys_return t));
      match r with
      | Some woken => Ret woken
      | None => parked_until fuel t
      end
  end.

Definition wait_bitset (fuel : nat) (self : Futex) (value bits : u32) : prog U bool :=
  r ← do_op (Sys (sys_wait (fx_futex self) value bits));
  match r with
  | Some t => parked_until fuel t
  | None => Ret false
  end.

Definition compare_and_wait_as_reader (fuel : nat) (self : Futex) (value : u32) : prog U bool :=
  wait_bitset fuel self value READER_BIT.

Definition compare_and_wait_as_writer (fuel : nat) (self : Futex) (value : u32) : prog U bool :=
  count ← do_op (FetchAdd 32 (fx_writer_count self) 1);
  assert_at aborts WriterCountOverflow (negb (count =? 2 ^ 32 - 1));;
  res ← wait_bitset fuel self value WRITER_BIT;
  prev_count ← do_op (FetchSub 32 (fx_writer_count self) 1);
  assert_at aborts WriterCountUnderflow (negb (prev_count =? 0));;
  (if (res : bool) && (1 <? prev_count)
   then _ ← do_op (FetchOr (fx_futex self) WRITE_WAITER_BIT); Ret tt else Ret tt);;
  Ret res.

Definition futex_wake_readers (self : Futex) : prog U Z :=
  do_op (Store (fx_fairness self) 1);;
  count ← do_op (Sys (sys_wake (fx_futex self) MAX_WAKED_READERS READER_BIT));
  (if count =? MAX_WAKED_READERS
   then _ ← do_op (FetchOr (fx_futex self) READ_WAITER_BIT); Ret tt else Ret tt);;
  Ret count.

Definition wake_one_writer (self : Futex) : prog U bool :=
  _ ← do_op (FetchAdd 16 (fx_fairness self) 1);
  count ← do_op (Sys (sys_wake (fx_futex self) 1 WRITER_BIT));
  Ret (count =? 1).
End futex.
