(* ===== verification/FutexLocker.v ===== *)
(** * The futex phase locker (src/phase_locker/sync.rs)

    The implementation of [SyncPhaseLocker] that parks the threads that wait. A
    thread that releases the lock and finds waiters keeps it out of the reach of
    others until it has passed it on ([transfer_lock]): to one writer, or to all
    the readers, which it counts in advance ([wake_readers]). The loops take a
    fuel; the functions that count for the lock statistics are in [LockStats]. *)

From stdpp Require Import base list option numbers gmap.
From S2P Require Import Prelude Word Phase Atomics SpinWait Locker Futex.
Open Scope Z_scope.

Abbreviation SyncPhaseLocker := Futex.

Record Lock := LockC { lk_futex : Futex; lk_init_phase : Phase; lk_on_unlock : Phase }.
Record ReadLock := ReadLockC { rl_futex : Futex; rl_init_phase : Phase }.

Record SyncPhaseGuard (T : Type) := SyncPhaseGuardC { sg_target : T; sg_lock : Lock }.
Record SyncReadPhaseGuard (T : Type) := SyncReadPhaseGuardC { sr_target : T; sr_lock : ReadLock }.
Arguments SyncPhaseGuardC {T} sg_target sg_lock.
Arguments sg_target {T} s.
Arguments sg_lock {T} s.
Arguments SyncReadPhaseGuardC {T} sr_target sr_lock.
Arguments sr_target {T} s.
Arguments sr_lock {T} s.

(** ** Tests of the word *)

Definition has_no_readers (v : u32) : bool := Z.land v (Z.lor READER_OVERF READER_BITS) =? 0.
Definition has_readers (v : u32) : bool := negb (Z.land v (Z.lor READER_OVERF READER_BITS) =? 0).
Definition has_one_reader (v : u32) : bool :=
  Z.land v (Z.lor READER_OVERF READER_BITS) =? READER_UNITY.
Definition has_readers_max (v : u32) : bool := Z.land v READER_BITS =? READER_BITS.
Definition is_not_write_locked (v : u32) : bool := Z.land v LOCKED_BIT =? 0.
Definition has_waiters (v : u32) : bool :=
  negb (Z.land v (Z.lor READ_WAITER_BIT WRITE_WAITER_BIT) =? 0).
Definition has_no_waiters (v : u32) : bool :=
  Z.land v (Z.lor READ_WAITER_BIT WRITE_WAITER_BIT) =? 0.
Definition is_write_lockable (v : u32) : bool :=
  is_not_write_locked v && (has_readers v || has_no_waiters v).
Definition is_read_lockable (v : u32) : bool :=
  (has_readers v || (has_no_waiters v && is_not_write_locked v)) && negb (has_readers_max v).
(** [cur & BIT != 0] *)
Definition has_bit (v bit : u32) : bool := negb (Z.land v bit =? 0).

(** [!LOCKED_BIT] *)
Definition NOT_LOCKED_BIT : u32 := Z.lxor LOCKED_BIT (2 ^ 32 - 1).

Section locker.
Context {KN : Kernel} {BF : Bitflags} {U : Type}.
Context (aborts : assertion → bool) (linux : bool) (fuel : nat).

Definition lock_new (futex : Futex) (current : u32) : Lock :=
  let p := from_bits_truncate current in LockC futex p p.

Definition lock_phase (lk : Lock) : prog U Phase :=
  v ← do_op (Load (fx_futex (lk_futex lk))); Ret (from_bits_truncate v).

Definition xor_phase (lk : Lock) (xor : Phase) : prog U Phase :=
  v ← do_op (FetchXor (fx_futex (lk_futex lk)) xor); Ret (from_bits_truncate v .^ xor).

Definition read_lock_new (futex : Futex) (current : u32) : ReadLock :=
  ReadLockC futex (from_bits_truncate current).

(** ** Passing the lock on *)

Definition wake_readers (futex : Futex) (to_unactivate : u32) (converting : bool) : prog U ReadLock :=
  let rb := if converting then 0 else READER_UNITY in
  v ← do_op (FetchXor (fx_futex futex)
               (Z.lor (Z.lor (Z.lor READ_WAITER_BIT to_unactivate) READER_OVERF) rb));
  assert_at aborts Other (Z.land v to_unactivate =? to_unactivate);;
  (if negb converting then assert_at aborts Other (negb (Z.land v READER_UNITY =? rb)) else Ret tt);;
  assert_at aborts (if converting then ReadersConverted else Other)
    (Z.land (Z.lxor v to_unactivate) LOCKED_BIT =? 0);;
  c ← futex_wake_readers futex;
  cur ← do_op (FetchSub 32 (fx_futex futex) (READER_OVERF - READER_UNITY * c));
  Ret (read_lock_new futex cur).

(** [ReadLock::drop], with what [transfer_lock] does. *)
Definition read_lock_drop_with (transfer_lock : Futex → u32 → prog U unit) (self : ReadLock)
    : prog U unit :=
  prev ← do_op (FetchSub 32 (fx_futex (rl_futex self)) READER_UNITY);
  if has_one_reader prev && is_not_write_locked prev && has_waiters prev
  then transfer_lock (rl_futex self) (prev - READER_UNITY)
  else Ret tt.

Section transfer.
Context (drop_read : ReadLock → prog U unit).

(** The loops of [transfer_lock] with a preference for a writer and for the
    readers. *)
Fixpoint transfer_to_writer (n : nat) (futex : Futex) (cur : u32) : prog U unit :=
  match n with
  | O => Diverge
  | S n =>
      let to_readers_or_release cur un_activate_lock :=
        if has_bit cur READ_WAITER_BIT then
          l ← wake_readers futex un_activate_lock false;
          drop_read l
        else
          cur ← do_op (FetchAnd (fx_futex futex) NOT_LOCKED_BIT);
          assert_at aborts Other (has_bit cur LOCKED_BIT);;
          if has_no_waiters cur then Ret tt
          else transfer_to_writer n futex (Z.land cur NOT_LOCKED_BIT) in
      if has_bit cur WRITE_WAITER_BIT then
        prev ← do_op (FetchXor (fx_futex futex) (Z.lor WRITE_WAITER_BIT LOCKED_BIT));
        assert_at aborts Other (has_bit prev WRITE_WAITER_BIT);;
        assert_at aborts Other
          (Z.land prev (Z.lor (Z.lor LOCKED_BIT READER_BITS) READER_OVERF) =? 0);;
        woken ← wake_one_writer futex;
        if woken : bool then Ret tt
        else to_readers_or_release (Z.lxor cur (Z.lor WRITE_WAITER_BIT LOCKED_BIT)) LOCKED_BIT
      else to_readers_or_release cur 0
  end.

Fixpoint transfer_to_readers (n : nat) (futex : Futex) (cur : u32) : prog U unit :=
  match n with
  | O => Diverge
  | S n =>
      if has_bit cur READ_WAITER_BIT then
        l ← wake_readers futex 0 false;
        drop_read l
      else
        assert_at aborts Other (has_bit cur WRITE_WAITER_BIT);;
        prev ← do_op (FetchXor (fx_futex futex) (Z.lor WRITE_WAITER_BIT LOCKED_BIT));
        assert_at aborts Other (has_bit prev WRITE_WAITER_BIT);;
        assert_at aborts Other
          (Z.land prev (Z.lor (Z.lor LOCKED_BIT READER_BITS) READER_OVERF) =? 0);;
        woken ← wake_one_writer futex;
        if woken : bool then Ret tt
        else
          cur ← do_op (FetchAnd (fx_futex futex) NOT_LOCKED_BIT);
          assert_at aborts Other (has_bit cur LOCKED_BIT);;
          if has_no_waiters cur then Ret tt
          else transfer_to_readers n futex (Z.land cur NOT_LOCKED_BIT)
  end.
End transfer.

(** [depth] bounds the recursion through the lock that [wake_readers] returns
    and [transfer_lock] drops. *)
Fixpoint transfer_lock (depth : nat) (futex : Futex) (cur : u32) : prog U unit :=
  match depth with
  | O => Diverge
  | S depth =>
      let drop_read := read_lock_drop_with (transfer_lock depth) in
      assert_at aborts Other
        (Z.land cur (Z.lor (Z.lor LOCKED_BIT READER_BITS) READER_OVERF) =? 0);;
      assert_at aborts Other (has_waiters cur);;
      b ← prefer_wake_one_writer linux futex;
      if b : bool then transfer_to_writer drop_read fuel futex cur
      else transfer_to_readers drop_read fuel futex cur
  end.

Definition read_lock_drop : ReadLock → prog U unit := read_lock_drop_with (transfer_lock fuel).

Definition lock_drop (self : Lock) : prog U unit :=
  let futex := lk_futex self in
  let p := lk_init_phase self in
  r ← do_op (CompareExchange false (fx_futex futex) (Z.lor p LOCKED_BIT) (lk_on_unlock self));
  match r with
  | Ok _ => Ret tt
  | Err _ =>
      let xor := Z.lor (lk_init_phase self .^ lk_on_unlock self) LOCKED_BIT in
      prev ← do_op (FetchXor (fx_futex futex) xor);
      if has_waiters prev then transfer_lock fuel futex (Z.lxor prev xor) else Ret tt
  end.

(** A panic of [wake_readers] unwinds through the frame that owns the lock. *)
Definition into_read_lock (self : Lock) (cur : Phase) : prog U ReadLock :=
  let futex := lk_futex self in
  let xor := Z.lor (Z.lor (cur .^ lk_on_unlock self) LOCKED_BIT) READER_UNITY in
  prev ← do_op (FetchXor (fx_futex futex) xor);
  if has_bit prev READ_WAITER_BIT then
    r ← catch (wake_readers futex 0 true);
    match r with
    | Some r => Ret r
    | None => lock_drop self;; Panic
    end
  else Ret (read_lock_new futex (lk_on_unlock self)).

Definition read_lock_from (this : Lock) : prog U ReadLock :=
  into_read_lock this (lk_init_phase this).

(** ** Waiting *)

Fixpoint read_lock_loop (n : nat) (futex : Futex) (shall_continue : u32 → bool) (cur : u32)
    (inner_spin_wait : SpinWait) : prog U (result ReadLock u32) :=
  match n with
  | O => Diverge
  | S n =>
      r ← do_op (CompareExchange true (fx_futex futex) cur (wrap 32 (cur + READER_UNITY)));
      match r with
      | Ok _ => Ret (Ok (read_lock_new futex cur))
      | Err _ =>
          let '(_, _, inner_spin_wait) := spin_no_yield inner_spin_wait in
          cur ← do_op (Load (fx_futex futex));
          if negb (shall_continue cur) then Ret (Err cur)
          else read_lock_loop n futex shall_continue cur inner_spin_wait
      end
  end.

Definition read_lock (futex : Futex) (shall_continue : u32 → bool) (cur : u32)
    : prog U (result ReadLock u32) :=
  read_lock_loop fuel futex shall_continue cur SpinWait.new.

(** A lock that is not returned is dropped. *)
Definition wait_as_writer_then_wake_with_lock (futex : Futex) (cur : u32) (how : How)
    : prog U (option (LockResult ReadLock Lock)) :=
  woken ← compare_and_wait_as_writer aborts fuel futex cur;
  if woken : bool then
    cur ← do_op (Load (fx_futex futex));
    assert_at aborts Other (has_bit cur LOCKED_BIT);;
    let lock := lock_new futex cur in
    match how (from_bits_truncate cur) with
    | LNWrite => Ret (Some (LRWrite lock))
    | LNRead => r ← into_read_lock lock (from_bits_truncate cur); Ret (Some (LRRead r))
    | LNNone => lock_drop lock;; Ret (Some (LRNone (from_bits_truncate cur)))
    end
  else Ret None.

Definition wait_as_reader_then_wake_with_lock (futex : Futex) (cur : u32) (how : How)
    : prog U (option (LockResult ReadLock Lock)) :=
  woken ← compare_and_wait_as_reader fuel futex cur;
  if woken : bool then
    cur ← do_op (Load (fx_futex futex));
    assert_at aborts Other (has_readers cur);;
    let lock := read_lock_new futex cur in
    match how (from_bits_truncate cur) with
    | LNRead => Ret (Some (LRRead lock))
    | LNNone => read_lock_drop lock;; Ret (Some (LRNone (from_bits_truncate cur)))
    | LNWrite => read_lock_drop lock;; Ret None
    end
  else Ret None.

(** The spinning part of [wait_for_readers]; [None] when it gives up. *)
Fixpoint spin_for_readers (n : nat) (futex : Futex) (cur : u32) (spinwait : SpinWait)
    : prog U (result Lock u32) :=
  match n with
  | O => Diverge
  | S n =>
      let '(b, _, spinwait) := spin spinwait in
      if b then
        cur ← do_op (Load (fx_futex futex));
        if has_no_readers cur then Ret (Ok (lock_new futex cur))
        else spin_for_readers n futex cur spinwait
      else Ret (Err cur)
  end.

(** Its second part, which takes the locked bit back. *)
Fixpoint unlock_for_readers (n : nat) (futex : Futex) (cur : u32) : prog U (result Lock u32) :=
  match n with
  | O => Diverge
  | S n =>
      let new := Z.land (Z.lor cur WRITE_WAITER_BIT) NOT_LOCKED_BIT in
      r ← do_op (CompareExchange true (fx_futex futex) cur new);
      match r with
      | Err cur =>
          if has_no_readers cur then Ret (Ok (lock_new futex cur))
          else unlock_for_readers n futex cur
      | Ok _ => Ret (Err new)
      end
  end.

Definition wait_for_readers (futex : Futex) (cur : u32) : prog U (result Lock u32) :=
  r ← spin_for_readers fuel futex cur SpinWait.new;
  match r with
  | Ok l => Ret (Ok l)
  | Err cur => unlock_for_readers fuel futex cur
  end.

Fixpoint read_lock_clone_loop (n : nat) (self : ReadLock) (spin_wait : SpinWait) (cur : u32)
    : prog U ReadLock :=
  match n with
  | O => Diverge
  | S n =>
      let futex := rl_futex self in
      r ← (if negb (has_readers_max cur)
           then read_lock futex (λ cur, negb (has_readers_max cur)) cur else Ret (Err cur));
      match r with
      | Ok rl => Ret rl
      | Err cur =>
          let '(b, _, spun) := spin spin_wait in
          if negb (has_bit cur READ_WAITER_BIT) && b then
            cur ← do_op (Load (fx_futex futex));
            read_lock_clone_loop n self spun cur
          else
            let spin_wait := if negb (has_bit cur READ_WAITER_BIT) then spun else spin_wait in
            r ← (if negb (has_bit cur READ_WAITER_BIT)
                 then do_op (CompareExchange true (fx_futex futex) cur (Z.lor cur READ_WAITER_BIT))
                 else Ret (Ok cur));
            match r with
            | Err x => read_lock_clone_loop n self spin_wait x
            | Ok _ =>
                woken ← compare_and_wait_as_reader fuel futex (Z.lor cur READ_WAITER_BIT);
                if woken : bool then
                  cur ← do_op (Load (fx_futex futex));
                  assert_at aborts Other (has_readers cur);;
                  Ret (read_lock_new futex cur)
                else
                  cur ← do_op (Load (fx_futex futex));
                  read_lock_clone_loop n self (reset spin_wait) cur
            end
      end
  end.

Definition read_lock_clone (self : ReadLock) : prog U ReadLock :=
  cur ← do_op (Load (fx_futex (rl_futex self)));
  read_lock_clone_loop fuel self SpinWait.new cur.

(** ** SyncPhaseLocker *)

Definition new (p : Phase) : u32 := p.

Definition phase (self : SyncPhaseLocker) : prog U Phase :=
  v ← do_op (Load (fx_futex self)); Ret (from_bits_truncate v).

Definition optimistic_lock (self : SyncPhaseLocker) (how : How) (hint : Phase)
    : prog U (result (LockResult ReadLock Lock) u32) :=
  let cur := hint in
  match how hint with
  | LNNone =>
      cur ← do_op (Load (fx_futex self));
      let p := from_bits_truncate cur in
      match how p with
      | LNNone => Ret (Ok (LRNone p))
      | _ => Ret (Err cur)
      end
  | LNWrite =>
      r ← do_op (CompareExchange true (fx_futex self) cur (Z.lor cur LOCKED_BIT));
      match r with
      | Ok _ => Ret (Ok (LRWrite (lock_new self cur)))
      | Err x => Ret (Err x)
      end
  | LNRead =>
      r ← do_op (CompareExchange true (fx_futex self) cur (wrap 32 (cur + READER_UNITY)));
      match r with
      | Ok _ => Ret (Ok (LRRead (read_lock_new self cur)))
      | Err x => Ret (Err x)
      end
  end.

(** The read loop of [try_raw_lock]; [None] leaves it by [break]. *)
Fixpoint try_read_loop (n : nat) (self : SyncPhaseLocker) (how : How) (cur : u32)
    : prog U (option ReadLock) :=
  match n with
  | O => Diverge
  | S n =>
      if negb (is_read_lockable cur) then Ret None
      else
        r ← do_op (CompareExchange true (fx_futex self) cur (wrap 32 (cur + READER_UNITY)));
        match r with
        | Ok _ => Ret (Some (read_lock_new self cur))
        | Err cur =>
            if negb (bool_decide (how (from_bits_truncate cur) = LNRead)) then Ret None
            else try_read_loop n self how cur
        end
  end.

Definition try_raw_lock (self : SyncPhaseLocker) (how : How) (hint : Phase)
    : prog U (option (LockResult ReadLock Lock)) :=
  r ← optimistic_lock self how hint;
  match r with
  | Ok x => Ret (Some x)
  | Err cur =>
      let p := from_bits_truncate cur in
      match how p with
      | LNWrite =>
          if is_write_lockable cur && has_no_readers cur then
            r ← do_op (CompareExchange false (fx_futex self) cur (Z.lor cur LOCKED_BIT));
            match r with
            | Ok _ => Ret (Some (LRWrite (lock_new self cur)))
            | Err _ => Ret None
            end
          else Ret None
      | LNRead =>
          r ← try_read_loop fuel self how cur;
          match r with
          | Some l => Ret (Some (LRRead l))
          | None => Ret None
          end
      | LNNone => Ret (Some (LRNone p))
      end
  end.

(** The closure with which [raw_lock] and [raw_lock_slow] call [read_lock]. *)
Definition shall_read (how : How) (cur : u32) : bool :=
  bool_decide (how (from_bits_truncate cur) = LNRead) && is_read_lockable cur.

(** How an iteration of [raw_lock_slow] goes on after the attempt that [how]
    asks for: with a result, with another iteration, or with a wait. *)
Inductive attempt :=
| Done (r : LockResult ReadLock Lock)
| Continue (cur : u32) (spin_wait : SpinWait)
| WaitFrom (cur : u32) (spin_wait : SpinWait).

Definition attempt_write (self : SyncPhaseLocker) (cur : u32) (spin_wait : SpinWait) : prog U attempt :=
  let spin_or_wait cur :=
    let '(b, _, spun) := spin spin_wait in
    if negb (has_bit cur WRITE_WAITER_BIT) && b then
      cur ← do_op (Load (fx_futex self));
      Ret (Continue cur spun)
    else
      Ret (WaitFrom cur (if negb (has_bit cur WRITE_WAITER_BIT) then spun else spin_wait)) in
  if is_write_lockable cur then
    if has_no_readers cur then
      r ← do_op (CompareExchange true (fx_futex self) cur (Z.lor cur LOCKED_BIT));
      match r with
      | Ok _ => Ret (Done (LRWrite (lock_new self cur)))
      | Err x => Ret (Continue x spin_wait)
      end
    else
      r ← do_op (CompareExchange true (fx_futex self) cur (Z.lor cur LOCKED_BIT));
      match r with
      | Ok x =>
          r ← wait_for_readers self (Z.lor x LOCKED_BIT);
          match r with
          | Ok l => Ret (Done (LRWrite l))
          | Err cur => spin_or_wait cur
          end
      | Err x => Ret (Continue x spin_wait)
      end
  else spin_or_wait cur.

Definition attempt_read (self : SyncPhaseLocker) (how : How) (cur : u32) (spin_wait : SpinWait)
    : prog U attempt :=
  r ← (if is_read_lockable cur then read_lock self (shall_read how) cur else Ret (Err cur));
  match r with
  | Ok r => Ret (Done (LRRead r))
  | Err cur =>
      let '(b, _, spun) := spin spin_wait in
      if has_no_waiters cur && b then
        cur ← do_op (Load (fx_futex self));
        Ret (Continue cur spun)
      else Ret (WaitFrom cur (if has_no_waiters cur then spun else spin_wait))
  end.

(** Sets the waiter bit of a thread that is to be parked; [None] when the word
    has changed. *)
Definition announce (self : SyncPhaseLocker) (cur bit : u32) : prog U (result u32 u32) :=
  if negb (has_bit cur bit) then
    r ← do_op (CompareExchange true (fx_futex self) cur (Z.lor cur bit));
    match r with
    | Err x => Ret (Err x)
    | Ok _ => Ret (Ok (Z.lor cur bit))
    end
  else Ret (Ok cur).

Definition attempt_wait (self : SyncPhaseLocker) (how on_waiting_how : How) (cur : u32)
    (spin_wait : SpinWait) : prog U attempt :=
  match on_waiting_how (from_bits_truncate cur) with
  | LNNone => Ret (Done (LRNone (from_bits_truncate cur)))
  | n =>
      a ← announce self cur (if n is LNWrite then WRITE_WAITER_BIT else READ_WAITER_BIT);
      match a with
      | Err x => Ret (Continue x spin_wait)
      | Ok cur =>
          r ← (if n is LNWrite then wait_as_writer_then_wake_with_lock self cur how
               else wait_as_reader_then_wake_with_lock self cur how);
          match r with
          | Some lock => Ret (Done lock)
          | None =>
              cur ← do_op (Load (fx_futex self));
              Ret (Continue cur (reset spin_wait))
          end
      end
  end.

Fixpoint raw_lock_slow_loop (n : nat) (self : SyncPhaseLocker) (how on_waiting_how : How) (cur : u32)
    (spin_wait : SpinWait) : prog U (LockResult ReadLock Lock) :=
  match n with
  | O => Diverge
  | S n =>
      a ← match how (from_bits_truncate cur) with
          | LNNone => Ret (Done (LRNone (from_bits_truncate cur)))
          | LNWrite => attempt_write self cur spin_wait
          | LNRead => attempt_read self how cur spin_wait
          end;
      a ← match a with
          | WaitFrom cur spin_wait => attempt_wait self how on_waiting_how cur spin_wait
          | a => Ret a
          end;
      match a with
      | Done r => Ret r
      | Continue cur spin_wait | WaitFrom cur spin_wait =>
          raw_lock_slow_loop n self how on_waiting_how cur spin_wait
      end
  end.

Definition raw_lock_slow (self : SyncPhaseLocker) (how on_waiting_how : How)
    : prog U (LockResult ReadLock Lock) :=
  cur ← do_op (Load (fx_futex self));
  raw_lock_slow_loop fuel self how on_waiting_how cur SpinWait.new.

Definition raw_lock (self : SyncPhaseLocker) (how on_waiting_how : How) (hint : Phase)
    : prog U (LockResult ReadLock Lock) :=
  r ← optimistic_lock self how hint;
  match r with
  | Ok x => Ret x
  | Err cur =>
      let p := from_bits_truncate cur in
      match how p with
      | LNNone => Ret (LRNone p)
      | LNWrite =>
          if is_write_lockable cur && has_no_readers cur then
            r ← do_op (CompareExchange true (fx_futex self) cur (Z.lor cur LOCKED_BIT));
            match r with
            | Ok _ => Ret (LRWrite (lock_new self cur))
            | Err _ => raw_lock_slow self how on_waiting_how
            end
          else raw_lock_slow self how on_waiting_how
      | LNRead =>
          r ← (if is_read_lockable cur then read_lock self (shall_read how) cur else Ret (Err cur));
          match r with
          | Ok r => Ret (LRRead r)
          | Err _ => raw_lock_slow self how on_waiting_how
          end
      end
  end.

Definition guard_result {T} (v : T) (r : LockResult ReadLock Lock)
    : LockResult (SyncReadPhaseGuard T) (SyncPhaseGuard T) :=
  match r with
  | LRWrite l => LRWrite (SyncPhaseGuardC v l)
  | LRRead l => LRRead (SyncReadPhaseGuardC v l)
  | LRNone p => LRNone p
  end.

Definition lock {T} (self : SyncPhaseLocker) (v : T) (how on_waiting_how : How) (hint : Phase)
    : prog U (LockResult (SyncReadPhaseGuard T) (SyncPhaseGuard T)) :=
  r ← raw_lock self how on_waiting_how hint; Ret (guard_result v r).

Definition try_lock {T} (self : SyncPhaseLocker) (v : T) (how : How) (hint : Phase)
    : prog U (option (LockResult (SyncReadPhaseGuard T) (SyncPhaseGuard T))) :=
  r ← try_raw_lock self how hint;
  match r with
  | Some r => Ret (Some (guard_result v r))
  | None => Ret None
  end.

Definition lock_mut {T} (self : SyncPhaseLocker) (v : T) : prog U (SyncPhaseGuard T) :=
  cur ← do_op (FetchOr (fx_futex self) LOCKED_BIT); Ret (SyncPhaseGuardC v (lock_new self cur)).

(** ** SyncPhaseGuard and SyncReadPhaseGuard *)

Definition set_phase {T} (g : SyncPhaseGuard T) (p : Phase) : SyncPhaseGuard T :=
  SyncPhaseGuardC (sg_target g) (LockC (lk_futex (sg_lock g)) (lk_init_phase (sg_lock g)) p).

Definition commit_phase {T} (g : SyncPhaseGuard T) : prog U unit :=
  cur ← lock_phase (sg_lock g);
  let to_xor := lk_on_unlock (sg_lock g) .^ cur in
  xor_phase (sg_lock g) to_xor;; Ret tt.

Definition guard_phase {T} (g : SyncPhaseGuard T) : Phase := lk_on_unlock (sg_lock g).

Definition guard_map {T S} (g : SyncPhaseGuard T) (f : T → S) : SyncPhaseGuard S :=
  SyncPhaseGuardC (f (sg_target g)) (sg_lock g).

Definition guard_into_read {T} (g : SyncPhaseGuard T) : prog U (SyncReadPhaseGuard T) :=
  r ← read_lock_from (sg_lock g); Ret (SyncReadPhaseGuardC (sg_target g) r).

Definition read_map {T S} (g : SyncReadPhaseGuard T) (f : T → S) : SyncReadPhaseGuard S :=
  SyncReadPhaseGuardC (f (sr_target g)) (sr_lock g).

Definition read_clone {T} (g : SyncReadPhaseGuard T) : prog U (SyncReadPhaseGuard T) :=
  r ← read_lock_clone (sr_lock g); Ret (SyncReadPhaseGuardC (sr_target g) r).

Definition futex_locker : PhaseLocker U SyncPhaseLocker := {|
  ReadGuard := SyncReadPhaseGuard;
  WriteGuard := SyncPhaseGuard;
  pl_lock T := lock;
  pl_try_lock T := try_lock;
  pl_lock_mut T := lock_mut;
  pl_phase := phase;
  wg_target := @sg_target;
  wg_set_phase := @set_phase;
  wg_commit_phase := @commit_phase;
  wg_phase := @guard_phase;
  wg_map := @guard_map;
  wg_drop T g := lock_drop (sg_lock g);
  wg_into_read := @guard_into_read;
  rg_target := @sr_target;
  rg_phase T g := Ret (rl_init_phase (sr_lock g));
  rg_map := @read_map;
  rg_clone T := read_clone;
  rg_drop T g := read_lock_drop (sr_lock g);
|}.

(** ** [impl MutPhaseLocker] *)

Definition mut_get_phase_unique (self : SyncPhaseLocker) : prog U Phase :=
  v ← do_op (Local (fx_futex self) (λ v, (v, v)));
  match from_bits v with
  | Some p => Ret p
  | None => Panic
  end.

Definition mut_set_phase (self : SyncPhaseLocker) (p : Phase) : prog U unit :=
  do_op (Local (fx_futex self) (λ _, (tt, p))).

Definition mut_transition {X} (self : SyncPhaseLocker) (f : prog U X) (on_success on_panic : Phase)
    : prog U X :=
  r ← catch f;
  match r with
  | Some r => mut_set_phase self on_success;; Ret r
  | None => do_op (Local (fx_futex self) (λ _, (tt, on_panic)));; Panic
  end.

#[export] Instance futex_mut_locker : MutPhaseLocker U SyncPhaseLocker := {
  get_phase_unique := mut_get_phase_unique;
  set_phase_unique := mut_set_phase;
  transition_unique X := mut_transition;
}.

Definition mutex_lock (self : SyncPhaseLocker) : prog U Lock :=
  r ← raw_lock self (λ _, LNWrite) (λ _, LNWrite) empty_flags;
  match r with
  | LRWrite l => Ret l
  | _ => Panic
  end.
End locker.
