(* ===== verification/FutexInv.v ===== *)
(** * The ownership model of the futex locker

    The word of the futex locker also has waiters, and the lock is passed on
    through the queue of the system: a thread that is woken finds that it holds
    the lock. This file has the tests of the word on its fields, the monoid of
    what a thread can own of the lock, the invariant that relates the owners,
    the queue and the word, and the effect of each transition on them. *)

From stdpp Require Import base list option numbers gmap gmultiset.
From S2P Require Import Prelude Word Phase Atomics Locker Tokens Futex FutexLocker.
Open Scope Z_scope.

(** ** The tests and the changes of the word, on its fields *)

Section word.
Context (p n : Z) (lk rw ww : bool) (Hp : phase_range p) (Hn : count_range n).
Abbreviation w := (word p n lk rw ww).

Lemma fx_no_readers : has_no_readers w = (n =? 0).
Proof using Hp Hn.
  unfold has_no_readers. rewrite word_land_readers by done.
  apply eq_true_iff_eq. rewrite !Z.eqb_eq, word_0 by auto with word.
  split; [by intros (_ & ? & _)|by intros ->].
Qed.

Lemma fx_readers : has_readers w = negb (n =? 0).
Proof using Hp Hn. rewrite <- fx_no_readers. reflexivity. Qed.

Lemma fx_one_reader : has_one_reader w = (n =? 1).
Proof using Hp Hn.
  unfold has_one_reader. rewrite word_land_readers, READER_UNITY_word by done.
  apply eq_true_iff_eq. rewrite !Z.eqb_eq. split; [|by intros ->].
  intros Heq. by apply word_inj in Heq as (_ & -> & _); auto with word.
Qed.

Lemma fx_readers_max : has_readers_max w = (n `mod` 2 ^ 20 =? 2 ^ 20 - 1).
Proof using Hp Hn.
  unfold has_readers_max. rewrite word_land_reader_bits by done. rewrite READER_BITS_word.
  apply eq_true_iff_eq. rewrite !Z.eqb_eq. split; [|by intros ->].
  intros Heq. by apply word_inj in Heq as (_ & -> & _); auto with word.
Qed.

Lemma fx_not_write_locked : is_not_write_locked w = negb lk.
Proof using Hp Hn.
  unfold is_not_write_locked. rewrite word_land_locked by done. by destruct lk.
Qed.

Lemma fx_no_waiters : has_no_waiters w = negb (rw || ww).
Proof using Hp Hn.
  unfold has_no_waiters. rewrite word_land_waiters by done. by destruct rw, ww.
Qed.

Lemma fx_waiters : has_waiters w = rw || ww.
Proof using Hp Hn.
  unfold has_waiters. rewrite word_land_waiters by done. by destruct rw, ww.
Qed.

Lemma fx_write_lockable : is_write_lockable w = negb lk && (negb (n =? 0) || negb (rw || ww)).
Proof using Hp Hn.
  unfold is_write_lockable. by rewrite fx_not_write_locked, fx_readers, fx_no_waiters.
Qed.

Lemma fx_read_lockable :
  is_read_lockable w =
    (negb (n =? 0) || (negb (rw || ww) && negb lk)) && negb (n `mod` 2 ^ 20 =? 2 ^ 20 - 1).
Proof using Hp Hn.
  unfold is_read_lockable.
  by rewrite fx_not_write_locked, fx_readers, fx_no_waiters, fx_readers_max.
Qed.

Lemma fx_locked_bit : has_bit w LOCKED_BIT = lk.
Proof using Hp Hn. unfold has_bit. rewrite word_land_locked by done. by destruct lk. Qed.

Lemma fx_read_waiter_bit : has_bit w READ_WAITER_BIT = rw.
Proof using Hp Hn.
  unfold has_bit. rewrite READ_WAITER_BIT_word, word_land by auto with word.
  rewrite !Z.land_0_r, !andb_false_r, andb_true_r. by destruct rw.
Qed.

Lemma fx_write_waiter_bit : has_bit w WRITE_WAITER_BIT = ww.
Proof using Hp Hn.
  unfold has_bit. rewrite WRITE_WAITER_BIT_word, word_land by auto with word.
  rewrite !Z.land_0_r, !andb_false_r, andb_true_r. by destruct ww.
Qed.

(** The test that nobody holds the lock. *)
Lemma fx_free :
  (Z.land w (Z.lor (Z.lor LOCKED_BIT READER_BITS) READER_OVERF) =? 0) = negb lk && (n =? 0).
Proof using Hp Hn.
  change (Z.lor (Z.lor LOCKED_BIT READER_BITS) READER_OVERF)
    with (word 0 (2 ^ 21 - 1) true false false).
  rewrite word_land by auto with word.
  rewrite !Z.land_0_r, !andb_false_r, andb_true_r, land_small by (lia || apply Hn).
  apply eq_true_iff_eq. rewrite andb_true_iff, !Z.eqb_eq, word_0 by auto with word.
  destruct lk; simpl; intuition (congruence || lia).
Qed.

Lemma fx_set_read_waiter : Z.lor w READ_WAITER_BIT = word p n lk true ww.
Proof using Hp Hn.
  rewrite READ_WAITER_BIT_word, word_lor by auto with word.
  by rewrite !Z.lor_0_r, !orb_false_r, orb_true_r.
Qed.

Lemma fx_set_write_waiter : Z.lor w WRITE_WAITER_BIT = word p n lk rw true.
Proof using Hp Hn.
  rewrite WRITE_WAITER_BIT_word, word_lor by auto with word.
  by rewrite !Z.lor_0_r, !orb_false_r, orb_true_r.
Qed.

Lemma fx_clear_locked : Z.land w NOT_LOCKED_BIT = word p n false rw ww.
Proof using Hp Hn.
  change NOT_LOCKED_BIT with (word (2 ^ 8 - 1) (2 ^ 21 - 1) false true true).
  rewrite word_land by (done || auto with word || (unfold phase_range; lia)).
  rewrite !land_small by (lia || apply Hn || apply Hp).
  by rewrite andb_false_r, !andb_true_r.
Qed.

Lemma fx_add_reader :
  n `mod` 2 ^ 20 ≠ 2 ^ 20 - 1 →
  wrap 32 (w + READER_UNITY) = word p (n + 1) lk rw ww ∧ count_range (n + 1).
Proof using Hp Hn.
  intros Hne.
  assert (count_range (n + 1)) as Hn'.
  { unfold count_range in *. destruct (decide (n = 2 ^ 21 - 1)) as [->|]; [|lia].
    by destruct Hne. }
  rewrite word_add_unity. by rewrite wrap_word.
Qed.

Lemma fx_sub_readers k :
  0 <= k <= n → wrap 32 (w - READER_UNITY * k) = word p (n - k) lk rw ww ∧ count_range (n - k).
Proof using Hp Hn.
  intros Hk. assert (count_range (n - k)) as Hn' by (unfold count_range in *; lia).
  split; [|done]. rewrite <- (wrap_word p (n - k)) by done. f_equal.
  unfold word, READER_UNITY. lia.
Qed.
End word.

Lemma lxor_count n : 0 <= n < 2 ^ 20 → Z.lxor n (2 ^ 20) = n + 2 ^ 20.
Proof.
  intros Hn. pose proof (bitwise_split 20 ltac:(lia) Z.lxor xorb n 0 0 1 bitwise_lxor Hn ltac:(lia)) as H.
  rewrite Z.mul_0_r, Z.add_0_r, Z.add_0_l, Z.mul_1_r, Z.lxor_0_r, Z.lxor_0_l in H. lia.
Qed.

(** ** What a thread can own *)

#[export] Instance gmultiset_pcm `{Countable A} : PCM (gmultiset A).
Proof. refine {| pcm_unit := ∅; pcm_op := (⊎) |}; apply _. Defined.

(** The exclusive roles: the holder of the write lock at a phase, with the data;
    a thread that has set the locked bit at a phase and waits for the readers to leave; the
    thread that passes the lock on, with the locked bit and waiter bits it knows
    to be set. *)
Inductive role (D : Type) :=
| Held (p : Phase) (d : D)
| Pending (p : Phase)
| Passing (lk rw ww : bool).
Arguments Held {D} p d.
Arguments Pending {D} p.
Arguments Passing {D} lk rw ww.

(** Beside the knowledge of a public phase and a role: the share of a reader
    that was the writer and is about to wake others, shares of readers, and
    the tickets of the queue. *)
Abbreviation ftokens D :=
  (bool * (excl (role D) * (excl (Phase * D) * (agree (Phase * D) * gmultiset (positive * u32)))))%type.

Section shares.
Context {A : Type} `{!EqDecision A}.

Definition shares (k : Z) (x : A) : agree A :=
  match k with Z.pos n => Agree n x | _ => AgreeNone end.

Lemma shares_op k j x : 0 <= k → 0 <= j → shares k x ⋅ shares j x = shares (k + j) x.
Proof. destruct k, j; simpl; intros; try done. by rewrite decide_True. Qed.

Lemma shares_op_inv k x a j y :
  0 < k → 0 <= j → shares k x ⋅ a = shares j y → x = y ∧ ∃ i, a = shares i y ∧ j = k + i ∧ 0 <= i.
Proof.
  intros Hk Hj. destruct k as [|k|], j as [|j|]; try lia; destruct a as [|m z|]; simpl;
    repeat case_decide; intros; simplify_eq; split; try done.
  - exists 0. simpl. split_and!; [done|lia|lia].
  - exists (Z.pos m). simpl. split_and!; [done|lia|lia].
Qed.

Lemma shares_unit j y : 0 <= j → shares j y = AgreeNone → j = 0.
Proof. by destruct j. Qed.
End shares.

Section account.
Context {U D : Type} `{!EqDecision D} (c : contract U D).

Definition tok (x : excl (role D)) (a : agree (Phase * D)) : ftokens D := (false, (x, (ExclNone, (a, ∅)))).
Definition ftok_w (p : Phase) (d : D) : ftokens D := tok (Excl (Held p d)) AgreeNone.
Definition ftok_rs (k : Z) (p : Phase) (d : D) : ftokens D := tok ExclNone (shares k (p, d)).
Definition ftok_r (p : Phase) (d : D) : ftokens D := ftok_rs 1 p d.
Definition ftok_pending (p : Phase) : ftokens D := tok (Excl (Pending p)) AgreeNone.
Definition ftok_pass (lk rw ww : bool) : ftokens D := tok (Excl (Passing lk rw ww)) AgreeNone.
Definition ftok_conv (p : Phase) (d : D) : ftokens D := (false, (ExclNone, (Excl (p, d), (AgreeNone, ∅)))).
Definition ftok_pub : ftokens D := (true, (ExclNone, (ExclNone, (AgreeNone, ∅)))).
Definition ftok_if (b : bool) : ftokens D := if b then ftok_pub else pcm_unit.
Definition ftok_ticket (t : positive) (bits : u32) : ftokens D :=
  (false, (ExclNone, (ExclNone, (AgreeNone, {[+ (t, bits) +]})))).

Definition tickets (g : ftokens D) : gmultiset (positive * u32) := g.2.2.2.2.

(** [wr] and [wm] are the numbers of readers and writers of the queue that are
    woken: each finds a share, the write lock, when it leaves the queue. *)
Definition role_ok (x : excl (role D)) (p : Phase) (d : D) (n : Z) (lk rw ww : bool) (wm : Z) : Prop :=
  match x with
  | ExclNone => ((wm = 0 ∧ lk = false) ∨ (wm = 1 ∧ lk = true ∧ n = 0)) ∧ R c p d
  | Excl (Held p' d') => wm = 0 ∧ n = 0 ∧ lk = true ∧ p' = p ∧ d' = d
  | Excl (Pending p') => wm = 0 ∧ lk = true ∧ p' = p ∧ R c p d
  | Excl (Passing k a b) =>
      wm = 0 ∧ n = 0 ∧ lk = k ∧ (a = true → rw = true) ∧ (b = true → ww = true) ∧
      (k || a || b) = true ∧ R c p d
  | ExclBot => False
  end.

Definition conv_ok (x : excl (Phase * D)) (p : Phase) (d : D) (n : Z) : Prop :=
  match x with
  | ExclNone => True
  | Excl y => y = (p, d) ∧ n < 2 ^ 20
  | ExclBot => False
  end.

Definition conv_count (x : excl (Phase * D)) : Z := match x with ExclNone => 0 | _ => 1 end.

Record account (p n : Z) (lk rw ww : bool) (wr wm : Z) (d : D) (g : ftokens D) : Prop := Account {
  acc_range : count_range n;
  acc_woken : 0 <= wr;
  acc_pub : g.1 = true → pub c p = true;
  acc_role : role_ok g.2.1 p d n lk rw ww wm;
  acc_conv : conv_ok g.2.2.1 p d n;
  acc_shares : ∃ j, 0 <= j ∧ g.2.2.2.1 = shares j (p, d) ∧ n = j + wr + conv_count g.2.2.1;
}.

(** Takes an account of [g ⋅ f] apart. *)
Ltac frame f := destruct f as (?fb & [|?fx|] & [|?fc|] & ?fa & ?ft).
Ltac acc H :=
  destruct H as [?Hrange ?Hwoken ?Hpub ?Hrole ?Hconv (?j & ?Hj & ?Hshares & ?Hcount)];
  simpl in *; try done.
Ltac close :=
  repeat match goal with
  | x : role D |- _ => destruct x; simpl in *
  | H : _ ∧ _ |- _ => destruct H
  | H : _ ∨ _ |- _ => destruct H
  end; simplify_eq/=; try done; try lia; unfold count_range in *.

(** Observations. *)
Lemma account_observe p n lk rw ww wr wm d f :
  account p n lk rw ww wr wm d f → account p n lk rw ww wr wm d (ftok_if (pub c p) ⋅ f).
Proof.
  intros H. unfold ftok_if. destruct (pub c p) eqn:E; [|by rewrite (left_id_L pcm_unit pcm_op)].
  destruct H as [????? Hs]. split; frame f; simpl in *; auto.
Qed.

Lemma account_forget b p n lk rw ww wr wm d f :
  account p n lk rw ww wr wm d (ftok_if b ⋅ f) → account p n lk rw ww wr wm d f.
Proof.
  unfold ftok_if. destruct b; [|by rewrite (left_id_L pcm_unit pcm_op)].
  intros [???? Hs ?]. split; frame f; simpl in *; auto.
Qed.

Lemma account_waiters p n lk rw ww wr wm d g rw' ww' :
  account p n lk rw ww wr wm d g → (rw = true → rw' = true) → (ww = true → ww' = true) →
  account p n lk rw' ww' wr wm d g.
Proof.
  intros [? ? ? Hr ? ?] Hrw Hww. split; try done.
  destruct (g.2.1) as [|[| |]|]; simpl in *; try done. intuition auto.
Qed.

(** Moving the wait bits, the count and the roles. [joinable]: a reader may join. *)
Definition joinable (n : Z) (lk rw ww : bool) : Prop :=
  n `mod` 2 ^ 20 ≠ 2 ^ 20 - 1 ∧ (0 < n ∨ (lk = false ∧ rw = false ∧ ww = false)).

Ltac shares_inv :=
  match goal with
  | H : shares _ _ ⋅ _ = shares _ _ |- _ =>
      apply shares_op_inv in H as (? & ? & ? & ? & ?); [|lia|lia]; simplify_eq/=
  | H : agree_op (shares _ _) _ = shares _ _ |- _ =>
      apply (shares_op_inv (A := Phase * D)) in H as (? & ? & ? & ? & ?); [|lia|lia]; simplify_eq/=
  | H : agree_op (Agree 1 _) _ = shares _ _ |- _ =>
      apply (shares_op_inv (A := Phase * D) 1) in H as (? & ? & ? & ? & ?); [|lia|lia]; simplify_eq/=
  end.

Ltac bools := repeat match goal with b : bool |- _ => destruct b end; simpl in *; intuition congruence.
Ltac acc_intro :=
  split; simpl; unfold count_range in *; try done; try lia; try solve [intuition (congruence || lia)]; try solve [eauto];
  try solve [eexists; split_and!; [|reflexivity|]; lia];
  try solve [match goal with j : Z, H : 0 = ?j + _ + _ |- _ => replace j with 0 in * by lia end; by exists 0].
Ltac acc_solve f :=
  let H := fresh in intros H; frame f; acc H; close;
  first [exfalso; solve [bools] | solve [acc_intro] | split_and!; try done; try lia; try solve [acc_intro] | idtac].

Lemma account_acquire_write p wr wm d f :
  account p 0 false false false wr wm d f →
  account p 0 true false false wr wm d (ftok_w p d ⋅ f) ∧ R c p d.
Proof. acc_solve f. Qed.

Lemma account_pending p n rw ww wr wm d f :
  0 < n → account p n false rw ww wr wm d f → account p n true rw ww wr wm d (ftok_pending p ⋅ f).
Proof. intros Hn. acc_solve f. Qed.

Lemma account_pending_phase p n lk rw ww wr wm d q f :
  account p n lk rw ww wr wm d (ftok_pending q ⋅ f) → q = p ∧ lk = true ∧ R c p d.
Proof. acc_solve f. Qed.

Lemma account_pending_take p lk rw ww wr wm d q f :
  account p 0 lk rw ww wr wm d (ftok_pending q ⋅ f) →
  account p 0 lk rw ww wr wm d (ftok_w p d ⋅ f) ∧ q = p ∧ R c p d.
Proof. acc_solve f. Qed.

Lemma account_pending_back p n lk rw ww wr wm d q f rw' ww' :
  account p n lk rw ww wr wm d (ftok_pending q ⋅ f) → account p n false rw' ww' wr wm d f.
Proof. acc_solve f. Qed.

Lemma account_writer p n lk rw ww wr wm p' d d' f :
  account p n lk rw ww wr wm d (ftok_w p' d' ⋅ f) → p' = p ∧ d' = d ∧ n = 0 ∧ lk = true.
Proof. acc_solve f. Qed.

Lemma account_release p n lk wr wm rw ww d q f :
  moves c p q d → account p n lk rw ww wr wm d (ftok_w p d ⋅ f) →
  account q 0 false rw ww wr wm d
    ((if rw || ww then ftok_pass false rw ww else pcm_unit) ⋅ f).
Proof.
  intros (_ & HR & Hmono) H. destruct (rw || ww) eqn:E; frame f; acc H; close; acc_intro.
Qed.

Lemma account_downgrade p n lk wr wm rw ww d q f :
  moves c p q d → account p n lk rw ww wr wm d (ftok_w p d ⋅ f) →
  account q 1 false rw ww wr wm d ((if rw then ftok_conv q d else ftok_r q d) ⋅ f).
Proof.
  intros (_ & HR & Hmono) H. destruct rw; frame f; acc H; close; acc_intro.
  - exists 0. assert (j = 0) as -> by lia. split_and!; [done|done|lia].
  - exists 1. assert (j = 0) as -> by lia. split_and!; [lia|done|lia].
Qed.

(** Readers come, leave and are woken. *)
Lemma account_read p n lk rw ww wr wm d f :
  joinable n lk rw ww → account p n lk rw ww wr wm d f →
  account p (n + 1) lk rw ww wr wm d (ftok_r p d ⋅ f) ∧ R c p d.
Proof.
  intros (Hmax & Hj) H.
  assert (n < 2 ^ 20 → n + 1 < 2 ^ 20) as Hsmall.
  { intros Hn. destruct H as [Hr _ _ _ _ _]. unfold count_range in Hr.
    rewrite Z.mod_small in Hmax by lia. lia. }
  assert (n < 2 ^ 21 - 1) as Hlt.
  { destruct H as [Hr _ _ _ _ _]. unfold count_range in Hr.
    destruct (decide (n = 2 ^ 21 - 1)) as [->|]; [by destruct Hmax|lia]. }
  assert (R c p d ∧ role_ok (f.2.1) p d (n + 1) lk rw ww wm) as [HR Hrole'].
  { frame f; acc H; close; try (exfalso; solve [bools]); split; intuition auto. }
  split; [|done]. destruct H as [Hr Hw Hpb Hro Hc (j & Hj0 & Hs & Hn)].
  frame f; simpl in *; acc_intro. all: exists (1 + j); rewrite Hs; split_and!; [lia|apply (shares_op 1 j (p, d)); lia|lia].
Qed.

Lemma account_reader p n lk rw ww wr wm d k p' d' f :
  0 < k → account p n lk rw ww wr wm d (ftok_rs k p' d' ⋅ f) →
  p' = p ∧ d' = d ∧ k <= n ∧ R c p d ∧ (lk = false → f.2.1 = ExclNone).
Proof.
  intros Hk H. frame f; acc H; shares_inv; close.
  all: try solve [split_and!; try done; intros; try lia; congruence].
Qed.

Lemma account_shares p n lk rw ww wr wm d k m p' d' f :
  0 < k → 0 <= m <= k → account p n lk rw ww wr wm d (ftok_rs k p' d' ⋅ f) →
  account p (n - m) lk rw ww wr wm d (ftok_rs (k - m) p' d' ⋅ f) ∧
  account p n lk rw ww (wr + m) wm d (ftok_rs (k - m) p' d' ⋅ f).
Proof.
  intros Hk Hm H. frame f; acc H; shares_inv; close; split; acc_intro.
  all: exists (k - m + x); split_and!; [lia|apply (shares_op (k - m) x (p, d)); lia|lia].
Qed.
Lemma account_take_reader p n lk rw ww wr wm d f :
  1 <= wr → account p n lk rw ww wr wm d f →
  account p n lk rw ww (wr - 1) wm d (ftok_r p d ⋅ f) ∧ R c p d.
Proof.
  intros Hwr H. frame f; acc H; close; (split; [acc_intro|done]).
  all: exists (1 + j); split_and!; [lia|apply (shares_op 1 j (p, d)); lia|lia].
Qed.

Lemma account_conv p n lk rw ww wr wm d p' d' f rw' :
  account p n lk rw ww wr wm d (ftok_conv p' d' ⋅ f) →
  p' = p ∧ d' = d ∧ 1 <= n < 2 ^ 20 ∧
  account p (n + 2 ^ 20) lk rw' ww wr wm d (ftok_rs (2 ^ 20 + 1) p' d' ⋅ f).
Proof.
  intros H. frame f; acc H; close; (split_and!; [done|done|lia|lia|acc_intro]).
  all: exists (2 ^ 20 + 1 + j); split_and!; [lia|apply (shares_op (2 ^ 20 + 1) j (p, d)); lia|lia].
Qed.

(** The lock is passed on. *)
Lemma account_passing p n lk rw ww wr wm d k a b f :
  account p n lk rw ww wr wm d (ftok_pass k a b ⋅ f) →
  lk = k ∧ n = 0 ∧ wm = 0 ∧ (a = true → rw = true) ∧ (b = true → ww = true) ∧ (k || a || b) = true.
Proof. intros H. frame f; acc H; close. Qed.

Lemma account_passing_set p n lk rw ww wr wm d k a b f rw' ww' k' a' b' :
  (a' = true → rw' = true) → (b' = true → ww' = true) → (k' || a' || b') = true →
  account p n lk rw ww wr wm d (ftok_pass k a b ⋅ f) →
  account p 0 k' rw' ww' wr wm d (ftok_pass k' a' b' ⋅ f).
Proof. intros Ha Hb Hk H. frame f; acc H; close; acc_intro. Qed.

Lemma account_passing_release p n lk rw ww wr wm d k a b f rw' ww' :
  account p n lk rw ww wr wm d (ftok_pass k a b ⋅ f) → account p 0 false rw' ww' wr wm d f.
Proof. intros H. frame f; acc H; close; acc_intro. Qed.

Lemma account_hand_over p n lk rw ww wr wm d a b f :
  account p n lk rw ww wr wm d (ftok_pass true a b ⋅ f) → account p n lk rw ww wr (wm + 1) d f.
Proof. intros H. frame f; acc H; close; acc_intro. Qed.

Lemma account_take_writer p n lk rw ww wr wm d f :
  1 <= wm → account p n lk rw ww wr wm d f →
  account p n lk rw ww wr (wm - 1) d (ftok_w p d ⋅ f) ∧ R c p d.
Proof. intros Hm H. frame f; acc H; close; split; try done; acc_intro. Qed.

Lemma account_pass_readers p n lk rw ww wr wm d k a b f rw' ww' :
  account p n lk rw ww wr wm d (ftok_pass k a b ⋅ f) →
  account p (2 ^ 20 + 1) false rw' ww' wr wm d (ftok_rs (2 ^ 20 + 1) p d ⋅ f).
Proof.
  intros H. frame f; acc H; close; acc_intro.
  assert (j = 0) as -> by lia. exists (2 ^ 20 + 1). split_and!; [lia|done|lia].
Qed.

(** The last reader passes the lock on when there are waiters. *)
Lemma account_last_reader p k lk rw ww wr wm d p' d' f :
  0 < k → lk = false → account p k lk rw ww wr wm d (ftok_rs k p' d' ⋅ f) →
  account p 0 false rw ww wr wm d
    ((if rw || ww then ftok_pass false rw ww else pcm_unit) ⋅ f).
Proof.
  intros Hk Hlk H. destruct (rw || ww) eqn:E; frame f; acc H; shares_inv; close; acc_intro.
Qed.

Lemma account_data p n lk rw ww wr wm d p' d' e f :
  account p n lk rw ww wr wm d (ftok_w p' d' ⋅ f) →
  account p n lk rw ww wr wm e (ftok_w p' e ⋅ f).
Proof. intros H. frame f; acc H; close; acc_intro. Qed.
End account.
