(* ===== verification/FutexRules.v ===== *)
(** * The invariant of the futex locker and the rules for its operations

    [finv] ties the lock word, the queue of the system and the owners together;
    the rules say, for each operation of the locker, how an [ok] thread goes on
    from the fields of the word that it found. *)

From stdpp Require Import base list option numbers gmap gmultiset.
From S2P Require Import Prelude Word Phase Atomics Locker Tokens Futex FutexLocker FutexInv.
Open Scope Z_scope.

(** ** The threads of the queue that are woken *)

Section queue.
Context (l : loc).

Definition woken_count (bits : u32) (q : queue_of) : Z :=
  Z.of_nat (size (filter (λ tk, tk.2 = Parked l bits true) q)).

Definition is_woken (bits : u32) (k : parked) : Z :=
  if decide (k = Parked l bits true) then 1 else 0.

Lemma woken_count_pos bits q : 0 <= woken_count bits q.
Proof. unfold woken_count. lia. Qed.

Lemma woken_insert bits t k q :
  q !! t = None → woken_count bits (<[t := k]> q) = woken_count bits q + is_woken bits k.
Proof.
  intros Hq. unfold woken_count, is_woken. case_decide as Hk.
  - rewrite map_filter_insert_True by done. rewrite map_size_insert_None; [lia|].
    apply map_lookup_filter_None. by left.
  - rewrite map_filter_insert_False by done. rewrite delete_id by done. lia.
Qed.

Lemma woken_delete bits t k q :
  q !! t = Some k → woken_count bits (delete t q) = woken_count bits q - is_woken bits k.
Proof.
  intros Hq. rewrite <- (insert_delete_id q t k) at 2 by done.
  rewrite woken_insert by apply lookup_delete_eq. lia.
Qed.

Lemma woken_alter bits bits' t q :
  q !! t = Some (Parked l bits' false) →
  woken_count bits (alter set_woken t q) = woken_count bits q + if decide (bits' = bits) then 1 else 0.
Proof.
  intros Hq.
  assert (alter set_woken t q = <[t := Parked l bits' true]> (delete t q)) as ->.
  { apply map_eq. intros t'. destruct (decide (t = t')) as [<-|].
    - by rewrite lookup_alter_eq, Hq, lookup_insert_eq.
    - by rewrite lookup_alter_ne, lookup_insert_ne, lookup_delete_ne by done. }
  rewrite woken_insert by apply lookup_delete_eq. rewrite (woken_delete _ _ _ _ Hq).
  unfold is_woken. repeat case_decide; naive_solver lia.
Qed.

Lemma set_all_lookup ts q t :
  set_all_woken ts q !! t = q !! t ∨ set_all_woken ts q !! t = set_woken <$> q !! t.
Proof.
  induction ts as [|t' ts IH]; simpl; [by left|].
  destruct (decide (t' = t)) as [->|]; [|by rewrite lookup_alter_ne].
  rewrite lookup_alter_eq. right. destruct IH as [-> | ->]; [done|]. by destruct (q !! t).
Qed.

Lemma set_all_lookup_ne ts q t : t ∉ ts → set_all_woken ts q !! t = q !! t.
Proof.
  induction ts as [|t' ts IH]; simpl; [done|]. rewrite not_elem_of_cons. intros [??].
  rewrite lookup_alter_ne by done. auto.
Qed.

Lemma woken_set_all bits bits' ts q :
  NoDup ts → Forall (λ t, q !! t = Some (Parked l bits' false)) ts →
  woken_count bits (set_all_woken ts q) =
    woken_count bits q + if decide (bits' = bits) then Z.of_nat (length ts) else 0.
Proof.
  induction 1 as [|t ts Ht Hts IH]; intros Hall; simpl; [case_decide; lia|].
  inversion Hall; subst.
  rewrite (woken_alter _ bits') by (by rewrite set_all_lookup_ne).
  rewrite IH by done. case_decide; lia.
Qed.

(** ** Tickets *)

Definition tickets_ok (q : queue_of) (T : gmultiset (positive * u32)) : Prop :=
  ∀ t b, (multiplicity (t, b) T <= 1)%nat ∧ ((t, b) ∈ T → ∃ w, q !! t = Some (Parked l b w)).

Lemma tickets_ok_insert q T t b :
  q !! t = None → tickets_ok q T → tickets_ok (<[t := Parked l b false]> q) ({[+ (t, b) +]} ⊎ T).
Proof.
  intros Hq H. assert (∀ b', (t, b') ∉ T) as Hnew.
  { intros b' Hb'. destruct (proj2 (H t b') Hb') as [w Hw]. congruence. }
  intros t' b'. rewrite multiplicity_disj_union, gmultiset_elem_of_disj_union, gmultiset_elem_of_singleton.
  destruct (decide ((t', b') = (t, b))) as [[= -> ->]|Hne].
  - rewrite multiplicity_singleton_eq. specialize (Hnew b). rewrite elem_of_multiplicity in Hnew.
    split; [lia|]. intros _. exists false. by rewrite lookup_insert_eq.
  - rewrite multiplicity_singleton_ne by done. destruct (H t' b') as [Hm Hw].
    split; [lia|]. intros [Heq|Hin]; [done|]. destruct (Hw Hin) as [w Hw'].
    exists w. rewrite lookup_insert_ne; [done|]. intros ->. congruence.
Qed.

Lemma tickets_ok_delete q T t b :
  tickets_ok q ({[+ (t, b) +]} ⊎ T) → tickets_ok (delete t q) T.
Proof.
  intros H.
  assert (∃ w, q !! t = Some (Parked l b w)) as [w Hw].
  { apply (H t b). rewrite gmultiset_elem_of_disj_union, gmultiset_elem_of_singleton. by left. }
  intros t' b'. destruct (H t' b') as [Hm Hq].
  rewrite multiplicity_disj_union in Hm. rewrite gmultiset_elem_of_disj_union in Hq.
  split; [lia|]. intros Hin. destruct (Hq (or_intror Hin)) as [w' Hw'].
  destruct (decide (t = t')) as [->|]; [|exists w'; by rewrite lookup_delete_ne].
  rewrite Hw in Hw'. simplify_eq. rewrite multiplicity_singleton_eq in Hm.
  rewrite elem_of_multiplicity in Hin. lia.
Qed.

Lemma tickets_ok_set_all ts q T : tickets_ok q T → tickets_ok (set_all_woken ts q) T.
Proof.
  intros H t b. destruct (H t b) as [Hm Hq]. split; [done|]. intros Hin.
  destruct (Hq Hin) as [w Hw].
  destruct (set_all_lookup ts q t) as [-> | ->]; rewrite Hw; simpl; eauto.
Qed.
End queue.

(** ** The invariant *)

(** The cells of the locker are cells of the process, and are distinct. *)
Record futex_cells {KN : Kernel} (fx : Futex) : Prop := {
  fc_futex : user_cell (fx_futex fx);
  fc_writer_count : user_cell (fx_writer_count fx);
  fc_fairness : user_cell (fx_fairness fx);
  fc_ne_count : fx_writer_count fx ≠ fx_futex fx;
  fc_ne_fairness : fx_fairness fx ≠ fx_futex fx;
}.

Section rules.
Context {KN : Kernel} {U D : Type} `{!EqDecision D} (c : contract U D) (fx : Futex).
Context (Hfx : futex_cells fx).

Abbreviation l := (fx_futex fx).
Abbreviation acct p n lk rw ww s g :=
  (account c p n lk rw ww (woken_count l READER_BIT (queue (mem s)))
     (woken_count l WRITER_BIT (queue (mem s))) (view c (usr s)) g).

Definition finv (s : state U) (g : ftokens D) : Prop :=
  ∃ p n lk rw ww,
    rd s l = word p n lk rw ww ∧ phase_range p ∧ K c p (usr s) ∧
    acct p n lk rw ww s g ∧ tickets_ok l (queue (mem s)) (tickets g).

#[local] Arguments ok : simpl never.

Lemma tickets_op (g g' f : ftokens D) : tickets g' = tickets g → tickets (g' ⋅ f) = tickets (g ⋅ f).
Proof using. unfold tickets. simpl. by intros ->. Qed.

Lemma finv_wr s g v p n lk rw ww :
  v = word p n lk rw ww → phase_range p → K c p (usr s) → acct p n lk rw ww s g →
  tickets_ok l (queue (mem s)) (tickets g) → finv (wr s l v) g.
Proof using Hfx.
  intros -> Hp HK Ha Ht. exists p, n, lk, rw, ww. rewrite rd_wr. simpl.
  by rewrite (queue_insert _ _ _ (fc_futex _ Hfx)).
Qed.

Lemma finv_same s p n lk rw ww g g' f :
  rd s l = word p n lk rw ww → phase_range p → K c p (usr s) → acct p n lk rw ww s (g' ⋅ f) →
  tickets g' = tickets g → tickets_ok l (queue (mem s)) (tickets (g ⋅ f)) → finv s (g' ⋅ f).
Proof using.
  intros Hrd Hp HK Ha Htk Ht. rewrite <- (tickets_op _ _ _ Htk) in Ht.
  by exists p, n, lk, rw, ww.
Qed.

(** What a thread that owns [g] may know of the word: [at_word g P] when [P]
    holds of the fields in every state with the invariant, for any frame. *)
Definition at_word (g : ftokens D)
    (P : Phase → Z → bool → bool → bool → Z → Z → D → ftokens D → Prop) : Prop :=
  ∀ p n lk rw ww wr wm d f,
    phase_range p → count_range n → account c p n lk rw ww wr wm d (g ⋅ f) →
    P p n lk rw ww wr wm d f.

(** The word may become [v], with [g'] owned by the thread that owned [g]. *)
Definition becomes (v : u32) (p : Phase) (d : D) (wr wm : Z) (g g' f : ftokens D) : Prop :=
  ∃ p' n' lk' rw' ww', v = word p' n' lk' rw' ww' ∧ phase_range p' ∧
    (∀ u, view c u = d → K c p u → K c p' u) ∧ tickets g' = tickets g ∧
    account c p' n' lk' rw' ww' wr wm d (g' ⋅ f).

Lemma becomes_finv s p n lk rw ww v g g' f :
  K c p (usr s) → acct p n lk rw ww s (g ⋅ f) → tickets_ok l (queue (mem s)) (tickets (g ⋅ f)) →
  becomes v p (view c (usr s)) (woken_count l READER_BIT (queue (mem s)))
    (woken_count l WRITER_BIT (queue (mem s))) g g' f →
  finv (wr s l v) (g' ⋅ f).
Proof using Hfx.
  intros HK Ha Ht (p' & n' & lk' & rw' & ww' & -> & Hp' & HK' & Htk & Ha').
  eapply finv_wr; eauto. by rewrite (tickets_op g).
Qed.

(** ** Rules *)

(** A load, with what the thread owns kept or changed for a share that fits the
    same word. *)
Lemma load_rule {A} (k : Z → prog U A) g Q Qp :
  at_word g (λ p n lk rw ww wr wm d f, ∃ g', tickets g' = tickets g ∧
    account c p n lk rw ww wr wm d (g' ⋅ f) ∧ ok finv (k (word p n lk rw ww)) g' Q Qp) →
  ok finv (Vis (Load l) k) g Q Qp.
Proof using.
  intros H. apply ok_det; [done|]. intros f s (p & n & lk & rw & ww & Hrd & Hp & HK & Ha & Ht).
  cbn [op_run]. destruct (H _ _ _ _ _ _ _ _ _ Hp (acc_range _ _ _ _ _ _ _ _ _ _ Ha) Ha) as (g' & Htk & Ha' & Hok).
  exists g'. rewrite Hrd. split; [by eapply finv_same|done].
Qed.

(** A read-modify-write of the word. *)
Lemma rmw_rule {A} (o : op U Z) (F : Z → Z) (k : Z → prog U A) g Q Qp :
  (∀ s, op_run o s = rmw F l s) → (∀ s, op_spurious o s = None) →
  at_word g (λ p n lk rw ww wr wm d f, ∃ g', becomes (F (word p n lk rw ww)) p d wr wm g g' f ∧
    ok finv (k (word p n lk rw ww)) g' Q Qp) →
  ok finv (Vis o k) g Q Qp.
Proof using Hfx.
  intros Hrun Hsp H. apply ok_det; [done|].
  intros f s (p & n & lk & rw & ww & Hrd & Hp & HK & Ha & Ht). rewrite Hrun. unfold rmw. rewrite Hrd.
  destruct (H _ _ _ _ _ _ _ _ _ Hp (acc_range _ _ _ _ _ _ _ _ _ _ Ha) Ha) as (g' & Hb & Hok).
  exists g'. split; [by eapply becomes_finv|done].
Qed.

(** A compare-exchange. *)
Lemma cas_rule {A} weak cur new (k : result Z Z → prog U A) g Q Qp :
  at_word g (λ p n lk rw ww wr wm d f, cur = word p n lk rw ww →
    ∃ g', becomes new p d wr wm g g' f ∧ ok finv (k (Ok cur)) g' Q Qp) →
  at_word g (λ p n lk rw ww wr wm d f, weak = true ∨ word p n lk rw ww ≠ cur →
    ∃ g', tickets g' = tickets g ∧ account c p n lk rw ww wr wm d (g' ⋅ f) ∧
          ok finv (k (Err (word p n lk rw ww))) g' Q Qp) →
  ok finv (Vis (CompareExchange weak l cur new) k) g Q Qp.
Proof using Hfx.
  intros Hyes Hno. apply ok_cas; intros f s (p & n & lk & rw & ww & Hrd & Hp & HK & Ha & Ht) Hcur;
    pose proof (acc_range _ _ _ _ _ _ _ _ _ _ Ha) as Hn; rewrite Hrd in *.
  - destruct (Hyes _ _ _ _ _ _ _ _ _ Hp Hn Ha (eq_sym Hcur)) as (g' & Hb & Hok).
    exists g'. split; [by eapply becomes_finv|done].
  - destruct (Hno _ _ _ _ _ _ _ _ _ Hp Hn Ha Hcur) as (g' & Htk & Ha' & Hok).
    exists g'. split; [by eapply finv_same|done].
Qed.

(** An operation on another cell. *)
Lemma other_cell_rule {A T} (o : op U T) (k : T → prog U A) g Q Qp :
  (∀ s, op_spurious o s = None) →
  (∀ s, let '(x, s') := op_run o s in
    usr s' = usr s ∧ rd s' l = rd s l ∧ queue (mem s') = queue (mem s)) →
  (∀ x, ok finv (k x) g Q Qp) →
  ok finv (Vis o k) g Q Qp.
Proof using.
  intros Hsp Hrun Hk. apply ok_det; [done|]. intros f s Hinv. specialize (Hrun s).
  destruct (op_run o s) as [x s']. destruct Hrun as (Hu & Hrd & Hq). exists g. split; [|done].
  destruct Hinv as (p & n & lk & rw & ww & ? & ? & ? & ? & ?).
  exists p, n, lk, rw, ww. by rewrite Hu, Hrd, Hq.
Qed.

Lemma other_rmw_rule {A} (o : op U Z) l' (F : Z → Z) (k : Z → prog U A) g Q Qp :
  (∀ s, op_run o s = rmw F l' s) → (∀ s, op_spurious o s = None) → user_cell l' → l' ≠ l →
  (∀ x, ok finv (k x) g Q Qp) →
  ok finv (Vis o k) g Q Qp.
Proof using.
  intros Hrun Hsp Hl Hne. apply other_cell_rule; [done|]. intros s. rewrite Hrun. simpl.
  by rewrite rd_wr_ne, (queue_insert _ _ _ Hl).
Qed.

(** ** Calls of the system *)

Lemma account_ticket p n lk rw ww wr wm d t b g :
  account c p n lk rw ww wr wm d (ftok_ticket t b ⋅ g) ↔ account c p n lk rw ww wr wm d g.
Proof using. split; intros []; by split. Qed.

Lemma tickets_ticket (t : positive) (b : u32) (g f : ftokens D) :
  tickets (ftok_ticket t b ⋅ g ⋅ f) = {[+ (t, b) +]} ⊎ tickets (g ⋅ f).
Proof using. unfold tickets, ftok_ticket. simpl. by rewrite (assoc_L (⊎)). Qed.

Lemma finv_sys s m g p n lk rw ww :
  (∀ l', user_cell l' → m !! l' = mem s !! l') →
  rd s l = word p n lk rw ww → phase_range p → K c p (usr s) →
  acct p n lk rw ww (State m (usr s)) g → tickets_ok l (queue m) (tickets g) →
  finv (State m (usr s)) g.
Proof using Hfx.
  intros Hm Hrd Hp HK Ha Ht. exists p, n, lk, rw, ww. split_and!; try done.
  unfold rd in *. simpl. by rewrite Hm by apply Hfx.
Qed.

Lemma sys_wait_rule {A} v b (k : option positive → prog U A) g Q Qp :
  (∀ t, ok finv (k (Some t)) (ftok_ticket t b ⋅ g) Q Qp) → ok finv (k None) g Q Qp →
  ok finv (Vis (Sys (sys_wait l v b)) k) g Q Qp.
Proof using Hfx.
  intros Hsome Hnone. apply ok_det; [done|].
  intros f s (p & n & lk & rw & ww & Hrd & Hp & HK & Ha & Ht). cbn [op_run].
  pose proof (sys_wait_law l v b (mem s)) as Hlaw.
  destruct (sys_wait l v b (mem s)) as [[t|] m]; destruct Hlaw as [Hm Hq].
  - destruct Hq as [Ht0 Hq]. exists (ftok_ticket t b ⋅ g). split; [|done].
    eapply finv_sys; eauto; cbn [mem usr]; rewrite Hq.
    + rewrite !woken_insert by done. unfold is_woken. rewrite !decide_False by done.
      rewrite !Z.add_0_r. rewrite <- (assoc_L pcm_op). by apply account_ticket.
    + rewrite tickets_ticket. by apply tickets_ok_insert.
  - exists g. split; [|done]. eapply finv_sys; eauto; cbn [mem usr]; by rewrite Hq.
Qed.

(** A thread that was woken as a reader has a share, as a writer the lock. *)
Definition handed (b : u32) (p : Phase) (d : D) : ftokens D :=
  if decide (b = READER_BIT) then ftok_r p d else ftok_w p d.

Lemma account_handed p n lk rw ww q t b d g :
  b = READER_BIT ∨ b = WRITER_BIT → q !! t = Some (Parked l b true) →
  account c p n lk rw ww (woken_count l READER_BIT q) (woken_count l WRITER_BIT q) d g →
  account c p n lk rw ww (woken_count l READER_BIT (delete t q)) (woken_count l WRITER_BIT (delete t q)) d
    (handed b p d ⋅ g) ∧ R c p d.
Proof using.
  intros Hb Ht Ha. rewrite (woken_delete _ READER_BIT _ _ _ Ht), (woken_delete _ WRITER_BIT _ _ _ Ht). unfold is_woken, handed.
  pose proof (woken_count_pos l READER_BIT (delete t q)) as Hr.
  pose proof (woken_count_pos l WRITER_BIT (delete t q)) as Hw.
  rewrite (woken_delete _ _ _ _ _ Ht) in Hr. rewrite (woken_delete _ _ _ _ _ Ht) in Hw.
  unfold is_woken in Hr, Hw.
  destruct Hb as [-> | ->]; repeat case_decide; simplify_eq; rewrite ?Z.sub_0_r.
  - apply account_take_reader; [lia|done].
  - apply account_take_writer; [lia|done].
Qed.

Lemma sys_return_rule {A} t b (k : option bool → prog U A) g Q Qp :
  b = READER_BIT ∨ b = WRITER_BIT →
  ok finv (k None) (ftok_ticket t b ⋅ g) Q Qp → ok finv (k (Some false)) g Q Qp →
  (∀ p d, phase_range p → R c p d → ok finv (k (Some true)) (handed b p d ⋅ g) Q Qp) →
  ok finv (Vis (Sys (sys_return t)) k) (ftok_ticket t b ⋅ g) Q Qp.
Proof using Hfx.
  intros Hb Hnone Hfalse Htrue. apply ok_det; [done|].
  intros f s (p & n & lk & rw & ww & Hrd & Hp & HK & Ha & Ht). cbn [op_run].
  pose proof (sys_return_law t (mem s)) as Hlaw.
  destruct (sys_return t (mem s)) as [[w|] m]; destruct Hlaw as [Hm Hq].
  2: { exists (ftok_ticket t b ⋅ g). split; [|done]. eapply finv_sys; eauto; cbn [mem usr]; by rewrite Hq. }
  rewrite tickets_ticket in Ht. destruct Hq as [Hq Hw].
  assert (∃ w', queue (mem s) !! t = Some (Parked l b w')) as [w' Ht'].
  { apply (Ht t b). rewrite gmultiset_elem_of_disj_union, gmultiset_elem_of_singleton. by left. }
  specialize (Hw _ Ht'). simpl in Hw. subst w'.
  apply tickets_ok_delete in Ht. rewrite <- Hq in Ht.
  rewrite <- (assoc_L pcm_op), account_ticket in Ha.
  destruct w.
  - destruct (account_handed _ _ _ _ _ _ _ _ _ _ Hb Ht' Ha) as [Ha' HR].
    exists (handed b p (view c (usr s)) ⋅ g). split; [|by apply Htrue].
    eapply finv_sys; eauto; cbn [mem usr]; [by rewrite Hq, <- (assoc_L pcm_op)|].
    rewrite <- (assoc_L pcm_op), (tickets_op pcm_unit), (left_id_L pcm_unit pcm_op); [done|].
    unfold handed. by case_decide.
  - exists g. split; [|done]. eapply finv_sys; eauto; cbn [mem usr]. rewrite Hq, !(woken_delete _ _ _ _ _ Ht').
    unfold is_woken. rewrite !decide_False by done. by rewrite !Z.sub_0_r.
Qed.

Lemma sys_wake_readers_rule {A} m (k : Z → prog U A) i p d Q Qp :
  0 <= m < i →
  (∀ x, 0 <= x <= m → ok finv (k x) (ftok_rs (i - x) p d) Q Qp) →
  ok finv (Vis (Sys (sys_wake l m READER_BIT)) k) (ftok_rs i p d) Q Qp.
Proof using Hfx.
  intros Hm Hk. apply ok_det; [done|].
  intros f s (p' & n & lk & rw & ww & Hrd & Hp & HK & Ha & Ht). cbn [op_run].
  pose proof (sys_wake_law l m READER_BIT (mem s)) as Hlaw.
  destruct (sys_wake l m READER_BIT (mem s)) as [x m'].
  destruct Hlaw as (Hm' & ts & Hnd & Hx & Hle & Hall & Hq).
  exists (ftok_rs (i - x) p d). split; [|apply Hk; lia].
  eapply finv_sys; eauto; cbn [mem usr]; rewrite Hq; [|by apply tickets_ok_set_all].
  rewrite !(woken_set_all _ _ _ _ _ Hnd Hall), (decide_True (P := READER_BIT = READER_BIT)),
    (decide_False (P := READER_BIT = WRITER_BIT)), Z.add_0_r by done.
  rewrite <- Hx. eapply account_shares; [lia|lia|done].
Qed.

Lemma sys_wake_writer_rule {A} (k : Z → prog U A) a b Q Qp :
  ok finv (k 0) (ftok_pass true a b) Q Qp → ok finv (k 1) pcm_unit Q Qp →
  ok finv (Vis (Sys (sys_wake l 1 WRITER_BIT)) k) (ftok_pass true a b) Q Qp.
Proof using Hfx.
  intros H0 H1. apply ok_det; [done|].
  intros f s (p & n & lk & rw & ww & Hrd & Hp & HK & Ha & Ht). cbn [op_run].
  pose proof (sys_wake_law l 1 WRITER_BIT (mem s)) as Hlaw.
  destruct (sys_wake l 1 WRITER_BIT (mem s)) as [x m'].
  destruct Hlaw as (Hm' & ts & Hnd & Hx & Hle & Hall & Hq).
  apply (tickets_ok_set_all l ts) in Ht. rewrite <- Hq in Ht.
  assert (x = 0 ∨ x = 1) as [-> | ->] by lia.
  - exists (ftok_pass true a b). split; [|done].
    destruct ts; [|simpl in Hx; lia]. eapply finv_sys; eauto; cbn [mem usr]. by rewrite Hq.
  - exists pcm_unit. split; [|done]. rewrite (left_id_L pcm_unit pcm_op).
    rewrite (tickets_op pcm_unit (ftok_pass true a b)), (left_id_L pcm_unit pcm_op) in Ht by done.
    eapply finv_sys; eauto; cbn [mem usr].
    rewrite Hq, !(woken_set_all _ _ _ _ _ Hnd Hall), (decide_True (P := WRITER_BIT = WRITER_BIT)),
      (decide_False (P := WRITER_BIT = READER_BIT)), Z.add_0_r by done.
    rewrite <- Hx. by eapply account_hand_over.
Qed.

(** ** Accesses to the protected data *)

(** A step of the user state that leaves the view as it is. *)
Lemma view_step s g (h : U → U) :
  (∀ u, view c (h u) = view c u) → finv s g →
  (∀ p n lk rw ww, phase_range p → acct p n lk rw ww s g → K c p (usr s) → K c p (h (usr s))) →
  finv (upd s (h (usr s))) g.
Proof using.
  intros Hv (p & n & lk & rw & ww & Hrd & Hp & HK & Ha & Ht) HhK.
  exists p, n, lk, rw, ww. rewrite rd_upd. cbn [mem usr upd]. rewrite Hv.
  split_and!; try done. by eapply HhK.
Qed.

Lemma fx_write_ok {T} (h : U → T * U) p d :
  (∀ u, view c u = d → K c p u → K c p (h u).2) →
  ok finv (do_op (Usr h)) (ftok_w p d)
    (λ x o, ∃ u, view c u = d ∧ K c p u ∧ x = (h u).1 ∧ o = ftok_w p (view c (h u).2)) (λ _, False).
Proof using.
  intros HK. apply ok_op; [done|].
  intros f s (p' & n & lk & rw & ww & Hrd & Hp & HKp & Ha & Ht). cbn [op_run].
  destruct (account_writer _ _ _ _ _ _ _ _ _ _ _ _ Ha) as (-> & -> & _).
  specialize (HK (usr s) eq_refl HKp). destruct (h (usr s)) as [y u] eqn:E. simpl in HK.
  exists (ftok_w p' (view c u)). split; [|by exists (usr s); rewrite E].
  exists p', n, lk, rw, ww. rewrite rd_upd. cbn [mem usr upd].
  by apply (account_data _ _ _ _ _ _ _ _ _ _ _ (view c u)) in Ha.
Qed.

Lemma fx_read_ok {T} (h : U → T * U) p d :
  (∀ u, view c (h u).2 = view c u) →
  (∀ u, view c u = d → K c p u → K c p (h u).2) →
  ok finv (do_op (Usr h)) (ftok_r p d)
    (λ x o, ∃ u, view c u = d ∧ K c p u ∧ x = (h u).1 ∧ o = ftok_r p d) (λ _, False).
Proof using.
  intros Hv HK. apply ok_op; [done|]. intros f s Hinv. cbn [op_run].
  pose proof Hinv as (p' & n & lk & rw & ww & _ & _ & HKp & Ha & _).
  destruct (account_reader _ _ _ _ _ _ _ _ _ _ _ _ _ (Z.lt_0_1) Ha) as (-> & -> & _).
  pose proof (view_step s _ (λ u, (h u).2) Hv Hinv) as Hstep. cbv beta in Hstep.
  destruct (h (usr s)) as [y u] eqn:E. exists (ftok_r p' (view c (usr s))).
  split; [|by exists (usr s); rewrite E]. apply Hstep.
  intros p n' lk' rw' ww' _ Ha' HKp'.
  destruct (account_reader _ _ _ _ _ _ _ _ _ _ _ _ _ (Z.lt_0_1) Ha') as (-> & _ & _).
  specialize (HK (usr s) eq_refl HKp). by rewrite E in HK.
Qed.

Lemma fx_step_ok {T} (h : U → T * U) :
  (∀ u, view c (h u).2 = view c u) →
  (∀ p u, K c p u → K c p (h u).2) →
  ok finv (do_op (Usr h)) pcm_unit
    (λ x o, ∃ u p, K c p u ∧ x = (h u).1 ∧ o = pcm_unit) (λ _, False).
Proof using.
  intros Hv HK. apply ok_op; [done|]. intros f s Hinv. cbn [op_run].
  pose proof Hinv as (p & n & lk & rw & ww & _ & _ & HKp & _ & _).
  pose proof (view_step s _ (λ u, (h u).2) Hv Hinv) as Hstep. cbv beta in Hstep.
  assert (∀ p, K c p (usr s) → K c p (h (usr s)).2) as HKs by eauto.
  destruct (h (usr s)) as [y u] eqn:E. exists pcm_unit.
  split; [|by exists (usr s), p; rewrite E]. apply Hstep. eauto.
Qed.

Lemma fx_pub_ok {T} (h : U → T * U) :
  (∀ u, view c (h u).2 = view c u) →
  (∀ p u, pub c p = true → K c p u → K c p (h u).2) →
  ok finv (do_op (Usr h)) ftok_pub
    (λ x o, ∃ u p, pub c p = true ∧ K c p u ∧ x = (h u).1 ∧ o = ftok_pub) (λ _, False).
Proof using.
  intros Hv HK. apply ok_op; [done|]. intros f s Hinv. cbn [op_run].
  pose proof Hinv as (p' & n & lk & rw & ww & _ & _ & HKp & Ha & _).
  pose proof (acc_pub _ _ _ _ _ _ _ _ _ _ Ha eq_refl) as Hpub.
  pose proof (view_step s _ (λ u, (h u).2) Hv Hinv) as Hstep. cbv beta in Hstep.
  assert (∀ p, pub c p = true → K c p (usr s) → K c p (h (usr s)).2) as HKs by eauto.
  destruct (h (usr s)) as [y u] eqn:E. exists ftok_pub.
  split; [|by exists (usr s), p'; rewrite E]. apply Hstep.
  intros p n' lk' rw' ww' _ Ha'. apply HKs.
  exact (acc_pub _ _ _ _ _ _ _ _ _ _ Ha' eq_refl).
Qed.

Lemma fx_observe_ok {T} (h : U → T * U) (learns : T → bool) :
  (∀ u, (h u).2 = u) →
  (∀ p u, K c p u → learns (h u).1 = true → pub c p = true) →
  ok finv (do_op (Usr h)) pcm_unit (λ x o, o = ftok_if (learns x)) (λ _, False).
Proof using.
  intros Hu Hl. apply ok_op; [done|]. intros f s Hinv. cbn [op_run].
  rewrite (left_id_L pcm_unit pcm_op) in Hinv.
  destruct Hinv as (p & n & lk & rw & ww & Hrd & Hp & HK & Ha & Ht).
  pose proof (Hu (usr s)) as Hus. pose proof (Hl p _ HK) as Hpub.
  destruct (h (usr s)) as [y u] eqn:E. simpl in Hus, Hpub. subst u.
  exists (ftok_if (learns y)). split; [|done].
  replace (upd s (usr s)) with s by (by destruct s).
  apply (finv_same s p n lk rw ww pcm_unit); [done|done|done| |by destruct (learns y)|by rewrite (left_id_L pcm_unit pcm_op)].
  destruct (learns y); [|unfold ftok_if; by rewrite (left_id_L pcm_unit pcm_op)].
  rewrite <- (Hpub eq_refl). by apply account_observe.
Qed.

Lemma fx_inv_K s g : finv s g → ∃ p, phase_range p ∧ K c p (usr s).
Proof using. intros (p & n & lk & rw & ww & _ & Hp & HK & _). by exists p. Qed.

(** A word that no thread has touched. *)
Lemma fx_inv_new p s :
  phase_range p → rd s l = new p → K c p (usr s) → R c p (view c (usr s)) →
  (∀ t k, queue (mem s) !! t = Some k → pk_addr k ≠ l) → finv s pcm_unit.
Proof using.
  intros Hp Hrd HK HR Hq. exists p, 0, false, false, false.
  assert (∀ b, woken_count l b (queue (mem s)) = 0) as Hw.
  { intros b. unfold woken_count. rewrite map_empty_filter_2; [done|].
    intros t k Hk Heq. simpl in Heq. subst. by apply (Hq t _ Hk). }
  rewrite Hrd, !Hw. split_and!; [apply phase_word|done|done| |].
  - split; simpl; [apply count_range_0|lia|done|auto|done|by exists 0].
  - change (tickets_ok l (queue (mem s)) ∅).
    intros t b. split; [rewrite multiplicity_empty; lia|]. intros H. by apply gmultiset_not_elem_of_empty in H.
Qed.
End rules.
