(* ===== verification/Seats.v ===== *)
(** * The count of waiting writers

    A futex counts its waiting writers in 32 bits (src/phase_locker/futex.rs). A
    thread waits in one place at a time, so that fewer than 2^32 threads make neither
    of the assertions on the count fail. [seated] is what that takes of a program,
    whichever its invariant: each of its steps leaves the count alone, or takes or
    gives back the one seat of its thread. *)

From stdpp Require Import base list option numbers gmap relations.
From S2P Require Import Prelude Word Phase Atomics SpinWait Locker Clients Futex FutexLocker FutexInv FutexRules.
Open Scope Z_scope.

(** What the results of a program contain: guards of the lock in question. *)
Class On (A : Type) := on : A → Prop.
#[export] Hint Mode On ! : typeclass_instances.
#[export] Instance on_any A : On A | 100 := λ _, True.
#[export] Instance on_option {A} `{!On A} : On (option A) := λ r, match r with Some a => on a | None => True end.
#[export] Instance on_result {A E} `{!On A, !On E} : On (result A E) := λ r, match r with Ok a => on a | Err e => on e end.
#[export] Instance on_prod {A B} `{!On A, !On B} : On (A * B) := λ r, on r.1 ∧ on r.2.
#[export] Instance on_list {A} `{!On A} : On (list A) := Forall on.
#[export] Instance on_lock_result {R W} `{!On R, !On W} : On (LockResult R W) :=
  λ r, match r with LRRead g => on g | LRWrite g => on g | LRNone _ => True end.

Section seated.
Context {U : Type} (wc : loc).

(** [seated e b p]: the thread has a seat if [b]; it has one if [e] when [p] returns. *)
Fixpoint seated {A} `{!On A} (e b : bool) (p : prog U A) : Prop :=
  match p with
  | Ret a => b = e ∧ on a
  | Panic => b = false
  | Undef | Diverge => True
  | Stops a => a = ReadersConverted
  | Vis o k => ∀ s x s', op_step o s x s' → 0 <= rd s wc - Z.b2z b < 2 ^ 32 - 1 →
      ∃ b', rd s' wc = rd s wc - Z.b2z b + Z.b2z b' ∧ seated e b' (k x)
  end.

Lemma seated_bind {A B} `{!On A, !On B} e e' b (p : prog U A) (k : A → prog U B) :
  seated e b p → (∀ a, on a → seated e' e (k a)) → seated e' b (p ≫= k).
Proof using.
  intros Hp Hk. revert b Hp. induction p as [a| | | | |T o k' IH]; simpl; intros b Hp; try done.
  - destruct Hp as [-> Ha]. by apply Hk.
  - intros s x s' Hs Hb. destruct (Hp s x s' Hs Hb) as (b' & ? & ?). exists b'. split; [done|]. by apply IH.
Qed.

Lemma seated_catch {A} `{!On A} b (p : prog U A) : seated false b p → seated false b (catch p).
Proof using.
  revert b. induction p as [a| | | | |T o k' IH]; simpl; intros b Hp; try done.
  intros s x s' Hs Hb. destruct (Hp s x s' Hs Hb) as (b' & ? & ?). exists b'. split; [done|]. by apply IH.
Qed.

(** Steps that leave the count alone. *)
Definition op_keeps {T} (o : op U T) : Prop :=
  match o with
  | Load _ | Usr _ => True
  | Store l _ | CompareExchange _ l _ _ | FetchXor l _ | FetchOr l _ | FetchAnd l _ | FetchAdd _ l _
  | FetchSub _ l _ | Local l _ => l ≠ wc
  | Sys f => ∀ m, (f m).2 !! wc = m !! wc
  end.

Lemma op_keeps_rd {T} (o : op U T) s x s' : op_keeps o → op_step o s x s' → rd s' wc = rd s wc.
Proof using.
  intros Ho [Hrun|[_ ->]]; [|done].
  destruct o; simpl in *; unfold rmw in *; simplify_eq/=; try done; repeat case_match; simplify_eq/=;
    try done; try (by apply rd_wr_ne). unfold rd. simpl.
  match goal with H : ?f _ = (_, _) |- _ => by rewrite <- (Ho (mem s)), H end.
Qed.

Lemma seated_op {A T} `{!On A} e b (o : op U T) (k : T → prog U A) :
  op_keeps o → (∀ x, seated e b (k x)) → seated e b (Vis o k).
Proof using.
  intros Ho Hk s x s' Hs _. exists b. rewrite (op_keeps_rd o s x s' Ho Hs). split; [lia|apply Hk].
Qed.
Lemma seated_do {T} `{!On T} e (o : op U T) : op_keeps o → (∀ x : T, on x) → seated e e (do_op o).
Proof using. intros Ho Hon. apply seated_op; [done|]. intros x. by split. Qed.

(** ** Pools of such threads *)

Fixpoint seats (bs : list bool) : Z := match bs with [] => 0 | b :: bs => Z.b2z b + seats bs end.

Lemma seats_bounds bs : 0 <= seats bs <= Z.of_nat (length bs).
Proof using. induction bs as [|[] bs IH]; simpl; lia. Qed.
Lemma seats_lookup bs i b : bs !! i = Some b → 0 <= seats bs - Z.b2z b <= Z.of_nat (length bs) - 1.
Proof using.
  revert i. induction bs as [|b' bs IH]; intros [|i] Hi; simplify_eq/=; [pose proof (seats_bounds bs); lia|].
  specialize (IH i Hi). destruct b'; simpl; lia.
Qed.
Lemma seats_insert bs i b b' : bs !! i = Some b → seats (<[i := b']> bs) = seats bs - Z.b2z b + Z.b2z b'.
Proof using.
  revert i. induction bs as [|b0 bs IH]; intros [|i] Hi; simplify_eq/=; [lia|]. rewrite (IH i Hi). lia.
Qed.

Definition seated_pool (ps : list (prog U unit)) (s : state U) : Prop :=
  Z.of_nat (length ps) < 2 ^ 32 ∧ ∃ bs, Forall2 (seated false) bs ps ∧ rd s wc = seats bs.

Lemma seated_step ps s ps' s' : seated_pool ps s → pool_step (ps, s) (ps', s') → seated_pool ps' s'.
Proof using.
  intros (Hlen & bs & Hps & Hrd) Hstep. inversion Hstep as [i T o k ? ? x ? Hi Ho]; simplify_eq.
  split; [by rewrite length_insert|].
  destruct (Forall2_lookup_r _ _ _ _ _ Hps Hi) as (b & Hb & Hseat).
  pose proof (seats_lookup _ _ _ Hb). pose proof (Forall2_length _ _ _ Hps).
  destruct (Hseat s x s' Ho ltac:(lia)) as (b' & Hrd' & Hk).
  exists (<[i := b']> bs). split; [by apply Forall2_insert|]. rewrite (seats_insert _ _ _ _ Hb). lia.
Qed.

(** Which assertions stop a thread of the pool. *)
Definition stops_at_conversions (ps : list (prog U unit)) : Prop := ∀ a, Stops a ∈ ps → a = ReadersConverted.

Lemma seated_reachable ps s ps' s' :
  Forall (seated false false) ps → Z.of_nat (length ps) < 2 ^ 32 → rd s wc = 0 →
  reachable ps s ps' s' → stops_at_conversions ps'.
Proof using.
  intros Hps Hlen Hrd Hreach.
  assert (seated_pool ps' s') as (_ & bs & Hall & _).
  { assert (seated_pool ps s) as Hinit.
    { split; [done|]. exists (replicate (length ps) false). split.
      - apply Forall2_same_length_lookup_2; [by rewrite length_replicate|].
        intros i b p [-> _]%lookup_replicate Hp. by eapply Forall_lookup_1 in Hps.
      - rewrite Hrd. clear. induction ps; simpl; lia. }
    clear Hps Hlen Hrd. unfold reachable in Hreach.
    remember (ps, s) as c eqn:Ec. remember (ps', s') as c' eqn:Ec'. revert ps s Ec Hinit.
    induction Hreach as [c|c [ps1 s1] c' Hstep _ IH]; intros ps s -> Hinit; [by simplify_eq|].
    eapply (IH Ec' ps1 s1 eq_refl), seated_step; done. }
  intros a [i Hi]%list_elem_of_lookup. destruct (Forall2_lookup_r _ _ _ _ _ Hall Hi) as (b & _ & Ha). exact Ha.
Qed.
Lemma seated_reachable_fmap {X} (f : X → prog U unit) xs s ps' s' :
  (∀ x, seated false false (f x)) → Z.of_nat (length xs) < 2 ^ 32 → rd s wc = 0 →
  reachable (f <$> xs) s ps' s' → stops_at_conversions ps'.
Proof using.
  intros Hf Hlen. apply seated_reachable; [by apply Forall_fmap, Forall_true|by rewrite length_fmap].
Qed.
End seated.

(** ** Lockers whose operations are seated *)

Class SeatedLocker {U L} (ops : PhaseLocker U L) (wc : loc) (l : L) := {
  sl_wg T :: On (WriteGuard T);
  sl_rg T :: On (ReadGuard T);
  sl_lock {T} (t : T) how wake hint : seated wc false false (pl_lock l t how wake hint);
  sl_try_lock {T} (t : T) how hint : seated wc false false (pl_try_lock l t how hint);
  sl_phase : seated wc false false (pl_phase l);
  sl_set_phase {T} (g : WriteGuard T) p : on g → on (wg_set_phase g p);
  sl_wg_map {T S} (g : WriteGuard T) (f : T → S) : on g → on (wg_map g f);
  sl_rg_map {T S} (g : ReadGuard T) (f : T → S) : on g → on (rg_map g f);
  sl_wg_drop {T} (g : WriteGuard T) : on g → seated wc false false (wg_drop g);
  sl_into_read {T} (g : WriteGuard T) : on g → seated wc false false (wg_into_read g);
  sl_rg_phase {T} (g : ReadGuard T) : on g → seated wc false false (rg_phase g);
  sl_rg_clone {T} (g : ReadGuard T) : on g → seated wc false false (rg_clone g);
  sl_rg_drop {T} (g : ReadGuard T) : on g → seated wc false false (rg_drop g);
}.

(** Takes a program apart to show that it is seated. *)
Create HintDb seated.
#[export] Hint Resolve sl_lock sl_try_lock sl_phase sl_set_phase sl_wg_map sl_rg_map sl_wg_drop sl_into_read
  sl_rg_phase sl_rg_clone sl_rg_drop : seated.

#[export] Hint Extern 2 (on _) => first [exact I|reflexivity] : seated.

(** Opens what is known of results, and what is to be shown of them. *)
Ltac on_hyp :=
  match goal with
  | H : on (_, _) |- _ => destruct H as [? ?]; cbn [fst snd] in *
  | H : on ?r |- _ => is_var r; match type of r with prod _ _ => destruct r end
  | H : on (Some ?x) |- _ => change (on x) in H
  | H : on (Ok ?x) |- _ => change (on x) in H
  | H : on (Err ?x) |- _ => change (on x) in H
  | H : on (LRRead ?x) |- _ => change (on x) in H
  | H : on (LRWrite ?x) |- _ => change (on x) in H
  end.
Ltac on_goal :=
  match goal with
  | |- on (_, _) => split; cbn [fst snd]
  | |- on (Some ?x) => change (on x)
  | |- on (Ok ?x) => change (on x)
  | |- on (Err ?x) => change (on x)
  | |- on None => exact I
  end.
Ltac on_tac :=
  repeat first [on_hyp | on_goal | solve [eauto with seated nocore]];
  repeat (progress simpl in * || destruct_and?); repeat split; eauto with seated nocore; try exact I.
Ltac destruct_inner x :=
  lazymatch x with
  | match ?y with _ => _ end => destruct_inner y
  | _ => destruct x
  end.
Ltac seated_step :=
  lazymatch goal with
  | |- seated _ _ _ (_ ≫= _) => apply (seated_bind _ false); [|intros ? ?]
  | |- seated _ _ _ (catch _) => apply seated_catch
  | |- seated _ _ _ (do_op _) => apply seated_do; [first [solve [eauto with seated nocore]|on_tac]|let y := fresh "y" in intros y; first [exact I|destruct y; exact I|on_tac]]
  | |- seated _ _ _ (match ?x with _ => _ end) => destruct_inner x; cbv beta iota
  | |- seated _ _ _ (let '(_, _) := ?x in _) => destruct x; cbv beta iota
  | |- seated _ _ _ (Ret _) => split; [done|on_tac]
  | |- seated _ _ _ Panic => exact eq_refl
  | |- seated _ _ _ Undef => exact I
  | |- seated _ _ _ Diverge => exact I
  | |- seated _ _ _ (let _ := _ in _) => cbv zeta
  | |- ∀ _, _ => intros ?; cbv beta
  end.
Ltac seated_tac := repeat first [solve [eauto 6 with seated nocore] | progress on_hyp | progress cbn [fst snd] | seated_step].

(** Lists of guards. *)
Section lists.
Context {A : Type} `{!On A}.
Implicit Types (xs : list A).

Lemma on_lookup xs i x : on xs → xs !! i = Some x → on x.
Proof using. intros Hxs Hi. by eapply Forall_lookup_1 in Hxs. Qed.
Lemma on_insert xs i x : on xs → on x → on (<[i := x]> xs).
Proof using. intros. by apply Forall_insert. Qed.
Lemma on_delete xs i : on xs → on (delete i xs).
Proof using. intros. by apply Forall_delete. Qed.
Lemma on_cons xs x : on x → on xs → on (x :: xs).
Proof using. by constructor. Qed.
Lemma on_nil : on ([] : list A).
Proof using. constructor. Qed.
End lists.
#[export] Hint Resolve on_insert on_delete on_cons on_nil : seated.

Lemma seated_assert {U} wc b : seated (U:=U) wc false false (assert_prog b).
Proof. destruct b; by repeat split. Qed.
#[export] Hint Resolve seated_assert : seated.

(** ** The clients of a locker *)

Section clients.
Context {U : Type} {CD : ClientData U} {L : Type} {ops : PhaseLocker U L} (wc : loc) (l : L).
Context {SL : SeatedLocker ops wc l} (may_panic : bool).

#[local] Instance on_held : On held := λ h, match h with HW g _ _ => on g | HR g _ _ => on g end.

Lemma run_cmd_seated c hs : on hs → seated wc false false (run_cmd may_panic l c hs).
Proof using SL.
  intros Hhs. destruct c as [how wake hint|how hint| |i x|i|i q|i|i|i]; cbn [run_cmd]; unfold acquired, get_data;
    try (destruct (hs !! i) as [[g q' y|g p y]|] eqn:E; [assert (on g) as Hg by exact (on_lookup _ _ _ Hhs E)..|]; clear E);
    seated_tac.
Qed.

Lemma client_seated script hs : on hs → seated wc false false (client may_panic l script hs).
Proof using SL.
  revert hs. induction script as [|c script IH]; intros hs Hhs; [by repeat split|].
  apply (seated_bind _ false); [by apply run_cmd_seated|]. intros hs' Hhs'. by apply IH.
Qed.
End clients.

(** ** The futex locker *)

Section futex.
Context {KN : Kernel} {BF : Bitflags} {U : Type} (fx : Futex).
(** Assertions other than the three named ones panic. *)
Context (Hfx : futex_cells fx) (Hfair : fx_fairness fx ≠ fx_writer_count fx).
Context (aborts : assertion → bool) (Ha : aborts Other = false) (linux : bool) (fuel : nat).
Abbreviation wc := (fx_writer_count fx).

#[local] Instance on_lock : On Lock := λ lk, lk_futex lk = fx.
#[local] Instance on_read_lock : On ReadLock := λ rl, rl_futex rl = fx.
#[local] Instance on_guard T : On (SyncPhaseGuard T) := λ g, lk_futex (sg_lock g) = fx.
#[local] Instance on_read_guard T : On (SyncReadPhaseGuard T) := λ g, rl_futex (sr_lock g) = fx.
#[local] Instance on_attempt : On attempt := λ a, match a with Done r => on r | _ => True end.

Abbreviation seatp := (seated (U:=U) wc false false).

Lemma seat_assert b : seatp (assert_at aborts Other b).
Proof using Ha. unfold assert_at. rewrite Ha. destruct b; by repeat split. Qed.
Lemma seat_converted b : seatp (assert_at aborts ReadersConverted b).
Proof using. unfold assert_at. destruct b; [by repeat split|]. destruct (aborts ReadersConverted); exact eq_refl. Qed.
#[local] Hint Resolve seat_assert seat_converted : seated.

Lemma keeps_futex l : l = fx_futex fx ∨ l = fx_fairness fx → l ≠ wc.
Proof using Hfx Hfair. intros [-> | ->]; [|done]. intros H. by destruct (fc_ne_count fx Hfx). Qed.
Lemma keeps_sys_wait v bits : op_keeps (U:=U) wc (Sys (sys_wait (fx_futex fx) v bits)).
Proof using Hfx.
  intros m. pose proof (sys_wait_law (fx_futex fx) v bits m) as H. destruct (sys_wait _ _ _ _) as [r m'].
  apply (proj1 H), Hfx.
Qed.
Lemma keeps_sys_return t : op_keeps (U:=U) wc (Sys (sys_return t)).
Proof using Hfx.
  intros m. pose proof (sys_return_law t m) as H. destruct (sys_return _ _) as [r m'].
  apply (proj1 H), Hfx.
Qed.
Lemma keeps_sys_wake n bits : op_keeps (U:=U) wc (Sys (sys_wake (fx_futex fx) n bits)).
Proof using Hfx.
  intros m. pose proof (sys_wake_law (fx_futex fx) n bits m) as H. destruct (sys_wake _ _ _ _) as [r m'].
  apply (proj1 H), Hfx.
Qed.
#[local] Hint Resolve keeps_sys_wait keeps_sys_return keeps_sys_wake : seated.
#[local] Hint Extern 1 (_ ≠ _) => solve [apply keeps_futex; auto] : seated.

Lemma seat_parked e n t : seated (U:=U) wc e e (parked_until n t).
Proof using Hfx Hfair.
  induction n as [|n IH]; [done|]. cbn [parked_until]. apply (seated_bind _ e).
  - apply seated_do; [apply keeps_sys_return|by intros []].
  - intros [b|] _; [by repeat split|done].
Qed.

(** A thread has its seat from the increment of the count to its decrement. *)
Lemma seat_wait_bitset e n v bits : seated (U:=U) wc e e (wait_bitset n fx v bits).
Proof using Hfx Hfair.
  unfold wait_bitset. apply (seated_bind _ e).
  - apply seated_do; [apply keeps_sys_wait|by intros []].
  - intros [t|] _; [apply seat_parked|by repeat split].
Qed.

Lemma seat_wait_writer n v : seatp (compare_and_wait_as_writer aborts n fx v).
Proof using Hfx Hfair.
  unfold compare_and_wait_as_writer. intros s count s' [Hs|[Hs _]] Hb; [|done].
  simpl in Hs, Hb. injection Hs as <- <-. exists true. rewrite rd_wr. unfold wrap. rewrite Z.mod_small by lia.
  split; [simpl; lia|]. cbn [prog_bind prog_bind_def]. rewrite (proj2 (Z.eqb_neq _ _)) by lia. cbn [negb assert_at].
  apply (seated_bind _ true); [by repeat split|]. intros _ _.
  apply (seated_bind _ true); [apply seat_wait_bitset|]. intros res _.
  intros s1 prev s1' [Hs|[Hs _]] Hb1; [|done]. simpl in Hs, Hb1. injection Hs as <- <-.
  exists false. rewrite rd_wr. unfold wrap. rewrite Z.mod_small by lia.
  split; [simpl; lia|]. cbn [prog_bind prog_bind_def]. rewrite (proj2 (Z.eqb_neq _ _)) by lia. cbn [negb assert_at].
  apply (seated_bind _ false); [by repeat split|]. intros _ _. seated_tac.
Qed.
#[local] Hint Resolve seat_wait_writer : seated.

Lemma seat_wait_reader n v : seatp (compare_and_wait_as_reader n fx v).
Proof using Hfx Hfair. apply seat_wait_bitset. Qed.
#[local] Hint Resolve seat_wait_reader : seated.

Lemma seat_wake_readers v b : seatp (wake_readers aborts fx v b).
Proof using Hfx Hfair Ha. unfold wake_readers, futex_wake_readers. destruct b; cbn [negb]; seated_tac. Qed.
#[local] Hint Resolve seat_wake_readers : seated.

Lemma seat_wake_writer : seatp (wake_one_writer fx).
Proof using Hfx Hfair. unfold wake_one_writer. seated_tac. Qed.
#[local] Hint Resolve seat_wake_writer : seated.

Lemma seat_drop_with transfer (rl : ReadLock) :
  (∀ v, seatp (transfer fx v)) → on rl → seatp (read_lock_drop_with transfer rl).
Proof using Hfx Hfair. intros H Hrl. destruct rl as [? p]. compute in Hrl. subst. unfold read_lock_drop_with. cbn [rl_futex]. seated_tac. Qed.
#[local] Hint Resolve seat_drop_with : seated.

Lemma seat_to_writer drop_read n cur :
  (∀ rl, on rl → seatp (drop_read rl)) → seatp (transfer_to_writer aborts drop_read n fx cur).
Proof using Hfx Hfair Ha.
  intros H. revert cur. induction n as [|n IH]; intros cur; [exact I|]. cbn [transfer_to_writer]. cbv zeta.
  seated_tac.
Qed.
Lemma seat_to_readers drop_read n cur :
  (∀ rl, on rl → seatp (drop_read rl)) → seatp (transfer_to_readers aborts drop_read n fx cur).
Proof using Hfx Hfair Ha.
  intros H. revert cur. induction n as [|n IH]; intros cur; [exact I|]. cbn [transfer_to_readers].
  seated_tac.
Qed.
#[local] Hint Resolve seat_to_writer seat_to_readers : seated.

Lemma seat_transfer n cur : seatp (transfer_lock aborts linux fuel n fx cur).
Proof using Hfx Hfair Ha.
  revert cur. induction n as [|n IH]; intros cur; [exact I|]. cbn [transfer_lock].
  unfold prefer_wake_one_writer. seated_tac.
Qed.
#[local] Hint Resolve seat_transfer : seated.

Ltac on_fx H := compute in H; subst.

Lemma seat_read_drop (rl : ReadLock) : on rl → seatp (read_lock_drop aborts linux fuel rl).
Proof using Hfx Hfair Ha. apply seat_drop_with, seat_transfer. Qed.
Lemma seat_lock_drop (lk : Lock) : on lk → seatp (lock_drop aborts linux fuel lk).
Proof using Hfx Hfair Ha.
  intros Hlk. destruct lk as [futex p q]. on_fx Hlk. unfold lock_drop. cbn [lk_futex lk_init_phase lk_on_unlock].
  seated_tac.
Qed.
#[local] Hint Resolve seat_read_drop seat_lock_drop : seated.

Lemma seat_into_read (lk : Lock) cur : on lk → seatp (into_read_lock aborts linux fuel lk cur).
Proof using Hfx Hfair Ha.
  intros Hlk. destruct lk as [futex p q]. on_fx Hlk. unfold into_read_lock. cbn [lk_futex lk_init_phase lk_on_unlock].
  seated_tac.
Qed.
#[local] Hint Resolve seat_into_read : seated.

Lemma seat_read_lock sc cur : seatp (read_lock fuel fx sc cur).
Proof using Hfx Hfair.
  unfold read_lock. generalize SpinWait.new. generalize fuel at 1 as n.
  intros n. revert cur. induction n as [|n IH]; intros cur sw; [exact I|]. cbn [read_lock_loop].
  seated_tac.
Qed.
#[local] Hint Resolve seat_read_lock : seated.

Lemma seat_wait_for_readers cur : seatp (wait_for_readers fuel fx cur).
Proof using Hfx Hfair.
  assert (∀ n cur sw, seatp (spin_for_readers n fx cur sw)) as Hspin.
  { intros n. induction n as [|n IH]; intros c sw; [exact I|]. cbn [spin_for_readers]. seated_tac. }
  assert (∀ n cur, seatp (unlock_for_readers n fx cur)) as Hunlock.
  { intros n. induction n as [|n IH]; intros c; [exact I|]. cbn [unlock_for_readers]. cbv zeta. seated_tac. }
  unfold wait_for_readers. seated_tac.
Qed.
#[local] Hint Resolve seat_wait_for_readers : seated.

Lemma seat_wait_as_writer cur how :
  seatp (wait_as_writer_then_wake_with_lock aborts linux fuel fx cur how).
Proof using Hfx Hfair Ha. unfold wait_as_writer_then_wake_with_lock. seated_tac. Qed.
Lemma seat_wait_as_reader cur how :
  seatp (wait_as_reader_then_wake_with_lock aborts linux fuel fx cur how).
Proof using Hfx Hfair Ha. unfold wait_as_reader_then_wake_with_lock. seated_tac. Qed.
#[local] Hint Resolve seat_wait_as_writer seat_wait_as_reader : seated.

Lemma seat_optimistic how hint : seatp (optimistic_lock fx how hint).
Proof using Hfx Hfair. unfold optimistic_lock. cbv zeta. seated_tac. Qed.
#[local] Hint Resolve seat_optimistic : seated.

Lemma seat_try_loop n how cur : seatp (try_read_loop n fx how cur).
Proof using Hfx Hfair.
  revert cur. induction n as [|n IH]; intros cur; [exact I|]. cbn [try_read_loop]. seated_tac.
Qed.
#[local] Hint Resolve seat_try_loop : seated.

Lemma seat_attempt_write cur sw : seatp (attempt_write fuel fx cur sw).
Proof using Hfx Hfair. unfold attempt_write. cbv zeta. seated_tac. Qed.
Lemma seat_attempt_read how cur sw : seatp (attempt_read fuel fx how cur sw).
Proof using Hfx Hfair. unfold attempt_read. seated_tac. Qed.
Lemma seat_announce cur bit : seatp (announce fx cur bit).
Proof using Hfx Hfair. unfold announce. seated_tac. Qed.
#[local] Hint Resolve seat_attempt_write seat_attempt_read seat_announce : seated.
Lemma seat_attempt_wait how wake cur sw : seatp (attempt_wait aborts linux fuel fx how wake cur sw).
Proof using Hfx Hfair Ha. unfold attempt_wait. seated_tac. Qed.
#[local] Hint Resolve seat_attempt_wait : seated.

Lemma seat_slow how wake : seatp (raw_lock_slow aborts linux fuel fx how wake).
Proof using Hfx Hfair Ha.
  assert (∀ n cur sw, seatp (raw_lock_slow_loop aborts linux fuel n fx how wake cur sw)) as H.
  { intros n. induction n as [|n IH]; intros cur sw; [exact I|]. cbn [raw_lock_slow_loop]. seated_tac. }
  unfold raw_lock_slow. seated_tac.
Qed.
#[local] Hint Resolve seat_slow : seated.

Lemma seat_raw_lock how wake hint : seatp (raw_lock aborts linux fuel fx how wake hint).
Proof using Hfx Hfair Ha. unfold raw_lock. cbv zeta. seated_tac. Qed.
Lemma seat_try_raw_lock how hint : seatp (try_raw_lock fuel fx how hint).
Proof using Hfx Hfair. unfold try_raw_lock. cbv zeta. seated_tac. Qed.
#[local] Hint Resolve seat_raw_lock seat_try_raw_lock : seated.

Lemma seat_clone (rl : ReadLock) : on rl → seatp (read_lock_clone aborts fuel rl).
Proof using Hfx Hfair Ha.
  intros Hrl. destruct rl as [futex p]. on_fx Hrl.
  assert (∀ n sw cur, seatp (read_lock_clone_loop aborts fuel n (ReadLockC fx p) sw cur)) as H.
  { intros n. induction n as [|n IH]; intros sw cur; [exact I|]. cbn [read_lock_clone_loop rl_futex]. cbv zeta.
    seated_tac. }
  unfold read_lock_clone. cbn [rl_futex]. seated_tac.
Qed.
#[local] Hint Resolve seat_clone : seated.

Definition futex_seated : SeatedLocker (futex_locker (U:=U) aborts linux fuel) wc fx.
Proof using Hfx Hfair Ha.
  refine (@Build_SeatedLocker _ _ (futex_locker aborts linux fuel) wc fx on_guard on_read_guard
    _ _ _ _ _ _ _ _ _ _ _); intros; cbn [futex_locker pl_lock pl_try_lock pl_phase wg_drop wg_into_read rg_phase rg_clone rg_drop];
    unfold lock, try_lock, guard_into_read, read_lock_from, read_clone, phase; seated_tac.
  - by destruct a.
  - by destruct l.
Defined.
End futex.

(** The start of a futex, but for its word: no writer waits, and the count has a cell
    of its own. *)
Definition no_writer_waits {U} (fx : Futex) (s : state U) : Prop :=
  fx_fairness fx ≠ fx_writer_count fx ∧ rd s (fx_writer_count fx) = 0.
