(* ===== verification/FutexSafety.v ===== *)
(** * The futex locker keeps the contract

    Each function of the locker is verified against the rules of [FutexRules];
    [futex_spec] puts them together as an instance of the contract. The section takes
    for granted that a thread stops where one of the three named assertions fails, the
    two on the count of waiting writers and the one of [wake_readers] on a writer that
    turns into a reader; every other assertion is proved never to fail. [Seats] proves
    of the two on the count that fewer than 2^32 threads do not make them fail either,
    so that [futex_clients_safe] leaves one, which does fail ([FutexBug]). *)

From stdpp Require Import base list option numbers gmap gmultiset relations.
From S2P Require Import Prelude Word Phase Atomics SpinWait Locker Tokens Clients Futex FutexLocker FutexInv FutexRules Seats.
Open Scope Z_scope.

Section safety.
Context {KN : Kernel} {BF : Bitflags} {U D : Type} `{!EqDecision D} (c : contract U D) (fx : Futex).
Context (Hfx : futex_cells fx).
Context (aborts : assertion → bool) (Haborts : ∀ a, a ≠ Other → aborts a = true).
Context (linux : bool) (fuel : nat).

Abbreviation l := (fx_futex fx).
Abbreviation inv := (finv c fx).
#[local] Arguments ok : simpl never.

Lemma assert_rule {A} a b (k : unit → prog U A) g Q Qp :
  b = true ∨ aborts a = true → (b = true → ok inv (k tt) g Q Qp) →
  ok inv (assert_at aborts a b ≫= k) g Q Qp.
Proof using.
  intros Ha Hk. unfold assert_at. destruct b; [by apply Hk|].
  destruct Ha as [?| ->]; done.
Qed.

Lemma assert_true {A} a b (k : unit → prog U A) g Q Qp :
  b = true → ok inv (k tt) g Q Qp → ok inv (assert_at aborts a b ≫= k) g Q Qp.
Proof using. intros ->. by intros. Qed.

Lemma ok_ret {A} (a : A) (g : ftokens D) (Q : A → ftokens D → Prop) (Qp : ftokens D → Prop) :
  Q a g → ok inv (Ret a) g Q Qp.
Proof using. done. Qed.

(** ** Observations *)

Definition observed (cur : u32) (g : ftokens D) : Prop :=
  ∃ p n lk rw ww, cur = word p n lk rw ww ∧ phase_range p ∧ count_range n ∧ g = ftok_if (pub c p).

Lemma fx_obs_intro p n lk rw ww :
  phase_range p → count_range n → observed (word p n lk rw ww) (ftok_if (pub c p)).
Proof using. intros. by exists p, n, lk, rw, ww. Qed.
Hint Resolve fx_obs_intro : core.

Lemma tickets_if b : tickets (ftok_if b : ftokens D) = ∅.
Proof using. by destruct b. Qed.

Lemma load_obs {A} b (k : Z → prog U A) Q Qp :
  (∀ v h, observed v h → ok inv (k v) h Q Qp) → ok inv (Vis (Load l) k) (ftok_if b) Q Qp.
Proof using.
  intros Hk. apply load_rule. intros p n lk rw ww wr wm d f Hp Hn Ha.
  exists (ftok_if (pub c p)). rewrite !tickets_if. split_and!; [done| |by auto].
  apply account_observe. by eapply account_forget.
Qed.

Lemma load_keep {A} (k : Z → prog U A) g Q Qp :
  at_word c g (λ p n lk rw ww wr wm d f, ok inv (k (word p n lk rw ww)) g Q Qp) →
  ok inv (Vis (Load l) k) g Q Qp.
Proof using.
  intros Hk. apply load_rule. intros p n lk rw ww wr wm d f Hp Hn Ha. exists g. eauto.
Qed.

(** A compare-exchange from an observation, which fails with another. *)
Lemma cas_obs {A} weak cur new b (k : result Z Z → prog U A) Q Qp :
  at_word c pcm_unit (λ p n lk rw ww wr wm d f, cur = word p n lk rw ww →
    ∃ g', becomes c new p d wr wm pcm_unit g' f ∧ ok inv (k (Ok cur)) g' Q Qp) →
  (∀ v h, observed v h → ok inv (k (Err v)) h Q Qp) →
  ok inv (Vis (CompareExchange weak l cur new) k) (ftok_if b) Q Qp.
Proof using Hfx.
  intros Hyes Hno. apply cas_rule; [done| |].
  - intros p n lk rw ww wr wm d f Hp Hn Ha Hcur. apply account_forget in Ha.
    rewrite <- (left_id_L pcm_unit pcm_op f) in Ha.
    destruct (Hyes _ _ _ _ _ _ _ _ _ Hp Hn Ha Hcur) as (g' & (p' & n' & lk' & rw' & ww' & ? & ? & ? & Ht & ?) & ?).
    exists g'. split; [|done]. exists p', n', lk', rw', ww'. by rewrite tickets_if.
  - intros p n lk rw ww wr wm d f Hp Hn Ha _. exists (ftok_if (pub c p)).
    rewrite !tickets_if. split_and!; [done| |by auto]. apply account_observe. by eapply account_forget.
Qed.

(** Setting a waiter bit changes nothing for anyone. *)
Lemma set_waiter_becomes bit p n lk rw ww wr wm d g f :
  bit = READ_WAITER_BIT ∨ bit = WRITE_WAITER_BIT → phase_range p → count_range n →
  account c p n lk rw ww wr wm d (g ⋅ f) →
  becomes c (Z.lor (word p n lk rw ww) bit) p d wr wm g g f.
Proof using.
  intros Hbit Hp Hn Ha. destruct Hbit as [-> | ->].
  - rewrite fx_set_read_waiter by done. exists p, n, lk, true, ww. split_and!; try done.
    by eapply account_waiters.
  - rewrite fx_set_write_waiter by done. exists p, n, lk, rw, true. split_and!; try done.
    by eapply account_waiters.
Qed.

Lemma fetch_or_waiter {A} bit (k : Z → prog U A) g Q Qp :
  bit = READ_WAITER_BIT ∨ bit = WRITE_WAITER_BIT → (∀ x, ok inv (k x) g Q Qp) →
  ok inv (Vis (FetchOr l bit) k) g Q Qp.
Proof using Hfx.
  intros Hbit Hk. apply (rmw_rule _ _ Hfx _ (λ x, Z.lor x bit)); [done..|].
  intros p n lk rw ww wr wm d f Hp Hn Ha. exists g. split; [by apply set_waiter_becomes|done].
Qed.

Definition lock_is (lk : Lock) (p q : Phase) : Prop :=
  lk = LockC fx p q ∧ phase_range p ∧ phase_range q.
Definition read_lock_is (rl : ReadLock) (p : Phase) : Prop :=
  rl = ReadLockC fx p ∧ phase_range p.

(** ** Waking the readers *)

Lemma wake_mask (k : bool) :
  Z.lor (Z.lor (Z.lor READ_WAITER_BIT (if k then LOCKED_BIT else 0)) READER_OVERF) READER_UNITY
  = word 0 (2 ^ 20 + 1) k true false.
Proof using. by destruct k. Qed.

Lemma wake_mask_converting :
  Z.lor (Z.lor (Z.lor READ_WAITER_BIT 0) READER_OVERF) 0 = word 0 (2 ^ 20) false true false.
Proof using. reflexivity. Qed.

Lemma do_op_bind {T A} (o : op U T) (k : T → prog U A) : do_op o ≫= k = Vis o k.
Proof using. reflexivity. Qed.

(** The bit that is set again when not all could be woken. *)
Lemma maybe_set_waiter {A} (b : bool) bit (k : unit → prog U A) g Q Qp :
  bit = READ_WAITER_BIT ∨ bit = WRITE_WAITER_BIT → ok inv (k tt) g Q Qp →
  ok inv ((if b then _ ← do_op (FetchOr l bit); Ret tt else Ret tt) ≫= k) g Q Qp.
Proof using Hfx.
  intros Hbit Hk. destruct b; [|done]. apply ok_bind. rewrite do_op_bind.
  by apply fetch_or_waiter.
Qed.

Lemma futex_wake_readers_ok p d :
  ok inv (futex_wake_readers fx) (ftok_rs (2 ^ 20 + 1) p d)
    (λ x h, 0 <= x <= 2 ^ 20 ∧ h = ftok_rs (2 ^ 20 + 1 - x) p d) (λ _, False).
Proof using Hfx.
  unfold futex_wake_readers. rewrite do_op_bind. apply other_cell_rule; [done| |].
  { intros s. simpl. rewrite rd_wr_ne by apply (fc_ne_fairness _ Hfx).
    by rewrite (queue_insert _ _ _ (fc_fairness _ Hfx)). }
  intros _. rewrite do_op_bind. apply sys_wake_readers_rule; [done|by vm_compute|].
  change MAX_WAKED_READERS with (2 ^ 20). intros x Hx.
  apply maybe_set_waiter; [by left|]. done.
Qed.

(** The second half of [wake_readers], with the shares that it has taken. *)
Lemma wake_shares_ok p d :
  phase_range p →
  ok inv (x ← futex_wake_readers fx;
          cur ← do_op (FetchSub 32 (fx_futex fx) (READER_OVERF - READER_UNITY * x));
          Ret (read_lock_new fx cur))
    (ftok_rs (2 ^ 20 + 1) p d) (λ rl h, h = ftok_r p d ∧ read_lock_is rl p) (λ _, False).
Proof using Hfx.
  intros Hp0. apply ok_bind. eapply ok_mono; [exact (futex_wake_readers_ok p d)|cbv beta|done].
  intros x h [Hx ->]. rewrite do_op_bind.
  apply (rmw_rule _ _ Hfx _ (λ v, wrap 32 (v - (READER_OVERF - READER_UNITY * x)))); [done..|].
  intros p' n lk rw ww wr wm d' f Hp Hn Ha.
  destruct (account_reader _ _ _ _ _ _ _ _ _ (2 ^ 20 + 1 - x) _ _ _ ltac:(lia) Ha) as (-> & -> & Hle & _).
  replace (READER_OVERF - READER_UNITY * x) with (READER_UNITY * (2 ^ 20 - x))
    by (unfold READER_OVERF, READER_UNITY; lia).
  destruct (fx_sub_readers p' n lk rw ww Hp Hn (2 ^ 20 - x)) as [-> Hn']; [lia|].
  exists (ftok_r p' d'). split.
  - exists p', (n - (2 ^ 20 - x)), lk, rw, ww. split_and!; try done.
    unfold ftok_r. replace 1 with (2 ^ 20 + 1 - x - (2 ^ 20 - x)) by lia.
    eapply account_shares; [lia|lia|done].
  - unfold read_lock_new, read_lock_is, ok. by rewrite truncate_word.
Qed.

(** The lock that is passed on to readers, from a word that nobody holds. *)
Lemma wake_passing_ok (k b : bool) :
  ok inv (wake_readers aborts fx (if k then LOCKED_BIT else 0) false) (ftok_pass k true b)
    (λ rl h, ∃ p d, h = ftok_r p d ∧ read_lock_is rl p) (λ _, False).
Proof using Hfx.
  unfold wake_readers. cbv zeta. rewrite wake_mask, do_op_bind.
  apply (rmw_rule _ _ Hfx _ (λ x, Z.lxor x (word 0 (2 ^ 20 + 1) k true false))); [done..|].
  intros p n lk rw ww wr wm d f Hp Hn Ha.
  destruct (account_passing _ _ _ _ _ _ _ _ _ _ _ _ _ Ha) as (-> & -> & -> & _).
  exists (ftok_rs (2 ^ 20 + 1) p d). split.
  - rewrite word_lxor by (auto with word; unfold count_range; lia).
    rewrite Z.lxor_0_r, xorb_nilpotent, xorb_false_r.
    exists p, (2 ^ 20 + 1), false, (xorb rw true), ww. split_and!; try done.
    by eapply account_pass_readers.
  - assert (Z.land (word p 0 k rw ww) READER_UNITY = 0) as Hu.
    { rewrite READER_UNITY_word, word_land by auto with word.
      by rewrite Z.land_0_r, !andb_false_r. }
    apply assert_true.
    { destruct k; [rewrite word_land_locked by auto with word|rewrite Z.land_0_r]; apply Z.eqb_refl. }
    cbn [negb]. apply assert_true; [by rewrite Hu|]. apply assert_true.
    { destruct k; [rewrite LOCKED_BIT_word at 1; rewrite word_lxor by auto with word|rewrite Z.lxor_0_r];
        rewrite word_land_locked by (rewrite ?Z.lxor_0_r; auto with word); done. }
    eapply ok_mono; [by apply wake_shares_ok|cbv beta|done].
    intros rl h [-> ?]. by exists p, d.
Qed.

(** A writer that has turned into a reader. *)
Lemma wake_converting_ok p d :
  phase_range p →
  ok inv (wake_readers aborts fx 0 true) (ftok_conv p d)
    (λ rl h, h = ftok_r p d ∧ read_lock_is rl p) (λ _, False).
Proof using Hfx Haborts.
  intros Hp. unfold wake_readers. cbv zeta. rewrite wake_mask_converting, do_op_bind.
  apply (rmw_rule _ _ Hfx _ (λ x, Z.lxor x (word 0 (2 ^ 20) false true false))); [done..|].
  intros p' n lk rw ww wr wm d' f Hp' Hn Ha.
  destruct (account_conv _ _ _ _ _ _ _ _ _ _ _ _ (xorb rw true) Ha) as (<- & <- & Hlt & Ha').
  exists (ftok_rs (2 ^ 20 + 1) p d). split.
  - rewrite word_lxor by auto with word.
    rewrite lxor_count, Z.lxor_0_r, !xorb_false_r by lia.
    by exists p, (n + 2 ^ 20), lk, (xorb rw true), ww.
  - apply assert_true; [by rewrite Z.land_0_r|]. cbn [negb].
    apply assert_rule; [right; by apply Haborts|]. intros _. by apply wake_shares_ok.
Qed.

(** ** Passing the lock on *)

Lemma account_keep p n lk rw ww wr wm d (keep : bool) f :
  (keep = true → pub c p = true) → account c p n lk rw ww wr wm d f →
  account c p n lk rw ww wr wm d (ftok_if keep ⋅ f).
Proof using.
  intros Hk Ha. destruct keep; [rewrite <- (Hk eq_refl); by apply account_observe|].
  unfold ftok_if. by rewrite (left_id_L pcm_unit pcm_op).
Qed.

Definition transfers (T : Futex → u32 → prog U unit) : Prop :=
  ∀ p rw ww, phase_range p → rw || ww = true →
    ok inv (T fx (word p 0 false rw ww)) (ftok_pass false rw ww) (λ _ h, h = pcm_unit) (λ _, False).

(** A thread that leaves a public phase may keep the knowledge of it. *)
Lemma read_drop_with_ok T rl p d (keep : bool) :
  transfers T → read_lock_is rl p → (keep = true → pub c p = true) →
  ok inv (read_lock_drop_with T rl) (ftok_r p d) (λ _ h, h = ftok_if keep) (λ _, False).
Proof using Hfx.
  intros HT (-> & Hp0) Hkeep. unfold read_lock_drop_with. cbn [rl_futex]. rewrite do_op_bind.
  apply (rmw_rule _ _ Hfx _ (λ v, wrap 32 (v - READER_UNITY))); [done..|].
  intros p' n lk rw ww wr wm d' f Hp Hn Ha.
  destruct (account_reader _ _ _ _ _ _ _ _ _ _ _ _ _ Z.lt_0_1 Ha) as (-> & -> & Hle & _).
  destruct (fx_sub_readers p' n lk rw ww Hp Hn 1) as [Hsub Hn']; [lia|].
  rewrite Z.mul_1_r in Hsub. rewrite Hsub.
  rewrite fx_one_reader, fx_not_write_locked, fx_waiters by done.
  destruct ((n =? 1) && negb lk && (rw || ww)) eqn:E.
  - apply andb_prop in E as [[->%Z.eqb_eq ->%negb_true_iff]%andb_prop Hw].
    exists (ftok_pass false rw ww ⋅ ftok_if keep). split.
    + exists p', 0, false, rw, ww. split_and!; try done; [by destruct keep|].
      rewrite <- (assoc_L pcm_op), (assoc_L pcm_op _ (ftok_if keep)), (comm_L pcm_op _ (ftok_if keep)), <- (assoc_L pcm_op).
      apply account_keep; [done|]. eapply account_last_reader in Ha; [|lia|done]. by rewrite Hw in Ha.
    + rewrite word_sub_unity. apply ok_frame. eapply ok_mono; [by apply HT|cbv beta|done].
      intros _ h ->. by rewrite (left_id_L pcm_unit pcm_op).
  - exists (ftok_if keep). split; [|done].
    exists p', (n - 1), lk, rw, ww. split_and!; try done; [by destruct keep|].
    apply account_keep; [done|]. rewrite <- (left_id_L pcm_unit pcm_op f).
    change (pcm_unit : ftokens D) with (ftok_rs (1 - 1) p' (d' : D)).
    eapply account_shares; [lia|lia|done].
Qed.

Section transfer.
Context (drop_read : ReadLock → prog U unit).
Context (Hdrop : ∀ rl p d, read_lock_is rl p →
  ok inv (drop_read rl) (ftok_r p d) (λ _ h, h = pcm_unit) (λ _, False)).

(** A writer that the lock is passed to is woken, or else keeps it out of reach. *)
Lemma pass_to_writer_ok {A} rw (k : bool → prog U A) Q Qp :
  ok inv (k true) pcm_unit Q Qp → ok inv (k false) (ftok_pass true rw false) Q Qp →
  ok inv (prev ← do_op (FetchXor l (Z.lor WRITE_WAITER_BIT LOCKED_BIT));
          assert_at aborts Other (has_bit prev WRITE_WAITER_BIT);;
          assert_at aborts Other (Z.land prev (Z.lor (Z.lor LOCKED_BIT READER_BITS) READER_OVERF) =? 0);;
          woken ← wake_one_writer fx;
          k woken) (ftok_pass false rw true) Q Qp.
Proof using Hfx.
  intros Hyes Hno. rewrite do_op_bind.
  change (Z.lor WRITE_WAITER_BIT LOCKED_BIT) with (word 0 0 true false true).
  apply (rmw_rule _ _ Hfx _ (λ x, Z.lxor x (word 0 0 true false true))); [done..|].
  intros p n lk rw' ww wr wm d f Hp Hn Ha.
  destruct (account_passing _ _ _ _ _ _ _ _ _ _ _ _ _ Ha) as (-> & -> & -> & Hrw & Hww & _).
  rewrite (Hww eq_refl) in *.
  exists (ftok_pass true rw false). split.
  - rewrite word_lxor by auto with word. rewrite !Z.lxor_0_r, !xorb_false_r.
    exists p, 0, true, rw', false. split_and!; try done. by eapply account_passing_set.
  - apply assert_true; [by rewrite fx_write_waiter_bit|].
    apply assert_true; [by rewrite fx_free|].
    unfold wake_one_writer. apply ok_bind. rewrite do_op_bind.
    apply (other_rmw_rule _ _ _ (fx_fairness fx) (λ v, wrap 16 (v + 1)));
      [done|done|apply Hfx|apply (fc_ne_fairness _ Hfx)|].
    intros _. rewrite do_op_bind. by apply sys_wake_writer_rule.
Qed.

(** The lock is released, unless threads have come to wait. *)
Lemma unlock_passing_ok rw ww (retry : u32 → prog U unit) :
  (∀ p rw ww, phase_range p → rw || ww = true →
    ok inv (retry (word p 0 false rw ww)) (ftok_pass false rw ww) (λ _ h, h = pcm_unit) (λ _, False)) →
  ok inv (cur ← do_op (FetchAnd l NOT_LOCKED_BIT);
          assert_at aborts Other (has_bit cur LOCKED_BIT);;
          if has_no_waiters cur then Ret tt else retry (Z.land cur NOT_LOCKED_BIT))
    (ftok_pass true rw ww) (λ _ h, h = pcm_unit) (λ _, False).
Proof using Hfx.
  intros Hretry. rewrite do_op_bind.
  apply (rmw_rule _ _ Hfx _ (λ x, Z.land x NOT_LOCKED_BIT)); [done..|].
  intros p n lk rw' ww' wr wm d f Hp Hn Ha.
  destruct (account_passing _ _ _ _ _ _ _ _ _ _ _ _ _ Ha) as (-> & -> & -> & _).
  rewrite fx_clear_locked by done.
  destruct (rw' || ww') eqn:E.
  - exists (ftok_pass false rw' ww'). split.
    + exists p, 0, false, rw', ww'. split_and!; try done. by eapply account_passing_set.
    + apply assert_true; [by rewrite fx_locked_bit|]. rewrite fx_no_waiters, E by done. by apply Hretry.
  - exists pcm_unit. split.
    + exists p, 0, false, rw', ww'. split_and!; try done. rewrite (left_id_L pcm_unit pcm_op).
      by eapply account_passing_release.
    + apply assert_true; [by rewrite fx_locked_bit|]. by rewrite fx_no_waiters, E.
Qed.

Lemma pass_to_readers_ok (k b : bool) :
  ok inv (rl ← wake_readers aborts fx (if k then LOCKED_BIT else 0) false; drop_read rl)
    (ftok_pass k true b) (λ _ h, h = pcm_unit) (λ _, False).
Proof using Hfx Hdrop.
  apply ok_bind. eapply ok_mono; [apply wake_passing_ok|cbv beta|done].
  intros rl h (p & d & -> & Hrl). by eapply Hdrop.
Qed.

Lemma transfer_to_writer_ok n : transfers (transfer_to_writer aborts drop_read n).
Proof using Hfx Hdrop.
  induction n as [|n IH]; intros p rw ww Hp Hw; [done|].
  cbn [transfer_to_writer]. rewrite fx_write_waiter_bit by auto with word. destruct ww.
  - apply pass_to_writer_ok; [done|].
    change (Z.lor WRITE_WAITER_BIT LOCKED_BIT) with (word 0 0 true false true).
    rewrite word_lxor by auto with word. rewrite !Z.lxor_0_r, !xorb_false_r.
    cbn [xorb]. rewrite fx_read_waiter_bit by auto with word. destruct rw.
    + apply (pass_to_readers_ok true).
    + apply (unlock_passing_ok false false (transfer_to_writer aborts drop_read n fx)). exact IH.
  - rewrite orb_false_r in Hw. subst rw. rewrite fx_read_waiter_bit by auto with word.
    apply (pass_to_readers_ok false).
Qed.

Lemma transfer_to_readers_ok n : transfers (transfer_to_readers aborts drop_read n).
Proof using Hfx Hdrop.
  induction n as [|n IH]; intros p rw ww Hp Hw; [done|].
  cbn [transfer_to_readers]. rewrite fx_read_waiter_bit by auto with word. destruct rw.
  - apply (pass_to_readers_ok false).
  - simpl in Hw. subst ww. apply assert_true; [by rewrite fx_write_waiter_bit by auto with word|].
    apply pass_to_writer_ok; [done|].
    apply (unlock_passing_ok false false (transfer_to_readers aborts drop_read n fx)). exact IH.
Qed.
End transfer.

Lemma transfer_lock_ok depth : transfers (transfer_lock aborts linux fuel depth).
Proof using Hfx.
  induction depth as [|depth IH]; intros p rw ww Hp Hw; [done|]. cbn [transfer_lock].
  assert (∀ rl p d, read_lock_is rl p →
    ok inv (read_lock_drop_with (transfer_lock aborts linux fuel depth) rl) (ftok_r p d)
      (λ _ h, h = pcm_unit) (λ _, False)) as Hdrop.
  { intros rl q d Hrl. by apply (read_drop_with_ok _ _ _ _ false). }
  apply assert_true; [by rewrite fx_free by auto with word|].
  apply assert_true; [by rewrite fx_waiters by auto with word|].
  apply ok_bind. unfold prefer_wake_one_writer. rewrite do_op_bind.
  apply other_cell_rule; [done|done|]. intros v.
  apply ok_ret. destruct (if linux then _ else _).
  - by apply transfer_to_writer_ok.
  - by apply transfer_to_readers_ok.
Qed.

Lemma read_drop_ok rl p d :
  read_lock_is rl p →
  ok inv (read_lock_drop aborts linux fuel rl) (ftok_r p d) (λ _ h, h = ftok_if (pub c p)) (λ _, False).
Proof using Hfx. intros Hrl. apply read_drop_with_ok; [apply transfer_lock_ok|done|done]. Qed.

(** ** The write lock *)

Lemma drop_xor p q rw ww :
  phase_range p → phase_range q →
  Z.lxor (word p 0 true rw ww) (Z.lor (p .^ q) LOCKED_BIT) = word q 0 false rw ww.
Proof using.
  intros Hp Hq. rewrite phase_lor_locked, word_lxor by auto with phase word.
  pose proof (xor_cancel p q) as Hx. rewrite !flags_xor_eq in *. rewrite Hx. by rewrite !xorb_false_r.
Qed.

Lemma convert_xor p q rw ww :
  phase_range p → phase_range q →
  Z.lxor (word p 0 true rw ww) (Z.lor (Z.lor (p .^ q) LOCKED_BIT) READER_UNITY) = word q 1 false rw ww.
Proof using.
  intros Hp Hq. rewrite phase_lor_locked, READER_UNITY_word, word_lor by auto with phase word.
  rewrite word_lxor by (rewrite ?Z.lor_0_r; auto with phase word).
  rewrite Z.lor_0_r. pose proof (xor_cancel p q) as Hx. rewrite !flags_xor_eq in *. rewrite Hx.
  by rewrite !xorb_false_r.
Qed.

Lemma moves_refl p d : R c p d → moves c p p d.
Proof using. intros. by split_and!. Qed.

Lemma release_becomes p d q rw ww wr wm f :
  phase_range q → moves c p q d → account c p 0 true rw ww wr wm d (ftok_w p d ⋅ f) →
  becomes c (word q 0 false rw ww) p d wr wm (ftok_w p d)
    ((if rw || ww then ftok_pass false rw ww else pcm_unit) ⋅ ftok_if (pub c q)) f.
Proof using.
  intros Hq Hm Ha. exists q, 0, false, rw, ww. split_and!; try done.
  - apply Hm.
  - by destruct (rw || ww), (pub c q).
  - rewrite <- (assoc_L pcm_op), (assoc_L pcm_op _ (ftok_if _)), (comm_L pcm_op _ (ftok_if _)), <- (assoc_L pcm_op).
    apply account_observe. by eapply account_release.
Qed.

Lemma lock_drop_ok lk p q d :
  lock_is lk p q → moves c p q d →
  ok inv (lock_drop aborts linux fuel lk) (ftok_w p d) (λ _ h, h = ftok_if (pub c q)) (λ _, False).
Proof using Hfx.
  intros (-> & Hp & Hq) Hm. unfold lock_drop. cbn [lk_futex lk_init_phase lk_on_unlock].
  rewrite do_op_bind, phase_lor_locked by done. apply cas_rule; [done| |].
  - intros p' n lk rw ww wr wm d' f Hp' Hn Ha Hcur.
    destruct (account_writer _ _ _ _ _ _ _ _ _ _ _ _ Ha) as (<- & <- & -> & ->).
    apply word_inj in Hcur as (_ & _ & _ & <- & <-); [|auto with word..].
    exists (pcm_unit ⋅ ftok_if (pub c q)). split.
    + rewrite (phase_word q) at 1. by apply (release_becomes p d q false false).
    + by rewrite (left_id_L pcm_unit pcm_op).
  - intros p' n lk rw ww wr wm d' f Hp' Hn Ha _. exists (ftok_w p d). split_and!; [done..|].
    rewrite do_op_bind. clear -Hfx Hp Hq Hm.
    apply (rmw_rule _ _ Hfx _ (λ x, Z.lxor x (Z.lor (p .^ q) LOCKED_BIT))); [done..|].
    intros p' n lk rw ww wr wm d' f Hp' Hn Ha.
    destruct (account_writer _ _ _ _ _ _ _ _ _ _ _ _ Ha) as (<- & <- & -> & ->).
    rewrite drop_xor by done. eexists. split; [by apply release_becomes|].
    rewrite fx_waiters by done. destruct (rw || ww) eqn:E.
    + apply ok_frame. eapply ok_mono; [by apply transfer_lock_ok|cbv beta|done].
      intros _ h ->. by rewrite (left_id_L pcm_unit pcm_op).
    + by rewrite (left_id_L pcm_unit pcm_op).
Qed.

Lemma into_read_lock_ok lk p q d :
  lock_is lk p q → moves c p q d →
  ok inv (into_read_lock aborts linux fuel lk p) (ftok_w p d)
    (λ r h, h = ftok_r q d ∧ read_lock_is r q) (λ _, False).
Proof using Hfx Haborts.
  intros (-> & Hp & Hq) Hm. unfold into_read_lock. cbn [lk_futex lk_init_phase lk_on_unlock].
  rewrite do_op_bind.
  apply (rmw_rule _ _ Hfx _ (λ x, Z.lxor x (Z.lor (Z.lor (p .^ q) LOCKED_BIT) READER_UNITY))); [done..|].
  intros p' n lk rw ww wr wm d' f Hp' Hn Ha.
  destruct (account_writer _ _ _ _ _ _ _ _ _ _ _ _ Ha) as (<- & <- & -> & ->).
  rewrite convert_xor by done. exists (if rw then ftok_conv q d else ftok_r q d). split.
  - exists q, 1, false, rw, ww. split_and!; try done; [apply Hm|by destruct rw|].
    by eapply account_downgrade.
  - rewrite fx_read_waiter_bit by done. destruct rw.
    + apply ok_bind, ok_catch. eapply ok_mono; [by apply wake_converting_ok|cbv beta|done].
      intros r h Hr. by apply ok_ret.
    + apply ok_ret. split; [done|]. unfold read_lock_new, read_lock_is. by rewrite truncate_phase.
Qed.

Lemma read_lock_from_ok lk p q d :
  lock_is lk p q → moves c p q d →
  ok inv (read_lock_from aborts linux fuel lk) (ftok_w p d)
    (λ r h, h = ftok_r q d ∧ read_lock_is r q) (λ _, False).
Proof using Hfx Haborts.
  intros Hlk. pose proof Hlk as [Heq _]. unfold read_lock_from. rewrite Heq at 2. by apply into_read_lock_ok.
Qed.

(** ** Waiting *)

(** What the result of locking owns. *)
Definition raw_post (how : How) (r : LockResult ReadLock Lock) (g : ftokens D) : Prop :=
  match r with
  | LRRead rl => ∃ p d, g = ftok_r p d ∧ R c p d ∧ read_lock_is rl p ∧ how p = LNRead
  | LRWrite lk => ∃ p d, g = ftok_w p d ∧ R c p d ∧ lock_is lk p p ∧ how p = LNWrite
  | LRNone p => g = ftok_if (pub c p) ∧ phase_range p ∧ how p = LNNone
  end.

Lemma finv_forget s b f : inv s (ftok_if b ⋅ f) → inv s (pcm_unit ⋅ f).
Proof using.
  rewrite (left_id_L pcm_unit pcm_op). intros (p & n & lk & rw & ww & ? & ? & ? & Ha & Ht).
  apply account_forget in Ha. exists p, n, lk, rw, ww. split_and!; try done.
  rewrite (tickets_op pcm_unit), (left_id_L pcm_unit pcm_op) in Ht; [done|by destruct b].
Qed.

Lemma forget_rule {A T} (o : op U T) (k : T → prog U A) b Q Qp :
  ok inv (Vis o k) pcm_unit Q Qp → ok inv (Vis o k) (ftok_if b) Q Qp.
Proof using. intros Hok f s Hinv. apply Hok. by eapply finv_forget. Qed.

(** What a thread owns that has waited: its share or the lock if it was woken. *)
Definition waited (bits : u32) (woken : bool) (h : ftokens D) : Prop :=
  if woken then ∃ p d, phase_range p ∧ R c p d ∧ h = handed bits p d else h = pcm_unit.

Lemma wait_bitset_ok bits v :
  bits = READER_BIT ∨ bits = WRITER_BIT →
  ok inv (wait_bitset fuel fx v bits) pcm_unit (waited bits) (λ _, False).
Proof using Hfx.
  intros Hbits. unfold wait_bitset. rewrite do_op_bind.
  apply sys_wait_rule; [done| |by apply ok_ret].
  intros t. rewrite (right_id_L pcm_unit pcm_op). generalize fuel as n. intros n.
  induction n as [|n IH]; [done|]. cbn [parked_until]. rewrite do_op_bind.
  rewrite <- (right_id_L pcm_unit pcm_op (ftok_ticket t bits)).
  apply sys_return_rule; [done|done|..].
  - by rewrite (right_id_L pcm_unit pcm_op).
  - by apply ok_ret.
  - intros p d Hp HR. apply ok_ret. rewrite (right_id_L pcm_unit pcm_op). by exists p, d.
Qed.

Lemma wait_as_reader_ok v :
  ok inv (compare_and_wait_as_reader fuel fx v) pcm_unit (waited READER_BIT) (λ _, False).
Proof using Hfx. apply wait_bitset_ok. by left. Qed.

Lemma wait_as_writer_ok v :
  ok inv (compare_and_wait_as_writer aborts fuel fx v) pcm_unit (waited WRITER_BIT) (λ _, False).
Proof using Hfx Haborts.
  assert (∀ o F (k : Z → prog U bool) g Q Qp, o = FetchAdd 32 (fx_writer_count fx) F ∨
    o = FetchSub 32 (fx_writer_count fx) F → (∀ x, ok inv (k x) g Q Qp) → ok inv (Vis o k) g Q Qp) as Hcount.
  { intros o F k g Q Qp [-> | ->] Hk.
    - by apply (other_rmw_rule _ _ _ (fx_writer_count fx) (λ v, wrap 32 (v + F)));
        [done|done|apply Hfx|apply (fc_ne_count _ Hfx)|].
    - by apply (other_rmw_rule _ _ _ (fx_writer_count fx) (λ v, wrap 32 (v - F)));
        [done|done|apply Hfx|apply (fc_ne_count _ Hfx)|]. }
  unfold compare_and_wait_as_writer. rewrite do_op_bind. eapply Hcount; [by left|]. intros count.
  apply assert_rule; [right; by apply Haborts|]. intros _.
  apply ok_bind. eapply ok_mono; [apply wait_bitset_ok; by right|cbv beta|done].
  intros res h Hres. rewrite do_op_bind. eapply Hcount; [by right|]. intros prev.
  apply assert_rule; [right; by apply Haborts|]. intros _.
  apply maybe_set_waiter; [by right|]. by apply ok_ret.
Qed.

Lemma wake_with_write_lock_ok cur how :
  ok inv (wait_as_writer_then_wake_with_lock aborts linux fuel fx cur how) pcm_unit
    (λ r h, match r with Some r => raw_post how r h | None => h = pcm_unit end) (λ _, False).
Proof using Hfx Haborts.
  unfold wait_as_writer_then_wake_with_lock. apply ok_bind.
  eapply ok_mono; [apply wait_as_writer_ok|cbv beta|done].
  intros [|] h Hw; [|by apply ok_ret]. destruct Hw as (p & d & Hp & HR & ->).
  unfold handed. rewrite decide_False by done.
  rewrite do_op_bind. apply load_keep. intros p' n lk rw ww wr wm d' f Hp' Hn Ha.
  destruct (account_writer _ _ _ _ _ _ _ _ _ _ _ _ Ha) as (<- & <- & -> & ->).
  apply assert_true; [by rewrite fx_locked_bit|]. cbv zeta. unfold lock_new.
  rewrite truncate_word by done.
  assert (lock_is (LockC fx p p) p p) as Hlk by done.
  destruct (how p) eqn:Hhow.
  - apply ok_bind. eapply ok_mono; [by apply into_read_lock_ok, moves_refl|cbv beta|done].
    intros rl h [-> Hrl]. apply ok_ret. by exists p, d.
  - apply ok_ret. by exists p, d.
  - apply ok_bind. eapply ok_mono; [by apply (lock_drop_ok _ p p), moves_refl|cbv beta|done].
    intros _ h ->. by apply ok_ret.
Qed.

Lemma wake_with_read_lock_ok cur how :
  ok inv (wait_as_reader_then_wake_with_lock aborts linux fuel fx cur how) pcm_unit
    (λ r h, match r with Some r => raw_post how r h | None => ∃ b, h = ftok_if b end) (λ _, False).
Proof using Hfx.
  unfold wait_as_reader_then_wake_with_lock. apply ok_bind.
  eapply ok_mono; [apply wait_as_reader_ok|cbv beta|done].
  intros [|] h Hw; [|apply ok_ret; by exists false]. destruct Hw as (p & d & Hp & HR & ->).
  unfold handed. rewrite decide_True by done.
  rewrite do_op_bind. apply load_keep. intros p' n lk rw ww wr wm d' f Hp' Hn Ha.
  destruct (account_reader _ _ _ _ _ _ _ _ _ _ _ _ _ Z.lt_0_1 Ha) as (<- & <- & Hle & _).
  apply assert_true.
  { rewrite fx_readers by done. destruct (Z.eqb_spec n 0); [lia|done]. }
  cbv zeta. unfold read_lock_new. rewrite truncate_word by done.
  assert (read_lock_is (ReadLockC fx p) p) as Hrl by done.
  destruct (how p) eqn:Hhow.
  - apply ok_ret. by exists p, d.
  - apply ok_bind. eapply ok_mono; [by apply read_drop_ok|cbv beta|done].
    intros _ h ->. apply ok_ret. by eexists.
  - apply ok_bind. eapply ok_mono; [by apply read_drop_ok|cbv beta|done].
    intros _ h ->. by apply ok_ret.
Qed.

(** A writer that keeps other writers away while the readers leave. *)
Definition waited_readers (p : Phase) (r : result Lock u32) (h : ftokens D) : Prop :=
  match r with
  | Ok lk => ∃ d, h = ftok_w p d ∧ R c p d ∧ lock_is lk p p
  | Err cur => observed cur h
  end.

Lemma pending_take p q n lk rw ww wr wm d f :
  phase_range p → count_range n → (n =? 0) = true → account c p n lk rw ww wr wm d (ftok_pending q ⋅ f) →
  ∃ g, tickets g = tickets (ftok_pending q : ftokens D) ∧ account c p n lk rw ww wr wm d (g ⋅ f) ∧
    waited_readers q (Ok (lock_new fx (word p n lk rw ww))) g.
Proof using.
  intros Hp Hn ->%Z.eqb_eq Ha. destruct (account_pending_take _ _ _ _ _ _ _ _ _ _ Ha) as (Ha' & -> & HR).
  exists (ftok_w p d). split_and!; [done..|]. exists d. unfold lock_new, lock_is.
  by rewrite truncate_word.
Qed.

Lemma spin_for_readers_ok n p cur sw :
  (∃ m lk rw ww, cur = word p m lk rw ww ∧ count_range m ∧ 0 < m) → phase_range p →
  ok inv (spin_for_readers n fx cur sw) (ftok_pending p)
    (λ r h, match r with
      | Ok lk => waited_readers p (Ok lk) h
      | Err cur => h = ftok_pending p ∧ ∃ m lk rw ww, cur = word p m lk rw ww ∧ count_range m ∧ 0 < m
      end) (λ _, False).
Proof using.
  intros Hcur Hp0. revert cur sw Hcur. induction n as [|n IH]; intros cur sw Hcur; [done|].
  cbn [spin_for_readers]. destruct (spin sw) as [[[|] ?] sw']; [|by apply ok_ret].
  rewrite do_op_bind. apply load_rule. intros q m lk rw ww wr wm d f Hq Hm Ha.
  rewrite fx_no_readers by done. destruct (m =? 0) eqn:E.
  - destruct (pending_take _ _ _ _ _ _ _ _ _ _ Hq Hm E Ha) as (g & ? & ? & ?). by exists g.
  - exists (ftok_pending p). split_and!; [done..|]. apply IH.
    destruct (account_pending_phase _ _ _ _ _ _ _ _ _ _ _ Ha) as (-> & _).
    apply Z.eqb_neq in E. exists m, lk, rw, ww. unfold count_range in *. split_and!; [done|lia..].
Qed.

Lemma unlock_for_readers_ok n p m lk rw ww :
  phase_range p → count_range m → 0 < m →
  ok inv (unlock_for_readers n fx (word p m lk rw ww)) (ftok_pending p) (waited_readers p) (λ _, False).
Proof using Hfx.
  intros Hp. revert m lk rw ww. induction n as [|n IH]; intros m lk rw ww Hm Hpos; [done|].
  cbn [unlock_for_readers]. rewrite fx_set_write_waiter, fx_clear_locked by done.
  rewrite do_op_bind. apply cas_rule; [done| |].
  - intros q m' lk' rw' ww' wr wm d f Hq Hm' Ha Hcur.
    apply word_inj in Hcur as (<- & <- & <- & <- & <-); [|done..].
    exists (ftok_if (pub c p)). split; [|by apply ok_ret, fx_obs_intro].
    exists p, m, false, rw, true. split_and!; try done; [by destruct (pub c p)|].
    apply account_observe. by eapply account_pending_back.
  - intros q m' lk' rw' ww' wr wm d f Hq Hm' Ha _. rewrite fx_no_readers by done.
    destruct (m' =? 0) eqn:E.
    + destruct (pending_take _ _ _ _ _ _ _ _ _ _ Hq Hm' E Ha) as (g & ? & ? & ?). by exists g.
    + exists (ftok_pending p). split_and!; [done..|].
      destruct (account_pending_phase _ _ _ _ _ _ _ _ _ _ _ Ha) as (-> & _).
      apply Z.eqb_neq in E. apply IH; unfold count_range in *; lia.
Qed.

Lemma wait_for_readers_ok p m lk rw ww :
  phase_range p → count_range m → 0 < m →
  ok inv (wait_for_readers fuel fx (word p m lk rw ww)) (ftok_pending p) (waited_readers p) (λ _, False).
Proof using Hfx.
  intros Hp Hm Hpos. apply ok_bind.
  eapply ok_mono; [apply spin_for_readers_ok; [by exists m, lk, rw, ww|done]|cbv beta|done].
  intros [lk'|cur] h Hr; [by apply ok_ret|].
  destruct Hr as (-> & m' & lk' & rw' & ww' & -> & ? & ?). by apply unlock_for_readers_ok.
Qed.

(** ** Joining the readers *)

(** A word that a reader may join, at a phase for which [how] asks for it. *)
Definition takes (how : How) (cur : u32) : Prop :=
  ∀ p n lk rw ww, cur = word p n lk rw ww → phase_range p → count_range n →
    joinable n lk rw ww ∧ how p = LNRead.

Lemma shall_read_takes how cur : shall_read how cur = true → takes how cur.
Proof using.
  intros [Hhow%bool_decide_eq_true Hl]%andb_prop p n lk rw ww -> Hp Hn.
  rewrite truncate_word in Hhow by done. rewrite fx_read_lockable in Hl by done.
  split; [|done]. unfold joinable, count_range in *.
  destruct (Z.eqb_spec (n `mod` 2 ^ 20) (2 ^ 20 - 1)), (Z.eqb_spec n 0), lk, rw, ww;
    simpl in Hl; try done; split; try done; by (left; lia) || right.
Qed.

Lemma join_becomes p n lk rw ww wr wm d f b :
  joinable n lk rw ww → phase_range p → count_range n →
  account c p n lk rw ww wr wm d (ftok_if b ⋅ f) →
  becomes c (wrap 32 (word p n lk rw ww + READER_UNITY)) p d wr wm pcm_unit (ftok_r p d) f ∧ R c p d.
Proof using.
  intros Hj Hp Hn Ha%account_forget. destruct (account_read _ _ _ _ _ _ _ _ _ _ Hj Ha) as [Ha' HR].
  split; [|done]. destruct (fx_add_reader p n lk rw ww Hp Hn) as [-> _]; [apply Hj|].
  by exists p, (n + 1), lk, rw, ww.
Qed.

(** The compare-exchange that takes a read lock. *)
Lemma fx_take_read {A} weak cur how b (k : result Z Z → prog U A) Q Qp :
  takes how cur →
  (∀ h, raw_post how (LRRead (read_lock_new fx cur)) h → ok inv (k (Ok cur)) h Q Qp) →
  (∀ v h, observed v h → ok inv (k (Err v)) h Q Qp) →
  ok inv (Vis (CompareExchange weak l cur (wrap 32 (cur + READER_UNITY))) k) (ftok_if b) Q Qp.
Proof using Hfx.
  intros Ht Hyes Hno. apply cas_obs; [|done].
  intros p n lk rw ww wr wm d f Hp Hn Ha ->. destruct (Ht _ _ _ _ _ eq_refl Hp Hn) as [Hj Hhow].
  destruct (join_becomes _ _ _ _ _ _ _ _ _ false Hj Hp Hn Ha) as [Hb HR].
  exists (ftok_r p d). split; [done|]. apply Hyes. exists p, d.
  unfold read_lock_new, read_lock_is. by rewrite truncate_word.
Qed.

(** The one that takes the write lock of a word that nobody holds. *)
Lemma fx_take_write {A} weak p how b (k : result Z Z → prog U A) Q Qp :
  phase_range p → how p = LNWrite →
  (∀ h, raw_post how (LRWrite (LockC fx p p)) h →
     ok inv (k (Ok (word p 0 false false false))) h Q Qp) →
  (∀ v h, observed v h → ok inv (k (Err v)) h Q Qp) →
  ok inv (Vis (CompareExchange weak l (word p 0 false false false) (word p 0 true false false)) k)
    (ftok_if b) Q Qp.
Proof using Hfx.
  intros Hp Hhow Hyes Hno. apply cas_obs; [|done].
  intros q n lk rw ww wr wm d f Hq Hn Ha Hcur.
  apply word_inj in Hcur as (<- & <- & <- & <- & <-); [|auto with word..].
  rewrite (left_id_L pcm_unit pcm_op) in Ha.
  destruct (account_acquire_write _ _ _ _ _ _ Ha) as [Ha' HR].
  exists (ftok_w p d). split; [by exists p, 0, true, false, false|]. apply Hyes. by exists p, d.
Qed.

Definition read_post (how : How) (r : result ReadLock u32) (h : ftokens D) : Prop :=
  match r with Ok rl => raw_post how (LRRead rl) h | Err cur => observed cur h end.

Lemma read_lock_ok how cur b :
  takes how cur → ok inv (read_lock fuel fx (shall_read how) cur) (ftok_if b) (read_post how) (λ _, False).
Proof using Hfx.
  unfold read_lock. generalize SpinWait.new as sw. generalize fuel as n. intros n.
  revert cur b. induction n as [|n IH]; intros cur b sw Ht; [done|]. cbn [read_lock_loop].
  rewrite do_op_bind. apply (fx_take_read _ _ how); [done|by intros; apply ok_ret|].
  intros v h (p & m & lk & rw & ww & _ & _ & _ & ->). unfold spin_no_yield. rewrite do_op_bind.
  apply load_obs. intros v' h' Hv. destruct (shall_read how v') eqn:E; cbn [negb]; [|by apply ok_ret].
  destruct Hv as (p' & m' & lk' & rw' & ww' & _ & _ & _ & ->).
  by apply IH, shall_read_takes.
Qed.

Lemma optimistic_lock_ok how hint :
  phase_range hint →
  ok inv (optimistic_lock fx how hint) pcm_unit
    (λ r g, match r with Ok r => raw_post how r g | Err cur => observed cur g end) (λ _, False).
Proof using Hfx.
  intros Hh. change (pcm_unit : ftokens D) with (ftok_if false : ftokens D).
  unfold optimistic_lock. destruct (how hint) eqn:E; rewrite do_op_bind.
  - apply (fx_take_read _ _ how); [|by intros; apply ok_ret..].
    intros p n lk rw ww Hcur Hp Hn. rewrite (phase_word hint) in Hcur.
    apply word_inj in Hcur as (<- & <- & <- & <- & <-); [|auto with word..].
    split; [|done]. split; [done|by right].
  - unfold lock_new. rewrite truncate_phase, phase_lor_locked by done. rewrite (phase_word hint) at 1.
    apply (fx_take_write _ _ how); [done|done|by intros; apply ok_ret..].
  - apply load_obs. intros v h (p & n & lk & rw & ww & -> & Hp & Hn & ->).
    rewrite truncate_word by done.
    destruct (how p) eqn:Ep; apply ok_ret; by auto.
Qed.

(** Opens an observation. *)
Ltac open_obs H p n lk rw ww Hp Hn := destruct H as (p & n & lk & rw & ww & -> & Hp & Hn & ->).

Lemma read_lockable_takes how cur :
  how (from_bits_truncate cur) = LNRead → is_read_lockable cur = true → takes how cur.
Proof using. intros Hhow Hl. apply shall_read_takes. unfold shall_read. by rewrite bool_decide_true, Hl. Qed.

(** A write-lockable word without readers is one that nobody holds. *)
Lemma write_lockable_free p n lk rw ww :
  phase_range p → count_range n →
  is_write_lockable (word p n lk rw ww) = true → has_no_readers (word p n lk rw ww) = true →
  n = 0 ∧ lk = false ∧ rw = false ∧ ww = false.
Proof using.
  intros Hp Hn. rewrite fx_write_lockable, fx_no_readers by done.
  intros H ->%Z.eqb_eq. by destruct lk, rw, ww.
Qed.

Lemma fx_try_read_loop_ok n how cur g :
  observed cur g → how (from_bits_truncate cur) = LNRead →
  ok inv (try_read_loop n fx how cur) g
    (λ r g, match r with Some rl => raw_post how (LRRead rl) g | None => ∃ cur, observed cur g end)
    (λ _, False).
Proof using Hfx.
  revert cur g. induction n as [|n IH]; intros cur g Hobs Hhow; [done|]. cbn [try_read_loop].
  destruct (is_read_lockable cur) eqn:Hl; cbn [negb]; [|apply ok_ret; eauto].
  pose proof (read_lockable_takes _ _ Hhow Hl) as Ht. destruct Hobs as (? & ? & ? & ? & ? & _ & _ & _ & ->).
  rewrite do_op_bind. apply (fx_take_read _ _ how); [done|by intros; apply ok_ret|].
  intros v h Hv. case_bool_decide; cbn [negb]; [by apply IH|apply ok_ret; eauto].
Qed.

(** The attempt to take a word that was observed to be free. *)
Lemma attempt_free_write {A} weak p n lk rw ww how b (k : result Z Z → prog U A) Q Qp :
  phase_range p → count_range n → how p = LNWrite →
  is_write_lockable (word p n lk rw ww) && has_no_readers (word p n lk rw ww) = true →
  (∀ h, raw_post how (LRWrite (lock_new fx (word p n lk rw ww))) h → ok inv (k (Ok (word p n lk rw ww))) h Q Qp) →
  (∀ v h, observed v h → ok inv (k (Err v)) h Q Qp) →
  ok inv (Vis (CompareExchange weak l (word p n lk rw ww) (Z.lor (word p n lk rw ww) LOCKED_BIT)) k)
    (ftok_if b) Q Qp.
Proof using Hfx.
  intros Hp Hn Hhow [Hl Hr]%andb_prop Hyes Hno.
  destruct (write_lockable_free _ _ _ _ _ Hp Hn Hl Hr) as (-> & -> & -> & ->).
  rewrite word_lor_locked by done. apply (fx_take_write _ _ how); [done|done| |done].
  intros h Hh. apply Hyes. unfold lock_new. by rewrite truncate_word.
Qed.

Lemma fx_try_raw_lock_ok how hint :
  phase_range hint →
  ok inv (try_raw_lock fuel fx how hint) pcm_unit
    (λ r g, match r with Some r => raw_post how r g | None => ∃ cur, observed cur g end) (λ _, False).
Proof using Hfx.
  intros Hh. apply ok_bind. eapply ok_mono; [by apply optimistic_lock_ok|cbv beta|done].
  intros [r|cur] g Hr; [by apply ok_ret|]. pose proof Hr as Hobs. open_obs Hr p n lk rw ww Hp Hn.
  cbv zeta. destruct (how _) eqn:Hhow.
  - apply ok_bind. eapply ok_mono; [by apply fx_try_read_loop_ok|cbv beta|done].
    by intros [rl|] h Hr; apply ok_ret.
  - rewrite truncate_word in Hhow by done. destruct (_ && _) eqn:Hl; [|apply ok_ret; eauto].
    rewrite do_op_bind. apply (attempt_free_write _ _ _ _ _ _ how); [done|done|done|done| |].
    + intros h Hr. by apply ok_ret.
    + intros v h Hv. apply ok_ret. eauto.
  - rewrite truncate_word in * by done. by apply ok_ret.
Qed.

(** ** The slow path *)

(** How an iteration goes on: with a result or from another observation. *)
Definition attempt_post (how wake : How) (a : attempt) (h : ftokens D) : Prop :=
  match a with
  | Done (LRNone p) => h = ftok_if (pub c p) ∧ phase_range p ∧ (how p = LNNone ∨ wake p = LNNone)
  | Done r => raw_post how r h
  | Continue cur _ | WaitFrom cur _ => observed cur h
  end.

Definition slow_post (how wake : How) (r : LockResult ReadLock Lock) (h : ftokens D) : Prop :=
  attempt_post how wake (Done r) h.

Lemma raw_post_slow how wake r h : raw_post how r h → slow_post how wake r h.
Proof using.
  intros H. destruct r; [exact H|exact H|]. destruct H as (? & ? & ?). split_and!; auto.
Qed.

Lemma done_post how wake r h : raw_post how r h → attempt_post how wake (Done r) h.
Proof using. apply raw_post_slow. Qed.

Lemma attempt_write_ok how wake cur sw g :
  observed cur g → how (from_bits_truncate cur) = LNWrite →
  ok inv (attempt_write fuel fx cur sw) g (attempt_post how wake) (λ _, False).
Proof using Hfx.
  intros Hobs Hhow.
  assert (∀ v h, observed v h → ok inv (let '(b, _, spun) := spin sw in
      if negb (has_bit v WRITE_WAITER_BIT) && b then
        cur ← do_op (Load (fx_futex fx)); Ret (Continue cur spun)
      else Ret (WaitFrom v (if negb (has_bit v WRITE_WAITER_BIT) then spun else sw)))
    h (attempt_post how wake) (λ _, False)) as Hwait.
  { intros v h Hv. destruct (spin sw) as [[b _] sw']. destruct (_ && _); [|by apply ok_ret].
    open_obs Hv p n lk rw ww Hp Hn. rewrite do_op_bind. apply load_obs. intros. by apply ok_ret. }
  unfold attempt_write. cbv zeta. destruct (is_write_lockable cur) eqn:Hl; [|by apply Hwait].
  open_obs Hobs p n lk rw ww Hp Hn. rewrite truncate_word in Hhow by done.
  destruct (has_no_readers _) eqn:Hr.
  - rewrite do_op_bind. apply (attempt_free_write _ _ _ _ _ _ how); [done|done|done|..].
    + by rewrite Hl, Hr.
    + intros h Hh. by apply ok_ret, done_post.
    + intros v h Hv. by apply ok_ret.
  - rewrite fx_no_readers in Hr by done. rewrite fx_write_lockable, Hr in Hl by done.
    apply Z.eqb_neq in Hr. rewrite andb_true_r, negb_true_iff in Hl. subst lk.
    assert (0 < n) as Hpos by (unfold count_range in *; lia).
    rewrite word_lor_locked, do_op_bind by done. apply cas_obs.
    + intros q m lk rw' ww' wr wm d f Hq Hm Ha Hcur.
      apply word_inj in Hcur as (<- & <- & <- & <- & <-); [|done..].
      rewrite (left_id_L pcm_unit pcm_op) in Ha. exists (ftok_pending p). split.
      { exists p, n, true, rw, ww. split_and!; try done. by apply account_pending. }
      apply ok_bind. rewrite word_lor_locked by done.
      eapply ok_mono; [by apply wait_for_readers_ok|cbv beta|done].
      intros [lk|cur] h Hh; [|by apply Hwait]. apply ok_ret, done_post.
      destruct Hh as (e & -> & HR & Hlk). by exists p, e.
    + intros v h Hv. by apply ok_ret.
Qed.

Lemma attempt_read_ok how wake cur sw g :
  observed cur g → how (from_bits_truncate cur) = LNRead →
  ok inv (attempt_read fuel fx how cur sw) g (attempt_post how wake) (λ _, False).
Proof using Hfx.
  intros Hobs Hhow. unfold attempt_read. apply ok_bind.
  apply (ok_mono _ _ _ (read_post how) _ (λ _, False) _); [|cbv beta|done].
  - destruct (is_read_lockable cur) eqn:Hl; [|by apply ok_ret].
    pose proof (read_lockable_takes _ _ Hhow Hl) as Ht. open_obs Hobs p n lk rw ww Hp Hn.
    by apply read_lock_ok.
  - intros [rl|v] h Hh; [by apply ok_ret, done_post|].
    destruct (spin sw) as [[b _] sw']. destruct (_ && _); [|by apply ok_ret].
    open_obs Hh p n lk rw ww Hp Hn. rewrite do_op_bind. apply load_obs. intros. by apply ok_ret.
Qed.

Lemma announce_ok cur bit g :
  bit = READ_WAITER_BIT ∨ bit = WRITE_WAITER_BIT → observed cur g →
  ok inv (announce fx cur bit) g
    (λ r h, match r with Ok v => observed v h | Err v => observed v h end) (λ _, False).
Proof using Hfx.
  intros Hbit Hobs. unfold announce. destruct (has_bit cur bit); cbn [negb]; [by apply ok_ret|].
  open_obs Hobs p n lk rw ww Hp Hn. rewrite do_op_bind. apply cas_obs; [|by intros; apply ok_ret].
  intros q m lk' rw' ww' wr wm d f Hq Hm Ha Hcur.
  apply word_inj in Hcur as (<- & <- & <- & <- & <-); [|done..].
  exists (ftok_if (pub c p)). split.
  - rewrite (left_id_L pcm_unit pcm_op) in Ha. apply account_observe in Ha.
    destruct (set_waiter_becomes bit _ _ _ _ _ _ _ _ _ _ Hbit Hp Hn Ha) as (p' & n' & ? & ? & ? & ? & ? & ? & _ & ?).
    exists p', n'. do 3 eexists. split_and!; try done. by destruct (pub c p).
  - apply ok_ret. destruct Hbit as [-> | ->].
    + rewrite fx_set_read_waiter by done. by apply fx_obs_intro.
    + rewrite fx_set_write_waiter by done. by apply fx_obs_intro.
Qed.

Lemma attempt_wait_ok how wake cur sw g :
  observed cur g →
  ok inv (attempt_wait aborts linux fuel fx how wake cur sw) g (attempt_post how wake) (λ _, False).
Proof using Hfx Haborts.
  intros Hobs.
  assert (∀ b, ok inv (cur ← do_op (Load (fx_futex fx)); Ret (Continue cur (reset sw)))
    (ftok_if b) (attempt_post how wake) (λ _, False)) as Hagain.
  { intros b. rewrite do_op_bind. apply load_obs. intros. by apply ok_ret. }
  assert (∀ (b : bool) cur g, observed cur g →
    ok inv (r ← (if b then wait_as_writer_then_wake_with_lock aborts linux fuel fx cur how
                 else wait_as_reader_then_wake_with_lock aborts linux fuel fx cur how);
            match r with
            | Some lock => Ret (Done lock)
            | None => cur ← do_op (Load (fx_futex fx)); Ret (Continue cur (reset sw))
            end) g (attempt_post how wake) (λ _, False)) as Hwait.
  { intros b v h Hv. open_obs Hv p n lk rw ww Hp Hn. apply ok_bind. destruct b.
    - eapply ok_mono; [eapply forget_rule, wake_with_write_lock_ok|cbv beta|done].
      intros [r|] h Hh; [by apply ok_ret, done_post|]. subst. by apply (Hagain false).
    - eapply ok_mono; [eapply forget_rule, wake_with_read_lock_ok|cbv beta|done].
      intros [r|] h Hh; [by apply ok_ret, done_post|]. destruct Hh as [b ->]. by apply (Hagain b). }
  unfold attempt_wait. destruct (wake (from_bits_truncate cur)) eqn:Hw.
  - apply ok_bind. eapply ok_mono; [apply announce_ok; [by left|done]|cbv beta|done].
    intros [v|v] h Hv; [by apply (Hwait false)|by apply ok_ret].
  - apply ok_bind. eapply ok_mono; [apply announce_ok; [by right|done]|cbv beta|done].
    intros [v|v] h Hv; [by apply (Hwait true)|by apply ok_ret].
  - open_obs Hobs p n lk rw ww Hp Hn. rewrite truncate_word in * by done. apply ok_ret. simpl. auto.
Qed.

Lemma raw_lock_slow_loop_ok n how wake cur sw g :
  observed cur g →
  ok inv (raw_lock_slow_loop aborts linux fuel n fx how wake cur sw) g (slow_post how wake) (λ _, False).
Proof using Hfx Haborts.
  revert cur sw g. induction n as [|n IH]; intros cur sw g Hobs; [done|]. cbn [raw_lock_slow_loop].
  apply ok_bind. apply (ok_mono _ _ _ (attempt_post how wake) _ (λ _, False) _); [|cbv beta|done].
  - destruct (how _) eqn:Hhow; [by apply attempt_read_ok|by apply attempt_write_ok|].
    open_obs Hobs p m lk rw ww Hp Hm. rewrite truncate_word in * by done. apply ok_ret. simpl. auto.
  - intros a h Ha. apply ok_bind.
    apply (ok_mono _ _ _ (attempt_post how wake) _ (λ _, False) _); [|cbv beta|done].
    + destruct a as [r|v sw'|v sw']; [by apply ok_ret..|by apply attempt_wait_ok].
    + clear a h Ha. intros [r|v sw'|v sw'] h Ha; [by apply ok_ret|by apply IH..].
Qed.

Lemma fx_raw_lock_slow_ok how wake b :
  ok inv (raw_lock_slow aborts linux fuel fx how wake) (ftok_if b) (slow_post how wake) (λ _, False).
Proof using Hfx Haborts.
  unfold raw_lock_slow. rewrite do_op_bind. apply load_obs. intros v h Hv. by apply raw_lock_slow_loop_ok.
Qed.

Lemma fx_raw_lock_ok how wake hint :
  phase_range hint →
  ok inv (raw_lock aborts linux fuel fx how wake hint) pcm_unit (slow_post how wake) (λ _, False).
Proof using Hfx Haborts.
  intros Hh. apply ok_bind. eapply ok_mono; [by apply optimistic_lock_ok|cbv beta|done].
  intros [r|cur] g Hr; [by apply ok_ret, raw_post_slow|].
  assert (∀ v h, observed v h →
    ok inv (raw_lock_slow aborts linux fuel fx how wake) h (slow_post how wake) (λ _, False)) as Hslow.
  { intros v h Hv. open_obs Hv p n lk rw ww Hp Hn. apply fx_raw_lock_slow_ok. }
  cbv zeta. destruct (how _) eqn:Hhow.
  - apply ok_bind. apply (ok_mono _ _ _ (read_post how) _ (λ _, False) _); [|cbv beta|done].
    + destruct (is_read_lockable cur) eqn:Hl; [|by apply ok_ret].
      pose proof (read_lockable_takes _ _ Hhow Hl) as Ht. open_obs Hr p n lk rw ww Hp Hn.
      by apply read_lock_ok.
    + intros [rl|v] h Hv; [by apply ok_ret, raw_post_slow|by eapply Hslow].
  - destruct (_ && _) eqn:Hl; [|by eapply Hslow].
    open_obs Hr p n lk rw ww Hp Hn. rewrite truncate_word in Hhow by done.
    rewrite do_op_bind. apply (attempt_free_write _ _ _ _ _ _ how); [done|done|done|done| |].
    + intros h Hv. by apply ok_ret, raw_post_slow.
    + intros v h Hv. by eapply Hslow.
  - open_obs Hr p n lk rw ww Hp Hn. rewrite truncate_word in * by done. by apply ok_ret, raw_post_slow.
Qed.

Lemma futex_phase_ok :
  ok inv (phase fx) pcm_unit (λ p g, g = ftok_if (pub c p) ∧ phase_range p) (λ _, False).
Proof using.
  unfold phase. rewrite do_op_bind. apply (load_obs false). intros v h Hv.
  open_obs Hv p n lk rw ww Hp Hn. apply ok_ret. by rewrite truncate_word.
Qed.

(** ** Cloning a read lock *)

(** What a reader knows of a word that it reads. *)
Definition shared_word (p : Phase) (cur : u32) : Prop :=
  ∃ n lk rw ww, cur = word p n lk rw ww ∧ count_range n ∧ 0 < n.

Lemma load_shared {A} (k : Z → prog U A) i p d Q Qp :
  0 < i → phase_range p →
  (∀ v, shared_word p v → ok inv (k v) (ftok_rs i p d) Q Qp) →
  ok inv (Vis (Load l) k) (ftok_rs i p d) Q Qp.
Proof using.
  intros Hi Hp0 Hk. apply load_keep. intros q n lk rw ww wr wm e f Hp Hn Ha.
  destruct (account_reader _ _ _ _ _ _ _ _ _ _ _ _ _ Hi Ha) as (-> & _ & Hle & _).
  apply Hk. exists n, lk, rw, ww. split_and!; [done|done|lia].
Qed.

Definition clone_post (p : Phase) (d : D) (r : result ReadLock u32) (h : ftokens D) : Prop :=
  match r with
  | Ok rl => h = ftok_r p d ⋅ ftok_r p d ∧ read_lock_is rl p
  | Err cur => h = ftok_r p d ∧ shared_word p cur
  end.

Lemma clone_read_lock_ok n p d cur sw :
  phase_range p → shared_word p cur → has_readers_max cur = false →
  ok inv (read_lock_loop n fx (λ cur, negb (has_readers_max cur)) cur sw) (ftok_r p d)
    (clone_post p d) (λ _, False).
Proof using Hfx.
  intros Hp. revert cur sw. induction n as [|n IH]; intros cur sw Hcur Hmax; [done|].
  cbn [read_lock_loop]. destruct Hcur as (m & lk & rw & ww & -> & Hm & Hpos).
  rewrite fx_readers_max in Hmax by done. apply Z.eqb_neq in Hmax.
  assert (joinable m lk rw ww) as Hj by (split; [done|by left]).
  rewrite do_op_bind. apply cas_rule; [done| |].
  - intros q m' lk' rw' ww' wr wm e f Hq Hm' Ha Hcur.
    apply word_inj in Hcur as (<- & <- & <- & <- & <-); [|done..].
    pose proof (account_reader _ _ _ _ _ _ _ _ _ _ _ _ _ Z.lt_0_1 Ha) as (_ & <- & _).
    destruct (account_read _ _ _ _ _ _ _ _ _ _ Hj Ha) as [Ha' _].
    exists (ftok_r p d ⋅ ftok_r p d). split.
    + destruct (fx_add_reader p m lk rw ww Hp Hm Hmax) as [-> _].
      exists p, (m + 1), lk, rw, ww. split_and!; try done. by rewrite <- (assoc_L pcm_op).
    + apply ok_ret. split; [done|]. unfold read_lock_new, read_lock_is. by rewrite truncate_word.
  - intros q m' lk' rw' ww' wr wm e f Hq Hm' Ha _. exists (ftok_r p d). split_and!; [done|done|].
    unfold spin_no_yield. rewrite do_op_bind. apply load_shared; [done|done|]. intros v Hv.
    destruct (has_readers_max v) eqn:E; cbn [negb]; [by apply ok_ret|]. by apply IH.
Qed.

(** A reader that was given a second share. *)
Lemma load_two_shares {A} (k : Z → prog U A) p d p' d' Q Qp :
  phase_range p → (∀ v, shared_word p v → ok inv (k v) (ftok_r p d ⋅ ftok_r p d) Q Qp) →
  ok inv (Vis (Load l) k) (ftok_r p' d' ⋅ ftok_r p d) Q Qp.
Proof using.
  intros Hp0 Hk. apply load_keep. intros q n lk rw ww wr wm e f Hp Hn Ha.
  pose proof Ha as Ha'. rewrite <- (assoc_L pcm_op) in Ha.
  rewrite (comm_L pcm_op (ftok_r p' d')), <- (assoc_L pcm_op) in Ha'.
  destruct (account_reader _ _ _ _ _ _ _ _ _ _ _ _ _ Z.lt_0_1 Ha) as (-> & -> & Hle & _).
  destruct (account_reader _ _ _ _ _ _ _ _ _ _ _ _ _ Z.lt_0_1 Ha') as (-> & -> & _).
  apply Hk. exists n, lk, rw, ww. split_and!; [done|done|lia].
Qed.

Lemma clone_loop_ok n p d cur sw :
  phase_range p → shared_word p cur →
  ok inv (read_lock_clone_loop aborts fuel n (ReadLockC fx p) sw cur) (ftok_r p d)
    (λ r h, h = ftok_r p d ⋅ ftok_r p d ∧ read_lock_is r p) (λ _, False).
Proof using Hfx.
  intros Hp. revert cur sw. induction n as [|n IH]; intros cur sw Hcur; [done|].
  cbn [read_lock_clone_loop rl_futex]. apply ok_bind.
  apply (ok_mono _ _ _ (clone_post p d) _ (λ _, False) _); [|cbv beta|done].
  { destruct (has_readers_max cur) eqn:E; cbn [negb]; [by apply ok_ret|]. by apply clone_read_lock_ok. }
  clear cur Hcur. intros [rl|cur] h Hh; [by apply ok_ret|]. destruct Hh as [-> Hcur].
  destruct (spin sw) as [[b _] spun]. destruct (_ && b).
  { rewrite do_op_bind. apply load_shared; [done|done|]. intros v Hv. by apply IH. }
  set (sw' := if negb _ then spun else sw). clearbody sw'.
  apply ok_bind.
  apply (ok_mono _ _ _ (λ r h, h = ftok_r p d ∧ match r with Ok _ => True | Err v => shared_word p v end)
    _ (λ _, False) _); [|cbv beta|done].
  - destruct (has_bit cur READ_WAITER_BIT); cbn [negb]; [by apply ok_ret|].
    apply cas_rule; [done| |].
    + intros q m lk rw ww wr wm e f Hq Hm Ha ->. exists (ftok_r p d).
      split; [by apply set_waiter_becomes; [left|..]|by apply ok_ret].
    + intros q m lk rw ww wr wm e f Hq Hm Ha _. exists (ftok_r p d). split_and!; [done|done|].
      apply ok_ret. split; [done|].
      destruct (account_reader _ _ _ _ _ _ _ _ _ _ _ _ _ Z.lt_0_1 Ha) as (-> & _ & Hle & _).
      exists m, lk, rw, ww. split_and!; [done|done|lia].
  - intros [x|x] h [-> Hx]; [|by apply IH].
    rewrite <- (left_id_L pcm_unit pcm_op (ftok_r p d)) at 1. apply ok_bind, ok_frame.
    eapply ok_mono; [apply wait_as_reader_ok|cbv beta|done].
    intros [|] h Hw.
    + destruct Hw as (p' & d' & Hp' & HR & ->). unfold handed. rewrite decide_True by done.
      rewrite do_op_bind. apply load_two_shares; [done|].
      intros v (m & lk & rw & ww & -> & Hm & Hpos). apply assert_true.
      { rewrite fx_readers by done. destruct (Z.eqb_spec m 0); [lia|done]. }
      apply ok_ret. split; [done|]. unfold read_lock_new, read_lock_is. by rewrite truncate_word.
    + cbn [waited] in Hw. subst h. rewrite (left_id_L pcm_unit pcm_op), do_op_bind.
      apply load_shared; [done|done|]. intros v Hv. by apply IH.
Qed.

Lemma read_clone_ok rl p d :
  read_lock_is rl p →
  ok inv (read_lock_clone aborts fuel rl) (ftok_r p d)
    (λ r h, h = ftok_r p d ⋅ ftok_r p d ∧ read_lock_is r p) (λ _, False).
Proof using Hfx.
  intros (-> & Hp). unfold read_lock_clone. cbn [rl_futex]. rewrite do_op_bind.
  apply load_shared; [done|done|]. intros v Hv. by apply clone_loop_ok.
Qed.

(** ** The instance of the contract *)

Definition futex_wg_is {T} (g : SyncPhaseGuard T) (t : T) (p q : Phase) : Prop :=
  sg_target g = t ∧ lock_is (sg_lock g) p q.
Definition futex_rg_is {T} (g : SyncReadPhaseGuard T) (t : T) (p : Phase) : Prop :=
  sr_target g = t ∧ read_lock_is (sr_lock g) p.

Lemma guard_post {T} (t : T) how wake r g :
  slow_post how wake r g →
  match guard_result t r with
  | LRRead rg => ∃ p d, g = ftok_r p d ∧ R c p d ∧ futex_rg_is rg t p ∧ how p = LNRead
  | LRWrite wg => ∃ p d, g = ftok_w p d ∧ R c p d ∧ futex_wg_is wg t p p ∧ how p = LNWrite
  | LRNone p => g = ftok_if (pub c p) ∧ phase_range p ∧ (how p = LNNone ∨ wake p = LNNone)
  end.
Proof using.
  destruct r as [rl|lk|p]; cbn; [..|done]; intros (p & d & -> & ? & ? & ?); by exists p, d.
Qed.

Lemma guard_try_post {T} (t : T) how r g :
  raw_post how r g →
  match guard_result t r with
  | LRRead rg => ∃ p d, g = ftok_r p d ∧ R c p d ∧ futex_rg_is rg t p ∧ how p = LNRead
  | LRWrite wg => ∃ p d, g = ftok_w p d ∧ R c p d ∧ futex_wg_is wg t p p ∧ how p = LNWrite
  | LRNone p => g = ftok_if (pub c p) ∧ phase_range p ∧ how p = LNNone
  end.
Proof using.
  destruct r as [rl|lk|p]; cbn; [..|done]; intros (p & d & -> & ? & ? & ?); by exists p, d.
Qed.

Definition futex_spec :
  PhaseLockerSpec (G := ftokens D) (futex_locker (U := U) aborts linux fuel) c fx.
Proof using Hfx Haborts.
  refine (@Build_PhaseLockerSpec _ _ (futex_locker aborts linux fuel) _ _ _ c fx
    (finv c fx) ftok_w ftok_r ftok_pub (@futex_wg_is) (@futex_rg_is) false true
    _ _ _ _ _ _ _ _ _ _ _ _ _ _ _ _ _ _ _ _ _).
  - intros T t how wake hint Hh. apply ok_bind.
    eapply ok_mono; [by apply fx_raw_lock_ok|cbv beta|done].
    intros r g H%(guard_post t). apply ok_ret. by destruct (guard_result t r).
  - intros T t how hint Hh. apply ok_bind.
    eapply ok_mono; [by apply fx_try_raw_lock_ok|cbv beta|done].
    intros [r|] g H; apply ok_ret; [exact (guard_try_post t how r g H)|].
    destruct H as (cur & p & n & lk & rw & ww & _ & _ & _ & ->). right. by exists p.
  - apply futex_phase_ok.
  - by intros T g t p q (? & _).
  - by intros T [t lk] t' p q (Ht & Hl & ? & ?); simpl in *; subst.
  - by intros T [t lk] t' p q q' (Ht & Hl & ? & ?) ?; simpl in *; subst.
  - by intros T S [t lk] f t' p q (Ht & ?); simpl in *; subst.
  - intros T g t p q d (_ & Hg). by apply lock_drop_ok.
  - intros T g t p q d (Ht & Hg) Hm. apply ok_bind.
    eapply ok_mono; [by eapply read_lock_from_ok|cbv beta|done].
    intros r h [-> Hr]. by apply ok_ret.
  - by intros T g t p (? & _).
  - by intros T [t rl] t' p d (Ht & Hl & ?); simpl in *; subst.
  - by intros T S [t rl] f t' p (Ht & ?); simpl in *; subst.
  - intros T g t p d (_ & Hg). by apply read_drop_ok.
  - intros T g t p d _ (Ht & Hg). apply ok_bind.
    eapply ok_mono; [by apply read_clone_ok|cbv beta|done].
    intros r h [-> Hr]. by apply ok_ret.
  - intros T f p d _. apply fx_write_ok.
  - intros T f p d _. apply fx_read_ok.
  - intros T f _. apply fx_step_ok.
  - intros T f _. apply fx_pub_ok.
  - intros T f learns. apply fx_observe_ok.
  - intros s g. apply fx_inv_K.
  - done.
Defined.

(** Locking the mutex always yields its write lock. *)
Lemma futex_mutex_ok :
  ok inv (mutex_lock aborts linux fuel fx) pcm_unit
    (λ lk g, ∃ p d, g = ftok_w p d ∧ R c p d ∧ lock_is lk p p) (λ _, False).
Proof using Hfx Haborts.
  apply ok_bind. eapply ok_mono; [apply fx_raw_lock_ok; auto with phase|cbv beta|done].
  intros [rl|lk|p] g; cbn.
  - by intros (? & ? & ? & ? & ? & ?).
  - intros (p & d & ? & ? & ? & _). by exists p, d.
  - by intros (? & ? & [?|?]).
Qed.
End safety.

(** ** Properties *)

(** The three named assertions of the locker stop a thread that fails them. *)
Definition may_abort (a : assertion) : bool := match a with Other => false | _ => true end.
Lemma may_abort_named a : a ≠ Other → may_abort a = true.
Proof. by destruct a. Qed.

(** C2: fewer than 2^32 threads take, try, write through, downgrade, clone and drop
    the guards of one futex locker, as their scripts say, and are parked and woken as
    the system likes, within what its calls are documented to do. No schedule makes
    an assertion of a client fail: a write guard excludes all others, the data and
    the phase under a guard do not change behind it, a lock has the nature that was
    asked for the phase it was taken at. Nor does an assertion of the locker fail,
    those on the count of waiting writers included, but for the one of [wake_readers]
    on a writer that turns into a reader, which does fail
    ([FutexBug.conversion_panics]): the source panics there, and a thread that fails
    it is taken to do nothing more, which [Stops ReadersConverted] records. *)
Theorem futex_clients_safe {KN : Kernel} {BF : Bitflags} (fx : Futex) linux fuel scripts p
    (s : state Z) ps s' :
  futex_cells fx → no_writer_waits fx s → phase_range p → rd s (fx_futex fx) = new p →
  (∀ t k, queue (mem s) !! t = Some k → pk_addr k ≠ fx_futex fx) →
  Z.of_nat (length scripts) < 2 ^ 32 → Forall (Forall (cmd_ok true)) scripts →
  reachable ((λ script, client (ops := futex_locker may_abort linux fuel) false fx script []) <$> scripts) s ps s' →
  no_panic ps ∧ stops_at_conversions ps.
Proof.
  intros Hfx [Hfair Hcount] Hp Hrd Hq Hlen Hs Hreach. split.
  - apply (clients_ok (spec := futex_spec free_contract fx Hfx may_abort may_abort_named linux fuel) false
      ltac:(done) scripts s ps s' Hs); [by eapply fx_inv_new|done].
  - eapply (seated_reachable_fmap (fx_writer_count fx)); [|exact Hlen|exact Hcount|exact Hreach]. intros script.
    apply (client_seated _ _ (SL := futex_seated (U := Z) fx Hfx Hfair may_abort eq_refl linux fuel)). constructor.
Qed.

(** C16: the lock word stays well formed. In every state that the clients reach it
    is a phase, a count of readers within its 21 bits, the locked bit and the
    waiter bits; a thread that has been woken has been counted: each reader of
    the queue that is woken is among the readers of the word, and at most one
    writer is woken, for whom the word is locked and without readers. A thread that
    fails one of the three named assertions is taken to do nothing more. *)
Theorem futex_word_typed {KN : Kernel} {BF : Bitflags} (fx : Futex) (aborts : assertion → bool)
    linux fuel scripts p (s : state Z) ps s' :
  futex_cells fx → (∀ a, a ≠ Other → aborts a = true) →
  phase_range p → rd s (fx_futex fx) = new p →
  (∀ t k, queue (mem s) !! t = Some k → pk_addr k ≠ fx_futex fx) →
  Forall (Forall (cmd_ok true)) scripts →
  reachable ((λ script, client (ops := futex_locker aborts linux fuel) false fx script []) <$> scripts) s ps s' →
  ∃ q n lk rw ww,
    rd s' (fx_futex fx) = word q n lk rw ww ∧ phase_range q ∧ count_range n ∧
    woken_count (fx_futex fx) READER_BIT (queue (mem s')) <= n ∧
    (woken_count (fx_futex fx) WRITER_BIT (queue (mem s')) = 0 ∨
     woken_count (fx_futex fx) WRITER_BIT (queue (mem s')) = 1 ∧ lk = true ∧ n = 0).
Proof.
  intros Hfx Ha Hp Hrd Hq Hs Hreach.
  destruct (clients_inv (spec := futex_spec free_contract fx Hfx aborts Ha linux fuel) false
    ltac:(done) scripts s ps s' Hs) as [(g & q & n & lk & rw & ww & Hw & Hq' & _ & Hacc & _) _];
    [by eapply fx_inv_new|done|].
  exists q, n, lk, rw, ww. destruct Hacc as [? ? ? Hrole Hconv (j & ? & ? & ->)].
  split_and!; try done.
  - destruct (g.2.2.1); simpl; lia.
  - destruct (g.2.1) as [|[| |]|]; simpl in Hrole; intuition auto.
Qed.

(** Two writers and a reader. The second and the third thread are parked while the
    first has the lock; it turns its lock into a read lock, and then drops it. *)
Definition demo_scripts : list (list cmd) :=
  [[CLock (λ _, LNWrite) (λ _, LNWrite) 0; CWrite 0 3; CSetPhase 0 1; CDowngrade 0; CClone 0; CDrop 0; CDrop 0];
   [CLock (λ _, LNRead) (λ _, LNRead) 0; CCheck 0; CDrop 0];
   [CLock (λ _, LNWrite) (λ _, LNWrite) 0; CDrop 0]].
Definition demo_pool (linux : bool) : list (prog Z unit) :=
  (λ script, client (ops := @futex_locker kernel_1 bitflags_1 Z may_abort linux 20) false (FutexC 2 3 4) script [])
    <$> demo_scripts.

Definition demo_schedule : list nat :=
  (replicate 2 0 ++ replicate 14 1 ++ replicate 15 2 ++ replicate 10 0 ++ replicate 9 1 ++ replicate 5 2)%nat.
Definition demo_test (ps : list (prog Z unit)) (s : state Z) : bool :=
  all_returned ps && (rd s 2 =? word 1 0 false false false) && (rd s 3 =? 0) && (usr s =? 3).

Lemma futex_clients_safe_witness :
  ∃ ps s', reachable (demo_pool true) (State ∅ 9) ps s' ∧ demo_test ps s' = true ∧
    no_panic ps ∧ stops_at_conversions ps.
Proof.
  destruct (exec_reaches demo_schedule (demo_pool true) (State ∅ 9) demo_test) as (ps & s' & Hreach & Htest);
    [by vm_compute|].
  exists ps, s'. split; [exact Hreach|]. split; [exact Htest|].
  apply (@futex_clients_safe kernel_1 bitflags_1 (FutexC 2 3 4) true 20 demo_scripts 0 (State ∅ 9) ps s');
    [by split|by split|unfold phase_range; lia|reflexivity| |by vm_compute| |exact Hreach].
  - intros t k Hk. vm_compute in Hk. done.
  - repeat constructor; unfold phase_range; lia.
Defined.

Lemma futex_word_typed_witness :
  ∃ q n lk rw ww,
    rd (State ∅ 9) 2 = word q n lk rw ww ∧ phase_range q ∧ count_range n ∧
    woken_count 2 READER_BIT (@queue kernel_1 ∅) <= n ∧
    (woken_count 2 WRITER_BIT (@queue kernel_1 ∅) = 0 ∨
     woken_count 2 WRITER_BIT (@queue kernel_1 ∅) = 1 ∧ lk = true ∧ n = 0).
Proof.
  eapply (@futex_word_typed kernel_1 bitflags_1 (FutexC 2 3 4) may_abort true 9
    [[CLock (λ _, LNWrite) (λ _, LNWrite) 0; CDrop 0]] 0 (State ∅ 9));
    [by split|by intros [] ?|unfold phase_range; lia|reflexivity| | |apply rtc_refl].
  - intros t k Hk. vm_compute in Hk. done.
  - repeat constructor; unfold phase_range; lia.
Defined.
