(* ===== verification/LockStats.v ===== *)
(** * The lock statistics (src/phase_locker/sync.rs)

    With the feature [lock_statistics] the futex locker counts how its locks were
    obtained. The file has the functions of [FutexLocker] that count, what they
    count, and that the locker keeps its contract. *)

From stdpp Require Import base list option numbers gmap.
From S2P Require Import Prelude Word Phase Atomics SpinWait Locker Tickets Tokens Clients Futex FutexLocker FutexInv FutexRules FutexSafety.
Open Scope Z_scope.

(** ** The counters *)

Inductive counter :=
| OPTIMISTIC_FAILURES
| SECOND_ATTEMPT_FAILURES
| WRITE_LOCK_WHILE_READER_FAILURES
| WRITE_WAIT_FAILURES
| WRITE_WAIT_SUCCESSES
| READ_WAIT_FAILURES
| READ_WAIT_SUCCESSES
| ADDAPTATIVE_WAIT_SUCCESSES
| LATE_ADDAPTATIONS.
#[export] Instance counter_eq_dec : EqDecision counter.
Proof. solve_decision. Defined.

Record LockStatistics := LockStatisticsC {
  optimistic_failures : Z;
  second_attempt_failures : Z;
  write_lock_while_reader_failures : Z;
  write_wait_failures : Z;
  write_wait_successes : Z;
  read_wait_failures : Z;
  read_wait_successes : Z;
  addaptative_wait_successes : Z;
  late_addaptations : Z;
}.

(** The counters are statics, beside the state of the program. *)
Class Statistics (U : Type) := {
  counted_by : U → counter → Z;
  set_counter : counter → Z → U → U;
}.

Section locker.
Context {KN : Kernel} {BF : Bitflags} {U : Type} {ST : Statistics U}.

(** [c.fetch_add(1)] on a [usize], and [c.swap(0)]. *)
Definition counting (c : counter) (u : U) : unit * U := (tt, set_counter c (wrap 64 (counted_by u c + 1)) u).
Definition count (c : counter) : prog U unit := do_op (Usr (counting c)).
Definition swap_zero (c : counter) : prog U Z := do_op (Usr (λ u, (counted_by u c, set_counter c 0 u))).

Definition get_and_reset : prog U LockStatistics :=
  optimistic_failures ← swap_zero OPTIMISTIC_FAILURES;
  second_attempt_failures ← swap_zero SECOND_ATTEMPT_FAILURES;
  write_lock_while_reader_failures ← swap_zero WRITE_LOCK_WHILE_READER_FAILURES;
  write_wait_failures ← swap_zero WRITE_WAIT_FAILURES;
  write_wait_successes ← swap_zero WRITE_WAIT_SUCCESSES;
  read_wait_failures ← swap_zero READ_WAIT_FAILURES;
  read_wait_successes ← swap_zero READ_WAIT_SUCCESSES;
  addaptative_wait_successes ← swap_zero ADDAPTATIVE_WAIT_SUCCESSES;
  late_addaptations ← swap_zero LATE_ADDAPTATIONS;
  Ret (LockStatisticsC optimistic_failures second_attempt_failures write_lock_while_reader_failures
         write_wait_failures write_wait_successes read_wait_failures read_wait_successes
         addaptative_wait_successes late_addaptations).

(** ** The functions that count *)

Context (aborts : assertion → bool) (linux : bool) (fuel : nat).

Definition counting_try_raw_lock (self : SyncPhaseLocker) (how : How) (hint : Phase)
    : prog U (option (LockResult ReadLock Lock)) :=
  r ← optimistic_lock self how hint;
  match r with
  | Ok x => Ret (Some x)
  | Err cur =>
      count OPTIMISTIC_FAILURES;;
      let p := from_bits_truncate cur in
      let failed := count SECOND_ATTEMPT_FAILURES;; Ret None in
      match how p with
      | LNWrite =>
          if is_write_lockable cur && has_no_readers cur then
            r ← do_op (CompareExchange false (fx_futex self) cur (Z.lor cur LOCKED_BIT));
            match r with
            | Ok _ => Ret (Some (LRWrite (lock_new self cur)))
            | Err _ => failed
            end
          else failed
      | LNRead =>
          r ← try_read_loop fuel self how cur;
          match r with
          | Some l => Ret (Some (LRRead l))
          | None => failed
          end
      | LNNone => Ret (Some (LRNone p))
      end
  end.

Definition counting_wait_as_writer (futex : Futex) (cur : u32) (how : How)
    : prog U (option (LockResult ReadLock Lock)) :=
  woken ← compare_and_wait_as_writer aborts fuel futex cur;
  if woken : bool then
    cur ← do_op (Load (fx_futex futex));
    assert_at aborts Other (has_bit cur LOCKED_BIT);;
    let lock := lock_new futex cur in
    match how (from_bits_truncate cur) with
    | LNWrite => Ret (Some (LRWrite lock))
    | LNRead =>
        count LATE_ADDAPTATIONS;;
        r ← into_read_lock aborts linux fuel lock (from_bits_truncate cur); Ret (Some (LRRead r))
    | LNNone =>
        count LATE_ADDAPTATIONS;;
        lock_drop aborts linux fuel lock;; Ret (Some (LRNone (from_bits_truncate cur)))
    end
  else Ret None.

Definition counting_wait_as_reader (futex : Futex) (cur : u32) (how : How)
    : prog U (option (LockResult ReadLock Lock)) :=
  woken ← compare_and_wait_as_reader fuel futex cur;
  if woken : bool then
    cur ← do_op (Load (fx_futex futex));
    assert_at aborts Other (has_readers cur);;
    let lock := read_lock_new futex cur in
    match how (from_bits_truncate cur) with
    | LNRead => Ret (Some (LRRead lock))
    | LNNone =>
        count LATE_ADDAPTATIONS;;
        read_lock_drop aborts linux fuel lock;; Ret (Some (LRNone (from_bits_truncate cur)))
    | LNWrite => read_lock_drop aborts linux fuel lock;; Ret None
    end
  else Ret None.

Definition counting_attempt_write (self : SyncPhaseLocker) (cur : u32) (spin_wait : SpinWait) : prog U attempt :=
  let spin_or_wait cur :=
    let '(b, _, spun) := spin spin_wait in
    if negb (has_bit cur WRITE_WAITER_BIT) && b then
      cur ← do_op (Load (fx_futex self));
      Ret (Continue cur spun)
    else
      Ret (WaitFrom cur (if negb (has_bit cur WRITE_WAITER_BIT) then spun else spin_wait)) in
  if is_write_lockable cur then
    if has_no_readers cur then
      r ← do_op (CompareExchange true (fx_futex self) cur (Z.lor cur LOCKED_BIT));
      match r with
      | Ok _ => Ret (Done (LRWrite (lock_new self cur)))
      | Err x => Ret (Continue x spin_wait)
      end
    else
      r ← do_op (CompareExchange true (fx_futex self) cur (Z.lor cur LOCKED_BIT));
      match r with
      | Ok x =>
          r ← wait_for_readers fuel self (Z.lor x LOCKED_BIT);
          match r with
          | Ok l => Ret (Done (LRWrite l))
          | Err cur => count WRITE_LOCK_WHILE_READER_FAILURES;; spin_or_wait cur
          end
      | Err x => Ret (Continue x spin_wait)
      end
  else spin_or_wait cur.

(** [cur] is the word that the thread waited with. *)
Definition count_success (how : How) (nature : LockNature) (cur : u32) : prog U unit :=
  count (if nature is LNWrite then WRITE_WAIT_SUCCESSES else READ_WAIT_SUCCESSES);;
  if negb (bool_decide (how (from_bits_truncate cur) = nature)) then count ADDAPTATIVE_WAIT_SUCCESSES else Ret tt.

Definition counting_attempt_wait (self : SyncPhaseLocker) (how on_waiting_how : How) (cur : u32)
    (spin_wait : SpinWait) : prog U attempt :=
  match on_waiting_how (from_bits_truncate cur) with
  | LNNone => Ret (Done (LRNone (from_bits_truncate cur)))
  | n =>
      a ← announce self cur (if n is LNWrite then WRITE_WAITER_BIT else READ_WAITER_BIT);
      match a with
      | Err x => Ret (Continue x spin_wait)
      | Ok cur =>
          r ← (if n is LNWrite then counting_wait_as_writer self cur how
               else counting_wait_as_reader self cur how);
          match r with
          | Some lock => count_success how n cur;; Ret (Done lock)
          | None =>
              count (if n is LNWrite then WRITE_WAIT_FAILURES else READ_WAIT_FAILURES);;
              cur ← do_op (Load (fx_futex self));
              Ret (Continue cur (reset spin_wait))
          end
      end
  end.

Fixpoint counting_raw_lock_slow_loop (n : nat) (self : SyncPhaseLocker) (how on_waiting_how : How) (cur : u32)
    (spin_wait : SpinWait) : prog U (LockResult ReadLock Lock) :=
  match n with
  | O => Diverge
  | S n =>
      a ← match how (from_bits_truncate cur) with
          | LNNone => Ret (Done (LRNone (from_bits_truncate cur)))
          | LNWrite => counting_attempt_write self cur spin_wait
          | LNRead => attempt_read fuel self how cur spin_wait
          end;
      a ← match a with
          | WaitFrom cur spin_wait => counting_attempt_wait self how on_waiting_how cur spin_wait
          | a => Ret a
          end;
      match a with
      | Done r => Ret r
      | Continue cur spin_wait | WaitFrom cur spin_wait =>
          counting_raw_lock_slow_loop n self how on_waiting_how cur spin_wait
      end
  end.

Definition counting_raw_lock_slow (self : SyncPhaseLocker) (how on_waiting_how : How)
    : prog U (LockResult ReadLock Lock) :=
  cur ← do_op (Load (fx_futex self));
  counting_raw_lock_slow_loop fuel self how on_waiting_how cur SpinWait.new.

Definition counting_raw_lock (self : SyncPhaseLocker) (how on_waiting_how : How) (hint : Phase)
    : prog U (LockResult ReadLock Lock) :=
  r ← optimistic_lock self how hint;
  match r with
  | Ok x => Ret x
  | Err cur =>
      count OPTIMISTIC_FAILURES;;
      let p := from_bits_truncate cur in
      let slow := count SECOND_ATTEMPT_FAILURES;; counting_raw_lock_slow self how on_waiting_how in
      match how p with
      | LNNone => Ret (LRNone p)
      | LNWrite =>
          if is_write_lockable cur && has_no_readers cur then
            r ← do_op (CompareExchange true (fx_futex self) cur (Z.lor cur LOCKED_BIT));
            match r with
            | Ok _ => Ret (LRWrite (lock_new self cur))
            | Err _ => slow
            end
          else slow
      | LNRead =>
          r ← (if is_read_lockable cur then read_lock fuel self (shall_read how) cur else Ret (Err cur));
          match r with
          | Ok r => Ret (LRRead r)
          | Err _ => slow
          end
      end
  end.

(** The locker: the others of its functions do not count. *)
Definition counting_locker : PhaseLocker U SyncPhaseLocker := {|
  ReadGuard := SyncReadPhaseGuard;
  WriteGuard := SyncPhaseGuard;
  pl_lock T self v how on_waiting_how hint :=
    r ← counting_raw_lock self how on_waiting_how hint; Ret (guard_result v r);
  pl_try_lock T self v how hint :=
    r ← counting_try_raw_lock self how hint;
    match r with
    | Some r => Ret (Some (guard_result v r))
    | None => Ret None
    end;
  pl_lock_mut T := lock_mut;
  pl_phase := phase;
  wg_target := @sg_target;
  wg_set_phase := @set_phase;
  wg_commit_phase := @commit_phase _ _;
  wg_phase := @guard_phase;
  wg_map := @guard_map;
  wg_drop T g := lock_drop aborts linux fuel (sg_lock g);
  wg_into_read T := guard_into_read aborts linux fuel;
  rg_target := @sr_target;
  rg_phase T g := Ret (rl_init_phase (sr_lock g));
  rg_map := @read_map;
  rg_clone T := read_clone aborts fuel;
  rg_drop T g := read_lock_drop aborts linux fuel (sr_lock g);
|}.
End locker.

(** ** What is counted

    [tallied Q d p q]: the program [q] does what [p] does, and counts besides; [d] are
    the counters that it has incremented so far. When they return, [Q] relates what
    they return and the counters that [q] has incremented. *)
Section tallied.
Context {U : Type} {ST : Statistics U}.

Inductive tallied {A B : Type} (Q : A → B → list counter → Prop) : list counter → prog U A → prog U B → Prop :=
| tallied_ret d a b : Q a b d → tallied Q d (Ret a) (Ret b)
| tallied_panic d : tallied Q d Panic Panic
| tallied_undef d : tallied Q d Undef Undef
| tallied_diverge d : tallied Q d Diverge Diverge
| tallied_stops d a : tallied Q d (Stops a) (Stops a)
| tallied_vis d T (o : op U T) k k' : (∀ x, tallied Q d (k x) (k' x)) → tallied Q d (Vis o k) (Vis o k')
| tallied_count d c p k : tallied Q (c :: d) p (k tt) → tallied Q d p (Vis (Usr (counting c)) k).

(** The same results, and [Q] of the counters. *)
Definition same {A} (Q : A → list counter → Prop) (a b : A) (d : list counter) : Prop := a = b ∧ Q a d.

Lemma tallied_refl {A} (Q : A → A → list counter → Prop) d p : (∀ a, Q a a d) → tallied Q d p p.
Proof using. intros HQ. induction p; by constructor. Qed.
Lemma counted_ret {A} (Q : A → list counter → Prop) d a : Q a d → tallied (same Q) d (Ret a) (Ret a).
Proof using. by constructor. Qed.
Lemma counted_refl {A} (Q : A → list counter → Prop) d p : (∀ a, Q a d) → tallied (same Q) d p p.
Proof using. intros HQ. by apply tallied_refl. Qed.

Lemma tallied_mono {A B} (Q Q' : A → B → list counter → Prop) d p q :
  (∀ a b d, Q a b d → Q' a b d) → tallied Q d p q → tallied Q' d p q.
Proof using. intros HQ. induction 1; constructor; auto. Qed.

Lemma tallied_bind {A A' B B'} (Q : A → A' → list counter → Prop) (Q' : B → B' → list counter → Prop) d p q k k' :
  tallied Q d p q → (∀ a a' d', Q a a' d' → tallied Q' d' (k a) (k' a')) → tallied Q' d (p ≫= k) (q ≫= k').
Proof using.
  intros Hpq Hk. induction Hpq; [by apply Hk|by constructor..| |].
  - apply tallied_vis. auto.
  - by apply tallied_count.
Qed.
Lemma counted_bind {A B B'} (Q : A → list counter → Prop) (Q' : B → B' → list counter → Prop) d p q k k' :
  tallied (same Q) d p q → (∀ a d', Q a d' → tallied Q' d' (k a) (k' a)) → tallied Q' d (p ≫= k) (q ≫= k').
Proof using. intros Hpq Hk. eapply tallied_bind; [exact Hpq|]. intros a a' d' [<- Ha]. by apply Hk. Qed.

(** Steps that count nothing, and steps that do nothing else. *)
Lemma counted_same {A B B'} (Q' : B → B' → list counter → Prop) d (p : prog U A) k k' :
  (∀ a, tallied Q' d (k a) (k' a)) → tallied Q' d (p ≫= k) (p ≫= k').
Proof using.
  intros Hk. eapply (counted_bind (λ _ d', d' = d)); [by apply counted_refl|]. by intros a d' ->.
Qed.
Lemma counted_tally {A B} (Q : A → B → list counter → Prop) d c p k :
  tallied Q (c :: d) p (k tt) → tallied Q d p (count c ≫= k).
Proof using. apply tallied_count. Qed.

(** A result that is returned with a tag. *)
Lemma tallied_tag {A A' B} (Q : A → B → list counter → Prop) (Q' : A' → B → list counter → Prop) (f : A → A') d p q :
  tallied Q d p q → (∀ a b d, Q a b d → Q' (f a) b d) → tallied Q' d (a ← p; Ret (f a)) q.
Proof using. intros Hpq HQ. induction Hpq; constructor; auto. Qed.

(** What is proved of [p] is true of [q], if the state that a thread relies on does
    not depend on the counters. *)
Lemma ok_counted {G} {P : PCM G} (inv : state U → G → Prop) {A} (Q : A → list counter → Prop) d p q g R Rp :
  (∀ c s g, inv s g → inv (upd s (counting c (usr s)).2) g) →
  tallied (same Q) d p q → ok inv p g R Rp → ok inv q g R Rp.
Proof using.
  intros Hinv Hpq. revert g. induction Hpq as [d a b [-> _]| | | | |d T o k k' _ IH|d c p k _ IH]; intros g Hok; [simpl in *; by eauto..| |].
  - intros f s Hs x s' Hop. destruct (Hok f s Hs x s' Hop) as (g' & Hs' & Hk). exists g'. split; [done|]. by apply IH.
  - intros f s Hs x s' [Hop|[Hop _]]; [|done]. injection Hop as <- <-. exists g. split; [by apply Hinv|]. by apply IH.
Qed.
End tallied.

Section tallies.
Context {KN : Kernel} {BF : Bitflags} {U : Type} {ST : Statistics U}.
Context (aborts : assertion → bool) (linux : bool) (fuel : nat).
Implicit Types (d : list counter) (how : How).

Definition times (c : counter) (d : list counter) : nat := count_occ counter_eq_dec d c.

(** *** How an attempt ends

    [raw_lock] and [try_raw_lock], which return beside the lock where they got it: at
    the optimistic attempt, at the second one, or on the slow path. *)
Inductive way := Optimistic | Second | Slow.

Definition raw_lock_way (self : SyncPhaseLocker) how on_waiting_how (hint : Phase)
    : prog U (way * LockResult ReadLock Lock) :=
  r ← optimistic_lock self how hint;
  match r with
  | Ok x => Ret (Optimistic, x)
  | Err cur =>
      let p := from_bits_truncate cur in
      let slow := r ← raw_lock_slow aborts linux fuel self how on_waiting_how; Ret (Slow, r) in
      match how p with
      | LNNone => Ret (Second, LRNone p)
      | LNWrite =>
          if is_write_lockable cur && has_no_readers cur then
            r ← do_op (CompareExchange true (fx_futex self) cur (Z.lor cur LOCKED_BIT));
            match r with
            | Ok _ => Ret (Second, LRWrite (lock_new self cur))
            | Err _ => slow
            end
          else slow
      | LNRead =>
          r ← (if is_read_lockable cur then read_lock fuel self (shall_read how) cur else Ret (Err cur));
          match r with
          | Ok r => Ret (Second, LRRead r)
          | Err _ => slow
          end
      end
  end.

(** [try_lock] has no slow path. *)
Definition try_raw_lock_way (self : SyncPhaseLocker) how (hint : Phase)
    : prog U (option (way * LockResult ReadLock Lock)) :=
  r ← optimistic_lock self how hint;
  match r with
  | Ok x => Ret (Some (Optimistic, x))
  | Err cur =>
      let p := from_bits_truncate cur in
      match how p with
      | LNWrite =>
          if is_write_lockable cur && has_no_readers cur then
            r ← do_op (CompareExchange false (fx_futex self) cur (Z.lor cur LOCKED_BIT));
            match r with
            | Ok _ => Ret (Some (Second, LRWrite (lock_new self cur)))
            | Err _ => Ret None
            end
          else Ret None
      | LNRead =>
          r ← try_read_loop fuel self how cur;
          match r with
          | Some l => Ret (Some (Second, LRRead l))
          | None => Ret None
          end
      | LNNone => Ret (Some (Second, LRNone p))
      end
  end.

(** What [lock] counts on the slow path: both failures, at most one successful wait,
    and a late adaptation exactly if it returns another kind of lock than the one that
    it waited for. *)
Definition slow_tally (r : LockResult ReadLock Lock) (d : list counter) : Prop :=
  let waits := (times WRITE_WAIT_SUCCESSES d + times READ_WAIT_SUCCESSES d)%nat in
  times OPTIMISTIC_FAILURES d = 1%nat ∧ times SECOND_ATTEMPT_FAILURES d = 1%nat ∧ (waits ≤ 1)%nat ∧
  (times ADDAPTATIVE_WAIT_SUCCESSES d ≤ waits)%nat ∧
  times LATE_ADDAPTATIONS d =
    match r with
    | LRWrite _ => times READ_WAIT_SUCCESSES d
    | LRRead _ => times WRITE_WAIT_SUCCESSES d
    | LRNone _ => waits
    end.

(** What is counted, by the way: nothing at the optimistic attempt, its failure at the
    second one. *)
Definition lock_tally (wr : way * LockResult ReadLock Lock) (r : LockResult ReadLock Lock) (d : list counter) : Prop :=
  r = wr.2 ∧
  match wr.1 with
  | Optimistic => d = []
  | Second => d = [OPTIMISTIC_FAILURES]
  | Slow => slow_tally r d
  end.
Definition try_tally (wr : option (way * LockResult ReadLock Lock)) (r : option (LockResult ReadLock Lock))
    (d : list counter) : Prop :=
  r = snd <$> wr ∧
  match wr with
  | Some (Optimistic, _) => d = []
  | Some (Second, _) => d = [OPTIMISTIC_FAILURES]
  | Some (Slow, _) => False
  | None => d = [SECOND_ATTEMPT_FAILURES; OPTIMISTIC_FAILURES]
  end.

(** What is counted between the iterations of the slow path. *)
Definition slow (d : list counter) : Prop :=
  times OPTIMISTIC_FAILURES d = 1%nat ∧ times SECOND_ATTEMPT_FAILURES d = 1%nat ∧
  times WRITE_WAIT_SUCCESSES d = 0%nat ∧ times READ_WAIT_SUCCESSES d = 0%nat ∧
  times ADDAPTATIVE_WAIT_SUCCESSES d = 0%nat ∧ times LATE_ADDAPTATIONS d = 0%nat.
Definition attempted (a : attempt) (d : list counter) : Prop :=
  match a with Done r => slow_tally r d | _ => slow d end.

Lemma slow_done r d : slow d → slow_tally r d.
Proof using. intros (H1 & H2 & H3 & H4 & H5 & H6). unfold slow_tally. destruct r; lia. Qed.
Lemma slow_attempted a d : slow d → attempted a d.
Proof using. intros Hd. destruct a; [by apply slow_done|done..]. Qed.
Lemma slow_failure c d :
  c ∈ [WRITE_LOCK_WHILE_READER_FAILURES; WRITE_WAIT_FAILURES; READ_WAIT_FAILURES] → slow d → slow (c :: d).
Proof using.
  intros Hc (H1 & H2 & H3 & H4 & H5 & H6).
  repeat (apply elem_of_cons in Hc as [->|Hc]; [by repeat split|]). by apply not_elem_of_nil in Hc.
Qed.

(** A thread that was woken, before its success is counted. *)
Definition late (n : LockNature) (r : LockResult ReadLock Lock) : list counter :=
  match n, r with LNWrite, LRWrite _ | LNRead, LRRead _ => [] | _, _ => [LATE_ADDAPTATIONS] end.
Definition woken (n : LockNature) (r : option (LockResult ReadLock Lock)) (d : list counter) : Prop :=
  match r with Some r => ∃ d', slow d' ∧ d = late n r ++ d' | None => slow d end.

Lemma counted_wait_as_writer how cur futex d :
  slow d →
  tallied (same (woken LNWrite)) d (wait_as_writer_then_wake_with_lock aborts linux fuel futex cur how)
    (counting_wait_as_writer (U := U) aborts linux fuel futex cur how).
Proof using.
  intros Hd. apply counted_same. intros [|]; [|by apply counted_ret].
  apply counted_same. intros v. apply counted_same. intros _.
  destruct (how _); [|by apply counted_ret; exists d|]; apply counted_tally, counted_same; intros ?; apply counted_ret; by exists d.
Qed.

Lemma counted_wait_as_reader how cur futex d :
  slow d →
  tallied (same (woken LNRead)) d (wait_as_reader_then_wake_with_lock aborts linux fuel futex cur how)
    (counting_wait_as_reader (U := U) aborts linux fuel futex cur how).
Proof using.
  intros Hd. apply counted_same. intros [|]; [|by apply counted_ret].
  apply counted_same. intros v. apply counted_same. intros _.
  destruct (how _); [by apply counted_ret; exists d|by apply counted_same; intros ?; constructor|].
  apply counted_tally, counted_same. intros ?. apply counted_ret. by exists d.
Qed.

Lemma counted_success how n cur r d :
  n ≠ LNNone → slow d →
  tallied (same attempted) (late n r ++ d) (Ret (Done r)) (count_success (U := U) how n cur;; Ret (Done r)).
Proof using.
  intros Hn (H1 & H2 & H3 & H4 & H5 & H6). unfold count_success.
  apply counted_tally. unfold times in *.
  destruct (negb _); [apply counted_tally|]; apply counted_ret; destruct n, r; try done;
    unfold attempted, slow_tally, times; simpl; rewrite H1, H2, H3, H4, H5, H6; intuition lia.
Qed.

Lemma counted_attempt_wait self how wake cur sw d :
  slow d →
  tallied (same attempted) d (attempt_wait aborts linux fuel self how wake cur sw)
    (counting_attempt_wait (U := U) aborts linux fuel self how wake cur sw).
Proof using.
  intros Hd. unfold attempt_wait, counting_attempt_wait.
  destruct (wake _); [| |by apply counted_ret; apply slow_attempted]; apply counted_same; intros [x|x];
    try (by apply counted_ret; apply slow_attempted).
  - eapply counted_bind; [by apply counted_wait_as_reader|]. intros [r|] d1 Hr.
    + destruct Hr as (d2 & Hd2 & ->). by apply counted_success.
    + apply counted_tally, counted_same. intros v. apply counted_ret. by apply slow_failure; [set_solver|].
  - eapply counted_bind; [by apply counted_wait_as_writer|]. intros [r|] d1 Hr.
    + destruct Hr as (d2 & Hd2 & ->). by apply counted_success.
    + apply counted_tally, counted_same. intros v. apply counted_ret. by apply slow_failure; [set_solver|].
Qed.

Lemma counted_attempt_write self cur sw d :
  slow d →
  tallied (same attempted) d (attempt_write fuel self cur sw) (counting_attempt_write (U := U) fuel self cur sw).
Proof using.
  intros Hd. unfold attempt_write, counting_attempt_write.
  destruct (spin sw) as [[b m] spun]. destruct (is_write_lockable cur), (has_no_readers cur);
    try (apply counted_refl; intros a; by apply slow_attempted).
  apply counted_same. intros [x|x]; [|by apply counted_ret].
  apply counted_same. intros [l|v]; [by apply counted_ret, slow_done|].
  apply counted_tally, counted_refl. intros a. apply slow_attempted. by apply slow_failure; [set_solver|].
Qed.

Lemma counted_slow_loop n self how wake cur sw d :
  slow d →
  tallied (same slow_tally) d (raw_lock_slow_loop aborts linux fuel n self how wake cur sw)
    (counting_raw_lock_slow_loop (U := U) aborts linux fuel n self how wake cur sw).
Proof using.
  revert cur sw d. induction n as [|n IH]; intros cur sw d Hd; [constructor|].
  cbn [raw_lock_slow_loop counting_raw_lock_slow_loop].
  apply (counted_bind attempted).
  - destruct (how _); [|by apply counted_attempt_write|by apply counted_ret, slow_done].
    apply counted_refl. intros a. by apply slow_attempted.
  - intros a d1 Ha. apply (counted_bind attempted).
    + destruct a; [by apply counted_ret..|by apply counted_attempt_wait].
    + intros [r|cur2 sw2|cur2 sw2] d2 H2; [by apply counted_ret|by apply IH..].
Qed.

Lemma counted_slow self how wake :
  tallied (same slow_tally) [OPTIMISTIC_FAILURES] (raw_lock_slow aborts linux fuel self how wake)
    (count SECOND_ATTEMPT_FAILURES;; counting_raw_lock_slow (U := U) aborts linux fuel self how wake).
Proof using. apply counted_tally, counted_same. intros v. by apply counted_slow_loop. Qed.

(** The same steps, and the same results. *)
Lemma counted_raw_lock self how wake hint :
  tallied (same (λ _ _, True)) [] (raw_lock aborts linux fuel self how wake hint)
    (counting_raw_lock (U := U) aborts linux fuel self how wake hint).
Proof using.
  unfold raw_lock, counting_raw_lock. apply counted_same. intros [x|cur]; [by apply counted_ret|].
  apply counted_tally.
  assert (tallied (same (λ _ _, True)) [OPTIMISTIC_FAILURES] (raw_lock_slow aborts linux fuel self how wake)
    (count SECOND_ATTEMPT_FAILURES;; counting_raw_lock_slow (U := U) aborts linux fuel self how wake)) as Hslow.
  { eapply tallied_mono; [|apply counted_slow]. by intros a b d [<- _]. }
  destruct (how _); [|destruct (_ && _); [|done]|by apply counted_ret];
    (apply counted_same; intros [x|x]; [by apply counted_ret|done]).
Qed.
Lemma counted_try_raw_lock self how hint :
  tallied (same (λ _ _, True)) [] (try_raw_lock fuel self how hint) (counting_try_raw_lock (U := U) fuel self how hint).
Proof using.
  unfold try_raw_lock, counting_try_raw_lock. apply counted_same. intros [x|cur]; [by apply counted_ret|].
  apply counted_tally.
  assert (tallied (A := option (LockResult ReadLock Lock)) (same (λ _ _, True)) [OPTIMISTIC_FAILURES] (Ret None)
    (count SECOND_ATTEMPT_FAILURES;; Ret None)) as Hfail by (by apply counted_tally, counted_ret).
  destruct (how _); [|destruct (_ && _); [|done]|by apply counted_ret]; apply counted_same; intros [x|]; try done;
    by apply counted_ret.
Qed.

(** What is counted, by the way. *)
Lemma tallied_raw_lock self how wake hint :
  tallied lock_tally [] (raw_lock_way self how wake hint)
    (counting_raw_lock (U := U) aborts linux fuel self how wake hint).
Proof using.
  unfold raw_lock_way, counting_raw_lock. apply counted_same. intros [x|cur]; [by constructor|].
  apply counted_tally.
  assert (tallied lock_tally [OPTIMISTIC_FAILURES]
    (r ← raw_lock_slow aborts linux fuel self how wake; Ret (Slow, r))
    (count SECOND_ATTEMPT_FAILURES;; counting_raw_lock_slow (U := U) aborts linux fuel self how wake)) as Hslow.
  { eapply tallied_tag; [apply counted_slow|]. by intros a b d [<- Ha]. }
  destruct (how _); [|destruct (_ && _); [|done]|by constructor];
    (apply counted_same; intros [x|x]; [by constructor|done]).
Qed.
Lemma tallied_try_raw_lock self how hint :
  tallied try_tally [] (try_raw_lock_way self how hint) (counting_try_raw_lock (U := U) fuel self how hint).
Proof using.
  unfold try_raw_lock_way, counting_try_raw_lock. apply counted_same. intros [x|cur]; [by constructor|].
  apply counted_tally.
  assert (tallied try_tally [OPTIMISTIC_FAILURES] (Ret None)
    (count SECOND_ATTEMPT_FAILURES;; Ret None)) as Hfail by (by apply counted_tally; constructor).
  destruct (how _); [|destruct (_ && _); [|done]|by constructor]; apply counted_same; intros [x|]; try done;
    by constructor.
Qed.

(** The tags are of the locker that does not count: it does the same steps. *)
Lemma way_raw_lock self how wake hint :
  tallied (λ wr r d, r = wr.2 ∧ d = []) [] (raw_lock_way self how wake hint)
    (raw_lock aborts linux fuel self how wake hint).
Proof using.
  unfold raw_lock_way, raw_lock. apply counted_same. intros [x|cur]; [by constructor|].
  assert (tallied (λ (wr : way * LockResult ReadLock Lock) r d, r = wr.2 ∧ d = []) []
    (r ← raw_lock_slow aborts linux fuel self how wake; Ret (Slow, r)) (raw_lock_slow aborts linux fuel self how wake))
    as Hslow.
  { eapply (tallied_tag (same (λ _ d, d = []))); [by apply counted_refl|]. by intros a b d [<- ->]. }
  destruct (how _); [|destruct (_ && _); [|done]|by constructor];
    (apply counted_same; intros [x|x]; [by constructor|done]).
Qed.
Lemma way_try_raw_lock self how hint :
  tallied (λ wr r d, r = snd <$> wr ∧ d = []) [] (try_raw_lock_way self how hint) (try_raw_lock fuel self how hint).
Proof using.
  unfold try_raw_lock_way, try_raw_lock. apply counted_same. intros [x|cur]; [by constructor|].
  destruct (how _); [|destruct (_ && _); [|by constructor]|by constructor]; apply counted_same; intros [x|];
    by constructor.
Qed.
End tallies.

(** ** The contract

    What the contract of a client says of the state does not depend on the counters. *)
Section contract.
Context {KN : Kernel} {BF : Bitflags} {U D : Type} {ST : Statistics U} `{!EqDecision D} (c : contract U D) (fx : Futex).
Context (Hc : ∀ k v u, view c (set_counter k v u) = view c u ∧ tick c (set_counter k v u) = tick c u ∧
  ∀ p, K c p u → K c p (set_counter k v u)).
Context (Hfx : futex_cells fx).
Context (aborts : assertion → bool) (Haborts : ∀ a, a ≠ Other → aborts a = true).
Context (linux : bool) (fuel : nat).
Abbreviation spec := (futex_spec c fx Hfx aborts Haborts linux fuel).
Abbreviation inv := (linv (PhaseLockerSpec := spec)).

Lemma counter_step {T} (f : U → T) k v :
  ok inv (do_op (Usr (λ u, (f u, set_counter k (v u) u)))) pcm_unit (λ _ h, h = pcm_unit) (λ _, False).
Proof using Hc.
  eapply ok_mono; [apply (spec_step (PhaseLockerSpec := spec))|by intros ? ? (? & ? & _ & _ & ->)|done].
  - intros p u _. apply Hc.
  - intros u. apply Hc.
  - intros p u. apply Hc.
Qed.

Lemma reset_ok : ok inv get_and_reset pcm_unit (λ _ h, h = pcm_unit) (λ _, False).
Proof using Hc.
  unfold get_and_reset, swap_zero.
  do 9 (apply ok_bind; eapply ok_mono; [apply (counter_step (λ u, counted_by u _) _ (λ _, 0))|cbv beta; intros ? ? ->|done]).
  done.
Qed.

Lemma inv_counting k s g : inv s g → inv (upd s (counting k (usr s)).2) g.
Proof using Hc.
  intros Hs. rewrite <- (left_id_L pcm_unit pcm_op g) in Hs.
  destruct (counter_step (λ _, tt) k (λ u, wrap 64 (counted_by u k + 1)) g s Hs _ _ (or_introl eq_refl))
    as (g' & Hs' & Hg'). change (g' = pcm_unit) in Hg'. subst g'.
  by rewrite (left_id_L pcm_unit pcm_op) in Hs'.
Qed.

Definition counting_spec : PhaseLockerSpec (G := ftokens D) (counting_locker (U := U) aborts linux fuel) c fx.
Proof using Hc Hfx Haborts.
  refine (@Build_PhaseLockerSpec _ _ (counting_locker aborts linux fuel) _ _ _ c fx
    inv ftok_w ftok_r ftok_pub (@futex_wg_is fx) (@futex_rg_is fx) false true
    _ _ _ _ _ _ _ _ _ _ _ _ _ _ _ _ _ _ _ _ _).
  - intros T t how wake hint Hh.
    pose proof (spec_lock (PhaseLockerSpec := spec) t how wake hint Hh) as Hok.
    eapply (ok_counted _ (λ _ _, True)); [apply inv_counting| |exact Hok].
    eapply (counted_bind _ (same (λ _ _, True))); [apply counted_raw_lock|]. intros r d _. by apply counted_refl.
  - intros T t how hint Hh.
    pose proof (spec_try_lock (PhaseLockerSpec := spec) t how hint Hh) as Hok.
    eapply (ok_counted _ (λ _ _, True)); [apply inv_counting| |exact Hok].
    eapply (counted_bind _ (same (λ _ _, True))); [apply counted_try_raw_lock|]. intros r d _. by apply counted_refl.
  - apply (@spec_phase _ _ _ _ _ _ _ _ spec).
  - apply (@spec_wg_target _ _ _ _ _ _ _ _ spec).
  - apply (@spec_wg_phase _ _ _ _ _ _ _ _ spec).
  - apply (@spec_wg_set_phase _ _ _ _ _ _ _ _ spec).
  - apply (@spec_wg_map _ _ _ _ _ _ _ _ spec).
  - apply (@spec_wg_drop _ _ _ _ _ _ _ _ spec).
  - apply (@spec_wg_into_read _ _ _ _ _ _ _ _ spec).
  - apply (@spec_rg_target _ _ _ _ _ _ _ _ spec).
  - apply (@spec_rg_phase _ _ _ _ _ _ _ _ spec).
  - apply (@spec_rg_map _ _ _ _ _ _ _ _ spec).
  - apply (@spec_rg_drop _ _ _ _ _ _ _ _ spec).
  - apply (@spec_rg_clone _ _ _ _ _ _ _ _ spec).
  - apply (@spec_write _ _ _ _ _ _ _ _ spec).
  - apply (@spec_read _ _ _ _ _ _ _ _ spec).
  - apply (@spec_step _ _ _ _ _ _ _ _ spec).
  - apply (@spec_pub _ _ _ _ _ _ _ _ spec).
  - apply (@spec_observe _ _ _ _ _ _ _ _ spec).
  - apply (@spec_inv _ _ _ _ _ _ _ _ spec).
  - apply (@spec_own_pub_idemp _ _ _ _ _ _ _ _ spec).
Defined.
End contract.

(** ** Properties *)

(** The data and the counters. *)
Abbreviation counted_state := (Z * LockStatistics)%type.

Definition statistic (x : LockStatistics) (c : counter) : Z :=
  match c with
  | OPTIMISTIC_FAILURES => optimistic_failures x
  | SECOND_ATTEMPT_FAILURES => second_attempt_failures x
  | WRITE_LOCK_WHILE_READER_FAILURES => write_lock_while_reader_failures x
  | WRITE_WAIT_FAILURES => write_wait_failures x
  | WRITE_WAIT_SUCCESSES => write_wait_successes x
  | READ_WAIT_FAILURES => read_wait_failures x
  | READ_WAIT_SUCCESSES => read_wait_successes x
  | ADDAPTATIVE_WAIT_SUCCESSES => addaptative_wait_successes x
  | LATE_ADDAPTATIONS => late_addaptations x
  end.
Definition statistics_of (f : counter → Z) : LockStatistics :=
  LockStatisticsC (f OPTIMISTIC_FAILURES) (f SECOND_ATTEMPT_FAILURES) (f WRITE_LOCK_WHILE_READER_FAILURES)
    (f WRITE_WAIT_FAILURES) (f WRITE_WAIT_SUCCESSES) (f READ_WAIT_FAILURES) (f READ_WAIT_SUCCESSES)
    (f ADDAPTATIVE_WAIT_SUCCESSES) (f LATE_ADDAPTATIONS).

#[export] Instance statistics_beside : Statistics counted_state := {
  counted_by u c := statistic u.2 c;
  set_counter c v u := (u.1, statistics_of (λ k, if decide (k = c) then v else statistic u.2 k));
}.
#[export, refine] Instance data_beside : ClientData counted_state := {| data_of := fst; with_data x u := (x, u.2) |}.
Proof. done. Defined.

(** A thread that takes the statistics now and then. *)
Fixpoint reports (n : nat) : prog counted_state unit :=
  match n with
  | O => Ret tt
  | S n => _ ← get_and_reset; reports n
  end.

Lemma get_and_reset_run (s : state counted_state) :
  run get_and_reset [] s = (Returned (usr s).2, upd s ((usr s).1, statistics_of (λ _, 0))).
Proof. by destruct s as [m [x []]]. Qed.

(** C19: with the feature [lock_statistics], [lock] and [try_lock] of the futex locker do
    the atomic operations of the locker that does not count, with the same results, and
    count besides, on every path and whatever other threads do. A lock that is got at
    the optimistic attempt counts nothing, one that is got at the second attempt counts
    the optimistic failure, and nothing else; exactly on the slow path [lock] counts a
    second failure too, at most one successful wait, and a late adaptation if and only
    if it returns another kind of lock than the one that it waited for. [try_lock]
    counts the second failure exactly when it has no result. *)
Theorem statistics_tell_attempts {KN : Kernel} {BF : Bitflags} {U} {ST : Statistics U} aborts linux fuel
    (self : SyncPhaseLocker) how on_waiting_how hint :
  (tallied (U := U) lock_tally [] (raw_lock_way aborts linux fuel self how on_waiting_how hint)
     (counting_raw_lock aborts linux fuel self how on_waiting_how hint) ∧
   tallied (U := U) (λ wr r d, r = wr.2 ∧ d = []) [] (raw_lock_way aborts linux fuel self how on_waiting_how hint)
     (raw_lock aborts linux fuel self how on_waiting_how hint)) ∧
  (tallied (U := U) try_tally [] (try_raw_lock_way fuel self how hint) (counting_try_raw_lock fuel self how hint) ∧
   tallied (U := U) (λ wr r d, r = snd <$> wr ∧ d = []) [] (try_raw_lock_way fuel self how hint)
     (try_raw_lock fuel self how hint)).
Proof.
  split; (split; [apply tallied_raw_lock || apply tallied_try_raw_lock|apply way_raw_lock || apply way_try_raw_lock]).
Qed.

(** C20: the futex locker keeps its contract while it counts: any number of threads run
    any scripts on its guards, others take and reset the statistics at any time, and no
    schedule makes an assertion of a client fail: a write guard excludes all others,
    and neither the data nor the phase under a guard changes behind it. A thread that
    fails one of the three named assertions of the locker is taken to do nothing more. *)
Theorem counting_clients_safe {KN : Kernel} {BF : Bitflags} (fx : Futex) (aborts : assertion → bool)
    linux fuel scripts readers p (s : state counted_state) ps s' :
  futex_cells fx → (∀ a, a ≠ Other → aborts a = true) →
  phase_range p → rd s (fx_futex fx) = new p →
  (∀ t k, queue (mem s) !! t = Some k → pk_addr k ≠ fx_futex fx) →
  Forall (Forall (cmd_ok true)) scripts →
  reachable (((λ script, client (ops := counting_locker aborts linux fuel) false fx script []) <$> scripts)
             ++ (reports <$> readers)) s ps s' →
  no_panic ps.
Proof.
  intros Hfx Ha Hp Hrd Hq Hs Hreach.
  assert (∀ (k : counter) v (u : counted_state), view free_contract (set_counter k v u) = view free_contract u ∧
    tick free_contract (set_counter k v u) = tick free_contract u ∧
    ∀ p, K free_contract p u → K free_contract p (set_counter k v u)) as Hc by done.
  pose (spec := counting_spec free_contract fx Hc Hfx aborts Ha linux fuel).
  eapply (ok_pool_no_panic (linv (PhaseLockerSpec := spec)) _
    (replicate (length scripts + length readers) pcm_unit)); [| |exact Hreach].
  - rewrite replicate_add. apply Forall2_app; apply Forall2_fmap_l, Forall2_same_length_lookup_2;
      try (by rewrite length_replicate); intros i x g Hx [-> _]%lookup_replicate.
    + apply (client_ok (spec := spec) false); [done|by eapply Forall_lookup_1 in Hs|apply owns_with_nil].
    + clear Hx. induction x as [|x IH]; [done|]. apply ok_bind.
      eapply ok_mono; [by apply reset_ok|cbv beta; by intros ? ? ->|done].
  - rewrite pcm_sum_replicate_unit. by eapply fx_inv_new.
Qed.

Section examples.
#[local] Existing Instances bitflags_1 kernel_1.

(** A lock that is tried while it is held, and taken again with a wrong hint. *)
Example demo_statistics :
  let script := [CLock (λ _, LNWrite) (λ _, LNWrite) 0; CTryLock (λ _, LNRead) 0; CSetPhase 0 1; CDrop 0;
                 CLock (λ _, LNRead) (λ _, LNRead) 0] in
  (run (client (ops := counting_locker may_abort true 9) false (FutexC 2 3 4) script [];; get_and_reset) []
     (State ∅ (9, statistics_of (λ _, 0)))).1
  = Returned (LockStatisticsC 2 1 0 0 0 0 0 0 0).
Proof. vm_compute. reflexivity. Qed.

Lemma counting_clients_safe_witness :
  no_panic (((λ script, client (ops := counting_locker may_abort true 9) false (FutexC 2 3 4) script [])
    <$> [[CLock (λ _, LNWrite) (λ _, LNWrite) 0; CWrite 0 3; CSetPhase 0 1; CDowngrade 0; CClone 0];
         [CLock (λ _, LNRead) (λ _, LNRead) 0; CCheck 0; CDrop 0]]) ++ (reports <$> [2%nat])).
Proof.
  eapply (counting_clients_safe (FutexC 2 3 4) may_abort true 9
    [[CLock (λ _, LNWrite) (λ _, LNWrite) 0; CWrite 0 3; CSetPhase 0 1; CDowngrade 0; CClone 0];
     [CLock (λ _, LNRead) (λ _, LNRead) 0; CCheck 0; CDrop 0]] [2%nat] 0 (State ∅ (9, statistics_of (λ _, 0))));
    [by split|by intros [] ?|unfold phase_range; lia|reflexivity| | |apply rtc_refl].
  - intros t k Hk. vm_compute in Hk. done.
  - repeat constructor; unfold phase_range; lia.
Defined.
End examples.
