(* ===== verification/FutexBug.v ===== *)
(** * Two schedules of the futex locker

    Schedules of a few threads, run by [exec] of [Atomics], that show what the contract of the
    locker does not rule out: one makes an assertion of [wake_readers] fail (the
    assertion beside it bears the comment [BUG: fired] in the source), the other
    leaves threads parked on a lock that is free. *)

From stdpp Require Import base list option numbers gmap relations.
From S2P Require Import Prelude Word Phase Atomics Locker Clients Futex FutexLocker.
Open Scope Z_scope.

(** ** The schedule *)

Section bug.
#[local] Existing Instances kernel_1 bitflags_1.

Definition bug_futex : Futex := FutexC 2 3 4.

(** One thread takes the write lock and turns it into a read lock; another wants
    to read, a third to write. *)
Definition bug_threads (fuel : nat) : list (prog Z unit) :=
  (λ script, client (ops := futex_locker (λ _, false) true fuel) false bug_futex script []) <$>
  [[CLock (λ _, LNWrite) (λ _, LNWrite) 0; CDowngrade 0];
   [CLock (λ _, LNRead) (λ _, LNRead) 0];
   [CLock (λ _, LNWrite) (λ _, LNWrite) 0]].

(** The first thread takes the lock; the second finds it locked, spins and is
    parked; the first turns its lock into a read lock, but has not woken the
    second yet when the third sets the locked bit, since there is a reader. *)
Definition bug_schedule : list nat :=
  (replicate 2 0 ++ replicate 14 1 ++ [0] ++ replicate 3 2 ++ replicate 3 0)%nat.

Definition bug_test (ps : list (prog Z unit)) (s : state Z) : bool :=
  has_panicked ps 0 && bool_decide (rd s (fx_futex bug_futex) = word 0 (2 ^ 20 + 1) false false false) &&
  bool_decide (queue (mem s) !! 1%positive = Some (Parked (fx_futex bug_futex) READER_BIT false)).

(** C38: turning a write guard of the futex locker into a read guard may panic, by
    the assertion of [wake_readers] that the lock is not write locked, when a
    writer comes in between the two steps of the conversion. The lock is lost for
    good: no thread holds a guard, yet the word counts 2^20 + 1 readers and has
    no waiter bit, while a reader that nobody will wake is parked on it and the
    writer's locked bit has been taken away. *)
Theorem conversion_panics :
  ∃ ps s, reachable (bug_threads 20) (State ∅ 9) ps s ∧
    ps !! 0%nat = Some Panic ∧
    rd s (fx_futex bug_futex) = word 0 (2 ^ 20 + 1) false false false ∧
    queue (mem s) !! 1%positive = Some (Parked (fx_futex bug_futex) READER_BIT false).
Proof.
  destruct (exec_reaches bug_schedule (bug_threads 20) (State ∅ 9) bug_test) as (ps & s & Hreach & Htest);
    [by vm_compute|].
  exists ps, s. split; [done|]. unfold bug_test, has_panicked in Htest.
  apply andb_prop in Htest as [[Hp ?%bool_decide_eq_true]%andb_prop ?%bool_decide_eq_true].
  split; [|done]. by destruct (ps !! 0%nat) as [[]|].
Qed.

(** ** A thread that is parked on a free lock *)

(** Two writers, of which the second changes the phase; a thread that wants to
    read at the phase 0 and to write at others; one that wants to write. *)
Definition read_at_0 (p : Phase) : LockNature := if p =? 0 then LNRead else LNWrite.

Definition stuck_threads (fuel : nat) : list (prog Z unit) :=
  (λ script, client (ops := futex_locker (λ _, false) true fuel) false bug_futex script []) <$>
  [[CLock (λ _, LNWrite) (λ _, LNWrite) 0; CDrop 0];
   [CLock (λ _, LNWrite) (λ _, LNWrite) 0; CSetPhase 0 1; CDrop 0];
   [CLock read_at_0 (λ _, LNWrite) 0];
   [CLock (λ _, LNWrite) (λ _, LNWrite) 0]].

(** The third thread spins while the first holds the lock, and finds it free the
    last time it looks; before it takes its read lock the second thread comes and
    goes, and leaves the phase 1. *)
Definition stuck_schedule : list nat :=
  (replicate 2 0 ++ replicate 11 2 ++ [0; 2] ++ replicate 3 1 ++ replicate 5 2 ++ replicate 16 3)%nat.

Definition stuck_test (ps : list (prog Z unit)) (s : state Z) : bool :=
  has_returned ps 0 && has_returned ps 1 &&
  bool_decide (rd s (fx_futex bug_futex) = word 1 0 false false true) &&
  bool_decide (queue (mem s) =
    {[1%positive := Parked (fx_futex bug_futex) WRITER_BIT false;
      2%positive := Parked (fx_futex bug_futex) WRITER_BIT false]}).

(** C37: a thread may be parked on a futex lock that is free, and nobody is left to
    wake it. When [read_lock] gives up because the phase asks for something else
    by now, and no spins are left, [raw_lock_slow] sets a waiter bit and waits
    without asking [how] again. Both threads that have held the lock are done,
    the word is free, and the waiter bit keeps every thread that comes out: the
    fourth is parked as well. *)
Theorem lost_wakeup :
  ∃ ps s, reachable (stuck_threads 20) (State ∅ 9) ps s ∧
    ps !! 0%nat = Some (Ret tt) ∧ ps !! 1%nat = Some (Ret tt) ∧
    rd s (fx_futex bug_futex) = word 1 0 false false true ∧
    queue (mem s) = {[1%positive := Parked (fx_futex bug_futex) WRITER_BIT false;
                      2%positive := Parked (fx_futex bug_futex) WRITER_BIT false]}.
Proof.
  destruct (exec_reaches stuck_schedule (stuck_threads 20) (State ∅ 9) stuck_test)
    as (ps & s & Hreach & Htest); [by vm_compute|].
  exists ps, s. split; [done|]. unfold stuck_test, has_returned in Htest.
  apply andb_prop in Htest as [[[H0 H1]%andb_prop ?%bool_decide_eq_true]%andb_prop ?%bool_decide_eq_true].
  split; [by destruct (ps !! 0%nat) as [[[]| | | | |]|]|].
  split; [by destruct (ps !! 1%nat) as [[[]| | | | |]|]|done].
Qed.
End bug.
