(* ===== verification/ParkingLot.v ===== *)
(** * Futexes over parking_lot_core (src/phase_locker/futex.rs, mod other)

    Where the system has no futexes, the word of a lock parks its threads with the
    crate [parking_lot_core], which is the class [ParkingLot] here. A parking lot
    makes a [Kernel], and on it each operation of this implementation does the
    steps of the one on futexes, whatever else the threads do: what is proved of
    the futex locker does not depend on which of the two it is built on. *)

From stdpp Require Import base list option numbers gmap relations.
From S2P Require Import Prelude Word Atomics Futex.
Open Scope Z_scope.

(** ** Programs that take the same steps *)

Section bisim.
Context {U : Type}.

(** The operations may return different values, which their continuations make
    up for. *)
Fixpoint bisim {A} (p q : prog U A) : Prop :=
  match p with
  | Ret a => q = Ret a
  | Panic => q = Panic
  | Undef => q = Undef
  | Diverge => q = Diverge
  | Stops a => q = Stops a
  | @Vis _ _ T o k => ∃ T' (o' : op U T') k', q = Vis o' k' ∧
      (∀ s x s', op_step o s x s' → ∃ x', op_step o' s x' s' ∧ bisim (k x) (k' x')) ∧
      (∀ s x' s', op_step o' s x' s' → ∃ x, op_step o s x s' ∧ bisim (k x) (k' x'))
  end.

Lemma bisim_refl {A} (p : prog U A) : bisim p p.
Proof.
  induction p as [a| | | | |T o k IH]; simpl; try done. exists T, o, k. split; [done|].
  split; intros s x s' Hs; exists x; (split; [done|apply IH]).
Qed.

Lemma bisim_bind {A B} (p q : prog U A) (k h : A → prog U B) :
  bisim p q → (∀ a, bisim (k a) (h a)) → bisim (p ≫= k) (q ≫= h).
Proof.
  intros Hpq Hk. revert q Hpq. induction p as [a| | | | |T o k' IH]; simpl; intros q Hq; try by subst.
  destruct Hq as (T' & o' & h' & -> & H1 & H2). exists T', o', (λ x, h' x ≫= h). split; [done|]. split.
  - intros s x s' Hs. destruct (H1 s x s' Hs) as (x' & ? & ?). exists x'. split; [done|]. by apply IH.
  - intros s x' s' Hs. destruct (H2 s x' s' Hs) as (x & ? & ?). exists x. split; [done|]. by apply IH.
Qed.

(** Calls of the system that do the same to the memory. *)
Lemma bisim_sys {T T' A} (f : gmap loc Z → T * gmap loc Z) (g : gmap loc Z → T' * gmap loc Z)
    (k : T → prog U A) (h : T' → prog U A) :
  (∀ m, (f m).2 = (g m).2 ∧ bisim (k (f m).1) (h (g m).1)) →
  bisim (do_op (Sys f) ≫= k) (do_op (Sys g) ≫= h).
Proof.
  intros Hfg. simpl. exists T', (Sys g), h. split; [done|].
  split; intros s x s' [Hs|[Hs _]]; simpl in Hs; try discriminate Hs; destruct (Hfg (mem s)) as [Hm Hk].
  - destruct (f (mem s)) as [a m] eqn:E. injection Hs as <- <-. exists (g (mem s)).1. split; [|done].
    left. simpl. destruct (g (mem s)). simpl in *. by subst.
  - destruct (g (mem s)) as [a m] eqn:E. injection Hs as <- <-. exists (f (mem s)).1. split; [|done].
    left. simpl. destruct (f (mem s)). simpl in *. by subst.
Qed.

Lemma bisim_bind_val {A B} (p q : prog U A) (k : A → prog U B) : bisim p q → bisim (p ≫= k) (q ≫= k).
Proof. intros. apply bisim_bind; [done|intros; apply bisim_refl]. Qed.

Lemma bisim_sym {A} (p q : prog U A) : bisim p q → bisim q p.
Proof.
  revert q. induction p as [a| | | | |T o k IH]; simpl; intros q Hq; try by subst.
  destruct Hq as (T' & o' & k' & -> & H1 & H2). exists T, o, k. split; [done|].
  split; intros s x s' Hs; [destruct (H2 s x s' Hs) as (y & ? & ?)|destruct (H1 s x s' Hs) as (y & ? & ?)];
    exists y; auto.
Qed.

Lemma bisim_trans {A} (p q r : prog U A) : bisim p q → bisim q r → bisim p r.
Proof.
  revert q r. induction p as [a| | | | |T o k IH]; simpl; intros q r Hq Hr; try by subst.
  destruct Hq as (T1 & o1 & k1 & -> & H1 & H2), Hr as (T2 & o2 & k2 & -> & H3 & H4).
  exists T2, o2, k2. split; [done|]. split.
  - intros s x s' Hs. destruct (H1 s x s' Hs) as (y & Hy & ?). destruct (H3 s y s' Hy) as (z & ? & ?).
    exists z. split; [done|]. by apply (IH x (k1 y)).
  - intros s z s' Hs. destruct (H4 s z s' Hs) as (y & Hy & ?). destruct (H2 s y s' Hy) as (x & ? & ?).
    exists x. split; [done|]. by apply (IH x (k1 y)).
Qed.

Lemma bisim_assoc {A B C} (p : prog U A) (f : A → prog U B) (g : B → prog U C) :
  bisim (p ≫= λ x, f x ≫= g) ((p ≫= f) ≫= g).
Proof.
  induction p as [a| | | | |T o k IH]; simpl; try done; [apply bisim_refl|].
  do 3 eexists. split; [done|]. split; intros s x s' Hs; exists x; (split; [done|apply IH]).
Qed.

(** Pools of such programs reach the same states. *)
Lemma bisim_step (ps qs : list (prog U unit)) s ps' s' :
  Forall2 bisim ps qs → pool_step (ps, s) (ps', s') →
  ∃ qs', pool_step (qs, s) (qs', s') ∧ Forall2 bisim ps' qs'.
Proof.
  intros Hpq Hstep. inversion Hstep as [i T o k ? ? x ? Hi Ho]; simplify_eq.
  destruct (Forall2_lookup_l _ _ _ _ _ Hpq Hi) as (q & Hq & T' & o' & h & -> & H1 & _).
  destruct (H1 s x s' Ho) as (x' & Hx' & Hb).
  exists (<[i := h x']> qs). split; [by econstructor|]. by apply Forall2_insert.
Qed.

Lemma bisim_reachable (ps qs : list (prog U unit)) s ps' s' :
  Forall2 bisim ps qs → reachable ps s ps' s' →
  ∃ qs', reachable qs s qs' s' ∧ Forall2 bisim ps' qs'.
Proof.
  unfold reachable. intros Hpq Hr. remember (ps, s) as c eqn:Ec. remember (ps', s') as c' eqn:Ec'.
  revert ps qs s Ec Hpq. induction Hr as [c|c [ps1 s1] c' Hstep Hr IH]; intros ps qs s -> Hpq.
  - simplify_eq. by exists qs.
  - destruct (bisim_step _ _ _ _ _ Hpq Hstep) as (qs1 & Hstep' & Hpq1).
    destruct (IH Ec' _ qs1 _ eq_refl Hpq1) as (qs' & Hr' & Hpq'). exists qs'. split; [|done].
    by eapply rtc_l.
Qed.
End bisim.

(** ** The crate parking_lot_core

    A thread that is parked has a ticket, with the key it is parked on and
    whether it has been unparked. *)
Abbreviation memory := (gmap loc Z) (only parsing).
Abbreviation lot_of := (gmap positive (Z * bool)).

Inductive FilterOp := Unpark | Stop | Skip.
Inductive ParkResult := Unparked | Invalid | TimedOut.

(** The threads a filter, a closure with its state, picks from a queue. *)
Fixpoint scan {S} (filter : S → FilterOp * S) (c : S) (ts : list positive) : list positive * S :=
  match ts with
  | [] => ([], c)
  | t :: ts =>
      match filter c with
      | (Unpark, c) => let '(us, c) := scan filter c ts in (t :: us, c)
      | (Skip, c) => scan filter c ts
      | (Stop, c) => ([], c)
      end
  end.

Definition unparked (e : Z * bool) : Z * bool := (e.1, true).
Definition unpark_all (ts : list positive) (q : lot_of) : lot_of := foldr (alter unparked) q ts.

(** The crate keeps its queues in memory of its own. Each call locks the queue of
    its key, and so happens at once. *)
Class ParkingLot := {
  lot : memory → lot_of;
  lot_cell : loc → Prop;
  lot_insert l v m : lot_cell l → lot (<[l := v]> m) = lot m;
  (** The threads that are parked on a key, the first one first. *)
  lot_queue : Z → memory → list positive;
  lot_queue_NoDup key m : NoDup (lot_queue key m);
  lot_queue_elem key m t : t ∈ lot_queue key m → lot m !! t = Some (key, false);
  (** [validate] is called with the queue locked and can abort the operation. *)
  lot_park : Z → (memory → bool) → memory → option positive * memory;
  lot_park_law key validate m :
    let '(r, m') := lot_park key validate m in
    (∀ l, lot_cell l → m' !! l = m !! l) ∧
    match r with
    | Some t => validate m = true ∧ lot m !! t = None ∧ lot m' = <[t := (key, false)]> (lot m)
    | None => validate m = false ∧ lot m' = lot m
    end;
  (** The return of a call without a timeout: once the thread is unparked. *)
  lot_return : positive → memory → bool * memory;
  lot_return_law t m :
    let '(r, m') := lot_return t m in
    (∀ l, lot_cell l → m' !! l = m !! l) ∧
    if r : bool then lot m' = delete t (lot m) ∧ ∀ e, lot m !! t = Some e → e.2 = true
    else lot m' = lot m;
  (** The filter is called for each thread of the queue or until it stops. *)
  lot_unpark_filter {S : Set} : Z → (S → FilterOp * S) → S → memory → (Z * S) * memory;
  lot_unpark_filter_law {S : Set} key (filter : S → FilterOp * S) c m :
    let '(ts, c') := scan filter c (lot_queue key m) in
    let '(r, m') := lot_unpark_filter key filter c m in
    (∀ l, lot_cell l → m' !! l = m !! l) ∧
    r = (Z.of_nat (length ts), c') ∧ lot m' = unpark_all ts (lot m);
  lot_unpark_one : Z → memory → Z * memory;
  lot_unpark_one_law key m :
    let '(r, m') := lot_unpark_one key m in
    (∀ l, lot_cell l → m' !! l = m !! l) ∧
    r = Z.of_nat (length (take 1 (lot_queue key m))) ∧
    lot m' = unpark_all (take 1 (lot_queue key m)) (lot m);
}.

(** A parking lot that keeps its threads in cell 1. *)
Definition lot_1 (m : memory) : lot_of :=
  match m !! 1%positive with Some (Zpos x) => default ∅ (decode x) | _ => ∅ end.
Definition store_lot (q : lot_of) (m : memory) : memory := <[1%positive := Zpos (encode q)]> m.
Definition queue_of_key (key : Z) (m : memory) : list positive :=
  filter (λ t, lot_1 m !! t = Some (key, false)) (elements (dom (lot_1 m))).

Lemma lot_store q m : lot_1 (store_lot q m) = q.
Proof. unfold lot_1, store_lot. by rewrite lookup_insert_eq, decode_encode. Qed.
Lemma store_lot_other q m l : l ≠ 1%positive → store_lot q m !! l = m !! l.
Proof. intros. unfold store_lot. by rewrite lookup_insert_ne. Qed.

Definition parking_lot_1 : ParkingLot.
Proof.
  refine {|
    lot := lot_1;
    lot_cell l := l ≠ 1%positive;
    lot_queue := queue_of_key;
    lot_park key validate m :=
      if validate m then
        let t := fresh (dom (lot_1 m)) in (Some t, store_lot (<[t := (key, false)]> (lot_1 m)) m)
      else (None, m);
    lot_return t m :=
      match lot_1 m !! t with
      | Some (_, true) => (true, store_lot (delete t (lot_1 m)) m)
      | _ => (false, m)
      end;
    lot_unpark_filter S key filter c m :=
      let '(ts, c) := scan filter c (queue_of_key key m) in
      ((Z.of_nat (length ts), c), store_lot (unpark_all ts (lot_1 m)) m);
    lot_unpark_one key m :=
      let ts := take 1 (queue_of_key key m) in
      (Z.of_nat (length ts), store_lot (unpark_all ts (lot_1 m)) m);
  |}.
  - intros l v m Hl. unfold lot_1. by rewrite lookup_insert_ne.
  - intros key m. apply list.NoDup_filter, NoDup_elements.
  - intros key m t Ht. by apply list_elem_of_filter in Ht as [? _].
  - intros key validate m. destruct (validate m) eqn:Ev; [|done].
    cbv zeta beta iota. rewrite lot_store. split; [intros; by apply store_lot_other|].
    split_and!; [done| |done]. apply not_elem_of_dom, is_fresh.
  - intros t m. destruct (lot_1 m !! t) as [[key [|]]|] eqn:Et; try done.
    rewrite lot_store. split; [intros; by apply store_lot_other|]. split; [done|].
    intros e He. by simplify_eq.
  - intros S key f c m. destruct (scan f c (queue_of_key key m)) as [ts c'].
    rewrite lot_store. split; [intros; by apply store_lot_other|done].
  - intros key m. cbv zeta beta iota. rewrite lot_store. split; [intros; by apply store_lot_other|done].
Defined.

(** ** The system a parking lot makes

    A cell of 32 bits is at an address divisible by four: the keys of different
    words differ. *)
Definition address (l : loc) : Z := 4 * Zpos l.

Definition parked_of (e : Z * bool) : parked :=
  Parked (Z.to_pos (e.1 / 4))
    (if e.1 mod 4 =? 0 then READER_BIT else if e.1 mod 4 =? 1 then WRITER_BIT else 4) e.2.

Lemma parked_of_reader l w : parked_of (address l, w) = Parked l READER_BIT w.
Proof.
  unfold parked_of, address; cbn [fst snd]. rewrite (Z.mul_comm 4), Z.div_mul, Z_mod_mult by lia. done.
Qed.
Lemma parked_of_writer l w : parked_of (address l + 1, w) = Parked l WRITER_BIT w.
Proof.
  unfold parked_of, address; cbn [fst snd]. rewrite Z.add_comm, (Z.mul_comm 4).
  rewrite Z.div_add, Z_mod_plus_full by lia. done.
Qed.

Lemma unpark_all_parked ts q : parked_of <$> unpark_all ts q = set_all_woken ts (parked_of <$> q).
Proof.
  induction ts as [|t ts IH]; simpl; [done|]. rewrite <- IH. generalize (unpark_all ts q) as q'. intros q'.
  apply map_eq. intros u. rewrite lookup_fmap. destruct (decide (t = u)) as [->|Hne].
  - rewrite !lookup_alter_eq, lookup_fmap. by destruct (q' !! u).
  - rewrite !lookup_alter_ne, lookup_fmap by done. done.
Qed.

(** The closure of [wake_readers] with its counter. *)
Definition wake_filter (n c : Z) : FilterOp * Z := if c <? n then (Unpark, c + 1) else (Stop, c).

Lemma scan_wake_filter n c ts :
  scan (wake_filter n) c ts = (take (Z.to_nat (n - c)) ts, c + Z.of_nat (length (take (Z.to_nat (n - c)) ts))).
Proof.
  revert c. induction ts as [|t ts IH]; intros c; simpl.
  { rewrite take_nil. simpl. f_equal. lia. }
  unfold wake_filter at 1. destruct (Z.ltb_spec c n) as [Hc|Hc].
  - rewrite IH. replace (Z.to_nat (n - c)) with (S (Z.to_nat (n - (c + 1)))) by lia. simpl. f_equal. lia.
  - replace (Z.to_nat (n - c)) with O by lia. simpl. f_equal. lia.
Qed.

Section kernel.
Context {PL : ParkingLot}.

Definition lot_wait (l : loc) (v bits : u32) (m : memory) : option positive * memory :=
  let validate m := default 0 (m !! l) =? v in
  if bits =? READER_BIT then lot_park (address l) validate m
  else if bits =? WRITER_BIT then lot_park (address l + 1) validate m
  else (None, m).

Definition lot_returns (t : positive) (m : memory) : option bool * memory :=
  let '(r, m) := lot_return t m in (if r : bool then Some true else None, m).

Definition lot_wake (l : loc) (n : Z) (bits : u32) (m : memory) : Z * memory :=
  if bits =? READER_BIT then
    let '((count, _), m) := lot_unpark_filter (address l) (wake_filter n) 0 m in (count, m)
  else if (bits =? WRITER_BIT) && (1 <=? n) then lot_unpark_one (address l + 1) m
  else (0, m).

Lemma lot_woken key n m :
  NoDup (take n (lot_queue key m)) ∧
  Forall (λ t, (parked_of <$> lot m) !! t = Some (parked_of (key, false))) (take n (lot_queue key m)).
Proof.
  split.
  - apply (sublist_NoDup _ (lot_queue key m)); [apply lot_queue_NoDup|apply sublist_take].
  - apply list.Forall_forall. intros t Ht%(subseteq_take _ _ _). rewrite lookup_fmap.
    by rewrite (lot_queue_elem _ _ _ Ht).
Qed.

(** The counter of the closure ends as the number of threads it unparked. *)
Lemma lot_filter_count key n m :
  ∃ count m', lot_unpark_filter key (wake_filter n) 0 m = ((count, count), m').
Proof.
  pose proof (lot_unpark_filter_law key (wake_filter n) 0 m) as Hl. rewrite scan_wake_filter in Hl.
  destruct (lot_unpark_filter key (wake_filter n) 0 m) as [[count c] m'], Hl as (_ & [= -> ->] & _).
  by eexists _, _.
Qed.

Lemma lot_park_parks key validate l bits m :
  parked_of (key, false) = Parked l bits false →
  let '(r, m') := lot_park key validate m in
  (∀ l', lot_cell l' → m' !! l' = m !! l') ∧
  match r with
  | Some t => (parked_of <$> lot m) !! t = None ∧
              parked_of <$> lot m' = <[t := Parked l bits false]> (parked_of <$> lot m)
  | None => parked_of <$> lot m' = parked_of <$> lot m
  end.
Proof.
  intros Hkey. pose proof (lot_park_law key validate m) as Hl.
  destruct (lot_park key validate m) as [[t|] m'], Hl as (Hm & Hl); (split; [done|]).
  - destruct Hl as (_ & Ht & ->). by rewrite lookup_fmap, Ht, fmap_insert, Hkey.
  - by destruct Hl as (_ & ->).
Qed.

#[export] Program Instance kernel_of_lot : Kernel := {|
  queue m := parked_of <$> lot m;
  user_cell := lot_cell;
  sys_wait := lot_wait;
  sys_return := lot_returns;
  sys_wake := lot_wake;
|}.
Next Obligation. intros. simpl. by rewrite lot_insert. Qed.
Next Obligation.
  intros l v bits m. unfold lot_wait. destruct (Z.eqb_spec bits READER_BIT) as [->|_].
  { apply lot_park_parks, parked_of_reader. }
  destruct (Z.eqb_spec bits WRITER_BIT) as [->|_]; [apply lot_park_parks, parked_of_writer|done].
Qed.
Next Obligation.
  intros t m. unfold lot_returns. pose proof (lot_return_law t m) as Hl.
  destruct (lot_return t m) as [[|] m'], Hl as (Hm & Hl); (split; [done|]).
  - destruct Hl as (-> & Ht). split; [apply fmap_delete|].
    intros k Hk. rewrite lookup_fmap in Hk. destruct (lot m !! t) as [e|]; simplify_eq/=. by apply Ht.
  - by rewrite Hl.
Qed.
Next Obligation.
  intros l n bits m. unfold lot_wake. destruct (Z.eqb_spec bits READER_BIT) as [->|_].
  - pose proof (lot_unpark_filter_law (address l) (wake_filter n) 0 m) as Hl.
    rewrite scan_wake_filter in Hl. destruct (lot_unpark_filter _ _ _ _) as [[count c] m'].
    destruct Hl as (Hm & [= -> _] & ->). split; [done|].
    exists (take (Z.to_nat (n - 0)) (lot_queue (address l) m)).
    destruct (lot_woken (address l) (Z.to_nat (n - 0)) m) as [? Hw]. rewrite parked_of_reader in Hw.
    split_and!; [done|done| |done|apply unpark_all_parked]. rewrite length_take. lia.
  - destruct (Z.eqb_spec bits WRITER_BIT) as [->|_], (Z.leb_spec 1 n) as [Hn|_]; simpl;
      try (split; [done|]; exists []; split_and!; [constructor|done|lia|constructor|done]).
    pose proof (lot_unpark_one_law (address l + 1) m) as Hl.
    destruct (lot_unpark_one _ m) as [r m'], Hl as (Hm & -> & ->). split; [done|].
    exists (take 1 (lot_queue (address l + 1) m)).
    destruct (lot_woken (address l + 1) 1 m) as [? Hw]. rewrite parked_of_writer in Hw.
    split_and!; [done|done| |done|apply unpark_all_parked]. rewrite length_take. lia.
Qed.
End kernel.

(** ** The module [other] *)
Module other.
Section other.
Context {PL : ParkingLot} {U : Type} (aborts : assertion → bool).

Definition reader_key (self : Futex) : Z := address (fx_futex self).
Definition writer_key (self : Futex) : Z := address (fx_futex self) + 1.

(** The calls [park], without a timeout, [unpark_filter] and [unpark_one]. *)
Fixpoint parked_in_lot (fuel : nat) (t : positive) : prog U ParkResult :=
  match fuel with
  | O => Diverge
  | S fuel =>
      r ← do_op (Sys (lot_return t));
      if (r : bool) then Ret Unparked else parked_in_lot fuel t
  end.

Definition park (fuel : nat) (key : Z) (validate : memory → bool) : prog U ParkResult :=
  r ← do_op (Sys (lot_park key validate));
  match r with
  | Some t => parked_in_lot fuel t
  | None => Ret Invalid
  end.

Definition unpark_filter (key : Z) (filter : Z → FilterOp * Z) (c : Z) : prog U (Z * Z) :=
  do_op (Sys (lot_unpark_filter key filter c)).
Definition unpark_one (key : Z) : prog U Z := do_op (Sys (lot_unpark_one key)).

Definition is_unparked (r : ParkResult) : bool := match r with Unparked => true | _ => false end.
Definition holds_value (self : Futex) (value : u32) (m : memory) : bool :=
  default 0 (m !! fx_futex self) =? value.

Definition prefer_wake_one_writer (self : Futex) : prog U bool :=
  v ← do_op (Load (fx_fairness self)); Ret (v `mod` READ_FAIRNESS_PERIOD =? 0).

Definition compare_and_wait_as_reader (fuel : nat) (self : Futex) (value : u32) : prog U bool :=
  r ← park fuel (reader_key self) (holds_value self value); Ret (is_unparked r).

Definition compare_and_wait_as_writer (fuel : nat) (self : Futex) (value : u32) : prog U bool :=
  count ← do_op (FetchAdd 32 (fx_writer_count self) 1);
  assert_at aborts WriterCountOverflow (negb (count =? 2 ^ 32 - 1));;
  r ← park fuel (writer_key self) (holds_value self value);
  let res := is_unparked r in
  prev_count ← do_op (FetchSub 32 (fx_writer_count self) 1);
  assert_at aborts WriterCountUnderflow (negb (prev_count =? 0));;
  (if res && (1 <? prev_count)
   then _ ← do_op (FetchOr (fx_futex self) WRITE_WAITER_BIT); Ret tt else Ret tt);;
  Ret res.

Definition wake_readers (self : Futex) : prog U Z :=
  do_op (Store (fx_fairness self) 1);;
  r ← unpark_filter (reader_key self)
        (λ c, if c <? MAX_WAKED_READERS then (Unpark, c + 1) else (Stop, c)) 0;
  let '(unparked_threads, c) := r in
  (if c =? MAX_WAKED_READERS
   then _ ← do_op (FetchOr (fx_futex self) READ_WAITER_BIT); Ret tt else Ret tt);;
  Ret unparked_threads.

Definition wake_one_writer (self : Futex) : prog U bool :=
  _ ← do_op (FetchAdd 16 (fx_fairness self) 1);
  unparked_threads ← unpark_one (writer_key self);
  Ret (unparked_threads =? 1).
End other.
End other.

(** ** Clients of a futex *)
Inductive fcall : Type → Type :=
| PreferWriter (self : Futex) : fcall bool
| WaitReader (fuel : nat) (self : Futex) (value : u32) : fcall bool
| WaitWriter (fuel : nat) (self : Futex) (value : u32) : fcall bool
| WakeReaders (self : Futex) : fcall Z
| WakeWriter (self : Futex) : fcall bool.

Section clients.
Context {PL : ParkingLot} {U : Type} (aborts : assertion → bool).

(** A thread that works with futexes and with whatever else it reaches. *)
Inductive client (A : Type) : Type :=
| Own (p : prog U A)
| Calls {T} (c : fcall T) (k : T → client A)
| Steps {T} (p : prog U T) (k : T → client A).
#[local] Arguments Own {A}.
#[local] Arguments Calls {A T}.
#[local] Arguments Steps {A T}.

Fixpoint client_prog {A} (ops : ∀ T, fcall T → prog U T) (cl : client A) : prog U A :=
  match cl with
  | Own p => p
  | Calls c k => r ← ops _ c; client_prog ops (k r)
  | Steps p k => r ← p; client_prog ops (k r)
  end.

Definition futex_ops T (c : fcall T) : prog U T :=
  match c in fcall T return prog U T with
  | PreferWriter self => prefer_wake_one_writer false self
  | WaitReader fuel self value => compare_and_wait_as_reader fuel self value
  | WaitWriter fuel self value => compare_and_wait_as_writer aborts fuel self value
  | WakeReaders self => futex_wake_readers self
  | WakeWriter self => wake_one_writer self
  end.

Definition other_ops T (c : fcall T) : prog U T :=
  match c in fcall T return prog U T with
  | PreferWriter self => other.prefer_wake_one_writer self
  | WaitReader fuel self value => other.compare_and_wait_as_reader fuel self value
  | WaitWriter fuel self value => other.compare_and_wait_as_writer aborts fuel self value
  | WakeReaders self => other.wake_readers self
  | WakeWriter self => other.wake_one_writer self
  end.

Lemma parked_bisim fuel t :
  bisim (r ← other.parked_in_lot fuel t; Ret (other.is_unparked r)) (parked_until (U:=U) fuel t).
Proof.
  induction fuel as [|fuel IH]; [done|]. apply (bisim_sys (lot_return t) (lot_returns t)).
  intros m. unfold lot_returns. by destruct (lot_return t m) as [[|] m'].
Qed.

Lemma park_bisim fuel (self : Futex) value bits key :
  (∀ m, lot_wait (fx_futex self) value bits m = lot_park key (other.holds_value self value) m) →
  bisim (r ← other.park fuel key (other.holds_value self value); Ret (other.is_unparked r))
        (wait_bitset (U:=U) fuel self value bits).
Proof.
  intros Hw. apply (bisim_sys (lot_park key (other.holds_value self value)) (lot_wait (fx_futex self) value bits)).
  intros m. rewrite Hw. split; [done|]. destruct (lot_park key _ m) as [[t|] m']; [apply parked_bisim|done].
Qed.

Lemma other_op_bisim T (c : fcall T) : bisim (other_ops T c) (futex_ops T c).
Proof.
  destruct c as [self|fuel self value|fuel self value|self|self].
  - apply bisim_refl.
  - by apply park_bisim.
  - apply bisim_bind; [apply bisim_refl|]. intros count. apply bisim_bind; [apply bisim_refl|]. intros _.
    match goal with |- bisim (?p ≫= _) (_ ≫= ?g) =>
      apply (bisim_trans _ ((p ≫= λ r, Ret (other.is_unparked r)) ≫= g));
        [apply (bisim_assoc p (λ r, Ret (other.is_unparked r)) g)|] end.
    by apply bisim_bind_val, park_bisim.
  - apply bisim_bind; [apply bisim_refl|]. intros _.
    apply (bisim_sys (lot_unpark_filter (other.reader_key self) (wake_filter MAX_WAKED_READERS) 0)
             (lot_wake (fx_futex self) MAX_WAKED_READERS READER_BIT)).
    intros m. unfold lot_wake. rewrite Z.eqb_refl. change (address _) with (other.reader_key self).
    destruct (lot_filter_count (other.reader_key self) MAX_WAKED_READERS m) as (count & m' & ->).
    split; [done|apply bisim_refl].
  - apply bisim_bind; [apply bisim_refl|]. intros _. by apply (bisim_sys (lot_unpark_one _) (lot_wake _ _ _)).
Qed.

Lemma client_bisim {A} (cl : client A) : bisim (client_prog other_ops cl) (client_prog futex_ops cl).
Proof.
  induction cl as [p|T c k IH|T p k IH]; simpl; [apply bisim_refl| |];
    (apply bisim_bind; [|done]); [apply other_op_bisim|apply bisim_refl].
Qed.

(** C23: The two implementations of [Futex] are interchangeable: if the crate
    parking_lot_core does what its documentation says, threads that work with any
    number of futexes, and with whatever else they reach, take the cells through
    the same states with the implementation over parking_lot_core as with the one
    on the system's futexes, over the system that the parking lot makes. At each
    reachable state every thread is where its counterpart is: it panics, returns
    the same value or goes on with the same steps. The preference between writers
    and readers is the one in which the implementations differ and is that of the
    module [other] on both sides. *)
Theorem other_implements_futex (cls : list (client unit)) s s' ps' :
  (reachable (client_prog other_ops <$> cls) s ps' s' → ∃ qs',
     reachable (client_prog futex_ops <$> cls) s qs' s' ∧ Forall2 bisim ps' qs') ∧
  (reachable (client_prog futex_ops <$> cls) s ps' s' → ∃ qs',
     reachable (client_prog other_ops <$> cls) s qs' s' ∧ Forall2 bisim ps' qs').
Proof.
  assert (Forall2 bisim (client_prog other_ops <$> cls) (client_prog futex_ops <$> cls)) as Hb.
  { apply Forall2_fmap, Forall_Forall2_diag, Forall_forall. intros. apply client_bisim. }
  split; intros Hr; [by apply (bisim_reachable _ _ _ _ _ Hb)|].
  eapply bisim_reachable; [|done]. apply Forall2_flip. eapply Forall2_impl; [done|]. intros. by apply bisim_sym.
Qed.
End clients.
