(* ===== verification/FutexLive.v ===== *)
(** * The futex locker on a word that nobody else changes

    Sequential runs of the locker: on a word that is free for what is asked,
    locking ends after at most as many retries as there are spurious failures of
    the compare-exchange, [try_lock] gives the same as [lock], and dropping the
    guard restores the word. *)

From stdpp Require Import base list option numbers gmap gmultiset.
From S2P Require Import Prelude Word Phase Atomics SpinWait Locker Tokens Futex FutexLocker FutexInv.
Open Scope Z_scope.

(** ** Steps of a sequential run *)

Section steps.
Context {U : Type}.
Implicit Types s : state U.

Lemma run_do {T A} (o : op U T) (k : T → prog U A) orc s :
  (∀ s, op_spurious o s = None) →
  run (do_op o ≫= k) orc s = let '(x, s') := op_run o s in run (k x) orc s'.
Proof using.
  intros Hsp. change (do_op o ≫= k) with (Vis o k). cbn [run]. rewrite Hsp.
  by destruct orc as [|[] orc].
Qed.

(** A weak compare-exchange that expects what the word is. *)
Lemma run_cas_do {A} l w new (k : result Z Z → prog U A) orc s :
  rd s l = w →
  (∃ orc', (length orc' <= length orc)%nat ∧
     run (do_op (CompareExchange true l w new) ≫= k) orc s = run (k (Ok w)) orc' (wr s l new)) ∨
  (∃ orc', (length orc' < length orc)%nat ∧
     run (do_op (CompareExchange true l w new) ≫= k) orc s = run (k (Err w)) orc' s).
Proof using.
  intros Hrd. change (do_op (CompareExchange true l w new) ≫= k) with (Vis (CompareExchange true l w new) k).
  destruct (run_cas true l w new k orc s Hrd) as [?|(orc' & _ & ?)]; eauto.
Qed.

Lemma do_op_assoc {T A B} (o : op U T) (f : T → prog U A) (k : A → prog U B) :
  (do_op o ≫= f) ≫= k = do_op o ≫= (λ x, f x ≫= k).
Proof using. reflexivity. Qed.

Lemma run_returned {A B} (p : prog U A) (k : A → prog U B) orc s a s' :
  run p orc s = (Returned a, s') →
  ∃ orc', (length orc' <= length orc)%nat ∧ run (p ≫= k) orc s = run (k a) orc' s'.
Proof using. intros Hp. destruct (run_bind_oracle p k orc s) as (orc' & ? & ->). rewrite Hp. eauto. Qed.

End steps.

(** The first part of the program that is run returns. *)
Ltac run_step H :=
  match goal with
  | |- context [run (?p ≫= ?k) ?orc ?s] =>
      let orc' := fresh "orc" in destruct (run_returned p k orc s _ _ H) as (orc' & ? & ->)
  end.

(** A weak compare-exchange on the value of the word succeeds, or uses up one
    spurious failure. *)
Ltac run_exchange Hrd :=
  match goal with
  | |- context [run (do_op (CompareExchange true ?l ?w ?new) ≫= ?k) ?orc ?s] =>
      let orc' := fresh "orc" in
      destruct (run_cas_do l w new k orc s Hrd) as [(orc' & ? & ->)|(orc' & ? & ->)]
  end.

(** ** Free words *)

(** The word is free for what [how] asks of its phase. *)
Definition free_for {BF : Bitflags} (how : How) (w : u32) : bool :=
  match how (from_bits_truncate w) with
  | LNNone => true
  | LNWrite => is_write_lockable w && has_no_readers w
  | LNRead => is_read_lockable w
  end.

(** What taking a word that is free gives, and the state it leaves. *)
Definition taken {BF : Bitflags} (fx : Futex) (how : How) (w : u32) : LockResult ReadLock Lock :=
  match how (from_bits_truncate w) with
  | LNNone => LRNone (from_bits_truncate w)
  | LNWrite => LRWrite (lock_new fx w)
  | LNRead => LRRead (read_lock_new fx w)
  end.
Definition taken_state {BF : Bitflags} {U} (fx : Futex) (how : How) (w : u32) (s : state U) : state U :=
  match how (from_bits_truncate w) with
  | LNNone => s
  | LNWrite => wr s (fx_futex fx) (Z.lor w LOCKED_BIT)
  | LNRead => wr s (fx_futex fx) (wrap 32 (w + READER_UNITY))
  end.

Section live.
Context {KN : Kernel} {BF : Bitflags} {U : Type}.
Context (aborts : assertion → bool) (linux : bool) (fuel : nat) (fx : Futex).
Abbreviation l := (fx_futex fx).
Implicit Types (s : state U) (how : How).

Lemma run_read_lock n shall w sw orc s :
  rd s l = w → shall w = true → (length orc < n)%nat →
  run (read_lock_loop n fx shall w sw) orc s =
    (Returned (Ok (read_lock_new fx w)), wr s l (wrap 32 (w + READER_UNITY))).
Proof using.
  intros Hrd Hs. revert orc sw. induction n as [|n IH]; intros orc sw Hn; [lia|].
  cbn [read_lock_loop].
  destruct (run_cas_do l w (wrap 32 (w + READER_UNITY)) (λ r, match r with
      | Ok _ => Ret (Ok (read_lock_new fx w))
      | Err _ => let '(_, _, sw) := spin_no_yield sw in
          cur ← do_op (Load l);
          if negb (shall cur) then Ret (Err cur) else read_lock_loop n fx shall cur sw
      end) orc s Hrd) as [(orc' & Hlen & ->)|(orc' & Hlen & ->)]; [done|].
  unfold spin_no_yield. rewrite run_do by done. cbn [op_run]. rewrite Hrd, Hs. cbn [negb].
  apply IH. lia.
Qed.

Lemma shall_read_free how w :
  how (from_bits_truncate w) = LNRead → is_read_lockable w = true → shall_read how w = true.
Proof using. intros Hh Hl. unfold shall_read. by rewrite bool_decide_true, Hl. Qed.

Lemma run_attempt_read how w sw orc s :
  rd s l = w → how (from_bits_truncate w) = LNRead → is_read_lockable w = true →
  (length orc < fuel)%nat →
  run (attempt_read fuel fx how w sw) orc s =
    (Returned (Done (LRRead (read_lock_new fx w))), wr s l (wrap 32 (w + READER_UNITY))).
Proof using.
  intros Hrd Hhow Hl Hfuel. unfold attempt_read. rewrite Hl.
  unfold read_lock.
  by run_step (run_read_lock fuel (shall_read how) w SpinWait.new orc s Hrd
    (shall_read_free _ _ Hhow Hl) Hfuel).
Qed.

Lemma run_slow_loop n how wake w sw orc s :
  rd s l = w → free_for how w = true → (length orc < n)%nat → (length orc < fuel)%nat →
  run (raw_lock_slow_loop aborts linux fuel n fx how wake w sw) orc s =
    (Returned (taken fx how w), taken_state fx how w s).
Proof using.
  intros Hrd Hfree. revert orc sw. induction n as [|n IH]; intros orc sw Hn Hfuel; [lia|].
  pose proof Hfree as Hfree'. unfold free_for in Hfree'. cbn [raw_lock_slow_loop].
  destruct (how (from_bits_truncate w)) eqn:Hhow.
  - run_step (run_attempt_read how w sw orc s Hrd Hhow Hfree' Hfuel).
    unfold taken, taken_state. by rewrite Hhow.
  - apply andb_prop in Hfree' as [Hl Hr]. unfold attempt_write. cbv zeta. rewrite Hl, Hr.
    rewrite do_op_assoc. run_exchange Hrd.
    + unfold taken, taken_state. by rewrite Hhow.
    + apply IH; lia.
  - unfold taken, taken_state. by rewrite Hhow.
Qed.

Lemma run_optimistic how hint w orc s :
  rd s l = w → free_for how w = true → phase_range hint →
  run (optimistic_lock fx how hint) orc s = (Returned (Err w), s) ∨
  run (optimistic_lock fx how hint) orc s = (Returned (Ok (taken fx how w)), taken_state fx how w s).
Proof using.
  intros Hrd Hfree Hh. unfold optimistic_lock.
  assert (∀ new (k : result Z Z → prog U (result (LockResult ReadLock Lock) u32)),
    (∀ x, k (Err x) = Ret (Err x)) → w ≠ hint →
    run (do_op (CompareExchange true l hint new) ≫= k) orc s = (Returned (Err w), s)) as Hmiss.
  { intros new k Hk Hne. change (do_op (CompareExchange true l hint new) ≫= k)
      with (Vis (CompareExchange true l hint new) k). cbn [run op_spurious op_run]. rewrite Hrd.
    destruct (Z.eqb_spec w hint); [done|]. by destruct orc as [|[] orc]; rewrite Hk. }
  destruct (how hint) eqn:Ehint.
  - destruct (decide (w = hint)) as [->|Hne]; [|left; by apply Hmiss].
    run_exchange Hrd; [right|by left].
    unfold taken, taken_state. by rewrite truncate_phase, Ehint.
  - destruct (decide (w = hint)) as [->|Hne]; [|left; by apply Hmiss].
    run_exchange Hrd; [right|by left].
    unfold taken, taken_state. by rewrite truncate_phase, Ehint.
  - rewrite run_do by done. cbn [op_run]. rewrite Hrd.
    destruct (how (from_bits_truncate w)) eqn:Ew; [by left..|right].
    unfold taken, taken_state. by rewrite Ew.
Qed.

Lemma run_raw_lock how wake hint w orc s :
  rd s l = w → free_for how w = true → phase_range hint → (length orc < fuel)%nat →
  run (raw_lock aborts linux fuel fx how wake hint) orc s =
    (Returned (taken fx how w), taken_state fx how w s).
Proof using.
  intros Hrd Hfree Hh Hfuel. unfold raw_lock.
  destruct (run_optimistic how hint w orc s Hrd Hfree Hh) as [Hopt|Hopt].
  2: by run_step Hopt.
  run_step Hopt.
  cbv beta iota zeta. pose proof Hfree as Hfree'. unfold free_for in Hfree'.
  destruct (how (from_bits_truncate w)) eqn:Hhow.
  - rewrite Hfree'.
    unfold read_lock.
    run_step (run_read_lock fuel (shall_read how) w SpinWait.new orc0 s Hrd
      (shall_read_free _ _ Hhow Hfree') ltac:(lia)).
    unfold taken, taken_state. by rewrite Hhow.
  - rewrite Hfree'. run_exchange Hrd.
    + unfold taken, taken_state. by rewrite Hhow.
    + unfold raw_lock_slow. rewrite run_do by done. cbn [op_run]. rewrite Hrd.
      apply run_slow_loop; [done|done|lia|lia].
  - unfold taken, taken_state. by rewrite Hhow.
Qed.

Lemma free_for_phase how p : phase_range p → free_for how p = true.
Proof using.
  intros Hp. rewrite (phase_word p). unfold free_for.
  rewrite fx_write_lockable, fx_no_readers, fx_read_lockable by auto with word.
  by destruct (how _).
Qed.

Lemma run_optimistic_busy how hint w orc s :
  rd s l = w → free_for how w = false → phase_range hint →
  run (optimistic_lock fx how hint) orc s = (Returned (Err w), s).
Proof using.
  intros Hrd Hbusy Hh.
  assert (w ≠ hint) as Hne by (intros ->; by rewrite free_for_phase in Hbusy).
  assert (∀ new (k : result Z Z → prog U (result (LockResult ReadLock Lock) u32)),
    (∀ x, k (Err x) = Ret (Err x)) →
    run (do_op (CompareExchange true l hint new) ≫= k) orc s = (Returned (Err w), s)) as Hmiss.
  { intros new k Hk. change (do_op (CompareExchange true l hint new) ≫= k)
      with (Vis (CompareExchange true l hint new) k). cbn [run op_spurious op_run]. rewrite Hrd.
    destruct (Z.eqb_spec w hint); [done|]. by destruct orc as [|[] orc]; rewrite Hk. }
  unfold optimistic_lock. destruct (how hint); [by apply Hmiss..|].
  rewrite run_do by done. cbn [op_run]. rewrite Hrd. unfold free_for in Hbusy.
  by destruct (how (from_bits_truncate w)).
Qed.

(** Without spurious failures [try_raw_lock] takes a word exactly when it is free. *)
Lemma run_try_raw_lock how hint w s :
  rd s l = w → phase_range hint → (0 < fuel)%nat →
  run (try_raw_lock fuel fx how hint) [] s =
    if free_for how w then (Returned (Some (taken fx how w)), taken_state fx how w s)
    else (Returned None, s).
Proof using.
  intros Hrd Hh Hfuel. unfold try_raw_lock. rewrite run_bind.
  destruct (free_for how w) eqn:Hfree.
  - destruct (run_optimistic how hint w [] s Hrd Hfree Hh) as [-> | ->]; [|done].
    cbv beta iota zeta. unfold free_for, taken, taken_state in *.
    destruct (how (from_bits_truncate w)) eqn:Hhow; [|rewrite Hfree|done].
    + destruct fuel as [|n]; [lia|]. cbn [try_read_loop]. rewrite Hfree. cbn [negb].
      cbn. by rewrite Hrd, Z.eqb_refl.
    + cbn. by rewrite Hrd, Z.eqb_refl.
  - rewrite (run_optimistic_busy how hint w [] s Hrd Hfree Hh).
    cbv beta iota zeta. unfold free_for in Hfree.
    destruct (how (from_bits_truncate w)) eqn:Hhow; [|by rewrite Hfree|done].
    destruct fuel as [|n]; [lia|]. cbn [try_read_loop]. by rewrite Hfree.
Qed.

(** ** Dropping on a word without waiters *)

Lemma run_lock_drop p q orc s :
  phase_range p → phase_range q → rd s l = word p 0 true false false →
  run (lock_drop aborts linux fuel (LockC fx p q)) orc s = (Returned tt, wr s l q).
Proof using.
  intros Hp Hq Hrd. unfold lock_drop. cbn [lk_futex lk_init_phase lk_on_unlock].
  rewrite run_do by done. cbn [op_run]. rewrite Hrd, phase_lor_locked, Z.eqb_refl by done. done.
Qed.

(** A reader that leaves others behind, or no waiters, only counts down. *)
Lemma run_read_drop p q n lk rw ww orc s :
  phase_range p → count_range (n + 1) → 0 <= n → 0 < n ∨ rw || ww = false →
  rd s l = word p (n + 1) lk rw ww →
  run (read_lock_drop aborts linux fuel (ReadLockC fx q)) orc s =
    (Returned tt, wr s l (word p n lk rw ww)).
Proof using.
  intros Hp Hn Hpos Hw Hrd. unfold read_lock_drop, read_lock_drop_with. cbn [rl_futex].
  rewrite run_do by done. cbn [op_run rmw]. rewrite Hrd.
  rewrite fx_one_reader, fx_not_write_locked, fx_waiters by done.
  destruct (fx_sub_readers p (n + 1) lk rw ww Hp Hn 1) as [Hsub _]; [lia|].
  rewrite Z.mul_1_r in Hsub. rewrite Hsub. replace (n + 1 - 1) with n by lia.
  destruct Hw as [Hgt|Hw].
  - destruct (Z.eqb_spec (n + 1) 1); [lia|]. done.
  - rewrite Hw, andb_false_r. done.
Qed.
End live.

(** ** Properties *)

Section props.
Context {KN : Kernel} {BF : Bitflags} {U : Type}.
Implicit Types (s : state U) (how : How).

Lemma free_word how p n lk rw ww :
  phase_range p → count_range n →
  (how p = LNRead → joinable n lk rw ww) →
  (how p = LNWrite → n = 0 ∧ lk = false ∧ rw = false ∧ ww = false) →
  free_for how (word p n lk rw ww) = true.
Proof using.
  intros Hp Hn Hr Hw. unfold free_for. rewrite truncate_word by done. destruct (how p).
  - destruct (Hr eq_refl) as [Hmax Hj]. rewrite fx_read_lockable by done.
    destruct (Z.eqb_spec (n `mod` 2 ^ 20) (2 ^ 20 - 1)), (Z.eqb_spec n 0); try done.
    destruct Hj as [?|(-> & -> & ->)]; [lia|done].
  - destruct (Hw eq_refl) as (-> & -> & -> & ->).
    by rewrite fx_write_lockable, fx_no_readers.
  - done.
Qed.

(** C17: taking the futex lock ends. On a word that no other thread changes and
    that is free for what [how] asks, [lock] returns what was asked, without
    being parked, after at most as many retries as there are spurious failures of
    the compare-exchange. *)
Theorem futex_lock_returns {T} aborts linux fuel (fx : Futex) (t : T) how wake hint orc p n lk rw ww s :
  phase_range p → count_range n → phase_range hint →
  rd s (fx_futex fx) = word p n lk rw ww →
  (how p = LNRead → joinable n lk rw ww) →
  (how p = LNWrite → n = 0 ∧ lk = false ∧ rw = false ∧ ww = false) →
  (length orc < fuel)%nat →
  let '(r, s') := run (lock aborts linux fuel fx t how wake hint) orc s in
  match how p with
  | LNNone => r = Returned (LRNone p) ∧ rd s' (fx_futex fx) = word p n lk rw ww
  | LNRead => r = Returned (LRRead (SyncReadPhaseGuardC t (ReadLockC fx p))) ∧
              rd s' (fx_futex fx) = word p (n + 1) lk rw ww
  | LNWrite => r = Returned (LRWrite (SyncPhaseGuardC t (LockC fx p p))) ∧
               rd s' (fx_futex fx) = word p 0 true false false
  end.
Proof using.
  intros Hp Hn Hh Hrd Hr Hw Hfuel. unfold lock.
  run_step (run_raw_lock aborts linux fuel fx how wake hint _ orc s Hrd (free_word _ _ _ _ _ _ Hp Hn Hr Hw) Hh Hfuel).
  unfold taken, taken_state, lock_new, read_lock_new. rewrite truncate_word by done.
  destruct (how p); cbn [run]; (split; [done|]); rewrite ?rd_wr.
  - by apply fx_add_reader, Hr.
  - destruct (Hw eq_refl) as (-> & -> & -> & ->). by apply word_lor_locked.
  - done.
Qed.

(** C21: [try_lock] is [lock] on words that are free, and refuses all others. When
    no compare-exchange fails spuriously it returns what [lock] returns and
    leaves the state that [lock] leaves if the word is free for what [how] asks
    of its phase; else it returns [None] and changes nothing. *)
Theorem try_lock_agrees {T} aborts linux fuel (fx : Futex) (t : T) how wake hint s :
  phase_range hint → (0 < fuel)%nat →
  run (try_lock fuel fx t how hint) [] s =
    if free_for how (rd s (fx_futex fx)) then
      let '(r, s') := run (lock aborts linux fuel fx t how wake hint) [] s in
      (g ← r; Returned (Some g), s')
    else (Returned None, s).
Proof using.
  intros Hh Hfuel. unfold try_lock, lock. rewrite !run_bind.
  rewrite (run_try_raw_lock fuel fx how hint _ s eq_refl Hh Hfuel).
  destruct (free_for how _) eqn:Hfree; [|done].
  by rewrite (run_raw_lock aborts linux fuel fx how wake hint _ [] s eq_refl Hfree Hh Hfuel).
Qed.

(** C18: taking the futex lock and dropping the guard gives back the word. From a
    word that is free for what [how] asks, whatever the hint and the spurious
    failures, the read count is as before and, after a write lock, so is the
    whole word. *)
Theorem lock_drop_roundtrip {T} aborts linux fuel (fx : Futex) (t : T) how wake hint orc p n lk rw ww s :
  phase_range p → count_range n → phase_range hint →
  rd s (fx_futex fx) = word p n lk rw ww →
  (how p = LNRead → joinable n lk rw ww) →
  (how p = LNWrite → n = 0 ∧ lk = false ∧ rw = false ∧ ww = false) →
  (length orc < fuel)%nat →
  let '(r, s') := run (g ← lock aborts linux fuel fx t how wake hint;
                       match g with
                       | LRRead g => read_lock_drop aborts linux fuel (sr_lock g)
                       | LRWrite g => lock_drop aborts linux fuel (sg_lock g)
                       | LRNone _ => Ret tt
                       end) orc s in
  r = Returned tt ∧ rd s' (fx_futex fx) = rd s (fx_futex fx).
Proof using.
  intros Hp Hn Hh Hrd Hr Hw Hfuel. rewrite Hrd.
  pose proof (free_word _ _ _ _ _ _ Hp Hn Hr Hw) as Hfree.
  pose proof (run_raw_lock aborts linux fuel fx how wake hint _ orc s Hrd Hfree Hh Hfuel) as Hraw.
  destruct (run_returned _ (λ r, Ret (guard_result t r)) _ _ _ _ Hraw) as (orc1 & _ & Hlock).
  run_step Hlock.
  unfold taken, taken_state, lock_new, read_lock_new. rewrite truncate_word by done.
  destruct (how p); cbn [guard_result sr_lock sg_lock].
  - destruct (Hr eq_refl) as [Hmax Hj]. destruct (fx_add_reader p n lk rw ww Hp Hn Hmax) as [Hadd Hn'].
    rewrite (run_read_drop aborts linux fuel fx p p n lk rw ww); try done.
    + split; [done|]. by rewrite rd_wr.
    + unfold count_range in Hn. lia.
    + destruct Hj as [?|(_ & -> & ->)]; [by left|by right].
    + by rewrite rd_wr.
  - destruct (Hw eq_refl) as (-> & -> & -> & ->). rewrite word_lor_locked by done.
    rewrite run_lock_drop by (done || by rewrite rd_wr). split; [done|]. rewrite rd_wr. apply phase_word.
  - done.
Qed.

(** C39: [commit_phase] is undone by the drop of the guard. The guard keeps the
    phase it was taken at, and its drop changes the word by the difference to that
    phase: a guard that has committed another phase, and still reports it, leaves
    the old one when it is dropped. *)
Theorem commit_then_drop_undone {T} aborts linux fuel (fx : Futex) (t : T) p q s :
  phase_range p → phase_range q → p ≠ q → rd s (fx_futex fx) = word p 0 true false false →
  let g := set_phase (SyncPhaseGuardC t (LockC fx p p)) q in
  let out := run (commit_phase g;; lock_drop aborts linux fuel (sg_lock g)) [] s in
  guard_phase g = q ∧ out = (Returned tt, wr (wr s (fx_futex fx) (word q 0 true false false)) (fx_futex fx) p).
Proof using.
  intros Hp Hq Hne Hrd. cbn. split; [done|]. rewrite Hrd, !truncate_word by auto with word.
  assert (Z.lxor (word p 0 true false false) (q .^ p) = word q 0 true false false) as Hx.
  { rewrite flags_xor_eq, (phase_word (Z.lxor q p)), word_lxor by eauto with word phase.
    by rewrite (Z.lxor_comm q p), <- Z.lxor_assoc, Z.lxor_nilpotent, Z.lxor_0_l. }
  rewrite Hx, rd_wr, phase_lor_locked by done.
  destruct (Z.eqb_spec (word q 0 true false false) (word p 0 true false false)) as [Heq|_].
  { by apply word_inj in Heq as (-> & _); auto with word. }
  cbn. rewrite rd_wr, fx_waiters by auto with word. cbn.
  rewrite phase_lor_locked, word_lxor by auto with phase word.
  rewrite flags_xor_eq, (Z.lxor_comm p q), <- Z.lxor_assoc, Z.lxor_nilpotent, Z.lxor_0_l.
  by rewrite <- phase_word.
Qed.
End props.

Section witnesses.
#[local] Existing Instances kernel_1 bitflags_1.

Lemma futex_lock_returns_witness :
  (run (lock (λ _, false) true 5 (FutexC 2 3 4) tt (λ _, LNRead) (λ _, LNRead) 1) [true; false; true]
     (State {[2%positive := word 1 6 true true false]} tt)).1
  = Returned (LRRead (SyncReadPhaseGuardC tt (ReadLockC (FutexC 2 3 4) 1))).
Proof.
  pose proof (futex_lock_returns (λ _, false) true 5 (FutexC 2 3 4) tt (λ _, LNRead) (λ _, LNRead) 1
    [true; false; true] 1 6 true true false (State {[2%positive := word 1 6 true true false]} tt)
    ltac:(unfold phase_range; lia) ltac:(unfold count_range; lia) ltac:(unfold phase_range; lia)
    eq_refl (λ _, conj (Z.lt_neq 6 (2 ^ 20 - 1) eq_refl) (or_introl eq_refl)) ltac:(done) ltac:(simpl; lia)) as H.
  destruct (run _ _ _) as [r s]. exact (proj1 H).
Defined.

Lemma try_lock_agrees_witness :
  (run (try_lock 5 (FutexC 2 3 4) tt (λ _, LNWrite) 1) [] (State {[2%positive := word 1 6 false true false]} tt)).1
  = Returned None.
Proof.
  pose proof (try_lock_agrees (λ _, false) true 5 (FutexC 2 3 4) tt (λ _, LNWrite) (λ _, LNWrite) 1
    (State {[2%positive := word 1 6 false true false]} tt) ltac:(unfold phase_range; lia) ltac:(lia)) as H.
  rewrite H. reflexivity.
Defined.

Lemma lock_drop_roundtrip_witness :
  (run (g ← lock (λ _, false) true 5 (FutexC 2 3 4) tt (λ _, LNWrite) (λ _, LNWrite) 0;
        match g with
        | LRRead g => read_lock_drop (λ _, false) true 5 (sr_lock g)
        | LRWrite g => lock_drop (λ _, false) true 5 (sg_lock g)
        | LRNone _ => Ret tt
        end) [true] (State {[2%positive := 9]} tt)).1 = Returned tt.
Proof.
  pose proof (lock_drop_roundtrip (λ _, false) true 5 (FutexC 2 3 4) tt (λ _, LNWrite) (λ _, LNWrite) 0
    [true] 9 0 false false false (State {[2%positive := 9]} tt)
    ltac:(unfold phase_range; lia) ltac:(unfold count_range; lia) ltac:(unfold phase_range; lia)
    eq_refl ltac:(done) ltac:(done) ltac:(simpl; lia)) as H.
  destruct (run _ _ _) as [r s]. exact (proj1 H).
Defined.

Lemma commit_then_drop_undone_witness :
  run (commit_phase (SyncPhaseGuardC tt (LockC (FutexC 2 3 4) 0 1));;
       lock_drop (λ _, false) true 5 (LockC (FutexC 2 3 4) 0 1)) [] (State {[2%positive := LOCKED_BIT]} tt)
  = (Returned tt, wr (wr (State {[2%positive := LOCKED_BIT]} tt) 2 (word 1 0 true false false)) 2 0).
Proof.
  pose proof (commit_then_drop_undone (λ _, false) true 5 (FutexC 2 3 4) tt 0 1
    (State {[2%positive := LOCKED_BIT]} tt)
    ltac:(unfold phase_range; lia) ltac:(unfold phase_range; lia) ltac:(lia) eq_refl) as H.
  exact (proj2 H).
Defined.
End witnesses.
