(* ===== verification/UnSync.v ===== *)
(** * The unsynchronised phase locker (src/phase_locker/unsync.rs)

    A [Cell<u32>] that works like the counter of a [RefCell]: the phase, a
    count of readers and a locked bit. Only the thread that owns the locker can
    reach the cell, so each method is one step on it. *)

From stdpp Require Import base list option numbers.
From S2P Require Import Prelude Word Phase Atomics Locker Tokens Clients.
Open Scope Z_scope.

(** [u32::checked_add] *)
Definition checked_add (a b : u32) : option u32 :=
  if a + b <? 2 ^ 32 then Some (a + b) else None.

Definition UnSyncPhaseLocker := loc.

Record UnSyncPhaseGuard (T : Type) := UnSyncPhaseGuardC {
  ug_target : T; ug_cell : loc; ug_phase : Phase }.
Record UnSyncReadPhaseGuard (T : Type) := UnSyncReadPhaseGuardC {
  ur_target : T; ur_cell : loc }.
Arguments UnSyncPhaseGuardC {T} ug_target ug_cell ug_phase.
Arguments UnSyncReadPhaseGuardC {T} ur_target ur_cell.
Arguments ug_target {T} u.
Arguments ug_cell {T} u.
Arguments ug_phase {T} u.
Arguments ur_target {T} u.
Arguments ur_cell {T} u.

Section unsync.
Context {BF : Bitflags} {U : Type}.

(** ** UnSyncPhaseGuard *)

Definition guard_map {T S} (g : UnSyncPhaseGuard T) (f : T → S) : UnSyncPhaseGuard S :=
  UnSyncPhaseGuardC (f (ug_target g)) (ug_cell g) (ug_phase g).

Definition set_phase {T} (g : UnSyncPhaseGuard T) (p : Phase) : UnSyncPhaseGuard T :=
  UnSyncPhaseGuardC (ug_target g) (ug_cell g) p.

Definition commit_phase {T} (g : UnSyncPhaseGuard T) : prog U unit :=
  do_op (Local (ug_cell g) (λ _, (tt, Z.lor (ug_phase g) LOCKED_BIT))).

Definition guard_into_read {T} (g : UnSyncPhaseGuard T) : prog U (UnSyncReadPhaseGuard T) :=
  do_op (Local (ug_cell g) (λ _, (tt, Z.lor (ug_phase g) READER_UNITY)));;
  Ret (UnSyncReadPhaseGuardC (ug_target g) (ug_cell g)).

Definition guard_drop {T} (g : UnSyncPhaseGuard T) : prog U unit :=
  do_op (Local (ug_cell g) (λ _, (tt, ug_phase g))).

(** ** UnSyncReadPhaseGuard *)

(** [None] is the panic of [unwrap]. *)
Definition clone_cell (cell : u32) : option unit * u32 :=
  match checked_add cell READER_UNITY with
  | Some v => (Some tt, v)
  | None => (None, cell)
  end.

Definition read_clone {T} (g : UnSyncReadPhaseGuard T) : prog U (UnSyncReadPhaseGuard T) :=
  r ← do_op (Local (ur_cell g) clone_cell);
  match r with
  | Some _ => Ret (UnSyncReadPhaseGuardC (ur_target g) (ur_cell g))
  | None => Panic
  end.

Definition read_phase {T} (g : UnSyncReadPhaseGuard T) : prog U Phase :=
  do_op (Local (ur_cell g) (λ v, (from_bits_truncate v, v))).

Definition read_map {T S} (g : UnSyncReadPhaseGuard T) (f : T → S) : UnSyncReadPhaseGuard S :=
  UnSyncReadPhaseGuardC (f (ur_target g)) (ur_cell g).

Definition read_drop {T} (g : UnSyncReadPhaseGuard T) : prog U unit :=
  do_op (Local (ur_cell g) (λ v, (tt, wrap 32 (v - READER_UNITY)))).

(** ** UnSyncPhaseLocker *)

(** [UnSyncPhaseLocker::new]: the initial content of the cell. *)
Definition new (p : Phase) : u32 := p.

Definition phase (c : UnSyncPhaseLocker) : prog U Phase :=
  do_op (Local c (λ v, (from_bits_truncate v, v))).

(** The part of [try_lock] that works on the cell. The outer [option] is a
    panic, the inner one the method's own result; a write lock returns the
    phase [UnSyncPhaseGuard::new] reads. *)
Definition try_lock_cell (lock_nature : How) (cell : u32)
    : option (option (LockResult unit Phase)) * u32 :=
  match lock_nature (from_bits_truncate cell) with
  | LNWrite =>
      if negb (Z.land cell (Z.lor LOCKED_BIT READER_BITS) =? 0) then (Some None, cell)
      else
        let cell := Z.lor cell LOCKED_BIT in
        (Some (Some (LRWrite (from_bits_truncate cell))), cell)
  | LNRead =>
      if negb (Z.land cell LOCKED_BIT =? 0) || (Z.land cell READER_BITS =? READER_BITS)
      then (Some None, cell)
      else
        match checked_add cell READER_UNITY with
        | Some v => (Some (Some (LRRead tt)), v)
        | None => (None, cell)
        end
  | LNNone => (Some (Some (LRNone (from_bits_truncate cell))), cell)
  end.

(** The part of [lock] that works on the cell; [None] is a failed assertion or
    the panic of [unwrap]. *)
Definition lock_cell (lock_nature : How) (cell : u32) : option (LockResult unit Phase) * u32 :=
  match lock_nature (from_bits_truncate cell) with
  | LNWrite =>
      if Z.land cell (Z.lor LOCKED_BIT READER_BITS) =? 0 then
        let cell := Z.lor cell LOCKED_BIT in
        (Some (LRWrite (from_bits_truncate cell)), cell)
      else (None, cell)
  | LNRead =>
      if negb (Z.land cell LOCKED_BIT =? 0) then (None, cell)
      else if Z.land cell READER_BITS =? READER_BITS then (None, cell)
      else
        match checked_add cell READER_UNITY with
        | Some v => (Some (LRRead tt), v)
        | None => (None, cell)
        end
  | LNNone => (Some (LRNone (from_bits_truncate cell)), cell)
  end.

(** The guards built from what the cell gave. *)
Definition make_guard {T} (c : UnSyncPhaseLocker) (v : T) (r : LockResult unit Phase)
    : LockResult (UnSyncReadPhaseGuard T) (UnSyncPhaseGuard T) :=
  match r with
  | LRRead _ => LRRead (UnSyncReadPhaseGuardC v c)
  | LRWrite p => LRWrite (UnSyncPhaseGuardC v c p)
  | LRNone p => LRNone p
  end.

Definition try_lock {T} (c : UnSyncPhaseLocker) (v : T) (lock_nature : How)
    : prog U (option (LockResult (UnSyncReadPhaseGuard T) (UnSyncPhaseGuard T))) :=
  r ← do_op (Local c (try_lock_cell lock_nature));
  match r with
  | Some r => Ret (option_map (make_guard c v) r)
  | None => Panic
  end.

Definition lock {T} (c : UnSyncPhaseLocker) (v : T) (lock_nature : How)
    : prog U (LockResult (UnSyncReadPhaseGuard T) (UnSyncPhaseGuard T)) :=
  r ← do_op (Local c (lock_cell lock_nature));
  match r with
  | Some r => Ret (make_guard c v r)
  | None => Panic
  end.

Definition lock_mut {T} (c : UnSyncPhaseLocker) (v : T) : prog U (UnSyncPhaseGuard T) :=
  p ← do_op (Local c (λ cell, let cell := Z.lor cell LOCKED_BIT in
                              (from_bits_truncate cell, cell)));
  Ret (UnSyncPhaseGuardC v c p).

#[export] Instance unsync_locker :
    PhaseLocker U UnSyncPhaseLocker := {
  ReadGuard := UnSyncReadPhaseGuard;
  WriteGuard := UnSyncPhaseGuard;
  pl_lock T l v how wake hint := lock l v how;
  pl_try_lock T l v how hint := try_lock l v how;
  pl_lock_mut T l v := lock_mut l v;
  pl_phase := phase;
  wg_target := @ug_target;
  wg_set_phase := @set_phase;
  wg_commit_phase := @commit_phase;
  wg_phase := @ug_phase;
  wg_map := @guard_map;
  wg_drop := @guard_drop;
  wg_into_read := @guard_into_read;
  rg_target := @ur_target;
  rg_phase := @read_phase;
  rg_map := @read_map;
  rg_clone := @read_clone;
  rg_drop := @read_drop;
}.

(** ** [impl MutPhaseLocker] *)

Definition mut_get_phase_unique (c : UnSyncPhaseLocker) : prog U Phase :=
  v ← do_op (Local c (λ v, (v, v)));
  match from_bits v with
  | Some p => Ret p
  | None => Panic
  end.

Definition mut_set_phase (c : UnSyncPhaseLocker) (p : Phase) : prog U unit :=
  do_op (Local c (λ _, (tt, p))).

Definition mut_transition {X} (c : UnSyncPhaseLocker) (f : prog U X)
    (on_success on_panic : Phase) : prog U X :=
  do_op (Local c (λ _, (tt, on_panic)));;
  r ← f;
  do_op (Local c (λ _, (tt, on_success)));;
  Ret r.

#[export] Instance unsync_mut_locker : MutPhaseLocker U UnSyncPhaseLocker := {
  get_phase_unique := mut_get_phase_unique;
  set_phase_unique := mut_set_phase;
  transition_unique X := mut_transition;
}.
End unsync.

(** ** What the cell operations do on a well-formed cell *)

(** The largest reader count [lock] and [try_lock] let the cell reach. *)
Definition max_readers : Z := 2 ^ 20 - 1.

Section cell.
Context {BF : Bitflags} (p n : Z) (lk : bool).
Context (Hp : phase_range p) (Hn0 : 0 <= n) (Hn1 : n <= max_readers).
Abbreviation cell := (word p n lk false false).

Lemma count_unsync : count_range n.
Proof using Hn0 Hn1. unfold count_range, max_readers in *. lia. Qed.

Lemma cell_phase : from_bits_truncate cell = p.
Proof using Hp Hn0 Hn1. apply truncate_word; [done|apply count_unsync]. Qed.

Lemma cell_free :
  (Z.land cell (Z.lor LOCKED_BIT READER_BITS) =? 0) = (n =? 0) && negb lk.
Proof using Hp Hn0 Hn1.
  rewrite word_land_locked_readers, mod_count by (done || apply count_unsync || unfold max_readers in *; lia).
  apply eq_true_iff_eq. rewrite Z.eqb_eq, word_0, andb_true_iff, Z.eqb_eq, negb_true_iff
    by (auto with word; apply count_unsync).
  split; [by intros (_ & -> & -> & _)|by intros [-> ->]].
Qed.

Lemma cell_locked : (Z.land cell LOCKED_BIT =? 0) = negb lk.
Proof using Hp Hn0 Hn1. rewrite word_land_locked by (done || apply count_unsync). by destruct lk. Qed.

Lemma cell_full : (Z.land cell READER_BITS =? READER_BITS) = (n =? max_readers).
Proof using Hp Hn0 Hn1.
  rewrite word_land_reader_bits, mod_count by (done || apply count_unsync || unfold max_readers in *; lia).
  rewrite READER_BITS_word. apply eq_true_iff_eq. rewrite !Z.eqb_eq. split; [|by intros ->].
  intros Heq. apply word_inj in Heq as (_ & -> & _); auto with word. apply count_unsync.
Qed.

Lemma cell_add : checked_add cell READER_UNITY = Some (word p (n + 1) lk false false).
Proof using Hp Hn0 Hn1.
  unfold checked_add. rewrite word_add_unity.
  pose proof (word_range p (n + 1) lk false false Hp) as Hr.
  destruct (Z.ltb_spec (word p (n + 1) lk false false) (2 ^ 32)) as [|Hge]; [done|].
  unfold count_range, max_readers in *. lia.
Qed.

Lemma lock_cell_word how :
  lock_cell how cell =
    match how p with
    | LNWrite => if (n =? 0) && negb lk then (Some (LRWrite p), word p 0 true false false)
                 else (None, cell)
    | LNRead => if lk || (n =? max_readers) then (None, cell)
                else (Some (LRRead tt), word p (n + 1) lk false false)
    | LNNone => (Some (LRNone p), cell)
    end.
Proof using Hp Hn0 Hn1.
  unfold lock_cell. rewrite cell_phase. destruct (how p); [| |done].
  - rewrite cell_locked, cell_full, cell_add. by destruct lk, (n =? max_readers).
  - rewrite cell_free. destruct (Z.eqb_spec n 0) as [->|]; [|done]. destruct lk; simpl; [done|].
    rewrite word_lor_locked by auto with word.
    by rewrite truncate_word by auto with word.
Qed.

Lemma try_lock_cell_word how :
  try_lock_cell how cell =
    match how p with
    | LNWrite => if (n =? 0) && negb lk then (Some (Some (LRWrite p)), word p 0 true false false)
                 else (Some None, cell)
    | LNRead => if lk || (n =? max_readers) then (Some None, cell)
                else (Some (Some (LRRead tt)), word p (n + 1) lk false false)
    | LNNone => (Some (Some (LRNone p)), cell)
    end.
Proof using Hp Hn0 Hn1.
  unfold try_lock_cell. rewrite cell_phase. destruct (how p); [| |done].
  - rewrite cell_locked, cell_full, cell_add. by destruct lk, (n =? max_readers).
  - rewrite cell_free. destruct (Z.eqb_spec n 0) as [->|]; [|done]. destruct lk; simpl; [done|].
    rewrite word_lor_locked by auto with word.
    by rewrite truncate_word by auto with word.
Qed.
End cell.

(** ** The contract *)

Section spec.
Context {BF : Bitflags} {U D : Type} `{!EqDecision D} (c : contract U D) (l : loc).

Abbreviation inv := (cell_inv c l max_readers).

Definition unsync_wg_is {T} (g : UnSyncPhaseGuard T) (t : T) (p q : Phase) : Prop :=
  ug_target g = t ∧ ug_cell g = l ∧ ug_phase g = q ∧ phase_range p ∧ phase_range q.
Definition unsync_rg_is {T} (g : UnSyncReadPhaseGuard T) (t : T) (p : Phase) : Prop :=
  ur_target g = t ∧ ur_cell g = l.

Lemma unsync_readers_min : 1 <= max_readers.
Proof. unfold max_readers. lia. Qed.
Lemma unsync_readers_max : max_readers < 2 ^ 21.
Proof. unfold max_readers. lia. Qed.
Hint Resolve unsync_readers_min unsync_readers_max : core.

Lemma unsync_count_max n : 0 <= n <= max_readers → count_range n.
Proof. unfold count_range, max_readers. lia. Qed.
Hint Resolve unsync_count_max : core.

(** Opens one step on the cell and decodes it. *)
Ltac cell_step Hinv p n lk Hrd Hp Hn :=
  apply ok_det; [done|]; intros ?f ?s Hinv; simpl;
  destruct (cell_inv_decode _ _ _ unsync_readers_min unsync_readers_max _ _ Hinv) as (p & n & lk & Hrd & Hp & Hn);
  rewrite ?Hrd.

(** Writing back what was read changes nothing. *)
Lemma inv_same s g v : rd s l = v → inv s g → inv (wr s l v) g.
Proof.
  intros <- (p & n & lk & Hrd & Hr). exists p, n, lk. rewrite rd_wr. done.
Qed.

(** What the result of [lock] or [try_lock] owns. *)
Definition lock_post {T} (t : T) (how : How) (r : LockResult (UnSyncReadPhaseGuard T) (UnSyncPhaseGuard T))
    (g : tokens D) : Prop :=
  match r with
  | LRRead rg => ∃ p d, g = tok_r p d ∧ R c p d ∧ unsync_rg_is rg t p ∧ how p = LNRead
  | LRWrite wg => ∃ p d, g = tok_w p d ∧ R c p d ∧ unsync_wg_is wg t p p ∧ how p = LNWrite
  | LRNone p => g = tok_if (pub c p) ∧ phase_range p ∧ how p = LNNone
  end.

Lemma unsync_lock {T} (t : T) how :
  ok inv (lock l t how) pcm_unit (lock_post t how) (λ g, g = pcm_unit).
Proof.
  unfold lock. apply ok_bind. cell_step Hinv p n lk Hrd Hp Hn.
  rewrite lock_cell_word by (done || lia). destruct (how p) eqn:E.
  - destruct (Z.eqb_spec n max_readers) as [|Hm]; destruct lk; simpl;
      try (exists pcm_unit; split; [by apply inv_same|done]).
    destruct (acquire_read _ _ _ unsync_readers_min unsync_readers_max _ _ _ _ Hinv Hrd Hp) as [Hi HR]; [lia|].
    eexists; split; [exact Hi|]. eexists _, _; split_and!; try done.
  - destruct (Z.eqb_spec n 0) as [->|]; destruct lk; simpl;
      try (exists pcm_unit; split; [by apply inv_same|done]).
    destruct (acquire_write _ _ _ unsync_readers_min unsync_readers_max _ _ _ Hinv Hrd Hp) as [Hi HR].
    eexists; split; [exact Hi|]. eexists _, _; split_and!; try done.
  - exists (tok_if (pub c p)). split; [|done]. apply inv_same; [done|].
    rewrite (left_id_L pcm_unit pcm_op) in Hinv.
    eapply (observe_phase _ _ _ unsync_readers_min unsync_readers_max); eauto.
Qed.

Lemma unsync_try_lock {T} (t : T) how :
  ok inv (try_lock l t how) pcm_unit
    (λ r g, match r with Some r => lock_post t how r g | None => g = pcm_unit end) (λ _, False).
Proof.
  unfold try_lock. apply ok_bind. cell_step Hinv p n lk Hrd Hp Hn.
  rewrite try_lock_cell_word by (done || lia). destruct (how p) eqn:E.
  - destruct (Z.eqb_spec n max_readers) as [|Hm]; destruct lk; simpl;
      try (exists pcm_unit; split; [by apply inv_same|done]).
    destruct (acquire_read _ _ _ unsync_readers_min unsync_readers_max _ _ _ _ Hinv Hrd Hp) as [Hi HR]; [lia|].
    eexists; split; [exact Hi|]. eexists _, _; split_and!; try done.
  - destruct (Z.eqb_spec n 0) as [->|]; destruct lk; simpl;
      try (exists pcm_unit; split; [by apply inv_same|done]).
    destruct (acquire_write _ _ _ unsync_readers_min unsync_readers_max _ _ _ Hinv Hrd Hp) as [Hi HR].
    eexists; split; [exact Hi|]. eexists _, _; split_and!; try done.
  - exists (tok_if (pub c p)). split; [|done]. apply inv_same; [done|].
    rewrite (left_id_L pcm_unit pcm_op) in Hinv.
    eapply (observe_phase _ _ _ unsync_readers_min unsync_readers_max); eauto.
Qed.

Lemma unsync_phase :
  ok inv (phase l) pcm_unit (λ p g, g = tok_if (pub c p) ∧ phase_range p) (λ _, False).
Proof.
  unfold phase, do_op. cell_step Hinv p n lk Hrd Hp Hn.
  rewrite truncate_word by auto.
  exists (tok_if (pub c p)). split; [|done]. apply inv_same; [done|].
  rewrite (left_id_L pcm_unit pcm_op) in Hinv.
  eapply (observe_phase _ _ _ unsync_readers_min unsync_readers_max); eauto.
Qed.

Lemma unsync_wg_drop {T} (g : UnSyncPhaseGuard T) t p q d :
  unsync_wg_is g t p q → moves c p q d →
  ok inv (guard_drop g) (tok_w p d) (λ _ h, h = tok_if (pub c q)) (λ _, False).
Proof.
  intros (_ & Hl & <- & Hp & Hq) Hm. unfold guard_drop, do_op. rewrite Hl.
  apply ok_det; [done|]. intros f s Hinv. simpl.
  exists (tok_if (pub c (ug_phase g))). split; [|done].
  rewrite (phase_word (ug_phase g)) at 1.
  eapply (release_write _ _ _ unsync_readers_min unsync_readers_max); eauto.
Qed.

Lemma unsync_wg_into_read {T} (g : UnSyncPhaseGuard T) t p q d :
  unsync_wg_is g t p q → moves c p q d →
  ok inv (guard_into_read g) (tok_w p d) (λ r h, h = tok_r q d ∧ unsync_rg_is r t q) (λ _, False).
Proof.
  intros (Ht & Hl & <- & Hp & Hq) Hm. unfold guard_into_read. apply ok_bind.
  rewrite Hl. apply ok_det; [done|]. intros f s Hinv. simpl.
  exists (tok_r (ug_phase g) d). split; [|done].
  rewrite phase_lor_unity by done.
  eapply (downgrade _ _ _ unsync_readers_min unsync_readers_max); eauto.
Qed.

Lemma unsync_rg_phase {T} (g : UnSyncReadPhaseGuard T) t p d :
  unsync_rg_is g t p →
  ok inv (read_phase g) (tok_r p d) (λ p' h, p' = p ∧ h = tok_r p d) (λ _, False).
Proof.
  intros [_ Hl]. unfold read_phase, do_op. rewrite Hl.
  apply ok_det; [done|]. intros f s Hinv. simpl.
  destruct (reader_word _ _ _ unsync_readers_min unsync_readers_max _ _ _ _ Hinv) as (n & Hrd & Hp & Hn & _).
  rewrite Hrd, truncate_word by (auto with lia).
  exists (tok_r p d). split; [by apply inv_same|done].
Qed.

Lemma unsync_rg_drop {T} (g : UnSyncReadPhaseGuard T) t p d :
  unsync_rg_is g t p →
  ok inv (read_drop g) (tok_r p d) (λ _ h, h = tok_if (pub c p)) (λ _, False).
Proof.
  intros [_ Hl]. unfold read_drop, do_op. rewrite Hl.
  apply ok_det; [done|]. intros f s Hinv. simpl.
  destruct (reader_word _ _ _ unsync_readers_min unsync_readers_max _ _ _ _ Hinv) as (n & Hrd & Hp & Hn & _).
  rewrite Hrd, word_sub_unity, wrap_word by (done || apply unsync_count_max; lia).
  exists (tok_if (pub c p)). split; [|done].
  eapply (release_read _ _ _ unsync_readers_min unsync_readers_max); eauto with lia.
Qed.

#[export, refine] Instance unsync_spec : PhaseLockerSpec (G:=tokens D) (unsync_locker (U:=U)) c l := {
  linv := inv;
  own_w := tok_w;
  own_r := tok_r;
  own_pub := tok_pub;
  wg_is T := unsync_wg_is;
  rg_is T := unsync_rg_is;
  lock_panics := true;
  clones_bounded := false;
}.
Proof.
  - intros T t how wake hint _. eapply ok_mono; [apply (unsync_lock t how)|..]; [|done].
    intros [r|w|p] g H; try exact H. destruct H as (? & ? & ?). auto.
  - intros T t how hint _. eapply ok_mono; [apply (unsync_try_lock t how)|..]; [|done].
    intros [[r|w|p]|] g H; try exact H. by left.
  - apply unsync_phase.
  - by intros T g t p q (? & _).
  - by intros T g t p q (_ & _ & ? & ? & ?).
  - by intros T g t p q q' (? & ? & ? & ? & ?) ?.
  - intros T S g f t p q (<- & ? & ? & ? & ?). by split_and!.
  - intros T g t p q d. apply unsync_wg_drop.
  - intros T g t p q d. apply unsync_wg_into_read.
  - by intros T g t p (? & _).
  - intros T g t p d. apply unsync_rg_phase.
  - intros T S g f t p (<- & ?). by split_and!.
  - intros T g t p d. apply unsync_rg_drop.
  - done.
  - intros T f p d _. apply write_ok; auto.
  - intros T f p d _. apply read_ok; auto.
  - intros T f _. apply step_ok with (maxr := max_readers); auto.
  - intros T f _. apply pub_ok; auto.
  - intros T f learns. apply observe_ok; auto.
  - intros s g. apply inv_K.
  - done.
Defined.
End spec.

(** ** Properties *)

Section props.
Context {BF : Bitflags} {U : Type}.

(** [lock] on every branch. On a cell with phase [p] and [n] readers, a
    write lock is given when nobody holds a guard and a read lock when no
    writer does and the counter is not full; otherwise the attempt panics and
    leaves the cell alone. It never waits. *)
Theorem lock_functional {T} (l : loc) (t : T) how (s : state U) p n lk :
  phase_range p → 0 <= n <= max_readers → rd s l = word p n lk false false →
  let '(r, s') := run (lock l t how) [] s in
  match how p with
  | LNNone => r = Returned (LRNone p) ∧ rd s' l = rd s l
  | LNRead =>
      if negb lk && (n <? max_readers)
      then r = Returned (LRRead (UnSyncReadPhaseGuardC t l)) ∧ rd s' l = word p (n + 1) lk false false
      else r = Panicked ∧ rd s' l = rd s l
  | LNWrite =>
      if negb lk && (n =? 0)
      then r = Returned (LRWrite (UnSyncPhaseGuardC t l p)) ∧ rd s' l = word p n true false false
      else r = Panicked ∧ rd s' l = rd s l
  end.
Proof.
  intros Hp [Hn0 Hn1] Hrd. unfold lock. rewrite run_bind. simpl. rewrite !Hrd.
  rewrite lock_cell_word by done.
  destruct (how p) eqn:E, lk; simpl;
    rewrite ?andb_false_r, ?andb_true_r; simpl; rewrite ?rd_wr; try done.
  - destruct (Z.eqb_spec n max_readers), (Z.ltb_spec n max_readers); try lia;
      simpl; by rewrite rd_wr.
  - destruct (Z.eqb_spec n 0) as [->|]; simpl; by rewrite rd_wr.
Qed.

(** No operation of this locker contains a loop. *)
Lemma unsync_never_waits : never_waits (unsync_locker (U:=Z)).
Proof.
  split; intros; cbn [unsync_locker pl_lock pl_try_lock pl_phase wg_drop wg_into_read rg_phase rg_clone rg_drop];
    unfold lock, try_lock, guard_into_read, guard_drop, read_phase, read_clone, read_drop, phase;
    repeat fuel_free_step.
Qed.

(** C11: whatever guards one thread takes, keeps, downgrades and drops, in
    whatever order and under whatever [lock] panics it catches, the guards keep
    their promise: a write guard is alone, the data and the phase under a guard
    do not change behind it. The run always ends. *)
Theorem unsync_client_safe (l : UnSyncPhaseLocker) script p (s : state Z) :
  phase_range p → rd s l = new p → Forall (cmd_ok false) script →
  (run (client true l script []) [] s).1 = Returned tt.
Proof.
  intros Hp Hrd Hs.
  assert (cell_inv free_contract l max_readers s (pcm_unit ⋅ pcm_unit)) as Hinv.
  { exists p, 0, false. rewrite Hrd, <- phase_word. by split_and!. }
  pose proof (fuel_free_run _ [] s (client_fuel_free true unsync_never_waits l script [])) as Hff.
  pose proof (client_ok (spec := unsync_spec free_contract l) true (λ _, eq_refl) script []
    pcm_unit Hs (owns_with_nil _)) as Hok.
  pose proof (ok_run _ _ [] _ _ _ _ _ Hok Hinv) as Hrun.
  destruct (run _ [] s) as [[[]| | | |] s']; simpl in *; [done| |done|by destruct Hff..].
  by destruct Hrun as (? & _ & []).
Qed.

(** ** Cloning read guards past the counter *)

Fixpoint clones {T} (n : nat) (g : UnSyncReadPhaseGuard T) : prog U unit :=
  match n with
  | O => Ret tt
  | S n => read_clone g;; clones n g
  end.

Lemma run_clone {T} (g : UnSyncReadPhaseGuard T) (s : state U) p m :
  phase_range p → 0 <= m → m + 1 < 2 ^ 21 →
  rd s (ur_cell g) = word p m false false false →
  ∃ s', run (read_clone g) [] s = (Returned (UnSyncReadPhaseGuardC (ur_target g) (ur_cell g)), s') ∧
        rd s' (ur_cell g) = word p (m + 1) false false false.
Proof.
  intros Hp Hm Hm' Hrd. unfold read_clone. rewrite run_bind. simpl. rewrite Hrd.
  unfold clone_cell, checked_add. rewrite word_add_unity.
  pose proof (word_range p (m + 1) false false false Hp ltac:(unfold count_range; lia)) as Hr.
  destruct (Z.ltb_spec (word p (m + 1) false false false) (2 ^ 32)); [|lia].
  simpl. eexists; split; [done|]. by rewrite rd_wr.
Qed.

Lemma run_clones {T} n (g : UnSyncReadPhaseGuard T) (s : state U) p m :
  phase_range p → 0 <= m → m + Z.of_nat n < 2 ^ 21 →
  rd s (ur_cell g) = word p m false false false →
  ∃ s', run (clones n g) [] s = (Returned tt, s') ∧
        rd s' (ur_cell g) = word p (m + Z.of_nat n) false false false.
Proof.
  revert s m. induction n as [|n IH]; intros s m Hp Hm Hn Hrd.
  { exists s. by rewrite Z.add_0_r. }
  destruct (run_clone g s p m Hp Hm ltac:(lia) Hrd) as (s1 & Hrun1 & Hrd1).
  destruct (IH s1 (m + 1) Hp ltac:(lia) ltac:(lia) Hrd1) as (s2 & Hrun2 & Hrd2).
  exists s2. cbn [clones]. rewrite run_bind, Hrun1. split; [done|].
  rewrite Hrd2. f_equal. lia.
Qed.

Lemma run_lock_read {T} (l : loc) (t : T) p (s : state U) :
  phase_range p → rd s l = word p 0 false false false →
  ∃ s', run (lock l t (λ _, LNRead)) [] s = (Returned (LRRead (UnSyncReadPhaseGuardC t l)), s') ∧
        rd s' l = word p 1 false false false.
Proof.
  intros Hp Hrd. unfold lock. rewrite run_bind. simpl. rewrite Hrd.
  rewrite lock_cell_word by (done || (unfold max_readers; lia)). simpl.
  eexists; split; [done|]. by rewrite rd_wr.
Qed.

(** C40: read guards are not bounded by [READER_BITS] when they are cloned. With
    2^20 read guards alive the reader bits are zero again, and [lock] hands out
    a write guard beside them. *)
Theorem clone_overflow_breaks_exclusion {T} (l : loc) (t : T) p (s : state U) :
  phase_range p → rd s l = new p →
  (run (r ← lock l t (λ _, LNRead);
        match r with
        | LRRead g => clones (Z.to_nat max_readers) g;; lock l t (λ _, LNWrite)
        | r => Ret r
        end) [] s).1 = Returned (LRWrite (UnSyncPhaseGuardC t l p)).
Proof.
  unfold new. rewrite (phase_word p) at 2. intros Hp Hrd. rewrite run_bind.
  destruct (run_lock_read l t p s Hp Hrd) as (s1 & -> & Hrd1).
  rewrite run_bind.
  destruct (run_clones (Z.to_nat max_readers) (UnSyncReadPhaseGuardC t l) s1 p 1 Hp)
    as (s2 & -> & Hrd2); [lia|unfold max_readers; lia|done|]. simpl ur_cell in Hrd2.
  rewrite Z2Nat.id in Hrd2 by (unfold max_readers; lia).
  change (1 + max_readers) with (2 ^ 20) in Hrd2.
  unfold lock. rewrite run_bind. simpl. rewrite Hrd2.
  unfold lock_cell.
  rewrite word_land_locked_readers by auto with word.
  change (2 ^ 20 `mod` 2 ^ 20) with 0. change (word 0 0 false false false =? 0) with true.
  cbv iota zeta. rewrite word_lor_locked by auto with word.
  by rewrite truncate_word by auto with word.
Qed.

End props.

Lemma unsync_client_safe_witness :
  (run (client (ops:=unsync_locker (BF:=bitflags_1)) true (1%positive : UnSyncPhaseLocker)
     [CLock (λ _, LNWrite) (λ _, LNWrite) 0; CWrite 0 7; CSetPhase 0 1;
      CLock (λ _, LNRead) (λ _, LNRead) 0; CDowngrade 0; CTryLock (λ _, LNRead) 0; CCheck 0;
      CCheck 1; CDrop 0; CCheck 0; CDrop 0]
     []) [] (State ∅ 5)).1 = Returned tt.
Proof.
  apply (unsync_client_safe (BF:=bitflags_1) 1%positive _ 0); [unfold phase_range; lia|reflexivity|].
  repeat constructor; unfold phase_range; lia.
Defined.

Lemma lock_functional_witness :
  (run (@lock bitflags_1 unit unit 1%positive tt (λ _, LNRead)) []
     (State {[1%positive := 9 + 3 * READER_UNITY]} tt)).1
  = Returned (LRRead (UnSyncReadPhaseGuardC tt 1%positive)).
Proof.
  pose proof (@lock_functional bitflags_1 unit unit 1%positive tt (λ _, LNRead)
    (State {[1%positive := 9 + 3 * READER_UNITY]} tt) 9 3 false
    ltac:(unfold phase_range; lia) ltac:(unfold max_readers; lia) eq_refl) as H.
  destruct (run _ _ _) as [r s]. exact (proj1 H).
Defined.

Lemma clone_overflow_breaks_exclusion_witness :
  (run (r ← @lock bitflags_1 unit unit 1%positive tt (λ _, LNRead);
        match r with
        | LRRead g => clones (Z.to_nat max_readers) g;;
                      @lock bitflags_1 unit unit 1%positive tt (λ _, LNWrite)
        | r => Ret r
        end) [] (State ∅ tt)).1 = Returned (LRWrite (UnSyncPhaseGuardC tt 1%positive 0)).
Proof.
  apply (@clone_overflow_breaks_exclusion bitflags_1 unit unit 1%positive tt 0 (State ∅ tt));
    [unfold phase_range; lia|reflexivity].
Defined.
