(* ===== verification/SpinLocker.v ===== *)
(** * The spinning phase locker (src/phase_locker/sync_spinning.rs)

    The implementation of [SyncPhaseLocker] selected by the feature
    [spin_loop]: a [AtomicU32] and loops that wait by spinning. The loops take
    a fuel; every safety statement is for any fuel. *)

From stdpp Require Import base list option numbers relations.
From S2P Require Import Prelude Word Phase Atomics SpinWait Locker Tokens Clients.
Open Scope Z_scope.

Definition SyncPhaseLocker := loc.

Record Lock := LockC { lk_futex : loc; lk_init_phase : Phase; lk_on_unlock : Phase }.
Record ReadLock := ReadLockC { rl_futex : loc; rl_init_phase : Phase }.

Record SyncPhaseGuard (T : Type) := SyncPhaseGuardC { sg_target : T; sg_lock : Lock }.
Record SyncReadPhaseGuard (T : Type) := SyncReadPhaseGuardC { sr_target : T; sr_lock : ReadLock }.
Arguments SyncPhaseGuardC {T} sg_target sg_lock.
Arguments SyncReadPhaseGuardC {T} sr_target sr_lock.
Arguments sg_target {T} s.
Arguments sg_lock {T} s.
Arguments sr_target {T} s.
Arguments sr_lock {T} s.

(** ** The predicates on the lock word *)

Definition has_no_readers (v : u32) : bool :=
  Z.land v (Z.lor READER_OVERF READER_BITS) =? 0.

Definition has_readers_max (v : u32) : bool :=
  Z.land v (Z.lor READER_OVERF READER_BITS) =? Z.lor READER_OVERF READER_BITS.

Definition is_not_write_locked (v : u32) : bool := Z.land v LOCKED_BIT =? 0.

Definition is_write_lockable (v : u32) : bool := is_not_write_locked v && has_no_readers v.

Definition is_read_lockable (v : u32) : bool := is_not_write_locked v && negb (has_readers_max v).

Section spin.
Context {BF : Bitflags} {U : Type}.

(** ** Lock *)

Definition lock_new (futex : loc) (current : u32) : Lock :=
  let p := from_bits_truncate current in LockC futex p p.

Definition lock_phase (lk : Lock) : prog U Phase :=
  v ← do_op (Load (lk_futex lk)); Ret (from_bits_truncate v).

Definition xor_phase (lk : Lock) (xor : Phase) : prog U Phase :=
  v ← do_op (FetchXor (lk_futex lk) xor);
  Ret (from_bits_truncate v .^ xor).

Definition read_lock_new (futex : loc) (current : u32) : ReadLock :=
  ReadLockC futex (from_bits_truncate current).

Definition into_read_lock (lk : Lock) (cur : Phase) : prog U ReadLock :=
  let xor := Z.lor (Z.lor (cur .^ lk_on_unlock lk) LOCKED_BIT) READER_UNITY in
  do_op (FetchXor (lk_futex lk) xor);;
  Ret (read_lock_new (lk_futex lk) (lk_on_unlock lk)).

(** [Drop for Lock]; [Err(_)] is [unreachable!()]. *)
Definition lock_drop (lk : Lock) : prog U unit :=
  let p := lk_init_phase lk in
  r ← do_op (CompareExchange false (lk_futex lk) (Z.lor p LOCKED_BIT) (lk_on_unlock lk));
  match r with
  | Ok _ => Ret tt
  | Err _ => Panic
  end.

Definition read_lock_from (this : Lock) : prog U ReadLock :=
  into_read_lock this (lk_init_phase this).

(** ** ReadLock *)

Fixpoint read_lock_clone_loop (fuel : nat) (self : ReadLock) (spin_wait : SpinWait) (cur : u32)
    : prog U ReadLock :=
  match fuel with
  | O => Diverge
  | S fuel =>
      let wait :=
        let '(_, _, spin_wait) := spin_no_yield spin_wait in
        cur ← do_op (Load (rl_futex self));
        read_lock_clone_loop fuel self spin_wait cur in
      if negb (has_readers_max cur) then
        r ← do_op (CompareExchange true (rl_futex self) cur (wrap 32 (cur + READER_UNITY)));
        match r with
        | Ok _ => Ret (ReadLockC (rl_futex self) (rl_init_phase self))
        | Err _ => wait
        end
      else wait
  end.

Definition read_lock_clone (fuel : nat) (self : ReadLock) : prog U ReadLock :=
  cur ← do_op (Load (rl_futex self));
  read_lock_clone_loop fuel self SpinWait.new cur.

Definition read_lock_drop (self : ReadLock) : prog U unit :=
  do_op (FetchSub 32 (rl_futex self) READER_UNITY);; Ret tt.

(** ** SyncPhaseLocker *)

Definition new (p : Phase) : u32 := p.

Definition phase (self : SyncPhaseLocker) : prog U Phase :=
  v ← do_op (Load self); Ret (from_bits_truncate v).

(** The first attempt of [raw_lock] and [try_raw_lock], on the hint: [Err]
    carries the value of the lock word that was found. *)
Definition hinted_lock (self : SyncPhaseLocker) (how : How) (hint : Phase)
    : prog U (result (LockResult ReadLock Lock) u32) :=
  let cur := hint in
  match how hint with
  | LNNone =>
      cur ← do_op (Load self);
      let p := from_bits_truncate cur in
      match how p with
      | LNNone => Ret (Ok (LRNone p))
      | _ => Ret (Err cur)
      end
  | LNWrite =>
      r ← do_op (CompareExchange true self cur (Z.lor cur LOCKED_BIT));
      match r with
      | Ok _ => Ret (Ok (LRWrite (lock_new self cur)))
      | Err x => Ret (Err x)
      end
  | LNRead =>
      r ← do_op (CompareExchange true self cur (wrap 32 (cur + READER_UNITY)));
      match r with
      | Ok _ => Ret (Ok (LRRead (read_lock_new self cur)))
      | Err x => Ret (Err x)
      end
  end.

(** The read loop of [try_raw_lock]; [None] leaves it by [break]. *)
Fixpoint try_read_loop (fuel : nat) (self : SyncPhaseLocker) (how : How) (cur : u32)
    : prog U (option ReadLock) :=
  match fuel with
  | O => Diverge
  | S fuel =>
      if negb (is_read_lockable cur) then Ret None
      else
        r ← do_op (CompareExchange true self cur (wrap 32 (cur + READER_UNITY)));
        match r with
        | Ok _ => Ret (Some (read_lock_new self cur))
        | Err x =>
            let cur := x in
            if negb (bool_decide (how (from_bits_truncate cur) = LNRead)) then Ret None
            else try_read_loop fuel self how cur
        end
  end.

Definition try_raw_lock (fuel : nat) (self : SyncPhaseLocker) (how : How) (hint : Phase)
    : prog U (option (LockResult ReadLock Lock)) :=
  r ← hinted_lock self how hint;
  match r with
  | Ok x => Ret (Some x)
  | Err cur =>
      let p := from_bits_truncate cur in
      match how p with
      | LNWrite =>
          if is_write_lockable cur then
            r ← do_op (CompareExchange false self cur (Z.lor cur LOCKED_BIT));
            match r with
            | Ok _ => Ret (Some (LRWrite (lock_new self cur)))
            | Err _ => Ret None
            end
          else Ret None
      | LNRead =>
          r ← try_read_loop fuel self how cur;
          match r with
          | Some l => Ret (Some (LRRead l))
          | None => Ret None
          end
      | LNNone => Ret (Some (LRNone p))
      end
  end.

(** The inner read loop of [raw_lock_slow]; [Err] leaves it by [break]. *)
Fixpoint slow_read_loop (fuel : nat) (self : SyncPhaseLocker) (how : How) (cur : u32)
    (spin_wait : SpinWait) : prog U (result ReadLock u32) :=
  match fuel with
  | O => Diverge
  | S fuel =>
      if negb (is_read_lockable cur) then Ret (Err cur)
      else
        r ← do_op (CompareExchange true self cur (wrap 32 (cur + READER_UNITY)));
        match r with
        | Ok _ => Ret (Ok (read_lock_new self cur))
        | Err _ =>
            let '(b, _, spin_wait) := spin_no_yield spin_wait in
            if negb b then Ret (Err cur)
            else
              cur ← do_op (Load self);
              if negb (bool_decide (how (from_bits_truncate cur) = LNRead)) then Ret (Err cur)
              else slow_read_loop fuel self how cur spin_wait
        end
  end.

Fixpoint raw_lock_slow (fuel : nat) (self : SyncPhaseLocker) (how : How) (cur : u32)
    (spin_wait : SpinWait) : prog U (LockResult ReadLock Lock) :=
  match fuel with
  | O => Diverge
  | S fuel =>
      let p := from_bits_truncate cur in
      let next :=
        let '(_, _, spin_wait) := spin_no_yield spin_wait in
        cur ← do_op (Load self);
        raw_lock_slow fuel self how cur spin_wait in
      match how p with
      | LNWrite =>
          if is_write_lockable cur then
            r ← do_op (CompareExchange true self cur (Z.lor cur LOCKED_BIT));
            match r with
            | Ok _ => Ret (LRWrite (lock_new self cur))
            | Err x => raw_lock_slow fuel self how x spin_wait
            end
          else next
      | LNRead =>
          r ← slow_read_loop fuel self how cur SpinWait.new;
          match r with
          | Ok l => Ret (LRRead l)
          | Err _ => next
          end
      | LNNone => Ret (LRNone p)
      end
  end.

Definition raw_lock (fuel : nat) (self : SyncPhaseLocker) (how _on_waiting_how : How) (hint : Phase)
    : prog U (LockResult ReadLock Lock) :=
  r ← hinted_lock self how hint;
  match r with
  | Ok x => Ret x
  | Err cur => raw_lock_slow fuel self how cur SpinWait.new
  end.

(** [SyncPhaseGuard::new] and [SyncReadPhaseGuard::new] on a result. *)
Definition guard_result {T} (v : T) (r : LockResult ReadLock Lock)
    : LockResult (SyncReadPhaseGuard T) (SyncPhaseGuard T) :=
  match r with
  | LRWrite l => LRWrite (SyncPhaseGuardC v l)
  | LRRead l => LRRead (SyncReadPhaseGuardC v l)
  | LRNone p => LRNone p
  end.

Definition lock {T} (fuel : nat) (self : SyncPhaseLocker) (v : T) (how on_waiting_how : How)
    (hint : Phase) : prog U (LockResult (SyncReadPhaseGuard T) (SyncPhaseGuard T)) :=
  r ← raw_lock fuel self how on_waiting_how hint; Ret (guard_result v r).

Definition try_lock {T} (fuel : nat) (self : SyncPhaseLocker) (v : T) (how : How) (hint : Phase)
    : prog U (option (LockResult (SyncReadPhaseGuard T) (SyncPhaseGuard T))) :=
  r ← try_raw_lock fuel self how hint; Ret (option_map (guard_result v) r).

Definition lock_mut {T} (self : SyncPhaseLocker) (v : T) : prog U (SyncPhaseGuard T) :=
  cur ← do_op (FetchOr self LOCKED_BIT); Ret (SyncPhaseGuardC v (lock_new self cur)).

(** ** SyncPhaseGuard and SyncReadPhaseGuard *)

Definition set_phase {T} (g : SyncPhaseGuard T) (p : Phase) : SyncPhaseGuard T :=
  SyncPhaseGuardC (sg_target g) (LockC (lk_futex (sg_lock g)) (lk_init_phase (sg_lock g)) p).

Definition commit_phase {T} (g : SyncPhaseGuard T) : prog U unit :=
  cur ← lock_phase (sg_lock g);
  let to_xor := lk_on_unlock (sg_lock g) .^ cur in
  xor_phase (sg_lock g) to_xor;; Ret tt.

Definition guard_phase {T} (g : SyncPhaseGuard T) : Phase := lk_on_unlock (sg_lock g).

Definition guard_map {T S} (g : SyncPhaseGuard T) (f : T → S) : SyncPhaseGuard S :=
  SyncPhaseGuardC (f (sg_target g)) (sg_lock g).

Definition guard_into_read {T} (g : SyncPhaseGuard T) : prog U (SyncReadPhaseGuard T) :=
  r ← read_lock_from (sg_lock g); Ret (SyncReadPhaseGuardC (sg_target g) r).

Definition read_map {T S} (g : SyncReadPhaseGuard T) (f : T → S) : SyncReadPhaseGuard S :=
  SyncReadPhaseGuardC (f (sr_target g)) (sr_lock g).

Definition read_clone {T} (fuel : nat) (g : SyncReadPhaseGuard T) : prog U (SyncReadPhaseGuard T) :=
  r ← read_lock_clone fuel (sr_lock g); Ret (SyncReadPhaseGuardC (sr_target g) r).

Definition spin_locker (fuel : nat) : PhaseLocker U SyncPhaseLocker := {|
  ReadGuard := SyncReadPhaseGuard;
  WriteGuard := SyncPhaseGuard;
  pl_lock T := lock fuel;
  pl_try_lock T := try_lock fuel;
  pl_lock_mut T := lock_mut;
  pl_phase := phase;
  wg_target := @sg_target;
  wg_set_phase := @set_phase;
  wg_commit_phase := @commit_phase;
  wg_phase := @guard_phase;
  wg_map := @guard_map;
  wg_drop T g := lock_drop (sg_lock g);
  wg_into_read := @guard_into_read;
  rg_target := @sr_target;
  rg_phase T g := Ret (rl_init_phase (sr_lock g));
  rg_map := @read_map;
  rg_clone T := read_clone fuel;
  rg_drop T g := read_lock_drop (sr_lock g);
|}.

(** ** [impl MutPhaseLocker]: the word is reached through [get_mut] *)

Definition mut_get_phase_unique (self : SyncPhaseLocker) : prog U Phase :=
  v ← do_op (Local self (λ v, (v, v)));
  match from_bits v with
  | Some p => Ret p
  | None => Panic
  end.

Definition mut_set_phase (self : SyncPhaseLocker) (p : Phase) : prog U unit :=
  do_op (Local self (λ _, (tt, p))).

(** [MutGuard] stores the panic phase when [f] unwinds. *)
Definition mut_transition {X} (self : SyncPhaseLocker) (f : prog U X) (on_success on_panic : Phase)
    : prog U X :=
  r ← catch f;
  match r with
  | Some r => mut_set_phase self on_success;; Ret r
  | None => do_op (Local self (λ _, (tt, on_panic)));; Panic
  end.

#[export] Instance spin_mut_locker : MutPhaseLocker U SyncPhaseLocker := {
  get_phase_unique := mut_get_phase_unique;
  set_phase_unique := mut_set_phase;
  transition_unique X := mut_transition;
}.

(** ** Mutex *)

Definition mutex_lock (fuel : nat) (self : SyncPhaseLocker) : prog U Lock :=
  r ← raw_lock fuel self (λ _, LNWrite) (λ _, LNWrite) empty_flags;
  match r with
  | LRWrite l => Ret l
  | _ => Panic
  end.
End spin.

(** ** The predicates on decoded words *)

(** All the reader bits, [READER_OVERF] included. *)
Definition max_readers : Z := 2 ^ 21 - 1.

Section predicates.
Context (p n : Z) (l rw ww : bool) (Hp : phase_range p) (Hn : count_range n).
Abbreviation w := (word p n l rw ww).

Lemma has_no_readers_word : has_no_readers w = (n =? 0).
Proof using Hp Hn.
  unfold has_no_readers. rewrite word_land_readers by done.
  apply eq_true_iff_eq. rewrite !Z.eqb_eq, word_0 by auto with word.
  split; [by intros (_ & ? & _)|by intros ->].
Qed.

Lemma has_readers_max_word : has_readers_max w = (n =? max_readers).
Proof using Hp Hn.
  unfold has_readers_max. rewrite word_land_readers, READER_ALL_word by done.
  apply eq_true_iff_eq. rewrite !Z.eqb_eq. split; [|by intros ->].
  intros Heq. by apply word_inj in Heq as (_ & -> & _); auto with word.
Qed.

Lemma is_not_write_locked_word : is_not_write_locked w = negb l.
Proof using Hp Hn. unfold is_not_write_locked. rewrite word_land_locked by done. by destruct l. Qed.

Lemma is_write_lockable_word : is_write_lockable w = negb l && (n =? 0).
Proof using Hp Hn.
  unfold is_write_lockable. by rewrite is_not_write_locked_word, has_no_readers_word.
Qed.

Lemma is_read_lockable_word : is_read_lockable w = negb l && negb (n =? max_readers).
Proof using Hp Hn.
  unfold is_read_lockable. by rewrite is_not_write_locked_word, has_readers_max_word.
Qed.

Lemma wrap_add_unity : n <> max_readers → wrap 32 (w + READER_UNITY) = word p (n + 1) l rw ww.
Proof using Hp Hn.
  intros Hne. rewrite word_add_unity. apply wrap_word; [done|].
  unfold count_range, max_readers in *. lia.
Qed.

Lemma wrap_sub_unity : n <> 0 → wrap 32 (w - READER_UNITY) = word p (n - 1) l rw ww.
Proof using Hp Hn.
  intros Hne. rewrite word_sub_unity. apply wrap_word; [done|].
  unfold count_range in *. lia.
Qed.
End predicates.

(** ** The contract *)

Section spec.
Context {BF : Bitflags} {U D : Type} `{!EqDecision D} (c : contract U D) (l : SyncPhaseLocker).

Abbreviation inv := (cell_inv c l max_readers).

Lemma max_readers_min : 1 <= max_readers.
Proof. unfold max_readers. lia. Qed.
Lemma max_readers_max : max_readers < 2 ^ 21.
Proof. unfold max_readers. lia. Qed.
Hint Resolve max_readers_min max_readers_max : core.

Lemma count_max n : 0 <= n <= max_readers → count_range n.
Proof. unfold count_range, max_readers. lia. Qed.
Hint Resolve count_max : core.

(** A value read from the lock word, and what observing it gives. *)
Definition observed (cur : u32) (g : tokens D) : Prop :=
  ∃ p n lk, cur = word p n lk false false ∧ phase_range p ∧ 0 <= n <= max_readers ∧
    g = tok_if (pub c p).

Lemma observe s f : inv s f → ∃ g, inv s (g ⋅ f) ∧ observed (rd s l) g.
Proof.
  intros Hinv.
  destruct (cell_inv_decode _ _ _ max_readers_min max_readers_max _ _ Hinv) as (p & n & lk & Hrd & Hp & Hn).
  exists (tok_if (pub c p)). split; [|by exists p, n, lk].
  eapply (observe_phase _ _ _ max_readers_min max_readers_max); eauto.
Qed.

Lemma observed_forget s cur g f : observed cur g → inv s (g ⋅ f) → inv s f.
Proof. intros (p & n & lk & _ & _ & _ & ->). apply forget_pub. Qed.

(** A load ends with an observation. *)
Lemma load_ok {A} (k : Z → prog U A) g Q Qp :
  (∀ s f, inv s (g ⋅ f) → inv s f) →
  (∀ v h, observed v h → ok inv (k v) h Q Qp) → ok inv (Vis (Load l) k) g Q Qp.
Proof.
  intros Hg Hk. apply ok_det; [done|]. intros f s Hinv. simpl.
  destruct (observe _ _ (Hg _ _ Hinv)) as (h & Hh & Hobs).
    exists h. split; [done|by eauto].
Qed.

(** So does a compare-exchange that fails; one that succeeds on an observed
    value has found the lock as it was observed. *)
Lemma cas_ok {A} weak cur new (k : result Z Z → prog U A) g Q Qp :
  (∀ s f, inv s (g ⋅ f) → inv s f) →
  (∀ f s, inv s f → rd s l = cur → ∃ g', inv (wr s l new) (g' ⋅ f) ∧ ok inv (k (Ok cur)) g' Q Qp) →
  (∀ v h, observed v h → ok inv (k (Err v)) h Q Qp) →
  ok inv (Vis (CompareExchange weak l cur new) k) g Q Qp.
Proof.
  intros Hg Hok Herr. apply ok_cas.
  - intros f s Hinv Hrd. eauto.
  - intros f s Hinv _. destruct (observe _ _ (Hg _ _ Hinv)) as (h & Hh & Hobs).
    exists h. split; [done|by eauto].
Qed.

Definition lock_is (lk : Lock) (p q : Phase) : Prop :=
  lk = LockC l p q ∧ phase_range p ∧ phase_range q.
Definition read_lock_is (rl : ReadLock) (p : Phase) : Prop :=
  rl = ReadLockC l p ∧ phase_range p.

(** What the result of locking owns. *)
Definition raw_post (how : How) (r : LockResult ReadLock Lock) (g : tokens D) : Prop :=
  match r with
  | LRRead rl => ∃ p d, g = tok_r p d ∧ R c p d ∧ read_lock_is rl p ∧ how p = LNRead
  | LRWrite lk => ∃ p d, g = tok_w p d ∧ R c p d ∧ lock_is lk p p ∧ how p = LNWrite
  | LRNone p => g = tok_if (pub c p) ∧ phase_range p ∧ how p = LNNone
  end.

(** The two ways the lock is taken: the compare-exchange from a free word. *)
Lemma take_write {A} weak p cur (k : result Z Z → prog U A) g how Q Qp :
  (∀ s f, inv s (g ⋅ f) → inv s f) →
  cur = word p 0 false false false → phase_range p → how p = LNWrite →
  (∀ h, raw_post how (LRWrite (lock_new l cur)) h → ok inv (k (Ok cur)) h Q Qp) →
  (∀ v h, observed v h → ok inv (k (Err v)) h Q Qp) →
  ok inv (Vis (CompareExchange weak l cur (Z.lor cur LOCKED_BIT)) k) g Q Qp.
Proof.
  intros Hg -> Hp Hhow Hok Herr. apply cas_ok; [done| |done]. intros f s Hinv Hrd.
  rewrite word_lor_locked by auto with word.
  destruct (acquire_write _ _ _ max_readers_min max_readers_max _ _ _ Hinv Hrd Hp) as [Hi HR].
  eexists; split; [exact Hi|]. apply Hok. exists p, (view c (usr s)).
  unfold lock_is, lock_new. by rewrite truncate_word by auto with word.
Qed.

Lemma take_read {A} weak p n cur (k : result Z Z → prog U A) g how Q Qp :
  (∀ s f, inv s (g ⋅ f) → inv s f) →
  cur = word p n false false false → phase_range p → 0 <= n < max_readers → how p = LNRead →
  (∀ h, raw_post how (LRRead (read_lock_new l cur)) h → ok inv (k (Ok cur)) h Q Qp) →
  (∀ v h, observed v h → ok inv (k (Err v)) h Q Qp) →
  ok inv (Vis (CompareExchange weak l cur (wrap 32 (cur + READER_UNITY))) k) g Q Qp.
Proof.
  intros Hg -> Hp Hn Hhow Hok Herr. apply cas_ok; [done| |done]. intros f s Hinv Hrd.
  rewrite wrap_add_unity by (lia || auto with lia).
  destruct (acquire_read _ _ _ max_readers_min max_readers_max _ _ _ _ Hinv Hrd Hp Hn) as [Hi HR].
  eexists; split; [exact Hi|]. apply Hok. exists p, (view c (usr s)).
  unfold read_lock_is, read_lock_new. by rewrite truncate_word by (auto with lia).
Qed.

Lemma unit_forget s f : inv s (pcm_unit ⋅ f) → inv s f.
Proof. by rewrite (left_id_L pcm_unit pcm_op). Qed.
Hint Resolve unit_forget : core.

Lemma hinted_lock_ok how hint :
  phase_range hint →
  ok inv (hinted_lock l how hint) pcm_unit
    (λ r g, match r with Ok r => raw_post how r g | Err cur => observed cur g end) (λ _, False).
Proof.
  intros Hh. unfold hinted_lock. destruct (how hint) eqn:E; apply ok_bind.
  - apply (take_read true hint 0 hint _ _ how); eauto using phase_word.
    unfold max_readers. lia.
  - apply (take_write true hint hint _ _ how); eauto using phase_word.
  - apply load_ok; [eauto|]. intros v h (p & n & lk & -> & Hp & Hn & ->). simpl.
    rewrite truncate_word by auto.
    assert (observed (word p n lk false false) (tok_if (pub c p))) by (by exists p, n, lk).
    destruct (how p) eqn:Ep; simpl; auto.
Qed.

(** Opens an observation. *)
Ltac open_obs H p n lk Hp Hn := destruct H as (p & n & lk & -> & Hp & Hn & ->).

Lemma obs_intro p n lk :
  phase_range p → 0 <= n <= max_readers → observed (word p n lk false false) (tok_if (pub c p)).
Proof. intros. by exists p, n, lk. Qed.
Hint Resolve obs_intro : core.

Lemma forget_if b s f : inv s (tok_if b ⋅ f) → inv s f.
Proof. apply forget_pub. Qed.
Hint Resolve forget_if : core.

(** Lockable words are free words. *)
Lemma read_lockable p n lk :
  phase_range p → 0 <= n <= max_readers → is_read_lockable (word p n lk false false) = true →
  lk = false ∧ 0 <= n < max_readers.
Proof.
  intros Hp Hn. rewrite is_read_lockable_word by auto.
  destruct lk, (Z.eqb_spec n max_readers); simpl; try done. lia.
Qed.
Lemma write_lockable p n lk :
  phase_range p → 0 <= n <= max_readers → is_write_lockable (word p n lk false false) = true →
  lk = false ∧ n = 0.
Proof.
  intros Hp Hn. rewrite is_write_lockable_word by auto.
  destruct lk, (Z.eqb_spec n 0); simpl; by try done.
Qed.

Lemma slow_read_loop_ok fuel how cur sw g :
  observed cur g → how (from_bits_truncate cur) = LNRead →
  ok inv (slow_read_loop fuel l how cur sw) g
    (λ r g, match r with Ok rl => raw_post how (LRRead rl) g | Err cur => observed cur g end)
    (λ _, False).
Proof.
  revert cur sw g. induction fuel as [|fuel IH]; intros cur sw g Hobs Hhow; [done|].
  open_obs Hobs p n lk Hp Hn. rewrite truncate_word in Hhow by auto. cbn [slow_read_loop].
  destruct (is_read_lockable _) eqn:Hl; simpl negb; cbv iota; [|by simpl; auto].
  apply read_lockable in Hl as [-> Hn']; [|done..].
  apply ok_bind, (take_read true p n _ _ _ how); eauto.
  intros v h Hv. unfold spin_no_yield. cbn [negb]. cbv iota. apply ok_bind, load_ok; [by intros ??; eapply observed_forget|].
  intros v' h' Hv'. cbn [ok]. case_bool_decide; [by apply IH|done].
Qed.

Lemma raw_lock_slow_ok fuel how cur sw g :
  observed cur g →
  ok inv (raw_lock_slow fuel l how cur sw) g (raw_post how) (λ _, False).
Proof.
  revert cur sw g. induction fuel as [|fuel IH]; intros cur sw g Hobs; [done|].
  assert (∀ g sw, (∀ s f, inv s (g ⋅ f) → inv s f) →
    ok inv (let '(_, _, sw) := spin_no_yield sw in
            cur ← do_op (Load l); raw_lock_slow fuel l how cur sw) g (raw_post how) (λ _, False)) as Hnext.
  { intros g' sw' Hg'. unfold spin_no_yield. apply ok_bind, load_ok; [done|].
    intros v h Hv. by apply IH. }
  pose proof (observed_forget) as Hf.
  pose proof Hobs as Hobs'. open_obs Hobs p n lk Hp Hn. cbn [raw_lock_slow].
  destruct (how _) eqn:Hhow.
  - apply ok_bind. eapply ok_mono; [by apply slow_read_loop_ok|cbv beta|done].
    intros [rl|cur'] h Hr; [done|]. apply Hnext. intros s f. by apply Hf with cur'.
  - rewrite truncate_word in Hhow by auto.
    destruct (is_write_lockable _) eqn:Hl; [|by apply Hnext; eauto].
    apply write_lockable in Hl as [-> ->]; [|done..].
    apply ok_bind, (take_write true p _ _ _ how); eauto.
  - rewrite truncate_word in * by auto. by simpl.
Qed.

Lemma raw_lock_ok fuel how wake hint :
  phase_range hint →
  ok inv (raw_lock fuel l how wake hint) pcm_unit (raw_post how) (λ _, False).
Proof.
  intros Hh. apply ok_bind. eapply ok_mono; [by apply hinted_lock_ok|cbv beta|done].
  intros [r|cur] g Hr; [done|]. by apply raw_lock_slow_ok.
Qed.

Lemma try_read_loop_ok fuel how cur g :
  observed cur g → how (from_bits_truncate cur) = LNRead →
  ok inv (try_read_loop fuel l how cur) g
    (λ r g, match r with Some rl => raw_post how (LRRead rl) g | None => ∃ cur, observed cur g end)
    (λ _, False).
Proof.
  revert cur g. induction fuel as [|fuel IH]; intros cur g Hobs Hhow; [done|].
  open_obs Hobs p n lk Hp Hn. rewrite truncate_word in Hhow by auto. cbn [try_read_loop].
  destruct (is_read_lockable _) eqn:Hl; simpl negb; cbv iota;
    [|by exists (word p n lk false false); auto].
  apply read_lockable in Hl as [-> Hn']; [|done..].
  apply ok_bind, (take_read true p n _ _ _ how); eauto.
  intros v h Hv. cbn [ok]. case_bool_decide; [by apply IH|by exists v].
Qed.

Lemma try_raw_lock_ok fuel how hint :
  phase_range hint →
  ok inv (try_raw_lock fuel l how hint) pcm_unit
    (λ r g, match r with Some r => raw_post how r g | None => ∃ cur, observed cur g end)
    (λ _, False).
Proof.
  intros Hh. apply ok_bind. eapply ok_mono; [by apply hinted_lock_ok|cbv beta|done].
  intros [r|cur] g Hr; [done|]. pose proof Hr as Hobs. open_obs Hr p n lk Hp Hn.
  cbv zeta. destruct (how _) eqn:Hhow.
  - apply ok_bind. eapply ok_mono; [by apply try_read_loop_ok|cbv beta|done].
    by intros [rl|] h Hr.
  - rewrite truncate_word in Hhow by auto.
    destruct (is_write_lockable _) eqn:Hl; [|by exists (word p n lk false false)].
    apply write_lockable in Hl as [-> ->]; [|done..].
    cbv iota. apply ok_bind, (take_write false p _ _ _ how); eauto. intros v h Hv. by exists v.
  - rewrite truncate_word in * by auto. by simpl.
Qed.

Lemma spin_phase :
  ok inv (phase l) pcm_unit (λ p g, g = tok_if (pub c p) ∧ phase_range p) (λ _, False).
Proof.
  apply ok_bind, load_ok; [eauto|]. intros v h Hv. open_obs Hv p n lk Hp Hn.
  cbn [ok]. by rewrite truncate_word by auto.
Qed.

Lemma spin_lock_drop lk p q d :
  lock_is lk p q → moves c p q d →
  ok inv (lock_drop lk) (tok_w p d) (λ _ h, h = tok_if (pub c q)) (λ _, False).
Proof.
  intros (-> & Hp & Hq) Hm. unfold lock_drop. cbn [lk_futex lk_init_phase lk_on_unlock rl_futex]. apply ok_bind, ok_cas.
  - intros f s Hinv Hrd. exists (tok_if (pub c q)). split; [|done].
    rewrite (phase_word q) at 1.
    eapply (release_write _ _ _ max_readers_min max_readers_max); eauto.
  - intros f s Hinv Hne.
    destruct (writer_word _ _ _ max_readers_min max_readers_max _ _ _ _ Hinv) as (Hrd & _).
    rewrite phase_lor_locked in Hne by done. by destruct Hne.
Qed.

(** The exchange of [into_read_lock] turns the locked word of phase [p] into
    the word of phase [q] with one reader. *)
Lemma into_read_xor p q :
  phase_range p → phase_range q →
  Z.lxor (word p 0 true false false) (Z.lor (Z.lor (p .^ q) LOCKED_BIT) READER_UNITY)
  = word q 1 false false false.
Proof.
  intros Hp Hq. rewrite phase_lor_locked by auto with phase.
  rewrite READER_UNITY_word, word_lor, word_lxor by auto with phase word.
  rewrite Z.lor_0_r. pose proof (xor_cancel p q) as Hx. rewrite !flags_xor_eq in *.
  by rewrite Hx.
Qed.

Lemma spin_into_read lk p q d :
  lock_is lk p q → moves c p q d →
  ok inv (read_lock_from lk) (tok_w p d) (λ r h, h = tok_r q d ∧ read_lock_is r q) (λ _, False).
Proof.
  intros (-> & Hp & Hq) Hm. unfold read_lock_from, into_read_lock.
  cbn [lk_futex lk_init_phase lk_on_unlock rl_futex]. apply ok_bind, ok_det; [done|]. intros f s Hinv. simpl.
  destruct (writer_word _ _ _ max_readers_min max_readers_max _ _ _ _ Hinv) as (Hrd & _).
  rewrite Hrd, into_read_xor by done. exists (tok_r q d). split.
  - eapply (downgrade _ _ _ max_readers_min max_readers_max); eauto.
  - unfold read_lock_new, read_lock_is. by rewrite truncate_phase.
Qed.

Lemma spin_read_drop rl p d :
  read_lock_is rl p →
  ok inv (read_lock_drop rl) (tok_r p d) (λ _ h, h = tok_if (pub c p)) (λ _, False).
Proof.
  intros (-> & Hp). unfold read_lock_drop. cbn [lk_futex lk_init_phase lk_on_unlock rl_futex]. apply ok_bind, ok_det; [done|]. intros f s Hinv. simpl.
  destruct (reader_word _ _ _ max_readers_min max_readers_max _ _ _ _ Hinv) as (n & Hrd & _ & Hn & _).
  rewrite Hrd, wrap_sub_unity by (lia || auto with lia).
  exists (tok_if (pub c p)). split; [|done].
  eapply (release_read _ _ _ max_readers_min max_readers_max); eauto with lia.
Qed.

(** Cloning a read lock gives a second share of the same phase and data. *)
Lemma spin_read_clone fuel rl p d :
  read_lock_is rl p →
  ok inv (read_lock_clone fuel rl) (tok_r p d)
    (λ r h, h = tok_r p d ⋅ tok_r p d ∧ read_lock_is r p) (λ _, False).
Proof.
  intros (-> & Hp). unfold read_lock_clone. cbn [rl_futex]. apply ok_bind.
  assert (∀ s f, inv s (tok_r p d ⋅ f) → ∃ n, rd s l = word p n false false false ∧ 1 <= n <= max_readers)
    as Hword.
  { intros s f Hinv.
    destruct (reader_word _ _ _ max_readers_min max_readers_max _ _ _ _ Hinv) as (n & ? & _ & ? & _).
    eauto. }
  apply ok_det; [done|]. intros f s Hinv. cbn [op_run]. exists (tok_r p d). split; [done|].
  destruct (Hword _ _ Hinv) as (n & -> & Hn). cbn [ok]. clear f s Hinv.
  generalize SpinWait.new as sw. revert n Hn.
  induction fuel as [|fuel IH]; intros n Hn sw; [done|]. cbn [read_lock_clone_loop rl_futex].
  assert (ok inv (let '(_, _, sw) := spin_no_yield sw in
                  cur ← do_op (Load l); read_lock_clone_loop fuel (ReadLockC l p) sw cur)
    (tok_r p d) (λ r h, h = tok_r p d ⋅ tok_r p d ∧ read_lock_is r p) (λ _, False)) as Hwait.
  { unfold spin_no_yield. apply ok_bind, ok_det; [done|]. intros f s Hinv. cbn [op_run].
    exists (tok_r p d). split; [done|]. destruct (Hword _ _ Hinv) as (m & -> & Hm).
    cbn [ok]. by apply IH. }
  rewrite has_readers_max_word by auto with lia.
  destruct (Z.eqb_spec n max_readers) as [|Hne]; cbn [negb]; [exact Hwait|].
  apply ok_bind, ok_cas.
  - intros f s Hinv Hrd. rewrite wrap_add_unity by auto with lia.
    exists (tok_r p d ⋅ tok_r p d). split; [|done].
    eapply (clone_read _ _ _ max_readers_min max_readers_max); eauto. lia.
  - intros f s Hinv _. exists (tok_r p d). split; [done|]. exact Hwait.
Qed.
End spec.

Section instance.
Context {BF : Bitflags} {U D : Type} `{!EqDecision D} (fuel : nat) (c : contract U D)
  (l : SyncPhaseLocker).

Definition spin_wg_is {T} (g : SyncPhaseGuard T) (t : T) (p q : Phase) : Prop :=
  sg_target g = t ∧ lock_is l (sg_lock g) p q.
Definition spin_rg_is {T} (g : SyncReadPhaseGuard T) (t : T) (p : Phase) : Prop :=
  sr_target g = t ∧ read_lock_is l (sr_lock g) p.

Lemma guard_result_post {T} (t : T) how r g :
  raw_post c l how r g →
  match guard_result t r with
  | LRRead rg => ∃ p d, g = tok_r p d ∧ R c p d ∧ spin_rg_is rg t p ∧ how p = LNRead
  | LRWrite wg => ∃ p d, g = tok_w p d ∧ R c p d ∧ spin_wg_is wg t p p ∧ how p = LNWrite
  | LRNone p => g = tok_if (pub c p) ∧ phase_range p ∧ how p = LNNone
  end.
Proof.
  destruct r as [rl|lk|p]; simpl; [| |done]; intros (p & d & -> & ? & ? & ?); by exists p, d.
Qed.

Definition spin_spec : PhaseLockerSpec (G:=tokens D) (spin_locker (U:=U) fuel) c l.
Proof.
  refine (@Build_PhaseLockerSpec _ _ (spin_locker fuel) _ _ _ c l
    (cell_inv c l max_readers) tok_w tok_r tok_pub (@spin_wg_is) (@spin_rg_is) false true
    _ _ _ _ _ _ _ _ _ _ _ _ _ _ _ _ _ _ _ _ _).
  - intros T t how wake hint Hh. apply ok_bind.
    eapply ok_mono; [by apply raw_lock_ok|cbv beta|done].
    intros r g H%(guard_result_post t). cbn [ok].
    destruct (guard_result t r) as [rg|wg|p]; [done|done|].
    destruct H as (? & ? & ?). auto.
  - intros T t how hint Hh. apply ok_bind.
    eapply ok_mono; [by apply try_raw_lock_ok|cbv beta|done].
    intros [r|] g H; [exact (guard_result_post t how r g H)|].
    destruct H as (cur & p & n & lk & _ & _ & _ & ->). right. by exists p.
  - apply spin_phase.
  - by intros T g t p q (? & _).
  - by intros T [t lk] t' p q (Ht & Hl & ? & ?); simpl in *; subst.
  - by intros T [t lk] t' p q q' (Ht & Hl & ? & ?) ?; simpl in *; subst.
  - by intros T S [t lk] f t' p q (Ht & ?); simpl in *; subst.
  - intros T g t p q d (_ & Hg). by apply spin_lock_drop.
  - intros T g t p q d (Ht & Hg) Hm. apply ok_bind.
    eapply ok_mono; [by eapply spin_into_read|cbv beta|done].
    intros r h [-> Hr]. by simpl.
  - by intros T g t p (? & _).
  - by intros T [t rl] t' p d (Ht & Hl & ?); simpl in *; subst.
  - by intros T S [t rl] f t' p (Ht & ?); simpl in *; subst.
  - intros T g t p d (_ & Hg). by apply spin_read_drop.
  - intros T g t p d _ (Ht & Hg). apply ok_bind.
    eapply ok_mono; [by apply spin_read_clone|cbv beta|done].
    intros r h [-> Hr]. by simpl.
  - intros T f p d _. apply write_ok; unfold max_readers; lia.
  - intros T f p d _. apply read_ok; unfold max_readers; lia.
  - intros T f _. apply step_ok with (maxr := max_readers); unfold max_readers; lia.
  - intros T f _. apply pub_ok; unfold max_readers; lia.
  - intros T f learns. apply observe_ok; unfold max_readers; lia.
  - intros s g. apply inv_K.
  - done.
Defined.
End instance.

(** ** Properties *)

Section props.
Context {BF : Bitflags}.

(** A fresh locker and its data. *)
Lemma spin_inv_new {U D} `{!EqDecision D} (c : contract U D) l p (s : state U) :
  phase_range p → rd s l = new p → K c p (usr s) → R c p (view c (usr s)) →
  cell_inv c l max_readers s pcm_unit.
Proof. intros Hp Hrd HK HR. exists p, 0, false. rewrite Hrd, <- phase_word. by split_and!. Qed.

(** C3: any number of threads take, try, write through, downgrade, clone and
    drop the guards of one locker, as their scripts say. No schedule makes an
    assertion of a client fail: a write guard excludes all others, the data and
    the phase under a guard do not change behind it, a lock has the nature that
    was asked for the phase it was taken at; and neither the locker's
    [unreachable!] nor an overflow of its counter happens. *)
Theorem spin_clients_safe fuel (l : SyncPhaseLocker) scripts p (s : state Z) ps s' :
  phase_range p → rd s l = new p → Forall (Forall (cmd_ok true)) scripts →
  reachable ((λ script, client (ops := spin_locker fuel) false l script []) <$> scripts) s ps s' →
  no_panic ps.
Proof.
  intros Hp Hrd Hs. apply (clients_ok (spec := spin_spec fuel free_contract l) false); [done..|].
  by eapply spin_inv_new.
Qed.

(** ** Taking the lock ends *)

Section uncontended.
Context {U : Type} (l : SyncPhaseLocker) (how : How) (p n : Z).
Context (Hp : phase_range p) (Hn : 0 <= n) (Hmax : n < max_readers).

Lemma count_n : count_range n.
Proof using Hn Hmax. unfold count_range, max_readers in *. lia. Qed.

Lemma run_slow_read fuel sw orc (s : state U) :
  rd s l = word p n false false false → how p = LNRead → (length orc < fuel)%nat →
  run (slow_read_loop fuel l how (word p n false false false) sw) orc s
  = (Returned (Ok (ReadLockC l p)), wr s l (word p (n + 1) false false false)).
Proof using Hp Hn Hmax.
  intros Hrd Hhow. revert orc sw. induction fuel as [|fuel IH]; intros orc sw Hf; [lia|].
  cbn [slow_read_loop]. rewrite is_read_lockable_word by (done || apply count_n).
  destruct (Z.eqb_spec n max_readers); [lia|]. cbn [negb andb].
  rewrite wrap_add_unity by (done || apply count_n).
  unfold do_op, mbind, prog_bind. cbn [prog_bind_def].
  edestruct @run_cas as [(orc' & Hlen & ->)|(orc' & _ & Hlen & ->)]; [exact Hrd|..].
  - cbn. unfold read_lock_new. by rewrite truncate_word by (done || apply count_n).
  - unfold spin_no_yield. cbn [prog_bind_def negb run op_spurious op_run]. rewrite Hrd.
    rewrite truncate_word by (done || apply count_n). rewrite Hhow. cbn.
    destruct orc'; apply IH; simpl in *; lia.
Qed.

Lemma run_slow fuel sw orc (s : state U) :
  rd s l = word p n false false false → (how p = LNWrite → n = 0) → (length orc + 1 < fuel)%nat →
  run (raw_lock_slow fuel l how (word p n false false false) sw) orc s
  = match how p with
    | LNNone => (Returned (LRNone p), s)
    | LNRead => (Returned (LRRead (ReadLockC l p)), wr s l (word p (n + 1) false false false))
    | LNWrite => (Returned (LRWrite (LockC l p p)), wr s l (word p 0 true false false))
    end.
Proof using Hp Hn Hmax.
  intros Hrd Hfree. revert orc sw. induction fuel as [|fuel IH]; intros orc sw Hf; [lia|].
  cbn [raw_lock_slow]. rewrite truncate_word by (done || apply count_n).
  destruct (how p) eqn:Hhow.
  - destruct (run_bind_oracle (slow_read_loop fuel l how (word p n false false false) SpinWait.new)
      (λ r, match r with
            | Ok l => Ret (LRRead l)
            | Err _ => let '(_, _, spin_wait) := spin_no_yield sw in
                       cur ← do_op (Load l); raw_lock_slow fuel l how cur spin_wait
            end) orc s) as (orc' & _ & ->).
    by rewrite run_slow_read by (done || lia).
  - rewrite is_write_lockable_word by (done || apply count_n). rewrite (Hfree eq_refl) in *.
    cbn [negb andb Z.eqb]. unfold do_op, mbind, prog_bind. cbn [prog_bind_def].
    rewrite word_lor_locked by auto with word.
    edestruct @run_cas as [(orc' & Hlen & ->)|(orc' & _ & Hlen & ->)]; [exact Hrd|..].
    + cbn. unfold lock_new. by rewrite truncate_word by auto with word.
    + by rewrite IH by lia.
  - done.
Qed.

(** The first attempt either takes the lock or reports the word as it is. *)
Lemma run_hinted hint orc (s : state U) :
  rd s l = word p n false false false → (how p = LNWrite → n = 0) → phase_range hint →
  run (hinted_lock l how hint) orc s = (Returned (Err (word p n false false false)), s) ∨
  run (hinted_lock l how hint) orc s =
    match how p with
    | LNNone => (Returned (Ok (LRNone p)), s)
    | LNRead => (Returned (Ok (LRRead (ReadLockC l p))), wr s l (word p (n + 1) false false false))
    | LNWrite => (Returned (Ok (LRWrite (LockC l p p))), wr s l (word p 0 true false false))
    end.
Proof using Hp Hn Hmax.
  intros Hrd Hfree Hh. unfold hinted_lock, do_op, mbind, prog_bind.
  assert (∀ weak new (k : result Z Z → prog U _),
    (∀ x, k (Err x) = Ret (Err x)) → rd s l ≠ hint →
    run (Vis (CompareExchange weak l hint new) k) orc s
    = (Returned (@Err (LockResult ReadLock Lock) _ (word p n false false false)), s)) as Hmiss.
  { intros weak new k Hk Hne. cbn [run op_spurious op_run]. rewrite Hrd in *.
    destruct (Z.eqb_spec (word p n false false false) hint); [done|].
    destruct weak, orc as [|[] orc]; rewrite ?Hk; cbn [run]; by rewrite ?Hrd. }
  assert (rd s l = hint → hint = p ∧ n = 0) as Hhit.
  { intros Heq. rewrite Hrd, (phase_word hint) in Heq.
    apply word_inj in Heq as (? & ? & _); auto with word. apply count_n. }
  destruct (how hint) eqn:Ehint; cbn [prog_bind_def].
  - destruct (decide (rd s l = hint)) as [Heq|Hne]; [|left; by apply Hmiss].
    destruct (Hhit Heq) as [-> ->].
    edestruct @run_cas as [(orc' & _ & ->)|(orc' & _ & _ & ->)]; [exact Heq|right|left].
    + assert (wrap 32 (p + READER_UNITY) = word p (0 + 1) false false false) as ->.
      { rewrite (phase_word p) at 1. by apply wrap_add_unity; auto with word. }
      rewrite Ehint. cbn [prog_bind_def run]. unfold read_lock_new.
      by rewrite truncate_phase by done.
    + cbn. by rewrite <- phase_word.
  - destruct (decide (rd s l = hint)) as [Heq|Hne]; [|left; by apply Hmiss].
    destruct (Hhit Heq) as [-> ->].
    edestruct @run_cas as [(orc' & _ & ->)|(orc' & _ & _ & ->)]; [exact Heq|right|left].
    + rewrite Ehint. cbn [prog_bind_def run]. unfold lock_new.
      by rewrite truncate_phase, phase_lor_locked by done.
    + cbn. by rewrite <- phase_word.
  - cbn [run op_spurious op_run prog_bind_def]. rewrite Hrd.
    rewrite truncate_word by (done || apply count_n).
    destruct orc as [|b orc], (how p); by (right; done) || (left; done).
Qed.
End uncontended.

(** C15: taking the lock ends. On a word that no other thread changes and that
    is free for what [how] asks, [lock] returns what was asked after at most as
    many retries as there are spurious failures of the compare-exchange. *)
Theorem spin_lock_returns {U T} fuel (l : SyncPhaseLocker) (t : T) how wake hint orc p n (s : state U) :
  phase_range p → phase_range hint → 0 <= n < max_readers →
  rd s l = word p n false false false → (how p = LNWrite → n = 0) →
  (length orc + 2 <= fuel)%nat →
  let '(r, s') := run (lock fuel l t how wake hint) orc s in
  match how p with
  | LNNone => r = Returned (LRNone p) ∧ rd s' l = word p n false false false
  | LNRead => r = Returned (LRRead (SyncReadPhaseGuardC t (ReadLockC l p))) ∧
              rd s' l = word p (n + 1) false false false
  | LNWrite => r = Returned (LRWrite (SyncPhaseGuardC t (LockC l p p))) ∧
               rd s' l = word p 0 true false false
  end.
Proof.
  intros Hp Hh Hn Hrd Hfree Hfuel. unfold lock.
  destruct (run_bind_oracle (raw_lock fuel l how wake hint) (λ r, Ret (guard_result t r)) orc s)
    as (orc1 & _ & ->).
  unfold raw_lock.
  destruct (run_bind_oracle (hinted_lock l how hint)
    (λ r, match r with
          | Ok x => Ret x
          | Err cur => raw_lock_slow fuel l how cur SpinWait.new
          end) orc s) as (orc2 & Hlen & ->).
  destruct (run_hinted l how p n Hp ltac:(lia) ltac:(lia) hint orc s Hrd Hfree Hh) as [->| ->].
  - rewrite run_slow by (done || lia). destruct (how p); cbn; by rewrite ?rd_wr.
  - destruct (how p); cbn; by rewrite ?rd_wr.
Qed.

(** [commit_phase] does not keep the guard in step with the word it changes.
    Dropping a guard that has committed another phase fails its exchange and
    reaches [unreachable!]. *)
Theorem commit_then_drop_panics {U T} (l : SyncPhaseLocker) (t : T) p q (s : state U) :
  phase_range p → phase_range q → p ≠ q → rd s l = word p 0 true false false →
  let g := set_phase (SyncPhaseGuardC t (LockC l p p)) q in
  let out := run (commit_phase g;; lock_drop (sg_lock g)) [] s in
  out.1 = Panicked ∧ rd out.2 l = word q 0 true false false.
Proof.
  intros Hp Hq Hne Hrd. cbn. rewrite Hrd, !truncate_word by auto with word.
  assert (Z.lxor (word p 0 true false false) (q .^ p) = word q 0 true false false) as Hx.
  { rewrite flags_xor_eq, (phase_word (Z.lxor q p)), word_lxor by eauto with word phase.
    by rewrite (Z.lxor_comm q p), <- Z.lxor_assoc, Z.lxor_nilpotent, Z.lxor_0_l. }
  rewrite Hx, rd_wr, phase_lor_locked by done.
  destruct (Z.eqb_spec (word q 0 true false false) (word p 0 true false false)) as [Heq|].
  - by apply word_inj in Heq as (-> & _); auto with word.
  - cbn. by rewrite rd_wr.
Qed.

(** ** Mutex *)

(** Locking the mutex always yields its write lock. *)
Lemma mutex_lock_ok {U D} `{!EqDecision D} fuel (c : contract U D) (l : SyncPhaseLocker) :
  ok (cell_inv c l max_readers) (mutex_lock fuel l) pcm_unit
    (λ lk g, ∃ p d, g = tok_w p d ∧ R c p d ∧ lock_is l lk p p) (λ _, False).
Proof.
  apply ok_bind. eapply ok_mono; [apply raw_lock_ok; auto with phase|cbv beta|done].
  intros [rl|lk|p] g; simpl.
  - by intros (? & ? & ? & ? & ? & ?).
  - intros (p & d & ? & ? & ? & _). by exists p, d.
  - by intros (? & ? & ?).
Qed.
End props.

Lemma spin_clients_safe_witness :
  no_panic ((λ script, client (ops := @spin_locker bitflags_1 Z 5) false 1%positive script [])
    <$> [[CLock (λ _, LNWrite) (λ _, LNWrite) 0; CWrite 0 3; CSetPhase 0 1; CDowngrade 0; CClone 0];
         [CTryLock (λ _, LNRead) 1; CCheck 0; CDrop 0]]).
Proof.
  eapply (@spin_clients_safe bitflags_1 5 1%positive
    [[CLock (λ _, LNWrite) (λ _, LNWrite) 0; CWrite 0 3; CSetPhase 0 1; CDowngrade 0; CClone 0];
     [CTryLock (λ _, LNRead) 1; CCheck 0; CDrop 0]] 0 (State ∅ 9));
    [unfold phase_range; lia|reflexivity| |apply rtc_refl].
  repeat constructor; unfold phase_range; lia.
Defined.

Lemma spin_lock_returns_witness :
  (run (@lock bitflags_1 unit unit 5 1%positive tt (λ _, LNWrite) (λ _, LNWrite) 1)
     [true; false; true] (State {[1%positive := 1]} tt)).1
  = Returned (LRWrite (SyncPhaseGuardC tt (LockC 1%positive 1 1))).
Proof.
  pose proof (@spin_lock_returns bitflags_1 unit unit 5 1%positive tt (λ _, LNWrite) (λ _, LNWrite) 1
    [true; false; true] 1 0 (State {[1%positive := 1]} tt)
    ltac:(unfold phase_range; lia) ltac:(unfold phase_range; lia)
    ltac:(unfold max_readers; lia) eq_refl (λ _, eq_refl) ltac:(simpl; lia)) as H.
  destruct (run _ _ _) as [r s]. exact (proj1 H).
Defined.

Lemma commit_then_drop_panics_witness :
  (run (@commit_phase bitflags_1 unit unit (SyncPhaseGuardC tt (LockC 1%positive 0 1));;
        lock_drop (LockC 1%positive 0 1)) [] (State {[1%positive := LOCKED_BIT]} tt)).1 = Panicked.
Proof.
  pose proof (@commit_then_drop_panics bitflags_1 unit unit 1%positive tt 0 1
    (State {[1%positive := LOCKED_BIT]} tt)
    ltac:(unfold phase_range; lia) ltac:(unfold phase_range; lia) ltac:(lia) eq_refl) as H.
  exact (proj1 H).
Defined.
