(* ===== verification/Quiet.v ===== *)
(** * The lockers leave the user state alone

    Each operation of the three phase lockers works on the cells of its lock word
    and on the queues of the system only ([QuietLocker]), which is what [Tickets]
    asks of a locker. *)

From stdpp Require Import base list option numbers.
From S2P Require Import Prelude Word Phase Atomics SpinWait Locker Tickets Futex FutexLocker UnSync SpinLocker.
Open Scope Z_scope.

(** ** The unsynchronised locker *)

Section unsync.
Context {BF : Bitflags} {U : Type}.

#[export] Instance unsync_quiet : QuietLocker (unsync_locker (U:=U)).
Proof.
  split; intros; cbn [unsync_locker pl_lock pl_try_lock pl_phase wg_drop wg_into_read rg_phase rg_clone rg_drop];
    unfold UnSync.lock, UnSync.try_lock, UnSync.guard_into_read, UnSync.guard_drop, UnSync.read_phase,
      UnSync.read_clone, UnSync.read_drop, UnSync.phase;
    quiet_tac.
Qed.
End unsync.

(** ** The spinning locker *)

Section spin.
Import SpinLocker.
Context {BF : Bitflags} {U : Type} (fuel : nat).
Implicit Types self : SyncPhaseLocker.

Lemma spin_quiet_hinted self how hint : quiet (U:=U) (hinted_lock self how hint).
Proof. unfold hinted_lock. quiet_tac. Qed.
#[local] Hint Resolve spin_quiet_hinted : quiet.

Lemma spin_quiet_try_loop n self how cur : quiet (U:=U) (try_read_loop n self how cur).
Proof.
  revert cur. induction n as [|n IH]; intros cur; [done|]. cbn [try_read_loop].
  quiet_tac.
Qed.
#[local] Hint Resolve spin_quiet_try_loop : quiet.

Lemma spin_quiet_slow_loop n self how cur sw : quiet (U:=U) (slow_read_loop n self how cur sw).
Proof.
  revert cur sw. induction n as [|n IH]; intros cur sw; [done|]. cbn [slow_read_loop].
  quiet_tac.
Qed.
#[local] Hint Resolve spin_quiet_slow_loop : quiet.

Lemma spin_quiet_slow n self how cur sw : quiet (U:=U) (raw_lock_slow n self how cur sw).
Proof.
  revert cur sw. induction n as [|n IH]; intros cur sw; [done|]. cbn [raw_lock_slow].
  quiet_tac.
Qed.
#[local] Hint Resolve spin_quiet_slow : quiet.

Lemma spin_quiet_clone n rl sw cur : quiet (U:=U) (read_lock_clone_loop n rl sw cur).
Proof.
  revert cur sw. induction n as [|n IH]; intros cur sw; [done|]. cbn [read_lock_clone_loop].
  quiet_tac.
Qed.
#[local] Hint Resolve spin_quiet_clone : quiet.

#[export] Instance spin_quiet : QuietLocker (spin_locker (U:=U) fuel).
Proof.
  split; intros; cbn [spin_locker pl_lock pl_try_lock pl_phase wg_drop wg_into_read rg_phase rg_clone rg_drop];
    unfold lock, raw_lock, try_lock, try_raw_lock, guard_into_read, read_lock_from, into_read_lock, lock_drop,
      read_clone, read_lock_clone, read_lock_drop, phase;
    quiet_tac.
Qed.
End spin.

(** ** The futex locker *)

Section futex.
Import FutexLocker.
Context {KN : Kernel} {BF : Bitflags} {U : Type}.
Context (aborts : assertion → bool) (linux : bool) (fuel : nat).
Implicit Types futex : Futex.

Lemma quiet_assert a b : quiet (U:=U) (assert_at aborts a b).
Proof. unfold assert_at. quiet_tac. Qed.
#[local] Hint Resolve quiet_assert : quiet.

Lemma quiet_parked n t : quiet (U:=U) (parked_until n t).
Proof. induction n as [|n IH]; [done|]. cbn [parked_until]. quiet_tac. Qed.
#[local] Hint Resolve quiet_parked : quiet.

Lemma quiet_wait_reader n futex v : quiet (U:=U) (compare_and_wait_as_reader n futex v).
Proof. unfold compare_and_wait_as_reader, wait_bitset. quiet_tac. Qed.
#[local] Hint Resolve quiet_wait_reader : quiet.

Lemma quiet_wait_writer n futex v : quiet (U:=U) (compare_and_wait_as_writer aborts n futex v).
Proof. unfold compare_and_wait_as_writer, wait_bitset. quiet_tac. Qed.
#[local] Hint Resolve quiet_wait_writer : quiet.

Lemma quiet_wake_readers futex v b : quiet (U:=U) (wake_readers aborts futex v b).
Proof. unfold wake_readers, futex_wake_readers. quiet_tac. Qed.
#[local] Hint Resolve quiet_wake_readers : quiet.

Lemma quiet_drop_with transfer rl :
  (∀ fx v, quiet (transfer fx v)) → quiet (U:=U) (read_lock_drop_with transfer rl).
Proof. intros H. unfold read_lock_drop_with. quiet_tac. Qed.
#[local] Hint Resolve quiet_drop_with : quiet.

Lemma quiet_to_writer drop_read n futex cur :
  (∀ l, quiet (drop_read l)) → quiet (U:=U) (transfer_to_writer aborts drop_read n futex cur).
Proof.
  intros H. revert cur. induction n as [|n IH]; intros cur; [done|]. cbn [transfer_to_writer]. cbv zeta.
  unfold wake_one_writer. quiet_tac.
Qed.
#[local] Hint Resolve quiet_to_writer : quiet.

Lemma quiet_to_readers drop_read n futex cur :
  (∀ l, quiet (drop_read l)) → quiet (U:=U) (transfer_to_readers aborts drop_read n futex cur).
Proof.
  intros H. revert cur. induction n as [|n IH]; intros cur; [done|]. cbn [transfer_to_readers].
  unfold wake_one_writer. quiet_tac.
Qed.
#[local] Hint Resolve quiet_to_readers : quiet.

Lemma quiet_transfer n futex cur : quiet (U:=U) (transfer_lock aborts linux fuel n futex cur).
Proof.
  revert futex cur. induction n as [|n IH]; intros futex cur; [done|]. cbn [transfer_lock].
  unfold prefer_wake_one_writer.
  quiet_tac.
Qed.
#[local] Hint Resolve quiet_transfer : quiet.

Lemma quiet_lock_drop lk : quiet (U:=U) (lock_drop aborts linux fuel lk).
Proof. unfold lock_drop. quiet_tac. Qed.
#[local] Hint Resolve quiet_lock_drop : quiet.

Lemma quiet_read_drop rl : quiet (U:=U) (read_lock_drop aborts linux fuel rl).
Proof. apply quiet_drop_with. intros. apply quiet_transfer. Qed.
#[local] Hint Resolve quiet_read_drop : quiet.

Lemma quiet_into_read lk cur : quiet (U:=U) (into_read_lock aborts linux fuel lk cur).
Proof. unfold into_read_lock. quiet_tac. Qed.
#[local] Hint Resolve quiet_into_read : quiet.

Lemma quiet_read_lock futex sc cur : quiet (U:=U) (read_lock fuel futex sc cur).
Proof.
  unfold read_lock. generalize SpinWait.new. generalize fuel at 1 as n.
  intros n. revert cur. induction n as [|n IH]; intros cur sw; [done|]. cbn [read_lock_loop].
  quiet_tac.
Qed.
#[local] Hint Resolve quiet_read_lock : quiet.

Lemma quiet_wait_for_readers futex cur : quiet (U:=U) (wait_for_readers fuel futex cur).
Proof.
  assert (∀ n cur sw, quiet (U:=U) (spin_for_readers n futex cur sw)) as Hspin.
  { intros n. induction n as [|n IH]; intros c sw; [done|]. cbn [spin_for_readers].
    quiet_tac. }
  assert (∀ n cur, quiet (U:=U) (unlock_for_readers n futex cur)) as Hunlock.
  { intros n. induction n as [|n IH]; intros c; [done|]. cbn [unlock_for_readers].
    quiet_tac. }
  unfold wait_for_readers. quiet_tac.
Qed.
#[local] Hint Resolve quiet_wait_for_readers : quiet.

Lemma quiet_wake_writer_lock futex cur how :
  quiet (U:=U) (wait_as_writer_then_wake_with_lock aborts linux fuel futex cur how).
Proof.
  unfold wait_as_writer_then_wake_with_lock.
  quiet_tac.
Qed.
#[local] Hint Resolve quiet_wake_writer_lock : quiet.

Lemma quiet_wake_reader_lock futex cur how :
  quiet (U:=U) (wait_as_reader_then_wake_with_lock aborts linux fuel futex cur how).
Proof.
  unfold wait_as_reader_then_wake_with_lock.
  quiet_tac.
Qed.
#[local] Hint Resolve quiet_wake_reader_lock : quiet.

Lemma quiet_optimistic futex how hint : quiet (U:=U) (optimistic_lock futex how hint).
Proof. unfold optimistic_lock. quiet_tac. Qed.
#[local] Hint Resolve quiet_optimistic : quiet.

Lemma quiet_try_loop n futex how cur : quiet (U:=U) (try_read_loop n futex how cur).
Proof.
  revert cur. induction n as [|n IH]; intros cur; [done|]. cbn [try_read_loop].
  quiet_tac.
Qed.
#[local] Hint Resolve quiet_try_loop : quiet.

Lemma quiet_slow futex how wake : quiet (U:=U) (raw_lock_slow aborts linux fuel futex how wake).
Proof.
  assert (∀ n cur sw, quiet (U:=U) (raw_lock_slow_loop aborts linux fuel n futex how wake cur sw)) as H.
  { intros n. induction n as [|n IH]; intros cur sw; [done|]. cbn [raw_lock_slow_loop].
    unfold attempt_write, attempt_read, attempt_wait, announce.
    quiet_tac. }
  unfold raw_lock_slow. quiet_tac.
Qed.
#[local] Hint Resolve quiet_slow : quiet.

Lemma quiet_clone rl : quiet (U:=U) (read_lock_clone aborts fuel rl).
Proof.
  assert (∀ n sw cur, quiet (U:=U) (read_lock_clone_loop aborts fuel n rl sw cur)) as H.
  { intros n. induction n as [|n IH]; intros sw cur; [done|]. cbn [read_lock_clone_loop].
    quiet_tac. }
  unfold read_lock_clone. quiet_tac.
Qed.
#[local] Hint Resolve quiet_clone : quiet.

#[export] Instance futex_quiet : QuietLocker (futex_locker (U:=U) aborts linux fuel).
Proof.
  split; intros; cbn [futex_locker pl_lock pl_try_lock pl_phase wg_drop wg_into_read rg_phase rg_clone rg_drop];
    unfold lock, raw_lock, try_lock, try_raw_lock, guard_into_read, read_lock_from, read_clone, phase;
    quiet_tac.
Qed.
End futex.
