(* ===== verification/Sequentializer.v ===== *)
(** * The lazy sequentializer (src/lazy_sequentializer.rs)

    Initialisation, registration and finalisation of an object under the phase
    locker it carries. The development is generic in the locker, as the source
    is: the operations are defined over the class [PhaseLocker] and verified
    against its contract [PhaseLockerSpec]. The check for cyclic
    initialisation of the mode [debug_mode] is in [DebugMode]. *)

From stdpp Require Import base list option numbers.
From S2P Require Import Prelude Word Phase Atomics Locker.
Open Scope Z_scope.

(** [trait GeneratorTolerance] (src/lib.rs) *)
Record GeneratorTolerance := Tolerance {
  INIT_FAILURE : bool;
  FINAL_REGISTRATION_FAILURE : bool;
}.

(** A [Fn() -> T] generator, and a [Cell<Option<FnOnce() -> T>>]. *)
Definition fn_tolerance : GeneratorTolerance := Tolerance true false.
Definition fn_once_tolerance : GeneratorTolerance := Tolerance false false.

(** [generic::LazySequentializer] *)
Record LazySequentializer (L : Type) := LazySequentializerC { seq_locker : L }.
Arguments LazySequentializerC {L} seq_locker.
Arguments seq_locker {L} l.

(** [trait Sequential]: an object with its data and its sequentializer, seen
    through [AsRef]. *)
Class Sequential (T Data L : Type) := {
  sequentializer : T → LazySequentializer L;
  data : T → Data;
}.

Section initialization.
Context {BF : Bitflags} {U L : Type} {ops : PhaseLocker U L}.

(** [PhaseGuard::transition] called in the frame that owns the guard: unwinding
    out of it drops the guard. *)
Definition do_transition {T A} (g : WriteGuard T) (f : T → prog U A) (on_success on_panic : Phase)
    : prog U (WriteGuard T * A) :=
  gr ← transition g f on_success on_panic;
  match gr with
  | (g, Some a) => Ret (g, a)
  | (g, None) => wg_drop g;; Panic
  end.

Definition lazy_initialization_only {T} (phase_guard : WriteGuard T) (init : T → prog U unit)
    : prog U (WriteGuard T) :=
  let cur := empty_flags in
  let initialized := cur .| INITIALIZED in
  let initialization_panic := cur .| INITIALIZATION_PANICKED .| INITIALIZATION_SKIPED in
  gr ← do_transition phase_guard init initialized initialization_panic;
  Ret gr.1.

Definition mut_lazy_initialization_only `{!MutPhaseLocker U L} (locker : L) (init : prog U unit)
    : prog U unit :=
  let cur := empty_flags in
  let initialized := cur .| INITIALIZED in
  let initialization_panic := cur .| INITIALIZATION_PANICKED .| INITIALIZATION_SKIPED in
  transition_unique locker init initialized initialization_panic.

(** The phase from which the initialisation starts once registration is over. *)
Definition before_init (Tol : GeneratorTolerance) (registration_finished : Phase) : Phase :=
  if INIT_FAILURE Tol then
    registration_finished .&
      ~. (INITIALIZED .| INITIALIZATION_PANICKED .| INITIALIZATION_SKIPED)
  else registration_finished.

(** The last part of [lazy_initialization], once [registration_finished] is
    known. *)
Definition lazy_initialization_registered {S Data} `{!Sequential S Data L} (Tol : GeneratorTolerance)
    (phase_guard : WriteGuard S) (init : Data → prog U unit) (registration_finished : Phase)
    : prog U (WriteGuard S) :=
  if intersects registration_finished REGISTERED then
    let before_init := before_init Tol registration_finished in
    let initialized := before_init .| INITIALIZED in
    let initialization_panic := before_init .| INITIALIZATION_PANICKED .| INITIALIZATION_SKIPED in
    gr ← do_transition phase_guard (λ s, init (data s)) initialized initialization_panic;
    Ret gr.1
  else if FINAL_REGISTRATION_FAILURE Tol then
    let before_init := before_init Tol registration_finished in
    let initialized := before_init .| INITIALIZED in
    let initialization_panic := before_init .| INITIALIZATION_PANICKED .| INITIALIZATION_SKIPED in
    gr ← do_transition phase_guard (λ s, init (data s)) initialized initialization_panic;
    Ret gr.1
  else
    let no_init := registration_finished .| INITIALIZATION_SKIPED in
    Ret (wg_set_phase phase_guard no_init).

Definition lazy_initialization {S Data} `{!Sequential S Data L} (Tol : GeneratorTolerance)
    (phase_guard : WriteGuard S) (init : Data → prog U unit) (reg : S → prog U bool)
    : prog U (WriteGuard S) :=
  let cur := wg_phase phase_guard in
  if negb (INIT_FAILURE Tol) || is_empty cur then
    let registration_failed := REGISTRATION_PANICKED .| INITIALIZATION_SKIPED in
    gr ← do_transition phase_guard reg cur registration_failed;
    lazy_initialization_registered Tol gr.1 init
      (if gr.2 : bool then REGISTERED else REGISTRATION_REFUSED)
  else lazy_initialization_registered Tol phase_guard init cur.

Definition lazy_finalization {T} (phase_guard : WriteGuard T) (f : T → prog U unit) : prog U unit :=
  let cur := wg_phase phase_guard in
  let finalizing_success := cur .| FINALIZED in
  let finalizing_failed := cur .| FINALIZATION_PANICKED in
  gr ← do_transition phase_guard f finalizing_success finalizing_failed;
  wg_drop gr.1.
End initialization.

Section operations.
Context {BF : Bitflags} {U L : Type} {ops : PhaseLocker U L}.
Context {T Data : Type} `{!Sequential T Data L}.

(** ** [impl Sequentializer for LazySequentializer] *)

Definition seq_new (l : L) : LazySequentializer L := LazySequentializerC l.

Definition seq_phase (this : LazySequentializer L) : prog U Phase := pl_phase (seq_locker this).

Definition seq_lock (s : T) (lock_nature : How) (hint : Phase)
    : prog U (LockResult (ReadGuard Data) (WriteGuard Data)) :=
  let this := sequentializer s in
  pl_lock (seq_locker this) (data s) lock_nature lock_nature hint.

Definition seq_try_lock (s : T) (lock_nature : How) (hint : Phase)
    : prog U (option (LockResult (ReadGuard Data) (WriteGuard Data))) :=
  let this := sequentializer s in
  pl_try_lock (seq_locker this) (data s) lock_nature hint.

Definition seq_lock_mut (s : T) : prog U (WriteGuard Data) :=
  pl_lock_mut (seq_locker (sequentializer s)) (data s).

Definition whole_lock (s : T) (lock_nature : How) (hint : Phase)
    : prog U (LockResult (ReadGuard T) (WriteGuard T)) :=
  pl_lock (seq_locker (sequentializer s)) s lock_nature lock_nature hint.

Definition try_whole_lock (s : T) (lock_nature : How) (hint : Phase)
    : prog U (option (LockResult (ReadGuard T) (WriteGuard T))) :=
  pl_try_lock (seq_locker (sequentializer s)) s lock_nature hint.

(** The closures the operations lock with. *)
Definition write_or (n : LockNature) (shall_init : Phase → bool) : How :=
  λ p, if shall_init p then LNWrite else n.

(** ** [impl FinalizableLazySequentializer for LazySequentializer] *)

Section finalizable.
Context (Tol : GeneratorTolerance).
Implicit Types (s : T) (shall_init : Phase → bool) (init : Data → prog U unit)
  (reg : T → prog U bool).

Definition fin_init s shall_init init reg : prog U Phase :=
  r ← pl_lock (seq_locker (sequentializer s)) s (write_or LNNone shall_init) (λ _, LNRead)
        (INITIALIZED .| REGISTERED);
  match r with
  | LRNone p => Ret p
  | LRRead l => p ← rg_phase l; rg_drop l;; Ret p
  | LRWrite phase_guard =>
      ph ← lazy_initialization Tol phase_guard init reg;
      let p := wg_phase ph in
      wg_drop ph;;
      Ret p
  end.

Definition fin_init_then_read_guard s shall_init init reg : prog U (ReadGuard Data) :=
  r ← pl_lock (seq_locker (sequentializer s)) s (write_or LNRead shall_init) (λ _, LNRead)
        (INITIALIZED .| REGISTERED);
  match r with
  | LRRead l => Ret (rg_map l data)
  | LRWrite l =>
      l ← lazy_initialization Tol l init reg;
      wg_into_read (wg_map l data)
  | LRNone _ => Undef
  end.

Definition fin_init_then_write_guard s shall_init init reg : prog U (WriteGuard Data) :=
  r ← whole_lock s (λ _, LNWrite) INITIALIZED;
  match r with
  | LRWrite l =>
      if shall_init (wg_phase l) then
        l ← lazy_initialization Tol l init reg;
        Ret (wg_map l data)
      else Ret (wg_map l data)
  | LRRead _ => Undef
  | LRNone _ => Undef
  end.

Definition fin_try_init_then_read_guard s shall_init init reg : prog U (option (ReadGuard Data)) :=
  r ← pl_try_lock (seq_locker (sequentializer s)) s (write_or LNRead shall_init)
        (INITIALIZED .| REGISTERED);
  match r with
  | None => Ret None
  | Some (LRRead l) => Ret (Some (rg_map l data))
  | Some (LRWrite l) =>
      l ← lazy_initialization Tol l init reg;
      l ← wg_into_read (wg_map l data);
      Ret (Some l)
  | Some (LRNone _) => Undef
  end.

Definition fin_try_init_then_write_guard s shall_init init reg : prog U (option (WriteGuard Data)) :=
  r ← try_whole_lock s (λ _, LNWrite) (INITIALIZED .| REGISTERED);
  match r with
  | None => Ret None
  | Some (LRWrite l) =>
      if shall_init (wg_phase l) then
        l ← lazy_initialization Tol l init reg;
        Ret (Some (wg_map l data))
      else Ret (Some (wg_map l data))
  | Some (LRRead _) => Undef
  | Some (LRNone _) => Undef
  end.

Definition finalize_callback s (f : Data → prog U unit) : prog U unit :=
  let how := λ p, if intersects p INITIALIZED then LNWrite else LNNone in
  r ← pl_lock (seq_locker (sequentializer s)) (data s) how how (INITIALIZED .| REGISTERED);
  match r with
  | LRNone _ => Ret tt
  | LRWrite phase_guard => lazy_finalization phase_guard f
  | LRRead _ => Undef
  end.
End finalizable.

(** ** [impl LazySequentializer for LazySequentializer] *)

Section lazy.
Implicit Types (s : T) (shall_init : Phase → bool) (init : Data → prog U unit).

Definition INITIALIZED_HINT : Phase := INITIALIZED.

Definition lazy_init s shall_init init : prog U Phase :=
  r ← pl_lock (seq_locker (sequentializer s)) (data s) (write_or LNNone shall_init) (λ _, LNRead)
        INITIALIZED;
  match r with
  | LRNone p => Ret p
  | LRRead l => p ← rg_phase l; rg_drop l;; Ret p
  | LRWrite phase_guard =>
      ph ← lazy_initialization_only phase_guard init;
      let p := wg_phase ph in
      wg_drop ph;;
      Ret p
  end.

Definition lazy_init_then_read_guard s shall_init init : prog U (ReadGuard Data) :=
  r ← pl_lock (seq_locker (sequentializer s)) (data s) (write_or LNRead shall_init) (λ _, LNRead)
        INITIALIZED;
  match r with
  | LRRead l => Ret l
  | LRWrite l =>
      l ← lazy_initialization_only l init;
      wg_into_read l
  | LRNone _ => Undef
  end.

Definition lazy_init_then_write_guard s shall_init init : prog U (WriteGuard Data) :=
  r ← seq_lock s (λ _, LNWrite) INITIALIZED;
  match r with
  | LRWrite l =>
      if shall_init (wg_phase l) then lazy_initialization_only l init
      else Ret l
  | LRRead _ => Undef
  | LRNone _ => Undef
  end.

Definition lazy_try_init_then_read_guard s shall_init init : prog U (option (ReadGuard Data)) :=
  r ← pl_try_lock (seq_locker (sequentializer s)) (data s) (write_or LNRead shall_init) INITIALIZED;
  match r with
  | None => Ret None
  | Some (LRRead l) => Ret (Some l)
  | Some (LRWrite l) =>
      l ← lazy_initialization_only l init;
      l ← wg_into_read l;
      Ret (Some l)
  | Some (LRNone _) => Undef
  end.

Definition lazy_try_init_then_write_guard s shall_init init : prog U (option (WriteGuard Data)) :=
  r ← seq_try_lock s (λ _, LNWrite) INITIALIZED;
  match r with
  | None => Ret None
  | Some (LRWrite l) =>
      if shall_init (wg_phase l) then
        l ← lazy_initialization_only l init;
        Ret (Some l)
      else Ret (Some l)
  | Some (LRRead _) => Undef
  | Some (LRNone _) => Undef
  end.

(** ** [impl UniqueLazySequentializer for LazySequentializer] *)

Definition init_unique `{!MutPhaseLocker U L} s shall_init init : prog U Phase :=
  let that := sequentializer s in
  p ← get_phase_unique (seq_locker that);
  (if shall_init p then mut_lazy_initialization_only (seq_locker that) (init (data s)) else Ret tt);;
  get_phase_unique (seq_locker that).
End lazy.
End operations.

(** ** The contract of the operations

    Given what the initialisation and registration closures do under the write
    lock, the triples of every operation. A write lock found at phase [p] may
    be left at phase [q] with data [d] when [leaves p q d]. *)

Section triples.
Context {BF : Bitflags} {U L : Type} {ops : PhaseLocker U L}.
Context {G : Type} {P : PCM G} {D : Type} {c : contract U D} {l : L}.
Context {spec : PhaseLockerSpec (G:=G) ops c l}.

Abbreviation leaves := (moves c).
Definition pub_of (p : Phase) : G := if pub c p then own_pub else pcm_unit.

Lemma do_transition_ok {T A} (g : WriteGuard T) (t : T) p q (f : T → prog U A) sp pp h Q Qp :
  wg_is g t p q → phase_range sp → phase_range pp →
  ok linv (f t) h (λ x h', ∀ g', wg_is g' t p sp → Q (g', x) h')
    (λ h', ∃ d, h' = own_w p d ∧ leaves p pp d ∧ Qp (pub_of pp)) →
  ok linv (do_transition g f sp pp) h Q Qp.
Proof.
  intros Hg Hsp Hpp Hf. apply ok_bind.
  apply (ok_mono _ _ _ (λ gr h, match gr with
    | (g, Some a) => Q (g, a) h
    | (g, None) => ∃ d, h = own_w p d ∧ leaves p pp d ∧ Qp (pub_of pp) ∧ wg_is g t p pp
    end) _ (λ _, False)); [|cbv beta|by intros ? []].
  - apply (transition_ok g t p q); [done..|]. intros g' Hg'.
    eapply ok_mono; [exact Hf|..]; cbv beta.
    + intros x h' HQ g'' Hg''. by apply HQ.
    + intros h' (d & -> & ? & ?). by exists d.
  - intros [g' [a|]] h'; [done|]. intros (d & -> & Hl & HQp & Hg').
    apply ok_bind. eapply ok_mono; [by eapply spec_wg_drop|cbv beta|by intros ? []].
    by intros [] h'' ->.
Qed.

(** What [init] does to the data under the write lock, from phase [p]. *)
Definition init_ok {X} (init : X → prog U unit) (x : X) (p : Phase) (d : D) (sp pp : Phase) : Prop :=
  ok linv (init x) (own_w p d)
    (λ _ h, ∃ d', h = own_w p d' ∧ leaves p sp d') (λ h, ∃ d', h = own_w p d' ∧ leaves p pp d').

Definition init_panic : Phase := empty_flags .| INITIALIZATION_PANICKED .| INITIALIZATION_SKIPED.

Lemma lazy_initialization_only_ok {T} (g : WriteGuard T) (t : T) p q d init :
  wg_is g t p q → init_ok init t p d (empty_flags .| INITIALIZED) init_panic →
  ok linv (lazy_initialization_only g init) (own_w p d)
    (λ g' h, ∃ d', h = own_w p d' ∧ wg_is g' t p (empty_flags .| INITIALIZED) ∧
       leaves p (empty_flags .| INITIALIZED) d')
    (λ h, h = pub_of init_panic).
Proof.
  intros Hg Hinit. apply ok_bind.
  eapply (do_transition_ok g t p q); [done|auto 10 with phase..|].
  eapply ok_mono; [exact Hinit|..]; cbv beta.
  - intros [] h (d' & -> & Hl) g' Hg'. by exists d'.
  - intros h (d' & -> & Hl). by exists d'.
Qed.

(** ** Initialisation with registration *)

(** The phases that may come out of the registration step. *)
Definition registration_result (Tol : GeneratorTolerance) (cur rf : Phase) : Prop :=
  if negb (INIT_FAILURE Tol) || is_empty cur
  then rf = REGISTERED ∨ rf = REGISTRATION_REFUSED
  else rf = cur.

(** Whether the object is initialised once registration left phase [rf]. *)
Definition proceeds (Tol : GeneratorTolerance) (rf : Phase) : bool :=
  intersects rf REGISTERED || FINAL_REGISTRATION_FAILURE Tol.

(** The phase a whole initialisation leaves when nothing panics. *)
Definition final_phase (Tol : GeneratorTolerance) (rf : Phase) : Phase :=
  if proceeds Tol rf then before_init Tol rf .| INITIALIZED
  else rf .| INITIALIZATION_SKIPED.

Definition failed_phase (Tol : GeneratorTolerance) (rf : Phase) : Phase :=
  before_init Tol rf .| INITIALIZATION_PANICKED .| INITIALIZATION_SKIPED.

Lemma before_init_range Tol rf : phase_range rf → phase_range (before_init Tol rf).
Proof. intros. unfold before_init. destruct (INIT_FAILURE Tol); auto 10 with phase. Qed.

Context {T Data : Type} `{!Sequential T Data L}.

(** What [init] does under the write lock once registration has left [rf], or
    what is left when it is skipped. *)
Record registered_ok Tol (init : Data → prog U unit) (s : T) p d rf : Prop := {
  reg_init :
    proceeds Tol rf = true →
    init_ok init (data s) p d (before_init Tol rf .| INITIALIZED) (failed_phase Tol rf);
  reg_skip : proceeds Tol rf = false → leaves p (rf .| INITIALIZATION_SKIPED) d;
}.

(** What [reg] and [init] do, the object being registered or not at [p]. *)
Record fin_ok Tol (init : Data → prog U unit) (reg : T → prog U bool) (s : T) p d : Prop := {
  fin_reg :
    negb (INIT_FAILURE Tol) || is_empty p = true →
    ok linv (reg s) (own_w p d)
      (λ (b : bool) h, ∃ d', h = own_w p d' ∧
         registered_ok Tol init s p d' (if b then REGISTERED else REGISTRATION_REFUSED))
      (λ h, ∃ d', h = own_w p d' ∧ leaves p (REGISTRATION_PANICKED .| INITIALIZATION_SKIPED) d');
  fin_again : negb (INIT_FAILURE Tol) || is_empty p = false → registered_ok Tol init s p d p;
}.

Lemma registration_result_range Tol p rf :
  phase_range p → registration_result Tol p rf → phase_range rf.
Proof.
  unfold registration_result. intros Hp. destruct (_ || _); [|by intros ->].
  intros [-> | ->]; auto with phase.
Qed.

Lemma lazy_initialization_registered_ok Tol (g : WriteGuard T) s p q d rf init :
  wg_is g s p q → phase_range rf → registered_ok Tol init s p d rf →
  ok linv (lazy_initialization_registered Tol g init rf) (own_w p d)
    (λ g' h, ∃ d', h = own_w p d' ∧ wg_is g' s p (final_phase Tol rf) ∧
       leaves p (final_phase Tol rf) d')
    (λ h, h = pub_of (failed_phase Tol rf)).
Proof.
  intros Hg Hrange Hreg.
  pose proof (before_init_range Tol _ Hrange) as Hbi.
  assert (proceeds Tol rf = true →
    ok linv (gr ← do_transition g (λ s, init (data s)) (before_init Tol rf .| INITIALIZED)
                    (failed_phase Tol rf); Ret gr.1) (own_w p d)
      (λ g' h, ∃ d', h = own_w p d' ∧ wg_is g' s p (final_phase Tol rf) ∧
         leaves p (final_phase Tol rf) d')
      (λ h, h = pub_of (failed_phase Tol rf))) as Hinit.
  { intros Hpro. unfold final_phase. rewrite Hpro. apply ok_bind.
    eapply (do_transition_ok g s p q); [done|unfold failed_phase; auto 10 with phase..|].
    eapply ok_mono; [by apply (reg_init _ _ _ _ _ _ Hreg)|..]; cbv beta.
    - intros [] h (d' & -> & Hl) g' Hg'. by exists d'.
    - intros h (d' & -> & Hl). by exists d'. }
  unfold lazy_initialization_registered. unfold proceeds in Hinit at 1.
  destruct (intersects rf REGISTERED) eqn:Ereg; [by apply Hinit|].
  destruct (FINAL_REGISTRATION_FAILURE Tol) eqn:Efrf; [by apply Hinit|].
  assert (proceeds Tol rf = false) as Hpro by (unfold proceeds; by rewrite Ereg, Efrf).
  cbn [ok]. unfold final_phase. rewrite Hpro. exists d. split; [done|]. split.
  - eapply spec_wg_set_phase; [done|auto with phase].
  - by eapply reg_skip.
Qed.

Lemma lazy_initialization_ok Tol (g : WriteGuard T) s p d init reg :
  wg_is g s p p → fin_ok Tol init reg s p d →
  ok linv (lazy_initialization Tol g init reg) (own_w p d)
    (λ g' h, ∃ d' rf, h = own_w p d' ∧ registration_result Tol p rf ∧
       wg_is g' s p (final_phase Tol rf) ∧ leaves p (final_phase Tol rf) d')
    (λ h, ∃ q, h = pub_of q).
Proof.
  intros Hg Hfin. destruct (spec_wg_phase _ _ _ _ Hg) as (Hq & Hp & _).
  assert (∀ g' q rf d, wg_is g' s p q → registration_result Tol p rf → registered_ok Tol init s p d rf →
    ok linv (lazy_initialization_registered Tol g' init rf) (own_w p d)
      (λ g' h, ∃ d' rf, h = own_w p d' ∧ registration_result Tol p rf ∧
         wg_is g' s p (final_phase Tol rf) ∧ leaves p (final_phase Tol rf) d')
      (λ h, ∃ q, h = pub_of q)) as Hreg.
  { intros g' q rf d' Hg' Hrf Hr. pose proof (registration_result_range _ _ _ Hp Hrf) as Hrange.
    eapply ok_mono; [by eapply lazy_initialization_registered_ok|..]; cbv beta.
    - intros g'' h (d'' & -> & Hg'' & Hl). by exists d'', rf.
    - intros h ->. by exists (failed_phase Tol rf). }
  unfold lazy_initialization. rewrite Hq.
  destruct (negb (INIT_FAILURE Tol) || is_empty p) eqn:E.
  - apply ok_bind. eapply (do_transition_ok g s p p); [done|auto with phase..|].
    eapply ok_mono; [by eapply (fin_reg _ _ _ _ _ _ Hfin)|..]; cbv beta.
    + intros b h (d' & -> & Hr) g' Hg'. eapply Hreg; [done| |exact Hr].
      unfold registration_result. rewrite E. destruct b; auto.
    + intros h (d' & -> & Hl). exists d'. split; [done|]. split; [done|]. by eexists.
  - eapply Hreg; [done| |by eapply fin_again]. unfold registration_result. by rewrite E.
Qed.
End triples.

(** ** The triples of the operations *)

Section operations_ok.
Context {BF : Bitflags} {U L : Type} {ops : PhaseLocker U L}.
Context {G : Type} {P : PCM G} {D : Type} {c : contract U D} {l : L}.
Context {spec : PhaseLockerSpec (G:=G) ops c l}.
Context {T Data : Type} `{!Sequential T Data L}.
Context (s : T) (Hs : seq_locker (sequentializer s) = l).
Context (shall_init : Phase → bool) (init : Data → prog U unit).

Lemma leaves_same p d : R c p d → moves c p p d.
Proof using. intros. by split_and!; auto. Qed.

(** Dropping a guard whose phase may be left, returning that phase. *)
Lemma drop_guard_ok {X} (g : WriteGuard X) t p q d (Q : Phase → G → Prop) Qp :
  wg_is g t p q → moves c p q d → Q q (pub_of q) →
  ok linv (wg_drop g;; Ret (wg_phase g)) (own_w p d) Q Qp.
Proof using.
  intros Hg Hl HQ. destruct (spec_wg_phase _ _ _ _ Hg) as (Hq & _).
  apply ok_bind. eapply ok_mono; [by eapply spec_wg_drop|cbv beta|by intros ? []].
  intros [] h ->. cbn [ok]. by rewrite Hq.
Qed.

(** *** Without registration *)

Section lazy.
Context (Hinit : ∀ p d, shall_init p = true → R c p d → phase_range p →
  init_ok (c:=c) init (data s) p d (empty_flags .| INITIALIZED) init_panic).

(** The phase after an attempt: the object was not to be initialised, or it is. *)
Definition lazy_reached (q : Phase) : Prop :=
  shall_init q = false ∨ q = empty_flags .| INITIALIZED.

Lemma write_or_write n p : n ≠ LNWrite → write_or n shall_init p = LNWrite → shall_init p = true.
Proof using. unfold write_or. by destruct (shall_init p). Qed.
Lemma write_or_other n p : n ≠ LNWrite → write_or n shall_init p = n → shall_init p = false.
Proof using. unfold write_or. destruct (shall_init p); [|done]. by intros H <-. Qed.
Lemma write_or_read p : write_or LNNone shall_init p ≠ LNRead.
Proof using. unfold write_or. by destruct (shall_init p). Qed.
Lemma write_or_none p : write_or LNRead shall_init p ≠ LNNone.
Proof using. unfold write_or. by destruct (shall_init p). Qed.

Lemma lazy_locked_ok (Q : WriteGuard Data → G → Prop) Qp (g : WriteGuard Data) p d :
  shall_init p = true → R c p d → wg_is g (data s) p p →
  (∀ g' d', wg_is g' (data s) p (empty_flags .| INITIALIZED) →
    moves c p (empty_flags .| INITIALIZED) d' → Q g' (own_w p d')) →
  Qp (pub_of init_panic) →
  ok linv (lazy_initialization_only g init) (own_w p d) Q Qp.
Proof using Hinit.
  intros Hsh HR Hg HQ HQp. destruct (spec_wg_phase _ _ _ _ Hg) as (_ & Hp & _).
  eapply ok_mono; [by eapply lazy_initialization_only_ok; eauto|..]; cbv beta; [|by intros ? ->].
  intros g' h (d' & -> & Hg' & Hl). by apply HQ.
Qed.

Lemma lazy_init_ok :
  ok linv (lazy_init s shall_init init) pcm_unit
    (λ q h, h = pub_of q ∧ phase_range q ∧ lazy_reached q)
    (λ h, (h = pcm_unit ∧ lock_panics = true) ∨ h = pub_of init_panic).
Proof using Hs Hinit.
  unfold lazy_init. rewrite Hs. apply ok_bind.
  eapply ok_mono; [apply spec_lock; auto with phase|cbv beta|by left].
  intros [r|g|p] h.
  - intros (p & d & _ & _ & _ & Hhow). by apply write_or_read in Hhow.
  - intros (p & d & -> & HR & Hg & Hhow%write_or_write); [|done].
    apply ok_bind. eapply lazy_locked_ok; eauto. intros g' d' Hg' Hl.
    eapply drop_guard_ok; [done|done|].
    split; [done|]. split; [auto with phase|]. by right.
  - intros (-> & Hp & [Hhow|Hhow]); [|done]. apply write_or_other in Hhow; [|done].
    split; [done|]. split; [done|]. by left.
Qed.

(** What a read or write guard of the data promises. *)
Definition read_post (reached : Phase → Prop) (r : ReadGuard Data) (h : G) : Prop :=
  ∃ p d, h = own_r p d ∧ R c p d ∧ rg_is r (data s) p ∧ reached p.
Definition write_post (reached : Phase → Prop) (g : WriteGuard Data) (h : G) : Prop :=
  ∃ p q d, h = own_w p d ∧ moves c p q d ∧ wg_is g (data s) p q ∧ reached q.
Definition opt_post {X} (Q : X → G → Prop) (r : option X) (h : G) : Prop :=
  match r with
  | Some x => Q x h
  | None => h = pcm_unit ∨ ∃ p, h = pub_of p
  end.
(** How an attempt that panics ends: the lock refused, or a closure panicked and
    the guard was dropped at the phase that tells so. *)
Definition init_panicked (h : G) : Prop :=
  (h = pcm_unit ∧ lock_panics = true) ∨ ∃ q, h = pub_of q.

Lemma into_read_post reached g p d q Qp :
  wg_is g (data s) p q → moves c p q d → phase_range q → reached q →
  ok linv (wg_into_read g) (own_w p d) (read_post reached) Qp.
Proof using.
  intros Hg Hl Hq Hreach.
  eapply ok_mono; [by eapply spec_wg_into_read|cbv beta|by intros ? []].
  intros r h [-> Hr]. exists q, d. by destruct Hl as (_ & ? & _).
Qed.

Lemma lazy_init_then_read_guard_ok :
  ok linv (lazy_init_then_read_guard s shall_init init) pcm_unit
    (read_post lazy_reached) init_panicked.
Proof using Hs Hinit.
  unfold lazy_init_then_read_guard. rewrite Hs. apply ok_bind.
  eapply ok_mono; [apply spec_lock; auto with phase|cbv beta|by left].
  intros [r|g|p] h.
  - intros (p & d & -> & HR & Hr & Hhow%write_or_other); [|done].
    exists p, d. split_and!; try done. by left.
  - intros (p & d & -> & HR & Hg & Hhow%write_or_write); [|done].
    apply ok_bind. eapply lazy_locked_ok; eauto; [|by right; eexists].
    intros g' d' Hg' Hl. eapply into_read_post; [done..|auto with phase|by right].
  - intros (_ & _ & [Hhow%write_or_none|?]); [done|done].
Qed.

Lemma lazy_init_then_write_guard_ok :
  ok linv (lazy_init_then_write_guard s shall_init init) pcm_unit
    (write_post lazy_reached) init_panicked.
Proof using Hs Hinit.
  unfold lazy_init_then_write_guard, seq_lock. rewrite Hs. apply ok_bind.
  eapply ok_mono; [apply spec_lock; auto with phase|cbv beta|by left].
  intros [r|g|p] h; [by intros (? & ? & _ & _ & _ & ?)| |by intros (_ & _ & [?|?])].
  intros (p & d & -> & HR & Hg & _). destruct (spec_wg_phase _ _ _ _ Hg) as (-> & Hp & _).
  destruct (shall_init p) eqn:Hsh.
  - eapply lazy_locked_ok; eauto; [|by right; eexists].
    intros g' d' Hg' Hl. eexists p, _, d'.
    split; [done|]. split; [exact Hl|]. split; [exact Hg'|by right].
  - exists p, p, d.
    split; [done|]. split; [by apply leaves_same|]. split; [done|by left].
Qed.

Lemma lazy_try_init_then_read_guard_ok :
  ok linv (lazy_try_init_then_read_guard s shall_init init) pcm_unit
    (opt_post (read_post lazy_reached)) init_panicked.
Proof using Hs Hinit.
  unfold lazy_try_init_then_read_guard. rewrite Hs. apply ok_bind.
  eapply ok_mono; [apply spec_try_lock; auto with phase|cbv beta|by intros ? []].
  intros [[r|g|p]|] h; [| | |by intros H].
  - intros (p & d & -> & HR & Hr & Hhow%write_or_other); [|done].
    exists p, d. split_and!; try done. by left.
  - intros (p & d & -> & HR & Hg & Hhow%write_or_write); [|done].
    apply ok_bind. eapply lazy_locked_ok; eauto; [|by right; eexists].
    intros g' d' Hg' Hl. apply ok_bind.
    eapply ok_mono; [eapply (into_read_post lazy_reached _ _ _ _ (λ _, False));
      [done..|auto with phase|by right]|by intros r h H|by intros ? []].
  - by intros (_ & _ & Hhow%write_or_none).
Qed.

Lemma lazy_try_init_then_write_guard_ok :
  ok linv (lazy_try_init_then_write_guard s shall_init init) pcm_unit
    (opt_post (write_post lazy_reached)) init_panicked.
Proof using Hs Hinit.
  unfold lazy_try_init_then_write_guard, seq_try_lock. rewrite Hs. apply ok_bind.
  eapply ok_mono; [apply spec_try_lock; auto with phase|cbv beta|by intros ? []].
  intros [[r|g|p]|] h; [by intros (? & ? & _ & _ & _ & ?)| |by intros (_ & _ & ?)|by intros H].
  intros (p & d & -> & HR & Hg & _). destruct (spec_wg_phase _ _ _ _ Hg) as (-> & Hp & _).
  destruct (shall_init p) eqn:Hsh.
  - apply ok_bind. eapply lazy_locked_ok; eauto; [|by right; eexists].
    intros g' d' Hg' Hl. eexists p, _, d'.
    split; [done|]. split; [exact Hl|]. split; [exact Hg'|by right].
  - exists p, p, d.
    split; [done|]. split; [by apply leaves_same|]. split; [done|by left].
Qed.
End lazy.

(** *** With registration *)

Section finalizable.
Context (Tol : GeneratorTolerance) (reg : T → prog U bool).
Context (Hfin : ∀ p d, shall_init p = true → R c p d → phase_range p →
  fin_ok (c:=c) Tol init reg s p d).

Definition fin_reached (q : Phase) : Prop :=
  shall_init q = false ∨
  ∃ p rf, shall_init p = true ∧ phase_range p ∧ registration_result Tol p rf ∧ q = final_phase Tol rf.

Lemma fin_locked_ok (Q : WriteGuard T → G → Prop) Qp (g : WriteGuard T) p d :
  shall_init p = true → R c p d → wg_is g s p p →
  (∀ g' d' q, wg_is g' s p q → moves c p q d' → phase_range q → fin_reached q →
    Q g' (own_w p d')) →
  (∀ q, Qp (pub_of q)) →
  ok linv (lazy_initialization Tol g init reg) (own_w p d) Q Qp.
Proof using Hfin.
  intros Hsh HR Hg HQ HQp. destruct (spec_wg_phase _ _ _ _ Hg) as (_ & Hp & _).
  eapply ok_mono; [eapply lazy_initialization_ok; eauto|..]; cbv beta.
  - intros g' h (d' & rf & -> & Hrf & Hg' & Hl).
    destruct (spec_wg_phase _ _ _ _ Hg') as (_ & _ & Hq).
    eapply HQ; [exact Hg'|done..|]. right. by exists p, rf.
  - by intros h [q ->].
Qed.

Lemma fin_init_triple :
  ok linv (fin_init Tol s shall_init init reg) pcm_unit
    (λ q h, h = pub_of q ∧ phase_range q ∧ fin_reached q) init_panicked.
Proof using Hs Hfin.
  unfold fin_init. rewrite Hs. apply ok_bind.
  eapply ok_mono; [apply spec_lock; auto with phase|cbv beta|by left].
  intros [r|g|p] h.
  - intros (p & d & _ & _ & _ & Hhow). by apply write_or_read in Hhow.
  - intros (p & d & -> & HR & Hg & Hhow%write_or_write); [|done].
    apply ok_bind. eapply fin_locked_ok; eauto; [|by right; eexists].
    intros g' d' q Hg' Hl Hq Hreach. by eapply drop_guard_ok.
  - intros (-> & Hp & [Hhow|Hhow]); [|done]. apply write_or_other in Hhow; [|done].
    split; [done|]. split; [done|]. by left.
Qed.

Lemma fin_init_then_read_guard_ok :
  ok linv (fin_init_then_read_guard Tol s shall_init init reg) pcm_unit
    (read_post fin_reached) init_panicked.
Proof using Hs Hfin.
  unfold fin_init_then_read_guard. rewrite Hs. apply ok_bind.
  eapply ok_mono; [apply spec_lock; auto with phase|cbv beta|by left].
  intros [r|g|p] h.
  - intros (p & d & -> & HR & Hr & Hhow%write_or_other); [|done].
    exists p, d. split; [done|]. split; [done|]. split; [by apply spec_rg_map|by left].
  - intros (p & d & -> & HR & Hg & Hhow%write_or_write); [|done].
    apply ok_bind. eapply fin_locked_ok; eauto; [|by right; eexists].
    intros g' d' q Hg' Hl Hq Hreach. eapply into_read_post; [by apply spec_wg_map|done..].
  - intros (_ & _ & [Hhow%write_or_none|?]); [done|done].
Qed.

Lemma fin_init_then_write_guard_ok :
  ok linv (fin_init_then_write_guard Tol s shall_init init reg) pcm_unit
    (write_post fin_reached) init_panicked.
Proof using Hs Hfin.
  unfold fin_init_then_write_guard, whole_lock. rewrite Hs. apply ok_bind.
  eapply ok_mono; [apply spec_lock; auto with phase|cbv beta|by left].
  intros [r|g|p] h; [by intros (? & ? & _ & _ & _ & ?)| |by intros (_ & _ & [?|?])].
  intros (p & d & -> & HR & Hg & _). destruct (spec_wg_phase _ _ _ _ Hg) as (-> & Hp & _).
  destruct (shall_init p) eqn:Hsh.
  - apply ok_bind. eapply fin_locked_ok; eauto; [|by right; eexists].
    intros g' d' q Hg' Hl Hq Hreach. exists p, q, d'.
    split; [done|]. split; [done|]. split; [by apply spec_wg_map|done].
  - exists p, p, d.
    split; [done|]. split; [by apply leaves_same|]. split; [by apply spec_wg_map|by left].
Qed.

Lemma fin_try_init_then_read_guard_ok :
  ok linv (fin_try_init_then_read_guard Tol s shall_init init reg) pcm_unit
    (opt_post (read_post fin_reached)) init_panicked.
Proof using Hs Hfin.
  unfold fin_try_init_then_read_guard. rewrite Hs. apply ok_bind.
  eapply ok_mono; [apply spec_try_lock; auto with phase|cbv beta|by intros ? []].
  intros [[r|g|p]|] h; [| | |by intros H].
  - intros (p & d & -> & HR & Hr & Hhow%write_or_other); [|done].
    exists p, d. split; [done|]. split; [done|]. split; [by apply spec_rg_map|by left].
  - intros (p & d & -> & HR & Hg & Hhow%write_or_write); [|done].
    apply ok_bind. eapply fin_locked_ok; eauto; [|by right; eexists].
    intros g' d' q Hg' Hl Hq Hreach. apply ok_bind.
    eapply ok_mono; [eapply (into_read_post fin_reached _ _ _ _ (λ _, False));
      [by apply spec_wg_map|done..]|by intros r h H|by intros ? []].
  - by intros (_ & _ & Hhow%write_or_none).
Qed.

Lemma fin_try_init_then_write_guard_ok :
  ok linv (fin_try_init_then_write_guard Tol s shall_init init reg) pcm_unit
    (opt_post (write_post fin_reached)) init_panicked.
Proof using Hs Hfin.
  unfold fin_try_init_then_write_guard, try_whole_lock. rewrite Hs. apply ok_bind.
  eapply ok_mono; [apply spec_try_lock; auto with phase|cbv beta|by intros ? []].
  intros [[r|g|p]|] h; [by intros (? & ? & _ & _ & _ & ?)| |by intros (_ & _ & ?)|by intros H].
  intros (p & d & -> & HR & Hg & _). destruct (spec_wg_phase _ _ _ _ Hg) as (-> & Hp & _).
  destruct (shall_init p) eqn:Hsh.
  - apply ok_bind. eapply fin_locked_ok; eauto; [|by right; eexists].
    intros g' d' q Hg' Hl Hq Hreach. exists p, q, d'.
    split; [done|]. split; [done|]. split; [by apply spec_wg_map|done].
  - exists p, p, d.
    split; [done|]. split; [by apply leaves_same|]. split; [by apply spec_wg_map|by left].
Qed.
End finalizable.

(** *** Finalisation *)

Section finalize.
Context (f : Data → prog U unit) (g0 : G).
(** The finaliser may use what its thread owns besides the lock. *)
Context (Hf : ∀ p d, intersects p INITIALIZED = true → R c p d → phase_range p →
  ok linv (f (data s)) (own_w p d ⋅ g0)
    (λ _ h, ∃ d', h = own_w p d' ∧ moves c p (p .| FINALIZED) d')
    (λ h, ∃ d', h = own_w p d' ∧ moves c p (p .| FINALIZATION_PANICKED) d')).

Lemma finalize_callback_ok :
  ok linv (finalize_callback s f) g0
    (λ _ h, ∃ q, phase_range q ∧
       ((h = pub_of q ∧ intersects q FINALIZED = true) ∨
        (h = pub_of q ⋅ g0 ∧ intersects q INITIALIZED = false)))
    (λ h, (h = g0 ∧ lock_panics = true) ∨ ∃ q, h = pub_of q).
Proof using Hs Hf.
  unfold finalize_callback. rewrite Hs, <- (left_id_L pcm_unit pcm_op g0). apply ok_bind, ok_frame.
  eapply ok_mono; [apply spec_lock; auto with phase|cbv beta|].
  2: { intros h [-> Hl]. left. by rewrite (left_id_L pcm_unit pcm_op). }
  rewrite (left_id_L pcm_unit pcm_op). intros [r|g|p] h.
  - intros (p & d & _ & _ & _ & Hhow). by destruct (intersects p INITIALIZED).
  - intros (p & d & -> & HR & Hg & Hhow).
    destruct (intersects p INITIALIZED) eqn:Hi; [|done].
    destruct (spec_wg_phase _ _ _ _ Hg) as (Hq & Hp & _).
    unfold lazy_finalization. rewrite Hq. apply ok_bind.
    eapply do_transition_ok; [done|auto with phase..|].
    eapply ok_mono; [by apply Hf|..]; cbv beta.
    + intros [] h (d' & -> & Hl) g' Hg'.
      eapply ok_mono; [by eapply spec_wg_drop|cbv beta|by intros ? []].
      intros [] h ->. eexists. split; [|left; split; [reflexivity|]]; [auto with phase|].
      rewrite intersects_or, (intersects_eq FINALIZED). by rewrite orb_true_r.
    + intros h (d' & -> & Hl). exists d'. split; [done|]. split; [done|]. right. by eexists.
  - intros (-> & Hp & [Hhow|Hhow]); exists p; (split; [done|]; right; split; [done|];
      by destruct (intersects p INITIALIZED)).
Qed.
End finalize.
End operations_ok.
