(* ===== verification/Policy.v ===== *)
(** * Lazy policies (src/lazy.rs, src/generic_lazy.rs)

    When an object shall be initialised and in which phases it may be accessed,
    and why the shortcuts of the policies are right: after an initialisation
    attempt the code of a policy often skips the test of the phase. *)

From stdpp Require Import base option numbers.
From S2P Require Import Prelude Word Phase Atomics Locker Sequentializer.
Open Scope Z_scope.

(** [trait LazyPolicy] *)
Record LazyPolicy := {
  shall_init : Phase → bool;
  is_accessible : Phase → bool;
  post_init_is_accessible : Phase → bool;
  initialized_is_accessible : Phase → bool;
}.

Section policy.
Context {BF : Bitflags}.

Definition InitializedChecker (Tol : GeneratorTolerance) : LazyPolicy :=
  let is_accessible p := intersects p INITIALIZED in
  let initialized_is_accessible (_ : Phase) := true in
  {| shall_init p := if INIT_FAILURE Tol then negb (intersects p INITIALIZED) else is_empty p;
     is_accessible := is_accessible;
     post_init_is_accessible p :=
       if INIT_FAILURE Tol then initialized_is_accessible p else is_accessible p;
     initialized_is_accessible := initialized_is_accessible |}.

Definition InitializedSoftFinalizedCheckerGeneric (Tol : GeneratorTolerance) (REG_ALWAYS : bool)
    : LazyPolicy :=
  let is_accessible p := intersects p INITIALIZED in
  let initialized_is_accessible (_ : Phase) := true in
  {| shall_init p := if INIT_FAILURE Tol then negb (intersects p INITIALIZED) else is_empty p;
     is_accessible := is_accessible;
     post_init_is_accessible p :=
       if INIT_FAILURE Tol && (REG_ALWAYS || FINAL_REGISTRATION_FAILURE Tol)
       then initialized_is_accessible p else is_accessible p;
     initialized_is_accessible := initialized_is_accessible |}.

Definition InitializedHardFinalizedCheckerGeneric (Tol : GeneratorTolerance) (REG_ALWAYS : bool)
    : LazyPolicy :=
  let initialized_is_accessible p := negb (intersects p (FINALIZED .| FINALIZATION_PANICKED)) in
  let is_accessible p := intersects p INITIALIZED && initialized_is_accessible p in
  {| shall_init p := if INIT_FAILURE Tol then negb (intersects p INITIALIZED) else is_empty p;
     is_accessible := is_accessible;
     post_init_is_accessible p :=
       if INIT_FAILURE Tol && (REG_ALWAYS || FINAL_REGISTRATION_FAILURE Tol)
       then initialized_is_accessible p else is_accessible p;
     initialized_is_accessible := initialized_is_accessible |}.

Definition InitializedSoftFinalizedChecker Tol := InitializedSoftFinalizedCheckerGeneric Tol false.
Definition InitializedHardFinalizedChecker Tol := InitializedHardFinalizedCheckerGeneric Tol false.
Definition InitializedSoftFinalizedCheckerLesser Tol := InitializedSoftFinalizedCheckerGeneric Tol true.
Definition InitializedHardFinalizedCheckerLesser Tol := InitializedHardFinalizedCheckerGeneric Tol true.

(** The thread local policies, by the build flag [cxa_thread_at_exit]. *)
Definition InitializedSoftFinalizedTLChecker (cxa_thread_at_exit : bool) Tol :=
  InitializedSoftFinalizedCheckerGeneric Tol cxa_thread_at_exit.
Definition InitializedHardFinalizedTLChecker (cxa_thread_at_exit : bool) Tol :=
  InitializedHardFinalizedCheckerGeneric Tol cxa_thread_at_exit.

(** ** Phases after an attempt *)

Lemma INITIALIZED_bit : INITIALIZED = flag_bit 0.
Proof. reflexivity. Qed.

Lemma or_initialized p : intersects (p .| INITIALIZED) INITIALIZED = true.
Proof. rewrite intersects_or, (intersects_eq INITIALIZED). by rewrite orb_true_r. Qed.

Lemma init_panic_not_initialized : intersects init_panic INITIALIZED = false.
Proof. unfold init_panic. by rewrite !intersects_or, intersects_empty, !intersects_eq. Qed.

(** An attempt that was not refused by the registration initialises. *)
Lemma final_phase_initialized Tol rf :
  proceeds Tol rf = true → intersects (final_phase Tol rf) INITIALIZED = true.
Proof. intros H. unfold final_phase. rewrite H. apply or_initialized. Qed.

Lemma final_phase_registered Tol rf :
  intersects (final_phase Tol rf) REGISTERED = intersects rf REGISTERED.
Proof.
  change REGISTERED with (flag_bit 3).
  assert (∀ q, intersects (before_init Tol q) (flag_bit 3) = intersects q (flag_bit 3)) as Hb.
  { intros q. unfold before_init. destruct (INIT_FAILURE Tol); [|done].
    rewrite intersects_and, intersects_not by lia. rewrite !intersects_or. flags_const.
    by rewrite andb_true_r. }
  unfold final_phase. destruct (proceeds Tol rf); rewrite intersects_or, ?Hb; flags_const;
    by rewrite orb_false_r.
Qed.

(** Initialisation keeps the marks of finalisation. *)
Lemma before_init_flag Tol rf i :
  3 <= i < 8 → intersects (before_init Tol rf) (flag_bit i) = intersects rf (flag_bit i).
Proof.
  intros Hi. unfold before_init. destruct (INIT_FAILURE Tol); [|done].
  rewrite intersects_and, intersects_not by lia. rewrite !intersects_or.
  assert (∀ j, 0 <= j < 3 → intersects (2 ^ j) (flag_bit i) = false) as Hlow.
  { intros j Hj. rewrite intersects_bit by lia. apply Z.pow2_bits_false. lia. }
  rewrite (Hlow 0 ltac:(lia) : intersects INITIALIZED _ = false),
    (Hlow 1 ltac:(lia) : intersects INITIALIZATION_PANICKED _ = false),
    (Hlow 2 ltac:(lia) : intersects INITIALIZATION_SKIPED _ = false). by rewrite andb_true_r.
Qed.

Definition is_finalized (p : Phase) : bool := intersects p (FINALIZED .| FINALIZATION_PANICKED).

Lemma is_finalized_or p q : is_finalized (p .| q) = is_finalized p || is_finalized q.
Proof. apply intersects_or. Qed.

Lemma before_init_finalized Tol rf : is_finalized (before_init Tol rf) = is_finalized rf.
Proof.
  unfold is_finalized. rewrite !intersects_or_r.
  change FINALIZED with (flag_bit 6). change FINALIZATION_PANICKED with (flag_bit 7).
  by rewrite !before_init_flag by lia.
Qed.

Lemma constants_not_finalized :
  is_finalized INITIALIZED = false ∧ is_finalized INITIALIZATION_PANICKED = false ∧
  is_finalized INITIALIZATION_SKIPED = false ∧ is_finalized REGISTERED = false ∧
  is_finalized REGISTRATION_REFUSED = false ∧ is_finalized REGISTRATION_PANICKED = false.
Proof. unfold is_finalized. rewrite !intersects_or_r, !intersects_eq. by split_and!. Qed.

Lemma final_phase_finalized Tol rf : is_finalized (final_phase Tol rf) = is_finalized rf.
Proof.
  destruct constants_not_finalized as (Hi & _ & Hs & _).
  unfold final_phase. destruct (proceeds Tol rf); rewrite is_finalized_or, ?before_init_finalized;
    rewrite ?Hi, ?Hs; by rewrite orb_false_r.
Qed.

Lemma failed_phase_finalized Tol rf : is_finalized (failed_phase Tol rf) = is_finalized rf.
Proof.
  destruct constants_not_finalized as (_ & Hp & Hs & _).
  unfold failed_phase. rewrite !is_finalized_or, before_init_finalized, Hp, Hs.
  by rewrite !orb_false_r.
Qed.

(** An attempt that fails leaves the object uninitialised. *)
Lemma failed_phase_not_initialized Tol rf :
  (INIT_FAILURE Tol = true ∨ intersects rf INITIALIZED = false) →
  intersects (failed_phase Tol rf) INITIALIZED = false.
Proof.
  intros H. unfold failed_phase. rewrite !intersects_or. flags_const. rewrite !orb_false_r.
  unfold before_init. destruct (INIT_FAILURE Tol); [|by destruct H].
  change INITIALIZED with (flag_bit 0).
  rewrite intersects_and, intersects_not by lia. rewrite !intersects_or. flags_const.
  by rewrite andb_false_r.
Qed.

Lemma or_flag_not_empty p q : is_empty q = false → p .| q ≠ empty_flags.
Proof.
  rewrite is_empty_eq, flags_or_eq, empty_flags_eq. intros Hq [_ H]%Z.lor_eq_0_iff. by subst.
Qed.

(** Without registration, what [InitializedChecker] grants after an attempt is
    initialised. *)
Lemma initialized_checker_access Tol q :
  lazy_reached (shall_init (InitializedChecker Tol)) q →
  post_init_is_accessible (InitializedChecker Tol) q = true → intersects q INITIALIZED = true.
Proof.
  intros [Hsh| ->]; [|intros _; apply or_initialized].
  simpl in *. destruct (INIT_FAILURE Tol); [|done]. intros _. by apply negb_false_iff.
Qed.

(** An attempt of a generator that may fail and be called again leaves the
    object initialised. *)
Lemma initialized_checker_retry Tol q :
  INIT_FAILURE Tol = true → lazy_reached (shall_init (InitializedChecker Tol)) q → intersects q INITIALIZED = true.
Proof. intros HT H. apply (initialized_checker_access Tol); [done|]. simpl. by rewrite HT. Qed.

(** An object to initialise is not initialised. *)
Lemma shall_init_not_initialized Tol p :
  shall_init (InitializedChecker Tol) p = true → intersects p INITIALIZED = false.
Proof.
  simpl. destruct (INIT_FAILURE Tol); [apply negb_true_iff|].
  intros ->%is_empty_true. by rewrite intersects_empty.
Qed.

(** What a policy with registration grants after an attempt is initialised,
    provided the registration succeeded when the policy assumes that it does. *)
Lemma post_init_initialized Tol (reg_always hard : bool) q :
  let S := if hard then InitializedHardFinalizedCheckerGeneric Tol reg_always
           else InitializedSoftFinalizedCheckerGeneric Tol reg_always in
  fin_reached (shall_init S) Tol q →
  (reg_always = true → intersects q INITIALIZED = false → intersects q REGISTERED = true) →
  post_init_is_accessible S q = true → intersects q INITIALIZED = true.
Proof.
  intros S Hreach Hreg Hacc.
  destruct (intersects q INITIALIZED) eqn:Hi; [done|exfalso].
  assert (INIT_FAILURE Tol = true ∧ (reg_always || FINAL_REGISTRATION_FAILURE Tol) = true) as [Hif Hra].
  { unfold S in *. destruct hard; simpl in Hacc; rewrite Hi in Hacc;
      destruct (INIT_FAILURE Tol), (reg_always || FINAL_REGISTRATION_FAILURE Tol); done. }
  destruct Hreach as [Hsh|(p & rf & Hsh & Hp & Hrf & ->)].
  - unfold S in Hsh. destruct hard; simpl in Hsh; rewrite Hif, Hi in Hsh; done.
  - assert (proceeds Tol rf = false) as Hpro.
    { destruct (proceeds Tol rf) eqn:E; [|done].
      rewrite final_phase_initialized in Hi by done. done. }
    unfold proceeds in Hpro. apply orb_false_iff in Hpro as [Hr Hf].
    rewrite Hf, orb_false_r in Hra. specialize (Hreg Hra eq_refl).
    by rewrite final_phase_registered, Hr in Hreg.
Qed.

(** The soft and hard finalisation policies with registration. After an
    initialisation attempt, an access that the policy grants is to an object
    that is initialised and, under the hard policy, not finalised, provided the
    registration succeeded when the policy assumes that it always does. *)
Theorem finalized_checkers_sound Tol (reg_always hard : bool) q :
  let S := if hard then InitializedHardFinalizedCheckerGeneric Tol reg_always
           else InitializedSoftFinalizedCheckerGeneric Tol reg_always in
  fin_reached (shall_init S) Tol q →
  (reg_always = true → intersects q INITIALIZED = false → intersects q REGISTERED = true) →
  post_init_is_accessible S q = true →
  intersects q INITIALIZED = true ∧
  (hard = true → intersects q (FINALIZED .| FINALIZATION_PANICKED) = false).
Proof.
  intros S Hreach Hreg Hacc.
  pose proof (post_init_initialized Tol reg_always hard q Hreach Hreg Hacc) as Hi.
  split; [done|]. intros ->. unfold S in Hacc. simpl in Hacc. rewrite Hi in Hacc. simpl in Hacc.
  destruct (_ && _); by apply negb_true_iff.
Qed.

(** The proviso matters. Under a policy of the "lesser" kind a refused
    registration leaves a phase that is reached without initialisation and that
    the policy declares accessible. *)
Theorem lesser_policy_trusts_registration (hard : bool) :
  let Tol := fn_tolerance in
  let S := if hard then InitializedHardFinalizedCheckerLesser Tol
           else InitializedSoftFinalizedCheckerLesser Tol in
  let q := REGISTRATION_REFUSED .| INITIALIZATION_SKIPED in
  fin_reached (shall_init S) Tol q ∧ post_init_is_accessible S q = true ∧
  intersects q INITIALIZED = false.
Proof.
  intros Tol S q. split_and!.
  - right. exists empty_flags, REGISTRATION_REFUSED. split_and!.
    + unfold S. destruct hard; simpl; by rewrite intersects_empty.
    + auto with phase.
    + unfold registration_result. rewrite (proj2 (is_empty_true _) eq_refl). simpl. by right.
    + unfold final_phase, proceeds. simpl. by rewrite intersects_eq.
  - unfold S, q. destruct hard; simpl; [|done]. by rewrite !flags_or_eq, intersects_eq.
  - unfold q. by rewrite flags_or_eq, intersects_eq.
Qed.
End policy.

(** A registered object of a generator that is called once, under the hard
    policy. *)
Lemma finalized_checkers_sound_witness :
  let q := 9 in
  intersects (Bitflags:=bitflags_1) q INITIALIZED = true ∧
  (true = true → intersects (Bitflags:=bitflags_1) q
     (flags_or (Bitflags:=bitflags_1) FINALIZED FINALIZATION_PANICKED) = false).
Proof.
  apply (finalized_checkers_sound (BF:=bitflags_1) fn_once_tolerance false true 9);
    [|done|reflexivity].
  left. reflexivity.
Defined.
