(* ===== verification/Traits.v ===== *)
(** * The traits of sequentializers (src/lib.rs) and who implements them

    What a lazy asks of its sequentializer, as classes of operations with the
    inheritance of the source, and their implementations: the sequentializer of
    src/lazy_sequentializer.rs, with and without registration, and the two of
    src/exit_sequentializer.rs, which forward to it and register the object for
    finalisation at each initialisation. *)

From stdpp Require Import base option numbers.
From S2P Require Import Prelude Word Phase Atomics Locker Sequentializer.
Open Scope Z_scope.

(** [trait Sequentializer: Phased] *)
Class SequentializerTrait {U L} (ops : PhaseLocker U L) (T Data : Type) := {
  sq_phase : T → prog U Phase;
  sq_lock : T → How → Phase → prog U (LockResult (ReadGuard Data) (WriteGuard Data));
  sq_try_lock : T → How → Phase → prog U (option (LockResult (ReadGuard Data) (WriteGuard Data)));
  sq_lock_mut : T → prog U (WriteGuard Data);
}.

(** [trait LazySequentializer: Sequentializer] *)
Class LazySequentializerTrait {U L} (ops : PhaseLocker U L) (T Data : Type) := {
  ls_super : SequentializerTrait ops T Data;
  ls_INITIALIZED_HINT : Phase;
  ls_init : T → (Phase → bool) → (Data → prog U unit) → prog U Phase;
  ls_init_then_read_guard : T → (Phase → bool) → (Data → prog U unit) → prog U (ReadGuard Data);
  ls_init_then_write_guard : T → (Phase → bool) → (Data → prog U unit) → prog U (WriteGuard Data);
  ls_try_init_then_read_guard :
    T → (Phase → bool) → (Data → prog U unit) → prog U (option (ReadGuard Data));
  ls_try_init_then_write_guard :
    T → (Phase → bool) → (Data → prog U unit) → prog U (option (WriteGuard Data));
}.

(** [trait UniqueLazySequentializer] *)
Class UniqueLazySequentializer (U T Data : Type) := {
  us_init_unique : T → (Phase → bool) → (Data → prog U unit) → prog U Phase;
}.

(** [trait FinalizableLazySequentializer: Sequentializer]; the last function of the
    initialisations registers the object. *)
Class FinalizableLazySequentializer {U L} (ops : PhaseLocker U L) (T Data : Type) := {
  fs_super : SequentializerTrait ops T Data;
  fs_init : T → (Phase → bool) → (Data → prog U unit) → (T → prog U bool) → prog U Phase;
  fs_init_then_read_guard :
    T → (Phase → bool) → (Data → prog U unit) → (T → prog U bool) → prog U (ReadGuard Data);
  fs_init_then_write_guard :
    T → (Phase → bool) → (Data → prog U unit) → (T → prog U bool) → prog U (WriteGuard Data);
  fs_try_init_then_read_guard :
    T → (Phase → bool) → (Data → prog U unit) → (T → prog U bool) → prog U (option (ReadGuard Data));
  fs_try_init_then_write_guard :
    T → (Phase → bool) → (Data → prog U unit) → (T → prog U bool) → prog U (option (WriteGuard Data));
  fs_finalize_callback : T → (Data → prog U unit) → prog U unit;
}.
(** ** [generic::LazySequentializer] *)

Section implementations.
Context {BF : Bitflags} {U L : Type} (ops : PhaseLocker U L) (T Data : Type) `{!Sequential T Data L}.

Definition generic_sequentializer : SequentializerTrait ops T Data := {|
  sq_phase s := seq_phase (sequentializer s);
  sq_lock := seq_lock;
  sq_try_lock := seq_try_lock;
  sq_lock_mut := seq_lock_mut;
|}.

(** [SyncSequentializer] and [UnSyncSequentializer] are this one over their
    lockers: no registration. *)
Definition plain_sequentializer : LazySequentializerTrait ops T Data := {|
  ls_super := generic_sequentializer;
  ls_INITIALIZED_HINT := INITIALIZED_HINT;
  ls_init := lazy_init;
  ls_init_then_read_guard := lazy_init_then_read_guard;
  ls_init_then_write_guard := lazy_init_then_write_guard;
  ls_try_init_then_read_guard := lazy_try_init_then_read_guard;
  ls_try_init_then_write_guard := lazy_try_init_then_write_guard;
|}.

Definition unique_sequentializer `{!MutPhaseLocker U L} : UniqueLazySequentializer U T Data := {|
  us_init_unique := init_unique;
|}.

Definition finalizable_sequentializer (Tol : GeneratorTolerance) : FinalizableLazySequentializer ops T Data := {|
  fs_super := generic_sequentializer;
  fs_init := fin_init Tol;
  fs_init_then_read_guard := fin_init_then_read_guard Tol;
  fs_init_then_write_guard := fin_init_then_write_guard Tol;
  fs_try_init_then_read_guard := fin_try_init_then_read_guard Tol;
  fs_try_init_then_write_guard := fin_try_init_then_write_guard Tol;
  fs_finalize_callback := finalize_callback;
|}.
End implementations.

(** ** The exit sequentializers *)

Section exit.
Context {BF : Bitflags} {U L : Type} (ops : PhaseLocker U L) (T Data : Type) `{!Sequential T Data L}.
Context (Tol : GeneratorTolerance).

(** [SubSequentializer<Tol>] *)
#[local] Instance sub : FinalizableLazySequentializer ops T Data := finalizable_sequentializer ops T Data Tol.

(** [ExitSequentializer] over the locker of threads *)
Definition exit_locks : SequentializerTrait ops T Data := {|
  sq_phase := sq_phase (SequentializerTrait := fs_super);
  sq_lock := sq_lock (SequentializerTrait := fs_super);
  sq_try_lock := sq_try_lock (SequentializerTrait := fs_super);
  sq_lock_mut := sq_lock_mut (SequentializerTrait := fs_super);
|}.

Definition exit_sequentializer (finalize_at_exit : T → prog U bool) : LazySequentializerTrait ops T Data := {|
  ls_super := exit_locks;
  ls_INITIALIZED_HINT := INITIALIZED_AND_REGISTERED;
  ls_init st shall_init init := fs_init st shall_init init finalize_at_exit;
  ls_init_then_read_guard st shall_init init := fs_init_then_read_guard st shall_init init finalize_at_exit;
  ls_init_then_write_guard st shall_init init := fs_init_then_write_guard st shall_init init finalize_at_exit;
  ls_try_init_then_read_guard st shall_init init :=
    fs_try_init_then_read_guard st shall_init init finalize_at_exit;
  ls_try_init_then_write_guard st shall_init init :=
    fs_try_init_then_write_guard st shall_init init finalize_at_exit;
|}.

(** [ThreadExitSequentializer] over the locker of one thread *)
Definition thread_exit_locks : SequentializerTrait ops T Data := {|
  sq_phase := sq_phase (SequentializerTrait := fs_super);
  sq_lock := sq_lock (SequentializerTrait := fs_super);
  sq_try_lock := sq_try_lock (SequentializerTrait := fs_super);
  sq_lock_mut := sq_lock_mut (SequentializerTrait := fs_super);
|}.

Definition thread_exit_sequentializer (finalize_at_thread_exit : T → prog U bool)
    : LazySequentializerTrait ops T Data := {|
  ls_super := thread_exit_locks;
  ls_INITIALIZED_HINT := INITIALIZED_AND_REGISTERED;
  ls_init st shall_proceed init := fs_init st shall_proceed init finalize_at_thread_exit;
  ls_init_then_read_guard st shall_proceed init :=
    fs_init_then_read_guard st shall_proceed init finalize_at_thread_exit;
  ls_init_then_write_guard st shall_proceed init :=
    fs_init_then_write_guard st shall_proceed init finalize_at_thread_exit;
  ls_try_init_then_read_guard st shall_proceed init :=
    fs_try_init_then_read_guard st shall_proceed init finalize_at_thread_exit;
  ls_try_init_then_write_guard st shall_proceed init :=
    fs_try_init_then_write_guard st shall_proceed init finalize_at_thread_exit;
|}.

(** [OnExit::execute]: the object is finalised with [Finaly::finaly]. *)
Definition execute (finaly : Data → prog U unit) (this : T) : prog U unit := fs_finalize_callback this finaly.
End exit.
