(* ===== verification/GenericLazy.v ===== *)
(** * Generic lazies (src/generic_lazy.rs)

    A lazy pairs a storage that may be uninitialised with a sequentializer and a
    generator, and initialises itself on access as its policy says. The
    operations are generic in the sequentializer, through the class
    [LazySequentializerTrait] of [Traits]; the storage is a part of the user state, in which
    [None] is uninitialised memory. Creating a reference to uninitialised memory
    is undefined behaviour ([Undef]). [may_debug] is the identity outside
    [debug_mode]; [DebugMode] has it. *)

From stdpp Require Import base option numbers strings.
From S2P Require Import Prelude Word Phase Atomics Locker Sequentializer Traits Policy.
Open Scope Z_scope.

(** ** Storage *)

(** The memory of the data objects [X] with target [V] in the user state. *)
Class Memory (U X V : Type) := {
  mem_get : X → U → option V;
  mem_set : X → option V → U → U;
}.

Section storage.
Context {U X V : Type} `{!Memory U X V}.

(** Creating a reference from the pointer that [LazyData::get] returns. *)
Definition as_ref (x : X) : prog U X :=
  v ← do_op (Usr (λ u, (mem_get x u, u)));
  match v with
  | Some _ => Ret x
  | None => Undef
  end.

(** [LazyData]: the storage kinds differ in how they are written. *)
Record LazyData := {
  data_init : X → V → prog U unit;
  data_init_mut : X → V → prog U unit;
  data_finaly : X → prog U unit;
}.

(** [ptr.write(v)] *)
Definition write_data (x : X) (v : V) : prog U unit :=
  do_op (Usr (λ u, (tt, mem_set x (Some v) u))).

(** [*ptr = v], which drops the value it replaces. *)
Definition assign_data (drop_value : V → prog U unit) (x : X) (v : V) : prog U unit :=
  old ← do_op (Usr (λ u, (mem_get x u, mem_set x (Some v) u)));
  match old with
  | Some old => drop_value old
  | None => Undef
  end.

(** [UnInited<T>]: finalised by the method [T::finaly]. *)
Definition UnInited (finaly : X → prog U unit) : LazyData := {|
  data_init := write_data;
  data_init_mut := write_data;
  data_finaly x := x ← as_ref x; finaly x;
|}.

(** [Primed<T>]: always initialised; finalised by [T::uninit]. *)
Definition Primed (drop_value : V → prog U unit) (uninit : X → prog U unit) : LazyData := {|
  data_init := assign_data drop_value;
  data_init_mut := assign_data drop_value;
  data_finaly x := x ← as_ref x; uninit x;
|}.

(** [drop_in_place]: the value is dropped and its memory is uninitialised. *)
Definition drop_in_place (drop_value : V → prog U unit) (x : X) : prog U unit :=
  v ← do_op (Usr (λ u, (mem_get x u, mem_set x None u)));
  match v with
  | Some v => drop_value v
  | None => Undef
  end.

(** [DropedUnInited<T>]: finalised by dropping it. *)
Definition DropedUnInited (drop_value : V → prog U unit) : LazyData := {|
  data_init := write_data;
  data_init_mut := write_data;
  data_finaly := drop_in_place drop_value;
|}.
End storage.
Arguments LazyData : clear implicits.

(** ** Access checks *)

Record AccessError := AccessErrorC { err_phase : Phase }.

Definition fmt_access_error {BF : Bitflags} (e : AccessError) : string :=
  String.append "Error: inaccessible lazy in " (fmt (err_phase e)).

Definition check_access {A} (S : LazyPolicy) (l : A) (phase : Phase) : result A AccessError :=
  if is_accessible S phase then Ok l else Err (AccessErrorC phase).

Definition post_init_check_access {A} (S : LazyPolicy) (l : A) (phase : Phase) : result A AccessError :=
  if post_init_is_accessible S phase then Ok l else Err (AccessErrorC phase).

Section access.
Context {U L : Type} {ops : PhaseLocker U L} {Data : Type}.

(** The guard is dropped when the access is refused. *)
Definition checked_read_access (S : LazyPolicy) (l : ReadGuard Data)
    : prog U (result (ReadGuard Data) AccessError) :=
  phase ← rg_phase l;
  match check_access S l phase with
  | Ok l => Ret (Ok l)
  | Err e => rg_drop l;; Ret (Err e)
  end.

Definition checked_write_access (S : LazyPolicy) (l : WriteGuard Data)
    : prog U (result (WriteGuard Data) AccessError) :=
  match check_access S l (wg_phase l) with
  | Ok l => Ret (Ok l)
  | Err e => wg_drop l;; Ret (Err e)
  end.

Definition post_init_checked_read_access (S : LazyPolicy) (l : ReadGuard Data)
    : prog U (result (ReadGuard Data) AccessError) :=
  phase ← rg_phase l;
  match post_init_check_access S l phase with
  | Ok l => Ret (Ok l)
  | Err e => rg_drop l;; Ret (Err e)
  end.

Definition post_init_checked_write_access (S : LazyPolicy) (l : WriteGuard Data)
    : prog U (result (WriteGuard Data) AccessError) :=
  match post_init_check_access S l (wg_phase l) with
  | Ok l => Ret (Ok l)
  | Err e => wg_drop l;; Ret (Err e)
  end.

(** [Result::unwrap] and [Option::map] over programs. *)
Definition unwrap {A E} (r : result A E) : prog U A :=
  match r with
  | Ok a => Ret a
  | Err _ => Panic
  end.

Definition map_option {A B} (f : A → prog U B) (r : option A) : prog U (option B) :=
  match r with
  | Some a => b ← f a; Ret (Some b)
  | None => Ret None
  end.

Definition map_result {A B E} (f : A → prog U B) (r : result A E) : prog U (result B E) :=
  match r with
  | Ok a => b ← f a; Ret (Ok b)
  | Err e => Ret (Err e)
  end.
End access.

(** ** GenericLazy *)

Section lazies.
Context {BF : Bitflags} {U L : Type} {ops : PhaseLocker U L} {X V : Type} `{!Memory U X V}.

(** [GenericLazySeq] and [GenericLockedLazySeq] *)
Record GenericLazySeq := { gl_value : X; gl_sequentializer : LazySequentializer L }.

#[export] Instance generic_lazy_sequential : Sequential GenericLazySeq X L := {
  sequentializer := gl_sequentializer;
  data := gl_value;
}.

(** [GenericLazy] and [GenericLockedLazy]: the type parameters [T], [M] and [S]
    of the source become the storage kind, the sequentializer and the policy. *)
Record GenericLazy := {
  gz_seq : GenericLazySeq;
  gz_generator : prog U V;
  gz_data : LazyData U X V;
  gz_man : LazySequentializerTrait ops GenericLazySeq X;
  gz_policy : LazyPolicy;
}.
Implicit Types this : GenericLazy.

Definition gz_new (generator : prog U V) (locker : L) (value : X) (data : LazyData U X V)
    (man : LazySequentializerTrait ops GenericLazySeq X) (policy : LazyPolicy) : GenericLazy :=
  {| gz_seq := {| gl_value := value; gl_sequentializer := seq_new locker |};
     gz_generator := generator; gz_data := data; gz_man := man; gz_policy := policy |}.

Definition gz_phase this : prog U Phase := sq_phase (SequentializerTrait := ls_super (LazySequentializerTrait := gz_man this)) (gz_seq this).

Definition gz_ptr this : X := gl_value (gz_seq this).

(** The closure that every initialisation runs under the lock. *)
Definition gz_init_closure this : X → prog U unit := λ data,
  d ← gz_generator this;
  data_init (gz_data this) data d.

Definition get_unchecked this : prog U X := as_ref (gz_ptr this).

Definition try_get this : prog U (result X AccessError) :=
  p ← gz_phase this;
  map_result as_ref (check_access (gz_policy this) (gz_ptr this) p).

Definition get this : prog U X := r ← try_get this; unwrap r.

(** Through an exclusive reference, without initialisation. *)
Definition get_mut_unchecked this : prog U X := as_ref (gz_ptr this).

Definition try_get_mut this : prog U (result X AccessError) :=
  p ← gz_phase this;
  map_result as_ref (check_access (gz_policy this) (gz_ptr this) p).

Definition get_mut this : prog U X := r ← try_get_mut this; unwrap r.

Definition gz_init this : prog U Phase :=
  ls_init (LazySequentializerTrait := gz_man this) (gz_seq this) (shall_init (gz_policy this))
    (gz_init_closure this).

Definition init_then_get_unchecked this : prog U X := gz_init this;; get_unchecked this.

Definition init_then_try_get this : prog U (result X AccessError) :=
  phase ← gz_init this;
  map_result as_ref (post_init_check_access (gz_policy this) (gz_ptr this) phase).

Definition init_then_get this : prog U X := r ← init_then_try_get this; unwrap r.

(** Through an exclusive reference. *)
Definition only_init_unique `{!MutPhaseLocker U L} this : prog U Phase :=
  init_unique (gz_seq this) (shall_init (gz_policy this))
    (λ data, d ← gz_generator this; data_init_mut (gz_data this) data d).

Definition only_init_then_get_mut_unchecked `{!MutPhaseLocker U L} this : prog U X :=
  only_init_unique this;; as_ref (gz_ptr this).

Definition only_init_then_try_get_mut `{!MutPhaseLocker U L} this : prog U (result X AccessError) :=
  phase ← only_init_unique this;
  map_result as_ref (post_init_check_access (gz_policy this) (gz_ptr this) phase).

Definition only_init_then_get_mut `{!MutPhaseLocker U L} this : prog U X :=
  r ← only_init_then_try_get_mut this; unwrap r.

(** ** GenericLockedLazy *)

Abbreviation man this := (gz_man this).
Abbreviation RGuard := (ReadGuard X).
Abbreviation WGuard := (WriteGuard X).

(** Dereferencing a guard creates a reference to the target. *)
Definition read_guard_deref (g : RGuard) : prog U X := as_ref (rg_target g).
Definition write_guard_deref (g : WGuard) : prog U X := as_ref (wg_target g).

Definition locked_try_get_mut this : prog U (result X AccessError) :=
  p ← gz_phase this;
  map_result as_ref (check_access (gz_policy this) (gz_ptr this) p).

Definition fast_read_lock_unchecked this : prog U (option RGuard) :=
  r ← sq_try_lock (SequentializerTrait := ls_super (LazySequentializerTrait := man this)) (gz_seq this) (λ _, LNRead)
        (ls_INITIALIZED_HINT (LazySequentializerTrait := man this));
  match r with
  | Some (LRRead l) => Ret (Some l)
  | Some _ => Undef
  | None => Ret None
  end.

Definition fast_try_read_lock this : prog U (option (result RGuard AccessError)) :=
  r ← fast_read_lock_unchecked this; map_option (checked_read_access (gz_policy this)) r.

Definition fast_read_lock this : prog U (option RGuard) :=
  r ← fast_try_read_lock this; map_option unwrap r.

Definition read_lock_unchecked this : prog U RGuard :=
  r ← sq_lock (SequentializerTrait := ls_super (LazySequentializerTrait := man this)) (gz_seq this) (λ _, LNRead)
        (ls_INITIALIZED_HINT (LazySequentializerTrait := man this));
  match r with
  | LRRead l => Ret l
  | _ => Undef
  end.

Definition try_read_lock this : prog U (result RGuard AccessError) :=
  l ← read_lock_unchecked this; checked_read_access (gz_policy this) l.

Definition read_lock this : prog U RGuard := r ← try_read_lock this; unwrap r.

Definition fast_write_lock_unchecked this : prog U (option WGuard) :=
  r ← sq_try_lock (SequentializerTrait := ls_super (LazySequentializerTrait := man this)) (gz_seq this) (λ _, LNWrite)
        (ls_INITIALIZED_HINT (LazySequentializerTrait := man this));
  match r with
  | Some (LRWrite l) => Ret (Some l)
  | Some _ => Undef
  | None => Ret None
  end.

Definition fast_try_write_lock this : prog U (option (result WGuard AccessError)) :=
  r ← fast_write_lock_unchecked this; map_option (checked_write_access (gz_policy this)) r.

Definition fast_write_lock this : prog U (option WGuard) :=
  r ← fast_try_write_lock this; map_option unwrap r.

Definition write_lock_unchecked this : prog U WGuard :=
  r ← sq_lock (SequentializerTrait := ls_super (LazySequentializerTrait := man this)) (gz_seq this) (λ _, LNWrite)
        (ls_INITIALIZED_HINT (LazySequentializerTrait := man this));
  match r with
  | LRWrite l => Ret l
  | _ => Undef
  end.

Definition try_write_lock this : prog U (result WGuard AccessError) :=
  l ← write_lock_unchecked this; checked_write_access (gz_policy this) l.

Definition write_lock this : prog U WGuard := r ← try_write_lock this; unwrap r.

Definition init_then_read_lock_unchecked this : prog U RGuard :=
  ls_init_then_read_guard (LazySequentializerTrait := man this) (gz_seq this)
    (shall_init (gz_policy this)) (gz_init_closure this).

Definition init_then_try_read_lock this : prog U (result RGuard AccessError) :=
  l ← init_then_read_lock_unchecked this; post_init_checked_read_access (gz_policy this) l.

Definition init_then_read_lock this : prog U RGuard :=
  r ← init_then_try_read_lock this; unwrap r.

Definition fast_init_then_read_lock_unchecked this : prog U (option RGuard) :=
  ls_try_init_then_read_guard (LazySequentializerTrait := man this) (gz_seq this)
    (shall_init (gz_policy this)) (gz_init_closure this).

Definition fast_init_then_try_read_lock this : prog U (option (result RGuard AccessError)) :=
  r ← fast_init_then_read_lock_unchecked this;
  map_option (post_init_checked_read_access (gz_policy this)) r.

Definition fast_init_then_read_lock this : prog U (option RGuard) :=
  r ← fast_init_then_try_read_lock this; map_option unwrap r.

Definition init_then_write_lock_unchecked this : prog U WGuard :=
  ls_init_then_write_guard (LazySequentializerTrait := man this) (gz_seq this)
    (shall_init (gz_policy this)) (gz_init_closure this).

Definition init_then_try_write_lock this : prog U (result WGuard AccessError) :=
  l ← init_then_write_lock_unchecked this; post_init_checked_write_access (gz_policy this) l.

Definition init_then_write_lock this : prog U WGuard :=
  r ← init_then_try_write_lock this; unwrap r.

Definition fast_init_then_write_lock_unchecked this : prog U (option WGuard) :=
  ls_try_init_then_write_guard (LazySequentializerTrait := man this) (gz_seq this)
    (shall_init (gz_policy this)) (gz_init_closure this).

Definition fast_init_then_try_write_lock this : prog U (option (result WGuard AccessError)) :=
  r ← fast_init_then_write_lock_unchecked this;
  map_option (post_init_checked_write_access (gz_policy this)) r.

Definition fast_init_then_write_lock this : prog U (option WGuard) :=
  r ← fast_init_then_try_write_lock this; map_option unwrap r.

(** The locked lazy checks the access after an exclusive initialisation with
    the policy's ordinary test. *)
Definition locked_only_init_then_try_get_mut `{!MutPhaseLocker U L} this
    : prog U (result X AccessError) :=
  phase ← only_init_unique this;
  map_result as_ref (check_access (gz_policy this) (gz_ptr this) phase).

Definition locked_only_init_then_get_mut `{!MutPhaseLocker U L} this : prog U X :=
  r ← locked_only_init_then_try_get_mut this; unwrap r.
End lazies.
