(* ===== verification/Lazy.v ===== *)
(** * The lazy types (src/lazy.rs)

    The types a user declares: each pairs a generic lazy with a sequentializer,
    a policy, a storage kind and a locker, and gives it methods. The macros of
    the source write one [impl] block per kind of method; here a kind is a
    group of definitions over [GenericLazy], and the invocations of the macros
    are the table [impl_of]. *)

From stdpp Require Import base option numbers.
From S2P Require Import Prelude Word Phase Atomics Locker Sequentializer Policy Traits GenericLazy.
Open Scope Z_scope.

(** ** The hint that the program has initialised its quasi-lazies *)

(** [LAZY_INIT_ENSURED], an atomic flag of the user state. *)
Class GlobalHint (U : Type) := {
  hint_get : U → bool;
  hint_set : U → U;
}.

Section hint.
Context {U : Type} `{!GlobalHint U}.

(** The constructor [mark_inited], run after the quasi-lazies' own. *)
Definition mark_inited : prog U unit := do_op (Usr (λ u, (tt, hint_set u))).

(** [enabled] is the build configuration [all(support_priority,
    not(feature = "test_no_global_lazy_hint"))]. *)
Definition global_inited_hint (enabled : bool) : prog U bool :=
  if enabled then do_op (Usr (λ u, (hint_get u, u))) else Ret false.
End hint.

(** ** The methods *)

Section methods.
Context {BF : Bitflags} {U L : Type} {ops : PhaseLocker U L} {mut_ops : MutPhaseLocker U L}.
Context {X V : Type} {memory : Memory U X V} `{!GlobalHint U}.
Abbreviation Lz := (@GenericLazy U L ops X V).
Abbreviation RGuard := (ReadGuard X).
Abbreviation WGuard := (WriteGuard X).
Implicit Types this : Lz.

(** [@deref], [@deref_static] and [@deref_thread_local] *)
Definition lazy_get this : prog U X := init_then_get this.
Definition lazy_try_get this : prog U (result X AccessError) := try_get this.
Definition lazy_get_mut this : prog U X := only_init_then_get_mut this.
Definition lazy_try_get_mut this : prog U (result X AccessError) := try_get_mut this.
Definition lazy_phase this : prog U Phase := gz_phase this.
Definition lazy_init_method this : prog U Phase := gz_init this.

(** [@deref_global] *)
Definition global_get (enabled : bool) this : prog U X :=
  h ← global_inited_hint enabled;
  if h : bool then get_unchecked this else init_then_get this.

Definition global_try_get (enabled : bool) this : prog U (result X AccessError) :=
  h ← global_inited_hint enabled;
  if h : bool then x ← get_unchecked this; Ret (Ok x) else try_get this.

(** [@lock] and [@lock_thread_local] *)
Definition lock_read this : prog U RGuard := init_then_read_lock this.
Definition lock_fast_read this : prog U (option RGuard) := fast_init_then_read_lock this.
Definition lock_try_read this : prog U (result RGuard AccessError) := try_read_lock this.
Definition lock_fast_try_read this : prog U (option (result RGuard AccessError)) :=
  fast_try_read_lock this.
Definition lock_write this : prog U WGuard := init_then_write_lock this.
Definition lock_fast_write this : prog U (option WGuard) := fast_init_then_write_lock this.
Definition lock_try_write this : prog U (result WGuard AccessError) := try_write_lock this.
Definition lock_fast_try_write this : prog U (option (result WGuard AccessError)) :=
  fast_try_write_lock this.
Definition lock_init this : prog U unit := l ← init_then_write_lock this; wg_drop l.
Definition tl_lock_init this : prog U Phase :=
  l ← init_then_write_lock this;
  let p := wg_phase l in
  wg_drop l;; Ret p.

(** [assert!(initialized_is_accessible(Phased::phase(&l)))]: unwinding drops the
    guard. *)
Definition assert_read this (l : RGuard) : prog U RGuard :=
  p ← rg_phase l;
  if initialized_is_accessible (gz_policy this) p then Ret l else rg_drop l;; Panic.
Definition assert_write this (l : WGuard) : prog U WGuard :=
  if initialized_is_accessible (gz_policy this) (wg_phase l) then Ret l else wg_drop l;; Panic.

Definition hinted_read this (l : RGuard) : prog U (result RGuard AccessError) :=
  p ← rg_phase l;
  if initialized_is_accessible (gz_policy this) p then Ret (Ok l)
  else rg_drop l;; Ret (Err (AccessErrorC p)).
Definition hinted_write this (l : WGuard) : prog U (result WGuard AccessError) :=
  let p := wg_phase l in
  if initialized_is_accessible (gz_policy this) p then Ret (Ok l)
  else wg_drop l;; Ret (Err (AccessErrorC p)).

(** [@lock_global] *)
Section lock_global.
Context (enabled : bool).

Definition global_read this : prog U RGuard :=
  h ← global_inited_hint enabled;
  if h : bool then l ← read_lock_unchecked this; assert_read this l
  else init_then_read_lock this.

Definition global_fast_read this : prog U (option RGuard) :=
  h ← global_inited_hint enabled;
  if h : bool then l ← fast_read_lock_unchecked this; map_option (assert_read this) l
  else fast_init_then_read_lock this.

Definition global_try_read this : prog U (result RGuard AccessError) :=
  h ← global_inited_hint enabled;
  if h : bool then l ← read_lock_unchecked this; hinted_read this l
  else try_read_lock this.

Definition global_fast_try_read this : prog U (option (result RGuard AccessError)) :=
  h ← global_inited_hint enabled;
  if h : bool then l ← fast_read_lock_unchecked this; map_option (hinted_read this) l
  else fast_try_read_lock this.

Definition global_write this : prog U WGuard :=
  h ← global_inited_hint enabled;
  if h : bool then l ← write_lock_unchecked this; assert_write this l
  else init_then_write_lock this.

Definition global_fast_write this : prog U (option WGuard) :=
  h ← global_inited_hint enabled;
  if h : bool then l ← fast_write_lock_unchecked this; map_option (assert_write this) l
  else fast_init_then_write_lock this.

Definition global_try_write this : prog U (result WGuard AccessError) :=
  h ← global_inited_hint enabled;
  if h : bool then l ← write_lock_unchecked this; hinted_write this l
  else try_write_lock this.

Definition global_fast_try_write this : prog U (option (result WGuard AccessError)) :=
  h ← global_inited_hint enabled;
  if h : bool then l ← fast_write_lock_unchecked this; map_option (hinted_write this) l
  else fast_try_write_lock this.

Definition global_init this : prog U Phase := tl_lock_init this.
End lock_global.

(** [@prime_static] and [@prime_thread_local]: the access test decides between
    the initialised value and the primed one, both of which can be read. *)
Definition primed_read_check (accessible : Phase → bool) (l : RGuard) : prog U (result RGuard RGuard) :=
  p ← rg_phase l;
  Ret (if accessible p then Ok l else Err l).

Definition primed_write_check (accessible : Phase → bool) (l : WGuard) : prog U (result WGuard RGuard) :=
  if accessible (wg_phase l) then Ret (Ok l) else l ← wg_into_read l; Ret (Err l).

Definition primed_read_non_initializing this : prog U (result RGuard RGuard) :=
  l ← read_lock_unchecked this; primed_read_check (is_accessible (gz_policy this)) l.
Definition primed_read this : prog U (result RGuard RGuard) :=
  l ← init_then_read_lock_unchecked this; primed_read_check (is_accessible (gz_policy this)) l.
Definition primed_write_non_initializing this : prog U (result WGuard RGuard) :=
  l ← write_lock_unchecked this; primed_write_check (is_accessible (gz_policy this)) l.
Definition primed_write this : prog U (result WGuard RGuard) :=
  l ← init_then_write_lock_unchecked this; primed_write_check (is_accessible (gz_policy this)) l.

(** [@prime_global]: the hint, read once the lock is held, selects the test. *)
Section prime_global.
Context (enabled : bool).

Definition global_accessible this (p : Phase) : prog U bool :=
  h ← global_inited_hint enabled;
  Ret ((if h : bool then initialized_is_accessible (gz_policy this)
        else is_accessible (gz_policy this)) p).

Definition global_primed_read_check this (l : RGuard) : prog U (result RGuard RGuard) :=
  p ← rg_phase l;
  a ← global_accessible this p;
  Ret (if a : bool then Ok l else Err l).

Definition global_primed_write_check this (l : WGuard) : prog U (result WGuard RGuard) :=
  let p := wg_phase l in
  a ← global_accessible this p;
  if a : bool then Ret (Ok l) else l ← wg_into_read l; Ret (Err l).

Definition global_primed_read_non_initializing this : prog U (result RGuard RGuard) :=
  l ← read_lock_unchecked this; global_primed_read_check this l.
Definition global_primed_read this : prog U (result RGuard RGuard) :=
  l ← init_then_read_lock_unchecked this; global_primed_read_check this l.
Definition global_primed_write_non_initializing this : prog U (result WGuard RGuard) :=
  l ← write_lock_unchecked this; global_primed_write_check this l.
Definition global_primed_write this : prog U (result WGuard RGuard) :=
  l ← init_then_write_lock_unchecked this; global_primed_write_check this l.
End prime_global.

(** [Drop] of [Lazy], which need not be a static. *)
Definition lazy_drop (drop_value : V → prog U unit) this : prog U unit :=
  p ← gz_phase this;
  if intersects p INITIALIZED then drop_in_place drop_value (gz_ptr this) else Ret tt.
End methods.

(** ** The types *)

Inductive lazy_type :=
| Lazy | LesserLazy | LazyFinalize | LesserLazyFinalize
| UnSyncLazy | UnSyncLazyFinalize | UnSyncLazyDroped
| LockedLazy | LesserLockedLazy | PrimedLockedLazy | PrimedLesserLockedLazy
| LockedLazyFinalize | LesserLockedLazyFinalize
| LockedLazyDroped | LesserLockedLazyDroped
| PrimedLockedLazyDroped | PrimedLesserLockedLazyDroped
| UnSyncLockedLazy | UnSyncPrimedLockedLazy | UnSyncPrimedLockedLazyDroped
| UnSyncLockedLazyFinalize | UnSyncLockedLazyDroped.
#[export] Instance lazy_type_eq_dec : EqDecision lazy_type.
Proof. solve_decision. Defined.

(** The first word of the macro invocations: which methods the type has. *)
Inductive methods :=
| MDeref | MDerefStatic | MDerefGlobal | MDerefThreadLocal
| MLock | MLockStatic | MLockGlobal | MLockThreadLocal
| MPrimedStatic | MPrimedGlobal | MPrimedThreadLocal.

Inductive manager :=
| SyncSequentializer | ExitSequentializer | UnSyncSequentializer | ThreadExitSequentializer.
#[export] Instance manager_eq_dec : EqDecision manager.
Proof. solve_decision. Defined.

Inductive checker :=
| CInitialized | CSoft | CHard | CSoftLesser | CHardLesser | CSoftTL | CHardTL.

Inductive data_kind := KUnInited | KPrimed | KDropedUnInited.
#[export] Instance data_kind_eq_dec : EqDecision data_kind.
Proof. solve_decision. Defined.

Inductive locker_kind := KSync | KUnSync.
#[export] Instance locker_kind_eq_dec : EqDecision locker_kind.
Proof. solve_decision. Defined.

Record impl := Impl {
  impl_methods : methods;
  impl_manager : manager;
  impl_checker : checker;
  impl_data : data_kind;
  impl_locker : locker_kind;
}.

Definition impl_of (t : lazy_type) : impl :=
  match t with
  | Lazy => Impl MDeref SyncSequentializer CInitialized KUnInited KSync
  | LesserLazy => Impl MDerefGlobal SyncSequentializer CInitialized KUnInited KSync
  | LazyFinalize => Impl MDerefStatic ExitSequentializer CSoft KUnInited KSync
  | LesserLazyFinalize => Impl MDerefGlobal ExitSequentializer CSoftLesser KUnInited KSync
  | UnSyncLazy => Impl MDeref UnSyncSequentializer CInitialized KUnInited KUnSync
  | UnSyncLazyFinalize => Impl MDerefThreadLocal ThreadExitSequentializer CSoftTL KUnInited KUnSync
  | UnSyncLazyDroped => Impl MDerefThreadLocal ThreadExitSequentializer CHardTL KDropedUnInited KUnSync
  | LockedLazy => Impl MLock SyncSequentializer CInitialized KUnInited KSync
  | LesserLockedLazy => Impl MLockGlobal SyncSequentializer CInitialized KUnInited KSync
  | PrimedLockedLazy => Impl MPrimedStatic SyncSequentializer CInitialized KPrimed KSync
  | PrimedLesserLockedLazy => Impl MPrimedGlobal SyncSequentializer CInitialized KPrimed KSync
  | LockedLazyFinalize => Impl MLockStatic ExitSequentializer CSoft KUnInited KSync
  | LesserLockedLazyFinalize => Impl MLockGlobal ExitSequentializer CSoftLesser KUnInited KSync
  | LockedLazyDroped => Impl MLockStatic ExitSequentializer CHard KDropedUnInited KSync
  | LesserLockedLazyDroped => Impl MLockGlobal ExitSequentializer CHardLesser KDropedUnInited KSync
  | PrimedLockedLazyDroped => Impl MPrimedStatic ExitSequentializer CHard KPrimed KSync
  | PrimedLesserLockedLazyDroped => Impl MPrimedGlobal ExitSequentializer CHard KPrimed KSync
  | UnSyncLockedLazy => Impl MLock UnSyncSequentializer CInitialized KUnInited KUnSync
  | UnSyncPrimedLockedLazy => Impl MPrimedThreadLocal UnSyncSequentializer CInitialized KPrimed KUnSync
  | UnSyncPrimedLockedLazyDroped => Impl MPrimedThreadLocal ThreadExitSequentializer CHardTL KPrimed KUnSync
  | UnSyncLockedLazyFinalize => Impl MLockThreadLocal ThreadExitSequentializer CSoftTL KUnInited KUnSync
  | UnSyncLockedLazyDroped => Impl MLockThreadLocal ThreadExitSequentializer CHardTL KDropedUnInited KUnSync
  end.

Definition policy_of {BF : Bitflags} (cxa_thread_at_exit : bool) (k : checker) (Tol : GeneratorTolerance)
    : LazyPolicy :=
  match k with
  | CInitialized => InitializedChecker Tol
  | CSoft => InitializedSoftFinalizedChecker Tol
  | CHard => InitializedHardFinalizedChecker Tol
  | CSoftLesser => InitializedSoftFinalizedCheckerLesser Tol
  | CHardLesser => InitializedHardFinalizedCheckerLesser Tol
  | CSoftTL => InitializedSoftFinalizedTLChecker cxa_thread_at_exit Tol
  | CHardTL => InitializedHardFinalizedTLChecker cxa_thread_at_exit Tol
  end.

Section construction.
Context {BF : Bitflags} {U L : Type} {ops : PhaseLocker U L} {X V : Type} {memory : Memory U X V}.

Definition manager_of (m : manager) (Tol : GeneratorTolerance)
    (finalize_at_exit : @GenericLazySeq L X → prog U bool)
    : LazySequentializerTrait ops (@GenericLazySeq L X) X :=
  match m with
  | SyncSequentializer | UnSyncSequentializer => plain_sequentializer ops _ _
  | ExitSequentializer => exit_sequentializer ops _ _ Tol finalize_at_exit
  | ThreadExitSequentializer => thread_exit_sequentializer ops _ _ Tol finalize_at_exit
  end.

(** What the user's types provide to the storage: the destructor of the value,
    and the methods of [Finaly] and [Uninit]. *)
Definition data_of (k : data_kind) (drop_value : V → prog U unit) (finaly uninit : X → prog U unit)
    : LazyData U X V :=
  match k with
  | KUnInited => UnInited finaly
  | KPrimed => Primed drop_value uninit
  | KDropedUnInited => DropedUnInited drop_value
  end.

Definition from_generator (t : lazy_type) (cxa_thread_at_exit : bool) (Tol : GeneratorTolerance)
    (finalize_at_exit : @GenericLazySeq L X → prog U bool)
    (drop_value : V → prog U unit) (finaly uninit : X → prog U unit)
    (f : prog U V) (locker : L) (value : X) : @GenericLazy U L ops X V :=
  let i := impl_of t in
  gz_new f locker value (data_of (impl_data i) drop_value finaly uninit)
    (manager_of (impl_manager i) Tol finalize_at_exit)
    (policy_of cxa_thread_at_exit (impl_checker i) Tol).
End construction.
