(* ===== verification/LazyTypes.v ===== *)
(** * The traits of the lazy types and the other arms of their macros

    The generators of src/lib.rs, and what src/lazy.rs gives a type beside the
    methods of [Lazy]: the arms of [impl_lazy!] and [impl_mut_lazy!] for statics
    and thread locals, the trait [LazyAccess], [Deref], [DerefMut], [Debug],
    [Default] and the constructors. Dereferencing and formatting are programs,
    since they may initialise the object. *)

From stdpp Require Import base option numbers strings.
From S2P Require Import Prelude Word Phase Atomics Locker UnSync Sequentializer Policy Traits GenericLazy Lazy.
Open Scope Z_scope.

(** ** Generators *)

(** [trait Generator<T>: GeneratorTolerance] *)
Class Generator (U G V : Type) := {
  generator_tolerance : G → GeneratorTolerance;
  generate : G → prog U V;
}.

(** A closure that can be called again. *)
#[export] Instance fn_generator U V : Generator U (prog U V) V := {
  generator_tolerance _ := fn_tolerance;
  generate self := self;
}.

(** [Cell<Option<T>>] for a closure that can be called once; the state tells
    whether the closure is still there. *)
Class TakeCell (U : Type) := {
  cell_full : U → bool;
  cell_take : U → U;
}.
Record once_cell (A : Type) := OnceCell { closure : A }.
Arguments OnceCell {A} closure.
Arguments closure {A} o.

#[export] Instance fn_once_generator U V `{!TakeCell U} : Generator U (once_cell (prog U V)) V := {
  generator_tolerance _ := fn_once_tolerance;
  generate self :=
    there ← do_op (Usr (λ u, (cell_full u, cell_take u)));
    if there : bool then closure self else Panic;
}.

(** ** [LazyAccess] *)

(** [trait LazyAccess], implemented by the references to a lazy. *)
Class LazyAccess (U This Target : Type) := {
  access_get : This → prog U Target;
  access_try_get : This → prog U (result Target AccessError);
  access_phase : This → prog U Phase;
  access_init : This → prog U Phase;
}.

(** Threads that use a lazy through the trait, as a script says. A call that
    panics is caught, and the thread goes on; a reference that is got is read. *)
Inductive lazy_cmd := LGet | LTryGet | LPhase | LInit.

Section clients.
Context {U This Target : Type} {A : LazyAccess U This Target}.
Context (read : Target → prog U unit) (this : This).

Definition access_cmd (c : lazy_cmd) : prog U unit :=
  match c with
  | LGet =>
      r ← catch (access_get this);
      match r with Some x => read x | None => Ret tt end
  | LTryGet =>
      r ← access_try_get this;
      match r with Ok x => read x | Err _ => Ret tt end
  | LPhase => _ ← access_phase this; Ret tt
  | LInit => _ ← catch (access_init this); Ret tt
  end.

Fixpoint access_client (script : list lazy_cmd) : prog U unit :=
  match script with
  | [] => Ret tt
  | c :: script => access_cmd c;; access_client script
  end.

(** What a client asks of the implementation: a reference that it is given may be
    read, and [try_get] and [phase] do not panic. *)
Context {G : Type} {P : PCM G} (inv : state U → G → Prop) (own : G).

Record access_ok : Prop := {
  access_get_ok : ok inv (access_get this) pcm_unit (λ _ h, h = own) (λ _, True);
  access_try_get_ok :
    ok inv (access_try_get this) pcm_unit
      (λ r h, match r with Ok _ => h = own | Err _ => True end) (λ _, False);
  access_phase_ok : ok inv (access_phase this) pcm_unit (λ _ _, True) (λ _, False);
  access_init_ok : ok inv (access_init this) pcm_unit (λ _ _, True) (λ _, True);
  access_read_ok x : ok inv (read x) own (λ _ _, True) (λ _, False);
}.

#[local] Arguments ok : simpl never.
Abbreviation safe p := (ok inv p pcm_unit (λ _ _, True) (λ _, False)).

Lemma access_cmd_ok c : access_ok → safe (access_cmd c).
Proof using.
  intros [Hg Ht Hp Hi Hr]. destruct c; cbn [access_cmd]; apply ok_bind.
  - apply ok_catch. eapply ok_mono; [exact Hg|cbv beta|intros h _; exact I].
    intros x h ->. apply Hr.
  - eapply ok_mono; [exact Ht|cbv beta|done].
    intros [x|e] h Hh; [subst h; apply Hr|exact I].
  - eapply ok_mono; [exact Hp|intros p h _; exact I|done].
  - apply ok_catch. eapply ok_mono; [exact Hi|intros q h _; exact I|intros h _; exact I].
Qed.

Lemma access_client_ok script : access_ok → safe (access_client script).
Proof using.
  intros HA. induction script as [|c script IH]; cbn [access_client]; [exact I|].
  apply ok_bind. eapply ok_mono; [by apply access_cmd_ok|cbv beta|done].
  intros [] h _. rewrite <- (left_id_L pcm_unit pcm_op h). apply ok_frame. exact IH.
Qed.
End clients.

Section methods.
Context {BF : Bitflags} {U L : Type} {ops : PhaseLocker U L} {mut_ops : MutPhaseLocker U L}.
Context {X V : Type} {memory : Memory U X V} `{!GlobalHint U}.
Abbreviation Lz := (@GenericLazy U L ops X V).
Abbreviation RGuard := (ReadGuard X).
Abbreviation WGuard := (WriteGuard X).
Implicit Types this : Lz.

(** The reference to a thread local, with the lifetime of a static. *)
Definition as_static this : Lz := this.

(** [@deref_static] *)
Definition static_get this : prog U X := init_then_get this.
Definition static_try_get this : prog U (result X AccessError) := try_get this.
Definition static_phase this : prog U Phase := gz_phase this.
Definition static_init this : prog U Phase := gz_init this.

(** [@deref_global] *)
Definition global_lazy_phase this : prog U Phase := gz_phase this.
Definition global_lazy_init this : prog U Phase := gz_init this.

(** [@deref_thread_local] *)
Definition tl_get this : prog U X := init_then_get (as_static this).
Definition tl_try_get this : prog U (result X AccessError) := try_get (as_static this).
Definition tl_phase this : prog U Phase := gz_phase (as_static this).
Definition tl_init this : prog U Phase := gz_init (as_static this).

Definition deref_access : LazyAccess U Lz X := {|
  access_get := lazy_get;
  access_try_get := lazy_try_get;
  access_phase := lazy_phase;
  access_init := lazy_init_method;
|}.
Definition static_access : LazyAccess U Lz X := {|
  access_get := static_get;
  access_try_get := static_try_get;
  access_phase := static_phase;
  access_init := static_init;
|}.
Definition global_access (enabled : bool) : LazyAccess U Lz X := {|
  access_get := global_get enabled;
  access_try_get := global_try_get enabled;
  access_phase := global_lazy_phase;
  access_init := global_lazy_init;
|}.
Definition thread_local_access : LazyAccess U Lz X := {|
  access_get := tl_get;
  access_try_get := tl_try_get;
  access_phase := tl_phase;
  access_init := tl_init;
|}.

(** The implementation that a type gets from its macro; the locked types have
    none. *)
Definition lazy_access (enabled : bool) (t : lazy_type) : option (LazyAccess U Lz X) :=
  match impl_methods (impl_of t) with
  | MDeref => Some deref_access
  | MDerefStatic => Some static_access
  | MDerefGlobal => Some (global_access enabled)
  | MDerefThreadLocal => Some thread_local_access
  | _ => None
  end.

(** ** [Deref], [DerefMut] and [Debug] *)

Definition lazy_deref this : prog U X := lazy_get this.
Definition lazy_deref_mut this : prog U X := lazy_get_mut this.
Definition static_deref this : prog U X := static_get (as_static this).
Definition global_deref (enabled : bool) this : prog U X := global_get enabled (as_static this).
Definition tl_deref this : prog U X := tl_get this.

(** Reading through a reference. *)
Definition read_value (x : X) : prog U V :=
  v ← do_op (Usr (λ u, (mem_get x u, u)));
  match v with
  | Some v => Ret v
  | None => Undef
  end.

Section debug.
Context (fmt_value : V → string).

(** [non_static_debug!] *)
Definition lazy_fmt this : prog U string :=
  p ← lazy_phase this;
  if is_empty (p .& INITIALIZED) then Ret "UnInitialized"%string
  else
    x ← lazy_deref this;
    v ← read_value x;
    Ret (fmt_value v).

(** [non_static_mut_debug!]: the guard lives until the end of the statement. *)
Definition locked_fmt this : prog U string :=
  p ← lazy_phase this;
  if is_empty (p .& INITIALIZED) then Ret "UnInitialized"%string
  else
    l ← lock_read this;
    x ← read_guard_deref l;
    v ← read_value x;
    rg_drop l;;
    Ret (fmt_value v).
End debug.

(** ** The locks of thread locals: [@lock_thread_local] *)

Definition tl_read this : prog U RGuard := init_then_read_lock (as_static this).
Definition tl_fast_read this : prog U (option RGuard) := fast_init_then_read_lock (as_static this).
Definition tl_try_read this : prog U (result RGuard AccessError) := try_read_lock (as_static this).
Definition tl_fast_try_read this : prog U (option (result RGuard AccessError)) :=
  fast_try_read_lock (as_static this).
Definition tl_write this : prog U WGuard := init_then_write_lock (as_static this).
Definition tl_fast_write this : prog U (option WGuard) := fast_init_then_write_lock (as_static this).
Definition tl_try_write this : prog U (result WGuard AccessError) := try_write_lock (as_static this).
Definition tl_fast_try_write this : prog U (option (result WGuard AccessError)) :=
  fast_try_write_lock (as_static this).

(** [@prime_thread_local] *)
Definition tl_primed_read_non_initializing this : prog U (result RGuard RGuard) :=
  l ← read_lock_unchecked (as_static this);
  p ← rg_phase l;
  Ret (if is_accessible (gz_policy this) p then Ok l else Err l).
Definition tl_primed_read this : prog U (result RGuard RGuard) :=
  l ← init_then_read_lock_unchecked (as_static this);
  p ← rg_phase l;
  Ret (if is_accessible (gz_policy this) p then Ok l else Err l).
Definition tl_primed_write_non_initializing this : prog U (result WGuard RGuard) :=
  l ← write_lock_unchecked (as_static this);
  if is_accessible (gz_policy this) (wg_phase l) then Ret (Ok l)
  else l ← wg_into_read l; Ret (Err l).
Definition tl_primed_write this : prog U (result WGuard RGuard) :=
  l ← init_then_write_lock_unchecked (as_static this);
  if is_accessible (gz_policy this) (wg_phase l) then Ret (Ok l)
  else l ← wg_into_read l; Ret (Err l).

(** ** Through an exclusive reference to a locked lazy: [extend_locked_lazy!] and
    [extend_unsync_locked_lazy!] *)

Definition locked_get_mut this : prog U X := locked_only_init_then_get_mut this.
Definition locked_lazy_try_get_mut this : prog U (result X AccessError) := locked_try_get_mut this.
Definition unsync_locked_get_mut this : prog U X := locked_only_init_then_get_mut this.
Definition unsync_locked_try_get_mut this : prog U (result X AccessError) := locked_try_get_mut this.

(** [Drop] of [UnSyncLazy], [LockedLazy] and [UnSyncLockedLazy], as of [Lazy]. *)
Definition unsync_lazy_drop (drop_value : V → prog U unit) this : prog U unit :=
  p ← gz_phase this;
  if intersects p INITIALIZED then drop_in_place drop_value (gz_ptr this) else Ret tt.
Definition locked_lazy_drop (drop_value : V → prog U unit) this : prog U unit :=
  p ← gz_phase this;
  if intersects p INITIALIZED then drop_in_place drop_value (gz_ptr this) else Ret tt.
Definition unsync_locked_lazy_drop (drop_value : V → prog U unit) this : prog U unit :=
  p ← gz_phase this;
  if intersects p INITIALIZED then drop_in_place drop_value (gz_ptr this) else Ret tt.

(** ** The guards of locked lazies, [impl_mut_lazy!] [@proc] *)

Definition read_guard_clone (l : RGuard) : prog U RGuard := rg_clone l.
Definition read_guard_from (that : WGuard) : prog U RGuard := wg_into_read that.
Definition read_guard_phase (this : RGuard) : prog U Phase := rg_phase this.
Definition write_guard_phase (this : WGuard) : Phase := wg_phase this.
Definition locked_phase this : prog U Phase := gz_phase this.
End methods.

(** ** Constructors *)

Section construction.
Context {BF : Bitflags} {U L : Type} {ops : PhaseLocker U L} {X V : Type} {memory : Memory U X V}.
Context (t : lazy_type) (cxa_thread_at_exit : bool) (finalize_at_exit : @GenericLazySeq L X → prog U bool).
Context (drop_value : V → prog U unit) (finaly uninit : X → prog U unit) (locker : L) (value : X).

(** Any generator makes a lazy, with its own tolerance. *)
Definition with_generator `{!Generator U G V} (f : G) : @GenericLazy U L ops X V :=
  from_generator t cxa_thread_at_exit (generator_tolerance f) finalize_at_exit drop_value
    finaly uninit (generate f) locker value.

(** [non_static_impls!] *)
Definition lazy_new `{!TakeCell U} (g : prog U V) : @GenericLazy U L ops X V :=
  with_generator (OnceCell g).
Definition lazy_default (default : prog U V) : @GenericLazy U L ops X V := with_generator default.
End construction.

(** ** What formatting does *)

Section formatting.
Context {BF : Bitflags} {U X V : Type} {memory : Memory U X V} (Tol : GeneratorTolerance).
Context (fmt_value : V → string) (l : UnSyncPhaseLocker) (x : X).
Context (drop_value : V → prog U unit) (finaly uninit : X → prog U unit) (g : prog U V).

Definition unsync_lazy (t : lazy_type) : @GenericLazy U UnSyncPhaseLocker _ X V :=
  from_generator t true Tol (λ _, Ret true) drop_value finaly uninit g l x.

(** [Debug] of [UnSyncLazy] and [UnSyncLockedLazy]. *)
Definition unsync_fmt (t : lazy_type) : prog U string :=
  match impl_methods (impl_of t) with
  | MLock => locked_fmt fmt_value (unsync_lazy t)
  | _ => lazy_fmt fmt_value (unsync_lazy t)
  end.

Lemma initialized_test p : is_empty (p .& INITIALIZED) = negb (intersects p INITIALIZED).
Proof using. by rewrite is_empty_eq, intersects_eq, flags_and_eq, negb_involutive. Qed.

Lemma initialized_settled p :
  intersects p INITIALIZED = true → shall_init (InitializedChecker Tol) p = false.
Proof using.
  intros Hp. destruct (shall_init _ p) eqn:Hs; [|done].
  apply shall_init_not_initialized in Hs. by rewrite Hp in Hs.
Qed.

Lemma initialized_accessible p :
  intersects p INITIALIZED = true → post_init_is_accessible (InitializedChecker Tol) p = true.
Proof using. intros Hp. simpl. by destruct (INIT_FAILURE Tol). Qed.

(** The cell is back to what it was. *)
Ltac unwritten :=
  intros l'; destruct (decide (l = l')) as [<-|];
  repeat first [rewrite rd_upd | rewrite rd_wr | rewrite rd_wr_ne by done]; congruence.

(** It neither initialises the object nor leaves anything behind. *)
Theorem unsync_fmt_reads t p n (s : state U) :
  t = UnSyncLazy ∨ t = UnSyncLockedLazy →
  phase_range p → 0 <= n < UnSync.max_readers → rd s l = word p n false false false →
  (intersects p INITIALIZED = true → is_Some (mem_get x (usr s))) →
  let '(r, s') := run (unsync_fmt t) [] s in
  r = Returned (if intersects p INITIALIZED
                then default ""%string (fmt_value <$> mem_get x (usr s)) else "UnInitialized"%string) ∧
  usr s' = usr s ∧ ∀ l', rd s' l' = rd s l'.
Proof using.
  intros Ht Hp Hn Hrd Hc.
  assert (from_bits_truncate (word p n false false false) = p) as Htr by (apply cell_phase; done || lia).
  destruct Ht as [-> | ->]; unfold unsync_fmt; simpl; rewrite Hrd, Htr, initialized_test;
    destruct (intersects p INITIALIZED) eqn:Hi; simpl; try by split_and!; [done..|unwritten].
  all: destruct (Hc eq_refl) as [v Hv];
    pose proof (initialized_settled _ Hi) as Hs; pose proof (initialized_accessible _ Hi) as Ha;
    simpl in Hs, Ha.
  all: rewrite rd_wr, lock_cell_word by (done || lia); unfold write_or; rewrite Hs; simpl.
  - change (gz_ptr (unsync_lazy UnSyncLazy)) with x.
    unfold post_init_check_access. simpl. rewrite Ha. simpl. repeat (rewrite Hv; simpl).
    split_and!; [by rewrite ?Hv|done|unwritten].
  - destruct (Z.eqb_spec n UnSync.max_readers) as [|_]; [lia|]. simpl.
    rewrite rd_wr, cell_phase by (unfold UnSync.max_readers in *; done || lia).
    unfold post_init_check_access. simpl. rewrite Ha. simpl. repeat (rewrite Hv; simpl). rewrite ?rd_upd, rd_wr, word_sub_unity, Z.add_simpl_r.
    rewrite wrap_word by (done || apply unsync_count_max; lia).
    split_and!; [by rewrite ?Hv|done|unwritten].
Qed.
End formatting.
