(* ===== verification/OwnedLazies.v ===== *)
(** * Lazies that need not be statics

    [Lazy], [UnSyncLazy], [LockedLazy] and [UnSyncLockedLazy] may be local
    variables: their owner reaches the value through an exclusive reference,
    without a lock, and it is dropped with the lazy. Here an owner runs a script of
    accesses and then drops the lazy. The accesses answer as a reference says, and
    every value that was ever put into the lazy is dropped exactly once. *)

From stdpp Require Import base list option numbers gmap.
From S2P Require Import Prelude Word Phase Atomics Locker UnSync SpinLocker Futex FutexLocker Sequentializer Policy Traits GenericLazy Lazy LazyTypes.
Open Scope Z_scope.

(** ** Lockers that nobody else holds

    What an owner relies on: a word that holds the phase and nothing else is read
    and written as such. *)
Class ExclusiveLocker {U L : Type} {BF : Bitflags} (ops : PhaseLocker U L) (mut_ops : MutPhaseLocker U L) := {
  cell_of : L → loc;
  run_phase l p (s : state U) :
    phase_range p → rd s (cell_of l) = p →
    ∃ s', run (pl_phase l) [] s = (Returned p, s') ∧ usr s' = usr s ∧ rd s' (cell_of l) = p;
  run_get_phase_unique l p (s : state U) :
    phase_range p → rd s (cell_of l) = p →
    ∃ s', run (get_phase_unique l) [] s = (Returned p, s') ∧ usr s' = usr s ∧ rd s' (cell_of l) = p;
  run_transition_unique l p q {R} (f : prog U R) (s : state U) (r : outcome R) u :
    phase_range p → phase_range q →
    (∀ s', usr s' = usr s → run f [] s' = (r, upd s' u)) →
    ∃ s', run (transition_unique l f p q) [] s = (r, s') ∧ usr s' = u ∧
      match r with
      | Returned _ => rd s' (cell_of l) = p
      | Panicked => rd s' (cell_of l) = q
      | _ => True
      end;
}.

Section lockers.
Context {BF : Bitflags} {U : Type}.

Lemma phase_from_bits p : phase_range p → from_bits p = Some p.
Proof using. intros Hp. by rewrite from_bits_eq, phase_ldiff_all. Qed.

(** A word that is read by [get_mut] or an atomic load. *)
Lemma run_local_phase l p (s : state U) (f : Z → Z * Z) :
  rd s l = p → f p = (p, p) →
  ∃ s', run (do_op (Local l f)) [] s = (Returned p, s') ∧ usr s' = usr s ∧ rd s' l = p.
Proof using.
  intros Hrd Hf. exists (wr s l p). simpl. rewrite Hrd, Hf. split_and!; [done..|apply rd_wr].
Qed.

Lemma run_get_unique l p (s : state U) :
  phase_range p → rd s l = p →
  ∃ s', run (v ← do_op (Local l (λ v, (v, v)));
             match from_bits v with Some p => Ret p | None => Panic end) [] s = (Returned p, s') ∧
    usr s' = usr s ∧ rd s' l = p.
Proof using.
  intros Hp Hrd. exists (wr s l p). simpl. rewrite Hrd, phase_from_bits by done.
  split_and!; [done..|apply rd_wr].
Qed.

Lemma run_load_phase l p (s : state U) :
  phase_range p → rd s l = p →
  ∃ s', run (v ← do_op (Load l); Ret (from_bits_truncate v)) [] s = (Returned p, s') ∧
    usr s' = usr s ∧ rd s' l = p.
Proof using. intros Hp Hrd. exists s. simpl. by rewrite Hrd, truncate_phase. Qed.

(** [transition] of the lockers of threads, whose guard stores on unwinding. *)
Lemma run_guarded_transition l p q {R} (f : prog U R) (s : state U) (r : outcome R) u :
  (∀ s', usr s' = usr s → run f [] s' = (r, upd s' u)) →
  ∃ s', run (r ← catch f;
             match r with
             | Some r => do_op (Local l (λ _, (tt, p)));; Ret r
             | None => do_op (Local l (λ _, (tt, q)));; Panic
             end) [] s = (r, s') ∧ usr s' = u ∧
    match r with Returned _ => rd s' l = p | Panicked => rd s' l = q | _ => True end.
Proof using.
  intros Hf. rewrite run_bind, run_catch, Hf by done. destruct r; simpl; eexists; split_and!; done || apply rd_wr.
Qed.

#[export, refine] Instance unsync_exclusive : ExclusiveLocker (U:=U) unsync_locker unsync_mut_locker :=
  {| cell_of l := l |}.
Proof.
  - intros l p s Hp Hrd. apply run_local_phase; [done|]. by rewrite truncate_phase.
  - intros l p s. apply run_get_unique.
  - intros l p q R f s r u Hp Hq Hf. simpl. unfold UnSync.mut_transition.
    rewrite run_bind. simpl. rewrite Hf by done.
    destruct r; simpl; eexists; split_and!; done || apply rd_wr.
Defined.

#[export, refine] Instance spin_exclusive fuel :
    ExclusiveLocker (U:=U) (spin_locker fuel) spin_mut_locker := {| cell_of l := l |}.
Proof.
  - intros l p s. apply run_load_phase.
  - intros l p s. apply run_get_unique.
  - intros l p q R f s r u _ _. apply run_guarded_transition.
Defined.

#[export, refine] Instance futex_exclusive {KN : Kernel} aborts linux fuel :
    ExclusiveLocker (U:=U) (futex_locker aborts linux fuel) futex_mut_locker :=
  {| cell_of l := fx_futex l |}.
Proof.
  - intros l p s. apply run_load_phase.
  - intros l p s. apply run_get_unique.
  - intros l p q R f s r u _ _. apply run_guarded_transition.
Defined.
End lockers.

(** ** The owner

    The storage, the runs of the generator, and every value that was made to be
    stored in the lazy and that was dropped, the last one first. *)
Record owned_state (V : Type) := OwnedState {
  o_runs : nat;
  o_content : option V;
  o_created : list V;
  o_dropped : list V;
}.
Arguments OwnedState {V} o_runs o_content o_created o_dropped.
Arguments o_runs {V} o.
Arguments o_content {V} o.
Arguments o_created {V} o.
Arguments o_dropped {V} o.

Definition owned_fresh {V} : owned_state V := OwnedState 0 None [] [].

#[export] Instance owned_memory V : Memory (owned_state V) unit V := {
  mem_get _ u := o_content u;
  mem_set _ v u := OwnedState (o_runs u) v (o_created u) (o_dropped u);
}.

Definition create {V} (v : V) (u : owned_state V) : owned_state V :=
  OwnedState (o_runs u) (o_content u) (v :: o_created u) (o_dropped u).
Definition dispose {V} (v : V) (u : owned_state V) : owned_state V :=
  OwnedState (o_runs u) (o_content u) (o_created u) (v :: o_dropped u).

(** A generator whose [n]-th run returns [f n], or panics. *)
Definition owned_generator {V} (f : nat → option V) : prog (owned_state V) V :=
  n ← do_op (Usr (λ u, (o_runs u, OwnedState (S (o_runs u)) (o_content u) (o_created u) (o_dropped u))));
  match f n with
  | Some v => do_op (Usr (λ u, (tt, create v u)));; Ret v
  | None => Panic
  end.

Definition drop_value {V} (v : V) : prog (owned_state V) unit := do_op (Usr (λ u, (tt, dispose v u))).

Inductive owned_call (V : Type) := OGet | OTryGet | OSet (v : V) | OTrySet (v : V) | OPhase.
Arguments OGet {V}. Arguments OTryGet {V}. Arguments OSet {V} v. Arguments OTrySet {V} v. Arguments OPhase {V}.

Inductive owned_answer (V : Type) := OValue (v : V) | ODone | ORefused | OPanicked | OPhaseIs (p : Phase).
Arguments OValue {V} v. Arguments ODone {V}. Arguments ORefused {V}. Arguments OPanicked {V}. Arguments OPhaseIs {V} p.

Section owner.
Context {BF : Bitflags} {V L : Type} {ops : PhaseLocker (owned_state V) L}.
Context {mut_ops : MutPhaseLocker (owned_state V) L}.
Context (t : lazy_type) (Tol : GeneratorTolerance) (f : nat → option V) (l : L).
Abbreviation program := (prog (owned_state V)).

Definition owned_lazy : @GenericLazy (owned_state V) L ops unit V :=
  from_generator t true Tol (λ _, Ret true) drop_value (λ _, Ret tt) (λ _, Ret tt) (owned_generator f) l tt.

(** The methods of the type that take an exclusive reference, and its [Drop]. *)
Definition owned_get_mut : program unit :=
  match t with
  | LockedLazy => locked_get_mut owned_lazy
  | UnSyncLockedLazy => unsync_locked_get_mut owned_lazy
  | _ => lazy_get_mut owned_lazy
  end.
Definition owned_try_get_mut : program (result unit AccessError) :=
  match t with
  | LockedLazy => locked_lazy_try_get_mut owned_lazy
  | UnSyncLockedLazy => unsync_locked_try_get_mut owned_lazy
  | _ => lazy_try_get_mut owned_lazy
  end.
Definition owned_drop : program unit :=
  match t with
  | UnSyncLazy => unsync_lazy_drop drop_value owned_lazy
  | LockedLazy => locked_lazy_drop drop_value owned_lazy
  | UnSyncLockedLazy => unsync_locked_lazy_drop drop_value owned_lazy
  | _ => lazy_drop drop_value owned_lazy
  end.

(** [*x = v] for a value that the owner has made. *)
Definition set_value (v : V) (x : unit) : program unit :=
  do_op (Usr (λ u, (tt, create v u)));; assign_data drop_value x v.

Definition run_owned (c : owned_call V) : program (owned_answer V) :=
  match c with
  | OGet =>
      r ← catch owned_get_mut;
      match r with Some x => v ← read_value x; Ret (OValue v) | None => Ret OPanicked end
  | OTryGet =>
      r ← owned_try_get_mut;
      match r with Ok x => v ← read_value x; Ret (OValue v) | Err _ => Ret ORefused end
  | OSet v =>
      r ← catch owned_get_mut;
      match r with Some x => set_value v x;; Ret ODone | None => Ret OPanicked end
  | OTrySet v =>
      r ← owned_try_get_mut;
      match r with Ok x => set_value v x;; Ret ODone | Err _ => Ret ORefused end
  | OPhase => p ← gz_phase owned_lazy; Ret (OPhaseIs p)
  end.

Fixpoint owned_script (script : list (owned_call V)) : program (list (owned_answer V)) :=
  match script with
  | [] => Ret []
  | c :: script => a ← run_owned c; r ← owned_script script; Ret (a :: r)
  end.

(** The life of the lazy: its owner uses it and leaves its scope. *)
Definition owned_life (script : list (owned_call V)) : program (list (owned_answer V)) :=
  r ← owned_script script; owned_drop;; Ret r.
End owner.

(** ** The reference *)

Inductive owned_stage (V : Type) := ONew | OFailed | OHas (v : V).
Arguments ONew {V}. Arguments OFailed {V}. Arguments OHas {V} v.

Section reference.
Context {BF : Bitflags} {V : Type} (Tol : GeneratorTolerance) (f : nat → option V).
Implicit Types (n : nat) (g : owned_stage V).

Definition owned_phase g : Phase :=
  match g with
  | ONew => empty_flags
  | OFailed => empty_flags .| INITIALIZATION_PANICKED .| INITIALIZATION_SKIPED
  | OHas _ => empty_flags .| INITIALIZED
  end.

(** An access that may initialise: one more run of the generator, unless there is
    a value or an [FnOnce] has failed. *)
Definition owned_access n g : nat * owned_stage V :=
  match g with
  | OHas v => (n, g)
  | OFailed => if INIT_FAILURE Tol then (S n, from_option OHas OFailed (f n)) else (n, g)
  | ONew => (S n, from_option OHas OFailed (f n))
  end.

Definition owned_step (c : owned_call V) n g : owned_answer V * (nat * owned_stage V) :=
  match c with
  | OGet =>
      let '(n, g) := owned_access n g in
      (match g with OHas v => OValue v | _ => OPanicked end, (n, g))
  | OTryGet => (match g with OHas v => OValue v | _ => ORefused end, (n, g))
  | OSet w =>
      let '(n, g) := owned_access n g in
      match g with OHas _ => (ODone, (n, OHas w)) | _ => (OPanicked, (n, g)) end
  | OTrySet w =>
      match g with OHas _ => (ODone, (n, OHas w)) | _ => (ORefused, (n, g)) end
  | OPhase => (OPhaseIs (owned_phase g), (n, g))
  end.

Fixpoint owned_answers (script : list (owned_call V)) n g : list (owned_answer V) :=
  match script with
  | [] => []
  | c :: script => let '(a, (n, g)) := owned_step c n g in a :: owned_answers script n g
  end.
End reference.

(** ** The owner follows the reference *)

Definition owned_type (t : lazy_type) : Prop :=
  t = Lazy ∨ t = UnSyncLazy ∨ t = LockedLazy ∨ t = UnSyncLockedLazy.

Section follows.
Context {BF : Bitflags} {V L : Type} {ops : PhaseLocker (owned_state V) L}.
Context {mut_ops : MutPhaseLocker (owned_state V) L} {EL : ExclusiveLocker ops mut_ops}.
Context (t : lazy_type) (Tol : GeneratorTolerance) (f : nat → option V) (l : L).
Context (Ht : owned_type t).
Implicit Types (n : nat) (g : owned_stage V) (s : state (owned_state V)).
Abbreviation this := (owned_lazy t Tol f l).

Definition stored g : option V := match g with OHas v => Some v | _ => None end.

(** What was created is what is there and what has been dropped. *)
Definition owned_user n g (u : owned_state V) : Prop :=
  o_runs u = n ∧ o_content u = stored g ∧ o_created u = option_list (stored g) ++ o_dropped u.
Definition follows n g s : Prop := rd s (cell_of l) = owned_phase g ∧ owned_user n g (usr s).

Lemma owned_phase_range g : phase_range (owned_phase g).
Proof using. destruct g; simpl; auto with phase. Qed.

Lemma owned_initialized g : intersects (owned_phase g) INITIALIZED = bool_decide (is_Some (stored g)).
Proof using.
  destruct g; simpl; rewrite ?intersects_or, ?intersects_empty, ?(intersects_eq _ INITIALIZED); reflexivity.
Qed.

Lemma owned_empty g : is_empty (owned_phase g) = match g with ONew => true | _ => false end.
Proof using.
  rewrite is_empty_eq. destruct g; simpl; rewrite ?flags_or_eq, empty_flags_eq; reflexivity.
Qed.

Lemma owned_policy : gz_policy this = InitializedChecker Tol.
Proof using Ht. by destruct Ht as [->|[->|[->| ->]]]. Qed.

Lemma owned_shall_init g :
  shall_init (gz_policy this) (owned_phase g) =
    match g with ONew => true | OFailed => INIT_FAILURE Tol | OHas _ => false end.
Proof using Ht.
  rewrite owned_policy. simpl. rewrite owned_initialized, owned_empty.
  destruct (INIT_FAILURE Tol) eqn:E, g; reflexivity.
Qed.

Lemma owned_accessible g : is_accessible (gz_policy this) (owned_phase g) = bool_decide (is_Some (stored g)).
Proof using Ht. rewrite owned_policy. apply owned_initialized. Qed.

(** The closure of an exclusive initialisation, whatever the memory. *)
Lemma owned_closure n g s :
  stored g = None → owned_user n g (usr s) →
  ∃ u, (∀ s', usr s' = usr s →
    run (d ← gz_generator this; data_init_mut (gz_data this) tt d) [] s' =
      (from_option (λ _, Returned tt) Panicked (f n), upd s' u)) ∧
  owned_user (S n) (from_option OHas OFailed (f n)) u.
Proof using Ht.
  intros Hg (Hn & Hc & Hl). rewrite Hg in Hc, Hl.
  assert (gz_generator this = owned_generator f) as -> by done.
  assert (data_init_mut (gz_data this) = write_data) as -> by (by destruct Ht as [->|[->|[->| ->]]]).
  destruct (f n) as [v|] eqn:Hf; simpl; eexists; split;
    try (intros s' Hu; rewrite Hu, Hn, Hf; simpl; reflexivity).
  - by unfold owned_user; simpl; rewrite ?Hl, ?Hn, ?Hc.
  - by unfold owned_user; simpl; rewrite ?Hl, ?Hn, ?Hc.
Qed.

Lemma run_get_phase n g s :
  follows n g s →
  ∃ s', run (get_phase_unique l) [] s = (Returned (owned_phase g), s') ∧ follows n g s'.
Proof using EL.
  intros [Hrd Hu]. destruct (run_get_phase_unique l (owned_phase g) s) as (s' & Hrun & Hu' & Hrd');
    [apply owned_phase_range|done|].
  exists s'. split; [done|]. by split; [|rewrite Hu'].
Qed.

Abbreviation initialize :=
  (mut_lazy_initialization_only l (d ← gz_generator this; data_init_mut (gz_data this) tt d)).

Lemma run_initialize n g s :
  stored g = None → follows n g s →
  ∃ s', run initialize [] s = (from_option (λ _, Returned tt) Panicked (f n), s') ∧
    follows (S n) (from_option OHas OFailed (f n)) s'.
Proof using Ht EL.
  intros Hg [Hrd Hu]. destruct (owned_closure n g s Hg Hu) as (u & Hcl & Hu').
  destruct (run_transition_unique l (empty_flags .| INITIALIZED) _ _ s _ u
              ltac:(auto with phase) (owned_phase_range OFailed) Hcl) as (s' & Hrun & Hus & Hm).
  exists s'. split; [exact Hrun|]. split; [|by rewrite Hus]. by destruct (f n).
Qed.

(** An access through the exclusive reference. *)
Lemma run_only_init n g s :
  follows n g s →
  let '(n', g') := owned_access Tol f n g in
  ∃ s', run (only_init_unique this) [] s =
    (if decide (n' = n) then Returned (owned_phase g')
     else from_option (λ v, Returned (owned_phase (OHas v))) Panicked (stored g'), s') ∧ follows n' g' s'.
Proof using Ht EL.
  intros Hfo. unfold only_init_unique, init_unique. rewrite run_bind.
  destruct (run_get_phase _ _ _ Hfo) as (s1 & Hrun & Hf1).
  change (seq_locker (sequentializer (gz_seq this))) with l. rewrite Hrun. clear Hrun s Hfo.
  rewrite owned_shall_init, run_bind.
  assert (stored g = None → ∃ s',
    match run initialize [] s1 with
    | (Returned _, s') => run (get_phase_unique l) [] s'
    | (Panicked, s') => (Panicked, s')
    | (Undefined, s') => (Undefined, s')
    | (OutOfFuel, s') => (OutOfFuel, s')
    | (Stopped, s') => (Stopped, s')
    end = (from_option (λ v, Returned (owned_phase (OHas v))) Panicked (f n), s') ∧
    follows (S n) (from_option OHas OFailed (f n)) s') as Htry.
  { intros Hg. destruct (run_initialize n g s1 Hg Hf1) as (s2 & -> & Hf2).
    destruct (f n) as [v|]; simpl in *; [|by exists s2]. exact (run_get_phase _ _ _ Hf2). }
  destruct g as [| |v]; simpl.
  - destruct (Htry eq_refl) as (s' & Hrun & Hf'). exists s'. split; [|done].
    rewrite decide_False by lia. etransitivity; [exact Hrun|]. by destruct (f n).
  - destruct (INIT_FAILURE Tol).
    + destruct (Htry eq_refl) as (s' & Hrun & Hf'). exists s'. split; [|done].
      rewrite decide_False by lia. etransitivity; [exact Hrun|]. by destruct (f n).
    + rewrite decide_True by done. exact (run_get_phase _ _ _ Hf1).
  - rewrite decide_True by done. exact (run_get_phase _ _ _ Hf1).
Qed.

(** [get_mut], which panics unless there is a value. *)
Lemma run_get_mut n g s :
  follows n g s →
  let '(n', g') := owned_access Tol f n g in
  ∃ s', run (catch (owned_get_mut t Tol f l)) [] s = (Returned ((λ _, tt) <$> stored g'), s') ∧ follows n' g' s'.
Proof using Ht EL.
  intros Hfo. pose proof (run_only_init n g s Hfo) as Hrun.
  destruct (owned_access Tol f n g) as [n' g'] eqn:Hacc. destruct Hrun as (s' & Hrun & Hf'').
  assert (∀ c : Phase → result unit AccessError,
    (n' = n ∨ g' ≠ OFailed →
     c (owned_phase g') = from_option (λ _, Ok tt) (Err (AccessErrorC (owned_phase g'))) (stored g')) →
    run (catch (r ← (phase ← only_init_unique this; map_result as_ref (c phase)); unwrap r)) [] s =
      (Returned ((λ _, tt) <$> stored g'), s')) as Hc.
  { intros c Hc. rewrite run_catch, !run_bind, Hrun. destruct Hf'' as (_ & _ & Hst & _).
    destruct s' as [m u]. destruct g' as [| |v], (decide (n' = n)); simpl in *;
      rewrite ?Hc by (by left + by right); simpl; rewrite ?Hst; reflexivity. }
  exists s'. split; [|done].
  assert (n' = n → g' = OFailed → INIT_FAILURE Tol = false) as Hfail.
  { intros -> ->. destruct g; simpl in Hacc; simplify_eq; try lia. destruct (INIT_FAILURE Tol); [|done].
    simplify_eq. lia. }
  assert (n' = n ∨ g' ≠ OFailed → g' ≠ ONew) as Hnew.
  { intros _ ->. destruct g; simpl in Hacc; simplify_eq; destruct (f n), (INIT_FAILURE Tol); simplify_eq. }
  assert (run (catch (locked_only_init_then_get_mut this)) [] s = (Returned ((λ _, tt) <$> stored g'), s')) as Hlock.
  { apply Hc. intros _. unfold check_access. rewrite owned_accessible. by destruct g'. }
  assert (run (catch (only_init_then_get_mut this)) [] s = (Returned ((λ _, tt) <$> stored g'), s')) as Hplain.
  { apply Hc. intros Hor. pose proof (Hnew Hor) as Hn'. unfold post_init_check_access.
    rewrite owned_policy. simpl. rewrite owned_initialized.
    destruct g' as [| |v]; simpl; [done| |by destruct (INIT_FAILURE Tol)].
    by rewrite Hfail by (by destruct Hor). }
  unfold owned_get_mut. destruct t; assumption.
Qed.

Lemma run_phase_of n g s :
  follows n g s → ∃ s', run (gz_phase this) [] s = (Returned (owned_phase g), s') ∧ follows n g s'.
Proof using Ht EL.
  intros [Hrd Hu]. destruct (run_phase l (owned_phase g) s (owned_phase_range g) Hrd) as (s' & Hrun & Hu' & Hrd').
  exists s'. split; [|by split; [|rewrite Hu']]. by destruct Ht as [->|[->|[->| ->]]].
Qed.

(** [try_get_mut], which refuses unless there is a value. *)
Lemma run_try_get_mut n g s :
  follows n g s →
  ∃ s', run (owned_try_get_mut t Tol f l) [] s =
    (Returned (from_option (λ _, Ok tt) (Err (AccessErrorC (owned_phase g))) (stored g)), s') ∧ follows n g s'.
Proof using Ht EL.
  intros Hfo. destruct (run_phase_of n g s Hfo) as ([m u] & Hrun & Hf').
  exists (State m u). split; [|done].
  assert (run (try_get_mut this) [] s =
    (Returned (from_option (λ _, Ok tt) (Err (AccessErrorC (owned_phase g))) (stored g)), State m u)) as Htry.
  { unfold try_get_mut, check_access. rewrite run_bind, Hrun, owned_accessible.
    destruct Hf' as (_ & _ & Hst & _). destruct g; simpl in *; rewrite ?Hst; reflexivity. }
  unfold owned_try_get_mut. destruct t; assumption.
Qed.

(** Using the reference to a value. *)
Lemma run_read_value n v s :
  follows n (OHas v) s → ∃ s', run (read_value tt) [] s = (Returned v, s') ∧ follows n (OHas v) s'.
Proof using.
  destruct s as [m u]. intros Hfo. exists (State m u). split; [|done].
  destruct Hfo as (_ & _ & Hst & _). simpl in *. by rewrite Hst.
Qed.

Lemma run_set_value n v w s :
  follows n (OHas v) s → ∃ s', run (set_value w tt) [] s = (Returned tt, s') ∧ follows n (OHas w) s'.
Proof using.
  intros (Hrd & Hn & Hst & Hl). simpl in *. eexists. split; [by simpl; rewrite Hst|].
  repeat split; simpl; try done. by rewrite Hl.
Qed.

(** One call does what the reference says. *)
Lemma run_owned_step c n g s :
  follows n g s →
  let '(a, (n', g')) := owned_step Tol f c n g in
  ∃ s', run (run_owned t Tol f l c) [] s = (Returned a, s') ∧ follows n' g' s'.
Proof using Ht EL.
  intros Hfo. pose proof (run_get_mut n g s Hfo) as Hget.
  destruct (run_try_get_mut n g s Hfo) as (s1 & Htry & Hf1).
  destruct (run_phase_of n g s Hfo) as (s2 & Hph & Hf2).
  destruct (owned_access Tol f n g) as [n' g'] eqn:Ha. destruct Hget as (s' & Hget & Hf').
  destruct c as [| |w|w|]; unfold run_owned; cbn [owned_step];
    rewrite ?Ha, run_bind, ?Hget, ?Htry, ?Hph; [destruct g'|destruct g|destruct g'|destruct g|by exists s2];
    cbn [stored fmap option_fmap option_map from_option]; try (by eexists); rewrite run_bind.
  - destruct (run_read_value _ _ _ Hf') as (s3 & -> & Hf3). by exists s3.
  - destruct (run_read_value _ _ _ Hf1) as (s3 & -> & Hf3). by exists s3.
  - destruct (run_set_value _ _ w _ Hf') as (s3 & -> & Hf3). by exists s3.
  - destruct (run_set_value _ _ w _ Hf1) as (s3 & -> & Hf3). by exists s3.
Qed.

Lemma run_owned_script script n g s :
  follows n g s →
  ∃ n' g' s', run (owned_script t Tol f l script) [] s = (Returned (owned_answers Tol f script n g), s') ∧
    follows n' g' s'.
Proof using Ht EL.
  revert n g s. induction script as [|c script IH]; intros n g s Hfo; cbn [owned_script owned_answers].
  { by exists n, g, s. }
  pose proof (run_owned_step c n g s Hfo) as Hstep.
  destruct (owned_step Tol f c n g) as [a [n1 g1]]. destruct Hstep as (s1 & Hrun & Hf1).
  destruct (IH _ _ _ Hf1) as (n' & g' & s' & Hrun' & Hf'). exists n', g', s'. split; [|done].
  by rewrite run_bind, Hrun, run_bind, Hrun'.
Qed.

(** [Drop] drops the value that is there, if there is one. *)
Lemma run_owned_drop n g s :
  follows n g s →
  ∃ s', run (owned_drop t Tol f l) [] s = (Returned tt, s') ∧
    o_content (usr s') = None ∧ o_dropped (usr s') = o_created (usr s').
Proof using Ht EL.
  intros Hfo. destruct (run_phase_of n g s Hfo) as (s1 & Hrun & _ & _ & Hst & Hl).
  assert (∃ s', run (lazy_drop drop_value this) [] s = (Returned tt, s') ∧
    o_content (usr s') = None ∧ o_dropped (usr s') = o_created (usr s')) as Hdrop.
  { unfold lazy_drop. rewrite run_bind, Hrun, owned_initialized.
    destruct g as [| |v]; simpl in *; [by exists s1..|]. rewrite Hst. simpl. eexists. split; [reflexivity|].
    simpl. by rewrite Hl. }
  unfold owned_drop. destruct t; exact Hdrop.
Qed.
End follows.

(** ** Property *)

(** C14: the life of a lazy that is not a static, on any locker that an exclusive
    reference may bypass: the owner of a [Lazy], [UnSyncLazy], [LockedLazy] or
    [UnSyncLockedLazy] reads and replaces its value through [get_mut] and
    [try_get_mut] in any order and then drops it. Every call answers as the
    reference says: the first access runs the generator, a later one does so only
    after a run that panicked, and never again for an [FnOnce]. Nothing is left
    of the lazy, and the values that were dropped are those that were ever
    stored, each of them once and in their order. *)
Theorem owned_lazy_drops_all {BF : Bitflags} {V L : Type} {ops : PhaseLocker (owned_state V) L}
    {mut_ops : MutPhaseLocker (owned_state V) L} {EL : ExclusiveLocker ops mut_ops}
    t Tol (f : nat → option V) (l : L) script (s : state (owned_state V)) :
  owned_type t → rd s (cell_of l) = empty_flags → usr s = owned_fresh →
  let '(r, s') := run (owned_life t Tol f l script) [] s in
  r = Returned (owned_answers Tol f script 0 ONew) ∧
  o_content (usr s') = None ∧ o_dropped (usr s') = o_created (usr s').
Proof.
  intros Ht Hrd Hu.
  assert (follows l 0 ONew s) as Hfo by (split; [done|by rewrite Hu]).
  destruct (run_owned_script t Tol f l Ht script _ _ _ Hfo) as (n & g & s1 & Hrun & Hf1).
  destruct (run_owned_drop t Tol f l Ht _ _ _ Hf1) as (s2 & Hdrop & ? & ?).
  unfold owned_life. by rewrite run_bind, Hrun, run_bind, Hdrop.
Qed.

(** A [LockedLazy] on the futex locker whose generator panics once, and an
    [UnSyncLazy] made of an [FnOnce] that returns. *)
Definition panics_once (n : nat) : option Z := match n with O => None | S _ => Some 7 end.
Definition owned_demo : list (owned_call Z) := [OTryGet; OGet; OSet 5; OSet 6; OPhase].
Definition owned_start : state (owned_state Z) := State ∅ owned_fresh.

Lemma owned_lazy_drops_all_witness :
  (let '(r, s') := run (owned_life (BF:=bitflags_1)
       (ops:=futex_locker (KN:=kernel_1) (BF:=bitflags_1) (λ _, true) true 0)
       (mut_ops:=futex_mut_locker (BF:=bitflags_1)) LockedLazy fn_tolerance panics_once (FutexC 2 3 4)
       owned_demo) [] owned_start in
   r = Returned (owned_answers (BF:=bitflags_1) fn_tolerance panics_once owned_demo 0 ONew) ∧
   o_content (usr s') = None ∧ o_dropped (usr s') = o_created (usr s')) ∧
  (let '(r, s') := run (owned_life (BF:=bitflags_1) (ops:=unsync_locker (BF:=bitflags_1))
       (mut_ops:=unsync_mut_locker (BF:=bitflags_1)) UnSyncLazy fn_once_tolerance panics_once
       (1%positive : UnSyncPhaseLocker) owned_demo) [] owned_start in
   r = Returned (owned_answers (BF:=bitflags_1) fn_once_tolerance panics_once owned_demo 0 ONew) ∧
   o_content (usr s') = None ∧ o_dropped (usr s') = o_created (usr s')) ∧
  owned_answers (BF:=bitflags_1) fn_tolerance panics_once owned_demo 0 ONew =
    [ORefused; OPanicked; ODone; ODone; OPhaseIs 1] ∧
  owned_answers (BF:=bitflags_1) fn_once_tolerance panics_once owned_demo 0 ONew =
    [ORefused; OPanicked; OPanicked; OPanicked; OPhaseIs 6].
Proof.
  split_and!; [| |vm_compute; reflexivity..].
  - apply (owned_lazy_drops_all (BF:=bitflags_1)
      (EL:=futex_exclusive (KN:=kernel_1) (BF:=bitflags_1) (λ _, true) true 0) LockedLazy);
      [right; right; left; reflexivity|reflexivity|reflexivity].
  - apply (owned_lazy_drops_all (BF:=bitflags_1) (EL:=unsync_exclusive (BF:=bitflags_1)) UnSyncLazy);
      [right; left; reflexivity|reflexivity|reflexivity].
Defined.
