(* ===== verification/LockedClients.v ===== *)
(** * Users of locked lazies

    Threads that each run an arbitrary script of the methods of a locked lazy,
    keep any number of guards, read and assign the value through them, and assert
    that what is behind a guard does not change on its own. They are verified
    against the interface [LockedLazySpec], which tells what the locks of the
    lazy give; the lazies with and without finalisation implement it. *)

From stdpp Require Import base list option numbers.
From S2P Require Import Prelude Word Phase Atomics Locker Sequentializer Policy Traits GenericLazy Lazy LazyTypes.
Open Scope Z_scope.

Section locked.
Context {BF : Bitflags} {U V L : Type} `{!EqDecision V} {ops : PhaseLocker U L} {memory : Memory U unit V}.
Context (this : @GenericLazy U L ops unit V).
Abbreviation RGuard := (ReadGuard unit).
Abbreviation WGuard := (WriteGuard unit).
Abbreviation program := (prog U).

(** ** Clients *)

(** A guard the client holds, with the value it saw or wrote last. *)
Inductive lazy_held :=
| LHW (g : WGuard) (v : V)
| LHR (g : RGuard) (v : V).

Inductive locked_cmd :=
| KRead | KFastRead | KTryRead | KFastTryRead
| KWrite | KFastWrite | KTryWrite | KFastTryWrite
| KInit | KPhase
| KCheck (i : nat) | KAssign (i : nat) (v : V) | KDowngrade (i : nat) | KClone (i : nat) | KDrop (i : nat).

(** Assigning behind the reference that a guard derefs to. *)
Definition assign_value (v : V) (x : unit) : program unit :=
  do_op (Usr (λ u, (tt, mem_set x (Some v) u))).

(** [map] over the shapes of the results. *)
Definition of_result {A} (r : result A AccessError) : option A :=
  match r with Ok a => Some a | Err _ => None end.
Definition of_option {A} (r : option (result A AccessError)) : option A := r ≫= of_result.

(** The read and write locks, by method: [None] when no guard was given. *)
Definition read_method (c : locked_cmd) : option (program (option RGuard)) :=
  match c with
  | KRead => Some (r ← lock_read this; Ret (Some r))
  | KFastRead => Some (lock_fast_read this)
  | KTryRead => Some (r ← lock_try_read this; Ret (of_result r))
  | KFastTryRead => Some (r ← lock_fast_try_read this; Ret (of_option r))
  | _ => None
  end.
Definition write_method (c : locked_cmd) : option (program (option WGuard)) :=
  match c with
  | KWrite => Some (r ← lock_write this; Ret (Some r))
  | KFastWrite => Some (lock_fast_write this)
  | KTryWrite => Some (r ← lock_try_write this; Ret (of_result r))
  | KFastTryWrite => Some (r ← lock_fast_try_write this; Ret (of_option r))
  | _ => None
  end.

Definition use_guard (c : locked_cmd) (hs : list lazy_held) : program (list lazy_held) :=
  match c with
  | KCheck i =>
      match hs !! i with
      | Some (LHW g v) =>
          x ← write_guard_deref g; w ← read_value x; assert_prog (bool_decide (w = v));; Ret hs
      | Some (LHR g v) =>
          x ← read_guard_deref g; w ← read_value x; assert_prog (bool_decide (w = v));; Ret hs
      | None => Ret hs
      end
  | KAssign i v =>
      match hs !! i with
      | Some (LHW g _) => x ← write_guard_deref g; assign_value v x;; Ret (<[i := LHW g v]> hs)
      | _ => Ret hs
      end
  | KDowngrade i =>
      match hs !! i with
      | Some (LHW g v) => r ← wg_into_read g; Ret (<[i := LHR r v]> hs)
      | _ => Ret hs
      end
  | KClone i =>
      match hs !! i with
      | Some (LHR g v) => r ← rg_clone g; Ret (LHR r v :: hs)
      | _ => Ret hs
      end
  | KDrop i =>
      match hs !! i with
      | Some (LHW g _) => wg_drop g;; Ret (delete i hs)
      | Some (LHR g _) => rg_drop g;; Ret (delete i hs)
      | None => Ret hs
      end
  | _ => Ret hs
  end.

(** A method that panics is caught. *)
Definition run_locked_cmd (c : locked_cmd) (hs : list lazy_held) : program (list lazy_held) :=
  match read_method c, write_method c with
  | Some m, _ =>
      r ← catch m;
      match r with
      | Some (Some g) => x ← read_guard_deref g; v ← read_value x; Ret (LHR g v :: hs)
      | _ => Ret hs
      end
  | None, Some m =>
      r ← catch m;
      match r with
      | Some (Some g) => x ← write_guard_deref g; v ← read_value x; Ret (LHW g v :: hs)
      | _ => Ret hs
      end
  | None, None =>
      match c with
      | KInit => _ ← catch (lock_init this); Ret hs
      | KPhase => _ ← lazy_phase this; Ret hs
      | c => use_guard c hs
      end
  end.

Fixpoint locked_client (script : list locked_cmd) (hs : list lazy_held) : program unit :=
  match script with
  | [] => Ret tt
  | c :: script => hs ← run_locked_cmd c hs; locked_client script hs
  end.

(** Scripts clone guards only when the locker bounds the clones. *)
Definition locked_cmd_ok (clones : bool) (c : locked_cmd) : Prop :=
  match c with KClone _ => clones = true | _ => True end.

(** ** The interface *)

Section spec.
Context {G : Type} {P : PCM G} {D : Type} {c : contract U D} {l : L}.
Context {spec : PhaseLockerSpec (G:=G) ops c l}.

(** The plain locks: a guard at a phase, and the data as it is left there. *)
Definition plain_read_post (r : RGuard) (h : G) : Prop :=
  ∃ p d, h = own_r p d ∧ R c p d ∧ rg_is r tt p.
Definition plain_write_post (g : WGuard) (h : G) : Prop :=
  ∃ p d, h = own_w p d ∧ R c p d ∧ wg_is g tt p p.

(** [val d] is the value that the data [d] shows, and [set_val v d] the data once
    [v] is assigned. *)
Class LockedLazySpec (val : D → option V) (set_val : V → D → D) (reached : Phase → Prop) := {
  ll_pub p : pub c p = false;
  ll_get u : mem_get tt u = val (view c u);
  ll_set v u : view c (mem_set tt (Some v) u) = set_val v (view c u);
  ll_val_set v d : val (set_val v d) = Some v;
  ll_K p v u : is_Some (val (view c u)) → K c p u → K c p (mem_set tt (Some v) u);
  ll_tick v u : tick c (mem_set tt (Some v) u) = tick c u;
  ll_moves p q d v :
    is_accessible (gz_policy this) q = true → is_Some (val d) → moves c p q d → moves c p q (set_val v d);
  (* in an accessible phase there is a value *)
  ll_accessible p d : R c p d → is_accessible (gz_policy this) p = true → is_Some (val d);
  ll_post_init q :
    reached q → post_init_is_accessible (gz_policy this) q = true → is_accessible (gz_policy this) q = true;
  ll_phase : ok linv (gz_phase this) pcm_unit (λ _ h, h = pcm_unit) (λ _, False);
  ll_plain_read : ok linv (read_lock_unchecked this) pcm_unit plain_read_post (λ h, h = pcm_unit);
  ll_plain_fast_read :
    ok linv (fast_read_lock_unchecked this) pcm_unit (opt_post (c:=c) (l:=l) plain_read_post) (λ h, h = pcm_unit);
  ll_plain_write : ok linv (write_lock_unchecked this) pcm_unit plain_write_post (λ h, h = pcm_unit);
  ll_plain_fast_write :
    ok linv (fast_write_lock_unchecked this) pcm_unit (opt_post (c:=c) (l:=l) plain_write_post) (λ h, h = pcm_unit);
  ll_read :
    ok linv (init_then_read_lock_unchecked this) pcm_unit
      (read_post (c:=c) (l:=l) (gz_seq this) reached) (λ h, h = pcm_unit);
  ll_fast_read :
    ok linv (fast_init_then_read_lock_unchecked this) pcm_unit
      (opt_post (c:=c) (l:=l) (read_post (c:=c) (l:=l) (gz_seq this) reached)) (λ h, h = pcm_unit);
  ll_write :
    ok linv (init_then_write_lock_unchecked this) pcm_unit
      (write_post (c:=c) (l:=l) (gz_seq this) reached) (λ h, h = pcm_unit);
  ll_fast_write :
    ok linv (fast_init_then_write_lock_unchecked this) pcm_unit
      (opt_post (c:=c) (l:=l) (write_post (c:=c) (l:=l) (gz_seq this) reached)) (λ h, h = pcm_unit);
}.

(** The plain locks of every manager are those of its locker. *)
Section plain.
Context (Hlock : sq_lock (SequentializerTrait := ls_super (LazySequentializerTrait := gz_man this)) = seq_lock)
  (Htry : sq_try_lock (SequentializerTrait := ls_super (LazySequentializerTrait := gz_man this)) = seq_try_lock)
  (Hhint : phase_range (ls_INITIALIZED_HINT (LazySequentializerTrait := gz_man this)))
  (Hloc : seq_locker (sequentializer (gz_seq this)) = l).
#[local] Arguments ok : simpl never.

Lemma plain_read_ok : ok linv (read_lock_unchecked this) pcm_unit plain_read_post (λ h, h = pcm_unit).
Proof using Hlock Hhint Hloc.
  unfold read_lock_unchecked. rewrite Hlock. unfold seq_lock. rewrite Hloc. destruct (data (gz_seq this)).
  apply ok_bind. eapply ok_mono; [by apply spec_lock|cbv beta|by intros h [-> _]].
  intros [r|g|p] h; [by intros (p & d & -> & ? & ? & _); exists p, d|by intros (? & ? & _ & _ & _ & ?)|].
  by intros (_ & _ & [?|?]).
Qed.

Lemma plain_write_ok : ok linv (write_lock_unchecked this) pcm_unit plain_write_post (λ h, h = pcm_unit).
Proof using Hlock Hhint Hloc.
  unfold write_lock_unchecked. rewrite Hlock. unfold seq_lock. rewrite Hloc. destruct (data (gz_seq this)).
  apply ok_bind. eapply ok_mono; [by apply spec_lock|cbv beta|by intros h [-> _]].
  intros [r|g|p] h; [by intros (? & ? & _ & _ & _ & ?)|by intros (p & d & -> & ? & ? & _); exists p, d|].
  by intros (_ & _ & [?|?]).
Qed.

Lemma plain_fast_read_ok :
  ok linv (fast_read_lock_unchecked this) pcm_unit (opt_post (c:=c) (l:=l) plain_read_post) (λ h, h = pcm_unit).
Proof using Htry Hhint Hloc.
  unfold fast_read_lock_unchecked. rewrite Htry. unfold seq_try_lock. rewrite Hloc. destruct (data (gz_seq this)).
  apply ok_bind. eapply ok_mono; [by apply spec_try_lock|cbv beta|done].
  intros [[r|g|p]|] h; [by intros (p & d & -> & ? & ? & _); exists p, d|by intros (? & ? & _ & _ & _ & ?)|..].
  - by intros (_ & _ & ?).
  - by intros H.
Qed.

Lemma plain_fast_write_ok :
  ok linv (fast_write_lock_unchecked this) pcm_unit (opt_post (c:=c) (l:=l) plain_write_post) (λ h, h = pcm_unit).
Proof using Htry Hhint Hloc.
  unfold fast_write_lock_unchecked. rewrite Htry. unfold seq_try_lock. rewrite Hloc. destruct (data (gz_seq this)).
  apply ok_bind. eapply ok_mono; [by apply spec_try_lock|cbv beta|done].
  intros [[r|g|p]|] h; [by intros (? & ? & _ & _ & _ & ?)|by intros (p & d & -> & ? & ? & _); exists p, d|..].
  - by intros (_ & _ & ?).
  - by intros H.
Qed.
End plain.

(** ** What the methods give *)

Context {val : D → option V} {set_val : V → D → D} {reached : Phase → Prop}.
Context {LL : LockedLazySpec val set_val reached}.
#[local] Arguments ok : simpl never.

Lemma unit_of_pub p : (if pub c p then own_pub (l:=l) (c:=c) else pcm_unit) = pcm_unit.
Proof using LL. by rewrite ll_pub. Qed.

Definition granted_r (r : RGuard) (h : G) : Prop :=
  ∃ p d, h = own_r p d ∧ is_Some (val d) ∧ rg_is r tt p.
Definition granted_w (g : WGuard) (h : G) : Prop :=
  ∃ p q d, h = own_w p d ∧ is_Some (val d) ∧ moves c p q d ∧ wg_is g tt p q ∧
    is_accessible (gz_policy this) q = true.
Definition granted {A} (Q : A → G → Prop) (r : option A) (h : G) : Prop :=
  match r with Some a => Q a h | None => h = pcm_unit end.
Definition result_post {A} (Q : A → G → Prop) (r : result A AccessError) (h : G) : Prop :=
  match r with Ok a => Q a h | Err _ => h = pcm_unit end.

(** The access checks give a guard of a value, or drop it. *)
Lemma read_check_ok (acc : Phase → bool) r p d :
  rg_is r tt p → R c p d → (acc p = true → is_accessible (gz_policy this) p = true) →
  ok linv (phase ← rg_phase r;
           match (if acc phase then Ok r else Err (AccessErrorC phase)) with
           | Ok l => Ret (Ok l)
           | Err e => rg_drop r;; Ret (Err e)
           end) (own_r p d) (result_post granted_r) (λ _, False).
Proof using LL.
  intros Hr HR Hacc. apply ok_bind.
  eapply ok_mono; [by eapply spec_rg_phase|cbv beta|done]. intros p' h [-> ->].
  destruct (acc p) eqn:E.
  - exists p, d. split; [done|]. split; [by eapply ll_accessible; eauto|done].
  - apply ok_bind. eapply ok_mono; [by eapply spec_rg_drop|cbv beta|done]. intros [] h ->.
    apply unit_of_pub.
Qed.

Lemma write_check_ok (acc : Phase → bool) g p q d :
  wg_is g tt p q → moves c p q d → (acc q = true → is_accessible (gz_policy this) q = true) →
  ok linv (match (if acc (wg_phase g) then Ok g else Err (AccessErrorC (wg_phase g))) with
           | Ok l => Ret (Ok l)
           | Err e => wg_drop g;; Ret (Err e)
           end) (own_w p d) (result_post granted_w) (λ _, False).
Proof using LL.
  intros Hg Hm Hacc. destruct (spec_wg_phase _ _ _ _ Hg) as (-> & _).
  destruct (acc q) eqn:E.
  - exists p, q, d. split; [done|]. split; [|auto].
    destruct Hm as (_ & HR & _). by eapply ll_accessible; eauto.
  - apply ok_bind. eapply ok_mono; [by eapply spec_wg_drop|cbv beta|done]. intros [] h ->.
    apply unit_of_pub.
Qed.

Lemma checked_read_ok r h :
  plain_read_post r h →
  ok linv (checked_read_access (gz_policy this) r) h (result_post granted_r) (λ _, False).
Proof using LL. intros (p & d & -> & HR & Hr). by apply read_check_ok with (p := p). Qed.

Lemma post_init_checked_read_ok r h :
  read_post (c:=c) (l:=l) (gz_seq this) reached r h →
  ok linv (post_init_checked_read_access (gz_policy this) r) h (result_post granted_r) (λ _, False).
Proof using LL.
  intros (p & d & -> & HR & Hr & Hreach). destruct (data (gz_seq this)).
  apply read_check_ok with (p := p); [done..|]. by apply ll_post_init.
Qed.

Lemma checked_write_ok g h :
  plain_write_post g h →
  ok linv (checked_write_access (gz_policy this) g) h (result_post granted_w) (λ _, False).
Proof using LL.
  intros (p & d & -> & HR & Hg). apply write_check_ok with (p := p) (q := p); [done| |done].
  by apply leaves_same.
Qed.

Lemma post_init_checked_write_ok g h :
  write_post (c:=c) (l:=l) (gz_seq this) reached g h →
  ok linv (post_init_checked_write_access (gz_policy this) g) h (result_post granted_w) (λ _, False).
Proof using LL.
  intros (p & q & d & -> & Hm & Hg & Hreach). destruct (data (gz_seq this)).
  apply write_check_ok with (p := p) (q := q); [done..|]. by apply ll_post_init.
Qed.

(** [Result::unwrap], and [Option::map] of a check, after a triple. *)
Lemma unwrap_ok {A} (m : program (result A AccessError)) (Q : A → G → Prop) h :
  ok linv m h (result_post Q) (λ h, h = pcm_unit) →
  ok linv (r ← m; unwrap r) h Q (λ h, h = pcm_unit).
Proof using. intros Hm. apply ok_bind. eapply ok_mono; [exact Hm|cbv beta|done]. by intros [a|e] h'. Qed.

Lemma map_check_ok {A B} (m : program (option A)) (k : A → program B) (Q0 : A → G → Prop) (Q : B → G → Prop) :
  ok linv m pcm_unit (opt_post (c:=c) (l:=l) Q0) (λ h, h = pcm_unit) →
  (∀ a h, Q0 a h → ok linv (k a) h Q (λ h, h = pcm_unit)) →
  ok linv (r ← m; map_option k r) pcm_unit (granted Q) (λ h, h = pcm_unit).
Proof using LL.
  intros Hm Hk. apply ok_bind. eapply ok_mono; [exact Hm|cbv beta|done].
  intros [a|] h Ha; cbn [map_option].
  - apply ok_bind. eapply ok_mono; [by apply Hk|by intros b h' HQ|done].
  - cbn [granted]. destruct Ha as [-> | [p ->]]; [done|apply unit_of_pub].
Qed.

Abbreviation method Q m := (ok linv m pcm_unit (granted Q) (λ h : G, h = pcm_unit)).

(** A triple whose checks cannot panic, where panics are allowed. *)
Lemma no_panic_ok {A} (m : program A) h (Q : A → G → Prop) :
  ok linv m h Q (λ _, False) → ok linv m h Q (λ h, h = pcm_unit).
Proof using. intros Hm. by eapply ok_mono. Qed.

Lemma some_method {A} (m : program A) Q :
  ok linv m pcm_unit Q (λ h, h = pcm_unit) → method Q (r ← m; Ret (Some r)).
Proof using. intros Hm. apply ok_bind. eapply ok_mono; [exact Hm|by intros a h HQ|done]. Qed.

Lemma result_method {A} (m : program (result A AccessError)) Q :
  ok linv m pcm_unit (result_post Q) (λ h, h = pcm_unit) → method Q (r ← m; Ret (of_result r)).
Proof using. intros Hm. apply ok_bind. by eapply ok_mono; [exact Hm|intros [a|e] h HQ|done]. Qed.

Lemma option_method {A} (m : program (option (result A AccessError))) Q :
  ok linv m pcm_unit (granted (result_post Q)) (λ h, h = pcm_unit) →
  method Q (r ← m; Ret (of_option r)).
Proof using. intros Hm. apply ok_bind. by eapply ok_mono; [exact Hm|intros [[a|e]|] h HQ|done]. Qed.

Lemma unwrap_option_ok {A} (m : program (option (result A AccessError))) Q :
  ok linv m pcm_unit (granted (result_post Q)) (λ h, h = pcm_unit) →
  method Q (r ← m; map_option unwrap r).
Proof using.
  intros Hm. apply ok_bind. eapply ok_mono; [exact Hm|cbv beta|done].
  by intros [[a|e]|] h HQ.
Qed.

Lemma seq_check_ok {A B} (m : program A) (k : A → program B) (Q0 : A → G → Prop) (Q : B → G → Prop) :
  ok linv m pcm_unit Q0 (λ h, h = pcm_unit) →
  (∀ a h, Q0 a h → ok linv (k a) h Q (λ _, False)) →
  ok linv (a ← m; k a) pcm_unit Q (λ h, h = pcm_unit).
Proof using.
  intros Hm Hk. apply ok_bind. eapply ok_mono; [exact Hm|cbv beta|done].
  intros a h Ha. apply no_panic_ok. by apply Hk.
Qed.

Lemma read_method_ok c' m : read_method c' = Some m → method granted_r m.
Proof using LL.
  destruct c'; intros [= <-].
  - apply some_method, unwrap_ok.
    eapply seq_check_ok; [apply ll_read|apply post_init_checked_read_ok].
  - apply unwrap_option_ok.
    eapply map_check_ok; [apply ll_fast_read|intros a h Ha; by apply no_panic_ok, post_init_checked_read_ok].
  - apply result_method. eapply seq_check_ok; [apply ll_plain_read|apply checked_read_ok].
  - apply option_method.
    eapply map_check_ok; [apply ll_plain_fast_read|intros a h Ha; by apply no_panic_ok, checked_read_ok].
Qed.

Lemma write_method_ok c' m : write_method c' = Some m → method granted_w m.
Proof using LL.
  destruct c'; intros [= <-].
  - apply some_method, unwrap_ok.
    eapply seq_check_ok; [apply ll_write|apply post_init_checked_write_ok].
  - apply unwrap_option_ok.
    eapply map_check_ok; [apply ll_fast_write|intros a h Ha; by apply no_panic_ok, post_init_checked_write_ok].
  - apply result_method. eapply seq_check_ok; [apply ll_plain_write|apply checked_write_ok].
  - apply option_method.
    eapply map_check_ok; [apply ll_plain_fast_write|intros a h Ha; by apply no_panic_ok, checked_write_ok].
Qed.

(** ** The clients *)

(** What a client owns for a guard it holds. *)
Definition lazy_owns (h : lazy_held) (o : G) : Prop :=
  match h with
  | LHW g v => ∃ p q d, o = own_w p d ∧ val d = Some v ∧ moves c p q d ∧ wg_is g tt p q ∧
      is_accessible (gz_policy this) q = true
  | LHR g v => ∃ p d, o = own_r p d ∧ val d = Some v ∧ rg_is g tt p
  end.

Abbreviation owns_list := (owns_with lazy_owns).

Lemma deref_w_ok g p q d v :
  wg_is g tt p q → val d = Some v →
  ok linv (write_guard_deref (V:=V) g) (own_w p d) (λ x h, x = tt ∧ h = own_w p d) (λ _, False).
Proof using LL.
  intros Hg Hv. unfold write_guard_deref. rewrite (spec_wg_target _ _ _ _ Hg). apply ok_bind.
  eapply ok_mono; [by apply spec_write|cbv beta|done].
  intros x h (u & Hu & _ & -> & ->). cbn [fst snd]. by rewrite ll_get, Hu, Hv.
Qed.

Lemma deref_r_ok g p d v :
  rg_is g tt p → val d = Some v →
  ok linv (read_guard_deref (V:=V) g) (own_r p d) (λ x h, x = tt ∧ h = own_r p d) (λ _, False).
Proof using LL.
  intros Hg Hv. unfold read_guard_deref. rewrite (spec_rg_target _ _ _ Hg). apply ok_bind.
  eapply ok_mono; [by apply spec_read|cbv beta|done].
  intros x h (u & Hu & _ & -> & ->). cbn [fst snd]. by rewrite ll_get, Hu, Hv.
Qed.

Lemma value_w_ok p d v :
  val d = Some v →
  ok linv (read_value tt) (own_w p d) (λ w h, w = v ∧ h = own_w p d) (λ _, False).
Proof using LL.
  intros Hv. apply ok_bind. eapply ok_mono; [by apply spec_write|cbv beta|done].
  intros x h (u & Hu & _ & -> & ->). cbn [fst snd]. by rewrite ll_get, Hu, Hv.
Qed.

Lemma value_r_ok p d v :
  val d = Some v →
  ok linv (read_value tt) (own_r p d) (λ w h, w = v ∧ h = own_r p d) (λ _, False).
Proof using LL.
  intros Hv. apply ok_bind. eapply ok_mono; [by apply spec_read|cbv beta|done].
  intros x h (u & Hu & _ & -> & ->). cbn [fst snd]. by rewrite ll_get, Hu, Hv.
Qed.

Lemma acquire_read_ok g h hs o :
  granted_r g h → owns_list hs o →
  ok linv (x ← read_guard_deref g; v ← read_value x; Ret (LHR g v :: hs)) (h ⋅ o) owns_list (λ _, False).
Proof using LL.
  intros (p & d & -> & [v Hv] & Hg) Ho. eapply ok_frame_bind; [by eapply deref_r_ok|cbv beta|by intros ? []].
  intros x h' [-> ->]. eapply ok_frame_bind; [by apply value_r_ok|cbv beta|by intros ? []].
  intros w h' [-> ->]. apply owns_with_cons; [by exists p, d|done].
Qed.

Lemma acquire_write_ok g h hs o :
  granted_w g h → owns_list hs o →
  ok linv (x ← write_guard_deref g; v ← read_value x; Ret (LHW g v :: hs)) (h ⋅ o) owns_list (λ _, False).
Proof using LL.
  intros (p & q & d & -> & [v Hv] & Hm & Hg & Hacc) Ho. eapply ok_frame_bind; [by eapply deref_w_ok|cbv beta|by intros ? []].
  intros x h' [-> ->]. eapply ok_frame_bind; [by apply value_w_ok|cbv beta|by intros ? []].
  intros w h' [-> ->]. apply owns_with_cons; [by exists p, q, d|done].
Qed.

Lemma lock_method_ok {A} (m : program (option A)) (Q : A → G → Prop) (k : A → program (list lazy_held)) hs o :
  method Q m → (∀ a h, Q a h → ok linv (k a) (h ⋅ o) owns_list (λ _, False)) → owns_list hs o →
  ok linv (r ← catch m; match r with Some (Some g) => k g | _ => Ret hs end) o owns_list (λ _, False).
Proof using.
  intros Hm Hk Ho. rewrite <- (left_id_L pcm_unit pcm_op o).
  eapply ok_frame_bind with (Qp := λ _, False).
  - apply ok_catch. eapply ok_mono; [exact Hm| |].
    + intros r h Hr. instantiate (1 := λ r h,
        match r with Some r => granted Q r h | None => h = pcm_unit end). exact Hr.
    + by intros h ->.
  - intros [[a|]|] h Ha; simpl in Ha; [by apply Hk|subst h; by rewrite (left_id_L pcm_unit pcm_op)..].
  - by intros ? [].
Qed.

(** Using the guard at one index. *)
Lemma use_write_guard_ok c' i g v hs o1 o2 :
  hs !! i = Some (LHW g v) → lazy_owns (LHW g v) o1 → owns_list (delete i hs) o2 →
  (∀ h' o', lazy_owns h' o' → owns_list (<[i := h']> hs) (o' ⋅ o2)) → owns_list hs (o1 ⋅ o2) →
  match c' with KCheck j | KAssign j _ | KDowngrade j | KClone j | KDrop j => j = i | _ => True end →
  ok linv (use_guard c' hs) (o1 ⋅ o2) owns_list (λ _, False).
Proof using LL.
  intros E (p & q & d & -> & Hv & Hm & Hg & Hacc) Hdel Hins Ho Hi.
  destruct c' as [| | | | | | | | | |j|j w|j|j|j]; try exact Ho; subst j; cbn [use_guard]; rewrite E; try exact Ho.
  - eapply ok_frame_bind; [by eapply deref_w_ok|cbv beta|by intros ? []]. intros x h [-> ->].
    eapply ok_frame_bind; [by apply value_w_ok|cbv beta|by intros ? []]. intros w h [-> ->].
    by rewrite assert_bind by (by rewrite bool_decide_true).
  - eapply ok_frame_bind; [by eapply deref_w_ok|cbv beta|by intros ? []]. intros x h [-> ->].
    eapply ok_frame_bind; [apply spec_write|cbv beta|by intros ? []].
    + intros u _ _. apply ll_tick.
    + intros u <- HK. apply ll_K; [by eexists|done].
    + intros [] h (u & Hu & _ & _ & ->). cbn [snd]. rewrite ll_set, Hu. apply Hins.
      exists p, q, (set_val w d). split; [done|]. split; [apply ll_val_set|]. split; [|done].
      apply ll_moves; [done|by eexists|done].
  - eapply ok_frame_bind; [by eapply spec_wg_into_read|cbv beta|by intros ? []].
    intros r h [-> Hr]. apply Hins. by exists q, d.
  - eapply ok_frame_bind; [by eapply spec_wg_drop|cbv beta|by intros ? []].
    intros [] h ->. by rewrite unit_of_pub, (left_id_L pcm_unit pcm_op).
Qed.

Lemma use_read_guard_ok c' i g v hs o1 o2 :
  locked_cmd_ok clones_bounded c' →
  hs !! i = Some (LHR g v) → lazy_owns (LHR g v) o1 → owns_list (delete i hs) o2 →
  (∀ h' o', lazy_owns h' o' → owns_list (<[i := h']> hs) (o' ⋅ o2)) → owns_list hs (o1 ⋅ o2) →
  match c' with KCheck j | KAssign j _ | KDowngrade j | KClone j | KDrop j => j = i | _ => True end →
  ok linv (use_guard c' hs) (o1 ⋅ o2) owns_list (λ _, False).
Proof using LL.
  intros Hc E (p & d & -> & Hv & Hg) Hdel Hins Ho Hi.
  destruct c' as [| | | | | | | | | |j|j w|j|j|j]; try exact Ho; subst j; cbn [use_guard]; rewrite E; try exact Ho.
  - eapply ok_frame_bind; [by eapply deref_r_ok|cbv beta|by intros ? []]. intros x h [-> ->].
    eapply ok_frame_bind; [by apply value_r_ok|cbv beta|by intros ? []]. intros w h [-> ->].
    by rewrite assert_bind by (by rewrite bool_decide_true).
  - eapply ok_frame_bind; [by eapply spec_rg_clone|cbv beta|by intros ? []].
    intros r h [-> Hr]. rewrite <- (assoc_L pcm_op). apply owns_with_cons; [by exists p, d|].
    rewrite <- (list_insert_id hs i _ E). apply Hins. by exists p, d.
  - eapply ok_frame_bind; [by eapply spec_rg_drop|cbv beta|by intros ? []].
    intros [] h ->. by rewrite unit_of_pub, (left_id_L pcm_unit pcm_op).
Qed.

Lemma use_guard_ok c' hs o :
  locked_cmd_ok clones_bounded c' → owns_list hs o → ok linv (use_guard c' hs) o owns_list (λ _, False).
Proof using LL.
  intros Hc Ho.
  assert (∀ i, match c' with KCheck j | KAssign j _ | KDowngrade j | KClone j | KDrop j => j = i | _ => True end →
    ok linv (use_guard c' hs) o owns_list (λ _, False)) as Huse.
  { intros i Hi. destruct (hs !! i) as [h|] eqn:E.
    - destruct (owns_with_lookup _ _ _ _ _ Ho E) as (o1 & o2 & -> & Hown & Hdel & Hins).
      destruct h as [g v|g v]; [by eapply use_write_guard_ok|by eapply use_read_guard_ok].
    - destruct c'; try exact Ho; subst; cbn [use_guard]; rewrite E; exact Ho. }
  destruct c' as [| | | | | | | | | |i|i w|i|i|i]; try exact (Huse 0%nat I); by apply (Huse i).
Qed.

Lemma lock_init_ok :
  ok linv (lock_init this) pcm_unit (λ _ h, h = pcm_unit) (λ h, h = pcm_unit).
Proof using LL.
  unfold lock_init, init_then_write_lock, init_then_try_write_lock.
  apply ok_bind. eapply ok_mono; [apply unwrap_ok|cbv beta|done].
  - eapply seq_check_ok; [apply ll_write|apply post_init_checked_write_ok].
  - intros g h (p & q & d & -> & Hv & Hm & Hg & _). apply no_panic_ok.
    eapply ok_mono; [by eapply spec_wg_drop|intros [] h ->; apply unit_of_pub|done].
Qed.

Lemma run_locked_cmd_ok c' hs o :
  locked_cmd_ok clones_bounded c' → owns_list hs o →
  ok linv (run_locked_cmd c' hs) o owns_list (λ _, False).
Proof using LL.
  intros Hc Ho. unfold run_locked_cmd.
  destruct (read_method c') as [m|] eqn:Er.
  { eapply lock_method_ok; [by eapply read_method_ok| |done]. intros a h Ha. by apply acquire_read_ok. }
  destruct (write_method c') as [m|] eqn:Ew.
  { eapply lock_method_ok; [by eapply write_method_ok| |done]. intros a h Ha. by apply acquire_write_ok. }
  destruct c'; try by apply use_guard_ok.
  - rewrite <- (left_id_L pcm_unit pcm_op o). eapply ok_frame_bind with (Qp := λ _, False).
    + apply ok_catch. eapply ok_mono; [apply lock_init_ok| |].
      * intros x h Hh. instantiate (1 := λ _ h, h = pcm_unit). exact Hh.
      * by intros h ->.
    + intros x h ->. by rewrite (left_id_L pcm_unit pcm_op).
    + by intros ? [].
  - rewrite <- (left_id_L pcm_unit pcm_op o).
    eapply ok_frame_bind; [apply ll_phase|cbv beta|by intros ? []].
    intros p h ->. by rewrite (left_id_L pcm_unit pcm_op).
Qed.

Lemma locked_client_ok script hs o :
  Forall (locked_cmd_ok clones_bounded) script → owns_list hs o →
  ok linv (locked_client script hs) o (λ _ _, True) (λ _, False).
Proof using LL.
  intros Hs. revert hs o. induction Hs as [|c' script Hc _ IH]; intros hs o Ho; [done|].
  cbn [locked_client]. apply ok_bind. eapply ok_mono; [by apply run_locked_cmd_ok|cbv beta|done]. eauto.
Qed.

Lemma locked_pool_ok scripts :
  Forall (Forall (locked_cmd_ok clones_bounded)) scripts →
  Forall2 (λ p g, ok linv p g (λ _ _, True) (λ _, False))
    ((λ script, locked_client script []) <$> scripts) (replicate (length scripts) pcm_unit).
Proof using LL.
  intros Hs. apply Forall2_fmap_l. apply Forall2_same_length_lookup_2; [by rewrite length_replicate|].
  intros i script g Hscript Hg. apply lookup_replicate in Hg as [-> _].
  apply locked_client_ok; [by eapply Forall_lookup_1 in Hs|apply owns_with_nil].
Qed.
End spec.
End locked.
