(* ===== verification/LazySafety.v ===== *)
(** * Lazies initialise exactly once

    What the lazy types promise to the threads that share one: whatever the
    generator does on each of its runs and whatever the threads do, no access
    touches an uninitialised value, the value is stored once, and every
    reference ever obtained shows that value. The lazy is verified against the
    contract of the phase locker, and the theorems instantiate it. *)

From stdpp Require Import base list option numbers gmap relations.
From S2P Require Import Prelude Word Phase Atomics Locker Tokens UnSync SpinLocker Sequentializer Policy Traits GenericLazy Lazy LazyTypes.
Open Scope Z_scope.

(** ** The world of one lazy

    Its storage and hint flag, and a history for the statements: the number of
    runs of the generator and of writes to the storage, and every value that a
    thread has read through a reference. *)
Record lazy_state (V : Type) := LazyState {
  runs : nat;
  stores : nat;
  content : option V;
  seen : list V;
  hinted : bool;
}.
Arguments LazyState {V} runs stores content seen hinted.
Arguments runs {V} l.
Arguments stores {V} l.
Arguments content {V} l.
Arguments seen {V} l.
Arguments hinted {V} l.

Definition fresh {V} : lazy_state V := LazyState 0 0 None [] false.

#[export] Instance lazy_memory V : Memory (lazy_state V) unit V := {
  mem_get _ u := content u;
  mem_set _ v u :=
    LazyState (runs u) (if v is Some _ then S (stores u) else stores u) v (seen u) (hinted u);
}.

#[export] Instance lazy_hint V : GlobalHint (lazy_state V) := {
  hint_get := hinted;
  hint_set u := LazyState (runs u) (stores u) (content u) (seen u) true;
}.

(** A generator whose [n]-th run returns [f n], or panics. *)
Definition generator {V} (f : nat → option V) : prog (lazy_state V) V :=
  n ← do_op (Usr (λ u, (runs u,
        LazyState (S (runs u)) (stores u) (content u) (seen u) (hinted u))));
  match f n with
  | Some v => Ret v
  | None => Panic
  end.

Section lazies.
Context {BF : Bitflags} {V L : Type} {ops : PhaseLocker (lazy_state V) L}.
Context (Tol : GeneratorTolerance) (f : nat → option V) (l : L).
Abbreviation Lz := (@GenericLazy (lazy_state V) L ops unit V).

(** A lazy without finalisation at [l] whose storage is the world's. *)
Definition the_lazy (t : lazy_type) : Lz :=
  from_generator t true Tol (λ _, Ret true) (λ _, Ret tt) (λ _, Ret tt) (λ _, Ret tt)
    (generator f) l tt.

(** ** Clients *)

(** Reading the value through a reference. *)
Definition read_ref (x : unit) : prog (lazy_state V) unit :=
  v ← do_op (Usr (λ u, (content u,
        LazyState (runs u) (stores u) (content u)
          (if content u is Some v then v :: seen u else seen u) (hinted u))));
  match v with
  | Some _ => Ret tt
  | None => Undef
  end.

(** A thread that uses the lazy through its [LazyAccess]. *)
Definition lazy_client (enabled : bool) (t : lazy_type) (script : list lazy_cmd)
    : prog (lazy_state V) unit :=
  match lazy_access enabled t with
  | Some A => access_client (A:=A) read_ref (the_lazy t) script
  | None => Ret tt
  end.

(** What the program runs before [main] for a quasi-lazy. A panic of the
    initialisation ends it. *)
Definition constructor (t : lazy_type) : prog (lazy_state V) unit :=
  lazy_init_method (the_lazy t);; mark_inited.

(** ** The contract of the lock word with the storage *)

(** Every run of the generator but the last one has panicked; what is stored is
    the result of the last one. *)
Record history (u : lazy_state V) : Prop := {
  failed_runs n : (S n < runs u)%nat → f n = None;
  stored_run v : content u = Some v → ∃ n, runs u = S n ∧ f n = Some v;
  stored_once : stores u = if content u is Some _ then 1%nat else 0%nat;
  seen_stored v : v ∈ seen u → content u = Some v;
  run_once : INIT_FAILURE Tol = false → (runs u <= 1)%nat;
}.

Definition lazy_view (u : lazy_state V) : nat * option V := (runs u, content u).

Record lazy_K (p : Phase) (u : lazy_state V) : Prop := {
  K_history : history u;
  K_content : intersects p INITIALIZED = true → is_Some (content u);
  K_hint : hinted u = true → intersects p INITIALIZED = true;
}.

Record lazy_R (p : Phase) (d : nat * option V) : Prop := {
  R_content : intersects p INITIALIZED = true → is_Some d.2;
  R_none : intersects p INITIALIZED = false → d.2 = None;
  R_failed n : intersects p INITIALIZED = false → (n < d.1)%nat → f n = None;
  R_fresh : p = empty_flags → d.1 = 0%nat;
}.

Definition lazy_contract : contract (lazy_state V) (nat * option V) :=
  Contract lazy_view lazy_K lazy_R (λ p, intersects p INITIALIZED) (λ _, false).

(** ** The initialisation closure *)

Context {G : Type} {P : PCM G} {spec : PhaseLockerSpec (G:=G) ops lazy_contract l}.
#[local] Arguments ok : simpl never.

Abbreviation shall := (shall_init (InitializedChecker Tol)).

(** A run of the generator under the write lock of an uninitialised object. *)
Lemma generator_run p r (u : lazy_state V) :
  shall p = true → lazy_R p (r, None) → lazy_view u = (r, None) → lazy_K p u →
  lazy_K p (LazyState (S (runs u)) (stores u) (content u) (seen u) (hinted u)).
Proof.
  intros Hsh HR [= Hr Hc] [[] HKc HKh]. pose proof (shall_init_not_initialized _ _ Hsh) as Hni.
  split; [split|done|done]; simpl in *.
  - intros n Hn. apply (R_failed _ _ HR); [done|simpl; lia].
  - intros v Hv. by rewrite Hc in Hv.
  - by rewrite Hc in *.
  - done.
  - intros Hif. simpl in Hsh. rewrite Hif in Hsh. apply is_empty_true in Hsh.
    pose proof (R_fresh _ _ HR Hsh) as Hz. simpl in Hz. lia.
Qed.

(** Storing the value of the run that succeeded. *)
Lemma store_value p r v (u : lazy_state V) :
  f r = Some v → lazy_view u = (S r, None) → lazy_K p u →
  intersects p INITIALIZED = false → lazy_K p (mem_set tt (Some v) u).
Proof.
  intros Hf [= Hr Hc] [[] HKc HKh] Hni. split; [split|done|done]; simpl in *.
  - done.
  - intros v' [= <-]. by exists r.
  - rewrite Hc in *. lia.
  - intros v' Hv'. by specialize (seen_stored0 _ Hv'); rewrite Hc in seen_stored0.
  - done.
Qed.

Lemma closure_ok t p d :
  impl_data (impl_of t) = KUnInited →
  shall p = true → lazy_R p d → phase_range p →
  init_ok (c:=lazy_contract) (l:=l) (gz_init_closure (the_lazy t)) tt p d
    (empty_flags .| INITIALIZED) init_panic.
Proof.
  intros Hdata Hsh HR Hp. pose proof (shall_init_not_initialized _ _ Hsh) as Hni.
  destruct d as [r ct]. pose proof (R_none _ _ HR Hni) as Hct. simpl in Hct. subst ct.
  unfold init_ok, gz_init_closure, the_lazy, from_generator, gz_new. rewrite Hdata.
  cbn [gz_generator gz_data data_of UnInited data_init].
  apply ok_bind. unfold generator. apply ok_bind.
  eapply ok_mono; [apply spec_write; [done|intros u; by apply generator_run]|cbv beta|by intros ? []].
  intros n h (u & [= <- Hc] & _ & -> & ->). cbn [fst snd].
  unfold lazy_contract at 1. cbn [view]. unfold lazy_view. cbn [runs content]. rewrite Hc.
  destruct (f (runs u)) as [v|] eqn:Hf.
  - cbv beta iota delta [ok].
    eapply ok_mono; [apply (spec_write (c:=lazy_contract)); [done|]|cbv beta|by intros ? []].
    { intros u' Hu' HK. eapply store_value; eauto. }
    intros [] h (u' & [= Hr' _] & _ & _ & ->). eexists. split; [reflexivity|].
    cbn [view lazy_contract lazy_view snd]. unfold lazy_view. cbn [mem_set lazy_memory runs content].
    rewrite Hr'. split_and!.
    + intros u'' [= _ Hc''] HK. split; [by destruct HK|by rewrite Hc''|by intros; apply or_initialized].
    + split; simpl; rewrite ?or_initialized; try done.
      intros Habs. pose proof (or_initialized empty_flags) as Hor. rewrite Habs in Hor.
      by rewrite intersects_empty in Hor.
    + intros _. apply or_initialized.
  - eexists. split; [reflexivity|]. pose proof init_panic_not_initialized as Hnp.
    split_and!.
    + intros u'' _ HK. split; [by destruct HK|by rewrite Hnp|].
      intros Hh. apply (K_hint _ _ HK) in Hh. by rewrite Hh in Hni.
    + split; simpl; rewrite ?Hnp; try done.
      * intros n _ Hn. destruct (decide (n = runs u)) as [->|]; [done|].
        apply (R_failed _ _ HR); [done|simpl; lia].
      * intros Habs. apply (f_equal is_empty) in Habs. revert Habs. unfold init_panic.
        by rewrite !is_empty_eq, !flags_or_eq, empty_flags_eq.
    + cbn [pub lazy_contract]. by rewrite Hni.
Qed.

(** ** The methods *)

(** The types without finalisation: [Lazy], [LesserLazy], [UnSyncLazy]. *)
Definition plain (t : lazy_type) : Prop :=
  impl_checker (impl_of t) = CInitialized ∧ impl_data (impl_of t) = KUnInited ∧
  (impl_manager (impl_of t) = SyncSequentializer ∨ impl_manager (impl_of t) = UnSyncSequentializer).

Abbreviation known := (pub_of (c:=lazy_contract) (l:=l)).

Lemma known_initialized p : intersects p INITIALIZED = true → known p = own_pub.
Proof. intros H. unfold pub_of. cbn [pub lazy_contract]. by rewrite H. Qed.

Lemma phase_method_ok t :
  plain t →
  ok linv (lazy_phase (the_lazy t)) pcm_unit (λ p h, h = known p ∧ phase_range p) (λ _, False).
Proof.
  intros (_ & _ & Hm). unfold lazy_phase, gz_phase, the_lazy, from_generator, gz_new. simpl.
  destruct Hm as [-> | ->]; exact spec_phase.
Qed.

Lemma init_method_ok t :
  plain t →
  ok linv (lazy_init_method (the_lazy t)) pcm_unit
    (λ q h, h = known q ∧ lazy_reached shall q) (λ _, True).
Proof.
  intros (Hc & Hd & Hm).
  eapply ok_mono with
    (Q := λ q h, h = known q ∧ phase_range q ∧ lazy_reached shall q);
    [|intros q h (? & _ & ?); done|intros h Hh; exact I].
  pose proof (lazy_init_ok (spec:=spec) (gz_seq (the_lazy t)) eq_refl shall
    (gz_init_closure (the_lazy t)) (λ p d, closure_ok t p d Hd)) as Hok.
  unfold lazy_init_method, gz_init.
  replace (shall_init (gz_policy (the_lazy t))) with shall
    by (unfold the_lazy, from_generator, gz_new; simpl; by rewrite Hc).
  replace (gz_man (the_lazy t)) with
    (plain_sequentializer ops (@GenericLazySeq L unit) unit) by
    (unfold the_lazy, from_generator, gz_new; simpl; by destruct Hm as [-> | ->]).
  eapply ok_mono; [exact Hok|done|]. intros h _. exact I.
Qed.

(** Dereferencing in a phase known to be initialised. *)
Lemma as_ref_ok Qp :
  ok linv (as_ref (U:=lazy_state V) (V:=V) tt) own_pub (λ _ h, h = own_pub) Qp.
Proof.
  apply ok_bind. eapply ok_mono; [apply spec_pub; [done|done|by intros p u _ HK]|cbv beta|by intros ? []].
  intros v h (u & p & Hp & HK & -> & ->). cbn [fst mem_get lazy_memory].
  by destruct (K_content _ _ HK Hp) as [v ->].
Qed.

Lemma read_ref_ok Qp : ok linv (read_ref tt) own_pub (λ _ h, h = own_pub) Qp.
Proof.
  apply ok_bind. eapply ok_mono; [apply spec_pub; [done|..]|cbv beta|by intros ? []].
  - done.
  - intros p u Hp HK. split; [|by destruct HK..]. destruct HK as [[] HKc HKh].
    destruct (HKc Hp) as [v Hv]. split; simpl; rewrite ?Hv in *; try done.
    intros v' [-> | Hv']%elem_of_cons; auto.
  - intros v h (u & p & Hp & HK & -> & ->). cbn [fst].
    by destruct (K_content _ _ HK Hp) as [v ->].
Qed.

Lemma lazy_get_ok t :
  plain t → ok linv (lazy_get (the_lazy t)) pcm_unit (λ _ h, h = own_pub) (λ _, True).
Proof.
  intros Ht. unfold lazy_get, init_then_get, init_then_try_get. apply ok_bind, ok_bind.
  eapply ok_mono; [by apply init_method_ok|cbv beta|done]. intros q h [-> Hq].
  unfold post_init_check_access.
  replace (gz_policy (the_lazy t)) with (InitializedChecker Tol)
    by (unfold the_lazy, from_generator, gz_new; simpl; by rewrite (proj1 Ht)).
  destruct (post_init_is_accessible _ q) eqn:Hacc; cbn [map_result]; [|exact I].
  rewrite known_initialized by (by eapply initialized_checker_access).
  apply ok_bind. eapply ok_mono; [apply as_ref_ok with (Qp := λ _, True)|cbv beta|done].
  by intros [] h ->.
Qed.

Lemma lazy_try_get_ok t :
  plain t →
  ok linv (lazy_try_get (the_lazy t)) pcm_unit
    (λ r h, match r with Ok _ => h = own_pub | Err _ => True end) (λ _, False).
Proof.
  intros Ht. unfold lazy_try_get, try_get. apply ok_bind.
  eapply ok_mono; [by apply phase_method_ok|cbv beta|done]. intros p h [-> _].
  unfold check_access.
  replace (gz_policy (the_lazy t)) with (InitializedChecker Tol)
    by (unfold the_lazy, from_generator, gz_new; simpl; by rewrite (proj1 Ht)).
  cbn [is_accessible InitializedChecker]. destruct (intersects p INITIALIZED) eqn:Hp;
    cbn [map_result]; [|exact I].
  rewrite known_initialized by done. apply ok_bind.
  eapply ok_mono; [apply as_ref_ok with (Qp := λ _, False)|cbv beta|done]. by intros [] h ->.
Qed.

(** The hint tells that the object is initialised. *)
Lemma hint_ok enabled :
  ok linv (global_inited_hint enabled) pcm_unit
    (λ (b : bool) h, h = if b then own_pub else pcm_unit) (λ _, False).
Proof.
  destruct enabled; [|done]. apply (spec_observe _ (λ b : bool, b)); [done|].
  intros p u HK Hh. by apply (K_hint _ _ HK).
Qed.

Lemma global_get_ok enabled t :
  plain t → ok linv (global_get enabled (the_lazy t)) pcm_unit (λ _ h, h = own_pub) (λ _, True).
Proof.
  intros Ht. apply ok_bind. eapply ok_mono; [apply hint_ok|cbv beta|done].
  intros [] h ->; [apply as_ref_ok|by apply lazy_get_ok].
Qed.

Lemma global_try_get_ok enabled t :
  plain t →
  ok linv (global_try_get enabled (the_lazy t)) pcm_unit
    (λ r h, match r with Ok _ => h = own_pub | Err _ => True end) (λ _, False).
Proof.
  intros Ht. apply ok_bind. eapply ok_mono; [apply hint_ok|cbv beta|done].
  intros [] h ->; [|by apply lazy_try_get_ok].
  apply ok_bind. eapply ok_mono; [apply as_ref_ok with (Qp := λ _, False)|cbv beta|done].
  by intros [] h ->.
Qed.

Abbreviation safe p := (ok linv p pcm_unit (λ _ (_ : G), True) (λ _ : G, False)).

(** Every implementation of [LazyAccess] does what its clients ask. *)
Lemma lazy_access_ok enabled t A :
  plain t → lazy_access enabled t = Some A → access_ok (A:=A) read_ref (the_lazy t) linv own_pub.
Proof.
  intros Ht HA.
  assert (∀ g tg, ok linv g pcm_unit (λ _ h, h = own_pub) (λ _, True) →
    ok linv tg pcm_unit (λ r h, match r with Ok _ => h = own_pub | Err _ => True end) (λ _, False) →
    access_ok (A:={| access_get _ := g; access_try_get _ := tg; access_phase := lazy_phase;
                     access_init := lazy_init_method |}) read_ref (the_lazy t) linv own_pub) as Hok.
  { intros g tg Hg Htg. split; [done..| | |intros []].
    - eapply ok_mono; [by apply phase_method_ok|done..].
    - eapply ok_mono; [by apply init_method_ok|done..].
    - eapply ok_mono; [apply read_ref_ok with (Qp := λ _, False)|done..]. }
  pose proof (lazy_get_ok t Ht) as Hg. pose proof (lazy_try_get_ok t Ht) as Htg.
  unfold lazy_access in HA. destruct (impl_methods (impl_of t)); try done; injection HA as <-.
  - destruct (Hok _ _ Hg Htg). by split.
  - destruct (Hok _ _ Hg Htg). by split.
  - destruct (Hok _ _ (global_get_ok enabled t Ht) (global_try_get_ok enabled t Ht)). by split.
  - destruct (Hok _ _ Hg Htg). by split.
Qed.

Lemma lazy_client_ok enabled t script : plain t → safe (lazy_client enabled t script).
Proof.
  intros Ht. unfold lazy_client. destruct (lazy_access enabled t) as [A|] eqn:HA; [|exact I].
  eapply access_client_ok. by eapply lazy_access_ok.
Qed.

(** The constructor of a generator that may be called again: its end proves the
    object initialised. *)
Lemma constructor_ok t :
  INIT_FAILURE Tol = true → plain t →
  ok linv (constructor t) pcm_unit (λ _ _, True) (λ _, True).
Proof.
  intros HT Ht. apply ok_bind. eapply ok_mono; [by apply init_method_ok|cbv beta|done].
  intros q h [-> Hq]. rewrite known_initialized by (by eapply initialized_checker_retry).
  eapply ok_mono; [apply spec_pub; [done|..]|done|by intros ? []].
  - done.
  - intros p u Hp HK. by destruct HK as [[] ??].
Qed.

(** The thread that runs the constructor before [main]. *)
Definition constructor_thread (t : lazy_type) : prog (lazy_state V) unit := _ ← catch (constructor t); Ret tt.

(** What is said of a quasi-lazy: the guarantees of [Lazy], and that a hint that is
    set tells that the object is initialised. *)
Definition hint_kept (ps : list (prog (lazy_state V) unit)) (u : lazy_state V) : Prop :=
  no_panic ps ∧ history u ∧ (hinted u = true → is_Some (content u)).

Lemma lesser_pool_safe enabled scripts s ps s' :
  INIT_FAILURE Tol = true → linv s pcm_unit →
  reachable (constructor_thread LesserLazy :: (lazy_client enabled LesserLazy <$> scripts)) s ps s' →
  hint_kept ps (usr s').
Proof.
  intros HT Hinv Hreach. assert (plain LesserLazy) as Hplain by (repeat split; by left).
  apply safe_pool in Hreach as (? & p & HK); [| |done].
  - split; [done|]. split; [by apply (K_history _ _ HK)|].
    intros Hh. apply (K_content _ _ HK). by apply (K_hint _ _ HK).
  - constructor; [|apply Forall_fmap, Forall_true; intros script; by apply lazy_client_ok].
    apply ok_bind, ok_catch. by eapply ok_mono; [by apply constructor_ok| |].
Qed.

Lemma fresh_K : lazy_K empty_flags fresh.
Proof.
  split; [split|..]; simpl; try done; try lia; rewrite ?intersects_empty; try done.
  by intros v Hv%elem_of_nil.
Qed.

Lemma fresh_R : lazy_R empty_flags (lazy_view fresh).
Proof. split; simpl; rewrite ?intersects_empty; done || lia. Qed.
End lazies.

(** ** Properties *)

Section props.
Context {BF : Bitflags} {V : Type} `{!EqDecision V}.

Lemma spin_start Tol (f : nat → option V) l (s : state (lazy_state V)) :
  rd s l = SpinLocker.new empty_flags → usr s = fresh →
  cell_inv (lazy_contract Tol f) l SpinLocker.max_readers s pcm_unit.
Proof.
  intros Hrd Hu. eapply spin_inv_new; [auto with phase|exact Hrd|..]; rewrite Hu;
    [apply fresh_K|apply fresh_R].
Qed.

(** A [Lazy] on the spinning locker, shared by any number of threads, which dereference it, try to,
    ask its phase and initialise it in any order and interleaving, for a
    generator that returns or panics as it likes on each of its runs. No access
    is to an uninitialised value and no operation but a caught one panics. The
    generator is run again only after a run that panicked, never if it is an
    [FnOnce]; at most one value is ever stored, that of the last run; and every
    reference that any thread has read through showed that value. *)
Theorem lazy_exactly_once Tol (f : nat → option V) fuel (l : SyncPhaseLocker) scripts s ps s' :
  rd s l = SpinLocker.new empty_flags → usr s = fresh →
  reachable (lazy_client (ops:=spin_locker fuel) Tol f l false Lazy <$> scripts) s ps s' →
  no_panic ps ∧ history Tol f (usr s').
Proof.
  intros Hrd Hu Hreach.
  apply (safe_pool (spec:=spin_spec fuel (lazy_contract Tol f) l)) in Hreach
    as (? & p & []); [done| |by apply spin_start].
  apply Forall_fmap, Forall_true. intros script. apply lazy_client_ok. repeat split. by left.
Qed.

(** Nothing in an unsynchronised lazy waits. *)
Lemma unsync_lazy_fuel_free Tol (f : nat → option V) (l : UnSyncPhaseLocker) script :
  fuel_free (lazy_client Tol f l false UnSyncLazy script).
Proof.
  unfold lazy_client, lazy_access. cbn [impl_of impl_methods].
  induction script as [|c script IH]; [done|]. apply fuel_free_bind; [|done].
  destruct c; cbn [access_cmd access_get access_try_get access_phase access_init deref_access];
    unfold lazy_get, lazy_try_get, lazy_phase, lazy_init_method, init_then_get, init_then_try_get,
      try_get, gz_phase, gz_init; cbn -[do_transition fuel_free unsync_locker];
    unfold lazy_init, lazy_initialization_only, seq_phase, do_transition, transition, gz_init_closure,
      generator, as_ref, read_ref;
    cbn -[fuel_free];
    unfold UnSync.lock, UnSync.guard_drop, UnSync.read_phase, UnSync.read_drop, UnSync.phase;
    repeat (fuel_free_step || unfold write_data, map_result, unwrap).
Qed.

(** An [UnSyncLazy] and any sequence of accesses, whatever its generator
    does: the run comes to its end without undefined behaviour or a panic that
    is not caught, and the guarantees of [Lazy] hold there. *)
Theorem unsync_lazy_safe Tol (f : nat → option V) (l : UnSyncPhaseLocker) script s :
  rd s l = UnSync.new empty_flags → usr s = fresh →
  let '(r, s') := run (lazy_client Tol f l false UnSyncLazy script) [] s in
  r = Returned tt ∧ history Tol f (usr s').
Proof.
  intros Hrd Hu.
  assert (cell_inv (lazy_contract Tol f) l UnSync.max_readers s (pcm_unit ⋅ pcm_unit)) as Hinv.
  { exists empty_flags, 0, false. rewrite Hrd, <- phase_word, Hu.
    split; [done|]. split; [auto with phase|]. split; [apply fresh_K|]. split; [done|].
    simpl. split_and!; [done..|apply fresh_R]. }
  pose proof (fuel_free_run _ [] s (unsync_lazy_fuel_free Tol f l script)) as Hff.
  assert (plain UnSyncLazy) as Hplain by (repeat split; by right).
  pose proof (lazy_client_ok (spec:=unsync_spec (lazy_contract Tol f) l) Tol f l false _ script Hplain)
    as Hok.
  pose proof (ok_run _ _ [] _ _ _ _ _ Hok Hinv) as Hrun.
  destruct (run _ [] s) as [[[]| | | |] s']; simpl in *; [|by destruct Hrun as (? & _ & [])|done|by destruct Hff..].
  destruct Hrun as (g & Hinv' & _). split; [done|].
  destruct (inv_K _ _ _ _ _ Hinv') as (p & _ & HK). by apply (K_history _ _ _ _ HK).
Qed.
End props.

(** C34: the same is not true of a quasi-lazy declared with [try_init_once]. When
    an access before the constructor panics and the panic is caught, the
    constructor finds an object that is not to be initialised again, returns
    from it as from a success and sets the hint; the next access, which the hint
    sends past the test of the phase, is to a value that was never written. *)
Theorem try_init_once_hint_unsound {V : Type} (f : nat → option V) script :
  let l : SyncPhaseLocker := 1%positive in
  let lesser := λ cmds, lazy_client (BF:=bitflags_1) (ops:=spin_locker (BF:=bitflags_1) 3) fn_once_tolerance
                          (λ n, if n is S n then f n else None) l true LesserLazy cmds in
  let s : state (lazy_state V) := State {[ l := SpinLocker.new 0 ]} fresh in
  let before := run (lesser [LGet];;
                     constructor (BF:=bitflags_1) (ops:=spin_locker (BF:=bitflags_1) 3) fn_once_tolerance
                       (λ n, if n is S n then f n else None) l LesserLazy) [] s in
  before.1 = Returned tt ∧ hinted (usr before.2) = true ∧ content (usr before.2) = None ∧
  (run (lesser (LGet :: script)) [] before.2).1 = Undefined.
Proof.
  cbv zeta. split_and!; [vm_compute; reflexivity..|].
  unfold lazy_client, lazy_access. cbn [impl_of impl_methods access_client]. rewrite run_bind. vm_compute. reflexivity.
Qed.

(** Two threads and a generator that panics once; a thread with a reference, a
    thread that tries. *)
Definition demo_generator (n : nat) : option Z := if decide (n = 0%nat) then None else Some 7.

Lemma lazy_exactly_once_witness :
  let l := 1%positive in
  let s := State (<[l := SpinLocker.new 0]> ∅) (fresh (V:=Z)) in
  let pool := lazy_client (BF:=bitflags_1) (ops:=spin_locker (BF:=bitflags_1) 5) fn_tolerance demo_generator l false Lazy
                <$> [[LGet; LGet]; [LTryGet]] in
  (no_panic pool ∧ history fn_tolerance demo_generator (usr s)) ∧
  (run (lazy_client (BF:=bitflags_1) (ops:=spin_locker (BF:=bitflags_1) 5) fn_tolerance demo_generator l false Lazy [LGet; LGet; LTryGet]) [] s).1
    = Returned tt.
Proof.
  split; [|vm_compute; reflexivity].
  apply (lazy_exactly_once (BF:=bitflags_1) fn_tolerance demo_generator 5 1%positive [[LGet; LGet]; [LTryGet]]
           (State (<[1%positive := SpinLocker.new 0]> ∅) fresh));
    [reflexivity|reflexivity|apply rtc_refl].
Defined.

Lemma unsync_lazy_safe_witness :
  let s := State ∅ (fresh (V:=Z)) in
  let '(r, s') := run (lazy_client (BF:=bitflags_1) (ops:=unsync_locker (BF:=bitflags_1)) fn_once_tolerance demo_generator
                         (1%positive : UnSyncPhaseLocker) false UnSyncLazy [LTryGet; LGet; LInit]) [] s in
  r = Returned tt ∧ history fn_once_tolerance demo_generator (usr s').
Proof.
  apply (unsync_lazy_safe (BF:=bitflags_1) fn_once_tolerance demo_generator
           (1%positive : UnSyncPhaseLocker) [LTryGet; LGet; LInit] (State ∅ fresh)); reflexivity.
Defined.
