(* ===== verification/LockedSafety.v ===== *)
(** * Locked lazies are locks around an initialised value

    The lazies [LockedLazy] and [UnSyncLockedLazy] implement the interface
    [LockedLazySpec]: no script of their users reaches an uninitialised value or
    sees a value change behind a guard. *)

From stdpp Require Import base list option numbers gmap relations.
From S2P Require Import Prelude Word Phase Atomics Locker Clients Tokens UnSync SpinLocker Sequentializer Policy Traits GenericLazy Lazy LazyTypes LockedClients LazySafety.
Open Scope Z_scope.

Section locked.
Context {BF : Bitflags} {V L : Type} `{!EqDecision V} {ops : PhaseLocker (lazy_state V) L}.
Context (Tol : GeneratorTolerance) (f : nat → option V) (l : L) (t : lazy_type).
Abbreviation this := (the_lazy Tol f l t).

(** ** The contract: initialised phases are those of a stored value *)

Definition locked_R (p : Phase) (d : option V) : Prop := intersects p INITIALIZED = true → is_Some d.

Definition locked_contract : contract (lazy_state V) (option V) :=
  Contract content (λ _ _, True) locked_R (λ _, false) (λ _, false).

Context {G : Type} {P : PCM G} {spec : PhaseLockerSpec (G:=G) ops locked_contract l}.
Context (Ht : plain t).
#[local] Arguments ok : simpl never.

Abbreviation shall := (shall_init (InitializedChecker Tol)).

Lemma locked_closure_ok p d : init_ok (c:=locked_contract) (l:=l) (gz_init_closure this) tt p d
    (empty_flags .| INITIALIZED) init_panic.
Proof using Ht.
  destruct Ht as (_ & Hdata & _).
  unfold init_ok, gz_init_closure, the_lazy, from_generator, gz_new. rewrite Hdata.
  cbn [gz_generator gz_data data_of UnInited data_init].
  apply ok_bind. unfold generator. apply ok_bind.
  eapply ok_mono; [by apply spec_write|cbv beta|by intros ? []].
  intros n h (u & <- & _ & _ & ->). destruct (f n) as [v|]; cbv beta iota delta [ok].
  - eapply ok_mono; [by apply (spec_write (c:=locked_contract))|cbv beta|by intros ? []].
    intros [] h (u' & _ & _ & _ & ->). eexists. split; [reflexivity|]. split_and!; [done|by intros _; eexists|done].
  - eexists. split; [reflexivity|]. split_and!; [done| |done].
    intros H. by rewrite init_panic_not_initialized in H.
Qed.

Lemma init_panicked_unit h : init_panicked (c:=locked_contract) (l:=l) h → h = pcm_unit.
Proof using. by intros [[-> _]|[q ->]]. Qed.

Lemma this_policy : gz_policy this = InitializedChecker Tol.
Proof using Ht. unfold the_lazy, from_generator, gz_new. simpl. by rewrite (proj1 Ht). Qed.

Lemma this_man : gz_man this = plain_sequentializer ops (@GenericLazySeq L unit) unit.
Proof using Ht.
  destruct Ht as (_ & _ & Hm). unfold the_lazy, from_generator, gz_new. simpl.
  by destruct Hm as [-> | ->].
Qed.

Lemma this_locker : seq_locker (sequentializer (gz_seq this)) = l.
Proof using. done. Qed.

Tactic Notation "init_method" uconstr(lem) :=
  unfold init_then_read_lock_unchecked, fast_init_then_read_lock_unchecked,
    init_then_write_lock_unchecked, fast_init_then_write_lock_unchecked;
  rewrite this_man, ?this_policy;
  eapply ok_mono; [apply lem; auto using locked_closure_ok|done|apply init_panicked_unit].

Lemma locked_lazy_spec :
  LockedLazySpec (c:=locked_contract) (l:=l) this id (λ v _, Some v) (lazy_reached shall).
Proof using Ht.
  split; try done.
  - intros p q d v _ [w Hw] (HK & HR & Hm). split_and!; [done|by intros _; eexists|done].
  - rewrite this_policy. intros p d HR Hp. by apply HR.
  - rewrite this_policy. intros q Hq. by apply initialized_checker_access.
  - unfold gz_phase. rewrite this_man. eapply ok_mono; [apply spec_phase|by intros p h [-> _]|done].
  - apply plain_read_ok; rewrite ?this_man; cbn; auto with phase.
  - apply plain_fast_read_ok; rewrite ?this_man; cbn; auto with phase.
  - apply plain_write_ok; rewrite ?this_man; cbn; auto with phase.
  - apply plain_fast_write_ok; rewrite ?this_man; cbn; auto with phase.
  - init_method (lazy_init_then_read_guard_ok (spec:=spec) (gz_seq this) this_locker shall).
  - init_method (lazy_try_init_then_read_guard_ok (spec:=spec) (gz_seq this) this_locker shall).
  - init_method (lazy_init_then_write_guard_ok (spec:=spec) (gz_seq this) this_locker shall).
  - init_method (lazy_try_init_then_write_guard_ok (spec:=spec) (gz_seq this) this_locker shall).
Qed.
End locked.

(** ** Properties *)

Section props.
Context {BF : Bitflags} {V : Type} `{!EqDecision V}.

(** Any number of threads share a [LockedLazy] on the spinning locker and use all of its methods as
    their scripts say, on a generator that returns or panics at each run as it
    likes. Every guard ever granted is of an initialised value; the value under
    a guard changes through that guard only; nothing panics but the calls that
    the clients catch. *)
Theorem locked_lazy_safe Tol (f : nat → option V) fuel (l : SyncPhaseLocker) scripts s ps s' :
  rd s l = SpinLocker.new empty_flags → Forall (Forall (locked_cmd_ok true)) scripts →
  reachable ((λ script, locked_client (the_lazy (ops:=spin_locker fuel) Tol f l LockedLazy) script []) <$> scripts) s ps s' →
  no_panic ps.
Proof.
  intros Hrd Hs.
  assert (plain LockedLazy) as Hplain by (repeat split; by left).
  apply (ok_pool_no_panic (cell_inv locked_contract l SpinLocker.max_readers) _
           (replicate (length scripts) pcm_unit)).
  - by apply (locked_pool_ok _ (spec:=spin_spec fuel locked_contract l)
      (LL:=locked_lazy_spec Tol f l LockedLazy (spec:=spin_spec fuel locked_contract l) Hplain)).
  - rewrite pcm_sum_replicate_unit. eapply spin_inv_new; [auto with phase|exact Hrd|done|].
    intros H. by rewrite intersects_empty in H.
Qed.
End props.

Lemma locked_lazy_safe_witness :
  let l := 1%positive in
  let s := State (<[l := SpinLocker.new 0]> ∅) (fresh (V:=Z)) in
  let script := [KTryRead; KRead; KWrite; KAssign 0 8; KCheck 0; KDowngrade 0; KFastWrite; KClone 0;
                 KDrop 0; KCheck 0; KDrop 0; KFastTryWrite; KCheck 0] in
  let thread script := locked_client (the_lazy (BF:=bitflags_1) (ops:=spin_locker (BF:=bitflags_1) 5)
                         fn_tolerance demo_generator l LockedLazy) script [] in
  no_panic (thread <$> [script; [KRead; KCheck 0]]) ∧
  (run (thread script) [] s).1 = Returned tt.
Proof.
  split; [|vm_compute; reflexivity].
  eapply (locked_lazy_safe (BF:=bitflags_1) fn_tolerance demo_generator 5 1%positive
           [[KTryRead; KRead; KWrite; KAssign 0 8; KCheck 0; KDowngrade 0; KFastWrite; KClone 0;
             KDrop 0; KCheck 0; KDrop 0; KFastTryWrite; KCheck 0]; [KRead; KCheck 0]]
           (State (<[1%positive := SpinLocker.new 0]> ∅) fresh));
    [reflexivity|repeat constructor|apply rtc_refl].
Defined.
