(* ===== verification/SeatedLazies.v ===== *)
(** * The lazies leave the count of waiting writers to the locker

    What a lazy does beside calling its locker touches the storage, the register and
    the world of its user only, so that over a locker whose operations are [seated]
    its methods are, and so are the threads that use it and the ones that finalise
    it: the assertions on the count that [Seats] rules out do not fail in them
    either. *)

From stdpp Require Import base list option numbers.
From S2P Require Import Prelude Word Phase Atomics Locker Seats Sequentializer Policy Traits GenericLazy Lazy LazyTypes LockedClients LazySafety.
Open Scope Z_scope.

(** ** The sequentializers *)

Section frames.
Context {BF : Bitflags} {U L : Type} {ops : PhaseLocker U L} {wc : loc} {l : L} {SL : SeatedLocker ops wc l}.
Abbreviation seatp := (seated (U:=U) wc false false).

Lemma seat_transition {T A} (g : WriteGuard T) (f : T → prog U A) sp pp :
  on g → (∀ x, seatp (f x)) → seatp (do_transition g f sp pp).
Proof using. intros Hg Hf. unfold do_transition, transition. cbv zeta. seated_tac. Qed.
#[local] Hint Resolve seat_transition : seated.

Lemma seat_initialization_only {T} (g : WriteGuard T) (f : T → prog U unit) :
  on g → (∀ x, seatp (f x)) → seatp (lazy_initialization_only g f).
Proof using. intros Hg Hf. unfold lazy_initialization_only. cbv zeta. seated_tac. Qed.

Context {S Data : Type} `{!Sequential S Data L} (Tol : GeneratorTolerance).
Lemma seat_initialization (g : WriteGuard S) (f : Data → prog U unit) (reg : S → prog U bool) :
  on g → (∀ x, seatp (f x)) → (∀ x, seatp (reg x)) → seatp (lazy_initialization Tol g f reg).
Proof using.
  intros Hg Hf Hreg.
  assert (∀ (g : WriteGuard S) r, on g → seatp (lazy_initialization_registered Tol g f r)) as H.
  { intros g' r Hg'. unfold lazy_initialization_registered. cbv zeta. seated_tac. }
  unfold lazy_initialization. cbv zeta. seated_tac.
Qed.
Lemma seat_finalization {T} (g : WriteGuard T) (f : T → prog U unit) :
  on g → (∀ x, seatp (f x)) → seatp (lazy_finalization g f).
Proof using. intros Hg Hf. unfold lazy_finalization. cbv zeta. seated_tac. Qed.

End frames.

(** A sequentializer whose operations on an object are seated, for closures that
    are. *)
Class SeatedSequentializer {U L} {ops : PhaseLocker U L} {wc : loc} {l : L} (SL : SeatedLocker ops wc l)
    {T Data : Type} (man : LazySequentializerTrait ops T Data) (s : T) := {
  ss_phase : seated wc false false (sq_phase (SequentializerTrait := ls_super) s);
  ss_lock how hint : seated wc false false (sq_lock (SequentializerTrait := ls_super) s how hint);
  ss_try_lock how hint : seated wc false false (sq_try_lock (SequentializerTrait := ls_super) s how hint);
  ss_init shall f : (∀ x, seated wc false false (f x)) → seated wc false false (ls_init s shall f);
  ss_init_read shall f :
    (∀ x, seated wc false false (f x)) → seated wc false false (ls_init_then_read_guard s shall f);
  ss_init_write shall f :
    (∀ x, seated wc false false (f x)) → seated wc false false (ls_init_then_write_guard s shall f);
  ss_try_init_read shall f :
    (∀ x, seated wc false false (f x)) → seated wc false false (ls_try_init_then_read_guard s shall f);
  ss_try_init_write shall f :
    (∀ x, seated wc false false (f x)) → seated wc false false (ls_try_init_then_write_guard s shall f);
}.
#[export] Hint Resolve seat_transition seat_initialization_only seat_initialization seat_finalization : seated.

Section sequentializers.
Context {BF : Bitflags} {U L : Type} {ops : PhaseLocker U L} {wc : loc} {l : L} (SL : SeatedLocker ops wc l).
Context {S Data : Type} `{!Sequential S Data L} (s : S) (Hl : seq_locker (sequentializer s) = l).
Abbreviation seatp := (seated (U:=U) wc false false).

Definition plain_seated : SeatedSequentializer SL (plain_sequentializer ops S Data) s.
Proof using Hl.
  split; intros; cbn [plain_sequentializer generic_sequentializer ls_super sq_phase sq_lock sq_try_lock ls_init
    ls_init_then_read_guard ls_init_then_write_guard ls_try_init_then_read_guard ls_try_init_then_write_guard];
    unfold seq_phase, seq_lock, seq_try_lock, lazy_init, lazy_init_then_read_guard, lazy_init_then_write_guard,
      lazy_try_init_then_read_guard, lazy_try_init_then_write_guard, seq_lock, seq_try_lock;
    cbv zeta; rewrite ?Hl; seated_tac.
Qed.

Context (Tol : GeneratorTolerance) (reg : S → prog U bool) (Hreg : ∀ x, seatp (reg x)).

Definition exit_seated : SeatedSequentializer SL (exit_sequentializer ops S Data Tol reg) s.
Proof using Hl Hreg.
  split; intros; cbn [exit_sequentializer exit_locks sub finalizable_sequentializer generic_sequentializer ls_super
    fs_super sq_phase sq_lock sq_try_lock ls_init ls_init_then_read_guard ls_init_then_write_guard
    ls_try_init_then_read_guard ls_try_init_then_write_guard fs_init fs_init_then_read_guard fs_init_then_write_guard
    fs_try_init_then_read_guard fs_try_init_then_write_guard];
    unfold seq_phase, seq_lock, seq_try_lock, fin_init, fin_init_then_read_guard, fin_init_then_write_guard,
      fin_try_init_then_read_guard, fin_try_init_then_write_guard, whole_lock, try_whole_lock;
    cbv zeta; rewrite ?Hl; seated_tac.
Qed.

Lemma seat_execute finaly :
  (∀ x, seatp (finaly x)) → seatp (execute ops S Data Tol finaly s).
Proof using Hl SL.
  intros Hf. unfold execute. cbn [sub finalizable_sequentializer fs_finalize_callback].
  unfold finalize_callback. cbv zeta. rewrite Hl. seated_tac.
Qed.
End sequentializers.

(** ** The lazies *)

Section lazies.
Context {BF : Bitflags} {U L : Type} {ops : PhaseLocker U L} {wc : loc} {l : L} (SL : SeatedLocker ops wc l).
Context {X V : Type} `{!Memory U X V}.
Abbreviation seatp := (seated (U:=U) wc false false).

Lemma seat_as_ref x : seatp (as_ref (V:=V) x).
Proof using. unfold as_ref. seated_tac. Qed.
Lemma seat_drop_in_place (drop : V → prog U unit) x : (∀ v, seatp (drop v)) → seatp (drop_in_place drop x).
Proof using. intros Hd. unfold drop_in_place. seated_tac. Qed.
#[local] Hint Resolve seat_as_ref seat_drop_in_place : seated.

Section data.
Context (drop : V → prog U unit) (finaly uninit : X → prog U unit).
Context (Hdrop : ∀ v, seatp (drop v)) (Hfin : ∀ x, seatp (finaly x)) (Hun : ∀ x, seatp (uninit x)).

Lemma seat_data_init k x v : seatp (data_init (data_of k drop finaly uninit) x v).
Proof using Hdrop. destruct k; cbn [data_of UnInited Primed DropedUnInited data_init]; unfold write_data, assign_data; seated_tac. Qed.
Lemma seat_data_finaly k x : seatp (data_finaly (data_of k drop finaly uninit) x).
Proof using Hdrop Hfin Hun. destruct k; cbn [data_of UnInited Primed DropedUnInited data_finaly]; seated_tac. Qed.
End data.

(** A lazy whose sequentializer, generator and storage are seated. *)
Context (this : @GenericLazy U L ops X V).
Class SeatedLazy := {
  slz_man :: SeatedSequentializer SL (gz_man this) (gz_seq this);
  slz_init x : seatp (gz_init_closure this x);
}.
Context {HL : SeatedLazy}.
#[local] Hint Resolve slz_init slz_man ss_phase ss_lock ss_try_lock ss_init ss_init_read ss_init_write ss_try_init_read
  ss_try_init_write : seated.

Lemma seat_checked_read check (g : ReadGuard X) :
  on g → seatp (checked_read_access check g) ∧ seatp (post_init_checked_read_access check g).
Proof using SL.
  intros Hg. unfold checked_read_access, post_init_checked_read_access, check_access, post_init_check_access.
  split; seated_tac.
Qed.
Lemma seat_checked_write check (g : WriteGuard X) :
  on g → seatp (checked_write_access check g) ∧ seatp (post_init_checked_write_access check g).
Proof using SL.
  intros Hg. unfold checked_write_access, post_init_checked_write_access, check_access, post_init_check_access.
  split; seated_tac.
Qed.

Lemma seat_read_unchecked :
  seatp (read_lock_unchecked this) ∧ seatp (fast_read_lock_unchecked this) ∧
  seatp (init_then_read_lock_unchecked this) ∧ seatp (fast_init_then_read_lock_unchecked this).
Proof using HL.
  unfold read_lock_unchecked, fast_read_lock_unchecked, init_then_read_lock_unchecked, fast_init_then_read_lock_unchecked.
  split_and!; seated_tac.
Qed.
Lemma seat_write_unchecked :
  seatp (write_lock_unchecked this) ∧ seatp (fast_write_lock_unchecked this) ∧
  seatp (init_then_write_lock_unchecked this) ∧ seatp (fast_init_then_write_lock_unchecked this).
Proof using HL.
  unfold write_lock_unchecked, fast_write_lock_unchecked, init_then_write_lock_unchecked,
    fast_init_then_write_lock_unchecked.
  split_and!; seated_tac.
Qed.

End lazies.

(** ** The users of locked lazies *)

Section locked.
Context {BF : Bitflags} {U L : Type} {ops : PhaseLocker U L} {wc : loc} {l : L} (SL : SeatedLocker ops wc l).
Context {V : Type} `{!EqDecision V} `{!Memory U unit V}.
Context (this : @GenericLazy U L ops unit V) {HL : SeatedLazy SL this}.
Abbreviation seatp := (seated (U:=U) wc false false).

#[local] Hint Resolve slz_man ss_phase : seated.
#[local] Hint Extern 1 (seated _ _ _ _) =>
  first [apply seat_checked_read|apply seat_checked_write
        |apply seat_read_unchecked|apply seat_write_unchecked] : seated.

Lemma on_of_result {A} `{!On A} (r : result A AccessError) : on r → on (of_result r).
Proof using. by destruct r. Qed.
Lemma on_of_option {A} `{!On A} (r : option (result A AccessError)) : on r → on (of_option r).
Proof using. by destruct r as [[]|]. Qed.
#[local] Hint Resolve on_of_result on_of_option : seated.

Lemma seat_read_method c m : read_method this c = Some m → seatp m.
Proof using HL.
  destruct c; cbn [read_method]; intros [= <-];
    unfold lock_read, lock_fast_read, lock_try_read, lock_fast_try_read, init_then_read_lock, fast_init_then_read_lock,
      try_read_lock, fast_try_read_lock, init_then_try_read_lock, fast_init_then_try_read_lock, map_option, unwrap;
    seated_tac.
Qed.
Lemma seat_write_method c m : write_method this c = Some m → seatp m.
Proof using HL.
  destruct c; cbn [write_method]; intros [= <-];
    unfold lock_write, lock_fast_write, lock_try_write, lock_fast_try_write, init_then_write_lock, fast_init_then_write_lock,
      try_write_lock, fast_try_write_lock, init_then_try_write_lock, fast_init_then_try_write_lock, map_option, unwrap;
    seated_tac.
Qed.
#[local] Hint Resolve seat_read_method seat_write_method : seated.

#[export] Instance on_lazy_held : On (lazy_held (V:=V)) := λ h, match h with LHW g _ => on g | LHR g _ => on g end.

Lemma seat_deref_read (g : ReadGuard unit) : seatp (read_guard_deref (V:=V) g).
Proof using. apply seat_as_ref. Qed.
Lemma seat_deref_write (g : WriteGuard unit) : seatp (write_guard_deref (V:=V) g).
Proof using. apply seat_as_ref. Qed.
Lemma seat_read_value x : seatp (read_value (V:=V) x).
Proof using. unfold read_value. seated_tac. Qed.
#[local] Hint Resolve seat_deref_read seat_deref_write seat_read_value : seated.

Lemma seat_use_guard c hs : on hs → seatp (use_guard c hs).
Proof using SL.
  intros Hhs. destruct c as [| | | | | | | | | |i|i v|i|i|i]; cbn [use_guard]; unfold assign_value;
    try (destruct (hs !! i) as [[g w|g w]|] eqn:E; [assert (on g) as Hg by exact (on_lookup _ _ _ Hhs E)..|]; clear E);
    seated_tac.
Qed.

Lemma seat_locked_cmd c hs : on hs → seatp (run_locked_cmd this c hs).
Proof using HL.
  intros Hhs. unfold run_locked_cmd.
  destruct (read_method this c) as [m|] eqn:Er; [apply seat_read_method in Er; seated_tac|].
  destruct (write_method this c) as [m|] eqn:Ew; [apply seat_write_method in Ew; seated_tac|].
  destruct c; try (by apply seat_use_guard); unfold lock_init, init_then_write_lock, init_then_try_write_lock, unwrap,
    lazy_phase, gz_phase; seated_tac.
Qed.

Lemma seat_locked_client script hs : on hs → seatp (locked_client this script hs).
Proof using HL.
  revert hs. induction script as [|c script IH]; intros hs Hhs; [by repeat split|].
  apply (seated_bind _ false); [by apply seat_locked_cmd|]. intros hs' Hhs'. by apply IH.
Qed.
End locked.

(** ** The lazies without finalisation *)

Section plain.
Context {BF : Bitflags} {V L : Type} {ops : PhaseLocker (lazy_state V) L} {wc : loc} {l : L}.
Context (SL : SeatedLocker ops wc l) (Tol : GeneratorTolerance) (f : nat → option V) (t : lazy_type).
Abbreviation seatp := (seated (U:=lazy_state V) wc false false).

Definition the_lazy_seated :
  impl_manager (impl_of t) = SyncSequentializer → SeatedLazy SL (the_lazy Tol f l t).
Proof using.
  intros Hm. split.
  - unfold the_lazy, from_generator, gz_new. cbn [gz_man gz_seq]. rewrite Hm. by apply plain_seated.
  - intros x. unfold gz_init_closure, the_lazy, from_generator, gz_new. cbn [gz_generator gz_data]. unfold generator.
    assert (∀ v, seatp (data_init (data_of (impl_data (impl_of t)) (λ _ : V, Ret tt) (λ _ : unit, Ret tt)
      (λ _, Ret tt)) x v)) as Hd by (intros v; apply seat_data_init; by repeat split).
    seated_tac.
Qed.

(** The threads of a quasi-lazy. *)
Context (Ht : impl_manager (impl_of t) = SyncSequentializer).
Abbreviation this := (the_lazy Tol f l t).

Lemma seat_gz_init : seatp (gz_init this).
Proof using Ht SL. destruct (the_lazy_seated Ht) as [Hm Hi]. by apply ss_init. Qed.
Lemma seat_gz_phase : seatp (gz_phase this).
Proof using Ht SL. destruct (the_lazy_seated Ht) as [Hm Hi]. apply ss_phase. Qed.
#[local] Hint Resolve seat_gz_init seat_gz_phase seat_as_ref : seated.

Lemma seat_constructor_thread : seatp (constructor_thread Tol f l t).
Proof using Ht SL. unfold constructor_thread, constructor, lazy_init_method, mark_inited. seated_tac. Qed.

Lemma seat_lazy_client enabled script : seatp (lazy_client Tol f l enabled t script).
Proof using Ht SL.
  unfold lazy_client, lazy_access.
  destruct (impl_methods (impl_of t)); try (by repeat split);
    (induction script as [|c script IH]; [by repeat split|]; apply (seated_bind _ false); [|by intros _ _]);
    destruct c; cbn [access_cmd access_get access_try_get access_phase access_init deref_access static_access global_access
      thread_local_access];
    unfold global_get, global_try_get, global_inited_hint, lazy_get, lazy_try_get, lazy_phase, lazy_init_method, init_then_get,
      init_then_try_get, static_get, static_try_get, static_phase, static_init, tl_get, tl_try_get, tl_phase, tl_init,
      global_lazy_phase, global_lazy_init, get_unchecked, as_static, init_then_get, init_then_try_get, try_get, read_ref,
      post_init_check_access, check_access, map_result, unwrap;
    seated_tac.
Qed.
End plain.
