(* ===== verification/PrimedSafety.v ===== *)
(** * Primed lazies always have a value

    A primed lazy can be read before it is initialised, and shows its primed value
    then. Threads that share one use its locks, those of [LockedClients], and its
    primed locks, which initialise or not and tell by their result which of the two
    values they lock. *)

From stdpp Require Import base list option numbers gmap relations.
From S2P Require Import Prelude Word Phase Atomics Locker Clients Tokens Futex FutexLocker FutexInv FutexRules Seats FutexSafety Sequentializer Policy Traits GenericLazy Lazy LazyTypes LockedClients LazySafety LockedSafety SeatedLazies.
Open Scope Z_scope.

Section primed.
Context {BF : Bitflags} {V L : Type} `{!EqDecision V} {ops : PhaseLocker (lazy_state V) L}.
Context (Tol : GeneratorTolerance) (f : nat → option V) (primed : V) (l : L) (t : lazy_type).
Abbreviation this := (the_lazy Tol f l t).
Abbreviation RGuard := (ReadGuard unit).
Abbreviation WGuard := (WriteGuard unit).

(** The state before the program starts: the storage is primed. *)
Definition primed_fresh : lazy_state V := LazyState 0 0 (Some primed) [] false.

(** ** Clients *)

Inductive primed_cmd :=
| PLocked (c : locked_cmd (V:=V))
| PRead | PReadNonInitializing | PWrite | PWriteNonInitializing.

(** A guard of the primed value comes as an error: the client asserts that it is
    the primed value. *)
Definition keep_read (g : RGuard) (hs : list (lazy_held (V:=V))) : prog (lazy_state V) (list lazy_held) :=
  x ← read_guard_deref g; v ← read_value x; Ret (LHR g v :: hs).
Definition keep_primed (g : RGuard) (hs : list (lazy_held (V:=V))) : prog (lazy_state V) (list lazy_held) :=
  x ← read_guard_deref g; v ← read_value x; assert_prog (bool_decide (v = primed));; Ret (LHR g v :: hs).
Definition keep_write (g : WGuard) (hs : list (lazy_held (V:=V))) : prog (lazy_state V) (list lazy_held) :=
  x ← write_guard_deref g; v ← read_value x; Ret (LHW g v :: hs).

Definition run_read (m : prog (lazy_state V) (result RGuard RGuard)) (hs : list (lazy_held (V:=V)))
    : prog (lazy_state V) (list lazy_held) :=
  r ← catch m;
  match r with
  | Some (Ok g) => keep_read g hs
  | Some (Err g) => keep_primed g hs
  | None => Ret hs
  end.
Definition run_write (m : prog (lazy_state V) (result WGuard RGuard)) (hs : list (lazy_held (V:=V)))
    : prog (lazy_state V) (list lazy_held) :=
  r ← catch m;
  match r with
  | Some (Ok g) => keep_write g hs
  | Some (Err g) => keep_primed g hs
  | None => Ret hs
  end.

Definition run_primed_cmd (c : primed_cmd) (hs : list lazy_held) : prog (lazy_state V) (list lazy_held) :=
  match c with
  | PLocked c => run_locked_cmd this c hs
  | PRead => run_read (primed_read this) hs
  | PReadNonInitializing => run_read (primed_read_non_initializing this) hs
  | PWrite => run_write (primed_write this) hs
  | PWriteNonInitializing => run_write (primed_write_non_initializing this) hs
  end.

Fixpoint primed_client (script : list primed_cmd) (hs : list lazy_held) : prog (lazy_state V) unit :=
  match script with
  | [] => Ret tt
  | c :: script => hs ← run_primed_cmd c hs; primed_client script hs
  end.

Definition primed_cmd_ok (clones : bool) (c : primed_cmd) : Prop :=
  match c with PLocked c => locked_cmd_ok clones c | _ => True end.

(** ** The contract: there is always a value, the primed one until initialisation *)

Definition primed_R (p : Phase) (d : option V) : Prop :=
  ∃ v, d = Some v ∧ (intersects p INITIALIZED = false → v = primed).

Definition primed_contract : contract (lazy_state V) (option V) :=
  Contract content (λ _ _, True) primed_R (λ _, false) (λ _, false).

(** The primed types without finalisation: [PrimedLockedLazy] and
    [UnSyncPrimedLockedLazy]. *)
Definition primed_type : Prop :=
  impl_checker (impl_of t) = CInitialized ∧ impl_data (impl_of t) = KPrimed ∧
  (impl_manager (impl_of t) = SyncSequentializer ∨ impl_manager (impl_of t) = UnSyncSequentializer).

Context {G : Type} {P : PCM G} {spec : PhaseLockerSpec (G:=G) ops primed_contract l}.
Context (Ht : primed_type).
#[local] Arguments ok : simpl never.

Abbreviation policy := (InitializedChecker Tol).
Abbreviation shall := (shall_init policy).

Lemma primed_policy_eq : gz_policy this = policy.
Proof using Ht. unfold the_lazy, from_generator, gz_new. simpl. by rewrite (proj1 Ht). Qed.

Lemma primed_man_eq : gz_man this = plain_sequentializer ops (@GenericLazySeq L unit) unit.
Proof using Ht.
  destruct Ht as (_ & _ & Hm). unfold the_lazy, from_generator, gz_new. simpl.
  by destruct Hm as [-> | ->].
Qed.

Lemma primed_locker_eq : seq_locker (sequentializer (gz_seq this)) = l.
Proof using. done. Qed.

(** Initialisation replaces the primed value, which is dropped. *)
Lemma primed_closure_ok p d :
  shall p = true → R primed_contract p d → phase_range p →
  init_ok (c:=primed_contract) (l:=l) (gz_init_closure this) tt p d (empty_flags .| INITIALIZED) init_panic.
Proof using Ht.
  intros Hsh (v0 & -> & Hv0) _. specialize (Hv0 (shall_init_not_initialized _ _ Hsh)). subst v0.
  destruct Ht as (_ & Hdata & _).
  unfold init_ok, gz_init_closure, the_lazy, from_generator, gz_new. rewrite Hdata.
  cbn [gz_generator gz_data data_of Primed data_init].
  apply ok_bind. unfold generator. apply ok_bind.
  eapply ok_mono; [by apply spec_write|cbv beta|by intros ? []].
  intros n h (u & Hu & _ & _ & ->). cbn in Hu. cbn [snd]. change (view primed_contract _) with (content u). rewrite Hu.
  destruct (f n) as [v|]; cbv beta iota delta [ok].
  - apply ok_bind. eapply ok_mono; [by apply (spec_write (c:=primed_contract))|cbv beta|by intros ? []].
    intros old h (u' & Hu' & _ & -> & ->). cbn in Hu'. cbn [fst snd mem_get lazy_memory]. rewrite Hu'.
    eexists. split; [reflexivity|]. split_and!; [done| |done].
    exists v. split; [done|]. by rewrite or_initialized.
  - eexists. split; [reflexivity|]. split_and!; [done| |done]. by exists primed.
Qed.

Lemma primed_panicked_unit h : init_panicked (c:=primed_contract) (l:=l) h → h = pcm_unit.
Proof using. by intros [[-> _]|[q ->]]. Qed.

Tactic Notation "init_method" uconstr(lem) :=
  unfold init_then_read_lock_unchecked, fast_init_then_read_lock_unchecked,
    init_then_write_lock_unchecked, fast_init_then_write_lock_unchecked;
  rewrite primed_man_eq, ?primed_policy_eq;
  eapply ok_mono; [apply lem, primed_closure_ok|done|apply primed_panicked_unit].

Lemma primed_locked_spec :
  LockedLazySpec (c:=primed_contract) (l:=l) this id (λ v _, Some v) (lazy_reached shall).
Proof using Ht.
  split; try done.
  - rewrite primed_policy_eq. intros p q d v Hacc _ (HK & HR & Hm). split_and!; [done| |done].
    exists v. split; [done|]. cbn in Hacc. by rewrite Hacc.
  - intros p d (v & -> & _) _. by eexists.
  - rewrite primed_policy_eq. intros q Hq. by apply initialized_checker_access.
  - unfold gz_phase. rewrite primed_man_eq. eapply ok_mono; [apply spec_phase|by intros p h [-> _]|done].
  - apply plain_read_ok; rewrite ?primed_man_eq; cbn; auto with phase.
  - apply plain_fast_read_ok; rewrite ?primed_man_eq; cbn; auto with phase.
  - apply plain_write_ok; rewrite ?primed_man_eq; cbn; auto with phase.
  - apply plain_fast_write_ok; rewrite ?primed_man_eq; cbn; auto with phase.
  - init_method (lazy_init_then_read_guard_ok (spec:=spec) (gz_seq this) primed_locker_eq shall).
  - init_method (lazy_try_init_then_read_guard_ok (spec:=spec) (gz_seq this) primed_locker_eq shall).
  - init_method (lazy_init_then_write_guard_ok (spec:=spec) (gz_seq this) primed_locker_eq shall).
  - init_method (lazy_try_init_then_write_guard_ok (spec:=spec) (gz_seq this) primed_locker_eq shall).
Qed.

(** ** The primed locks *)

#[local] Existing Instance primed_locked_spec.
Abbreviation LL := primed_locked_spec.
Abbreviation given_r := (granted_r (c:=primed_contract) (l:=l) (val:=id)).
Abbreviation given_w := (granted_w (c:=primed_contract) (l:=l) (val:=id) this).

Definition primed_guard (r : RGuard) (h : G) : Prop :=
  ∃ p, h = own_r p (Some primed) ∧ rg_is r tt p.

Definition primed_read_post (r : result RGuard RGuard) (h : G) : Prop :=
  match r with Ok r => given_r r h | Err r => primed_guard r h end.
Definition primed_write_post (r : result WGuard RGuard) (h : G) : Prop :=
  match r with Ok g => given_w g h | Err r => primed_guard r h end.

Lemma primed_read_check_ok r p d :
  rg_is r tt p → primed_R p d →
  ok linv (primed_read_check (is_accessible (gz_policy this)) r) (own_r p d) primed_read_post (λ _, False).
Proof using Ht.
  intros Hr (v & -> & Hv). rewrite primed_policy_eq. apply ok_bind.
  eapply ok_mono; [by eapply spec_rg_phase|cbv beta|done]. intros p' h [-> ->]. cbn [is_accessible InitializedChecker].
  destruct (intersects p INITIALIZED) eqn:E; cbn.
  - exists p, (Some v). split_and!; [done|by eexists|done].
  - exists p. by rewrite Hv.
Qed.

Lemma primed_write_check_ok g p q d :
  wg_is g tt p q → moves primed_contract p q d →
  ok linv (primed_write_check (is_accessible (gz_policy this)) g) (own_w p d) primed_write_post (λ _, False).
Proof using Ht.
  intros Hg Hm. destruct (spec_wg_phase _ _ _ _ Hg) as (Hq & _). unfold primed_write_check. rewrite Hq.
  destruct Hm as (HK & (v & -> & Hv) & Hm).
  destruct (is_accessible (gz_policy this) q) eqn:E.
  - exists p, q, (Some v). split_and!; [done|by eexists| |done|done].
    split_and!; [done|by exists v|done].
  - apply ok_bind. eapply ok_mono; [eapply spec_wg_into_read; [done|split_and!; [done|by exists v|done]]|cbv beta|done].
    intros r h [-> Hr]. exists q. rewrite primed_policy_eq in E. cbn in E. by rewrite (Hv E).
Qed.

Lemma primed_reads_ok m :
  m = primed_read this ∨ m = primed_read_non_initializing this →
  ok linv m pcm_unit primed_read_post (λ h, h = pcm_unit).
Proof using Ht.
  intros [-> | ->]; apply ok_bind.
  - eapply ok_mono; [apply (ll_read _ (LockedLazySpec:=LL))|cbv beta|done].
    intros r h (p & d & -> & HR & Hr & _). destruct (data (gz_seq this)).
    by apply no_panic_ok, primed_read_check_ok.
  - eapply ok_mono; [apply (ll_plain_read _ (LockedLazySpec:=LL))|cbv beta|done].
    intros r h (p & d & -> & HR & Hr). by apply no_panic_ok, primed_read_check_ok.
Qed.

Lemma primed_writes_ok m :
  m = primed_write this ∨ m = primed_write_non_initializing this →
  ok linv m pcm_unit primed_write_post (λ h, h = pcm_unit).
Proof using Ht.
  intros [-> | ->]; apply ok_bind.
  - eapply ok_mono; [apply (ll_write _ (LockedLazySpec:=LL))|cbv beta|done].
    intros g h (p & q & d & -> & Hm & Hg & _). destruct (data (gz_seq this)).
    by eapply no_panic_ok, primed_write_check_ok.
  - eapply ok_mono; [apply (ll_plain_write _ (LockedLazySpec:=LL))|cbv beta|done].
    intros g h (p & d & -> & HR & Hg). eapply no_panic_ok, primed_write_check_ok; [done|by apply leaves_same].
Qed.

(** ** The clients are safe *)

Abbreviation owns_list := (owns_with (lazy_owns (c:=primed_contract) (l:=l) (val:=id) this)).

Lemma keep_primed_ok r h hs o :
  primed_guard r h → owns_list hs o → ok linv (keep_primed r hs) (h ⋅ o) owns_list (λ _, False).
Proof using Ht.
  intros (p & -> & Hr) Ho.
  eapply ok_frame_bind; [by eapply (deref_r_ok _ (LL:=LL))|cbv beta|by intros ? []]. intros x h [-> ->].
  eapply ok_frame_bind; [by eapply (value_r_ok _ (LL:=LL))|cbv beta|by intros ? []]. intros w h [-> ->].
  rewrite assert_bind by (by apply bool_decide_true).
  apply owns_with_cons; [by exists p, (Some primed)|done].
Qed.

(** A primed lock that may panic, and what is done with its result. *)
Lemma run_result_ok {A} (m : prog (lazy_state V) A) (k : A → prog (lazy_state V) (list lazy_held)) Q hs o :
  ok linv m pcm_unit Q (λ h, h = pcm_unit) →
  (∀ a h, Q a h → ok linv (k a) (h ⋅ o) owns_list (λ _, False)) → owns_list hs o →
  ok linv (r ← catch m; match r with Some a => k a | None => Ret hs end) o owns_list (λ _, False).
Proof using.
  intros Hm Hk Ho. rewrite <- (left_id_L pcm_unit pcm_op o).
  eapply ok_frame_bind with (Qp := λ _, False).
  - apply ok_catch. eapply ok_mono; [exact Hm| |].
    + intros a h Ha. instantiate (1 := λ r h, match r with Some a => Q a h | None => h = pcm_unit end). exact Ha.
    + by intros h ->.
  - intros [a|] h Ha; simpl in Ha; [by apply Hk|]. subst h. by rewrite (left_id_L pcm_unit pcm_op).
  - by intros ? [].
Qed.

Lemma run_read_ok m hs o :
  m = primed_read this ∨ m = primed_read_non_initializing this → owns_list hs o →
  ok linv (run_read m hs) o owns_list (λ _, False).
Proof using Ht.
  intros Hm Ho. unfold run_read.
  eapply (run_result_ok m (λ r, match r with Ok g => keep_read g hs | Err g => keep_primed g hs end));
    [by apply primed_reads_ok| |done].
  intros [g|g] h Hg; [by apply (acquire_read_ok _ (LL:=LL))|by apply keep_primed_ok].
Qed.

Lemma run_write_ok m hs o :
  m = primed_write this ∨ m = primed_write_non_initializing this → owns_list hs o →
  ok linv (run_write m hs) o owns_list (λ _, False).
Proof using Ht.
  intros Hm Ho. unfold run_write.
  eapply (run_result_ok m (λ r, match r with Ok g => keep_write g hs | Err g => keep_primed g hs end));
    [by apply primed_writes_ok| |done].
  intros [g|g] h Hg; [by apply (acquire_write_ok _ (LL:=LL))|by apply keep_primed_ok].
Qed.

Lemma run_primed_cmd_ok cmd hs o :
  primed_cmd_ok clones_bounded cmd → owns_list hs o →
  ok linv (run_primed_cmd cmd hs) o owns_list (λ _, False).
Proof using Ht.
  intros Hc Ho. destruct cmd; cbn [run_primed_cmd].
  - by apply (run_locked_cmd_ok _ (LL:=LL)).
  - apply run_read_ok; auto.
  - apply run_read_ok; auto.
  - apply run_write_ok; auto.
  - apply run_write_ok; auto.
Qed.

Lemma primed_client_ok script hs o :
  Forall (primed_cmd_ok clones_bounded) script → owns_list hs o →
  ok linv (primed_client script hs) o (λ _ _, True) (λ _, False).
Proof using Ht.
  intros Hs. revert hs o. induction Hs as [|cmd script Hc _ IH]; intros hs o Ho; [done|].
  cbn [primed_client]. apply ok_bind. eapply ok_mono; [by apply run_primed_cmd_ok|cbv beta|done]. eauto.
Qed.
End primed.

(** ** The count of waiting writers *)

Section seats.
Context {BF : Bitflags} {V L : Type} `{!EqDecision V} {ops : PhaseLocker (lazy_state V) L} {wc : loc} {l : L}.
Context (SL : SeatedLocker ops wc l) (Tol : GeneratorTolerance) (f : nat → option V) (primed : V) (t : lazy_type).
Context (Ht : impl_manager (impl_of t) = SyncSequentializer).
Abbreviation this := (the_lazy Tol f l t).
Abbreviation seatp := (seated (U:=lazy_state V) wc false false).

#[local] Hint Resolve seat_deref_read seat_deref_write seat_read_value : seated.

Lemma seat_primed_read check (g : ReadGuard unit) : on g → seatp (primed_read_check check g).
Proof using SL. intros Hg. unfold primed_read_check. apply (seated_bind _ false); [by apply sl_rg_phase|]. intros p _. destruct (check p); by split. Qed.
Lemma seat_primed_write check (g : WriteGuard unit) : on g → seatp (primed_write_check check g).
Proof using SL. intros Hg. unfold primed_write_check. destruct (check _); [by split|]. seated_tac. Qed.
#[local] Hint Resolve seat_primed_read seat_primed_write : seated.

Lemma seat_run_read m hs :
  m = primed_read this ∨ m = primed_read_non_initializing this → on hs → seatp (run_read primed m hs).
Proof using Ht SL.
  pose proof (the_lazy_seated SL Tol f t Ht) as HL.
  destruct (seat_read_unchecked SL this) as (? & _ & ? & _).
  intros [-> | ->] Hhs; unfold run_read, primed_read, primed_read_non_initializing, keep_read, keep_primed; seated_tac.
Qed.
Lemma seat_run_write m hs :
  m = primed_write this ∨ m = primed_write_non_initializing this → on hs → seatp (run_write primed m hs).
Proof using Ht SL.
  pose proof (the_lazy_seated SL Tol f t Ht) as HL.
  destruct (seat_write_unchecked SL this) as (? & _ & ? & _).
  intros [-> | ->] Hhs; unfold run_write, primed_write, primed_write_non_initializing, keep_write, keep_primed; seated_tac.
Qed.

Lemma seat_primed_client script hs : on hs → seatp (primed_client Tol f primed l t script hs).
Proof using Ht SL.
  revert hs. induction script as [|c script IH]; intros hs Hhs; [by repeat split|].
  apply (seated_bind _ false); [|intros hs' Hhs'; by apply IH].
  destruct c; [by apply (seat_locked_cmd SL _ (HL := the_lazy_seated SL Tol f t Ht))|..];
    first [apply seat_run_read|apply seat_run_write]; auto.
Qed.
End seats.

(** ** Properties *)

Section props.
Context {KN : Kernel} {BF : Bitflags} {V : Type} `{!EqDecision V}.

End props.

Section witnesses.
#[local] Existing Instances kernel_1 bitflags_1.

(** A thread reads the primed value and then initialises the object and assigns to
    it; another comes in for the write lock. *)
Definition demo_primed_scripts : list (list (primed_cmd (V:=Z))) :=
  [[PReadNonInitializing; PLocked (KDrop 0); PRead; PLocked (KDrop 0); PWrite; PLocked (KAssign 0 33);
    PLocked (KDrop 0); PRead; PLocked (KCheck 0)];
   [PWriteNonInitializing; PLocked (KDrop 0)]].
Definition demo_primed_pool : list (prog (lazy_state Z) unit) :=
  (λ script, primed_client (ops:=futex_locker may_abort true 20) fn_tolerance demo_generator 42 (FutexC 2 3 4)
     PrimedLockedLazy script []) <$> demo_primed_scripts.
Definition demo_primed_schedule : list nat :=
  (replicate 15 0 ++ replicate 15 1 ++ replicate 8 0 ++ replicate 6 1 ++ replicate 5 0)%nat.
Definition demo_primed_test (ps : list (prog (lazy_state Z) unit)) (s : state (lazy_state Z)) : bool :=
  all_returned ps && (rd s 2 =? word INITIALIZED 1 false false false) && bool_decide (content (usr s) = Some 33).

End witnesses.
