(* ===== verification/FutexLazies.v ===== *)
(** * Lazies over the futex locker

    The lazy types in the default configuration of the crate, where their
    sequentializers use the futex locker: the clients of [LazySafety] and
    [LockedSafety], whose proofs are for any locker that keeps the contract. With
    fewer than 2^32 threads [Seats] adds which assertion of the locker may fail. *)

From stdpp Require Import base list option numbers gmap relations.
From S2P Require Import Prelude Word Phase Atomics Locker Clients Tokens SpinLocker Futex FutexLocker FutexInv FutexRules Seats FutexSafety Sequentializer Policy Traits GenericLazy Lazy LockedClients LazyTypes LazySafety LockedSafety SeatedLazies.
Open Scope Z_scope.

Section props.
Context {KN : Kernel} {BF : Bitflags} {V : Type} `{!EqDecision V}.

(** The state before the program starts: the word of the empty phase, and nobody
    parked on it. *)
Definition futex_start (fx : Futex) (s : state (lazy_state V)) : Prop :=
  rd s (fx_futex fx) = FutexLocker.new empty_flags ∧ usr s = LazySafety.fresh ∧
  ∀ t k, queue (mem s) !! t = Some k → pk_addr k ≠ fx_futex fx.

Lemma futex_start_inv Tol (f : nat → option V) fx (s : state (lazy_state V)) :
  futex_cells fx → futex_start fx s → finv (lazy_contract Tol f) fx s pcm_unit.
Proof.
  intros Hfx (Hrd & Hu & Hq). eapply fx_inv_new; [auto with phase|exact Hrd|..|done]; rewrite Hu;
    [apply fresh_K|apply fresh_R].
Qed.

(** C1: a [Lazy] on the default locker, shared by any number of threads, which
    dereference it, try to, ask its phase and initialise it in any order and
    interleaving, with whatever wake-ups the system makes, for a generator that
    returns or panics as it likes on each of its runs. No access is to an
    uninitialised value and no operation but a caught one panics. The generator
    is run again only after a run that panicked, never if it is an [FnOnce]; at
    most one value is ever stored, that of the last run; and every reference that
    any thread has read through showed that value. A thread that fails one of the
    three named assertions of the locker is taken to do nothing more. *)
Theorem futex_lazy_exactly_once Tol (f : nat → option V) fx aborts linux fuel scripts s ps s' :
  futex_cells fx → (∀ a, a ≠ Other → aborts a = true) → futex_start fx s →
  reachable (lazy_client (ops:=futex_locker aborts linux fuel) Tol f fx false Lazy <$> scripts) s ps s' →
  no_panic ps ∧ history Tol f (usr s').
Proof.
  intros Hfx Ha Hs Hreach.
  apply (safe_pool (spec:=futex_spec (lazy_contract Tol f) fx Hfx aborts Ha linux fuel)) in Hreach
    as (? & p & []); [done| |by apply futex_start_inv].
  apply Forall_fmap, Forall_true. intros script. apply lazy_client_ok. repeat split. by left.
Qed.

(** C4: fewer than 2^32 threads share a [LockedLazy] on the default locker and use
    all of its methods as their scripts say, on a generator that returns or
    panics at each run as it likes. Every guard ever granted is of an initialised
    value; the value under a guard changes through that guard only. Nothing panics
    but the calls that the clients catch, and the assertion of the locker on a
    writer that turns into a reader ([FutexBug.conversion_panics]): a thread that
    fails it, where the source panics, is taken to do nothing more, which
    [Stops ReadersConverted] records. *)
Theorem futex_locked_lazy_safe Tol (f : nat → option V) fx linux fuel scripts s ps s' :
  futex_cells fx → no_writer_waits fx s → futex_start fx s →
  Z.of_nat (length scripts) < 2 ^ 32 → Forall (Forall (locked_cmd_ok true)) scripts →
  reachable ((λ script, locked_client (the_lazy (ops:=futex_locker may_abort linux fuel) Tol f fx LockedLazy) script [])
               <$> scripts) s ps s' →
  no_panic ps ∧ stops_at_conversions ps.
Proof.
  intros Hfx [Hfair Hcount] (Hrd & Hu & Hq) Hlen Hs Hreach. split.
  - assert (plain LockedLazy) as Hplain by (repeat split; by left). revert Hreach.
    apply (ok_pool_no_panic (finv locked_contract fx) _ (replicate (length scripts) pcm_unit)).
    + by apply (locked_pool_ok _ (spec:=futex_spec locked_contract fx Hfx may_abort may_abort_named linux fuel)
        (LL:=locked_lazy_spec Tol f fx LockedLazy
               (spec:=futex_spec locked_contract fx Hfx may_abort may_abort_named linux fuel) Hplain)).
    + rewrite pcm_sum_replicate_unit. eapply fx_inv_new; [auto with phase|exact Hrd|done| |done].
      intros H. by rewrite intersects_empty in H.
  - eapply (seated_reachable_fmap (fx_writer_count fx)); [|exact Hlen|exact Hcount|exact Hreach]. intros script.
    pose proof (futex_seated (U:=lazy_state V) fx Hfx Hfair may_abort eq_refl linux fuel) as SL.
    apply (seat_locked_client SL _ (HL := the_lazy_seated SL Tol f LockedLazy eq_refl)). constructor.
Qed.

(** C8: a quasi-lazy, [LesserLazy], whose generator may be called again, over the
    default locker and over the spinning one: while the constructor initialises it
    and then sets the global hint, the other threads access it with the test of the
    phase skipped as soon as they see the hint. The guarantees of [Lazy] hold all
    the same, and a hint that is set tells that the object is initialised. For a
    generator that may be called once only it does not hold
    ([LazySafety.try_init_once_hint_unsound]). On the default locker there are fewer
    than 2^32 threads, and one that fails the assertion of
    [FutexBug.conversion_panics] is taken to do nothing more. *)
Theorem lesser_lazy_hint_safe Tol (f : nat → option V) enabled scripts :
  INIT_FAILURE Tol = true →
  (∀ fx linux fuel s ps s',
     futex_cells fx → no_writer_waits fx s → futex_start fx s → Z.of_nat (S (length scripts)) < 2 ^ 32 →
     reachable (constructor_thread (ops:=futex_locker may_abort linux fuel) Tol f fx LesserLazy ::
                (lazy_client (ops:=futex_locker may_abort linux fuel) Tol f fx enabled LesserLazy <$> scripts)) s ps s' →
     hint_kept Tol f ps (usr s') ∧ stops_at_conversions ps) ∧
  (∀ fuel (l : SpinLocker.SyncPhaseLocker) s ps s',
     rd s l = SpinLocker.new empty_flags → usr s = LazySafety.fresh →
     reachable (constructor_thread (ops:=spin_locker fuel) Tol f l LesserLazy ::
                (lazy_client (ops:=spin_locker fuel) Tol f l enabled LesserLazy <$> scripts)) s ps s' →
     hint_kept Tol f ps (usr s')).
Proof.
  intros HT. split.
  - intros fx linux fuel s ps s' Hfx [Hfair Hcount] Hs Hlen Hreach. split.
    + revert Hreach.
      apply (lesser_pool_safe Tol f fx (spec:=futex_spec (lazy_contract Tol f) fx Hfx may_abort may_abort_named linux fuel));
        [done|by apply futex_start_inv].
    + pose proof (futex_seated (U:=lazy_state V) fx Hfx Hfair may_abort eq_refl linux fuel) as SL.
      apply (seated_reachable (fx_writer_count fx)) in Hreach; [done| |simpl; by rewrite length_fmap|done].
      constructor; [by apply (seat_constructor_thread SL)|]. apply Forall_fmap, Forall_true. intros script.
      by apply (seat_lazy_client SL).
  - intros fuel l s ps s' Hrd Hu.
    apply (lesser_pool_safe Tol f l (spec:=spin_spec fuel (lazy_contract Tol f) l)); [done|by apply spin_start].
Qed.
End props.

Section witnesses.
#[local] Existing Instances kernel_1 bitflags_1.

Lemma demo_start : futex_start (FutexC 2 3 4) (State ∅ (LazySafety.fresh (V:=Z))).
Proof. split_and!; [reflexivity|reflexivity|]. intros t k Hk. vm_compute in Hk. done. Qed.

Lemma futex_lazy_exactly_once_witness :
  let fx := FutexC 2 3 4 in
  let s := State ∅ (LazySafety.fresh (V:=Z)) in
  let client := lazy_client (ops:=futex_locker may_abort true 9) fn_tolerance demo_generator fx false Lazy in
  (no_panic (client <$> [[LGet; LGet]; [LTryGet]]) ∧ history fn_tolerance demo_generator (usr s)) ∧
  (run (client [LGet; LGet; LTryGet]) [] s).1 = Returned tt.
Proof.
  split; [|vm_compute; reflexivity].
  apply (futex_lazy_exactly_once fn_tolerance demo_generator (FutexC 2 3 4) may_abort true 9
           [[LGet; LGet]; [LTryGet]] (State ∅ LazySafety.fresh));
    [by split|by intros [] ?|apply demo_start|apply rtc_refl].
Defined.

(** A thread writes and turns its guard into a read guard, which another thread
    waits for. *)
Definition demo_locked_scripts : list (list (locked_cmd (V:=Z))) :=
  [[KTryRead; KRead; KWrite; KAssign 0 8; KCheck 0; KDowngrade 0; KFastWrite; KClone 0; KDrop 0; KCheck 0; KDrop 0;
    KFastTryWrite; KCheck 0; KDrop 0];
   [KRead; KCheck 0; KDrop 0]].
Definition demo_locked_pool : list (prog (lazy_state Z) unit) :=
  (λ script, locked_client (the_lazy (ops:=futex_locker may_abort true 20) fn_tolerance demo_generator (FutexC 2 3 4)
     LockedLazy) script []) <$> demo_locked_scripts.
Definition demo_locked_schedule : list nat :=
  (replicate 13 0 ++ replicate 15 1 ++ replicate 8 0 ++ replicate 7 1 ++ replicate 14 0)%nat.
Definition demo_locked_test (ps : list (prog (lazy_state Z) unit)) (s : state (lazy_state Z)) : bool :=
  all_returned ps && (rd s 2 =? word INITIALIZED 0 false false false) && bool_decide (content (usr s) = Some 8).

Lemma futex_locked_lazy_safe_witness :
  ∃ ps s', reachable demo_locked_pool (State ∅ LazySafety.fresh) ps s' ∧ demo_locked_test ps s' = true ∧
    no_panic ps ∧ stops_at_conversions ps.
Proof.
  destruct (exec_reaches demo_locked_schedule demo_locked_pool (State ∅ LazySafety.fresh) demo_locked_test)
    as (ps & s' & Hreach & Htest); [by vm_compute|].
  exists ps, s'. split; [exact Hreach|]. split; [exact Htest|].
  apply (futex_locked_lazy_safe fn_tolerance demo_generator (FutexC 2 3 4) true 20 demo_locked_scripts
           (State ∅ LazySafety.fresh) ps s');
    [by split|by split|apply demo_start|by vm_compute|repeat constructor|exact Hreach].
Defined.

(** The constructor initialises the object, and another thread sees it do so; the
    last access skips the test of the phase. *)
Definition demo_lesser_pool : list (prog (lazy_state Z) unit) :=
  let ops := futex_locker may_abort true 20 in
  constructor_thread (ops:=ops) fn_tolerance (λ _, Some 7) (FutexC 2 3 4) LesserLazy ::
  (lazy_client (ops:=ops) fn_tolerance (λ _, Some 7) (FutexC 2 3 4) true LesserLazy <$> [[LTryGet; LGet]; [LGet; LGet]]).
Definition demo_lesser_schedule : list nat :=
  (replicate 2 0 ++ replicate 15 2 ++ replicate 2 1 ++ replicate 11 0 ++ replicate 8 2 ++ replicate 3 1)%nat.
Definition demo_lesser_test (ps : list (prog (lazy_state Z) unit)) (s : state (lazy_state Z)) : bool :=
  all_returned ps && hinted (usr s) && bool_decide (content (usr s) = Some 7 ∧ seen (usr s) = [7; 7; 7]).

Lemma lesser_lazy_hint_safe_witness :
  ∃ ps s', reachable demo_lesser_pool (State ∅ LazySafety.fresh) ps s' ∧ demo_lesser_test ps s' = true ∧
    hint_kept fn_tolerance (λ _, Some 7) ps (usr s') ∧ stops_at_conversions ps.
Proof.
  destruct (exec_reaches demo_lesser_schedule demo_lesser_pool (State ∅ LazySafety.fresh) demo_lesser_test)
    as (ps & s' & Hreach & Htest); [by vm_compute|].
  exists ps, s'. split; [exact Hreach|]. split; [exact Htest|].
  apply (proj1 (lesser_lazy_hint_safe fn_tolerance (λ _, Some 7) true [[LTryGet; LGet]; [LGet; LGet]] eq_refl)
           (FutexC 2 3 4) true 20%nat (State ∅ LazySafety.fresh) ps s');
    [by split|by split|apply demo_start|by vm_compute|exact Hreach].
Defined.
End witnesses.
