(* ===== verification/ExitSequentializer.v ===== *)
(** * Finalisation at exit (src/exit_sequentializer.rs)

    The registers of the objects to finalise: one for the program, guarded by a
    mutex and open until the list is exhausted, and one per thread. A register
    is a linked list threaded through the objects: the head is in the register
    and each object holds the [next] of its sequentializer.

    A critical section of the mutexes is one step here ([mutex_lock] of the file
    SpinLocker is what makes it one); the steps of the thread that executes the
    finalisers and of those that register objects interleave in [exit_step]. *)

From stdpp Require Import base list option numbers gmap relations.
From S2P Require Import Prelude Word Phase Atomics Locker Sequentializer.

(** The addresses of the registered objects. *)
Abbreviation node := positive (only parsing).

Record Register := RegisterC {
  first : option node;
  registration_opened : bool;
}.

(** The register and the [next] fields of all objects, [None] where absent. *)
Record exit_state := ExitState {
  register : Register;
  next : gmap node node;
}.

Definition REGISTER_INIT : exit_state := ExitState (RegisterC None true) ∅.

Definition set_next (n : node) (o : option node) (m : gmap node node) : gmap node node :=
  partial_alter (λ _, o) n m.

(** ** Program exit *)

(** [None]: the assertion against a double registration fails. *)
Definition finalize_at_exit (st : node) (s : exit_state) : option bool * exit_state :=
  if registration_opened (register s) then
    match next s !! st with
    | Some _ => (None, s)
    | None =>
        (Some true, ExitState (RegisterC (Some st) (registration_opened (register s)))
                      (set_next st (first (register s)) (next s)))
    end
  else (Some false, s).

(** [OnExit::take_next] *)
Definition take_next (n : node) (s : exit_state) : option node * exit_state :=
  (next s !! n, ExitState (register s) (set_next n None (next s))).

(** [l.first.take()] *)
Definition take_first (s : exit_state) : option node * exit_state :=
  (first (register s), ExitState (RegisterC None (registration_opened (register s))) (next s)).

(** The closure of [or_else] in [execute_at_exit]. *)
Definition take_or_close (s : exit_state) : option node * exit_state :=
  take_first
    (if first (register s) is None then ExitState (RegisterC None false) (next s) else s).

(** The loop [while let Some(r) = list] of all the registers, with the actions
    of the finalisers as a function of the state; it returns the nodes executed,
    or [None] without enough fuel. *)
Section drain.
Context {S : Type}.
Context (run_finaliser : node → S → S) (take_next : node → S → option node * S)
  (or_else : S → option node * S).

Fixpoint drain (fuel : nat) (head : option node) (s : S) : option (list node * S) :=
  match head, fuel with
  | None, _ => Some ([], s)
  | Some _, O => None
  | Some r, Datatypes.S fuel =>
      let s := run_finaliser r s in
      let '(o, s) := take_next r s in
      let '(o, s) := match o with Some _ => (o, s) | None => or_else s end in
      '(tr, s) ← drain fuel o s;
      Some (r :: tr, s)
  end.
End drain.

Definition execute_at_exit (run_finaliser : node → exit_state → exit_state) (fuel : nat)
    (s : exit_state) : option (list node * exit_state) :=
  let '(head, s) := take_first s in
  drain run_finaliser take_next take_or_close fuel head s.

(** ** The list in the register *)

Fixpoint chain (m : gmap node node) (h : option node) (l : list node) : Prop :=
  match l with
  | [] => h = None
  | n :: l => h = Some n ∧ chain m (m !! n) l
  end.

Lemma set_next_none n m : m !! n = None → set_next n None m = m.
Proof.
  intros Hn. apply map_eq. intros i. unfold set_next. destruct (decide (i = n)) as [->|].
  - by rewrite lookup_partial_alter_eq.
  - by rewrite lookup_partial_alter_ne.
Qed.

Lemma set_next_empty n : set_next n None ∅ = ∅.
Proof. by apply set_next_none. Qed.

Lemma chain_set_next m n o h l : n ∉ l → chain m h l → chain (set_next n o m) h l.
Proof.
  revert h. induction l as [|x l IH]; intros h Hn; [done|]. intros [-> Hc].
  apply not_elem_of_cons in Hn as [Hne Hn]. split; [done|].
  unfold set_next. rewrite lookup_partial_alter_ne by done. by apply IH.
Qed.

Lemma chain_push m n h l : n ∉ l → chain m h l → chain (set_next n h m) (Some n) (n :: l).
Proof.
  intros Hn Hc. split; [done|]. unfold set_next at 2. rewrite lookup_partial_alter_eq.
  by apply chain_set_next.
Qed.

Lemma chain_ext m m' h l : (∀ n, n ∈ l → m' !! n = m !! n) → chain m h l → chain m' h l.
Proof.
  revert h. induction l as [|x l IH]; intros h He; [done|]. intros [-> Hc]. split; [done|].
  rewrite He by list_mem. apply IH; [|done]. intros n Hn. apply He. list_mem.
Qed.

Lemma chain_nil m l : chain m None l → l = [].
Proof. by destruct l; [|intros []]. Qed.

Lemma chain_some m n l : chain m (Some n) l → ∃ l', l = n :: l' ∧ chain m (m !! n) l'.
Proof. destruct l as [|x l]; [done|]. intros [[= ->] Hc]. by exists l. Qed.

(** ** Registering threads and the exiting thread *)

(** Where [execute_at_exit] stands. *)
Inductive exit_pc :=
| NotStarted
| AtLoop (o : option node)  (* before the test of the loop *)
| Executed (n : node)  (* the finaliser of [n] has run *)
| Exhausted  (* the [next] of the last node was [None] *)
| Finished.

(** With the nodes executed so far, the latest last, those whose registration
    was accepted or refused, and whether an assertion has failed. *)
Record config := Config {
  shared : exit_state;
  pc : exit_pc;
  executed : list node;
  accepted : list node;
  refused : list node;
  panicked : bool;
}.

Definition start : config := Config REGISTER_INIT NotStarted [] [] [] false.

(** Objects are registered by any thread, finalisers included, at any time, each
    at most once: its sequentializer registers it in the initial phase only. *)
Inductive exit_step : relation config :=
| StepRegister n s pc ex acc ref pan b s' :
    n ∉ acc → n ∉ ref → finalize_at_exit n s = (Some b, s') →
    exit_step (Config s pc ex acc ref pan)
      (Config s' pc ex (if b : bool then acc ++ [n] else acc) (if b : bool then ref else ref ++ [n]) pan)
| StepDouble n s pc ex acc ref pan s' :
    n ∉ acc → n ∉ ref → finalize_at_exit n s = (None, s') →
    exit_step (Config s pc ex acc ref pan) (Config s' pc ex acc ref true)
| StepStart s ex acc ref pan o s' :
    take_first s = (o, s') →
    exit_step (Config s NotStarted ex acc ref pan) (Config s' (AtLoop o) ex acc ref pan)
| StepExecute n s ex acc ref pan :
    exit_step (Config s (AtLoop (Some n)) ex acc ref pan) (Config s (Executed n) (ex ++ [n]) acc ref pan)
| StepNext n s ex acc ref pan o s' :
    take_next n s = (o, s') →
    exit_step (Config s (Executed n) ex acc ref pan)
      (Config s' (if o is Some _ then AtLoop o else Exhausted) ex acc ref pan)
| StepClose s ex acc ref pan o s' :
    take_or_close s = (o, s') →
    exit_step (Config s Exhausted ex acc ref pan) (Config s' (AtLoop o) ex acc ref pan)
| StepFinish s ex acc ref pan :
    exit_step (Config s (AtLoop None) ex acc ref pan) (Config s Finished ex acc ref pan).

(** What is in the hands of the exiting thread: [pending] has to be executed
    before the thread turns to the register again. *)
Definition pc_chain (m : gmap node node) (p : exit_pc) (pending : list node) : Prop :=
  match p with
  | NotStarted | Exhausted | Finished => pending = []
  | AtLoop o => chain m o pending
  | Executed n => chain m (m !! n) pending
  end.

(** When the thread has started and found something, it leaves the loop with a
    closed register only. *)
Definition pc_closed (c : config) : Prop :=
  match pc c with
  | NotStarted => executed c = [] ∧ registration_opened (register (shared c)) = true
  | AtLoop None | Finished =>
      (executed c = [] ∧ registration_opened (register (shared c)) = true) ∨
      (registration_opened (register (shared c)) = false ∧ first (register (shared c)) = None)
  | AtLoop (Some _) => registration_opened (register (shared c)) = true
  | Executed n => n ∈ executed c ∧ registration_opened (register (shared c)) = true
  | Exhausted => executed c ≠ [] ∧ registration_opened (register (shared c)) = true
  end.

Record exit_inv (c : config) : Prop := {
  inv_panicked : panicked c = false;
  inv_lists : ∃ pending waiting,
    pc_chain (next (shared c)) (pc c) pending ∧
    chain (next (shared c)) (first (register (shared c))) waiting ∧
    NoDup (executed c ++ pending ++ waiting) ∧
    accepted c ≡ₚ executed c ++ pending ++ waiting;
  inv_next n : is_Some (next (shared c) !! n) → n ∈ accepted c;
  inv_closed : pc_closed c;
}.

Lemma start_inv : exit_inv start.
Proof.
  split; simpl; [done| |by intros n [? ?]|done].
  exists [], []. split_and!; [done|done|constructor|done].
Qed.

(** One lemma per step. *)
Lemma register_inv n s p ex acc ref pan b s' :
  exit_inv (Config s p ex acc ref pan) → n ∉ acc → finalize_at_exit n s = (Some b, s') →
  exit_inv (Config s' p ex (if b : bool then acc ++ [n] else acc) (if b : bool then ref else ref ++ [n]) pan).
Proof.
  intros [Hpan (pend & wait & Hpend & Hwait & Hnd & Hacc) Hnext Hcl] Hn Hreg; simpl in *.
  unfold finalize_at_exit in Hreg. destruct (registration_opened (register s)) eqn:Ho;
    [|by simplify_eq; split; [done|exists pend, wait|done|done]].
  destruct (next s !! n) eqn:Hnn; simplify_eq. unfold set_next.
  rewrite Hacc in Hn. apply not_elem_of_app in Hn as [Hnex [Hnp Hnw]%not_elem_of_app].
  split; simpl; [done| | |].
  - exists pend, (n :: wait). split_and!.
    + destruct p as [|o|m| |]; simpl in *; try done; [by apply chain_set_next|].
      destruct Hcl as [Hm _]. rewrite lookup_partial_alter_ne by (by intros ->). by apply chain_set_next.
    + by apply chain_push.
    + rewrite !(assoc_L (++)), <- Permutation_middle, <- !(assoc_L (++)). constructor; [|done].
      rewrite !not_elem_of_app. by split_and!.
    + rewrite Hacc. solve_Permutation.
  - intros m [o Hm]. destruct (decide (m = n)) as [->|]; [apply elem_of_app; right; set_solver|].
    rewrite lookup_partial_alter_ne in Hm by done. apply elem_of_app. left. apply Hnext. by exists o.
  - unfold pc_closed in *. simpl in *. rewrite Ho in *.
    destruct p as [|[?|]|?| |]; try done; (destruct Hcl as [?|[? _]]; [by left|done]).
Qed.

Lemma double_never n s p ex acc ref pan s' :
  exit_inv (Config s p ex acc ref pan) → n ∉ acc → finalize_at_exit n s ≠ (None, s').
Proof.
  intros [_ _ Hnext _] Hn Hreg. simpl in *. unfold finalize_at_exit in Hreg.
  destruct (registration_opened _); [|done]. destruct (next s !! n) eqn:E; [|done].
  apply Hn, Hnext. by exists p0.
Qed.

Lemma step_inv c c' : exit_step c c' → exit_inv c → exit_inv c'.
Proof.
  intros Hstep Hinv. destruct Hstep as
    [n s p ex acc ref pan b s' Hn _ Hreg|n s p ex acc ref pan s' Hn _ Hreg|s ex acc ref pan o s' Htake
    |n s ex acc ref pan|n s ex acc ref pan o s' Htake|s ex acc ref pan o s' Htake|s ex acc ref pan].
  - by eapply register_inv.
  - by eapply double_never in Hreg.
  - destruct Hinv as [Hpan (pend & wait & Hpend & Hwait & Hnd & Hacc) Hnext [Hex Ho]]; simpl in *.
    subst pend ex. injection Htake as <- <-. split; simpl; [done| |done|].
    + exists wait, []. by rewrite app_nil_r.
    + unfold pc_closed. simpl. destruct (first (register s)); [done|by left].
  - destruct Hinv as [Hpan (pend & wait & Hpend & Hwait & Hnd & Hacc) Hnext Ho]; simpl in *.
    apply chain_some in Hpend as (pend' & -> & Hpend). split; simpl; [done| |done|].
    + exists pend', wait. rewrite <- !(assoc_L (++)). by split_and!.
    + split; [set_solver|done].
  - destruct Hinv as [Hpan (pend & wait & Hpend & Hwait & Hnd & Hacc) Hnext [Hnex Ho]]; simpl in *.
    injection Htake as <- <-. assert ((n ∉ pend) ∧ (n ∉ wait)) as [Hnp Hnw].
    { apply NoDup_app in Hnd as (_ & Hnd & _). specialize (Hnd n Hnex).
      by apply not_elem_of_app in Hnd. }
    split; simpl; [done| | |].
    + exists pend, wait. split_and!; [|by apply chain_set_next|done..].
      destruct (next s !! n) as [m|]; simpl; [by apply chain_set_next|by apply chain_nil in Hpend].
    + intros m [o Hm]. apply Hnext. unfold set_next in Hm.
      destruct (decide (m = n)) as [->|]; [by rewrite lookup_partial_alter_eq in Hm|].
      rewrite lookup_partial_alter_ne in Hm by done. by exists o.
    + unfold pc_closed. simpl. destruct (next s !! n); simpl; [done|].
      split; [|done]. by intros ->; apply elem_of_nil in Hnex.
  - destruct Hinv as [Hpan (pend & wait & Hpend & Hwait & Hnd & Hacc) Hnext [Hex Ho]]; simpl in *.
    subst pend. unfold take_or_close, take_first in Htake.
    destruct (first (register s)) as [m|] eqn:Hm; simplify_eq; (split; simpl; [done| |done|]).
    + exists wait, []. rewrite app_nil_r, Hm. by split_and!.
    + unfold pc_closed. simpl. by rewrite Hm.
    + apply chain_nil in Hwait as ->. exists [], []. by split_and!.
    + unfold pc_closed. simpl. by right.
  - destruct Hinv as [Hpan (pend & wait & Hpend & Hwait & Hnd & Hacc) Hnext Hcl]; simpl in *.
    apply chain_nil in Hpend as ->. split; simpl; [done|by exists [], wait|done|done].
Qed.

Lemma reachable_inv c : rtc exit_step start c → exit_inv c.
Proof.
  intros Hr. assert (∀ c0, rtc exit_step c0 c → exit_inv c0 → exit_inv c) as Hgen.
  { clear Hr. intros c0 Hr. induction Hr; eauto using step_inv. }
  eauto using start_inv.
Qed.

(** ** Properties of the program exit *)

(** C9: in whatever order threads and finalisers register objects while the
    program exits, the assertion against double registrations never fails and
    no object is finalised twice or without having been registered. Once the
    loop is over, if it found anything at all, every object whose registration
    was accepted has been finalised, exactly once, and the register is closed. *)
Theorem exit_finalises_all c :
  rtc exit_step start c →
  panicked c = false ∧ NoDup (executed c) ∧ (∀ n, n ∈ executed c → n ∈ accepted c) ∧
  (pc c = Finished → executed c ≠ [] →
     executed c ≡ₚ accepted c ∧ ∀ n, (finalize_at_exit n (shared c)).1 = Some false).
Proof.
  intros [Hpan (pend & wait & Hpend & Hwait & Hnd & Hacc) Hnext Hcl]%reachable_inv.
  split; [done|]. split; [by apply NoDup_app in Hnd as (? & _)|]. split.
  { intros n Hn. rewrite Hacc. apply elem_of_app. by left. }
  intros Hpc Hne. unfold pc_closed in Hcl. rewrite Hpc in *. simpl in Hpend. subst pend.
  destruct Hcl as [[? _]|[Hcl Hf]]; [done|]. rewrite Hf in Hwait. apply chain_nil in Hwait as ->.
  split; [by rewrite Hacc, app_nil_r|]. intros n. unfold finalize_at_exit. by rewrite Hcl.
Qed.

(** An exit that finds the list empty does not close the register: an object
    registered later is accepted and never finalised. *)
Theorem exit_empty_stays_open n :
  ∃ c, rtc exit_step start c ∧ pc c = Finished ∧ n ∈ accepted c ∧
    ∀ c', rtc exit_step c c' → n ∉ executed c'.
Proof.
  set (s := ExitState (RegisterC (Some n) true) (set_next n None ∅)).
  exists (Config s Finished [] [n] [] false). split_and!; [|done|set_solver|].
  - eapply rtc_l; [by apply StepStart|]. eapply rtc_l; [apply StepFinish|].
    eapply rtc_once, (StepRegister n _ _ _ [] [] false true); [set_solver..|done].
  - intros c' Hr. assert (pc c' = Finished ∧ executed c' = []) as [_ ->]; [|set_solver].
    remember (Config s Finished [] [n] [] false) as c eqn:Ec.
    assert (pc c = Finished ∧ executed c = []) as Hc by (by subst c).
    clear Ec. induction Hr as [|c c1 c2 Hstep _ IH]; [done|]. apply IH.
    destruct Hc as [Hpc Hex]. by inversion Hstep; subst; simpl in *.
Qed.

(** Registering objects one after the other. *)
Fixpoint register_all (ns : list node) (s : exit_state) : option exit_state :=
  match ns with
  | [] => Some s
  | n :: ns =>
      match finalize_at_exit n s with
      | (Some true, s) => register_all ns s
      | _ => None
      end
  end.

Lemma register_all_chain ns s l :
  registration_opened (register s) = true → chain (next s) (first (register s)) l →
  (∀ n, is_Some (next s !! n) → n ∈ l) → NoDup (ns ++ l) →
  ∃ s', register_all ns s = Some s' ∧ registration_opened (register s') = true ∧
        chain (next s') (first (register s')) (rev ns ++ l).
Proof.
  revert s l. induction ns as [|n ns IH]; intros s l Ho Hc Hnext Hnd; [by exists s|].
  simpl in Hnd. apply NoDup_cons in Hnd as [Hn Hnd]. cbn [register_all].
  apply not_elem_of_app in Hn as [Hn Hnl].
  unfold finalize_at_exit at 1. rewrite Ho. destruct (next s !! n) eqn:E; [by exfalso; eauto|].
  destruct (IH (ExitState (RegisterC (Some n) true) (set_next n (first (register s)) (next s)))
              (n :: l)) as (s' & Hs' & Ho' & Hc'); [done|by apply chain_push|..].
  - intros m [o Hm]. simpl in Hm. unfold set_next in Hm. destruct (decide (m = n)) as [->|]; [set_solver|].
    rewrite lookup_partial_alter_ne in Hm by done. set_solver.
  - rewrite <- Permutation_middle. constructor; [|done]. by rewrite not_elem_of_app.
  - exists s'. simpl. rewrite <- (assoc_L (++)). by split_and!.
Qed.

(** A list whose finalisers register nothing is executed in its order. *)
Lemma drain_chain or_else fuel h s l :
  (length l <= fuel)%nat → NoDup l → chain (next s) h l → first (register s) = None →
  (∀ s, first (register s) = None → ∃ s', or_else s = (None, s') ∧ first (register s') = None) →
  ∃ s', drain (λ _ s, s) take_next or_else fuel h s = Some (l, s') ∧ first (register s') = None ∧
    (l ≠ [] → ∃ s0, or_else s0 = (None, s')).
Proof.
  revert h s l. induction fuel as [|fuel IH]; intros h s l Hlen Hnd Hc Hf Hor.
  { destruct l; [|simpl in Hlen; lia]. simpl in Hc. subst h. by exists s. }
  destruct l as [|n l]; [simpl in Hc; subst h; by exists s|].
  destruct Hc as [-> Hc]. apply NoDup_cons in Hnd as [Hn Hnd]. simpl in Hlen.
  cbn [drain]. set (s1 := ExitState (register s) (set_next n None (next s))).
  change (take_next n s) with (next s !! n, s1).
  apply (chain_set_next _ n None _ _ Hn) in Hc.
  destruct (next s !! n) as [m|] eqn:E.
  - destruct (IH (Some m) s1 l) as (s' & -> & Hf' & Hlast); [lia|done..|].
    exists s'. split_and!; [done..|]. intros _. apply Hlast. by intros ->.
  - apply chain_nil in Hc as ->. destruct (Hor s1 Hf) as (s' & Hs' & Hf'). rewrite Hs'.
    exists s'. split_and!; [by destruct fuel|done|]. intros _. by exists s1.
Qed.

(** Objects registered one after the other are finalised at exit in the
    reverse order, each once, when their finalisers register nothing; the loop
    takes one round per object and leaves the register closed. *)
Theorem exit_lifo ns fuel :
  NoDup ns → ns ≠ [] → (length ns <= fuel)%nat →
  ∃ s s', register_all ns REGISTER_INIT = Some s ∧
    execute_at_exit (λ _ s, s) fuel s = Some (rev ns, s') ∧
    registration_opened (register s') = false.
Proof.
  intros Hnd Hne Hfuel.
  destruct (register_all_chain ns REGISTER_INIT []) as (s & Hs & _ & Hc);
    [done|done|by intros n [? ?]|by rewrite app_nil_r|].
  rewrite app_nil_r in Hc. exists s.
  destruct (drain_chain take_or_close fuel (first (register s)) (take_first s).2 (rev ns))
    as (s' & Hs' & Hf' & Hlast).
  - by rewrite length_rev.
  - by rewrite <- (Permutation_rev ns).
  - done.
  - done.
  - intros s0 H0. unfold take_or_close, take_first. rewrite H0. by eexists.
  - exists s'. split_and!; [done|exact Hs'|].
    destruct Hlast as (s0 & H0); [by intros H%(f_equal (@rev _)); rewrite rev_involutive in H|].
    unfold take_or_close, take_first in H0. by destruct (first (register s0)) eqn:E; simplify_eq/=.
Qed.

(** ** Finalisers that register objects

    What the registers have in common: objects are pushed in front of a list,
    the loop takes the nodes of a list in order and then the list that was
    pushed meanwhile. *)

Record list_register {S : Type} (heads : S → option node) (nexts : S → gmap node node)
    (opened : S → Prop) (push : node → S → S) (tnext : node → S → option node * S)
    (or_else : S → option node * S) : Prop := {
  lr_push n s : opened s → nexts s !! n = None →
    heads (push n s) = Some n ∧ nexts (push n s) = set_next n (heads s) (nexts s) ∧ opened (push n s);
  lr_next n s : opened s →
    (tnext n s).1 = nexts s !! n ∧ heads (tnext n s).2 = heads s ∧
    nexts (tnext n s).2 = set_next n None (nexts s) ∧ opened (tnext n s).2;
  lr_or_else s : opened s →
    (or_else s).1 = heads s ∧ heads (or_else s).2 = None ∧ nexts (or_else s).2 = nexts s ∧
    (heads s ≠ None → opened (or_else s).2);
}.

Section complete.
Context {S : Type} {heads : S → option node} {nexts : S → gmap node node} {opened : S → Prop}
  {push : node → S → S} {tnext : node → S → option node * S} {or_else : S → option node * S}
  (LR : list_register heads nexts opened push tnext or_else).

Lemma push_all ms s A w :
  opened s → chain (nexts s) (heads s) w → (∀ n, is_Some (nexts s !! n) → n ∈ A) →
  (∀ n, n ∈ w → n ∈ A) → NoDup (A ++ ms) →
  ∃ s', foldl (λ s m, push m s) s ms = s' ∧ opened s' ∧
  chain (nexts s') (heads s') (rev ms ++ w) ∧
  (∀ n, is_Some (nexts s' !! n) → n ∈ A ++ ms) ∧ (∀ n, n ∈ A → nexts s' !! n = nexts s !! n).
Proof using LR.
  revert s A w. induction ms as [|m ms IH]; intros s A w Ho Hc Hdom Hw Hnd.
  { exists s. rewrite app_nil_r. by split_and!. }
  assert ((m ∉ A) ∧ NoDup ((A ++ [m]) ++ ms)) as [Hm Hnd'].
  { rewrite <- (assoc_L (++)). split; [|done]. intros Hin.
    apply NoDup_app in Hnd as (_ & Hnd & _). apply (Hnd m Hin). list_mem. }
  assert (nexts s !! m = None) as Hnm by (destruct (nexts s !! m) eqn:E; [exfalso; eauto|done]).
  destruct (lr_push _ _ _ _ _ _ LR m s Ho Hnm) as (Hh' & Hn' & Ho').
  destruct (IH (push m s) (A ++ [m]) (m :: w)) as (s' & Hs' & Ho'' & Hc'' & Hdom'' & Hsame); [done|..|].
  - rewrite Hh', Hn'. apply chain_push; [by intros ?%Hw|done].
  - intros n. rewrite Hn'. unfold set_next. intros [o Hm'].
    destruct (decide (n = m)) as [->|]; [list_mem|].
    rewrite lookup_partial_alter_ne in Hm' by done. apply elem_of_app. left. apply Hdom. by exists o.
  - intros n [->|Hn]%elem_of_cons; [list_mem|]. apply elem_of_app. left. by apply Hw.
  - done.
  - exists s'. cbn [foldl rev]. rewrite <- (assoc_L (++)) in Hdom'' |- *. split_and!; [done..|].
    intros n Hn. rewrite Hsame by list_mem. rewrite Hn'. unfold set_next.
    rewrite lookup_partial_alter_ne; [done|]. by intros ->.
Qed.

(** The objects that each finaliser registers. *)
Context (regs : node → list node).

Definition registering (n : node) (s : S) : S := foldl (λ s m, push m s) s (regs n).

Context (init U : list node).
Context (Hfresh : ∀ e, NoDup e → NoDup (init ++ (e ≫= regs))).
Context (HU : ∀ n, n ∈ init → n ∈ U) (HUr : ∀ n m, n ∈ U → m ∈ regs n → m ∈ U).

Record drain_inv (e pend wait : list node) (s : S) : Prop := {
  di_opened : opened s;
  di_wait : chain (nexts s) (heads s) wait;
  di_nodup : NoDup (e ++ pend ++ wait);
  di_all : e ++ pend ++ wait ≡ₚ init ++ (e ≫= regs);
  di_dom n : is_Some (nexts s !! n) → n ∈ e ++ pend ++ wait;
  di_univ n : n ∈ e ++ pend ++ wait → n ∈ U;
}.

(** One round of the loop, up to the choice of the next node. *)
Lemma drain_round e n pend wait s :
  drain_inv e (n :: pend) wait s → chain (nexts s) (Some n) (n :: pend) →
  let r := tnext n (registering n s) in
  drain_inv (e ++ [n]) pend (rev (regs n) ++ wait) r.2 ∧ chain (nexts r.2) r.1 pend.
Proof using LR Hfresh HU HUr.
  intros [Ho Hw Hnd Hall Hdom Hun] [_ Hpend]. set (A := e ++ (n :: pend) ++ wait) in *.
  assert (NoDup (e ++ [n])) as Hen.
  { replace A with ((e ++ [n]) ++ pend ++ wait) in Hnd by (by rewrite <- (assoc_L (++))).
    by apply NoDup_app in Hnd as (? & _). }
  assert (NoDup (A ++ regs n)) as HndA.
  { rewrite Hall, <- (assoc_L (++)). pose proof (Hfresh _ Hen) as H.
    by rewrite bind_app in H; simpl in H; rewrite app_nil_r in H. }
  destruct (push_all (regs n) s A wait Ho Hw Hdom) as (s1 & Hs1 & Ho' & Hw' & Hdom' & Hsame);
    [unfold A; list_mem|done|].
  change (registering n s = s1) in Hs1. rewrite Hs1.
  destruct (lr_next _ _ _ _ _ _ LR n s1 Ho') as (Hr1 & Hh & Hn & Ho'').
  assert (n ∈ A) as HnA by (unfold A; list_mem).
  assert (n ∉ pend ++ wait) as Hnpw.
  { unfold A in Hnd. apply NoDup_app in Hnd as (_ & _ & Hnd). simpl in Hnd. by apply NoDup_cons in Hnd as [? _]. }
  apply not_elem_of_app in Hnpw as [Hnp Hnw].
  assert (n ∉ regs n) as Hnr by (apply NoDup_app in HndA as (_ & Hd & _); by apply Hd).
  assert ((e ++ [n]) ++ pend ++ rev (regs n) ++ wait ≡ₚ A ++ regs n) as Hperm.
  { unfold A. rewrite <- Permutation_rev. simpl. rewrite <- !(assoc_L (++)). simpl. solve_Permutation. }
  intros r. subst r. rewrite Hr1, (Hsame n HnA). split; [split|].
  - done.
  - rewrite Hh, Hn. apply chain_set_next; [|done]. rewrite <- Permutation_rev. list_mem.
  - by rewrite Hperm.
  - rewrite Hperm, Hall, bind_app. simpl. rewrite app_nil_r. by rewrite <- (assoc_L (++)).
  - intros m [o Hm]. rewrite Hperm. apply Hdom'. exists o. revert Hm. rewrite Hn. unfold set_next.
    destruct (decide (m = n)) as [->|]; [by rewrite lookup_partial_alter_eq|].
    by rewrite lookup_partial_alter_ne.
  - intros m. rewrite Hperm. intros [Hm|Hm]%elem_of_app; [by apply Hun|]. eapply HUr; [|done]. by apply Hun.
  - rewrite Hn. apply chain_set_next; [done|]. eapply chain_ext; [|exact Hpend].
    intros m Hm. apply Hsame. unfold A. list_mem.
Qed.

Lemma drain_complete fuel h s e pend wait :
  drain_inv e pend wait s → chain (nexts s) h pend → pend ≠ [] → (length U <= fuel + length e)%nat →
  ∃ tr s', drain registering tnext or_else fuel h s = Some (tr, s') ∧
    NoDup (e ++ tr) ∧ e ++ tr ≡ₚ init ++ ((e ++ tr) ≫= regs) ∧
    ∃ s0, or_else s0 = (None, s').
Proof using LR Hfresh HU HUr.
  revert h s e pend wait. induction fuel as [|fuel IH]; intros h s e pend wait Hinv Hc Hne Hfuel;
    (destruct pend as [|n pend]; [done|]); pose proof Hc as [-> _].
  { exfalso. pose proof (di_nodup _ _ _ _ Hinv) as Hnd. 
    replace (e ++ (n :: pend) ++ wait) with ((e ++ [n]) ++ pend ++ wait) in Hnd
      by (by rewrite <- (assoc_L (++))).
    apply NoDup_app in Hnd as (Hnd & _).
    assert (e ++ [n] ⊆+ U) as Hsub.
    { apply NoDup_submseteq; [done|]. intros m Hm. apply (di_univ _ _ _ _ Hinv). list_mem. }
    apply submseteq_length in Hsub. rewrite length_app in Hsub. simpl in *. lia. }
  destruct (drain_round _ _ _ _ _ Hinv Hc) as [Hinv' Hc']. cbn [drain].
  destruct (tnext n (registering n s)) as [o s1]. simpl in Hinv', Hc'.
  assert (length U <= fuel + length (e ++ [n]))%nat as Hfuel' by (rewrite length_app; simpl; lia).
  assert (∀ h s2 pend' wait', drain_inv (e ++ [n]) pend' wait' s2 → chain (nexts s2) h pend' → pend' ≠ [] →
    ∃ tr s', ('(tr, s) ← drain registering tnext or_else fuel h s2; Some (n :: tr, s)) = Some (tr, s') ∧
      NoDup (e ++ tr) ∧ e ++ tr ≡ₚ init ++ ((e ++ tr) ≫= regs) ∧ ∃ s0, or_else s0 = (None, s')) as Hgo.
  { intros h s2 pend' wait' Hi Hch Hp. destruct (IH h s2 (e ++ [n]) pend' wait' Hi Hch Hp Hfuel')
      as (tr & s' & -> & Hnd & Hperm & Hlast).
    exists (n :: tr), s'. rewrite <- !(assoc_L (++)) in Hnd, Hperm. by split_and!. }
  destruct o as [m|].
  { apply (Hgo _ _ _ _ Hinv' Hc'). intros ->. done. }
  apply chain_nil in Hc' as ->. set (wait' := rev (regs n) ++ wait) in *.
  pose proof (lr_or_else _ _ _ _ _ _ LR s1 (di_opened _ _ _ _ Hinv')) as (Hr & Hh & Hn & Ho).
  destruct (or_else s1) as [[m|] s2] eqn:Hor; simpl in Hr, Hh, Hn, Ho.
  - apply (Hgo (Some m) s2 wait' []).
    + destruct Hinv' as [_ Hw Hnd Hall Hdom Hun]. simpl in *.
      split; rewrite ?app_nil_r; rewrite ?Hn, ?Hh; try done. apply Ho. by rewrite <- Hr.
    + rewrite Hn, Hr. apply (di_wait _ _ _ _ Hinv').
    + intros E. pose proof (di_wait _ _ _ _ Hinv') as Hw. rewrite E in Hw. simpl in Hw. congruence.
  - pose proof (di_wait _ _ _ _ Hinv') as Hw. rewrite <- Hr in Hw. apply chain_nil in Hw as Hw.
    exists [n], s2. destruct Hinv' as [_ _ Hnd Hall _ _]. rewrite Hw in *. rewrite !app_nil_r in *.
    split_and!; [by destruct fuel|done|done|by exists s1].
Qed.
End complete.

(** ** Thread exit *)

(** The cells of one thread, the [next] fields of its objects and the number of
    callbacks that wait for its end. *)
Record thread_state := ThreadState {
  REGISTER : option node;
  t_next : gmap node node;
  DONE : bool;
  DESTROYING : bool;
  ITERATION_COUNT : nat;
  specific : bool;
  callbacks : nat;
}.

Definition THREAD_INIT : thread_state := ThreadState None ∅ false false 0 false 0.

Definition set_register (o : option node) (s : thread_state) : thread_state :=
  ThreadState o (t_next s) (DONE s) (DESTROYING s) (ITERATION_COUNT s) (specific s) (callbacks s).
Definition set_t_next (n : node) (o : option node) (s : thread_state) : thread_state :=
  ThreadState (REGISTER s) (set_next n o (t_next s)) (DONE s) (DESTROYING s) (ITERATION_COUNT s)
    (specific s) (callbacks s).

(** [Cell::take] of the register, and of a [next] field. *)
Definition take_register (s : thread_state) : option node * thread_state :=
  (REGISTER s, set_register None s).
Definition thread_take_next (n : node) (s : thread_state) : option node * thread_state :=
  (t_next s !! n, set_t_next n None s).

Module windows.
Definition finalize_at_thread_exit (st : node) (s : thread_state) : bool * thread_state :=
  if DONE s then (false, s)
  else
    let '(head, s) := take_register s in
    (true, set_register (Some st) (set_t_next st head s)).

(** [o_ptr.or_else(|| REGISTER.take());]: the closure runs, its result is not
    assigned. *)
Definition or_else (s : thread_state) : option node * thread_state := (None, (take_register s).2).

Definition destroy (run_finaliser : node → thread_state → thread_state) (detach : bool) (fuel : nat)
    (s : thread_state) : option (list node * thread_state) :=
  if detach then
    let '(head, s) := take_register s in
    '(tr, s) ← drain run_finaliser thread_take_next or_else fuel head s;
    Some (tr, ThreadState (REGISTER s) (t_next s) true (DESTROYING s) (ITERATION_COUNT s)
                (specific s) (callbacks s))
  else Some ([], s).
End windows.

Module cxa.
(** [None]: the weak symbol [__cxa_thread_atexit_impl] is null, the assertion
    fails. *)
Definition at_thread_exit (available : bool) (s : thread_state) : option thread_state :=
  if available then
    Some (ThreadState (REGISTER s) (t_next s) (DONE s) (DESTROYING s) (ITERATION_COUNT s)
            (specific s) (S (callbacks s)))
  else None.

Definition set_destroying (b : bool) (s : thread_state) : thread_state :=
  ThreadState (REGISTER s) (t_next s) (DONE s) b (ITERATION_COUNT s) (specific s) (callbacks s).

Definition execute_destroy (run_finaliser : node → thread_state → thread_state) (fuel : nat)
    (s : thread_state) : option (list node * thread_state) :=
  let '(head, s) := take_register (set_destroying true s) in
  '(tr, s) ← drain run_finaliser thread_take_next take_register fuel head s;
  Some (tr, set_destroying false s).

Definition finalize_at_thread_exit (available : bool) (st : node) (s : thread_state)
    : option bool * thread_state :=
  let '(old, s) := take_register s in
  match old with
  | Some old => (Some true, set_register (Some st) (set_t_next st (Some old) s))
  | None =>
      if negb (DESTROYING s) then
        match at_thread_exit available s with
        | Some s => (Some true, set_register (Some st) s)
        | None => (None, s)
        end
      else (Some true, set_register (Some st) s)
  end.
End cxa.

Module pthread.
Definition _POSIX_THREAD_DESTRUCTOR_ITERATIONS : nat := 4.

Definition execute_destroy (run_finaliser : node → thread_state → thread_state) (fuel : nat)
    (s : thread_state) : option (list node * thread_state) :=
  let '(head, s) := take_register s in
  drain run_finaliser thread_take_next take_register fuel head s.

(** [setspecific_ok] is what [pthread_setspecific] answers. *)
Definition register_on_thread_exit (setspecific_ok : bool) (st : node) (s : thread_state)
    : bool * thread_state :=
  let enlist s :=
    let '(head, s) := take_register s in
    (true, set_register (Some st) (set_t_next st head s)) in
  if negb (specific s) then
    if Nat.ltb (ITERATION_COUNT s) _POSIX_THREAD_DESTRUCTOR_ITERATIONS then
      if setspecific_ok then
        enlist (ThreadState (REGISTER s) (t_next s) (DONE s) (DESTROYING s) (S (ITERATION_COUNT s))
                  true (callbacks s))
      else (false, s)
    else (false, s)
  else enlist s.

(** The system's keys: creation may fail. *)
Class Keys (U : Type) := {
  pthread_key_create : U → option Z * U;
  pthread_key_delete : Z → U → U;
}.

Section get_key.
Context {U : Type} `{!Keys U}.
Open Scope Z_scope.

Definition usize_MAX : Z := 2 ^ 64 - 1.

Fixpoint get_key_loop (fuel : nat) (DESTRUCTOR_KEY : loc) (key : Z) : prog U (option Z) :=
  match fuel with
  | O => Diverge
  | S fuel =>
      if key =? usize_MAX then
        r ← do_op (Usr pthread_key_create);
        match r with
        | None =>
            key ← do_op (Load DESTRUCTOR_KEY);
            if negb (key =? usize_MAX) then Ret (Some key) else Ret None
        | Some lk =>
            if lk =? usize_MAX then
              do_op (Usr (λ u, (tt, pthread_key_delete lk u)));;
              get_key_loop fuel DESTRUCTOR_KEY key
            else
              r ← do_op (CompareExchange false DESTRUCTOR_KEY usize_MAX lk);
              match r with
              | Ok k => get_key_loop fuel DESTRUCTOR_KEY k
              | Err k =>
                  do_op (Usr (λ u, (tt, pthread_key_delete lk u)));;
                  get_key_loop fuel DESTRUCTOR_KEY k
              end
        end
      else Ret (Some key)
  end.

Definition get_key (fuel : nat) (DESTRUCTOR_KEY : loc) : prog U (option Z) :=
  key ← do_op (Load DESTRUCTOR_KEY);
  get_key_loop fuel DESTRUCTOR_KEY key.

(** [setspecific_ok] as above, by the key. *)
Definition finalize_at_thread_exit (fuel : nat) (DESTRUCTOR_KEY : loc) (setspecific_ok : Z → bool)
    (st : node) (s : thread_state) : prog U (bool * thread_state) :=
  k ← get_key fuel DESTRUCTOR_KEY;
  match k with
  | Some key => Ret (register_on_thread_exit (setspecific_ok key) st s)
  | None => Ret (false, s)
  end.
End get_key.
End pthread.

(** ** Properties of the thread exit *)

Definition cxa_push (n : node) (s : thread_state) : thread_state :=
  (cxa.finalize_at_thread_exit true n s).2.

Lemma cxa_register :
  list_register REGISTER t_next (λ s, DESTROYING s = true) cxa_push thread_take_next take_register.
Proof.
  split; [|done|done].
  intros n s Ho Hn. unfold cxa_push, cxa.finalize_at_thread_exit, take_register, set_register. simpl.
  destruct (REGISTER s) as [old|] eqn:E; simpl; rewrite ?Ho; simpl; [done|].
  split_and!; [done| |done]. by rewrite set_next_none.
Qed.

Lemma cxa_push_list ns s l :
  DESTROYING s = false → chain (t_next s) (REGISTER s) l →
  (∀ n, is_Some (t_next s !! n) → n ∈ l) → NoDup (ns ++ l) →
  let s' := foldl (λ s n, cxa_push n s) s ns in
  DESTROYING s' = false ∧ chain (t_next s') (REGISTER s') (rev ns ++ l) ∧
  (∀ n, is_Some (t_next s' !! n) → n ∈ rev ns ++ l) ∧
  callbacks s' =
    (callbacks s + (if REGISTER s is None then match ns with [] => 0 | _ => 1 end else 0))%nat.
Proof.
  revert s l. induction ns as [|n ns IH]; intros s l Hd Hc Hdom Hnd; cbn [foldl rev].
  { split_and!; try done. destruct (REGISTER s); lia. }
  simpl in Hnd. apply NoDup_cons in Hnd as [Hn Hnd]. apply not_elem_of_app in Hn as [Hn Hnl].
  assert (t_next s !! n = None) as Hnn by (destruct (t_next s !! n) eqn:E; [exfalso; eauto|done]).
  assert (DESTROYING (cxa_push n s) = false ∧ REGISTER (cxa_push n s) = Some n ∧
          t_next (cxa_push n s) = set_next n (REGISTER s) (t_next s) ∧
          callbacks (cxa_push n s) = (callbacks s + (if REGISTER s is None then 1 else 0))%nat)
    as (Hd' & Hr' & Hn' & Hc').
  { unfold cxa_push, cxa.finalize_at_thread_exit, take_register, set_register. simpl.
    destruct (REGISTER s) as [old|] eqn:E; simpl; rewrite ?Hd; simpl; [split_and!; done || lia|].
    split_and!; [done..| |lia]. by rewrite set_next_none. }
  destruct (IH (cxa_push n s) (n :: l)) as (? & Hc2 & Hdom2 & Hcb); [done|..].
  - rewrite Hr', Hn'. by apply chain_push.
  - intros m. rewrite Hn'. unfold set_next. intros [o Hm]. destruct (decide (m = n)) as [->|]; [list_mem|].
    rewrite lookup_partial_alter_ne in Hm by done. apply elem_of_cons. right. apply Hdom. by exists o.
  - rewrite <- Permutation_middle. constructor; [|done]. by rewrite not_elem_of_app.
  - rewrite <- (assoc_L (++)). split_and!; [done..|]. rewrite Hcb, Hr', Hc'. destruct (REGISTER s); lia.
Qed.

(** With the C++ runtime, the objects a thread registers and those that their
    finalisers register are all finalised when the thread ends, each exactly
    once, whatever finaliser registers what; the loop ends after as many rounds
    as there are objects, and the runtime was asked for one callback only. *)
Theorem cxa_finalises_all (init U : list node) regs fuel :
  init ≠ [] →
  (∀ e, NoDup e → NoDup (init ++ (e ≫= regs))) →
  (∀ n, n ∈ init → n ∈ U) → (∀ n m, n ∈ U → m ∈ regs n → m ∈ U) → (length U <= fuel)%nat →
  let s := foldl (λ s n, cxa_push n s) THREAD_INIT init in
  callbacks s = 1%nat ∧
  ∃ tr s', cxa.execute_destroy (registering (push:=cxa_push) regs) fuel s = Some (tr, s') ∧
    NoDup tr ∧ tr ≡ₚ init ++ (tr ≫= regs) ∧ REGISTER s' = None ∧ DESTROYING s' = false.
Proof.
  intros Hne Hfresh HU HUr Hfuel s.
  assert (NoDup init) as Hnd by (by specialize (Hfresh [] (NoDup_nil_2)); rewrite app_nil_r in Hfresh).
  destruct (cxa_push_list init THREAD_INIT []) as (Hd & Hc & Hdom & Hcb);
    [done|done|by intros n [? ?]|by rewrite app_nil_r|].
  fold s in Hd, Hc, Hdom, Hcb. rewrite app_nil_r in Hc, Hdom.
  split; [rewrite Hcb; by destruct init|].
  destruct (drain_complete cxa_register regs init U Hfresh HU HUr fuel (REGISTER s)
              (set_register None (cxa.set_destroying true s)) [] (rev init) [])
    as (tr & s' & Hrun & Hnd' & Hperm & s0 & Hlast).
  - split; simpl; rewrite ?app_nil_r; try done.
    + by rewrite <- Permutation_rev.
    + by rewrite <- Permutation_rev.
    + intros n Hn. apply HU. by rewrite Permutation_rev.
  - done.
  - intros H%(f_equal (@rev _)). by rewrite rev_involutive in H.
  - simpl. lia.
  - exists tr, (cxa.set_destroying false s'). unfold cxa.execute_destroy. simpl. rewrite Hrun.
    split_and!; try done. unfold take_register in Hlast. injection Hlast as _ <-. done.
Qed.

(** C35: on Windows the objects that a finaliser registers are accepted, dropped
    from the register when the list comes to its end, and never finalised; the
    same objects are finalised under the C++ runtime. *)
Theorem windows_drops_late_registrations (n m : node) fuel :
  n ≠ m → (2 <= fuel)%nat →
  let late r s := if decide (r = n) then (windows.finalize_at_thread_exit m s).2 else s in
  let s := (windows.finalize_at_thread_exit n THREAD_INIT).2 in
  (∀ s, DONE s = false → (windows.finalize_at_thread_exit m s).1 = true) ∧
  ∃ s', windows.destroy late true fuel s = Some ([n], s') ∧ REGISTER s' = None ∧ DONE s' = true ∧
    (windows.finalize_at_thread_exit m s').1 = false ∧
    ∃ s'', cxa.execute_destroy (registering (push:=cxa_push) (λ r, if decide (r = n) then [m] else []))
             fuel (cxa_push n THREAD_INIT) = Some ([n; m], s'').
Proof.
  intros Hnm Hfuel late s. split.
  { intros s0 Hs0. unfold windows.finalize_at_thread_exit. by rewrite Hs0. }
  destruct fuel as [|[|fuel]]; [lia..|].
  unfold windows.destroy, s, late, windows.finalize_at_thread_exit, take_register, set_register,
    set_t_next, THREAD_INIT. simpl.
  rewrite decide_True by done. simpl. rewrite !set_next_empty. simpl.
  eexists. split; [reflexivity|]. split_and!; try done.
  eexists. unfold cxa.execute_destroy, cxa_push, registering, cxa.finalize_at_thread_exit, take_register. simpl.
  destruct (decide (n = n)) as [_|?]; [|done]. simpl. rewrite lookup_empty. simpl.
  destruct (decide (m = n)) as [?|_]; [congruence|]. simpl. rewrite set_next_empty, lookup_empty.
  by destruct fuel.
Qed.

(** ** The key of the POSIX threads *)

Section keys.
Context {U : Type} `{!pthread.Keys U}.
Open Scope Z_scope.
#[local] Arguments ok : simpl never.

(** A thread that asks for the key again and again and asserts that it is the
    one that is stored. *)
Fixpoint key_client (fuel : nat) (DESTRUCTOR_KEY : loc) (n : nat) : prog U unit :=
  match n with
  | O => Ret tt
  | Datatypes.S n =>
      k ← pthread.get_key fuel DESTRUCTOR_KEY;
      match k with
      | Some k =>
          stored ← do_op (Load DESTRUCTOR_KEY);
          assert_prog (bool_decide (stored = k ∧ k ≠ pthread.usize_MAX));;
          key_client fuel DESTRUCTOR_KEY n
      | None => key_client fuel DESTRUCTOR_KEY n
      end
  end.

(** Once a key is stored it stays: the threads that know it agree on it. *)
Definition key_inv (DESTRUCTOR_KEY : loc) (s : state U) (g : agree Z) : Prop :=
  match g with
  | AgreeNone => True
  | Agree _ k => rd s DESTRUCTOR_KEY = k ∧ k ≠ pthread.usize_MAX
  | AgreeBot => False
  end.

Definition knows (k : Z) : agree Z := if decide (k = pthread.usize_MAX) then AgreeNone else Agree 1 k.

Lemma key_learn l s g f k :
  key_inv l s (g ⋅ f) → rd s l = k → k ≠ pthread.usize_MAX → (g = AgreeNone ∨ g = Agree 1 k) →
  key_inv l s (Agree 1 k ⋅ f).
Proof.
  intros Hinv Hrd Hk [-> | ->]; [|done]. destruct f as [|m j|]; simpl in *; [by split| |done].
  destruct Hinv as [Hj _]. rewrite Hrd in Hj. by rewrite decide_True.
Qed.

Lemma load_key_ok l :
  ok (key_inv l) (do_op (Load l)) pcm_unit (λ k h, h = knows k) (λ _, False).
Proof.
  apply ok_op; [done|]. intros f s Hinv. simpl. exists (knows (rd s l)). split; [|done].
  unfold knows. destruct (decide _); [done|]. eapply key_learn; eauto.
Qed.

Lemma key_usr_ok {T} l (f : U → T * U) h :
  ok (key_inv l) (do_op (Usr f)) h (λ _ h', h' = h) (λ _, False).
Proof.
  apply ok_op; [done|]. intros fr s Hinv. simpl. destruct (f (usr s)) as [x u]. exists h.
  split; [|done]. exact Hinv.
Qed.

Lemma get_key_loop_ok fuel l key :
  ok (key_inv l) (pthread.get_key_loop fuel l key) (knows key)
    (λ r h, match r with Some k => h = Agree 1 k ∧ k ≠ pthread.usize_MAX | None => True end) (λ _, False).
Proof.
  revert key. induction fuel as [|fuel IH]; intros key; [exact I|]. cbn [pthread.get_key_loop].
  destruct (Z.eqb_spec key pthread.usize_MAX) as [->|Hkey].
  2:{ unfold knows. rewrite decide_False by done. by split. }
  assert (knows pthread.usize_MAX = pcm_unit) as Hu by (unfold knows; by rewrite decide_True).
  rewrite Hu. apply ok_bind. eapply ok_mono; [apply key_usr_ok|cbv beta|done].
  intros [lk|] h ->.
  - destruct (Z.eqb_spec lk pthread.usize_MAX) as [_|Hlk].
    { apply ok_bind. eapply ok_mono; [apply key_usr_ok|cbv beta|done]. intros [] h ->. rewrite <- Hu. apply IH. }
    apply ok_bind. apply ok_cas.
    + intros f s Hinv Hrd. exists pcm_unit. split; [|rewrite <- Hu; apply IH].
      rewrite (left_id_L pcm_unit pcm_op) in *. destruct f as [|m j|]; simpl in *; [done| |done].
      destruct Hinv as [<- Hne]. done.
    + intros f s Hinv [?|Hne]; [done|]. exists (Agree 1 (rd s l)).
      split; [eapply key_learn; eauto|]. apply ok_bind.
      eapply ok_mono; [apply key_usr_ok|cbv beta|done]. intros [] h ->.
      specialize (IH (rd s l)). unfold knows in IH. by rewrite decide_False in IH.
  - apply ok_bind. eapply ok_mono; [apply load_key_ok|cbv beta|done]. intros k h ->.
    unfold knows. destruct (Z.eqb_spec k pthread.usize_MAX), (decide (k = pthread.usize_MAX)); done.
Qed.

(** The key under which POSIX threads run the finalisers: any number of
    threads create it at the same time, and each that is given a key is given
    the one that is stored, which never changes again and is not the value that
    stands for no key. *)
Theorem get_key_agrees fuel (l : loc) (calls : list nat) s ps s' :
  reachable (key_client fuel l <$> calls) s ps s' → no_panic ps.
Proof.
  apply (ok_pool_no_panic (key_inv l) _ (replicate (length calls) pcm_unit));
    [|by rewrite pcm_sum_replicate_unit].
  apply Forall2_fmap_l. apply Forall2_same_length_lookup_2; [by rewrite length_replicate|].
  intros i n g _ Hg. apply lookup_replicate in Hg as [-> _].
  generalize (pcm_unit (G:=agree Z)). induction n as [|n IH]; intros h; [exact I|].
  cbn [key_client]. rewrite <- (left_id_L pcm_unit pcm_op h).
  eapply ok_frame_bind with (Qp := λ _, False); [|cbv beta|by intros ? []].
  { apply ok_bind. eapply ok_mono; [apply load_key_ok|cbv beta|done].
    intros k h' ->. apply get_key_loop_ok. }
  intros [k|] h'; [|intros _; apply IH]. intros [-> Hk]. apply ok_bind.
  apply ok_op; [done|]. intros f s0 Hinv. simpl. exists (Agree 1 k ⋅ h). split; [done|].
  assert (rd s0 l = k) as ->.
  { rewrite <- (assoc_L pcm_op) in Hinv. revert Hinv. generalize (h ⋅ f). intros [|m j|]; simpl;
      [by intros []| |done]. case_decide; [|done]. by intros []. }
  rewrite assert_bind by (by apply bool_decide_true). apply IH.
Qed.
End keys.

Lemma exit_finalises_all_witness :
  let c := Config (ExitState (RegisterC None false) ∅) Finished [1%positive] [1%positive] [2%positive] false in
  executed c ≡ₚ accepted c.
Proof.
  intros c. apply (exit_finalises_all c); [|done|done].
  set (s1 := ExitState (RegisterC (Some 1%positive) true) ∅).
  set (s2 := ExitState (RegisterC None true) ∅).
  set (s3 := ExitState (RegisterC None false) ∅).
  eapply rtc_l; [apply (StepRegister 1 _ _ _ _ _ _ true s1); [apply not_elem_of_nil..|reflexivity]|].
  eapply rtc_l; [by apply (StepStart s1 [] [1%positive] [] false (Some 1%positive) s2)|].
  eapply rtc_l; [apply StepExecute|].
  eapply rtc_l; [by apply (StepNext 1 s2 [1%positive] [1%positive] [] false None s2)|].
  eapply rtc_l; [by apply (StepClose s2 [1%positive] [1%positive] [] false None s3)|].
  eapply rtc_l; [apply StepFinish|].
  apply rtc_once. apply (StepRegister 2 s3 _ _ [1%positive] [] _ false s3); [by rewrite list_elem_of_singleton|apply not_elem_of_nil|reflexivity].
Defined.

Lemma exit_lifo_witness :
  ∃ s s', register_all [1; 2; 3]%positive REGISTER_INIT = Some s ∧
    execute_at_exit (λ _ s, s) 3 s = Some ([3; 2; 1]%positive, s') ∧
    registration_opened (register s') = false.
Proof.
  apply (exit_lifo [1; 2; 3]%positive 3); [|done|simpl; lia].
  by apply (bool_decide_unpack _).
Defined.

(** One object whose finaliser registers another. *)
Definition demo_regs (n : node) : list node := if decide (n = 1%positive) then [2%positive] else [].

Lemma demo_regs_other n : n ≠ 1%positive → demo_regs n = [].
Proof. intros. unfold demo_regs. by rewrite decide_False. Qed.

Lemma demo_regs_fresh e : NoDup e → NoDup ([1%positive] ++ (e ≫= demo_regs)).
Proof.
  assert (∀ e, 1%positive ∉ e → e ≫= demo_regs = []) as Hnone.
  { clear e. induction e as [|n e IH]; [done|]. intros [Hn He]%not_elem_of_cons.
    rewrite bind_cons, demo_regs_other by done. by apply IH. }
  intros Hnd. assert (e ≫= demo_regs = [] ∨ e ≫= demo_regs = [2%positive]) as [-> | ->].
  { induction Hnd as [|n e Hn _ IH]; [by left|]. rewrite bind_cons.
    destruct (decide (n = 1%positive)) as [->|Hne]; [right; by rewrite (Hnone e Hn)|].
    by rewrite demo_regs_other. }
  - apply NoDup_singleton.
  - by apply (bool_decide_unpack _).
Qed.

Lemma cxa_finalises_all_witness :
  ∃ tr s', cxa.execute_destroy (registering (push:=cxa_push) demo_regs) 2 (cxa_push 1 THREAD_INIT) = Some (tr, s') ∧
    NoDup tr ∧ tr ≡ₚ [1%positive] ++ (tr ≫= demo_regs) ∧ REGISTER s' = None ∧ DESTROYING s' = false.
Proof.
  apply (cxa_finalises_all [1%positive] [1; 2]%positive demo_regs 2); [done|apply demo_regs_fresh|..|simpl; lia].
  - intros n Hn. rewrite list_elem_of_singleton in Hn. subst n. list_mem.
  - intros n m Hn. unfold demo_regs. destruct (decide (n = 1%positive)).
    + intros Hm. rewrite list_elem_of_singleton in Hm. subst m. list_mem.
    + intros Hm. by apply elem_of_nil in Hm.
Defined.

Lemma windows_drops_late_registrations_witness :
  let late r s := if decide (r = 1%positive) then (windows.finalize_at_thread_exit 2 s).2 else s in
  ∃ s', windows.destroy late true 2 (windows.finalize_at_thread_exit 1 THREAD_INIT).2 = Some ([1%positive], s') ∧
    REGISTER s' = None ∧ DONE s' = true.
Proof.
  destruct (windows_drops_late_registrations 1 2 2 ltac:(done) ltac:(lia)) as [_ (s' & H1 & H2 & H3 & _)].
  by exists s'.
Defined.

(** A system that creates two keys and then has none left. *)
#[local] Instance demo_keys : pthread.Keys (list Z) := {
  pthread_key_create u := match u with k :: u => (Some k, u) | [] => (None, []) end;
  pthread_key_delete k u := k :: u;
}.

Lemma get_key_agrees_witness :
  let s := State (<[1%positive := pthread.usize_MAX]> ∅) [7; 9] in
  no_panic (key_client 3 1%positive <$> [2%nat; 1%nat]) ∧
  (run (pthread.get_key 3 1%positive) [] s).1 = Returned (Some 7).
Proof.
  split; [|vm_compute; reflexivity].
  eapply (get_key_agrees 3 1%positive [2%nat; 1%nat] (State (<[1%positive := pthread.usize_MAX]> ∅) [7; 9])).
  apply rtc_refl.
Defined.
