(* ===== verification/PthreadExit.v ===== *)
(** * The end of a thread under POSIX (src/exit_sequentializer.rs, mod pthread)

    A thread learns of its end from a key with a destructor: the system calls the
    destructor of each key whose value is not null, after it has set the value to
    null, and goes through the keys again while there are such values, up to a number
    of iterations. The objects of the thread are on its register; whoever puts one
    there makes sure that the key has a value. The file composes these as a step
    relation, in which the code of the thread, the destructors of other keys and the
    finalisers register objects in any order. *)

From stdpp Require Import base list option numbers gmap relations.
From S2P Require Import Prelude ExitSequentializer.

(** ** The life of a thread *)

(** Where [pthread::execute_destroy] stands. *)
Inductive thread_pc :=
| Idle
| Looping (o : option node)  (* before the test of the loop *)
| Ran (n : node)  (* the finaliser of [n] is running or has run *)
| TookLast.  (* the [next] of the last node was [None] *)

Record thread_config := ThreadConfig {
  th_state : thread_state;
  th_pc : thread_pc;
  th_executed : list node;
  th_accepted : list node;
  th_turns : nat;       (* calls of the destructor of the key *)
  th_iteration : nat;   (* of the system, none while the thread runs *)
  th_served : bool;     (* whether the iteration has gone past the key *)
}.

Definition thread_start : thread_config := ThreadConfig THREAD_INIT Idle [] [] 0 0 true.

Definition set_specific (b : bool) (s : thread_state) : thread_state :=
  ThreadState (REGISTER s) (t_next s) (DONE s) (DESTROYING s) (ITERATION_COUNT s) b (callbacks s).

(** The system makes [iterations] iterations at most. *)
Inductive thread_step (iterations : nat) : relation thread_config :=
| TRegister n s pc ex acc t i v setspecific_ok b s' :
    n ∉ acc → pthread.register_on_thread_exit setspecific_ok n s = (b, s') →
    thread_step iterations (ThreadConfig s pc ex acc t i v)
      (ThreadConfig s' pc ex (if b : bool then acc ++ [n] else acc) t i v)
| TIteration s ex acc t i :
    i < iterations →
    thread_step iterations (ThreadConfig s Idle ex acc t i true) (ThreadConfig s Idle ex acc t (S i) false)
| TSkip s ex acc t i :
    specific s = false →
    thread_step iterations (ThreadConfig s Idle ex acc t i false) (ThreadConfig s Idle ex acc t i true)
| TTurn s ex acc t i o s' :
    specific s = true → take_register (set_specific false s) = (o, s') →
    thread_step iterations (ThreadConfig s Idle ex acc t i false) (ThreadConfig s' (Looping o) ex acc (S t) i true)
| TForce s ex acc t o s' :  (* [force_main_thread_destructor] *)
    take_register s = (o, s') →
    thread_step iterations (ThreadConfig s Idle ex acc t 0 true) (ThreadConfig s' (Looping o) ex acc t 0 true)
| TExecute n s ex acc t i v :
    thread_step iterations (ThreadConfig s (Looping (Some n)) ex acc t i v) (ThreadConfig s (Ran n) (ex ++ [n]) acc t i v)
| TTake n s ex acc t i v o s' :
    thread_take_next n s = (o, s') →
    thread_step iterations (ThreadConfig s (Ran n) ex acc t i v)
      (ThreadConfig s' (if o is Some _ then Looping o else TookLast) ex acc t i v)
| TOrElse s ex acc t i v o s' :
    take_register s = (o, s') →
    thread_step iterations (ThreadConfig s TookLast ex acc t i v) (ThreadConfig s' (Looping o) ex acc t i v)
| TLeave s ex acc t i v :
    thread_step iterations (ThreadConfig s (Looping None) ex acc t i v) (ThreadConfig s Idle ex acc t i v).

(** ** The invariant *)

(** What the loop has in its hands. *)
Definition thread_chain (m : gmap node node) (p : thread_pc) (pending : list node) : Prop :=
  match p with
  | Idle | TookLast => pending = []
  | Looping o => chain m o pending
  | Ran n => chain m (m !! n) pending
  end.

Record thread_inv (c : thread_config) : Prop := {
  ti_lists : ∃ pending waiting,
    thread_chain (t_next (th_state c)) (th_pc c) pending ∧
    chain (t_next (th_state c)) (REGISTER (th_state c)) waiting ∧
    NoDup (th_executed c ++ pending ++ waiting) ∧
    th_accepted c ≡ₚ th_executed c ++ pending ++ waiting;
  ti_next n : is_Some (t_next (th_state c) !! n) → n ∈ th_accepted c;
  ti_ran n : th_pc c = Ran n → n ∈ th_executed c;
  ti_specific : REGISTER (th_state c) ≠ None → specific (th_state c) = true;
  ti_count : ITERATION_COUNT (th_state c) = th_turns c + (if specific (th_state c) then 1 else 0) ∧
    ITERATION_COUNT (th_state c) ≤ pthread._POSIX_THREAD_DESTRUCTOR_ITERATIONS;
}.

Lemma thread_start_inv : thread_inv thread_start.
Proof.
  split; simpl; [|by intros n [? ?]|done|done|unfold pthread._POSIX_THREAD_DESTRUCTOR_ITERATIONS; lia].
  exists [], []. split_and!; [done|done|constructor|done].
Qed.

(** A registration that is accepted puts the object in front, and the key has a
    value then; one that is refused changes nothing. *)
Lemma register_posix ok n s b s' :
  pthread.register_on_thread_exit ok n s = (b, s') →
  if b : bool then
    REGISTER s' = Some n ∧ t_next s' = set_next n (REGISTER s) (t_next s) ∧ specific s' = true ∧
    ITERATION_COUNT s' = ITERATION_COUNT s + (if specific s then 0 else 1) ∧
    (specific s = false → ITERATION_COUNT s < pthread._POSIX_THREAD_DESTRUCTOR_ITERATIONS)
  else s' = s.
Proof.
  unfold pthread.register_on_thread_exit, take_register. destruct (specific s) eqn:Esp; simpl.
  { intros [= <- <-]. simpl. rewrite Esp. split_and!; [done..|lia|done]. }
  destruct (Nat.ltb_spec (ITERATION_COUNT s) pthread._POSIX_THREAD_DESTRUCTOR_ITERATIONS); [|by intros [= <- <-]].
  destruct ok; [|by intros [= <- <-]]. intros [= <- <-]. simpl. split_and!; [done..|lia|done].
Qed.

Lemma register_keeps_inv ok n s p ex acc t i v b s' :
  thread_inv (ThreadConfig s p ex acc t i v) → n ∉ acc → pthread.register_on_thread_exit ok n s = (b, s') →
  thread_inv (ThreadConfig s' p ex (if b : bool then acc ++ [n] else acc) t i v).
Proof.
  intros Hinv Hn Hreg%register_posix. destruct b; [|by subst s'].
  destruct Hreg as (Hr & Hnx & Hsp & Hc & Hlt).
  destruct Hinv as [(pend & wait & Hpend & Hwait & Hnd & Hacc) Hnext Hran _ [Hcount Hmax]]; simpl in *.
  rewrite Hacc in Hn. apply not_elem_of_app in Hn as [Hnex [Hnp Hnw]%not_elem_of_app].
  split; simpl.
  - rewrite Hr, Hnx. exists pend, (n :: wait). split_and!.
    + destruct p as [|o|m|]; simpl in *; try done; [by apply chain_set_next|].
      unfold set_next. rewrite lookup_partial_alter_ne by (intros ->; by apply Hnex, Hran). by apply chain_set_next.
    + by apply chain_push.
    + rewrite !(assoc_L (++)), <- Permutation_middle, <- !(assoc_L (++)). constructor; [|done].
      rewrite !not_elem_of_app. by split_and!.
    + rewrite Hacc. solve_Permutation.
  - intros m [o Hm]. rewrite Hnx in Hm. unfold set_next in Hm. destruct (decide (m = n)) as [->|]; [set_solver|].
    rewrite lookup_partial_alter_ne in Hm by done. apply elem_of_app. left. apply Hnext. by exists o.
  - done.
  - done.
  - rewrite Hsp, Hc. destruct (specific s); [lia|]. specialize (Hlt eq_refl). lia.
Qed.

(** The register is taken into the hands of the loop. *)
Lemma take_keeps_inv s s' p ex acc t t' i v o :
  thread_inv (ThreadConfig s p ex acc t i v) → p = Idle ∨ p = TookLast →
  REGISTER s = o → REGISTER s' = None → t_next s' = t_next s → ITERATION_COUNT s' = ITERATION_COUNT s →
  t + (if specific s then 1 else 0) = t' + (if specific s' then 1 else 0) →
  ∀ i' v', thread_inv (ThreadConfig s' (Looping o) ex acc t' i' v').
Proof.
  intros [(pend & wait & Hpend & Hwait & Hnd & Hacc) Hnext Hran _ [Hcount Hmax]] Hp Ho Hr Hnx Hc Ht i' v'; simpl in *.
  assert (pend = []) as -> by (by destruct Hp as [-> | ->]).
  split; simpl; rewrite ?Hnx, ?Hr, ?Hc; [|done|done|done|lia].
  exists wait, []. rewrite app_nil_r, <- Ho. by split_and!.
Qed.

Lemma thread_step_inv k c c' : thread_step k c c' → thread_inv c → thread_inv c'.
Proof.
  intros Hstep Hinv. destruct Hstep as
    [n s p ex acc t i v ok b s' Hn Hreg|s ex acc t i _|s ex acc t i _|s ex acc t i o s' Hsp Htake
    |s ex acc t o s' Htake|n s ex acc t i v|n s ex acc t i v o s' Htake|s ex acc t i v o s' Htake|s ex acc t i v].
  - by eapply register_keeps_inv.
  - by destruct Hinv.
  - by destruct Hinv.
  - injection Htake as <- <-. eapply take_keeps_inv; [exact Hinv|by left|done..|]. simpl. rewrite Hsp. lia.
  - injection Htake as <- <-. eapply take_keeps_inv; [exact Hinv|by left|done..].
  - destruct Hinv as [(pend & wait & Hpend & Hwait & Hnd & Hacc) Hnext Hran Hsp Hc]; simpl in *.
    apply chain_some in Hpend as (pend' & -> & Hpend). split; simpl; [|done| |done|done].
    + exists pend', wait. rewrite <- !(assoc_L (++)). by split_and!.
    + intros m [= <-]. list_mem.
  - destruct Hinv as [(pend & wait & Hpend & Hwait & Hnd & Hacc) Hnext Hran Hsp Hc]; simpl in *.
    injection Htake as <- <-. specialize (Hran n eq_refl). assert ((n ∉ pend) ∧ (n ∉ wait)) as [Hnp Hnw].
    { apply NoDup_app in Hnd as (_ & Hnd & _). specialize (Hnd n Hran). by apply not_elem_of_app in Hnd. }
    split; simpl; [| | |done|done].
    + exists pend, wait. split_and!; [|by apply chain_set_next|done..].
      destruct (t_next s !! n) as [m|]; simpl; [by apply chain_set_next|by apply chain_nil in Hpend].
    + intros m [o Hm]. apply Hnext. unfold set_next in Hm.
      destruct (decide (m = n)) as [->|]; [by rewrite lookup_partial_alter_eq in Hm|].
      rewrite lookup_partial_alter_ne in Hm by done. by exists o.
    + intros m. by destruct (t_next s !! n).
  - injection Htake as <- <-. eapply take_keeps_inv; [exact Hinv|by right|done..].
  - destruct Hinv as [(pend & wait & Hpend & Hwait & Hnd & Hacc) Hnext Hran Hsp Hc]; simpl in *.
    apply chain_nil in Hpend as ->. split; simpl; [by exists [], wait|done..].
Qed.

Lemma thread_reachable_inv k c : rtc (thread_step k) thread_start c → thread_inv c.
Proof.
  intros Hr. assert (∀ c0, rtc (thread_step k) c0 c → thread_inv c0 → thread_inv c) as Hgen.
  { clear Hr. intros c0 Hr. induction Hr; eauto using thread_step_inv. }
  eauto using thread_start_inv.
Qed.

(** ** The turn of the key *)

(** Without further registrations the loop executes what it has in hand. *)
Lemma loop_ends k o pending s ex acc t i v :
  chain (t_next s) o pending → NoDup pending → REGISTER s = None →
  ∃ s', rtc (thread_step k) (ThreadConfig s (Looping o) ex acc t i v)
              (ThreadConfig s' Idle (ex ++ pending) acc t i v).
Proof.
  revert o s ex. induction pending as [|n pending IH]; intros o s ex Hc Hnd Hr.
  { apply chain_nil in Hc || simpl in Hc; subst o. exists s. rewrite app_nil_r. apply rtc_once, TLeave. }
  destruct Hc as [-> Hc]. apply NoDup_cons in Hnd as [Hn Hnd].
  set (s1 := (thread_take_next n s).2).
  assert (chain (t_next s1) (t_next s !! n) pending) as Hc1 by by apply chain_set_next.
  assert (rtc (thread_step k) (ThreadConfig s (Looping (Some n)) ex acc t i v)
    (ThreadConfig s1 (if t_next s !! n is Some _ then Looping (t_next s !! n) else TookLast) (ex ++ [n]) acc t i v)) as Hr1.
  { eapply rtc_l; [apply TExecute|]. apply rtc_once, TTake. done. }
  destruct (t_next s !! n) as [m|] eqn:Em.
  - destruct (IH (Some m) s1 (ex ++ [n])) as [s' Hr']; [done..|].
    exists s'. rewrite <- (assoc_L (++)) in Hr'. by etrans.
  - apply chain_nil in Hc1 as ->. exists (set_register None s1). etrans; [exact Hr1|].
    eapply rtc_l; [by apply TOrElse|]. simpl. rewrite Hr. apply rtc_once, TLeave.
Qed.

Lemma turn_drains k c :
  thread_inv c → th_pc c = Idle → specific (th_state c) = true → th_served c = false →
  ∃ c', rtc (thread_step k) c c' ∧ th_pc c' = Idle ∧ th_accepted c' = th_accepted c ∧
    th_executed c' ≡ₚ th_accepted c.
Proof.
  destruct c as [s p ex acc t i v]. simpl. intros Hinv -> Hsp ->.
  destruct Hinv as [(pend & wait & Hpend & Hwait & Hnd & Hacc) _ _ _ _]; simpl in *. subst pend.
  destruct (loop_ends k (REGISTER s) wait (set_register None (set_specific false s)) ex acc (S t) i true)
    as [s' Hr]; [done|by apply NoDup_app in Hnd as (_ & _ & ?)|done|].
  exists (ThreadConfig s' Idle (ex ++ wait) acc (S t) i true). split_and!; [|done|done|done].
  eapply rtc_l; [by apply TTurn|]. exact Hr.
Qed.

(** ** Properties *)

(** C29: A thread under POSIX, with the code of the thread, the destructors of other
    keys and the finalisers registering objects in whatever order, refused or not as
    the system says: no object is finalised twice or without having been accepted,
    and the destructor of the key is called four times at most, which every system
    allows. Whenever the key has no value and the destructor is not running, all
    accepted objects have been finalised; otherwise the next turn of the key
    finalises them all, and there is one unless the system has gone past the key in
    its last iteration. *)
Theorem posix_finalises_all iterations c :
  rtc (thread_step iterations) thread_start c →
  NoDup (th_executed c) ∧ (∀ n, n ∈ th_executed c → n ∈ th_accepted c) ∧
  th_turns c ≤ pthread._POSIX_THREAD_DESTRUCTOR_ITERATIONS ∧
  (th_pc c = Idle → specific (th_state c) = false → th_executed c ≡ₚ th_accepted c) ∧
  (th_pc c = Idle → th_iteration c < iterations ∨ th_served c = false →
     ∃ c', rtc (thread_step iterations) c c' ∧ th_pc c' = Idle ∧ th_accepted c' = th_accepted c ∧
       th_executed c' ≡ₚ th_accepted c).
Proof.
  intros Hinv%thread_reachable_inv. pose proof Hinv as [(pend & wait & Hpend & Hwait & Hnd & Hacc) _ _ Hsp [Hc Hmax]].
  assert (th_pc c = Idle → specific (th_state c) = false → th_executed c ≡ₚ th_accepted c) as Hall.
  { intros Hpc Hs. rewrite Hpc in Hpend. simpl in Hpend. subst pend.
    destruct (REGISTER (th_state c)); [by rewrite Hsp in Hs|]. apply chain_nil in Hwait as ->. by rewrite Hacc, app_nil_r. }
  split_and!; [by apply NoDup_app in Hnd as (? & _)| |lia|done|].
  { intros n Hn. rewrite Hacc. apply elem_of_app. by left. }
  intros Hpc Hturn. destruct (specific (th_state c)) eqn:Es; [|by exists c; split_and!; [apply rtc_refl|..|by apply Hall]].
  destruct (th_served c) eqn:Ev; [|by apply turn_drains].
  destruct Hturn as [Hi|]; [|done]. destruct c as [s p ex acc t i v]; simpl in *. subst p v.
  destruct (turn_drains iterations (ThreadConfig s Idle ex acc t (S i) false)) as (c' & Hr & Hc');
    [by destruct Hinv|done|done|done|].
  exists c'. split; [|done]. eapply rtc_l; [by apply TIteration|done].
Qed.

(** What is counted is how often the key got a value, and not the iterations of the
    system: an object that is registered in the last one, by the destructor of
    another key, is accepted and never finalised. *)
Theorem posix_last_iteration_lost (n : node) :
  ∃ c, rtc (thread_step 4) thread_start c ∧ n ∈ th_accepted c ∧
    ∀ c', rtc (thread_step 4) c c' → n ∉ th_executed c'.
Proof.
  set (s := (pthread.register_on_thread_exit true n THREAD_INIT).2).
  exists (ThreadConfig s Idle [] [n] 0 4 true). split_and!; [|set_solver|].
  - do 4 (eapply rtc_l; [apply TIteration; lia|]; eapply rtc_l; [by apply TSkip|]).
    eapply rtc_once, (TRegister 4 n _ _ [] [] _ _ _ true true); [set_solver|done].
  - intros c' Hr. remember (ThreadConfig s Idle [] [n] 0 4 true) as c eqn:Ec.
    assert (th_pc c = Idle ∧ th_iteration c = 4 ∧ th_served c = true ∧ th_executed c = []) as Hc by (by subst c).
    clear Ec. assert (th_executed c' = []) as ->; [|set_solver].
    induction Hr as [c|c c1 c2 Hstep _ IH]; [by destruct Hc as (_ & _ & _ & ?)|]. apply IH.
    destruct Hc as (Hpc & Hi & Hv & Hex). inversion Hstep; subst; simpl in *; try done. lia.
Qed.

(** ** A concrete thread *)

(** The finaliser of the first object registers the second one. *)
Lemma posix_finalises_all_witness :
  ∃ c, rtc (thread_step 4) thread_start c ∧ th_accepted c = [1; 2]%positive ∧
    (th_pc c = Idle → specific (th_state c) = false → th_executed c ≡ₚ th_accepted c) ∧
    th_pc c = Idle.
Proof.
  assert (∃ c, rtc (thread_step 4) thread_start c ∧ th_accepted c = [1; 2]%positive ∧ th_pc c = Idle) as (c & Hr & Hacc & Hpc).
  { eexists. split.
    { eapply rtc_l; [apply (TRegister 4 1%positive _ _ _ _ _ _ _ true true); [set_solver|reflexivity]|].
    eapply rtc_l; [apply TIteration; lia|]. eapply rtc_l; [by apply TTurn|]. eapply rtc_l; [apply TExecute|].
    eapply rtc_l; [apply (TRegister 4 2%positive _ _ _ _ _ _ _ true true); [set_solver|reflexivity]|].
    eapply rtc_l; [by apply TTake|]. eapply rtc_l; [by apply TOrElse|]. eapply rtc_l; [apply TExecute|].
    eapply rtc_l; [by apply TTake|]. eapply rtc_l; [by apply TOrElse|]. apply rtc_once, TLeave. }
    split; reflexivity. }
  destruct (posix_finalises_all 4 c Hr) as (_ & _ & _ & Hall & _). by exists c.
Defined.
