(* ===== verification/ExitWorld.v ===== *)
(** * The world of a lazy that is finalised at an exit

    The register of the objects to finalise as a part of the user state, the
    program that exits and the thread that ends, and threads that use one lazy of
    that world. The registers of [ExitSequentializer] all fit ([Registers]). *)

From stdpp Require Import base list option numbers gmap.
From S2P Require Import Prelude Word Phase Atomics Locker Sequentializer Policy Traits GenericLazy Lazy LazyTypes LazySafety ExitSequentializer.
Open Scope Z_scope.

(** ** Registers *)

(** The head of the list, the registration of an object, [None] if an assertion
    fails there, and the build flag that the policies of thread locals read. *)
Class Registers (R : Type) := {
  head_of : R → option node;
  enlist : node → R → option bool * R;
  cxa_thread_at_exit : bool;
}.

#[export] Instance program_register : Registers exit_state := {
  head_of s := first (register s);
  enlist := finalize_at_exit;
  cxa_thread_at_exit := true;
}.

(** The registers of a thread, by the way it learns of its end. *)
Definition cxa_register (available : bool) : Registers thread_state := {|
  head_of := REGISTER;
  enlist := cxa.finalize_at_thread_exit available;
  cxa_thread_at_exit := true;
|}.
Definition windows_register : Registers thread_state := {|
  head_of := REGISTER;
  enlist st s := let '(b, s) := windows.finalize_at_thread_exit st s in (Some b, s);
  cxa_thread_at_exit := false;
|}.

(** What the registers promise: an object is put in front of a list, as long as the
    register is open and the object is on no list. *)
Class RegisterLaws {R : Type} (RG : Registers R) := {
  reg_next : R → gmap node node;
  reg_open : R → Prop;
  enlist_open n r :
    reg_open r → reg_next r !! n = None →
    (enlist n r).1 = Some true ∧ head_of (enlist n r).2 = Some n ∧
    reg_next (enlist n r).2 = set_next n (head_of r) (reg_next r) ∧ reg_open (enlist n r).2;
}.

#[export, refine] Instance program_laws : RegisterLaws program_register := {|
  reg_next := next;
  reg_open r := registration_opened (register r) = true;
|}.
Proof. intros n r Ho Hn. simpl in *. unfold finalize_at_exit. by rewrite Ho, Hn. Defined.

#[export, refine] Instance cxa_laws : RegisterLaws (cxa_register true) := {|
  reg_next := t_next;
  reg_open _ := True;
|}.
Proof.
  intros n r _ Hn. simpl. unfold cxa.finalize_at_thread_exit, take_register. simpl.
  destruct (REGISTER r); [done|]. rewrite set_next_none by done. by destruct (DESTROYING r).
Defined.

#[export, refine] Instance windows_laws : RegisterLaws windows_register := {|
  reg_next := t_next;
  reg_open r := DONE r = false;
|}.
Proof. intros n r Ho Hn. simpl in *. unfold windows.finalize_at_thread_exit, take_register. by rewrite Ho. Defined.

(** What a loop over the list does to the register when its finalisers register
    nothing: it unlinks the objects one by one, and finds no list after the first. *)
Record loop_laws {R : Type} {RG : Registers R} (RL : RegisterLaws RG) (take : R → option node * R)
    (take_next : node → R → option node * R) (or_else : R → option node * R) (closed : R → Prop) : Prop := {
  ll_take r : (take r).1 = head_of r ∧ head_of (take r).2 = None ∧ reg_next (take r).2 = reg_next r;
  ll_next n r :
    (take_next n r).1 = reg_next r !! n ∧ head_of (take_next n r).2 = head_of r ∧
    reg_next (take_next n r).2 = set_next n None (reg_next r);
  ll_or_else r : head_of r = None → (or_else r).1 = None ∧ closed (or_else r).2;
}.

Lemma program_loop : loop_laws program_laws take_first take_next take_or_close (λ r, registration_opened (register r) = false).
Proof. split; [done..|]. intros r Hr. simpl in Hr. unfold take_or_close, take_first. by rewrite Hr. Qed.
Lemma cxa_loop : loop_laws cxa_laws take_register thread_take_next take_register (λ r, REGISTER r = None).
Proof. done. Qed.
Lemma windows_loop : loop_laws windows_laws take_register thread_take_next windows.or_else (λ r, REGISTER r = None).
Proof. done. Qed.

(** The register as a part of the user state. The mutex of the program's makes
    each critical section one step; a thread is alone with its own. *)
Class ExitRegister (U R : Type) := {
  reg_get : U → R;
  reg_set : R → U → U;
}.

Section program.
Context {U R : Type} `{!ExitRegister U R} `{!Registers R}.

Definition on_register {T} (f : R → T * R) : prog U T :=
  do_op (Usr (λ u, let '(x, s) := f (reg_get u) in (x, reg_set s u))).

Definition register_node (st : node) : prog U bool :=
  r ← on_register (enlist st);
  match r with
  | Some b => Ret b
  | None => Panic
  end.

Section exit.
Context (execute : node → prog U unit) (take_next : node → R → option node * R) (or_else : R → option node * R).

(** The loop [while let Some(r) = list]. *)
Fixpoint exit_loop (fuel : nat) (list : option node) : prog U unit :=
  match list, fuel with
  | None, _ => Ret tt
  | Some _, O => Diverge
  | Some r, S fuel =>
      execute r;;
      o ← on_register (take_next r);
      list ← match o with Some _ => Ret o | None => on_register or_else end;
      exit_loop fuel list
  end.
End exit.
End program.

(** The end of the program, of a thread with the C++ runtime, and of one on
    Windows. *)
Section ends.
Context {U : Type} (execute : node → prog U unit).

Definition exit_program `{!ExitRegister U exit_state} (fuel : nat) : prog U unit :=
  list ← on_register take_first;
  exit_loop execute take_next take_or_close fuel list.

Definition cxa_destroy `{!ExitRegister U thread_state} (fuel : nat) : prog U unit :=
  on_register (λ s, (tt, cxa.set_destroying true s));;
  list ← on_register take_register;
  exit_loop execute thread_take_next take_register fuel list;;
  on_register (λ s, (tt, cxa.set_destroying false s)).

(** On the reasons [DLL_THREAD_DETACH] and [DLL_PROCESS_DETACH]. *)
Definition windows_destroy `{!ExitRegister U thread_state} (fuel : nat) : prog U unit :=
  list ← on_register take_register;
  exit_loop execute thread_take_next windows.or_else fuel list;;
  on_register (λ s, (tt, ThreadState (REGISTER s) (t_next s) true (DESTROYING s) (ITERATION_COUNT s)
                           (specific s) (callbacks s))).
End ends.

(** ** The world of one such lazy

    The storage, the register, and a history: the runs of the generator, whether
    the object has ever been on the register, the number of its finalisations and
    the values that threads have read through references. *)
Record final_world (V R : Type) := ExitWorld {
  w_runs : nat;
  w_content : option V;
  w_accepted : bool;
  w_finals : nat;
  w_seen : list V;
  w_register : R;
}.
Arguments ExitWorld {V R} w_runs w_content w_accepted w_finals w_seen w_register.
Arguments w_runs {V R} f.
Arguments w_content {V R} f.
Arguments w_accepted {V R} f.
Arguments w_finals {V R} f.
Arguments w_seen {V R} f.
Arguments w_register {V R} f.

Definition fresh_world {V R} (r : R) : final_world V R := ExitWorld 0 None false 0 [] r.

(** Dropping the value in place finalises the object. *)
#[export] Instance exit_memory V R : Memory (final_world V R) unit V := {
  mem_get _ u := w_content u;
  mem_set _ v u :=
    ExitWorld (w_runs u) v (w_accepted u) (if v is None then S (w_finals u) else w_finals u)
      (w_seen u) (w_register u);
}.

Section world.
Context {V R L : Type} {BF : Bitflags} {RG : Registers R} {ops : PhaseLocker (final_world V R) L}.
(** The generator returns or panics at each run, the user's finaliser or
    destructor on each value; the object is the node [n]. *)
Context (Tol : GeneratorTolerance) (f : nat → option V) (fin : V → bool) (n : node) (l : L).

#[export] Instance exit_register : ExitRegister (final_world V R) R := {
  reg_get := w_register;
  reg_set s u :=
    ExitWorld (w_runs u) (w_content u)
      (w_accepted u || bool_decide (head_of s = Some n ∧ head_of (w_register u) ≠ Some n))
      (w_finals u) (w_seen u) s;
}.

Definition exit_generator : prog (final_world V R) V :=
  k ← do_op (Usr (λ u, (w_runs u, ExitWorld (S (w_runs u)) (w_content u) (w_accepted u) (w_finals u)
                                    (w_seen u) (w_register u))));
  match f k with
  | Some v => Ret v
  | None => Panic
  end.

Definition destructor (v : V) : prog (final_world V R) unit := if fin v then Ret tt else Panic.

(** The user's [finaly] reads the object. *)
Definition user_finaly (x : unit) : prog (final_world V R) unit :=
  v ← do_op (Usr (λ u, (w_content u, ExitWorld (w_runs u) (w_content u) (w_accepted u) (S (w_finals u))
                                       (w_seen u) (w_register u))));
  match v with
  | Some v => destructor v
  | None => Undef
  end.

Definition exit_lazy (t : lazy_type) : @GenericLazy (final_world V R) L ops unit V :=
  from_generator t cxa_thread_at_exit Tol (λ _, register_node n) destructor user_finaly user_finaly exit_generator l tt.

(** The only node of this world is the lazy. *)
Definition execute_lazy (t : lazy_type) (r : node) : prog (final_world V R) unit :=
  if decide (r = n) then execute ops _ _ Tol (data_finaly (gz_data (exit_lazy t))) (gz_seq (exit_lazy t)) else Undef.

(** A thread that uses references to the object. *)
Definition exit_read_ref (x : unit) : prog (final_world V R) unit :=
  v ← do_op (Usr (λ u, (w_content u, ExitWorld (w_runs u) (w_content u) (w_accepted u) (w_finals u)
                                       (if w_content u is Some v then v :: w_seen u else w_seen u) (w_register u))));
  match v with
  | Some _ => Ret tt
  | None => Undef
  end.

(** A thread that uses the lazy through the [LazyAccess] of a static. *)
Definition exit_client (t : lazy_type) (script : list lazy_cmd) : prog (final_world V R) unit :=
  access_client (A:=static_access) exit_read_ref (exit_lazy t) script.
End world.
