(* ===== verification/ExitSafety.v ===== *)
(** * Lazies that are finalised while the program exits

    The lazies that register themselves for finalisation, [LazyFinalize],
    [LockedLazyFinalize] and [LockedLazyDroped], shared by threads that use them
    while another thread exits the program: it takes the objects off the register
    and finalises or drops each under its write lock. The thread that takes the
    object off the register holds the ticket to finalise it ([Tickets]). *)

From stdpp Require Import base list option numbers gmap relations.
From S2P Require Import Prelude Word Phase Atomics Locker Tickets Sequentializer Policy Traits GenericLazy Lazy LockedClients LazyTypes LazySafety ExitSequentializer ExitWorld Tokens Futex FutexLocker FutexInv FutexRules Seats FutexSafety Quiet SeatedLazies.
Open Scope Z_scope.

(** ** The program that exits *)

Abbreviation exit_world V := (final_world V exit_state).
Definition exit_fresh {V} : exit_world V := fresh_world REGISTER_INIT.

(** A finaliser that panics ends the thread. *)
Definition exit_thread {V L : Type} {BF : Bitflags} {ops : PhaseLocker (exit_world V) L} (Tol : GeneratorTolerance)
    (f : nat → option V) (fin : V → bool) (n : node) (l : L) (t : lazy_type) (fuel : nat) : prog (exit_world V) unit :=
  _ ← catch (@exit_program (exit_world V) (execute_lazy Tol f fin n l t) (exit_register n) fuel); Ret tt.

(** ** The contract of the lock word with the world *)

Section contract.
Context {V : Type} {BF : Bitflags} (Tol : GeneratorTolerance) (n : node).
(** [hard]: the object is dropped; [shared]: it is accessed through references
    that outlive the lock. *)
Context (hard shared : bool).

Definition exit_policy : LazyPolicy :=
  if hard then InitializedHardFinalizedChecker Tol else InitializedSoftFinalizedChecker Tol.

Lemma exit_accessible p :
  is_accessible exit_policy p = intersects p INITIALIZED && (negb hard || negb (is_finalized p)).
Proof. unfold exit_policy. destruct hard; simpl; by rewrite ?andb_true_r. Qed.

Lemma exit_shall_init p :
  shall_init exit_policy p = if INIT_FAILURE Tol then negb (intersects p INITIALIZED) else is_empty p.
Proof. unfold exit_policy. by destruct hard. Qed.

Lemma exit_post_init q :
  fin_reached (shall_init exit_policy) Tol q → post_init_is_accessible exit_policy q = true →
  is_accessible exit_policy q = true.
Proof.
  intros Hreach Hacc.
  assert (intersects q INITIALIZED = true) as Hi.
  { apply (post_init_initialized Tol false hard); [|done|]; unfold exit_policy in *; by destruct hard. }
  rewrite exit_accessible, Hi. unfold exit_policy in Hacc. unfold is_finalized.
  destruct hard; simpl in Hacc |- *; [|done]. rewrite Hi in Hacc. by destruct (INIT_FAILURE Tol && _).
Qed.

(** An object to initialise is not initialised. *)
Lemma exit_shall_not_initialized p :
  shall_init exit_policy p = true → intersects p INITIALIZED = false.
Proof. rewrite exit_shall_init. apply (shall_init_not_initialized Tol). Qed.

Abbreviation data := (option V * bool * nat)%type.
Definition exit_view (u : exit_world V) : data := (w_content u, w_accepted u, w_finals u).

Record exit_K (p : Phase) (u : exit_world V) : Prop := {
  K_next : next (w_register u) = ∅;
  K_first : first (register (w_register u)) = None ∨
    (first (register (w_register u)) = Some n ∧ w_accepted u = true ∧ w_finals u = 0%nat);
  K_finals : w_finals u = 0%nat ∨ (w_finals u = 1%nat ∧ w_accepted u = true);
  K_phase : w_finals u = 0%nat → is_finalized p = false;
  K_stored : shared = true → intersects p INITIALIZED = true → is_Some (w_content u);
  K_seen v : shared = true → v ∈ w_seen u → w_content u = Some v;
}.

Record exit_R (p : Phase) (d : data) : Prop := {
  R_value : is_accessible exit_policy p = true → is_Some d.1.1;
  R_new : p = empty_flags → d.1.2 = false;
  R_idle : intersects p INITIALIZED = false → is_finalized p = false ∧ d.2 = 0%nat;
  R_unstored : shared = true → intersects p INITIALIZED = false → d.1.1 = None;
}.

(** The object has been taken off the register and not been finalised yet. *)
Definition exit_tick (u : exit_world V) : bool :=
  w_accepted u && bool_decide (first (register (w_register u)) = None) && bool_decide (w_finals u = 0%nat).

Definition exit_contract : contract (exit_world V) data :=
  Contract exit_view exit_K exit_R (λ p, shared && intersects p INITIALIZED) exit_tick.

(** A phase without initialisation may be left with the data of an object that
    is not initialised. *)
Lemma idle_moves p q ct a :
  intersects p INITIALIZED = false → intersects q INITIALIZED = false → is_finalized q = false →
  q ≠ empty_flags → (shared = true → ct = None) → moves exit_contract p q (ct, a, 0%nat).
Proof.
  intros Hp Hq Hf Hne Hct. split_and!.
  - intros u _ [Hn Hfi Hfs Hph Hst Hse]. split; try done. by rewrite Hq.
  - split; try done; [by rewrite exit_accessible, Hq|]. intros Hs _. by apply Hct.
  - cbn. rewrite Hp. by destruct shared.
Qed.

(** The phase is that of an initialised object. *)
Lemma init_moves p q v a :
  intersects p INITIALIZED = false → intersects q INITIALIZED = true → is_finalized q = false →
  q ≠ empty_flags → moves exit_contract p q (Some v, a, 0%nat).
Proof.
  intros Hp Hq Hf Hne. split_and!.
  - intros u [= Hu _ _] [Hn Hfi Hfs Hph Hst Hse]. by split.
  - split; try done; intros; congruence || by eexists.
  - cbn. rewrite Hp. by destruct shared.
Qed.

(** The object has been finalised. *)
Lemma final_moves p q ct :
  intersects p INITIALIZED = true → intersects q INITIALIZED = true → is_finalized q = true →
  q ≠ empty_flags → (hard = false → is_Some ct) → (shared = true → hard = false) →
  moves exit_contract p q (ct, true, 1%nat).
Proof.
  intros Hp Hq Hf Hne Hct Hsh. split_and!.
  - intros u [= Hu _ Hfi'] [Hn Hfi Hfs Hph Hst Hse]. split; try done.
    + rewrite Hfi'. done.
    + intros Hs _. rewrite Hu. by apply Hct, Hsh.
  - split; try (intros; congruence).
    rewrite exit_accessible, Hq, Hf. destruct hard; simpl; [done|]. intros _. by apply Hct.
  - cbn. by rewrite Hp, Hq.
Qed.

Lemma fresh_exit_K : exit_K empty_flags exit_fresh.
Proof.
  split; simpl; try done; try by left.
  - intros _. unfold is_finalized. by rewrite intersects_empty.
  - by rewrite intersects_empty.
  - by intros v _ Hv%elem_of_nil.
Qed.

Lemma fresh_exit_R : exit_R empty_flags (exit_view exit_fresh).
Proof.
  split; simpl; try done.
  - by rewrite exit_accessible, intersects_empty.
  - intros _. unfold is_finalized. by rewrite intersects_empty.
Qed.
End contract.

(** ** What initialisation, registration and finalisation do *)

Section operations.
Context {V L : Type} {BF : Bitflags} {ops : PhaseLocker (exit_world V) L} {Hq : QuietLocker ops}.
Context (Tol : GeneratorTolerance) (f : nat → option V) (fin : V → bool) (n : node) (l : L).
Context (hard shared : bool) (t : lazy_type).

(** The types that the exit of the program finalises. *)
Definition exit_type : Prop :=
  impl_manager (impl_of t) = ExitSequentializer ∧
  impl_checker (impl_of t) = (if hard then CHard else CSoft) ∧
  impl_data (impl_of t) = (if hard then KDropedUnInited else KUnInited).

Context (Ht : exit_type).
#[local] Instance this_register : ExitRegister (exit_world V) exit_state := exit_register n.
Abbreviation this := (exit_lazy Tol f fin n l t).
Abbreviation policy := (exit_policy Tol hard).
Abbreviation shall := (shall_init policy).
#[local] Arguments ok : simpl never.

Lemma exit_policy_eq : gz_policy this = policy.
Proof using Ht.
  destruct Ht as (_ & Hc & _). unfold exit_lazy, from_generator, gz_new, exit_policy. simpl.
  rewrite Hc. by destruct hard.
Qed.

Lemma exit_man_eq : gz_man this = exit_sequentializer ops (@GenericLazySeq L unit) unit Tol (λ _, register_node n).
Proof using Ht.
  destruct Ht as (Hm & _). unfold exit_lazy, from_generator, gz_new. simpl. by rewrite Hm.
Qed.

Lemma exit_locker_eq : seq_locker (sequentializer (gz_seq this)) = l.
Proof using. done. Qed.

Lemma exit_write_eq : data_init (gz_data this) = write_data.
Proof using Ht.
  destruct Ht as (_ & _ & Hd). unfold exit_lazy, from_generator, gz_new. simpl. rewrite Hd.
  by destruct hard.
Qed.

Context {G : Type} {P : PCM G} (base : PhaseLockerSpec (G:=G) ops (ticketless (exit_contract Tol n hard shared)) l).
Abbreviation c := (exit_contract (V:=V) Tol n hard shared).
#[local] Instance spec : PhaseLockerSpec (G:=G * excl unit) ops c l := ticketed c l base.

(** A run of the generator, and the value stored. *)
Lemma exit_closure_ok p ct a sp pp :
  intersects p INITIALIZED = false → (shared = true → ct = None) →
  intersects sp INITIALIZED = true → is_finalized sp = false → sp ≠ empty_flags →
  intersects pp INITIALIZED = false → is_finalized pp = false → pp ≠ empty_flags →
  init_ok (spec:=spec) (gz_init_closure this) tt p (ct, a, 0%nat) sp pp.
Proof using Ht.
  intros Hp Hct Hs1 Hs2 Hs3 Hp1 Hp2 Hp3.
  unfold init_ok, gz_init_closure. rewrite exit_write_eq. cbn [gz_generator exit_lazy from_generator gz_new].
  apply ok_bind. unfold exit_generator. apply ok_bind.
  eapply ok_mono; [apply (spec_write (PhaseLockerSpec := spec)); [done|]|cbv beta|by intros ? []].
  { intros u _ []. by split. }
  intros k h (u & Hu & _ & _ & ->). cbn [snd].
  change (view c _) with (exit_view u) at 1. cbn in Hu. rewrite Hu.
  destruct (f k) as [v|]; cbv beta iota delta [ok].
  - eapply ok_mono; [apply (spec_write (PhaseLockerSpec := spec)); [done|]|cbv beta|by intros ? []].
    + intros u' [= Hc' Ha' Hf'] []. split; try done; cbn.
      intros w Hsh Hw. specialize (K_seen0 w Hsh Hw). by rewrite Hc', Hct in K_seen0.
    + intros [] h (u' & Hu' & _ & _ & ->). eexists. split; [reflexivity|].
      cbn in Hu' |- *. injection Hu' as Hc' Ha' Hf'. unfold exit_view. cbn. rewrite Ha', Hf'.
      by apply init_moves.
  - eexists. split; [reflexivity|]. by apply idle_moves.
Qed.

(** Registration gives the object to the register once. *)
Lemma register_step p ct (u : exit_world V) :
  exit_view u = (ct, false, 0%nat) → exit_K n shared p u →
  let '(r, u') := (λ u, let '(x, s) := finalize_at_exit n (reg_get u) in (x, reg_set s u)) u in
  exit_K n shared p u' ∧ exit_tick u' = exit_tick u ∧
  ∃ b, r = Some b ∧ exit_view u' = (ct, b, 0%nat).
Proof using.
  destruct u as [runs ct' a fi seen [[fst op] nx]]. intros [= -> -> ->] [Hn Hfi Hfs Hph Hst Hse].
  cbn in Hn, Hfi. subst nx. assert (fst = None) as -> by (destruct Hfi as [?|(_ & ? & _)]; done).
  unfold finalize_at_exit. cbn. destruct op; cbn.
  - rewrite lookup_empty. cbn. rewrite bool_decide_true by done. cbn. split_and!.
    + split; cbn; try done; [by right|by left].
    + done.
    + by exists true.
  - split_and!; [|done|by exists false]. split; cbn; try done; by left.
Qed.

Lemma register_node_ok p ct :
  ok linv (register_node n) (own_w p (ct, false, 0%nat))
    (λ b h, h = own_w p (ct, b, 0%nat)) (λ _, False).
Proof using.
  apply ok_bind. eapply ok_mono; [apply (spec_write (PhaseLockerSpec := spec))|cbv beta|by intros ? []].
  - intros u Hu HK. pose proof (register_step p ct u Hu HK) as H. cbn in Hu, H |- *.
    destruct (finalize_at_exit n (w_register u)). by destruct H as (_ & ? & _).
  - intros u Hu HK. pose proof (register_step p ct u Hu HK) as H. cbn in Hu, H |- *.
    destruct (finalize_at_exit n (w_register u)). by destruct H as (? & _ & _).
  - intros r h (u & Hu & HK & -> & ->). pose proof (register_step p ct u Hu HK) as H. cbn in Hu, H |- *.
    destruct (finalize_at_exit n (w_register u)) as [r s]. destruct H as (_ & _ & b & -> & Hv). cbn in *.
    by rewrite Hv.
Qed.

(** What is left by an attempt that found phase [p]. *)
Lemma registered_moves p ct a rf :
  intersects p INITIALIZED = false → (shared = true → ct = None) →
  intersects rf INITIALIZED = false → is_finalized rf = false →
  registered_ok (spec:=spec) Tol (gz_init_closure this) (gz_seq this) p (ct, a, 0%nat) rf.
Proof using Ht.
  intros Hp Hct Hrf Hf. destruct constants_not_finalized as (Hi & _ & Hs & _).
  split; intros Hpro.
  - apply exit_closure_ok; try done.
    + apply or_initialized.
    + by rewrite is_finalized_or, before_init_finalized, Hf, Hi.
    + apply or_flag_not_empty. by rewrite is_empty_eq.
    + apply failed_phase_not_initialized. by right.
    + by rewrite failed_phase_finalized.
    + apply or_flag_not_empty. by rewrite is_empty_eq.
  - apply idle_moves; try done.
    + rewrite intersects_or, Hrf. by flags_const.
    + by rewrite is_finalized_or, Hf, Hs.
    + apply or_flag_not_empty. by rewrite is_empty_eq.
Qed.

Lemma exit_fin_ok p d :
  shall p = true → R c p d → phase_range p →
  fin_ok (c:=c) Tol (gz_init_closure this) (λ _, register_node n) (gz_seq this) p d.
Proof using Ht.
  intros Hsh HR _. destruct d as [[ct a] fi].
  pose proof (exit_shall_not_initialized _ _ _ Hsh) as Hni.
  destruct (R_idle _ _ _ _ _ HR Hni) as [Hf Hfi]. cbn in Hfi. subst fi.
  assert (shared = true → ct = None) as Hct by (intros Hs; exact (R_unstored _ _ _ _ _ HR Hs Hni)).
  destruct constants_not_finalized as (_ & _ & Hs1 & Hs2 & Hs3 & Hs4).
  split; intros He; [|by apply registered_moves].
  assert (p = empty_flags) as Hp.
  { rewrite exit_shall_init in Hsh. apply is_empty_true. destruct (INIT_FAILURE Tol); done. }
  assert (a = false) as -> by exact (R_new _ _ _ _ _ HR Hp).
  eapply ok_mono; [apply register_node_ok|cbv beta|by intros ? []].
  intros b h ->. eexists. split; [reflexivity|].
  apply registered_moves; [done..| |]; destruct b; try done; by rewrite intersects_eq.
Qed.

(** ** The finaliser *)

Context (Hshared : shared = true → hard = false).

(** What the holder of the ticket knows. *)
Lemma ticket_facts p d (u : exit_world V) :
  exit_view u = d → exit_tick u = true → exit_K n shared p u →
  d = (w_content u, true, 0%nat) ∧ is_finalized p = false ∧ first (register (w_register u)) = None.
Proof using.
  intros <- Ht' HK. unfold exit_tick in Ht'.
  apply andb_true_iff in Ht' as [[Ha Hr%bool_decide_eq_true]%andb_true_iff Hf%bool_decide_eq_true].
  split_and!; [unfold exit_view; by rewrite Ha, Hf|by apply (K_phase _ _ _ _ HK)|done].
Qed.

(** The step that finalises. *)
Lemma spend_ticket p (u : exit_world V) ct :
  exit_tick u = true → exit_K n shared p u → (shared = true → ct = w_content u) →
  exit_K n shared p
    (ExitWorld (w_runs u) ct (w_accepted u) (S (w_finals u)) (w_seen u) (w_register u)).
Proof using.
  intros Ht' HK Hct. destruct (ticket_facts p _ u eq_refl Ht' HK) as ([= Ha Hf] & _ & Hr).
  destruct HK as [Hn Hfi Hfs Hph Hst Hse]. split; cbn; try done.
  - by left.
  - right. by rewrite Ha, Hf.
  - intros Hs Hp. rewrite Hct by done. by apply Hst.
  - intros v Hs Hv. rewrite Hct by done. by apply Hse.
Qed.

Abbreviation finalises m p d :=
  (ok linv m (own_w p d ⋅ own_ticket)
    (λ _ h, ∃ d', h = own_w p d' ∧ moves c p (p .| FINALIZED) d')
    (λ h, ∃ d', h = own_w p d' ∧ moves c p (p .| FINALIZATION_PANICKED) d')).

(** The destructor of the value, which returns or panics. *)
Lemma destructor_ok p v ct :
  intersects p INITIALIZED = true → (hard = false → is_Some ct) →
  ok linv (destructor fin v) (own_w p (ct, true, 1%nat))
    (λ _ h, ∃ d', h = own_w p d' ∧ moves c p (p .| FINALIZED) d')
    (λ h, ∃ d', h = own_w p d' ∧ moves c p (p .| FINALIZATION_PANICKED) d').
Proof using Hshared.
  intros Hi Hct. unfold destructor.
  assert (∀ q, q = FINALIZED ∨ q = FINALIZATION_PANICKED → moves c p (p .| q) (ct, true, 1%nat)) as Hm.
  { intros q Hq'. apply final_moves; [done|by rewrite intersects_or, Hi| | |done..].
    - rewrite is_finalized_or. apply orb_true_iff. right. unfold is_finalized.
      rewrite intersects_or_r. by destruct Hq' as [-> | ->]; rewrite !intersects_eq.
    - apply or_flag_not_empty. by destruct Hq' as [-> | ->]; rewrite is_empty_eq. }
  destruct (fin v); cbv beta iota delta [ok]; eexists; (split; [reflexivity|]); auto.
Qed.

(** Under the write lock of an initialised object, who holds the ticket drops it; *)
Lemma drop_finalises p d :
  hard = true → intersects p INITIALIZED = true → R c p d → finalises (drop_in_place (destructor fin) tt) p d.
Proof using Hshared.
  intros Eh Hi HR. apply ok_bind.
  eapply ok_mono; [apply (ticket_use _ _ base _ false)|cbv beta|by intros ? []].
  - intros u Hu Htk HK. split; [|done]. apply spend_ticket; try done.
    intros Hs. by rewrite Hshared in Eh.
  - intros o h (u & Hu & Htk & HK & -> & ->).
    destruct (ticket_facts p d u Hu Htk HK) as (-> & Hf & _).
    destruct (R_value _ _ _ _ _ HR) as [v Hv]; [by rewrite exit_accessible, Hi, Hf, orb_true_r|].
    rewrite (right_id_L pcm_unit pcm_op). cbn in Hv. cbn [fst snd mem_get exit_memory]. rewrite Hv.
    replace (view c _) with (None (A:=V), true, 1%nat) by (injection Hu as Ha Hf'; cbn; unfold exit_view; cbn; congruence).
    apply destructor_ok; [done|congruence].
Qed.

(** or lets the user finalise it, through a reference. *)
Lemma uninit_finalises p d :
  hard = false → intersects p INITIALIZED = true → R c p d →
  finalises (x ← as_ref tt; user_finaly fin x) p d.
Proof using Hshared.
  intros Eh Hi HR. destruct (R_value _ _ _ _ _ HR) as [v Hv]; [by rewrite exit_accessible, Hi, Eh|].
  apply ok_bind. unfold as_ref. apply ok_bind.
  eapply ok_mono; [by apply (ticket_use _ _ base _ true)|cbv beta|by intros ? []].
  intros o h (u & Hu & Htk & HK & -> & ->). cbn [fst snd mem_get exit_memory].
  assert (w_content u = Some v) as Hv' by (by rewrite <- Hu in Hv).
  rewrite Hv', Hu. cbv beta iota delta [ok]. unfold user_finaly. apply ok_bind.
  eapply ok_mono; [apply (ticket_use _ _ base _ false)|cbv beta|by intros ? []].
  - intros u' Hu' Htk' HK'. split; [|done]. by apply spend_ticket.
  - intros o h (u' & Hu' & Htk' & HK' & -> & ->).
    destruct (ticket_facts p d u' Hu' Htk' HK') as (-> & _).
    rewrite (right_id_L pcm_unit pcm_op). cbn in Hv. cbn [fst snd]. rewrite Hv.
    replace (view c _) with (Some v, true, 1%nat) by (injection Hu' as Ha Hf'; cbn; unfold exit_view; cbn; congruence).
    apply destructor_ok; [done|by eexists].
Qed.

Lemma exit_finaly_ok p d :
  intersects p INITIALIZED = true → R c p d → finalises (data_finaly (gz_data this) tt) p d.
Proof using Ht Hshared.
  intros Hi HR. destruct Ht as (_ & _ & Hd). unfold exit_lazy, from_generator, gz_new. cbn [gz_data].
  assert (hard = true ∨ hard = false) as [E|E] by (by destruct hard; auto); rewrite E in Hd; rewrite Hd.
  - by apply drop_finalises.
  - by apply uninit_finalises.
Qed.

(** ** The thread that exits *)

Lemma execute_ok r :
  r = n →
  ok linv (execute_lazy Tol f fin n l t r) own_ticket (λ _ _, True) (λ _, True).
Proof using Ht Hshared.
  intros ->. unfold execute_lazy, execute. rewrite decide_True by done.
  eapply ok_mono; [apply (finalize_callback_ok (c:=c) (l:=l) (gz_seq this) exit_locker_eq _ own_ticket)|done|done].
  intros p d Hi HR _. by apply exit_finaly_ok.
Qed.

(** The steps of the register. Taking an object off it gives the ticket. *)
Definition taken (o : option node) (h : G * excl unit) : Prop :=
  match o with Some r => r = n ∧ h = own_ticket | None => h = pcm_unit end.

Section register_steps.
Context (g : exit_state → option node * exit_state).
Context (Hg_first : ∀ s, first (register (g s).2) = None) (Hg_next : ∀ s, next s = ∅ → next (g s).2 = ∅).

Lemma register_step_eq (u : exit_world V) :
  (let '(x, s) := g (reg_get u) in (x, reg_set s u)) =
  ((g (w_register u)).1,
   ExitWorld (w_runs u) (w_content u) (w_accepted u) (w_finals u) (w_seen u) (g (w_register u)).2).
Proof using Hg_first.
  cbn. specialize (Hg_first (w_register u)). destruct (g (w_register u)) as [o s]. cbn in *.
  rewrite Hg_first, bool_decide_false by (by intros [? _]). by rewrite orb_false_r.
Qed.

Lemma register_step_K p (u : exit_world V) :
  exit_K n shared p u → exit_K n shared p (let '(x, s) := g (reg_get u) in (x, reg_set s u)).2.
Proof using Hg_first Hg_next.
  rewrite register_step_eq. intros [Hn Hfi Hfs Hph Hst Hse]. split; cbn; try done; [by apply Hg_next|by left].
Qed.

Lemma take_ok :
  (∀ s, (g s).1 = first (register s)) → ok linv (on_register g) pcm_unit taken (λ _, False).
Proof using Hg_first Hg_next.
  intros Hg. eapply ok_mono; [apply (ticket_take c l base _ (λ o, bool_decide (is_Some o)))|cbv beta|done].
  - intros u. by rewrite register_step_eq.
  - intros p u. apply register_step_K.
  - intros p u HK. rewrite register_step_eq. cbn. unfold exit_tick. cbn. rewrite Hg, Hg_first.
    destruct (K_first _ _ _ _ HK) as [-> | (-> & -> & ->)].
    + rewrite bool_decide_false by (by intros [? ?]). done.
    + rewrite !bool_decide_true by done. done.
  - intros o h (u & p & HK & -> & ->). rewrite register_step_eq. cbn. rewrite Hg.
    destruct (K_first _ _ _ _ HK) as [-> | (-> & _ & _)]; by cbn.
Qed.
End register_steps.

(** The last object on the register has no next. *)
Lemma take_next_eq (u : exit_world V) :
  (let '(x, s) := take_next n (reg_get u) in (x, reg_set s u)) =
  (next (w_register u) !! n,
   ExitWorld (w_runs u) (w_content u) (w_accepted u) (w_finals u) (w_seen u)
     (ExitState (register (w_register u)) (set_next n None (next (w_register u))))).
Proof using. cbn. rewrite bool_decide_false by (by intros [? ?]). by rewrite orb_false_r. Qed.

Lemma take_next_ok : ok linv (on_register (take_next n)) pcm_unit (λ o h, o = None ∧ h = pcm_unit) (λ _, False).
Proof using.
  eapply ok_mono; [apply (spec_step (PhaseLockerSpec := spec))|cbv beta|done].
  - intros p u _. by rewrite take_next_eq.
  - intros u. by rewrite take_next_eq.
  - intros p u [Hn Hfi Hfs Hph Hst Hse]. rewrite take_next_eq. split; cbn; try done.
    rewrite Hn. apply set_next_empty.
  - intros o h (u & p & HK & -> & ->). rewrite take_next_eq. cbn. by rewrite (K_next _ _ _ _ HK), lookup_empty.
Qed.

(** Whatever the finalisers do, every round of the loop begins with the ticket of
    the object that it finalises. *)
Lemma exit_loop_ok fuel list h o :
  taken list h → ok linv (exit_loop (execute_lazy Tol f fin n l t) take_next take_or_close fuel list) (h ⋅ o) (λ _ _, True) (λ _, True).
Proof using Ht Hshared.
  revert list h o. induction fuel as [|fuel IH]; intros [r|] h o; try done. intros [-> ->].
  cbn [exit_loop]. apply ok_bind, ok_frame.
  eapply ok_mono; [by apply execute_ok|cbv beta|done]. intros [] h _. generalize (h ⋅ o). clear h o. intros o.
  apply ok_bind. rewrite <- (left_id_L pcm_unit pcm_op o). apply ok_frame.
  eapply ok_mono; [apply take_next_ok|cbv beta|done]. intros ? h [-> ->].
  apply ok_bind, ok_frame. eapply ok_mono; [|cbv beta; intros list h Hh; by apply IH|done].
  apply take_ok; by intros [[[m|] op] nx].
Qed.

(** The thread itself panics with none of its finalisers. *)
Lemma exit_thread_ok fuel : ok linv (exit_thread Tol f fin n l t fuel) pcm_unit (λ _ _, True) (λ _, False).
Proof using Ht Hshared.
  apply ok_bind, ok_catch. apply ok_bind.
  eapply ok_mono; [apply take_ok; by intros [[[m|] op] nx]|cbv beta|done]. intros list h Hh.
  rewrite <- (right_id_L pcm_unit pcm_op h).
  eapply ok_mono; [by apply exit_loop_ok|done|done].
Qed.

(** ** Locked lazies *)

Lemma not_public q : shared = false → pub c q = false.
Proof using. intros Hs. cbn. by rewrite Hs. Qed.

Lemma exit_init_panicked (h : G * excl unit) :
  shared = false → init_panicked (c:=c) (l:=l) h → h = pcm_unit.
Proof using.
  intros Hs [[-> _]|[q ->]]; [done|]. unfold pub_of. by rewrite (not_public q Hs).
Qed.

(** Assigning the value changes neither the phases that may be left nor what
    they promise. *)
Lemma set_value_moves p q (d : option V * bool * nat) v :
  shared = false → moves c p q d → moves c p q (Some v, d.1.2, d.2).
Proof using.
  intros Hs (HK & [Hv Hnew Hidle _] & Hm). split_and!; [|split; try done; congruence|done].
  intros u [= Hu Ha Hf] [Hn Hfi Hfs Hph Hst Hse].
  assert (exit_K n shared q (ExitWorld (w_runs u) d.1.1 (w_accepted u) (w_finals u) [] (w_register u))) as HK'.
  { apply HK.
    - unfold exit_view. cbn. rewrite Ha, Hf. by destruct d as [[? ?] ?].
    - split; try done; intros; congruence. }
  destruct HK' as [Hn' Hfi' Hfs' Hph' _ _]. split; try done; intros; congruence.
Qed.

Tactic Notation "init_method" uconstr(lem) :=
  unfold init_then_read_lock_unchecked, fast_init_then_read_lock_unchecked,
    init_then_write_lock_unchecked, fast_init_then_write_lock_unchecked;
  rewrite exit_man_eq, ?exit_policy_eq;
  cbn [ls_init_then_read_guard ls_try_init_then_read_guard ls_init_then_write_guard
    ls_try_init_then_write_guard exit_sequentializer];
  eapply ok_mono; [apply lem, exit_fin_ok|intros a h H; exact H|by intros h; apply exit_init_panicked].

Lemma exit_locked_spec :
  shared = false →
  LockedLazySpec (c:=c) (l:=l) this (λ d, d.1.1) (λ v d, (Some v, d.1.2, d.2)) (fin_reached shall Tol).
Proof using Ht.
  intros Hs. split.
  - intros p. by apply not_public.
  - done.
  - done.
  - done.
  - intros p v u _ [Hn Hfi Hfs Hph Hst Hse]. split; try done; intros; congruence.
  - done.
  - intros p q d v _ _. by apply set_value_moves.
  - rewrite exit_policy_eq. intros p d HR Hp. by apply (R_value _ _ _ _ _ HR).
  - rewrite exit_policy_eq. intros q. apply exit_post_init.
  - unfold gz_phase. rewrite exit_man_eq. eapply ok_mono; [apply spec_phase| |done].
    intros p h [-> _]. by rewrite (not_public p Hs).
  - apply plain_read_ok; rewrite ?exit_man_eq; cbn; auto with phase.
  - apply plain_fast_read_ok; rewrite ?exit_man_eq; cbn; auto with phase.
  - apply plain_write_ok; rewrite ?exit_man_eq; cbn; auto with phase.
  - apply plain_fast_write_ok; rewrite ?exit_man_eq; cbn; auto with phase.
  - init_method (fin_init_then_read_guard_ok (spec:=spec) (gz_seq this) exit_locker_eq shall).
  - init_method (fin_try_init_then_read_guard_ok (spec:=spec) (gz_seq this) exit_locker_eq shall).
  - init_method (fin_init_then_write_guard_ok (spec:=spec) (gz_seq this) exit_locker_eq shall).
  - init_method (fin_try_init_then_write_guard_ok (spec:=spec) (gz_seq this) exit_locker_eq shall).
Qed.

(** ** References to the object *)

Context (Hpub : shared = true).

Lemma public q : pub c q = intersects q INITIALIZED.
Proof using Hpub. cbn. by rewrite Hpub. Qed.

Lemma public_accessible q : is_accessible policy q = true → intersects q INITIALIZED = true.
Proof using. rewrite exit_accessible. by intros [? _]%andb_true_iff. Qed.

Lemma exit_as_ref_ok Qp :
  ok linv (as_ref (U:=exit_world V) (V:=V) tt) own_pub (λ _ h, h = own_pub) Qp.
Proof using Hpub.
  apply ok_bind. eapply ok_mono; [by apply (spec_pub (PhaseLockerSpec := spec))|cbv beta|by intros ? []].
  intros v h (u & p & Hp & HK & -> & ->). rewrite public in Hp. cbn [fst mem_get exit_memory].
  by destruct (K_stored _ _ _ _ HK Hpub Hp) as [v ->].
Qed.

Lemma exit_read_ref_ok Qp : ok linv (exit_read_ref (V:=V) tt) own_pub (λ _ h, h = own_pub) Qp.
Proof using Hpub.
  apply ok_bind. eapply ok_mono; [apply (spec_pub (PhaseLockerSpec := spec)); [done..|]|cbv beta|by intros ? []].
  - intros p u Hp []. split; cbn; try done. intros v Hs. destruct (w_content u) as [w|] eqn:E; [|auto].
    intros [-> | Hv]%elem_of_cons; [done|auto].
  - intros v h (u & p & Hp & HK & -> & ->). rewrite public in Hp. cbn [fst].
    by destruct (K_stored _ _ _ _ HK Hpub Hp) as [v ->].
Qed.

Lemma exit_phase_ok :
  ok linv (lazy_phase this) pcm_unit (λ p h, h = pub_of p) (λ _, False).
Proof using Ht.
  unfold lazy_phase, gz_phase. rewrite exit_man_eq. eapply ok_mono; [apply spec_phase|by intros p h [-> _]|done].
Qed.

Lemma exit_init_ok :
  ok linv (lazy_init_method this) pcm_unit (λ q h, h = pub_of q ∧ fin_reached shall Tol q) (λ _, True).
Proof using Ht.
  unfold lazy_init_method, gz_init. rewrite exit_man_eq, exit_policy_eq. cbn [ls_init exit_sequentializer].
  eapply ok_mono; [apply (fin_init_triple (spec:=spec) (gz_seq this) exit_locker_eq shall), exit_fin_ok| |done].
  by intros q h (-> & _ & ?).
Qed.

(** A phase that the policy accepts shows that there is a value. *)
Lemma exit_deref_ok p Qp :
  is_accessible policy p = true →
  ok linv (as_ref (U:=exit_world V) (V:=V) tt) (pub_of p) (λ _ h, h = own_pub) Qp.
Proof using Hpub.
  intros Hp%public_accessible. unfold pub_of. rewrite public, Hp. apply exit_as_ref_ok.
Qed.

Lemma exit_get_ok : ok linv (lazy_get this) pcm_unit (λ _ h, h = own_pub) (λ _, True).
Proof using Ht Hpub.
  unfold lazy_get, init_then_get, init_then_try_get. apply ok_bind, ok_bind.
  eapply ok_mono; [apply exit_init_ok|cbv beta|done]. intros q h [-> Hq'].
  unfold post_init_check_access. rewrite exit_policy_eq.
  destruct (post_init_is_accessible _ q) eqn:Hacc; cbn [map_result]; [|exact I].
  apply ok_bind. eapply ok_mono; [apply (exit_deref_ok _ (λ _, True)), (exit_post_init _ _ _ Hq' Hacc)|cbv beta|done].
  by intros [] h ->.
Qed.

Lemma exit_try_get_ok :
  ok linv (lazy_try_get this) pcm_unit
    (λ r h, match r with Ok _ => h = own_pub | Err _ => True end) (λ _, False).
Proof using Ht Hpub.
  unfold lazy_try_get, try_get. apply ok_bind.
  eapply ok_mono; [apply exit_phase_ok|cbv beta|done]. intros p h ->.
  unfold check_access. rewrite exit_policy_eq.
  destruct (is_accessible policy p) eqn:Hp; cbn [map_result]; [|exact I].
  apply ok_bind. eapply ok_mono; [by apply (exit_deref_ok _ (λ _, False))|cbv beta|done]. by intros [] h ->.
Qed.

Abbreviation safe p := (ok linv p pcm_unit (λ _ _, True) (λ _, False)).

Lemma exit_client_ok script : safe (exit_client Tol f fin n l t script).
Proof using Ht Hpub.
  eapply access_client_ok with (own := own_pub). split.
  - exact exit_get_ok.
  - exact exit_try_get_ok.
  - eapply ok_mono; [apply exit_phase_ok|done..].
  - eapply ok_mono; [apply exit_init_ok|done..].
  - intros []. eapply ok_mono; [apply exit_read_ref_ok with (Qp := λ _, False)|done..].
Qed.
End operations.

(** ** The count of waiting writers *)

Section seats.
Context {V L : Type} {BF : Bitflags} {EqV : EqDecision V} {ops : PhaseLocker (exit_world V) L} {wc : loc} {l : L}.
Context (SL : SeatedLocker ops wc l) (Tol : GeneratorTolerance) (f : nat → option V) (fin : V → bool) (n : node).
Context (t : lazy_type) (Ht : impl_manager (impl_of t) = ExitSequentializer).
Abbreviation this := (exit_lazy Tol f fin n l t).
Abbreviation seatp := (seated (U:=exit_world V) wc false false).

#[local] Instance own_register : ExitRegister (exit_world V) exit_state := exit_register n.
Lemma seat_on_register {T} (g : exit_state → option T * exit_state) : seatp (on_register g).
Proof using. apply seated_do; [exact I|by intros []]. Qed.
Lemma seat_register_node (st : node) : seatp (register_node st).
Proof using. apply (seated_bind _ false); [apply seat_on_register|]. intros [b|] _; by repeat split. Qed.
Lemma seat_destructor v : seatp (destructor fin v).
Proof using. unfold destructor. seated_tac. Qed.
#[local] Hint Resolve seat_on_register seat_register_node seat_destructor : seated.
Lemma seat_user_finaly x : seatp (user_finaly fin x).
Proof using. unfold user_finaly. seated_tac. Qed.
#[local] Hint Resolve seat_user_finaly : seated.

Definition exit_lazy_seated : SeatedLazy SL this.
Proof using Ht.
  split.
  - unfold exit_lazy, from_generator, gz_new. cbn [gz_man gz_seq]. rewrite Ht. apply exit_seated; [done|].
    intros x. apply seat_register_node.
  - intros x. unfold gz_init_closure, exit_lazy, from_generator, gz_new. cbn [gz_generator gz_data].
    unfold exit_generator. 
    assert (∀ v, seatp (data_init (data_of (impl_data (impl_of t)) (destructor fin) (user_finaly fin)
      (user_finaly fin)) x v)) as Hd by (intros v; apply seat_data_init; eauto with seated).
    seated_tac.
Qed.

Lemma seat_execute_lazy r : seatp (execute_lazy Tol f fin n l t r).
Proof using SL.
  unfold execute_lazy. destruct (decide _); [|exact I]. apply (seat_execute SL); [done|].
  intros x. unfold exit_lazy, from_generator, gz_new. cbn [gz_data].
  apply seat_data_finaly; eauto with seated.
Qed.

Lemma seat_exit_thread fuel : seatp (exit_thread Tol f fin n l t fuel).
Proof using SL.
  assert (∀ k list, seatp (exit_loop (execute_lazy Tol f fin n l t) take_next take_or_close k list)) as H.
  { intros k. induction k as [|k IH]; intros [r|]; cbn [exit_loop]; try (by repeat split).
    pose proof (seat_execute_lazy r). seated_tac. }
  unfold exit_thread, exit_program. seated_tac.
Qed.
End seats.

(** ** Properties *)

(** Whatever happens, the object is finalised at most once, and only if it was
    given to the register. *)
Definition finalised_once {V} (u : exit_world V) : Prop :=
  w_finals u = 0%nat ∨ (w_finals u = 1%nat ∧ w_accepted u = true).

Section props.
Context {KN : Kernel} {BF : Bitflags} {V : Type} {EqV : EqDecision V}.
Context (Tol : GeneratorTolerance) (f : nat → option V) (fin : V → bool) (n : node).
Context (fx : Futex) (aborts : assertion → bool) (linux : bool) (fuel exit_fuel : nat).
Context (Hfx : futex_cells fx) (Ha : ∀ a, a ≠ Other → aborts a = true).

(** The state before the program starts: the word of the empty phase, nobody
    parked on it, and an open and empty register. *)
Definition exit_start (s : state (exit_world V)) : Prop :=
  rd s (fx_futex fx) = FutexLocker.new empty_flags ∧ usr s = exit_fresh ∧
  ∀ t k, queue (mem s) !! t = Some k → pk_addr k ≠ fx_futex fx.

Abbreviation contract hard shared := (exit_contract (V:=V) Tol n hard shared).
Definition futex_base hard shared := futex_spec (ticketless (contract hard shared)) fx Hfx aborts Ha linux fuel.
Abbreviation spec hard shared := (ticketed (contract hard shared) fx (futex_base hard shared)).

Lemma exit_start_inv hard shared s :
  exit_start s → linv (PhaseLockerSpec := spec hard shared) s pcm_unit.
Proof.
  intros (Hrd & Hu & Hq). split; [|done].
  eapply fx_inv_new; [auto with phase|exact Hrd|..|exact Hq]; rewrite Hu; [apply fresh_exit_K|apply fresh_exit_R].
Qed.

Lemma exit_K_finalised shared p (u : exit_world V) : exit_K (V:=V) n shared p u → finalised_once u.
Proof using. by intros []. Qed.

(** C5: a [LazyFinalize] on the default locker, shared by any number of threads
    that dereference it, try to, ask its phase and initialise it, while another
    thread exits the program and finalises what is on the register, in any
    interleaving. The generator and the finaliser return or panic as they like.
    No access, nor the finaliser, is to an uninitialised value; no operation but
    a caught one panics; the object is finalised at most once, and only if it was
    registered; and every reference that any thread has read through showed the
    one value, before and after the finalisation. A thread that fails one of the
    three named assertions of the locker is taken to do nothing more. *)
Theorem exit_lazy_safe scripts s ps s' :
  exit_start s →
  reachable (exit_thread (ops:=futex_locker aborts linux fuel) Tol f fin n fx LazyFinalize exit_fuel ::
             (exit_client (ops:=futex_locker aborts linux fuel) Tol f fin n fx LazyFinalize <$> scripts)) s ps s' →
  no_panic ps ∧ finalised_once (usr s') ∧ ∀ v, v ∈ w_seen (usr s') → w_content (usr s') = Some v.
Proof using EqV Hfx Ha.
  intros Hs Hreach.
  assert (exit_type false LazyFinalize) as Ht by done.
  apply (safe_pool (spec:=spec false true)) in Hreach as (? & p & HK).
  - split; [done|]. split; [exact (exit_K_finalised _ _ _ HK)|]. intros v. by apply (K_seen _ _ _ _ HK).
  - constructor.
    + by apply (exit_thread_ok Tol f fin n fx false true LazyFinalize Ht (futex_base false true)).
    + apply Forall_fmap, Forall_true. intros script.
      by apply (exit_client_ok Tol f fin n fx false true LazyFinalize Ht (futex_base false true)).
  - by apply exit_start_inv.
Qed.

End props.

(** C6: a [LockedLazyFinalize] or [LockedLazyDroped] on the default locker, shared by
    fewer than 2^32 - 1 threads that use all of its locks as their scripts say, while
    another thread exits the program. Every guard ever granted is of a value that is
    initialised and, for [LockedLazyDroped], not dropped; the value under a guard
    changes through that guard only, so that the finaliser waits for the guards; the
    object is finalised or dropped at most once, and only if it was registered.
    Nothing panics but the calls that the threads catch, and the assertion of the
    locker on a writer that turns into a reader ([FutexBug.conversion_panics]): a
    thread that fails it, where the source panics, is taken to do nothing more,
    which [Stops ReadersConverted] records. *)
Theorem exit_locked_lazy_safe {KN : Kernel} {BF : Bitflags} {V : Type} `{!EqDecision V}
    Tol (f : nat → option V) fin n fx linux fuel exit_fuel (dropped : bool) scripts s ps s' :
  let t := if dropped then LockedLazyDroped else LockedLazyFinalize in
  futex_cells fx → no_writer_waits fx s → exit_start fx s →
  Z.of_nat (S (length scripts)) < 2 ^ 32 → Forall (Forall (locked_cmd_ok true)) scripts →
  reachable (exit_thread (ops:=futex_locker may_abort linux fuel) Tol f fin n fx t exit_fuel ::
             ((λ script, locked_client (exit_lazy (ops:=futex_locker may_abort linux fuel) Tol f fin n fx t) script [])
                <$> scripts)) s ps s' →
  no_panic ps ∧ stops_at_conversions ps ∧ finalised_once (usr s').
Proof.
  intros t Hfx [Hfair Hcount] Hs Hlen Hscripts Hreach.
  assert (exit_type dropped t) as Ht by (by destruct dropped).
  assert (stops_at_conversions ps) as Hstops.
  { assert (impl_manager (impl_of t) = ExitSequentializer) as Hm by (by destruct dropped).
    pose proof (futex_seated (U:=exit_world V) fx Hfx Hfair may_abort eq_refl linux fuel) as SL.
    apply (seated_reachable (fx_writer_count fx)) in Hreach; [done| |simpl; by rewrite length_fmap|done].
    constructor; [by apply (seat_exit_thread SL)|]. apply Forall_fmap, Forall_true. intros script.
    apply (seat_locked_client SL _ (HL := exit_lazy_seated SL Tol f fin n t Hm)). constructor. }
  set (base := futex_base (V:=V) Tol n fx may_abort linux fuel Hfx may_abort_named dropped false).
  apply (safe_pool (spec:=ticketed (exit_contract Tol n dropped false) fx base)) in Hreach as (? & p & HK).
  - split; [done|]. split; [done|]. exact (exit_K_finalised _ _ _ _ HK).
  - constructor.
    + by apply (exit_thread_ok Tol f fin n fx dropped false t Ht base).
    + apply Forall_fmap. eapply Forall_impl; [exact Hscripts|]. intros script Hscript.
      apply (locked_client_ok (spec:=ticketed (exit_contract Tol n dropped false) fx base) _
        (LL:=exit_locked_spec Tol f fin n fx dropped false t Ht base eq_refl)); [done|apply owns_with_nil].
  - by apply exit_start_inv.
Qed.

Section witnesses.
#[local] Existing Instances kernel_1 bitflags_1.

Lemma demo_exit_start : exit_start (FutexC 2 3 4) (State ∅ (exit_fresh (V:=Z))).
Proof. split_and!; [reflexivity|reflexivity|]. intros t k Hk. vm_compute in Hk. done. Qed.

(** One thread uses the object, and then the program exits. *)
Lemma exit_lazy_safe_witness :
  let fx := FutexC 2 3 4 in
  let s := State ∅ (exit_fresh (V:=Z)) in
  let ops := futex_locker may_abort true 9 in
  let exits := exit_thread (ops:=ops) fn_tolerance demo_generator (λ _, true) 1%positive fx LazyFinalize 5 in
  let client := exit_client (ops:=ops) fn_tolerance demo_generator (λ _, true) 1%positive fx LazyFinalize in
  (no_panic (exits :: (client <$> [[LGet; LGet]; [LTryGet]])) ∧ finalised_once (usr s) ∧
     ∀ v, v ∈ w_seen (usr s) → w_content (usr s) = Some v) ∧
  let r := run (client [LGet; LGet; LTryGet];; exits;; client [LGet]) [] s in
  r.1 = Returned tt ∧ w_finals (usr r.2) = 1%nat ∧ length (w_seen (usr r.2)) = 3%nat.
Proof.
  split; [|vm_compute; by split_and!].
  apply (exit_lazy_safe fn_tolerance demo_generator (λ _, true) 1%positive (FutexC 2 3 4) may_abort true 9 5
           ltac:(by split) ltac:(by intros [] ?) [[LGet; LGet]; [LTryGet]] (State ∅ exit_fresh));
    [apply demo_exit_start|apply rtc_refl].
Defined.

(** One thread writes and assigns, one reads, while the program exits. *)
Definition demo_exit_scripts : list (list (locked_cmd (V:=Z))) :=
  [[KRead; KWrite; KAssign 0 8; KDrop 0]; [KRead; KCheck 0; KDrop 0; KTryRead]].
Definition demo_exit_pool : list (prog (exit_world Z) unit) :=
  let ops := futex_locker may_abort true 20 in
  exit_thread (ops:=ops) fn_tolerance demo_generator (λ _, true) 1%positive (FutexC 2 3 4) LockedLazyDroped 5 ::
  ((λ script, locked_client (exit_lazy (ops:=ops) fn_tolerance demo_generator (λ _, true) 1%positive (FutexC 2 3 4)
      LockedLazyDroped) script []) <$> demo_exit_scripts).
(** The program exits while the reader has its guard, and waits for it to drop the
    value, after which the lock refuses to give a guard. *)
Definition demo_exit_schedule : list nat :=
  (replicate 11 1 ++ replicate 15 2 ++ replicate 10 1 ++ replicate 3 2 ++ replicate 17 0 ++ replicate 8 2 ++
   replicate 7 0 ++ replicate 3 2)%nat.
Definition demo_exit_test (ps : list (prog (exit_world Z) unit)) (s : state (exit_world Z)) : bool :=
  all_returned ps && bool_decide (w_content (usr s) = None ∧ w_finals (usr s) = 1%nat).

Lemma exit_locked_lazy_safe_witness :
  ∃ ps s', reachable demo_exit_pool (State ∅ exit_fresh) ps s' ∧ demo_exit_test ps s' = true ∧
    no_panic ps ∧ stops_at_conversions ps ∧ finalised_once (usr s').
Proof.
  destruct (exec_reaches demo_exit_schedule demo_exit_pool (State ∅ exit_fresh) demo_exit_test)
    as (ps & s' & Hreach & Htest); [by vm_compute|].
  exists ps, s'. split; [exact Hreach|]. split; [exact Htest|].
  apply (exit_locked_lazy_safe fn_tolerance demo_generator (λ _, true) 1%positive (FutexC 2 3 4) true 20 5 true
           demo_exit_scripts (State ∅ exit_fresh) ps s');
    [by split|by split|apply demo_exit_start|by vm_compute|repeat constructor|exact Hreach].
Defined.
End witnesses.
