(* ===== verification/ThreadExit.v ===== *)
(** * Thread local lazies do what their phases say

    A reference semantics of the thread local lazies: the stage in which the
    object is, with its value and its place on the register of the thread, and
    what each method answers and changes in each stage. A thread that calls the
    methods of such a lazy in any order, and ends, does what the reference says,
    on the locker of one thread with the register of either kind of system. The
    computations are on the flags of the crate [bitflags] as they are,
    [bitflags_1]. *)

From stdpp Require Import base list option numbers gmap.
From S2P Require Import Prelude Word Phase Atomics Locker UnSync Sequentializer Policy Traits GenericLazy Lazy LockedClients LazyTypes LazySafety ExitSequentializer ExitWorld Tickets Quiet.
Open Scope Z_scope.

(** ** Calls *)

(** A call on a lazy of a thread: for [UnSyncLazy] and its like the methods of
    [LazyAccess], for [UnSyncLockedLazy] and its like the locks, which are dropped
    at the end of the statement; or the end of the thread. *)
Inductive call (V : Type) :=
| CGet | CTryGet | CPhase | CInit
| CRead | CFastRead | CTryRead | CFastTryRead
| CSet (v : V) | CFastSet (v : V) | CTrySet (v : V) | CFastTrySet (v : V)
| CEnd.
Arguments CGet {V}. Arguments CTryGet {V}. Arguments CPhase {V}. Arguments CInit {V}.
Arguments CRead {V}. Arguments CFastRead {V}. Arguments CTryRead {V}. Arguments CFastTryRead {V}.
Arguments CSet {V} v. Arguments CFastSet {V} v. Arguments CTrySet {V} v. Arguments CFastTrySet {V} v.
Arguments CEnd {V}.

(** What the caller sees: a value, the refusal of a [try_] method, a panic, the
    phase, or nothing. *)
Inductive answer (V : Type) := AValue (v : V) | ARefused | APanic | APhase (p : Phase) | ADone.
Arguments AValue {V} v. Arguments ARefused {V}. Arguments APanic {V}. Arguments APhase {V} p. Arguments ADone {V}.

(** The two ways a thread learns of its end that need no key: [__cxa_thread_atexit_impl],
    and the callbacks of Windows. *)
Inductive system := Cxa | Windows.

Definition register_of (y : system) : Registers thread_state :=
  match y with Cxa => cxa_register true | Windows => windows_register end.

Section calls.
Context {V L : Type} {BF : Bitflags} {ops : PhaseLocker (final_world V thread_state) L}.
Context (y : system) (t : lazy_type) (Tol : GeneratorTolerance) (f : nat → option V) (fin : V → bool) (l : L).
Abbreviation program := (prog (final_world V thread_state)).
Abbreviation RGuard := (ReadGuard unit).
Abbreviation WGuard := (WriteGuard unit).
#[local] Instance register_y : Registers thread_state := register_of y.

Definition thread_lazy : @GenericLazy (final_world V thread_state) L ops unit V :=
  exit_lazy Tol f fin 1%positive l t.

(** The end of the thread. *)
Definition thread_end (fuel : nat) : program unit :=
  match y with
  | Cxa => @cxa_destroy _ (execute_lazy Tol f fin 1%positive l t) (exit_register 1%positive) fuel
  | Windows => @windows_destroy _ (execute_lazy Tol f fin 1%positive l t) (exit_register 1%positive) fuel
  end.

Definition caught {A} (m : program A) (k : A → program (answer V)) : program (answer V) :=
  r ← catch m; match r with Some a => k a | None => Ret APanic end.

Definition show (x : unit) : program (answer V) := v ← read_value x; Ret (AValue v).
Definition show_read (g : RGuard) : program (answer V) :=
  x ← read_guard_deref g; v ← read_value x; rg_drop g;; Ret (AValue v).
Definition set_write (v : V) (g : WGuard) : program (answer V) :=
  x ← write_guard_deref g; assign_value v x;; wg_drop g;; Ret ADone.

Definition tried {A E} (k : A → program (answer V)) (r : result A E) : program (answer V) :=
  match r with Ok a => k a | Err _ => Ret ARefused end.
(** A [fast_] method that finds the lock taken. *)
Definition fast {A} (k : A → program (answer V)) (r : option A) : program (answer V) :=
  match r with Some a => k a | None => Ret ARefused end.

(** The method of a type that need not be a thread local, or of one that is. *)
Definition method {A} (plain tl : A) : A :=
  match impl_methods (impl_of t) with MDeref | MLock => plain | _ => tl end.

Definition thread_call (fuel : nat) (c : call V) : program (answer V) :=
  match c with
  | CGet => caught (method lazy_get tl_get thread_lazy) show
  | CTryGet => caught (method lazy_try_get tl_try_get thread_lazy) (tried show)
  | CPhase => p ← method lazy_phase tl_phase thread_lazy; Ret (APhase p)
  | CInit =>
      match impl_methods (impl_of t) with
      | MLock => caught (lock_init thread_lazy) (λ _, Ret ADone)
      | MLockThreadLocal => caught (tl_lock_init thread_lazy) (λ p, Ret (APhase p))
      | _ => caught (method lazy_init_method tl_init thread_lazy) (λ p, Ret (APhase p))
      end
  | CRead => caught (method lock_read tl_read thread_lazy) show_read
  | CFastRead => caught (method lock_fast_read tl_fast_read thread_lazy) (fast show_read)
  | CTryRead => caught (method lock_try_read tl_try_read thread_lazy) (tried show_read)
  | CFastTryRead => caught (method lock_fast_try_read tl_fast_try_read thread_lazy) (fast (tried show_read))
  | CSet v => caught (method lock_write tl_write thread_lazy) (set_write v)
  | CFastSet v => caught (method lock_fast_write tl_fast_write thread_lazy) (fast (set_write v))
  | CTrySet v => caught (method lock_try_write tl_try_write thread_lazy) (tried (set_write v))
  | CFastTrySet v => caught (method lock_fast_try_write tl_fast_try_write thread_lazy) (fast (tried (set_write v)))
  | CEnd => thread_end fuel;; Ret ADone
  end.

Fixpoint thread_script (fuel : nat) (script : list (call V)) : program (list (answer V)) :=
  match script with
  | [] => Ret []
  | c :: script => a ← thread_call fuel c; r ← thread_script fuel script; Ret (a :: r)
  end.
End calls.

(** ** The reference *)

(** Whether the type is finalised at the end of the thread, and how. *)
Inductive final_kind := NotFinalised | Finalised | Droped.
Definition kind_of (t : lazy_type) : final_kind :=
  match impl_manager (impl_of t), impl_data (impl_of t) with
  | ThreadExitSequentializer, KDropedUnInited => Droped
  | ThreadExitSequentializer, _ => Finalised
  | _, _ => NotFinalised
  end.

(** The place of an object on the register: its type has none, it waits there for
    the end of the thread, it has been taken off, or it was refused. *)
Inductive place := NoPlace | Waiting | Taken | NotTaken.

Inductive stage (V : Type) :=
| Fresh                          (* nothing has been tried *)
| Failed (g : place)             (* the last run of the generator panicked *)
| Skipped                        (* the registration was refused *)
| Ready (g : place) (v : V)
| Final (v : V) (ok : bool).     (* finalised, by a finaliser that returned or not *)
Arguments Fresh {V}. Arguments Failed {V} g. Arguments Skipped {V}. Arguments Ready {V} g v. Arguments Final {V} v ok.

Record reference (V : Type) := Reference {
  r_stage : stage V;
  r_runs : nat;           (* of the generator *)
  r_callbacks : nat;      (* that wait for the end of the thread *)
  r_done : bool;          (* Windows: the thread has ended *)
  r_destroying : bool;    (* cxa: the end of the thread was cut short *)
}.
Arguments Reference {V} r_stage r_runs r_callbacks r_done r_destroying.
Arguments r_stage {V} r. Arguments r_runs {V} r. Arguments r_callbacks {V} r.
Arguments r_done {V} r. Arguments r_destroying {V} r.

Section reference.
Context {V : Type} (y : system) (k : final_kind) (Tol : GeneratorTolerance).
Context (f : nat → option V) (fin : V → bool).

Definition with_stage (s : stage V) (r : reference V) : reference V :=
  Reference s (r_runs r) (r_callbacks r) (r_done r) (r_destroying r).

(** A run of the generator, and whether it panicked. *)
Definition ref_generate (g : place) (r : reference V) : bool * reference V :=
  let r' s := Reference s (S (r_runs r)) (r_callbacks r) (r_done r) (r_destroying r) in
  match f (r_runs r) with
  | Some v => (false, r' (Ready g v))
  | None => (true, r' (Failed g))
  end.

(** An object that is fresh is given to the register first, and one that is
    refused is initialised only if its generator tolerates it; one that failed is
    tried again if its generator says so. *)
Definition ref_init (r : reference V) : bool * reference V :=
  match r_stage r with
  | Fresh =>
      match k with
      | NotFinalised => ref_generate NoPlace r
      | _ =>
          if r_done r then
            if FINAL_REGISTRATION_FAILURE Tol then ref_generate NotTaken r else (false, with_stage Skipped r)
          else
            ref_generate Waiting
              (Reference Fresh (r_runs r)
                 (match y with Cxa => if r_destroying r then r_callbacks r else S (r_callbacks r) | Windows => r_callbacks r end)
                 (r_done r) (r_destroying r))
      end
  | Failed g => if INIT_FAILURE Tol then ref_generate g r else (false, r)
  | _ => (false, r)
  end.

(** The value, as long as it may be accessed. *)
Definition ref_value (r : reference V) : option V :=
  match r_stage r with
  | Ready _ v => Some v
  | Final v _ => match k with Droped => None | _ => Some v end
  | _ => None
  end.

Definition ref_assign (v : V) (r : reference V) : reference V :=
  match r_stage r with
  | Ready g _ => with_stage (Ready g v) r
  | Final _ ok => with_stage (Final v ok) r
  | _ => r
  end.

Definition place_flags (g : place) : Phase :=
  match g with NoPlace => 0 | Waiting | Taken => REGISTERED | NotTaken => REGISTRATION_REFUSED end.

Definition ref_phase (r : reference V) : Phase :=
  match r_stage r with
  | Fresh => 0
  | Failed g => Z.lor (place_flags g) (Z.lor INITIALIZATION_PANICKED INITIALIZATION_SKIPED)
  | Skipped => Z.lor REGISTRATION_REFUSED INITIALIZATION_SKIPED
  | Ready g _ => Z.lor (place_flags g) INITIALIZED
  | Final _ ok => Z.lor (Z.lor REGISTERED INITIALIZED) (if ok then FINALIZED else FINALIZATION_PANICKED)
  end.

(** An access that initialises, and one that does not. *)
Definition ref_access (init : bool) (use : V → reference V → answer V * reference V) (r : reference V)
    : answer V * reference V :=
  let '(panics, r) := if init then ref_init r else (false, r) in
  match ref_value r with
  | Some v => if panics then (APanic, r) else use v r
  | None => (if init then APanic else ARefused, r)
  end.

(** The end of the thread, and whether a finaliser panics, which cuts it short. *)
Definition ref_end (r : reference V) : bool * reference V :=
  let ended (s : stage V) :=
    Reference s (r_runs r) (r_callbacks r) (match y with Windows => true | Cxa => r_done r end)
      (match y with Cxa => false | Windows => r_destroying r end) in
  match r_stage r with
  | Failed Waiting => (false, ended (Failed Taken))
  | Ready Waiting v =>
      if fin v then (false, ended (Final v true))
      else (true, Reference (Final v false) (r_runs r) (r_callbacks r) (r_done r)
                    (match y with Cxa => true | Windows => r_destroying r end))
  | s => (false, ended s)
  end.

Definition ref_use (v : V) (r : reference V) : answer V * reference V := (AValue v, r).
Definition ref_set (v w : V) (r : reference V) : answer V * reference V := (ADone, ref_assign v r).

(** [unit_init]: [init] answers nothing; [locked]: it takes the lock. *)
Definition ref_call (locked unit_init : bool) (c : call V) (r : reference V) : option (answer V) * reference V :=
  let answered (x : answer V * reference V) := (Some x.1, x.2) in
  match c with
  | CGet | CRead | CFastRead => answered (ref_access true ref_use r)
  | CTryGet | CTryRead | CFastTryRead => answered (ref_access false ref_use r)
  | CSet v | CFastSet v => answered (ref_access true (ref_set v) r)
  | CTrySet v | CFastTrySet v => answered (ref_access false (ref_set v) r)
  | CPhase => (Some (APhase (ref_phase r)), r)
  | CInit =>
      if locked then
        answered (ref_access true (λ _ r, (if unit_init then ADone else APhase (ref_phase r), r)) r)
      else
        let '(panics, r) := ref_init r in
        (Some (if panics then APanic else APhase (ref_phase r)), r)
  | CEnd => let '(panics, r) := ref_end r in (if panics then None else Some ADone, r)
  end.
End reference.

(** ** The states of the model that the reference stands for *)

Section refinement.
#[local] Existing Instance bitflags_1.
Context {V : Type} (y : system) (t : lazy_type) (Tol : GeneratorTolerance).
Context (f : nat → option V) (fin : V → bool).
Abbreviation k := (kind_of t).
Abbreviation call_on := (thread_call (ops:=unsync_locker) y t Tol f fin 1%positive).

(** The types that are verified, and the calls that they have. *)
Definition locked : bool :=
  match impl_methods (impl_of t) with MLock | MLockThreadLocal => true | _ => false end.
Definition unit_init : bool := match impl_methods (impl_of t) with MLock => true | _ => false end.
Definition thread_type : bool :=
  match t with
  | UnSyncLazy | UnSyncLazyFinalize | UnSyncLazyDroped
  | UnSyncLockedLazy | UnSyncLockedLazyFinalize | UnSyncLockedLazyDroped => true
  | _ => false
  end.
Definition has_call (c : call V) : bool :=
  match c with
  | CGet | CTryGet => negb locked
  | CPhase | CInit | CEnd => true
  | _ => locked
  end.

Definition place_of (s : stage V) : place :=
  match s with Failed g | Ready g _ => g | Fresh => NoPlace | Skipped => NotTaken | Final _ _ => Taken end.

Definition place_wf (g : place) : bool :=
  match k, g with
  | NotFinalised, NoPlace => true
  | NotFinalised, _ | _, NoPlace => false
  | _, NotTaken => match y with Cxa => false | Windows => FINAL_REGISTRATION_FAILURE Tol end
  | _, _ => true
  end.

(** What is known of a stage that is reached. *)
Definition ref_wf (r : reference V) : bool :=
  match y with Cxa => negb (r_done r) | Windows => true end &&
  match r_stage r with
  | Fresh => true
  | Failed g | Ready g _ => place_wf g
  | Skipped =>
      match k, y with NotFinalised, _ | _, Cxa => false | _, Windows => negb (FINAL_REGISTRATION_FAILURE Tol) end
  | Final _ _ => match k with NotFinalised => false | _ => true end
  end.

Definition world_of (r : reference V) : final_world V thread_state :=
  let s := r_stage r in
  ExitWorld (r_runs r)
    (match s with Ready _ v => Some v | Final v _ => match k with Droped => None | _ => Some v end | _ => None end)
    (match place_of s with Waiting | Taken => true | _ => false end)
    (match s with Final _ _ => 1%nat | _ => 0%nat end) []
    (ThreadState (match place_of s with Waiting => Some 1%positive | _ => None end) ∅ (r_done r) (r_destroying r) 0
       false (r_callbacks r)).

Definition state_of (r : reference V) : state (final_world V thread_state) :=
  State {[ 1%positive := UnSync.new (ref_phase r) ]} (world_of r).

(** One call. *)
Definition call_refines (c : call V) (r : reference V) : Prop :=
  run (call_on 1 c) [] (state_of r) =
  let '(a, r') := ref_call y k Tol f fin locked unit_init c r in
  (match a with Some a => Returned a | None => Panicked end, state_of r').
End refinement.

(** ** A call runs the generator once

    What a call does depends on the generator through its next run only, so that
    it may be taken for a constant. *)
Section one_run.
Context {V L : Type} {BF : Bitflags} {ops : PhaseLocker (final_world V thread_state) L} {Hq : QuietLocker ops}.
Context (y : system) (t : lazy_type) (Tol : GeneratorTolerance) (f : nat → option V) (fin : V → bool) (l : L).
Context (n : nat).
Abbreviation program := (prog (final_world V thread_state)).
#[local] Instance register_run : Registers thread_state := register_of y.
#[local] Instance on_y : ExitRegister (final_world V thread_state) thread_state := exit_register 1%positive.

(** Two programs that do the same after [n] runs; programs without a run. *)
Definition same {A} (p q : program A) : Prop :=
  ∀ s, w_runs (usr s) = n → run p [] s = run q [] s.
Definition keeps {A} (p : program A) : Prop := ∀ s, w_runs (usr (run p [] s).2) = w_runs (usr s).

Lemma same_refl {A} (p : program A) : same p p.
Proof using. done. Qed.
Lemma same_bind_l {A B} (p q : program A) (k : A → program B) : same p q → same (p ≫= k) (q ≫= k).
Proof using. intros H s Hs. by rewrite !run_bind, H. Qed.
Lemma same_bind_r {A B} (p : program A) (k k' : A → program B) :
  keeps p → (∀ a, same (k a) (k' a)) → same (p ≫= k) (p ≫= k').
Proof using.
  intros Hp H s Hs. rewrite !run_bind. specialize (Hp s). destruct (run p [] s) as [[a| | | |] s']; try done.
  apply H. simpl in Hp. congruence.
Qed.
Lemma same_catch {A} (p q : program A) : same p q → same (catch p) (catch q).
Proof using. intros H s Hs. by rewrite !run_catch, H. Qed.

Lemma keeps_quiet {A} (p : program A) : quiet p → keeps p.
Proof using.
  induction p as [a| | | | |T o k IH]; intros Hp s; try done. destruct Hp as [Ho Hk]. simpl.
  pose proof (op_quiet_usr o s (op_run o s).1 (op_run o s).2 Ho) as Hu.
  destruct (op_run o s) as [x s'] eqn:E. simpl in Hu.
  assert (usr s' = usr s) as Hs by (apply Hu; left; by rewrite E).
  destruct (op_spurious o s); rewrite (IH x (Hk x)); by rewrite Hs.
Qed.
Lemma keeps_bind {A B} (p : program A) (k : A → program B) : keeps p → (∀ a, keeps (k a)) → keeps (p ≫= k).
Proof using.
  intros Hp Hk s. rewrite run_bind. specialize (Hp s). destruct (run p [] s) as [[a| | | |] s']; try done.
  simpl in Hp. by rewrite (Hk a s').
Qed.
Lemma keeps_catch {A} (p : program A) : keeps p → keeps (catch p).
Proof using.
  intros Hp s. rewrite run_catch. specialize (Hp s). by destruct (run p [] s) as [[a| | | |] s'].
Qed.
Lemma keeps_register st : keeps (register_node st).
Proof using.
  apply keeps_bind.
  - intros s. unfold on_register. simpl. destruct (enlist st (w_register (usr s))). done.
  - by intros [].
Qed.

(** The closures of the generator and of its constant. *)
Abbreviation lazy_f := (thread_lazy y t Tol f fin l).
Abbreviation lazy_n := (thread_lazy y t Tol (λ _, f n) fin l).
Abbreviation init_f := (gz_init_closure lazy_f).
Abbreviation init_n := (gz_init_closure lazy_n).

Lemma closure_same x : same (init_f x) (init_n x).
Proof using.
  apply same_bind_l. intros s Hs. unfold thread_lazy, exit_lazy, from_generator, gz_new. cbn [gz_generator].
  unfold exit_generator. rewrite !run_bind. simpl. by rewrite Hs.
Qed.

Lemma do_transition_same {T A} (g : WriteGuard T) (a b : T → program A) p q :
  (∀ x, same (a x) (b x)) → same (do_transition g a p q) (do_transition g b p q).
Proof using. intros H. by apply same_bind_l, same_bind_l, same_catch. Qed.

(** The operations of the sequentializers, with closures that do the same. *)
Section closures.
Context (a b : unit → program unit) (Hab : ∀ x, same (a x) (b x)).
Abbreviation object := (@GenericLazySeq L unit).
Abbreviation register := (λ _ : object, register_node 1%positive).

Lemma lazy_initialization_same (g : WriteGuard object) :
  same (lazy_initialization Tol g a register) (lazy_initialization Tol g b register).
Proof using Hq Hab.
  assert (∀ g p, same (lazy_initialization_registered (S:=object) Tol g a p)
                   (lazy_initialization_registered Tol g b p)) as Hr.
  { intros g' p. unfold lazy_initialization_registered.
    repeat case_match; try apply same_refl; apply same_bind_l, do_transition_same; intros x; apply Hab. }
  unfold lazy_initialization. destruct (_ || _); [|apply Hr].
  apply same_bind_r; [|intros r; apply Hr]. unfold do_transition, transition.
  repeat apply keeps_bind.
  - apply keeps_catch, keeps_register.
  - by intros [].
  - intros [g' [r|]]; [done|]. apply keeps_bind; [apply keeps_quiet, quiet_wg_drop|done].
Qed.

Lemma only_same (g : WriteGuard unit) : same (lazy_initialization_only g a) (lazy_initialization_only g b).
Proof using Hab. by apply same_bind_l, do_transition_same. Qed.

Context (m : manager) (sq : object) (shall : Phase → bool).
#[local] Instance man : LazySequentializerTrait ops object unit := manager_of m Tol register.

Ltac init_same :=
  unfold man; destruct m; cbn -[register_node];
  (apply same_bind_r; [apply keeps_quiet; first [apply quiet_lock|apply quiet_try_lock]|]);
  intros r; repeat case_match; try apply same_refl;
  repeat first [apply lazy_initialization_same|apply only_same|apply same_bind_l].

Lemma init_same : same (ls_init sq shall a) (ls_init sq shall b).
Proof using Hq Hab. init_same. Qed.
Lemma init_then_read_guard_same : same (ls_init_then_read_guard sq shall a) (ls_init_then_read_guard sq shall b).
Proof using Hq Hab. init_same. Qed.
Lemma init_then_write_guard_same : same (ls_init_then_write_guard sq shall a) (ls_init_then_write_guard sq shall b).
Proof using Hq Hab. init_same. Qed.
Lemma try_init_then_read_guard_same :
  same (ls_try_init_then_read_guard sq shall a) (ls_try_init_then_read_guard sq shall b).
Proof using Hq Hab. init_same. Qed.
Lemma try_init_then_write_guard_same :
  same (ls_try_init_then_write_guard sq shall a) (ls_try_init_then_write_guard sq shall b).
Proof using Hq Hab. init_same. Qed.
End closures.

(** The five ways in which the methods initialise, and the calls. *)
Lemma this_init_same : same (gz_init lazy_f) (gz_init lazy_n).
Proof using Hq. apply (init_same init_f init_n closure_same). Qed.
Lemma this_read_same : same (init_then_read_lock lazy_f) (init_then_read_lock lazy_n).
Proof using Hq. apply same_bind_l, same_bind_l, (init_then_read_guard_same init_f init_n closure_same). Qed.
Lemma this_write_same : same (init_then_write_lock lazy_f) (init_then_write_lock lazy_n).
Proof using Hq. apply same_bind_l, same_bind_l, (init_then_write_guard_same init_f init_n closure_same). Qed.
Lemma this_fast_read_same : same (fast_init_then_read_lock lazy_f) (fast_init_then_read_lock lazy_n).
Proof using Hq. apply same_bind_l, same_bind_l, (try_init_then_read_guard_same init_f init_n closure_same). Qed.
Lemma this_fast_write_same : same (fast_init_then_write_lock lazy_f) (fast_init_then_write_lock lazy_n).
Proof using Hq. apply same_bind_l, same_bind_l, (try_init_then_write_guard_same init_f init_n closure_same). Qed.

Lemma caught_same {A} (p q : program A) k : same p q → same (caught p k) (caught q k).
Proof using. intros H. by apply same_bind_l, same_catch. Qed.

Lemma thread_call_same fuel c :
  same (thread_call y t Tol f fin l fuel c) (thread_call y t Tol (λ _, f n) fin l fuel c).
Proof using Hq.
  destruct c; cbn [thread_call]; unfold method; destruct (impl_methods (impl_of t));
    try exact (same_refl _); apply caught_same;
    first [exact this_read_same|exact this_fast_read_same|exact this_write_same|exact this_fast_write_same
          |exact this_init_same|apply same_bind_l, this_write_same|apply same_bind_l, same_bind_l, this_init_same].
Qed.
End one_run.
