(* ===== verification/ThreadSafety.v ===== *)
(** * Thread local lazies refine their reference

    Each call is computed in each stage, for a generator taken for the constant
    that its next run gives ([thread_call_same]); scripts follow by induction. *)

From stdpp Require Import base list option numbers gmap.
From S2P Require Import Prelude Word Phase Atomics Locker UnSync Sequentializer Policy Traits GenericLazy Lazy LockedClients LazyTypes LazySafety ExitSequentializer ExitWorld Tickets Quiet ThreadExit.
Open Scope Z_scope.

(** ** One call, stage by stage *)

(** Both sides are computed. *)
#[local] Transparent gmap_empty.

Section calls_refine.
#[local] Existing Instance bitflags_1.
Context {V : Type} (y : system) (f : nat → option V) (fin : V → bool).

(** A call that is not the end of the thread, with a constant generator: the
    stages in turn. *)
Ltac calls Ht Hc He :=
  unfold call_refines;
  match type of Ht with thread_type ?t = true => destruct t; try discriminate Ht end; clear Ht;
  match type of Hc with has_call _ ?c = true => destruct c; try discriminate Hc end; clear Hc;
  try (by destruct (He eq_refl)); clear He.

Lemma fresh_computes t itf frf o c n cb dn ds :
  thread_type t = true → has_call t c = true → c ≠ CEnd → (y = Cxa → dn = false) →
  call_refines y t (Tolerance itf frf) (λ _, o) fin c (Reference Fresh n cb dn ds).
Proof using.
  intros Ht Hc He Hy. destruct y; [rewrite (Hy eq_refl); destruct ds|destruct dn]; clear Hy; calls Ht Hc He;
    destruct itf, frf, o; vm_compute; reflexivity.
Qed.

Lemma failed_computes t itf frf o c g n cb dn ds :
  thread_type t = true → has_call t c = true → c ≠ CEnd → place_wf y t (Tolerance itf frf) g = true →
  call_refines y t (Tolerance itf frf) (λ _, o) fin c (Reference (Failed g) n cb dn ds).
Proof using.
  intros Ht Hc He Hg. destruct itf; calls Ht Hc He; destruct g, y, frf; try discriminate Hg; clear Hg;
    destruct o; vm_compute; reflexivity.
Qed.

Lemma settled_computes t itf frf o c s n cb dn ds :
  thread_type t = true → has_call t c = true → c ≠ CEnd →
  match s with Fresh | Failed _ => false | _ => true end = true →
  ref_wf y t (Tolerance itf frf) (Reference s n cb dn ds) = true →
  call_refines y t (Tolerance itf frf) (λ _, o) fin c (Reference s n cb dn ds).
Proof using.
  intros Ht Hc He Hs [_ Hr]%andb_true_iff. calls Ht Hc He;
    (destruct s as [|?| |[] w|w []]; try discriminate Hs; destruct y; try discriminate Hr; destruct frf;
     try discriminate Hr; clear; destruct itf; vm_compute; reflexivity).
Qed.

(** The end of the thread, up to the finaliser: the two sides are computed until
    they ask for its outcome. *)
Ltac ask_finaliser w :=
  lazymatch goal with
  | |- ?l = ?r =>
      let l' := eval lazy head in l in
      let r' := eval lazy head in r in
      change (l' = r')
  end;
  repeat match goal with
  | |- context [fin ?m] => lazymatch m with w => fail | _ => change (fin m) with (fin w) end
  end;
  destruct (fin w); vm_compute; reflexivity.

Lemma end_computes t Tol o s n cb dn ds :
  thread_type t = true → ref_wf y t Tol (Reference s n cb dn ds) = true →
  call_refines y t Tol (λ _, o) fin CEnd (Reference s n cb dn ds).
Proof using.
  intros Ht [_ Hr]%andb_true_iff. unfold call_refines. destruct t; try discriminate Ht; clear Ht;
    (destruct s as [|[]| |[] w|w []]; try discriminate Hr; clear Hr; destruct y;
     lazymatch goal with
     | |- context [Ready Waiting _] => ask_finaliser w
     | _ => vm_compute; reflexivity
     end).
Qed.
End calls_refine.

(** The reference asks the generator at its own count of runs. *)
Lemma ref_call_constant {V} y k Tol (f : nat → option V) fin lk ui c r :
  ref_call y k Tol (λ _, f (r_runs r)) fin lk ui c r = ref_call y k Tol f fin lk ui c r.
Proof. destruct r as [[|g| |g w|w ok] n cb dn ds], c, k; reflexivity. Qed.

(** One call does what the reference says. *)
Lemma thread_call_reference {V} y t Tol (f : nat → option V) fin c r :
  thread_type t = true → has_call t c = true → ref_wf y t Tol r = true → call_refines y t Tol f fin c r.
Proof.
  intros Ht Hc Hr. unfold call_refines. rewrite <- ref_call_constant.
  rewrite (thread_call_same (ops:=unsync_locker (BF:=bitflags_1)) y t Tol f fin 1%positive (r_runs r)) by done.
  change (call_refines y t Tol (λ _, f (r_runs r)) fin c r).
  assert (c = CEnd ∨ c ≠ CEnd) as [->|He] by (destruct c; auto); destruct r as [s n cb dn ds], Tol as [itf frf].
  { by apply end_computes. }
  destruct s; [|pose proof Hr as [_ Hg]%andb_true_iff; by apply failed_computes|by apply settled_computes..].
  apply fresh_computes; try done. intros ->. apply andb_true_iff in Hr as [Hr _]. by apply negb_true_iff in Hr.
Qed.

(** The states of the reference stay well formed. *)
Section wf.
Context {V : Type} (y : system) (t : lazy_type) (Tol : GeneratorTolerance) (f : nat → option V) (fin : V → bool).
Abbreviation wf := (ref_wf (V:=V) y t Tol).

Lemma ref_init_wf r : wf r = true → wf (ref_init y (kind_of t) Tol f r).2 = true.
Proof using.
  unfold ref_wf, place_wf, ref_init, ref_generate, with_stage.
  destruct r as [[|g| |g w|w ok] n cb dn ds], Tol as [itf frf]; simpl; destruct y, (kind_of t), dn, frf, itf; simpl;
    try done; destruct (f n); simpl; try done; by destruct g.
Qed.

Lemma ref_end_wf r : wf r = true → wf (ref_end y fin r).2 = true.
Proof using.
  unfold ref_wf, place_wf, ref_end. destruct r as [[|g| |g w|w ok] n cb dn ds], y; simpl; try done;
    destruct (kind_of t), g; simpl; try done; by destruct (fin w).
Qed.

Lemma ref_assign_wf v r : wf r = true → wf (ref_assign v r) = true.
Proof using. by destruct r as [[]]. Qed.

Lemma ref_access_wf init use r :
  (∀ v r, wf r = true → wf (use v r).2 = true) → wf r = true →
  wf (ref_access y (kind_of t) Tol f init use r).2 = true.
Proof using.
  intros Huse Hr. unfold ref_access.
  assert (∀ x : bool * reference V, wf x.2 = true →
    wf (let '(panics, r) := x in
        match ref_value (kind_of t) r with
        | Some v => if panics then (APanic, r) else use v r
        | None => (if init then APanic else ARefused, r)
        end).2 = true) as H.
  { intros [[] r'] Hr'; simpl; destruct (ref_value _ r'); try done. by apply Huse. }
  destruct init; [by apply H, ref_init_wf|by apply (H (false, r))].
Qed.

Lemma ref_call_wf lk ui c r : wf r = true → wf (ref_call y (kind_of t) Tol f fin lk ui c r).2 = true.
Proof using.
  intros Hr. assert (∀ x : answer V * reference V, wf x.2 = true → wf (Some x.1, x.2).2 = true) as H by done.
  destruct c; unfold ref_call; try done; try (apply H, ref_access_wf; [by intros|done]);
    try (apply H, ref_access_wf; [intros w r' ?; by apply ref_assign_wf|done]).
  - destruct lk; [apply H, ref_access_wf; [by intros|done]|].
    pose proof (ref_init_wf r Hr) as Hi. by destruct (ref_init _ _ _ _ r).
  - pose proof (ref_end_wf r Hr) as Hi. by destruct (ref_end _ _ r).
Qed.
End wf.

(** The answers of a script; [None] if the end of the thread is cut short. *)
Fixpoint ref_script {V} y k Tol (f : nat → option V) fin lk ui (script : list (call V)) (r : reference V)
    : option (list (answer V)) * reference V :=
  match script with
  | [] => (Some [], r)
  | c :: script =>
      let '(a, r) := ref_call y k Tol f fin lk ui c r in
      match a with
      | None => (None, r)
      | Some a => let '(l, r) := ref_script y k Tol f fin lk ui script r in (cons a <$> l, r)
      end
  end.

(** Scripts, by induction. *)
Lemma script_reference {V} y t Tol (f : nat → option V) fin script r :
  thread_type t = true → forallb (has_call t) script = true → ref_wf y t Tol r = true →
  run (thread_script (ops:=unsync_locker (BF:=bitflags_1)) (BF:=bitflags_1) y t Tol f fin 1%positive 1 script) []
    (state_of t r) =
  let '(answers, r') := ref_script y (kind_of t) Tol f fin (locked t) (unit_init t) script r in
  (match answers with Some l => Returned l | None => Panicked end, state_of t r').
Proof.
  intros Ht. revert r. induction script as [|c script IH]; intros r Hs Hr; [done|].
  cbn [forallb] in Hs. apply andb_true_iff in Hs as [Hc Hs].
  pose proof (thread_call_reference y t Tol f fin c r Ht Hc Hr) as Hcall. unfold call_refines in Hcall.
  pose proof (ref_call_wf y t Tol f fin (locked t) (unit_init t) c r Hr) as Hr'.
  cbn [thread_script ref_script]. rewrite run_bind, Hcall. clear Hcall.
  destruct (ref_call _ _ _ _ _ _ _ c r) as [[a|] r']; [|done]. cbn [snd] in Hr'.
  rewrite run_bind, (IH r' Hs Hr'). destruct (ref_script _ _ _ _ _ _ _ script r') as [[l|] r'']; done.
Qed.

(** C12: a thread calls the methods of its own lazy in any order, ends, and calls
    them again, as the destructors of other locals may: every call gives what the
    reference says, and so does the state that is left, for every generator and
    finaliser and both kinds of system. *)
Theorem thread_refines_reference {V} y t Tol (f : nat → option V) fin script r :
  thread_type t = true → forallb (has_call t) script = true → ref_wf y t Tol r = true →
  run (thread_script (ops:=unsync_locker (BF:=bitflags_1)) (BF:=bitflags_1) y t Tol f fin 1%positive 1 script) []
    (state_of t r) =
  let '(answers, r') := ref_script y (kind_of t) Tol f fin (locked t) (unit_init t) script r in
  (match answers with Some l => Returned l | None => Panicked end, state_of t r').
Proof. apply script_reference. Qed.

(** ** What follows for the life of a thread *)

Section life.
Context {V : Type} (y : system) (t : lazy_type) (Tol : GeneratorTolerance) (f : nat → option V) (fin : V → bool).
Abbreviation script_on := (ref_script y (kind_of t) Tol f fin (locked t) (unit_init t)).

(** Before the thread ends: the object waits on the register as soon as something
    has been tried. *)
Definition alive (r : reference V) : bool :=
  negb (r_done r) &&
  match r_stage r with Fresh | Failed Waiting | Ready Waiting _ => true | _ => false end.

Definition before_end (c : call V) : bool := match c with CEnd => false | _ => true end.

Lemma ref_init_alive r :
  kind_of t ≠ NotFinalised → alive r = true → alive (ref_init y (kind_of t) Tol f r).2 = true.
Proof using.
  intros Hk. unfold alive, ref_init, ref_generate.
  destruct r as [[|[]| |[] w|w ok] n cb [] ds]; simpl; try done; intros _;
    destruct (kind_of t), (INIT_FAILURE Tol); simpl; try done; by destruct (f n).
Qed.

Lemma ref_access_alive init use r :
  kind_of t ≠ NotFinalised → (∀ v r, alive r = true → alive (use v r).2 = true) → alive r = true →
  alive (ref_access y (kind_of t) Tol f init use r).2 = true.
Proof using.
  intros Hk Huse Hr. unfold ref_access.
  assert (∀ x : bool * reference V, alive x.2 = true →
    alive (let '(panics, r) := x in
        match ref_value (kind_of t) r with
        | Some v => if panics then (APanic, r) else use v r
        | None => (if init then APanic else ARefused, r)
        end).2 = true) as H.
  { intros [[] r'] Hr'; simpl; destruct (ref_value _ r'); try done. by apply Huse. }
  destruct init; [by apply H, ref_init_alive|by apply (H (false, r))].
Qed.

Lemma ref_call_alive c r :
  kind_of t ≠ NotFinalised → before_end c = true → alive r = true →
  ∃ a r', ref_call y (kind_of t) Tol f fin (locked t) (unit_init t) c r = (Some a, r') ∧ alive r' = true.
Proof using.
  intros Hk Hc Hr.
  assert (∀ init use, (∀ v r, alive r = true → alive (use v r).2 = true) →
    ∃ a r', (let x := ref_access y (kind_of t) Tol f init use r in (Some x.1, x.2)) = (Some a, r') ∧ alive r' = true) as H.
  { intros init use Huse. do 2 eexists. split; [reflexivity|]. by apply ref_access_alive. }
  assert (∀ v w r, alive r = true → alive (ref_set v w r).2 = true) as Hset.
  { intros v w r'. unfold alive. by destruct r' as [[|[]| |[]|] ? ? [] ?]. }
  destruct c; try done; unfold ref_call; try (by apply H); try (by apply H, Hset).
  - by do 2 eexists.
  - destruct (locked t); [by apply H|]. pose proof (ref_init_alive r Hk Hr) as Hi.
    destruct (ref_init _ _ _ _ r) as [p r']. by do 2 eexists.
Qed.

Lemma ref_script_alive script r :
  kind_of t ≠ NotFinalised → forallb before_end script = true → alive r = true →
  ∃ l r', script_on script r = (Some l, r') ∧ alive r' = true.
Proof using.
  intros Hk. revert r. induction script as [|c script IH]; intros r Hs Hr; [by do 2 eexists|].
  cbn [forallb] in Hs. apply andb_true_iff in Hs as [Hc Hs].
  destruct (ref_call_alive c r Hk Hc Hr) as (a & r' & Hcall & Hr'). cbn [ref_script]. rewrite Hcall.
  destruct (IH r' Hs Hr') as (l & r'' & -> & Hr''). by do 2 eexists.
Qed.

Lemma ref_script_app s1 s2 r l r' :
  script_on s1 r = (Some l, r') →
  script_on (s1 ++ s2) r = let '(l', r'') := script_on s2 r' in (app l <$> l', r'').
Proof using.
  revert r l. induction s1 as [|c s1 IH]; intros r l; cbn [ref_script app].
  - intros [= <- <-]. by destruct (script_on s2 r) as [[]].
  - destruct (ref_call _ _ _ _ _ _ _ c r) as [[a|] r1]; [|done].
    destruct (script_on s1 r1) as [[l1|] r2] eqn:E; [|done]. intros [= <- <-]. rewrite (IH _ _ E).
    by destruct (script_on s2 r2) as [[]].
Qed.
End life.

Definition new_thread {V} : reference V := Reference Fresh 0 0 false false.

(** The end of a thread finalises its lazy exactly once if it has a value
    then, and not at all otherwise: whatever the thread has called before, with
    whatever generator, no object is left behind and none is finalised twice. *)
Theorem thread_end_finalises_once {V} y t Tol (f : nat → option V) fin script :
  thread_type t = true → kind_of t ≠ NotFinalised → forallb (has_call t) script = true →
  forallb before_end script = true →
  let s := (run (thread_script (ops:=unsync_locker (BF:=bitflags_1)) (BF:=bitflags_1) y t Tol f fin 1%positive 1
                   (script ++ [CEnd])) [] (state_of t new_thread)).2 in
  w_finals (usr s) = (if intersects (Bitflags:=bitflags_1) (rd s 1%positive) INITIALIZED then 1 else 0)%nat.
Proof.
  intros Ht Hk Hs Hb s. unfold s. clear s.
  assert (forallb (has_call (V:=V) t) (script ++ [CEnd]) = true) as Hall by (rewrite forallb_app, Hs; by destruct t).
  assert (ref_wf y t Tol (new_thread (V:=V)) = true) as Hwf by (by destruct y).
  rewrite (script_reference y t Tol f fin _ _ Ht Hall Hwf).
  destruct (ref_script_alive y t Tol f fin script new_thread Hk Hb eq_refl) as (l & r & Hscript & Hr).
  rewrite (ref_script_app _ _ _ _ _ _ _ _ _ _ Hscript). cbn [ref_script ref_call].
  revert Hr. unfold alive, ref_end. destruct r as [[|[]| |[] w|w ok] n cb [] ds]; try done; intros _; simpl.
  all: try (destruct (fin w); simpl). all: vm_compute; reflexivity.
Qed.

(** C36: an object whose generator panicked before the end of its thread has been
    taken off the register then, but keeps the flag that says that it is there. If
    it is tried again later, by the destructor of another local, it is
    initialised without a new registration and is never finalised, although its
    generator does not tolerate that. *)
Theorem late_retry_never_finalised {V} y t (f : nat → option V) fin v :
  thread_type t = true → kind_of t ≠ NotFinalised → f 0%nat = None → f 1%nat = Some v →
  let read := if locked t then CRead else CGet in
  let '(r, s) := run (thread_script (ops:=unsync_locker (BF:=bitflags_1)) (BF:=bitflags_1) y t fn_tolerance f fin 1%positive 1
                   [read; CEnd; read; CEnd]) [] (state_of t new_thread) in
  r = Returned [APanic; ADone; AValue v; ADone] ∧ w_finals (usr s) = 0%nat ∧
  rd s 1%positive = Z.lor INITIALIZED REGISTERED.
Proof.
  intros Ht Hk Hf0 Hf1 read.
  assert (forallb (has_call t) [read; CEnd; read; CEnd] = true) as Hall by (unfold read; by destruct t).
  assert (ref_wf y t fn_tolerance (new_thread (V:=V)) = true) as Hwf by (by destruct y).
  rewrite (script_reference y t fn_tolerance f fin _ _ Ht Hall Hwf). unfold read.
  generalize (unit_init t). revert Hk. destruct (locked t), (kind_of t), y; intros Hk u; try done;
    unfold ref_script, ref_call, ref_access, ref_init, ref_generate, ref_end, new_thread; cbn; rewrite Hf0; cbn;
    rewrite Hf1; cbn; by split_and!.
Qed.

(** ** Concrete threads *)

Definition once_failing (n : nat) : option Z := match n with O => None | S n => Some (Z.of_nat n) end.

(** A generator that fails at first, a value that is set, the end of the thread
    and a late access that the policy refuses. *)
Lemma thread_refines_reference_witness :
  (run (thread_script (ops:=unsync_locker (BF:=bitflags_1)) (BF:=bitflags_1) Cxa UnSyncLockedLazyDroped fn_tolerance
      once_failing (λ _, true) 1%positive 1 [CTryRead; CRead; CRead; CSet 9; CTryRead; CEnd; CRead])
    [] (state_of UnSyncLockedLazyDroped new_thread)).1
  = Returned [ARefused; APanic; AValue 0; ADone; AValue 9; ADone; APanic].
Proof.
  rewrite (thread_refines_reference Cxa UnSyncLockedLazyDroped fn_tolerance once_failing (λ _, true)
    [CTryRead; CRead; CRead; CSet 9; CTryRead; CEnd; CRead] new_thread); reflexivity.
Defined.

Lemma thread_end_finalises_once_witness :
  w_finals (usr (run (thread_script (ops:=unsync_locker (BF:=bitflags_1)) (BF:=bitflags_1) Windows UnSyncLazyFinalize
      fn_tolerance once_failing (λ _, true) 1%positive 1 ([CGet; CGet; CTryGet] ++ [CEnd]))
    [] (state_of UnSyncLazyFinalize new_thread)).2) = 1%nat.
Proof.
  rewrite (thread_end_finalises_once Windows UnSyncLazyFinalize fn_tolerance once_failing (λ _, true)
    [CGet; CGet; CTryGet]); [vm_compute; reflexivity|reflexivity|discriminate|reflexivity|reflexivity].
Defined.

Lemma late_retry_never_finalised_witness :
  let '(r, s) := run (thread_script (ops:=unsync_locker (BF:=bitflags_1)) (BF:=bitflags_1) Cxa UnSyncLazyDroped fn_tolerance
      once_failing (λ _, true) 1%positive 1 [CGet; CEnd; CGet; CEnd]) [] (state_of UnSyncLazyDroped new_thread) in
  r = Returned [APanic; ADone; AValue 0; ADone] ∧ w_finals (usr s) = 0%nat ∧
  rd s 1%positive = Z.lor INITIALIZED REGISTERED.
Proof.
  apply (late_retry_never_finalised Cxa UnSyncLazyDroped once_failing (λ _, true) 0);
    [reflexivity|discriminate|reflexivity|reflexivity].
Defined.
