(* ===== verification/Tests.v ===== *)
(** * The tests of the crate

    Unit tests of src/lazy.rs and twelve of the integration tests of tests/, of lazies
    of one kind each, as scripts of calls with the results that the tests assert, run
    in the model. They tie the model to what the authors of the crate observed; the
    tests of the other types, and those that check what happens after [main] by other
    means, have no script. *)

From stdpp Require Import base list option numbers gmap.
From S2P Require Import Prelude Word Phase Atomics Locker Tickets Clients Tokens Futex FutexLocker FutexInv FutexRules FutexSafety UnSync SpinLocker Sequentializer Policy Traits GenericLazy Lazy LazyTypes LockedClients LazySafety ExitSequentializer ExitWorld ExitSafety.
Open Scope Z_scope.

(** ** Scripts *)

(** The calls that a test makes, with what it asserts of the result. *)
Inductive step :=
| SPhase (flags : list Phase)
| SGives (c : locked_cmd (V:=Z)) (v : Z)
| SRefuses (c : locked_cmd (V:=Z)) (* no guard is given *)
| SPanics (c : locked_cmd (V:=Z))
| SSets (c : locked_cmd (V:=Z)) (v : Z)
| SPrimed (write init : bool) (v : result Z Z)
| SPrimedPanics (write init : bool)
| SGet (v : Z) | STryGet (v : Z) | STryGetRefused | SGetPanics
| SRuns (n : nat) | SFinals (n : nat)
| SExit.

(** A test: the type of the lazy, its tolerance, its generator, the primed value,
    whether objects can still be registered, and what the test does. *)
Record test := Test {
  t_type : lazy_type;
  t_tolerance : GeneratorTolerance;
  t_generator : nat → option Z;
  t_primed : option Z;
  t_open : bool;
  t_steps : list step;
}.

Definition test_world (x : test) : (exit_world Z) :=
  ExitWorld 0 (t_primed x) false 0 [] (ExitState (RegisterC None (t_open x)) ∅).

(** The feature [test_no_global_lazy_hint] that the tests of the "lesser" types
    need: there is no hint. *)
#[local] Instance no_hint : GlobalHint (exit_world Z) := { hint_get _ := false; hint_set u := u }.

Section run.
Context {BF : Bitflags} {L : Type} {ops : PhaseLocker (exit_world Z) L} (l : L) (x : test).
Abbreviation program := (prog (exit_world Z)).
Abbreviation RGuard := (ReadGuard unit).
Abbreviation WGuard := (WriteGuard unit).

Definition tested : @GenericLazy (exit_world Z) L ops unit Z :=
  exit_lazy (t_tolerance x) (t_generator x) (λ _, true) 1%positive l (t_type x).

(** The methods of the type, by its kind. *)
Definition is_global : bool :=
  match impl_methods (impl_of (t_type x)) with
  | MDerefGlobal | MLockGlobal | MPrimedGlobal => true
  | _ => false
  end.
Definition test_get : program unit := if is_global then global_get false tested else lazy_get tested.
Definition test_try_get : program (result unit AccessError) :=
  if is_global then global_try_get false tested else lazy_try_get tested.

Definition test_read (c : locked_cmd (V:=Z)) : option (program (option RGuard)) :=
  if is_global then
    match c with
    | KRead => Some (r ← global_read false tested; Ret (Some r))
    | KFastRead => Some (global_fast_read false tested)
    | KTryRead => Some (r ← global_try_read false tested; Ret (of_result r))
    | KFastTryRead => Some (r ← global_fast_try_read false tested; Ret (of_option r))
    | _ => None
    end
  else read_method tested c.
Definition test_write (c : locked_cmd (V:=Z)) : option (program (option WGuard)) :=
  if is_global then
    match c with
    | KWrite => Some (r ← global_write false tested; Ret (Some r))
    | KFastWrite => Some (global_fast_write false tested)
    | KTryWrite => Some (r ← global_try_write false tested; Ret (of_result r))
    | KFastTryWrite => Some (r ← global_fast_try_write false tested; Ret (of_option r))
    | _ => None
    end
  else write_method tested c.

Definition test_primed_read (init : bool) : program (result RGuard RGuard) :=
  match impl_methods (impl_of (t_type x)), init with
  | MPrimedGlobal, true => global_primed_read false tested
  | MPrimedGlobal, false => global_primed_read_non_initializing false tested
  | _, true => primed_read tested
  | _, false => primed_read_non_initializing tested
  end.
Definition test_primed_write (init : bool) : program (result WGuard RGuard) :=
  match impl_methods (impl_of (t_type x)), init with
  | MPrimedGlobal, true => global_primed_write false tested
  | MPrimedGlobal, false => global_primed_write_non_initializing false tested
  | _, true => primed_write tested
  | _, false => primed_write_non_initializing tested
  end.

(** The value behind a guard, which is dropped at the end of the statement. *)
Definition value_r (g : RGuard) : program Z := x ← read_guard_deref g; v ← read_value x; rg_drop g;; Ret v.
Definition value_w (g : WGuard) : program Z := x ← write_guard_deref g; v ← read_value x; wg_drop g;; Ret v.

(** The value that a lock gives, [None] if it is refused. *)
Definition test_lock (c : locked_cmd (V:=Z)) : program (option Z) :=
  match test_read c, test_write c with
  | Some m, _ => r ← m; match r with Some g => v ← value_r g; Ret (Some v) | None => Ret None end
  | None, Some m => r ← m; match r with Some g => v ← value_w g; Ret (Some v) | None => Ret None end
  | None, None => Ret None
  end.

Definition test_primed (write init : bool) : program (result Z Z) :=
  if write then
    r ← test_primed_write init;
    match r with
    | Ok g => v ← value_w g; Ret (Ok v)
    | Err g => v ← value_r g; Ret (Err v)
    end
  else
    r ← test_primed_read init;
    match r with
    | Ok g => v ← value_r g; Ret (Ok v)
    | Err g => v ← value_r g; Ret (Err v)
    end.

Definition assert_eq {A} `{!EqDecision A} (a b : A) : program unit := assert_prog (bool_decide (a = b)).

(** [assert!(catch_unwind(..).is_err())] *)
Definition assert_panics {A} (m : program A) : program unit :=
  r ← catch m; match r with Some _ => Panic | None => Ret tt end.

Definition run_step (s : step) : program unit :=
  match s with
  | SPhase flags => p ← lazy_phase tested; assert_eq p (foldr flags_or empty_flags flags)
  | SGives c v => r ← test_lock c; assert_eq r (Some v)
  | SRefuses c => r ← test_lock c; assert_eq r None
  | SPanics c => assert_panics (test_lock c)
  | SSets c v =>
      match test_write c with
      | Some m =>
          r ← m;
          match r with
          | Some g => x ← write_guard_deref g; assign_value v x;; wg_drop g
          | None => Panic
          end
      | None => Panic
      end
  | SPrimed write init v =>
      r ← test_primed write init;
      match r, v with
      | Ok a, Ok b | Err a, Err b => assert_eq a b
      | _, _ => Panic
      end
  | SPrimedPanics write init => assert_panics (test_primed write init)
  | SGet v => x ← test_get; w ← read_value x; assert_eq w v
  | STryGet v => r ← test_try_get; x ← unwrap r; w ← read_value x; assert_eq w v
  | STryGetRefused => r ← test_try_get; match r with Ok _ => Panic | Err _ => Ret tt end
  | SGetPanics => assert_panics (x ← test_get; read_value x)
  | SRuns n => k ← do_op (Usr (λ u, (w_runs u, u))); assert_eq k n
  | SFinals n => k ← do_op (Usr (λ u, (w_finals u, u))); assert_eq k n
  | SExit => exit_thread (t_tolerance x) (t_generator x) (λ _, true) 1%positive l (t_type x) 5
  end.

Fixpoint run_test (steps : list step) : program unit :=
  match steps with
  | [] => Ret tt
  | s :: steps => run_step s;; run_test steps
  end.

Definition passes : bool :=
  match (run (run_test (t_steps x)) [] (State ∅ (test_world x))).1 with Returned tt => true | _ => false end.
End run.

(** ** The unit tests of src/lazy.rs *)

Definition returns (v : Z) (n : nat) : option Z := Some v.
Definition unit_test (t : lazy_type) : test := Test t fn_tolerance (returns 22) None true [SGet 22].
Definition unit_test_mut (t : lazy_type) : test :=
  Test t fn_tolerance (returns 22) None true [SGives KRead 22; SSets KWrite 33; SGives KRead 33].
Definition unit_test_primed (t : lazy_type) : test :=
  Test t fn_tolerance (returns 22) (Some 42) true
    [SPrimed false false (Err 42); SGives KRead 22; SSets KWrite 33; SGives KRead 33].

Definition test_lazy := unit_test Lazy.
Definition test_quasi_lazy := unit_test LesserLazy.
Definition test_local_lazy := unit_test UnSyncLazy.
Definition test_lazy_finalize := unit_test LazyFinalize.
Definition test_quasi_lazy_finalize := unit_test LesserLazyFinalize.
Definition test_local_lazy_finalize := unit_test UnSyncLazyFinalize.
Definition test_droped_local_lazy_finalize := unit_test UnSyncLazyDroped.
Definition test_mut_lazy := unit_test_mut LockedLazy.
Definition test_primed_mut_lazy_droped := unit_test_primed PrimedLockedLazyDroped.
Definition test_primed_mut_lazy := unit_test_primed PrimedLockedLazy.
Definition test_quasi_mut_lazy := unit_test_mut LesserLockedLazy.
Definition test_mut_lazy_finalize := unit_test_mut LockedLazyFinalize.
Definition test_quasi_mut_lazy_finalize := unit_test_mut LesserLockedLazyFinalize.
Definition test_mut_lazy_dropped := unit_test_mut LockedLazyDroped.
Definition test_quasi_mut_lazy_dropped := unit_test_mut LesserLockedLazyDroped.
Definition test_unsync_mut_lazy := unit_test_mut UnSyncLockedLazy.
Definition test_unsync_mut_primed_lazy := unit_test_primed UnSyncPrimedLockedLazy.
Definition test_unsync_mut_primed_lazy_droped := unit_test_primed UnSyncPrimedLockedLazyDroped.
Definition test_unsync_mut_lazy_finalize := unit_test_mut UnSyncLockedLazyFinalize.
Definition test_unsync_mut_lazy_droped := unit_test_mut UnSyncLockedLazyDroped.

Definition unit_tests : list test :=
  [test_lazy; test_quasi_lazy; test_lazy_finalize; test_quasi_lazy_finalize; test_mut_lazy;
   test_primed_mut_lazy_droped; test_primed_mut_lazy; test_quasi_mut_lazy; test_mut_lazy_finalize;
   test_quasi_mut_lazy_finalize; test_mut_lazy_dropped; test_quasi_mut_lazy_dropped].
Definition thread_local_unit_tests : list test :=
  [test_local_lazy; test_local_lazy_finalize; test_droped_local_lazy_finalize; test_unsync_mut_lazy;
   test_unsync_mut_primed_lazy; test_unsync_mut_primed_lazy_droped; test_unsync_mut_lazy_finalize;
   test_unsync_mut_lazy_droped].

(** ** Integration tests *)

(** A generator that panics on its first two runs, and one that always does. *)
Definition may_panick (n : nat) : option Z := if (n <? 2)%nat then None else Some 42.
Definition panicks (n : nat) : option Z := None.
Definition leak_tolerance : GeneratorTolerance := Tolerance true true.
Definition panicked : step := SPhase [REGISTERED; INITIALIZATION_PANICKED; INITIALIZATION_SKIPED].
Definition ready : step := SPhase [INITIALIZED; REGISTERED].

(** tests/lazy_finalize.rs *)
Definition finalize_normal : test :=
  Test LazyFinalize fn_tolerance (returns 33) None true
    [SPhase []; STryGetRefused; SPhase []; SGet 33; ready; STryGet 33; ready; SGet 33; SGet 33; SExit; SFinals 1].
Definition finalize_may_panick : test :=
  Test LazyFinalize fn_tolerance may_panick None true
    [SPhase []; STryGetRefused; SPhase []; SGetPanics; SRuns 1; panicked; SGetPanics; SRuns 2; panicked;
     SGet 42; SRuns 3; ready; STryGet 42; ready; SGet 42; SGet 42; SExit; SFinals 1].

(** tests/locked_lazy_drop.rs; the additions are to the value that has just been
    asserted. *)
Definition drop_normal : test :=
  Test LockedLazyDroped fn_tolerance (returns 33) None true
    [SPhase []; SRefuses KTryRead; SRefuses KTryWrite; SRefuses KFastTryRead; SRefuses KFastTryWrite; SPhase [];
     SGives KRead 33; SGives KWrite 33; SGives KFastWrite 33; SGives KFastRead 33; SGives KFastTryWrite 33;
     SGives KFastTryRead 33; ready; SGives KTryRead 33; ready; SSets KWrite 12; SGives KRead 12;
     SSets KFastWrite 33; SGives KRead 33; SSets KFastTryWrite 42; SGives KRead 42; SExit; SFinals 1].
Definition drop_may_panick : test :=
  Test LockedLazyDroped fn_tolerance may_panick None true
    [SPhase []; SRefuses KTryRead; SPhase []; SPanics KRead; SRuns 1; panicked; SPanics KRead; SRuns 2; panicked;
     SGives KRead 42; SRuns 3; ready; SGives KTryRead 42; ready; SGives KWrite 42; SGives KRead 42;
     SExit; SFinals 1].
Definition drop_may_panick_intolerant : test :=
  Test LockedLazyDroped fn_once_tolerance panicks None true
    [SPhase []; SRefuses KTryRead; SPhase []; SPanics KRead; SRuns 1; panicked; SPanics KFastWrite; SRuns 1;
     panicked; SRuns 1].
Definition drop_normal_with_tolerance : test :=
  Test LockedLazyDroped fn_once_tolerance (returns 33) None true
    [SPhase []; SRefuses KTryRead; SPhase []; SGives KRead 33; ready; SGives KTryRead 33; ready; SGives KRead 33;
     SGives KWrite 33; SExit; SFinals 1].
(** [check_late], after the registration has been closed, with the assertion that
    the test leaves commented out: there is no [catch_unwind] in a destructor. *)
Definition drop_after_main_tolerant : test :=
  Test LockedLazyDroped leak_tolerance (returns 33) None false
    [SPhase []; SRefuses KTryRead; SPhase []; SGives KRead 33; SPhase [INITIALIZED; REGISTRATION_REFUSED];
     SGives KTryRead 33; SPhase [INITIALIZED; REGISTRATION_REFUSED]; SGives KRead 33; SGives KWrite 33; SFinals 0].
Definition drop_after_main : test :=
  Test LockedLazyDroped fn_tolerance (returns 33) None false
    [SPhase []; SRefuses KTryRead; SPhase []; SPanics KRead; SFinals 0].

(** tests/primed_locked_lazy_drop.rs *)
Definition primed_normal : test :=
  Test PrimedLockedLazyDroped fn_tolerance (returns 33) (Some 1) true
    [SPhase []; SRefuses KTryRead; SRefuses KTryWrite; SRefuses KFastTryRead; SRefuses KFastTryWrite;
     SPrimed false false (Err 1); SPrimed true false (Err 1); SPhase []; SPrimed false true (Ok 33);
     SPrimed true true (Ok 33); SGives KWrite 33; SGives KFastWrite 33; SGives KFastRead 33; SGives KFastTryWrite 33;
     SGives KFastTryRead 33; ready; SGives KTryRead 33; ready; SSets KWrite 12; SGives KRead 12;
     SSets KFastWrite 33; SGives KRead 33; SSets KFastTryWrite 42; SGives KRead 42; SExit; SFinals 1].
Definition primed_may_panick : test :=
  Test PrimedLockedLazyDroped fn_tolerance may_panick (Some 1) true
    [SPhase []; SRefuses KTryRead; SPrimed false false (Err 1); SPhase []; SPanics KRead; SRuns 1; panicked;
     SPrimedPanics false true; SRuns 2; panicked; SPrimed false true (Ok 42); SRuns 3; ready; SGives KTryRead 42;
     SPrimed false true (Ok 42); ready; SGives KWrite 42; SGives KRead 42; SExit; SFinals 1].
Definition primed_may_panick_intolerant : test :=
  Test PrimedLockedLazyDroped fn_once_tolerance panicks (Some 1) true
    [SPhase []; SRefuses KTryRead; SPhase []; SPanics KRead; SRuns 1; panicked; SPanics KFastWrite; SRuns 1;
     panicked; SRuns 1].
Definition primed_after_main_tolerant : test :=
  Test PrimedLockedLazyDroped leak_tolerance (returns 33) (Some 1) false
    [SPhase []; SRefuses KTryRead; SPhase []; SGives KRead 33; SPhase [INITIALIZED; REGISTRATION_REFUSED];
     SGives KTryRead 33; SPhase [INITIALIZED; REGISTRATION_REFUSED]; SGives KRead 33; SGives KWrite 33; SFinals 0].

Definition integration_tests : list test :=
  [finalize_normal; finalize_may_panick; drop_normal; drop_may_panick; drop_may_panick_intolerant;
   drop_normal_with_tolerance; drop_after_main_tolerant; drop_after_main; primed_normal; primed_may_panick;
   primed_may_panick_intolerant; primed_after_main_tolerant].

Section pass.
#[local] Existing Instances kernel_1 bitflags_1.

(** Every call of the scripts above gives what the test asserts: those of the unit
    tests and of the twelve integration tests of [integration_tests] on the futex
    locker and on the spinning one, and those of the thread locals on the locker of
    one thread. *)
Theorem tests_pass :
  (∀ x, x ∈ unit_tests ++ integration_tests →
     passes (ops:=futex_locker may_abort true 9) (FutexC 2 3 4) x = true ∧
     passes (ops:=spin_locker 9) 1%positive x = true) ∧
  (∀ x, x ∈ thread_local_unit_tests → passes (ops:=unsync_locker) 1%positive x = true).
Proof.
  assert (∀ (xs : list test) (p : test → bool), forallb p xs = true → ∀ x, x ∈ xs → p x = true) as Hall.
  { intros xs p Hp x Hx. rewrite forallb_forall in Hp. by apply Hp, list_elem_of_In. }
  split; [|apply Hall; vm_compute; reflexivity].
  intros x Hx. apply andb_true_iff. revert x Hx. apply (Hall _ (λ x, _ && _)). vm_compute. reflexivity.
Qed.
End pass.
