(* ===== verification/DebugMode.v ===== *)
(** * The mode [debug_mode] of the sequentializer

    A generator that reads, directly or not, the lazy that it initialises would wait
    for its own lock. In debug mode a sequentializer also stores which thread is
    initialising its object (src/lazy_sequentializer.rs), so that such an access
    panics instead, and the lazy that is accessed names itself in the message
    (src/generic_lazy.rs, [may_debug]). The file has the operations of that mode,
    with and without registration; [Cyclic] says what they detect. *)

From stdpp Require Import base list option numbers.
From S2P Require Import Prelude Word Phase Atomics Locker Sequentializer Traits.
Open Scope Z_scope.

(** ** Panics with a payload

    What a panic carries while it unwinds is a part of the user state: the struct
    [CyclicPanic], the message of [may_debug] with what is known of the static, or
    anything else. *)
Inductive payload (I : Type) := CyclicPanic | Circular (info : option I) | OtherPanic.
Arguments CyclicPanic {I}. Arguments Circular {I} info. Arguments OtherPanic {I}.

Class Unwinding (U I : Type) := {
  payload_get : U → payload I;
  payload_set : payload I → U → U;
}.

Section debug.
Context {BF : Bitflags} {U L I : Type} {ops : PhaseLocker U L} {UW : Unwinding U I}.

Definition panic_any {A} (e : payload I) : prog U A :=
  do_op (Usr (λ u, (tt, payload_set e u)));; Panic.

(** [may_debug]: [catch_unwind], with [resume_unwind] for other payloads. *)
Definition may_debug {A} (f : prog U A) (info : option I) : prog U A :=
  r ← catch f;
  match r with
  | Some r => Ret r
  | None =>
      x ← do_op (Usr (λ u, (payload_get u, u)));
      match x with
      | CyclicPanic => panic_any (Circular info)
      | _ => Panic
      end
  end.

(** ** The sequentializer

    The third field of the sequentializer, and the number that parking_lot gives the
    running thread, which is not zero. *)
Context {T Data : Type} `{!Sequential T Data L} (thread_of : T → loc) (thread_id : Z).
Implicit Types (s : T) (shall_init : Phase → bool) (init : Data → prog U unit).

(** [debug_save_thread] and the [Drop] of the guard it returns, around what is
    done while the guard lives. *)
Definition debug_save_thread {A} s (f : prog U A) : prog U A :=
  do_op (Store (thread_of s) thread_id);;
  r ← catch f;
  do_op (Store (thread_of s) 0);;
  match r with
  | Some r => Ret r
  | None => Panic
  end.

Definition is_cyclic (id : Z) : bool := negb (id =? 0) && (id =? thread_id).

Definition debug_test s : prog U unit :=
  id ← do_op (Load (thread_of s));
  if is_cyclic id then panic_any CyclicPanic else Ret tt.

(** A closure [|p| if shall_init(p) { debug_test(s); Write } else { n }]. That the
    stored number is the one of the running thread cannot change while the thread
    takes the lock, and a closure that panics leaves [lock] where one that answers
    [None] does, with the same locks dropped: so the number is read first, and the
    panic follows. *)
Definition testing (cyclic : bool) shall_init (n : LockNature) : How :=
  λ p, if shall_init p then (if cyclic then LNNone else LNWrite) else n.

Definition lock_testing {S} s (t : S) shall_init (n : LockNature) (hint : Phase)
    : prog U (LockResult (ReadGuard S) (WriteGuard S)) :=
  id ← do_op (Load (thread_of s));
  r ← pl_lock (seq_locker (sequentializer s)) t (testing (is_cyclic id) shall_init n) (λ _, LNRead) hint;
  match r with
  | LRNone p => if is_cyclic id && shall_init p then panic_any CyclicPanic else Ret r
  | _ => Ret r
  end.

Definition try_lock_testing {S} s (t : S) shall_init (n : LockNature) (hint : Phase)
    : prog U (option (LockResult (ReadGuard S) (WriteGuard S))) :=
  id ← do_op (Load (thread_of s));
  r ← pl_try_lock (seq_locker (sequentializer s)) t (testing (is_cyclic id) shall_init n) hint;
  match r with
  | Some (LRNone p) => if is_cyclic id && shall_init p then panic_any CyclicPanic else Ret r
  | _ => Ret r
  end.

(** [impl LazySequentializer]: in [init] the guard of the lock is dropped before the
    one of [debug_save_thread]. *)
Definition debug_init s shall_init init : prog U Phase :=
  r ← lock_testing s (data s) shall_init LNNone INITIALIZED;
  match r with
  | LRNone p => Ret p
  | LRRead l => p ← rg_phase l; rg_drop l;; Ret p
  | LRWrite phase_guard =>
      debug_save_thread s (
        ph ← lazy_initialization_only phase_guard init;
        let p := wg_phase ph in
        wg_drop ph;;
        Ret p)
  end.

Definition debug_init_then_read_guard s shall_init init : prog U (ReadGuard Data) :=
  r ← lock_testing s (data s) shall_init LNRead INITIALIZED;
  match r with
  | LRRead l => Ret l
  | LRWrite l => debug_save_thread s (l ← lazy_initialization_only l init; wg_into_read l)
  | LRNone _ => Undef
  end.

(** The body of the operations that take the write lock whatever the phase: the test
    comes after the lock, of which unwinding out of it drops the guard. *)
Definition debug_write_init s (l : WriteGuard Data) shall_init init : prog U (WriteGuard Data) :=
  if shall_init (wg_phase l) then
    r ← catch (debug_test s);
    match r with
    | Some _ => debug_save_thread s (lazy_initialization_only l init)
    | None => wg_drop l;; Panic
    end
  else Ret l.

Definition debug_init_then_write_guard s shall_init init : prog U (WriteGuard Data) :=
  r ← seq_lock s (λ _, LNWrite) INITIALIZED;
  match r with
  | LRWrite l => debug_write_init s l shall_init init
  | LRRead _ => Undef
  | LRNone _ => Undef
  end.

Definition debug_try_init_then_read_guard s shall_init init : prog U (option (ReadGuard Data)) :=
  r ← try_lock_testing s (data s) shall_init LNRead INITIALIZED;
  match r with
  | None => Ret None
  | Some (LRRead l) => Ret (Some l)
  | Some (LRWrite l) =>
      l ← debug_save_thread s (l ← lazy_initialization_only l init; wg_into_read l);
      Ret (Some l)
  | Some (LRNone _) => Undef
  end.

Definition debug_try_init_then_write_guard s shall_init init : prog U (option (WriteGuard Data)) :=
  r ← seq_try_lock s (λ _, LNWrite) INITIALIZED;
  match r with
  | None => Ret None
  | Some (LRWrite l) => l ← debug_write_init s l shall_init init; Ret (Some l)
  | Some (LRRead _) => Undef
  | Some (LRNone _) => Undef
  end.

(** [impl FinalizableLazySequentializer]: the same tests around the lock of the whole
    object. *)
Section finalizable.
Context (Tol : GeneratorTolerance).
Implicit Types (reg : T → prog U bool).

Definition debug_fin_init s shall_init init reg : prog U Phase :=
  r ← lock_testing s s shall_init LNNone (INITIALIZED .| REGISTERED);
  match r with
  | LRNone p => Ret p
  | LRRead l => p ← rg_phase l; rg_drop l;; Ret p
  | LRWrite phase_guard =>
      debug_save_thread s (
        ph ← lazy_initialization Tol phase_guard init reg;
        let p := wg_phase ph in
        wg_drop ph;;
        Ret p)
  end.

Definition debug_fin_init_then_read_guard s shall_init init reg : prog U (ReadGuard Data) :=
  r ← lock_testing s s shall_init LNRead (INITIALIZED .| REGISTERED);
  match r with
  | LRRead l => Ret (rg_map l data)
  | LRWrite l =>
      debug_save_thread s (
        l ← lazy_initialization Tol l init reg;
        wg_into_read (wg_map l data))
  | LRNone _ => Undef
  end.

(** The body of the operations that take the write lock whatever the phase. *)
Definition debug_fin_write_init s (l : WriteGuard T) shall_init init reg : prog U (WriteGuard Data) :=
  if shall_init (wg_phase l) then
    r ← catch (debug_test s);
    match r with
    | Some _ =>
        debug_save_thread s (
          l ← lazy_initialization Tol l init reg;
          Ret (wg_map l data))
    | None => wg_drop l;; Panic
    end
  else Ret (wg_map l data).

Definition debug_fin_init_then_write_guard s shall_init init reg : prog U (WriteGuard Data) :=
  r ← whole_lock s (λ _, LNWrite) INITIALIZED;
  match r with
  | LRWrite l => debug_fin_write_init s l shall_init init reg
  | LRRead _ => Undef
  | LRNone _ => Undef
  end.

Definition debug_fin_try_init_then_read_guard s shall_init init reg : prog U (option (ReadGuard Data)) :=
  r ← try_lock_testing s s shall_init LNRead (INITIALIZED .| REGISTERED);
  match r with
  | None => Ret None
  | Some (LRRead l) => Ret (Some (rg_map l data))
  | Some (LRWrite l) =>
      l ← debug_save_thread s (
        l ← lazy_initialization Tol l init reg;
        wg_into_read (wg_map l data));
      Ret (Some l)
  | Some (LRNone _) => Undef
  end.

Definition debug_fin_try_init_then_write_guard s shall_init init reg : prog U (option (WriteGuard Data)) :=
  r ← try_whole_lock s (λ _, LNWrite) (INITIALIZED .| REGISTERED);
  match r with
  | None => Ret None
  | Some (LRWrite l) => l ← debug_fin_write_init s l shall_init init reg; Ret (Some l)
  | Some (LRRead _) => Undef
  | Some (LRNone _) => Undef
  end.

Definition debug_finalizable : FinalizableLazySequentializer ops T Data := {|
  fs_super := generic_sequentializer ops T Data;
  fs_init := debug_fin_init;
  fs_init_then_read_guard := debug_fin_init_then_read_guard;
  fs_init_then_write_guard := debug_fin_init_then_write_guard;
  fs_try_init_then_read_guard := debug_fin_try_init_then_read_guard;
  fs_try_init_then_write_guard := debug_fin_try_init_then_write_guard;
  fs_finalize_callback := finalize_callback;
|}.
End finalizable.

(** The sequentializer that a lazy with the given information uses: the methods of
    [GenericLazy] and [GenericLockedLazy] call it within [may_debug]. *)
Definition debug_sequentializer (info : option I) : LazySequentializerTrait ops T Data := {|
  ls_super := generic_sequentializer ops T Data;
  ls_INITIALIZED_HINT := INITIALIZED_HINT;
  ls_init s shall_init init := may_debug (debug_init s shall_init init) info;
  ls_init_then_read_guard s shall_init init := may_debug (debug_init_then_read_guard s shall_init init) info;
  ls_init_then_write_guard s shall_init init := may_debug (debug_init_then_write_guard s shall_init init) info;
  ls_try_init_then_read_guard s shall_init init :=
    may_debug (debug_try_init_then_read_guard s shall_init init) info;
  ls_try_init_then_write_guard s shall_init init :=
    may_debug (debug_try_init_then_write_guard s shall_init init) info;
|}.

(** The exit sequentializers in this mode: they forward to the one above, with the
    function that registers the object. *)
Definition debug_exit_sequentializer (Tol : GeneratorTolerance) (reg : T → prog U bool) (info : option I)
    : LazySequentializerTrait ops T Data :=
  let fs := debug_finalizable Tol in {|
  ls_super := generic_sequentializer ops T Data;
  ls_INITIALIZED_HINT := INITIALIZED_AND_REGISTERED;
  ls_init s shall_init init := may_debug (fs_init (FinalizableLazySequentializer := fs) s shall_init init reg) info;
  ls_init_then_read_guard s shall_init init :=
    may_debug (fs_init_then_read_guard (FinalizableLazySequentializer := fs) s shall_init init reg) info;
  ls_init_then_write_guard s shall_init init :=
    may_debug (fs_init_then_write_guard (FinalizableLazySequentializer := fs) s shall_init init reg) info;
  ls_try_init_then_read_guard s shall_init init :=
    may_debug (fs_try_init_then_read_guard (FinalizableLazySequentializer := fs) s shall_init init reg) info;
  ls_try_init_then_write_guard s shall_init init :=
    may_debug (fs_try_init_then_write_guard (FinalizableLazySequentializer := fs) s shall_init init reg) info;
|}.
End debug.
