(* ===== verification/SoloLocker.v ===== *)
(** * Lockers in the hands of one thread

    What a thread relies on when no other one uses its locks, as a class, with an
    instance for each of the three lockers, and the runs of the operations of the
    sequentializer in debug mode under such a lock. *)

From stdpp Require Import base list option numbers relations.
From S2P Require Import Prelude Word Phase Atomics Locker Tokens UnSync SpinLocker Futex FutexLocker FutexInv FutexLive FutexBug Sequentializer Policy Traits DebugMode.
Open Scope Z_scope.

(** The state where one cell has got a value. *)
Definition sets {U} (l : loc) (w : Z) (s s' : state U) : Prop :=
  usr s' = usr s ∧ rd s' l = w ∧ ∀ x, x ≠ l → rd s' x = rd s x.

(** What a thread without rivals relies on: a free word can be locked, also one that
    is locked answers a closure that wants no lock, and a write guard leaves its
    phase. *)
Class SoloLocker {BF : Bitflags} {U L : Type} (ops : PhaseLocker U L) := {
  solo_cell : L → loc;
  solo_guard {T} : L → WriteGuard T → T → Phase → Phase → Prop;
  solo_guard_is {T} l (g : WriteGuard T) t p q :
    solo_guard l g t p q → wg_target g = t ∧ wg_phase g = q;
  solo_set_phase {T} l (g : WriteGuard T) t p q q' :
    solo_guard l g t p q → solo_guard l (wg_set_phase g q') t p q';
  solo_lock {T} l (t : T) how wake hint p (s : state U) :
    phase_range p → phase_range hint → rd s (solo_cell l) = p → how p = LNWrite →
    ∃ s' g, run (pl_lock l t how wake hint) [] s = (Returned (LRWrite g), s') ∧
      sets (solo_cell l) (Z.lor p LOCKED_BIT) s s' ∧ solo_guard l g t p p;
  solo_none {T} l (t : T) how wake hint p lk (s : state U) :
    phase_range p → phase_range hint → rd s (solo_cell l) = word p 0 lk false false → how p = LNNone →
    ∃ s', run (pl_lock l t how wake hint) [] s = (Returned (LRNone p), s') ∧
      sets (solo_cell l) (rd s (solo_cell l)) s s';
  solo_drop {T} l (g : WriteGuard T) t p q (s : state U) :
    solo_guard l g t p q → phase_range p → phase_range q → rd s (solo_cell l) = Z.lor p LOCKED_BIT →
    ∃ s', run (wg_drop g) [] s = (Returned tt, s') ∧ sets (solo_cell l) q s s';
}.

Lemma sets_wr {U} l w (s : state U) : sets l w s (wr s l w).
Proof. split_and!; [done|apply rd_wr|intros; by apply rd_wr_ne]. Qed.
Lemma sets_refl {U} l (s : state U) : sets l (rd s l) s s.
Proof. done. Qed.

Section lockers.
Context {BF : Bitflags} {U : Type}.

#[export, refine] Instance unsync_solo : SoloLocker (U:=U) unsync_locker := {|
  solo_cell l := l;
  solo_guard T l g t p q := g = UnSyncPhaseGuardC t l q;
|}.
Proof.
  - by intros T l g t p q ->.
  - by intros T l g t p q q' ->.
  - intros T l t how wake hint p s Hp _ Hrd Hhow. cbn [pl_lock unsync_locker]. unfold UnSync.lock.
    pose proof (lock_cell_word p 0 false Hp ltac:(lia) ltac:(done) how) as Hc.
    rewrite <- phase_word, Hhow in Hc. rewrite run_bind. simpl. rewrite Hrd, Hc. simpl.
    eexists _, _. split; [done|]. split; [|done]. rewrite phase_lor_locked by done. apply sets_wr.
  - intros T l t how wake hint p lk s Hp _ Hrd Hhow. cbn [pl_lock unsync_locker]. unfold UnSync.lock.
    rewrite run_bind. simpl. rewrite Hrd, lock_cell_word, Hhow by done. simpl.
    eexists. split; [done|]. apply sets_wr.
  - intros T l g t p q s -> _ _ _. eexists. split; [done|]. apply sets_wr.
Defined.

(** On the locker of threads that spin, the closure that wants no lock. *)
Lemma spin_none (l : SpinLocker.SyncPhaseLocker) how wake hint p lk (s : state U) fuel :
  phase_range p → phase_range hint → rd s l = word p 0 lk false false → how p = LNNone → (0 < fuel)%nat →
  run (SpinLocker.raw_lock fuel l how wake hint) [] s = (Returned (LRNone p), s).
Proof.
  intros Hp Hh Hrd Hhow Hfuel. unfold SpinLocker.raw_lock. rewrite run_bind.
  assert (∀ sw, run (SpinLocker.raw_lock_slow fuel l how (word p 0 lk false false) sw) [] s =
    (Returned (LRNone p), s)) as Hslow.
  { intros sw. destruct fuel as [|fuel]; [lia|]. cbn [SpinLocker.raw_lock_slow].
    by rewrite truncate_word, Hhow by auto with word. }
  unfold SpinLocker.hinted_lock. destruct (how hint) eqn:Eh; simpl; rewrite Hrd.
  - destruct (Z.eqb_spec (word p 0 lk false false) hint) as [Heq|]; [|by apply Hslow].
    rewrite (phase_word hint) in Heq. apply word_inj in Heq as (-> & _); auto with word. congruence.
  - destruct (Z.eqb_spec (word p 0 lk false false) hint) as [Heq|]; [|by apply Hslow].
    rewrite (phase_word hint) in Heq. apply word_inj in Heq as (-> & _); auto with word. congruence.
  - rewrite truncate_word, Hhow by auto with word. done.
Qed.

#[export, refine] Instance spin_solo fuel : SoloLocker (U:=U) (SpinLocker.spin_locker (S (S fuel))) :=
  @Build_SoloLocker BF U _ (SpinLocker.spin_locker (S (S fuel))) (λ l, l)
    (λ T l g t p q, g = SpinLocker.SyncPhaseGuardC t (SpinLocker.LockC l p q)) _ _ _ _ _.
Proof.
  - by intros T l g t p q ->.
  - by intros T l g t p q q' ->.
  - intros T l t how wake hint p s Hp Hh Hrd Hhow. cbn [pl_lock SpinLocker.spin_locker]. unfold SpinLocker.lock.
    rewrite phase_lor_locked by done. rewrite (phase_word p) in Hrd at 1.
    unfold SpinLocker.raw_lock. rewrite !run_bind.
    destruct (SpinLocker.run_hinted l how p 0 Hp ltac:(lia) ltac:(done) hint [] s Hrd ltac:(done) Hh) as [-> | ->].
    + rewrite SpinLocker.run_slow by (done || simpl; lia). rewrite Hhow. simpl.
      eexists _, _. split; [done|]. split; [|done]. apply sets_wr.
    + rewrite Hhow. simpl. eexists _, _. split; [done|]. split; [|done]. apply sets_wr.
  - intros T l t how wake hint p lk s Hp Hh Hrd Hhow. cbn [pl_lock SpinLocker.spin_locker]. unfold SpinLocker.lock.
    rewrite run_bind, (spin_none _ _ _ _ p lk) by (done || lia). simpl. eexists. split; [done|]. apply sets_refl.
  - intros T l g t p q s -> Hp Hq Hrd. cbn [wg_drop SpinLocker.spin_locker].
    eexists. simpl. rewrite Hrd, Z.eqb_refl. simpl. split; [done|]. apply sets_wr.
Defined.

#[export, refine] Instance futex_solo {KN : Kernel} aborts linux fuel :
    SoloLocker (U:=U) (futex_locker aborts linux (S fuel)) :=
  @Build_SoloLocker BF U _ (futex_locker aborts linux (S fuel)) fx_futex
    (λ T l g t p q, g = SyncPhaseGuardC t (LockC l p q)) _ _ _ _ _.
Proof.
  - by intros T l g t p q ->.
  - by intros T l g t p q q' ->.
  - intros T l t how wake hint p s Hp Hh Hrd Hhow. cbn [pl_lock futex_locker]. unfold lock.
    rewrite run_bind, (run_raw_lock _ _ _ _ _ _ _ p) by first [done|by apply free_for_phase|simpl; lia].
    unfold taken, taken_state, lock_new. rewrite truncate_phase, Hhow by done. simpl.
    eexists _, _. split; [done|]. split; [|done]. apply sets_wr.
  - intros T l t how wake hint p lk s Hp Hh Hrd Hhow. cbn [pl_lock futex_locker]. unfold lock.
    assert (from_bits_truncate (rd s (fx_futex l)) = p) as Hw by (rewrite Hrd; apply truncate_word; auto with word).
    rewrite run_bind, (run_raw_lock _ _ _ _ _ _ _ _ _ _ eq_refl) by first [done|unfold free_for; by rewrite Hw, Hhow|simpl; lia].
    unfold taken, taken_state. rewrite Hw, Hhow. simpl. eexists. split; [done|]. apply sets_refl.
  - intros T l g t p q s -> Hp Hq Hrd. cbn [wg_drop futex_locker].
    eexists. split; [apply (run_lock_drop aborts linux (S fuel) l p q); [done..|by rewrite Hrd, phase_lor_locked]|].
    apply sets_wr.
Defined.
End lockers.

(** ** Runs of the operations *)

Section runs.
Context {BF : Bitflags} {U L I : Type} {ops : PhaseLocker U L} {SL : SoloLocker ops} {UW : Unwinding U I}.

Lemma run_do_returned {T A} (o : op U T) (k : T → prog U A) (s : state U) :
  (∀ s, op_spurious o s = None) →
  run (do_op o ≫= k) [] s = let '(x, s') := op_run o s in run (k x) [] s'.
Proof using. apply run_do. Qed.

Lemma run_may_debug {A} (f : prog U A) (info : option I) s r s' :
  run f [] s = (r, s') →
  run (may_debug f info) [] s =
    match r with
    | Panicked =>
        (Panicked, match payload_get (usr s') with
                   | CyclicPanic => upd s' (payload_set (Circular info) (usr s'))
                   | _ => upd s' (usr s')
                   end)
    | r => (r, s')
    end.
Proof using.
  intros Hf. unfold may_debug. rewrite run_bind, run_catch, Hf. destruct r; try done.
  simpl. by destruct (payload_get (usr s')).
Qed.

Lemma run_debug_save_thread {T Data} `{!Sequential T Data L} (thread_of : T → loc) thread_id (t : T) {A}
    (f : prog U A) s r s' :
  run f [] (wr s (thread_of t) thread_id) = (r, s') → r = Panicked ∨ (∃ a, r = Returned a) →
  run (debug_save_thread thread_of thread_id t f) [] s = (r, wr s' (thread_of t) 0).
Proof using.
  intros Hf Hr. unfold debug_save_thread. rewrite run_do_returned by done. cbn [op_run].
  rewrite run_bind, run_catch, Hf. by destruct Hr as [->|[a ->]].
Qed.

(** A transition under a write guard, which unwinding drops. *)
Lemma run_transition {T A} l (g : WriteGuard T) t p q (f : T → prog U A) sp pp s r s1 :
  solo_guard l g t p q → phase_range p → phase_range pp →
  run (f t) [] s = (r, s1) → rd s1 (solo_cell l) = Z.lor p LOCKED_BIT →
  match r with
  | Returned a => ∃ g', solo_guard l g' t p sp ∧ run (do_transition g f sp pp) [] s = (Returned (g', a), s1)
  | Panicked => ∃ s2, sets (solo_cell l) pp s1 s2 ∧ run (do_transition g f sp pp) [] s = (Panicked, s2)
  | _ => True
  end.
Proof using SL.
  intros Hg Hp Hpp Hf Hrd. pose proof (solo_set_phase l g t p q pp Hg) as Hg1.
  unfold do_transition, transition. rewrite !run_bind, run_catch.
  destruct (solo_guard_is _ _ _ _ _ Hg1) as [-> _]. rewrite Hf.
  destruct r as [a| | | |]; cbn [run]; try done.
  - pose proof (solo_set_phase l _ t p pp sp Hg1). by eexists.
  - destruct (solo_drop l _ t p pp s1 Hg1 Hp Hpp Hrd) as (s2 & Hrun & Hs2).
    exists s2. split; [done|]. rewrite run_bind, Hrun. done.
Qed.

(** The drop that ends an initialisation which returned its guard. *)
Lemma run_finish_drop {T} l (g : WriteGuard T) t p q (init : prog U (WriteGuard T)) s s1 :
  run init [] s = (Returned g, s1) → solo_guard l g t p q → phase_range p → phase_range q →
  rd s1 (solo_cell l) = Z.lor p LOCKED_BIT →
  ∃ s2, sets (solo_cell l) q s1 s2 ∧
    run (ph ← init; let p := wg_phase ph in wg_drop ph;; Ret p) [] s = (Returned q, s2).
Proof using SL.
  intros Hinit Hg Hp Hq Hrd. rewrite run_bind, Hinit. cbn zeta.
  destruct (solo_guard_is _ _ _ _ _ Hg) as [_ ->].
  destruct (solo_drop l _ t p q s1 Hg Hp Hq Hrd) as (s2 & Hrun & Hs2).
  exists s2. split; [done|]. by rewrite run_bind, Hrun.
Qed.

(** Initialisation under a write guard, then the drop of the guard. *)
Definition init_outcome {A} (base : Phase) (r : outcome A) : Phase :=
  match r with
  | Returned _ => base .| INITIALIZED
  | _ => base .| INITIALIZATION_PANICKED .| INITIALIZATION_SKIPED
  end.

Lemma run_init_drop {T} l (g : WriteGuard T) t p q base (init : T → prog U unit) body s0 s r s1 :
  solo_guard l g t p q → phase_range p → phase_range base →
  run (init t) [] s = (r, s1) → rd s1 (solo_cell l) = Z.lor p LOCKED_BIT →
  r = Panicked ∨ r = Returned tt →
  run body [] s0 = run (gr ← do_transition g init (base .| INITIALIZED)
                         (base .| INITIALIZATION_PANICKED .| INITIALIZATION_SKIPED); Ret gr.1) [] s →
  ∃ s2, sets (solo_cell l) (init_outcome base r) s1 s2 ∧
    run (ph ← body; let p := wg_phase ph in wg_drop ph;; Ret p) [] s0 =
      (match r with Returned _ => Returned (base .| INITIALIZED) | _ => Panicked end, s2).
Proof using SL.
  intros Hg Hp Hbase Hf Hrd Hr Hbody.
  pose proof (run_transition l g t p q init (base .| INITIALIZED)
    (base .| INITIALIZATION_PANICKED .| INITIALIZATION_SKIPED) s r s1 Hg Hp ltac:(auto 10 with phase) Hf Hrd) as Ht.
  rewrite run_bind in Hbody. destruct Hr as [-> | ->].
  - destruct Ht as (s2 & Hs2 & Hrun). rewrite Hrun in Hbody. exists s2. split; [done|].
    by rewrite run_bind, Hbody.
  - destruct Ht as (g' & Hg' & Hrun). rewrite Hrun in Hbody.
    apply (run_finish_drop l g' t p (base .| INITIALIZED)); auto with phase.
Qed.

(** The same with the registration before it, once for an object whose generator may
    fail. *)
Definition registration (Tol : GeneratorTolerance) {T} (reg : T → prog U bool) t p (s s0 : state U) : Prop :=
  if is_empty p then run (reg t) [] s = (Returned true, s0)
  else s0 = s ∧ intersects p REGISTERED = true ∧ before_init Tol p = before_init Tol REGISTERED.

Lemma run_registered_drop {T Data} `{!Sequential T Data L} (Tol : GeneratorTolerance) l (g : WriteGuard T) t p
    (init : Data → prog U unit) reg s s0 r s1 :
  INIT_FAILURE Tol = true → solo_guard l g t p p → phase_range p →
  registration Tol reg t p s s0 → rd s0 (solo_cell l) = Z.lor p LOCKED_BIT →
  run (init (data t)) [] s0 = (r, s1) → rd s1 (solo_cell l) = Z.lor p LOCKED_BIT →
  r = Panicked ∨ r = Returned tt →
  ∃ s2, sets (solo_cell l) (init_outcome (before_init Tol REGISTERED) r) s1 s2 ∧
    run (ph ← lazy_initialization Tol g init reg; let p := wg_phase ph in wg_drop ph;; Ret p) [] s =
      (match r with Returned _ => Returned (before_init Tol REGISTERED .| INITIALIZED) | _ => Panicked end, s2).
Proof using SL.
  intros HT Hg Hp Hreg Hrd0 Hf Hrd Hr. destruct (solo_guard_is _ _ _ _ _ Hg) as [_ Hph].
  assert (phase_range (before_init Tol REGISTERED)) as Hbase by (apply before_init_range; auto with phase).
  unfold registration in Hreg. destruct (is_empty p) eqn:Hempty.
  - pose proof (run_transition l g t p p reg p (REGISTRATION_PANICKED .| INITIALIZATION_SKIPED) s _ s0 Hg Hp
      ltac:(auto with phase) Hreg Hrd0) as (g' & Hg' & Htr).
    apply (run_init_drop l g' t p p _ (λ t, init (data t)) _ s s0 r s1 Hg' Hp Hbase Hf Hrd Hr).
    unfold lazy_initialization. rewrite Hph, HT, Hempty. cbn [negb orb]. rewrite run_bind, Htr. cbn [fst snd].
    unfold lazy_initialization_registered. by flags_const.
  - destruct Hreg as (-> & Hi & Hb).
    apply (run_init_drop l g t p p _ (λ t, init (data t)) _ s s r s1 Hg Hp Hbase Hf Hrd Hr).
    unfold lazy_initialization. rewrite Hph, HT, Hempty. cbn [negb orb].
    unfold lazy_initialization_registered. by rewrite Hi, Hb.
Qed.
End runs.
