(* ===== verification/Cyclic.v ===== *)
(** * Cyclic initialisation

    What a thread observes, in debug mode, of any number of lazies whose generators
    read each other, some of which are registered for finalisation: a value or a
    circularity that there is, and never a wait ([DebugMode] has the operations). *)

From stdpp Require Import base list option numbers gmap relations.
From S2P Require Import Prelude Word Phase Atomics Locker Tokens UnSync SpinLocker Futex FutexLocker FutexInv FutexLive FutexBug Sequentializer Policy Traits GenericLazy LazyTypes OwnedLazies ExitSequentializer ExitWorld DebugMode SoloLocker.
Open Scope Z_scope.

(** ** Lazies that read each other

    The lazies of a program are numbered. The generator of one reads others, in the
    order of [deps], and makes a value of theirs, or panics. The state has the register
    of the exit, and a history: the lazies that were registered, the last one first,
    and those that were finalised, with their values. *)
Record cyc_state (V I R : Type) := CycState {
  c_values : gmap nat V;
  c_exit : R;
  c_log : list nat;
  c_finals : list (nat * V);
  c_payload : payload I;
}.
Arguments CycState {V I R} c_values c_exit c_log c_finals c_payload.
Arguments c_values {V I R} c.
Arguments c_exit {V I R} c.
Arguments c_log {V I R} c.
Arguments c_finals {V I R} c.
Arguments c_payload {V I R} c.

Definition set_values {V I R} (m : gmap nat V) (u : cyc_state V I R) : cyc_state V I R :=
  CycState m (c_exit u) (c_log u) (c_finals u) (c_payload u).

#[export] Instance cyc_memory V I R : Memory (cyc_state V I R) nat V := {
  mem_get i u := c_values u !! i;
  mem_set i v u := set_values (partial_alter (λ _, v) i (c_values u)) u;
}.
#[export] Instance cyc_unwinding V I R : Unwinding (cyc_state V I R) I := {
  payload_get := c_payload;
  payload_set e u := CycState (c_values u) (c_exit u) (c_log u) (c_finals u) e;
}.
#[export] Instance cyc_exit_register V I R : ExitRegister (cyc_state V I R) R := {
  reg_get := c_exit;
  reg_set r u := CycState (c_values u) r (c_log u) (c_finals u) (c_payload u);
}.

(** The address of a lazy. *)
Definition node_of (i : nat) : node := Pos.of_succ_nat i.

(** What a call gives: the value behind the reference, or what it panics with. *)
Inductive answer (V I : Type) := AValue (v : V) | ARaises (e : payload I).
Arguments AValue {V I} v. Arguments ARaises {V I} e.

Record lazies (L V I : Type) := Lazies {
  deps : nat → list nat;
  body : nat → list V → option V;
  locker : nat → L;
  thread_cell : nat → loc;
  static_info : nat → option I;
  finalised : nat → bool;
  reg_always : bool;
}.
Arguments deps {L V I} l. Arguments body {L V I} l. Arguments locker {L V I} l.
Arguments thread_cell {L V I} l. Arguments static_info {L V I} l. Arguments finalised {L V I} l. Arguments reg_always {L V I} l.

Section program.
Context {BF : Bitflags} {L V I R : Type} {RG : Registers R} {ops : PhaseLocker (cyc_state V I R) L}.
Context (thread_id : Z) (ls : lazies L V I).
Abbreviation program := (prog (cyc_state V I R)).

Definition cell_of_seq (s : GenericLazySeq (L:=L) (X:=nat)) : loc := thread_cell ls (gl_value s).

(** What registers a lazy that is to be finalised, with its history. *)
Definition register_lazy (s : GenericLazySeq (L:=L) (X:=nat)) : program bool :=
  register_node (node_of (gl_value s)) ≫= λ b : bool, do_op (Usr (λ u : cyc_state V I R, (b,
    if b then CycState (c_values u) (c_exit u) (gl_value s :: c_log u) (c_finals u) (c_payload u) else u))).

(** A lazy with a generator that may be called again, finalised or not; [reg_always]
    is the one of its policy. *)
Definition lazy_policy (i : nat) : LazyPolicy :=
  if finalised ls i then InitializedSoftFinalizedCheckerGeneric fn_tolerance (reg_always ls) else InitializedChecker fn_tolerance.

Definition cyc_lazy (generator : program V) (i : nat) : @GenericLazy (cyc_state V I R) L ops nat V :=
  gz_new generator (locker ls i) i (UnInited (λ _, Ret tt))
    (if finalised ls i
     then debug_exit_sequentializer cell_of_seq thread_id fn_tolerance register_lazy (static_info ls i)
     else debug_sequentializer cell_of_seq thread_id (static_info ls i))
    (lazy_policy i).

Fixpoint read_all (access : nat → program V) (js : list nat) : program (list V) :=
  match js with
  | [] => Ret []
  | j :: js => v ← access j; vs ← read_all access js; Ret (v :: vs)
  end.

Definition generate_value (access : nat → program V) (i : nat) : program V :=
  vs ← read_all access (deps ls i);
  match body ls i vs with
  | Some v => Ret v
  | None => panic_any OtherPanic
  end.

(** [*LAZY_i]; the fuel bounds the accesses that are nested. *)
Fixpoint access (fuel : nat) (i : nat) : program V :=
  match fuel with
  | O => Diverge
  | S fuel => x ← init_then_get (cyc_lazy (generate_value (access fuel) i) i); read_value x
  end.

Definition call (fuel : nat) (i : nat) : program (answer V I) :=
  r ← catch (access fuel i);
  match r with
  | Some v => Ret (AValue v)
  | None => e ← do_op (Usr (λ u, (payload_get u, u))); Ret (ARaises e)
  end.

Fixpoint calls (fuel : nat) (script : list nat) : program (list (answer V I)) :=
  match script with
  | [] => Ret []
  | i :: script => a ← call fuel i; r ← calls fuel script; Ret (a :: r)
  end.

(** What the answers mean. *)
Definition reads (i j : nat) : Prop := j ∈ deps ls i.

Inductive evaluates : nat → V → Prop :=
| evaluates_intro i vs v : evaluates_all (deps ls i) vs → body ls i vs = Some v → evaluates i v
with evaluates_all : list nat → list V → Prop :=
| evaluates_nil : evaluates_all [] []
| evaluates_cons j js w vs : evaluates j w → evaluates_all js vs → evaluates_all (j :: js) (w :: vs).

Definition circular (i : nat) (info : option I) : Prop :=
  ∃ j, info = static_info ls j ∧ rtc reads i j ∧ tc reads j j.
Definition body_panics (i : nat) : Prop :=
  ∃ j vs, rtc reads i j ∧ evaluates_all (deps ls j) vs ∧ body ls j vs = None.

Definition explains (i : nat) (a : answer V I) : Prop :=
  match a with
  | AValue v => evaluates i v
  | ARaises (Circular info) => circular i info
  | ARaises OtherPanic => body_panics i
  | ARaises CyclicPanic => False
  end.

(** The first [n] lazies read none but each other, and none of their cells is
    another's. *)
Definition well_placed {SL : SoloLocker ops} (n : nat) : Prop :=
  thread_id ≠ 0 ∧
  (∀ i j, (i < n)%nat → reads i j → (j < n)%nat) ∧
  (∀ i j, (i < n)%nat → (j < n)%nat → i ≠ j →
     solo_cell (locker ls i) ≠ solo_cell (locker ls j) ∧ thread_cell ls i ≠ thread_cell ls j) ∧
  (∀ i j, (i < n)%nat → (j < n)%nat → solo_cell (locker ls i) ≠ thread_cell ls j).
End program.

(** A value excludes all other answers. *)
Section exclusive.
Context {L V I : Type} (ls : lazies L V I).

Scheme evaluates_mut := Induction for evaluates Sort Prop
with evaluates_all_mut := Induction for evaluates_all Sort Prop.

Lemma evaluates_unique i v w : evaluates ls i v → evaluates ls i w → v = w.
Proof using.
  intros Hv. revert w. induction Hv as [i vs v Hvs IH Hb| |j js v' vs Hj IHj Hjs IHjs] using evaluates_mut
    with (P0 := λ js vs _, ∀ ws, evaluates_all ls js ws → vs = ws).
  - intros w Hw. inversion Hw as [? ws ? Hws Hb']; subst. rewrite (IH ws Hws) in Hb. congruence.
  - intros ws Hws. by inversion Hws.
  - intros ws Hws. inversion Hws; subst. f_equal; auto.
Qed.
Lemma evaluates_all_unique js vs ws : evaluates_all ls js vs → evaluates_all ls js ws → vs = ws.
Proof using.
  intros Hvs. revert ws. induction Hvs as [|j js v vs Hj Hjs IH]; intros ws Hws; inversion Hws; subst; [done|].
  f_equal; [by eapply evaluates_unique|by apply IH].
Qed.

Lemma evaluates_reads i v j : evaluates ls i v → reads ls i j → ∃ w, evaluates ls j w.
Proof using.
  intros [? vs ? Hvs _]. unfold reads. induction Hvs as [|k ks w vs Hk Hks IH]; [by intros ?%not_elem_of_nil|].
  intros [->|?]%elem_of_cons; [by exists w|by apply IH].
Qed.
Lemma evaluates_reach i v j : evaluates ls i v → rtc (reads ls) i j → ∃ w, evaluates ls j w.
Proof using.
  intros Hv Hr. revert v Hv. induction Hr as [i|i k j Hik Hkj IH]; intros v Hv; [by exists v|].
  destruct (evaluates_reads i v k Hv Hik) as [w Hw]. by eapply IH.
Qed.

Lemma evaluates_acyclic i v : evaluates ls i v → tc (reads ls) i i → False.
Proof using.
  intros Hv. induction Hv as [i vs v Hvs IH Hb| |j js v' vs Hj IHj Hjs IHjs] using evaluates_mut
    with (P0 := λ js vs _, ∀ j, j ∈ js → tc (reads ls) j j → False).
  - intros Hc.
    assert (∃ j, reads ls i j ∧ rtc (reads ls) j i) as (j & Hij & Hji).
    { inversion Hc as [? ? Hii|? j ? Hij Hji]; subst; [by exists i|exists j; split; [done|by apply tc_rtc]]. }
    apply (IH j Hij). eapply tc_rtc_l; [done|by apply tc_once].
  - by intros ? ?%not_elem_of_nil.
  - intros k [->|Hk]%elem_of_cons; [done|by apply IHjs].
Qed.

Lemma explains_value i v a : evaluates ls i v → explains ls i a → a = AValue v.
Proof using.
  intros Hv. destruct a as [w|[|info|]]; simpl; [| done| |].
  - intros Hw. f_equal. by eapply evaluates_unique.
  - intros (j & _ & Hij & Hj). destruct (evaluates_reach i v j Hv Hij) as [w Hw]. by destruct (evaluates_acyclic j w).
  - intros (j & vs & Hij & Hvs & Hb). destruct (evaluates_reach i v j Hv Hij) as [w Hw].
    inversion Hw as [? ws ? Hws Hb']; subst. rewrite (evaluates_all_unique _ _ _ Hvs Hws) in Hb. congruence.
Qed.
End exclusive.

Lemma NoDup_below n xs : NoDup xs → Forall (λ j, (j < n)%nat) xs → (length xs ≤ n)%nat.
Proof.
  intros Hnd Hxs. rewrite <- (length_seq n 0). apply submseteq_length, NoDup_submseteq; [done|].
  intros j Hj. rewrite Forall_forall in Hxs. apply elem_of_seq. specialize (Hxs j Hj). lia.
Qed.

(** ** What holds between accesses *)

Section invariant.
Context {BF : Bitflags} {L V I R : Type} {RG : Registers R} {RL : RegisterLaws RG}.
Context {ops : PhaseLocker (cyc_state V I R) L} {SL : SoloLocker ops}.
Context (thread_id : Z) (ls : lazies L V I) (n : nat) (Hls : well_placed thread_id ls n).
Implicit Types (s : state (cyc_state V I R)) (path : list nat).

(** How a lazy is left by an access, by what became of its value. *)
Definition base_phase i : Phase := if finalised ls i then before_init fn_tolerance REGISTERED else empty_flags.
Definition rest_phase i (g : owned_stage V) : Phase :=
  match g with
  | ONew => empty_flags
  | OFailed => base_phase i .| INITIALIZATION_PANICKED .| INITIALIZATION_SKIPED
  | OHas _ => base_phase i .| INITIALIZED
  end.
Definition times i s : nat := count_occ Nat.eq_dec (c_log (usr s)) i.
Definition once i : nat := if finalised ls i then 1%nat else 0%nat.
Definition rest_times i (g : owned_stage V) : nat := match g with ONew => 0%nat | _ => once i end.

Definition at_rest i s : Prop := ∃ g : owned_stage V,
  rd s (solo_cell (locker ls i)) = rest_phase i g ∧ rd s (thread_cell ls i) = 0 ∧
  c_values (usr s) !! i = stored g ∧ times i s = rest_times i g ∧ ∀ v, g = OHas v → evaluates ls i v.
Definition at_work i s : Prop := ∃ g : owned_stage V, stored g = None ∧
  rd s (solo_cell (locker ls i)) = Z.lor (rest_phase i g) LOCKED_BIT ∧
  rd s (thread_cell ls i) = thread_id ∧ c_values (usr s) !! i = None ∧ times i s = once i.

(** The lazies of the path are being initialised. *)
Definition lazy_is path i s : Prop := if decide (i ∈ path) then at_work i s else at_rest i s.

(** The register is open, and has the lazies that were registered. *)
Definition reg_ok (u : cyc_state V I R) : Prop :=
  reg_open (c_exit u) ∧ chain (reg_next (c_exit u)) (head_of (c_exit u)) (node_of <$> c_log u) ∧
  (∀ m, is_Some (reg_next (c_exit u) !! m) → m ∈ node_of <$> c_log u) ∧
  Forall (λ i, (i < n)%nat) (c_log u) ∧ c_finals u = [].
Definition cyc_inv path s : Prop := reg_ok (usr s) ∧ ∀ i, (i < n)%nat → lazy_is path i s.

Definition same_lazy i s s' : Prop :=
  rd s' (solo_cell (locker ls i)) = rd s (solo_cell (locker ls i)) ∧
  rd s' (thread_cell ls i) = rd s (thread_cell ls i) ∧ c_values (usr s') !! i = c_values (usr s) !! i ∧
  times i s' = times i s.

Lemma lazy_is_same path path' i s s' :
  same_lazy i s s' → (i ∈ path ↔ i ∈ path') → lazy_is path i s → lazy_is path' i s'.
Proof using.
  intros (H1 & H2 & H3 & H4) Hp. unfold lazy_is, at_work, at_rest.
  destruct (decide (i ∈ path)), (decide (i ∈ path')); try tauto; rewrite H1, H2, H3, H4; done.
Qed.

Lemma inv_update path path' i s s' :
  cyc_inv path s → (i < n)%nat → (∀ j, j ≠ i → j ∈ path ↔ j ∈ path') →
  (∀ j, (j < n)%nat → j ≠ i → same_lazy j s s') → lazy_is path' i s' → reg_ok (usr s') → cyc_inv path' s'.
Proof using.
  intros [_ Hinv] Hi Hp Hs Hl Hr. split; [done|]. intros j Hj. destruct (decide (j = i)) as [->|Hne]; [done|].
  eapply lazy_is_same; [by apply Hs|by apply Hp|by apply Hinv].
Qed.

(** Steps on the cells of one lazy leave the others alone. *)
Lemma sets_cell_same i j w s s' :
  (i < n)%nat → (j < n)%nat → j ≠ i → sets (solo_cell (locker ls i)) w s s' → same_lazy j s s'.
Proof using Hls.
  intros Hi Hj Hne (Hu & _ & Hf). destruct Hls as (_ & _ & Hd & Hdt).
  destruct (Hd j i Hj Hi Hne) as [? ?]. specialize (Hdt i j Hi Hj).
  unfold same_lazy, times. split_and!; [by apply Hf|by apply Hf|by rewrite Hu|by rewrite Hu].
Qed.
Lemma wr_thread_same i j w s :
  (i < n)%nat → (j < n)%nat → j ≠ i → same_lazy j s (wr s (thread_cell ls i) w).
Proof using Hls.
  intros Hi Hj Hne. destruct Hls as (_ & _ & Hd & Hdt).
  destruct (Hd j i Hj Hi Hne) as [? ?]. specialize (Hdt j i Hj Hi).
  split_and!; [by apply rd_wr_ne|by apply rd_wr_ne|done|done].
Qed.
Lemma same_lazy_trans i s1 s2 s3 : same_lazy i s1 s2 → same_lazy i s2 s3 → same_lazy i s1 s3.
Proof using. intros (? & ? & ? & ?) (? & ? & ? & ?). split_and!; congruence. Qed.

(** The phases at rest. *)
Lemma base_phase_eq i : base_phase i = if finalised ls i then REGISTERED else 0.
Proof using.
  unfold base_phase, before_init. destruct (finalised ls i); [|apply empty_flags_eq]. simpl.
  rewrite flags_and_eq, flags_not_eq, !flags_or_eq. reflexivity.
Qed.
Lemma rest_phase_eq i g : rest_phase i g =
  match g with
  | ONew => 0
  | OFailed => if finalised ls i then 14 else 6
  | OHas _ => if finalised ls i then 9 else 1
  end.
Proof using.
  destruct g; simpl; rewrite ?flags_or_eq, ?base_phase_eq, ?empty_flags_eq; by destruct (finalised ls i).
Qed.
Lemma rest_phase_range i g : phase_range (rest_phase i g).
Proof using. rewrite rest_phase_eq. destruct g, (finalised ls i); auto with phase. Qed.
Lemma base_phase_range i : phase_range (base_phase i).
Proof using. rewrite base_phase_eq. destruct (finalised ls i); auto with phase. Qed.

Lemma policy_shall_init i p : shall_init (lazy_policy ls i) p = negb (intersects p INITIALIZED).
Proof using. unfold lazy_policy. by destruct (finalised ls i). Qed.
Lemma rest_initialized i (g : owned_stage V) :
  intersects (rest_phase i g) INITIALIZED = match g with OHas _ => true | _ => false end.
Proof using. rewrite rest_phase_eq, intersects_eq. by destruct g, (finalised ls i). Qed.

(** The registration of a lazy that is not registered. *)
Definition enrolled i (u : cyc_state V I R) : cyc_state V I R :=
  CycState (c_values u) (enlist (node_of i) (c_exit u)).2 (i :: c_log u) (c_finals u) (c_payload u).

Lemma unregistered i u : reg_ok u → i ∉ c_log u → reg_next (c_exit u) !! node_of i = None.
Proof using.
  intros (_ & _ & Hnext & _) Hi. destruct (reg_next (c_exit u) !! node_of i) eqn:E; [|done].
  assert (node_of i ∈ node_of <$> c_log u) as (j & Hj & Hin)%list_elem_of_fmap by (apply Hnext; eauto).
  by apply (inj Pos.of_succ_nat) in Hj as ->.
Qed.

Lemma enrolled_ok i u : reg_ok u → (i < n)%nat → i ∉ c_log u → reg_ok (enrolled i u).
Proof using.
  intros Hu Hn Hi. pose proof Hu as (Ho & Hc & Hnext & Hlog & Hf).
  assert (node_of i ∉ node_of <$> c_log u) as Hni.
  { intros (j & Hj & Hin)%list_elem_of_fmap. by apply (inj Pos.of_succ_nat) in Hj as ->. }
  destruct (enlist_open (node_of i) (c_exit u) Ho (unregistered i u Hu Hi)) as (_ & Hh & Hne & Ho').
  split_and!; [done| | |by constructor|done]; simpl; rewrite ?Hh, Hne; [by apply chain_push|].
  intros m. unfold set_next. rewrite elem_of_cons.
  destruct (decide (m = node_of i)) as [->|]; [by left|]. rewrite lookup_partial_alter_ne by done.
  right. by apply Hnext.
Qed.

Lemma run_register_lazy (t : GenericLazySeq (L:=L) (X:=nat)) s :
  reg_ok (usr s) → gl_value t ∉ c_log (usr s) →
  run (register_lazy t) [] s = (Returned true, upd s (enrolled (gl_value t) (usr s))).
Proof using.
  intros Hr Ht. pose proof Hr as (Ho & _). pose proof (unregistered _ _ Hr Ht) as Hn.
  destruct s as [m u]. simpl in *.
  unfold register_lazy, register_node, on_register, enrolled.
  destruct (enlist_open (node_of (gl_value t)) (c_exit u) Ho Hn) as (H1 & _). simpl.
  destruct (enlist (node_of (gl_value t)) (c_exit u)) as [o r]. simpl in H1. by subst o.
Qed.

Lemma times_none i s : times i s = 0%nat → i ∉ c_log (usr s).
Proof using. unfold times. intros H Hi. apply list_elem_of_In, (List.count_occ_In Nat.eq_dec) in Hi. lia. Qed.

Lemma rest_registration i (g : owned_stage V) (t : GenericLazySeq (L:=L) (X:=nat)) s :
  finalised ls i = true → stored g = None → gl_value t = i → reg_ok (usr s) → times i s = rest_times i g →
  registration fn_tolerance register_lazy t (rest_phase i g) s
    (match g with ONew => upd s (enrolled i (usr s)) | _ => s end).
Proof using.
  intros Hf Hg <- Hr Ht. unfold registration. rewrite is_empty_eq, rest_phase_eq, Hf. destruct g; try done; simpl.
  - by apply run_register_lazy, times_none.
  - split_and!; [done|by rewrite intersects_eq|]. unfold before_init. simpl.
    by rewrite !flags_and_eq, flags_not_eq, !flags_or_eq.
Qed.

(** ** Accesses *)

Lemma explains_reads i j e : reads ls i j → explains ls j (ARaises e) → explains ls i (ARaises e).
Proof using.
  intros Hij. destruct e as [|info|]; simpl; [done|..].
  - intros (k & -> & Hjk & Hk). exists k. split_and!; [done|by eapply rtc_l|done].
  - intros (k & vs & Hjk & Hk). exists k, vs. split; [by eapply rtc_l|done].
Qed.

Lemma upd_usr s : upd s (usr s) = s.
Proof using. by destruct s. Qed.

Lemma panic_any_run {A} (e : payload I) s :
  run (panic_any (A:=A) e) [] s = (Panicked, upd s (payload_set e (usr s))).
Proof using. done. Qed.

Definition keeps path s s' : Prop :=
  ∀ i, i ∈ path → rd s' (solo_cell (locker ls i)) = rd s (solo_cell (locker ls i)).

Lemma keeps_trans path s1 s2 s3 : keeps path s1 s2 → keeps path s2 s3 → keeps path s1 s3.
Proof using. intros H1 H2 i Hi. by rewrite H2, H1. Qed.

Definition access_ok (fuel : nat) : Prop := ∀ path i s,
  cyc_inv path s → (i < n)%nat → NoDup path → Forall (λ j, (j < n)%nat) path →
  (∀ j, j ∈ path → tc (reads ls) j i) → (n - length path < fuel)%nat →
  ∃ r s', run (access thread_id ls fuel i) [] s = (r, s') ∧ cyc_inv path s' ∧ keeps path s s' ∧
    match r with
    | Returned v => evaluates ls i v
    | Panicked => explains ls i (ARaises (c_payload (usr s')))
    | _ => False
    end.

Lemma read_all_ok fuel path i js s :
  access_ok fuel → cyc_inv (i :: path) s → (i < n)%nat → NoDup (i :: path) →
  Forall (λ j, (j < n)%nat) path → (∀ j, j ∈ path → tc (reads ls) j i) →
  (n - length (i :: path) < fuel)%nat → (∀ j, j ∈ js → reads ls i j) →
  ∃ r s', run (read_all (access thread_id ls fuel) js) [] s = (r, s') ∧ cyc_inv (i :: path) s' ∧ keeps (i :: path) s s' ∧
    match r with
    | Returned vs => evaluates_all ls js vs
    | Panicked => explains ls i (ARaises (c_payload (usr s')))
    | _ => False
    end.
Proof using Hls.
  intros Hacc Hinv Hi Hnd Hpath Hreads Hfuel. revert s Hinv. induction js as [|j js IH]; intros s Hinv Hjs.
  { exists (Returned []), s. split_and!; [done..|constructor]. }
  assert (reads ls i j) as Hij by (apply Hjs; left).
  destruct (Hacc (i :: path) j s) as (r & s1 & Hrun & Hinv1 & Hk1 & Hr); [done| |done|by constructor| |done|].
  { destruct Hls as (_ & Hcl & _). by apply (Hcl i). }
  { intros k [->|Hk]%elem_of_cons; [by apply tc_once|]. by eapply tc_r; [apply Hreads|]. }
  cbn [read_all]. rewrite run_bind, Hrun. destruct r as [w| | | |]; try done.
  2: { exists Panicked, s1. split_and!; [done..|]. by apply (explains_reads i j). }
  destruct (IH s1 Hinv1) as (r & s2 & Hrun2 & Hinv2 & Hk2 & Hr2). { intros k Hk. apply Hjs. by right. }
  rewrite run_bind, Hrun2. destruct r as [vs| | | |]; try done.
  - exists (Returned (w :: vs)), s2. split_and!; [done..|by eapply keeps_trans|by constructor].
  - exists Panicked, s2. split_and!; [done..|by eapply keeps_trans|done].
Qed.

Lemma generate_ok fuel path i s :
  access_ok fuel → cyc_inv (i :: path) s → (i < n)%nat → NoDup (i :: path) →
  Forall (λ j, (j < n)%nat) path → (∀ j, j ∈ path → tc (reads ls) j i) →
  (n - length (i :: path) < fuel)%nat →
  ∃ r s', run (generate_value ls (access thread_id ls fuel) i) [] s = (r, s') ∧ cyc_inv (i :: path) s' ∧ keeps (i :: path) s s' ∧
    match r with
    | Returned v => evaluates ls i v
    | Panicked => explains ls i (ARaises (c_payload (usr s')))
    | _ => False
    end.
Proof using Hls.
  intros Hacc Hinv Hi Hnd Hpath Hreads Hfuel.
  destruct (read_all_ok fuel path i (deps ls i) s) as (r & s1 & Hrun & Hinv1 & Hk & Hr); [done..|].
  unfold generate_value. rewrite run_bind, Hrun. destruct r as [vs| | | |]; try done.
  2: by exists Panicked, s1.
  destruct (body ls i vs) as [v|] eqn:Hb.
  - exists (Returned v), s1. split_and!; [done..|by econstructor].
  - rewrite panic_any_run. eexists Panicked, _. split; [done|]. split.
    + split; [apply Hinv1|]. intros j Hj. by eapply lazy_is_same; [|done|by apply Hinv1].
    + split; [done|]. exists i, vs. done.
Qed.

(** An access comes down to the initialisation that it asks for. *)
Abbreviation lazy_of fuel i := (cyc_lazy thread_id ls (generate_value ls (access thread_id ls fuel) i) i).
Definition init_of fuel i : prog (cyc_state V I R) Phase :=
  let lz := lazy_of fuel i in
  if finalised ls i
  then debug_fin_init (cell_of_seq ls) thread_id fn_tolerance (gz_seq lz) (shall_init (lazy_policy ls i))
         (gz_init_closure lz) register_lazy
  else debug_init (cell_of_seq ls) thread_id (gz_seq lz) (shall_init (lazy_policy ls i)) (gz_init_closure lz).

Lemma run_gz_init fuel i s : run (gz_init (lazy_of fuel i)) [] s = run (may_debug (init_of fuel i) (static_info ls i)) [] s.
Proof using.
  unfold gz_init, init_of, cyc_lazy at 1 2. cbn [gz_new gz_man gz_policy].
  by destruct (finalised ls i).
Qed.

Lemma run_access_returned fuel i s p s' v :
  run (init_of fuel i) [] s = (Returned p, s') → intersects p INITIALIZED = true → c_values (usr s') !! i = Some v →
  run (access thread_id ls (S fuel) i) [] s = (Returned v, s').
Proof using.
  intros Hrun Hp Hv. cbn [access]. unfold init_then_get, init_then_try_get. rewrite !run_bind, run_gz_init.
  rewrite (run_may_debug _ _ _ _ _ Hrun). destruct s' as [m u]. cbn [usr] in Hv.
  assert (post_init_is_accessible (lazy_policy ls i) p = true) as Hpost.
  { unfold lazy_policy. by destruct (finalised ls i), (reg_always ls). }
  change (gz_ptr _) with i. change (gz_policy _) with (lazy_policy ls i).
  unfold post_init_check_access. rewrite Hpost. unfold as_ref, read_value. simpl.
  rewrite Hv. simpl. by rewrite Hv.
Qed.

Lemma run_access_panicked fuel i s s' :
  run (init_of fuel i) [] s = (Panicked, s') →
  run (access thread_id ls (S fuel) i) [] s =
    (Panicked, match c_payload (usr s') with
               | CyclicPanic => upd s' (payload_set (Circular (static_info ls i)) (usr s'))
               | _ => upd s' (usr s')
               end).
Proof using.
  intros Hrun. cbn [access]. unfold init_then_get, init_then_try_get.
  by rewrite !run_bind, run_gz_init, (run_may_debug _ _ _ _ _ Hrun).
Qed.

Lemma sets_keeps l s s' x : sets (solo_cell l) (rd s (solo_cell l)) s s' → rd s' x = rd s x.
Proof using. intros (_ & Hl & Hf). destruct (decide (x = solo_cell l)) as [->|]; [done|by apply Hf]. Qed.

(** The lock is not taken: the lazy is initialised, or is being so by this thread. *)
Lemma run_init_none fuel i s (g : owned_stage V) lk :
  rd s (solo_cell (locker ls i)) = word (rest_phase i g) 0 lk false false →
  let cyclic := is_cyclic thread_id (rd s (thread_cell ls i)) in
  cyclic = true ∨ is_Some (stored g) →
  ∃ s1, sets (solo_cell (locker ls i)) (rd s (solo_cell (locker ls i))) s s1 ∧
    run (init_of fuel i) [] s =
      if bool_decide (stored g = None) then (Panicked, upd s1 (payload_set CyclicPanic (usr s1)))
      else (Returned (rest_phase i g), s1).
Proof using.
  intros Hrd cyclic Hc.
  assert (testing cyclic (shall_init (lazy_policy ls i)) LNNone (rest_phase i g) = LNNone) as Hn.
  { unfold testing. rewrite policy_shall_init, rest_initialized. destruct g, Hc as [-> | [? [=]]]; done. }
  assert (∀ {S} (t : S) hint, phase_range hint →
    ∃ s1, run (pl_lock (locker ls i) t (testing cyclic (shall_init (lazy_policy ls i)) LNNone) (λ _, LNRead) hint) [] s =
      (Returned (LRNone (rest_phase i g)), s1) ∧
      sets (solo_cell (locker ls i)) (rd s (solo_cell (locker ls i))) s s1) as Hlock.
  { intros S t hint Hh. by apply (solo_none _ t _ _ hint (rest_phase i g) lk); [apply rest_phase_range|..]. }
  assert (∀ {S} (t : S) hint (k : _ → prog (cyc_state V I R) Phase), phase_range hint → (∀ p, k (LRNone p) = Ret p) →
    ∃ s1, sets (solo_cell (locker ls i)) (rd s (solo_cell (locker ls i))) s s1 ∧
    run (r ← lock_testing (cell_of_seq ls) thread_id (gz_seq (lazy_of fuel i)) t (shall_init (lazy_policy ls i)) LNNone hint; k r) [] s =
      if bool_decide (stored g = None) then (Panicked, upd s1 (payload_set CyclicPanic (usr s1)))
      else (Returned (rest_phase i g), s1)) as Htest.
  { intros S t hint k Hh Hk. destruct (Hlock S t hint Hh) as (s1 & Hrun & Hs1). exists s1. split; [done|].
    unfold lock_testing. rewrite run_bind, run_do_returned by done. cbn [op_run].
    change (cell_of_seq ls _) with (thread_cell ls i). fold cyclic. change (seq_locker _) with (locker ls i).
    rewrite run_bind, Hrun, policy_shall_init, rest_initialized. destruct g; simpl.
    1,2: destruct Hc as [-> | [? [=]]]; done.
    rewrite andb_false_r. simpl. by rewrite Hk. }
  unfold init_of. destruct (finalised ls i) eqn:Hf.
  - by apply Htest; [auto with phase|].
  - by apply Htest; [auto with phase|].
Qed.

(** What an initialisation starts with, once it has the lock. *)
Definition started i (g : owned_stage V) s : state (cyc_state V I R) :=
  if finalised ls i then
    match g with
    | ONew => upd s (enrolled i (usr s))
    | _ => s
    end
  else s.

(** The lock is taken, and what the closure does decides. *)
Lemma run_initialises fuel i s (g : owned_stage V) :
  rd s (solo_cell (locker ls i)) = rest_phase i g → rd s (thread_cell ls i) = 0 → stored g = None →
  solo_cell (locker ls i) ≠ thread_cell ls i → reg_ok (usr s) → times i s = rest_times i g →
  ∃ s1, sets (solo_cell (locker ls i)) (Z.lor (rest_phase i g) LOCKED_BIT) s s1 ∧
    ∀ r s3, run (gz_init_closure (lazy_of fuel i) i) [] (started i g (wr s1 (thread_cell ls i) thread_id)) = (r, s3) →
      rd s3 (solo_cell (locker ls i)) = Z.lor (rest_phase i g) LOCKED_BIT → r = Panicked ∨ r = Returned tt →
      ∃ s5, sets (solo_cell (locker ls i)) (init_outcome (base_phase i) r) s3 s5 ∧
        run (init_of fuel i) [] s =
          (match r with Returned _ => Returned (base_phase i .| INITIALIZED) | _ => Panicked end,
           wr s5 (thread_cell ls i) 0).
Proof using.
  intros Hrd Hth Hg Hne Hreg Htimes. pose proof (rest_phase_range i g) as Hp.
  assert (∀ hint, phase_range hint → testing false (shall_init (lazy_policy ls i)) LNNone (rest_phase i g) = LNWrite) as Hw.
  { intros. unfold testing. rewrite policy_shall_init, rest_initialized. by destruct g. }
  assert (∀ s1, sets (solo_cell (locker ls i)) (Z.lor (rest_phase i g) LOCKED_BIT) s s1 →
    rd (started i g (wr s1 (thread_cell ls i) thread_id)) (solo_cell (locker ls i)) = Z.lor (rest_phase i g) LOCKED_BIT) as Hst.
  { intros s1 (_ & Hcell & _). unfold started. rewrite <- Hcell.
    destruct (finalised ls i), g; rewrite ?rd_upd; by apply rd_wr_ne. }
  assert (∀ {S} (t : S) hint (k : WriteGuard S → prog (cyc_state V I R) Phase), phase_range hint →
    ∃ s1 wg, sets (solo_cell (locker ls i)) (Z.lor (rest_phase i g) LOCKED_BIT) s s1 ∧
      solo_guard (locker ls i) wg t (rest_phase i g) (rest_phase i g) ∧
      ∀ r s5, run (k wg) [] (wr s1 (thread_cell ls i) thread_id) = (r, s5) → r = Panicked ∨ (∃ p, r = Returned p) →
      run (r ← lock_testing (cell_of_seq ls) thread_id (gz_seq (lazy_of fuel i)) t (shall_init (lazy_policy ls i)) LNNone hint;
           match r with
           | LRNone p => Ret p
           | LRRead l => p ← rg_phase l; rg_drop l;; Ret p
           | LRWrite g => debug_save_thread (cell_of_seq ls) thread_id (gz_seq (lazy_of fuel i)) (k g)
           end) [] s = (r, wr s5 (thread_cell ls i) 0)) as Hlock.
  { intros S t hint k Hh.
    destruct (solo_lock (locker ls i) t (testing false (shall_init (lazy_policy ls i)) LNNone)
      (λ _, LNRead) hint (rest_phase i g) s) as (s1 & wg & Hlock & Hs1 & Hwg); [done..|by apply (Hw hint)|].
    exists s1, wg. split_and!; [done..|]. intros r s5 Hrun Hr. unfold lock_testing.
    rewrite run_bind, run_do_returned by done. cbn [op_run].
    change (cell_of_seq ls _) with (thread_cell ls i). rewrite Hth.
    change (is_cyclic thread_id 0) with false. change (seq_locker _) with (locker ls i).
    rewrite run_bind, Hlock. cbn [run].
    exact (run_debug_save_thread (cell_of_seq ls) thread_id (gz_seq (lazy_of fuel i)) _ _ _ _ Hrun Hr). }
  unfold init_of, base_phase. destruct (finalised ls i) eqn:Hf.
  - destruct (Hlock _ (gz_seq (lazy_of fuel i)) (INITIALIZED .| REGISTERED)
      (λ g, ph ← lazy_initialization fn_tolerance g (gz_init_closure (lazy_of fuel i)) register_lazy;
            let p := wg_phase ph in wg_drop ph;; Ret p)) as (s1 & wg & Hs1 & Hwg & Hrun); [auto with phase|].
    exists s1. split; [done|]. intros r s3 Hcl Hrd3 Hr.
    destruct (run_registered_drop fn_tolerance (locker ls i) wg (gz_seq (lazy_of fuel i)) (rest_phase i g) (gz_init_closure (lazy_of fuel i))
      register_lazy (wr s1 (thread_cell ls i) thread_id) (started i g (wr s1 (thread_cell ls i) thread_id)) r s3)
      as (s5 & Hs5 & Hrun5); try done; [|by apply Hst|].
    { unfold started. rewrite Hf. destruct Hs1 as (Hu1 & _).
      apply rest_registration; try done; [by rewrite usr_wr, Hu1|by unfold times; rewrite usr_wr, Hu1]. }
    exists s5. split; [done|]. apply Hrun; [exact Hrun5|]. destruct Hr as [-> | ->]; eauto.
  - destruct (Hlock _ i INITIALIZED
      (λ g, ph ← lazy_initialization_only g (gz_init_closure (lazy_of fuel i));
            let p := wg_phase ph in wg_drop ph;; Ret p)) as (s1 & wg & Hs1 & Hwg & Hrun); [auto with phase|].
    exists s1. split; [done|]. intros r s3 Hcl Hrd3 Hr.
    destruct (run_init_drop (locker ls i) wg i (rest_phase i g) (rest_phase i g) empty_flags (gz_init_closure (lazy_of fuel i))
      (lazy_initialization_only wg (gz_init_closure (lazy_of fuel i))) (wr s1 (thread_cell ls i) thread_id)
      (wr s1 (thread_cell ls i) thread_id) r s3) as (s5 & Hs5 & Hrun5); try done; [auto with phase| |].
    { unfold started in Hcl. by rewrite Hf in Hcl. }
    exists s5. split; [done|]. apply Hrun; [exact Hrun5|]. destruct Hr as [-> | ->]; eauto.
Qed.

Lemma access_at_work fuel path i s :
  cyc_inv path s → (i < n)%nat → i ∈ path → tc (reads ls) i i →
  ∃ s', run (access thread_id ls (S fuel) i) [] s = (Panicked, s') ∧ cyc_inv path s' ∧ keeps path s s' ∧
    explains ls i (ARaises (c_payload (usr s'))).
Proof using Hls.
  intros Hinv Hi Hin Hcyc. pose proof (proj2 Hinv i Hi) as Hl. unfold lazy_is in Hl. rewrite decide_True in Hl by done.
  destruct Hl as (g & Hg & Hrd & Hth & Hv & Ht).
  rewrite phase_lor_locked in Hrd by apply rest_phase_range.
  destruct (run_init_none fuel i s g true Hrd) as (s1 & Hs1 & Hrun).
  { left. rewrite Hth. unfold is_cyclic. destruct Hls as [Hne _].
    by rewrite Z.eqb_refl, (proj2 (Z.eqb_neq _ _) Hne). }
  rewrite bool_decide_true in Hrun by done.
  rewrite (run_access_panicked _ _ _ _ Hrun). cbn [usr upd payload_set cyc_unwinding c_payload].
  eexists. split; [done|]. split_and!.
  - split.
    { destruct Hs1 as (Hu & _), Hinv as [Hr _]. rewrite <- Hu in Hr. exact Hr. }
    intros j Hj. apply (lazy_is_same path path j s); [|done|by apply Hinv].
    destruct (decide (j = i)) as [->|Hne].
    + destruct Hs1 as (Hu & Hcell & Hf). split_and!; simpl; rewrite ?rd_upd.
      * done.
      * apply Hf. destruct Hls as (_ & _ & _ & Hd). specialize (Hd i i Hi Hi). congruence.
      * by rewrite Hu.
      * unfold times. simpl. by rewrite Hu.
    + apply (sets_cell_same i j _ s s1 Hi Hj Hne Hs1).
  - intros j _. rewrite !rd_upd. by apply (sets_keeps (locker ls i)).
  - exists i. split_and!; [done|apply rtc_refl|done].
Qed.

Lemma access_at_rest fuel path i s v :
  cyc_inv path s → (i < n)%nat → i ∉ path →
  rd s (solo_cell (locker ls i)) = rest_phase i (OHas v) → c_values (usr s) !! i = Some v →
  ∃ s', run (access thread_id ls (S fuel) i) [] s = (Returned v, s') ∧ cyc_inv path s' ∧ keeps path s s'.
Proof using Hls.
  intros Hinv Hi Hin Hrd Hv.
  destruct (run_init_none fuel i s (OHas v) false) as (s1 & Hs1 & Hrun); [by rewrite <- phase_word|by right|].
  exists s1. pose proof Hs1 as (Hu & Hcell & Hf). split_and!.
  - apply (run_access_returned _ _ _ (rest_phase i (OHas v))); [done|apply or_initialized|by rewrite Hu].
  - split; [rewrite Hu; apply Hinv|]. intros j Hj. apply (lazy_is_same path path j s); [|done|by apply Hinv].
    unfold same_lazy, times. split_and!; [by apply (sets_keeps (locker ls i))|apply Hf|by rewrite Hu|by rewrite Hu].
    + destruct Hls as (_ & _ & _ & Hd). specialize (Hd i j Hi Hj). congruence.
  - intros j _. by apply (sets_keeps (locker ls i)).
Qed.

(** What the closure of the initialisation does, once the generator has run. *)
Lemma run_closure fuel i s r s' :
  run (generate_value ls (access thread_id ls fuel) i) [] s = (r, s') →
  run (gz_init_closure (cyc_lazy thread_id ls (generate_value ls (access thread_id ls fuel) i) i) i) [] s =
    match r with
    | Returned v => (Returned tt, upd s' (mem_set i (Some v) (usr s')))
    | Panicked => (Panicked, s')
    | Undefined => (Undefined, s')
    | OutOfFuel => (OutOfFuel, s')
    | Stopped => (Stopped, s')
    end.
Proof using. intros Hr. unfold gz_init_closure. rewrite run_bind. cbn [cyc_lazy gz_new gz_generator]. rewrite Hr. by destruct r. Qed.

(** The lazy leaves the path with its new phase and value. *)
Lemma leaves_path path i s s1 s2 (g : owned_stage V) :
  cyc_inv (i :: path) s → (i < n)%nat → i ∉ path →
  (∀ j, (j < n)%nat → j ≠ i → same_lazy j s s1) → c_values (usr s1) !! i = stored g → times i s1 = rest_times i g →
  sets (solo_cell (locker ls i)) (rest_phase i g) s1 s2 → (∀ w, g = OHas w → evaluates ls i w) → reg_ok (usr s1) →
  cyc_inv path (wr s2 (thread_cell ls i) 0).
Proof using Hls.
  intros Hinv Hi Hin Hsame Hv Ht Hs2 Hg Hreg. pose proof Hs2 as (Hu & Hcell & Hf).
  pose proof Hls as (_ & _ & _ & Hd).
  apply (inv_update (i :: path) path i s); [done..| | | |by rewrite usr_wr, Hu].
  - intros j Hj. rewrite elem_of_cons. tauto.
  - intros j Hj Hne. apply (same_lazy_trans _ _ s2); [|by apply wr_thread_same].
    eapply same_lazy_trans; [by apply Hsame|exact (sets_cell_same i j _ s1 s2 Hi Hj Hne Hs2)].
  - unfold lazy_is. rewrite decide_False by done. exists g. unfold times.
    split_and!; [| |by rewrite usr_wr, Hu|by rewrite usr_wr, Hu|done].
    + rewrite rd_wr_ne; [by rewrite Hcell|]. specialize (Hd i i Hi Hi). congruence.
    + apply rd_wr.
Qed.

(** The lock is taken, the thread leaves its number, and the lazy is registered. *)
Lemma started_same i j (g : owned_stage V) s : j ≠ i → same_lazy j s (started i g s).
Proof using.
  intros Hne. unfold same_lazy, times, started. destruct (finalised ls i), g; try done.
  split_and!; [done..|]. apply List.count_occ_cons_neq. congruence.
Qed.

Lemma started_times i (g : owned_stage V) s :
  stored g = None → times i s = rest_times i g → times i (started i g s) = once i.
Proof using.
  unfold times, started, once. intros Hg Ht. destruct g; simpl in Ht; [| |done].
  - unfold once in Ht. destruct (finalised ls i); [|done]. cbn [upd usr c_log enrolled].
    by rewrite List.count_occ_cons_eq, Ht.
  - destruct (finalised ls i) eqn:Hf; simpl in *; rewrite Ht; unfold once; by rewrite Hf.
Qed.

Lemma enters_path path i s (g : owned_stage V) s1 :
  cyc_inv path s → (i < n)%nat → i ∉ path → stored g = None → c_values (usr s) !! i = None →
  times i s = rest_times i g →
  sets (solo_cell (locker ls i)) (Z.lor (rest_phase i g) LOCKED_BIT) s s1 →
  cyc_inv (i :: path) (started i g (wr s1 (thread_cell ls i) thread_id)).
Proof using Hls.
  intros Hinv Hi Hin Hg Hv Ht Hs1. pose proof Hs1 as (Hu & Hcell & Hf). pose proof Hls as (_ & _ & _ & Hd).
  apply (inv_update path (i :: path) i s); [done..| | | |].
  - intros j Hj. rewrite elem_of_cons. tauto.
  - intros j Hj Hne. eapply same_lazy_trans; [exact (sets_cell_same i j _ s s1 Hi Hj Hne Hs1)|].
    apply (same_lazy_trans _ _ (wr s1 (thread_cell ls i) thread_id)); [by apply wr_thread_same|by apply started_same].
  - unfold lazy_is. rewrite decide_True by left. exists g.
    assert (∀ x s, rd (started i g s) x = rd s x) as Hrd by (intros; unfold started; by destruct (finalised ls i), g).
    split_and!; [done| | | |].
    + rewrite Hrd, rd_wr_ne; [done|]. specialize (Hd i i Hi Hi). congruence.
    + rewrite Hrd. apply rd_wr.
    + rewrite <- Hv, <- Hu. unfold started. by destruct (finalised ls i), g.
    + apply started_times; [done|]. unfold times. by rewrite usr_wr, Hu.
  - unfold started. destruct Hinv as [Hr _]. rewrite <- Hu in Hr. destruct (finalised ls i), g; try done.
    apply enrolled_ok; [done..|]. rewrite usr_wr, Hu. by apply times_none.
Qed.

Lemma access_initialises fuel path i s (g : owned_stage V) :
  access_ok fuel → cyc_inv path s → (i < n)%nat → i ∉ path → NoDup path → Forall (λ j, (j < n)%nat) path →
  (∀ j, j ∈ path → tc (reads ls) j i) → (n - length (i :: path) < fuel)%nat →
  stored g = None → rd s (solo_cell (locker ls i)) = rest_phase i g → rd s (thread_cell ls i) = 0 →
  c_values (usr s) !! i = None → times i s = rest_times i g →
  ∃ r s', run (access thread_id ls (S fuel) i) [] s = (r, s') ∧ cyc_inv path s' ∧ keeps path s s' ∧
    match r with
    | Returned v => evaluates ls i v
    | Panicked => explains ls i (ARaises (c_payload (usr s')))
    | _ => False
    end.
Proof using Hls.
  intros Hacc Hinv Hi Hin Hnd Hpath Hreads Hfuel Hg Hrd Hth Hv Ht. pose proof Hls as (_ & _ & Hdj & Hd).
  destruct (run_initialises fuel i s g Hrd Hth Hg (Hd i i Hi Hi) (proj1 Hinv) Ht) as (s1 & Hs1 & Hinit).
  pose proof (enters_path path i s g s1 Hinv Hi Hin Hg Hv Ht Hs1) as Hinv2.
  set (s2 := started i g (wr s1 (thread_cell ls i) thread_id)) in *.
  assert (∀ x, rd s2 x = rd (wr s1 (thread_cell ls i) thread_id) x) as Hrd2.
  { intros x. unfold s2, started. by destruct (finalised ls i), g. }
  destruct (generate_ok fuel path i _ Hacc Hinv2 Hi) as (r & s3 & Hgen & Hinv3 & Hk3 & Hr); [by constructor|done..|].
  pose proof (run_closure _ _ _ _ _ Hgen) as Hclosure.
  assert (rd s3 (solo_cell (locker ls i)) = Z.lor (rest_phase i g) LOCKED_BIT) as Hrd3.
  { rewrite (Hk3 i), Hrd2 by left. rewrite rd_wr_ne; [apply Hs1|]. specialize (Hd i i Hi Hi). congruence. }
  assert (times i s3 = once i ∧ c_values (usr s3) !! i = None) as [Ht3 Hv3].
  { pose proof (proj2 Hinv3 i Hi) as Hl3. unfold lazy_is in Hl3. rewrite decide_True in Hl3 by left.
    by destruct Hl3 as (? & _ & _ & _ & ? & ?). }
  set (u4 := match r with Returned v => set_values (partial_alter (λ _, Some v) i (c_values (usr s3))) (usr s3)
                          | _ => usr s3 end).
  assert (∃ r', run (gz_init_closure (lazy_of fuel i) i) [] s2 = (r', upd s3 u4) ∧
    match r with Returned _ => r' = Returned tt | _ => r' = Panicked end) as (r' & Hclosure' & Hr').
  { rewrite Hclosure. destruct r; try done; eexists; split; [done|done|by destruct s3|done]. }
  destruct (Hinit r' (upd s3 u4)) as (s5 & Hs5 & Hinit5); [done|done|by destruct r; subst; auto|].
  assert (keeps path s (wr s5 (thread_cell ls i) 0)) as Hkeep.
  { intros j Hj. assert (j < n)%nat as Hjn by (by rewrite Forall_forall in Hpath; apply Hpath).
    assert (j ≠ i) as Hne by (by intros ->). destruct (Hdj j i Hjn Hi Hne) as [Hcells _].
    rewrite rd_wr_ne by (specialize (Hd j i Hjn Hi); congruence).
    destruct Hs5 as (_ & _ & Hf5). rewrite (Hf5 _ Hcells), rd_upd, (Hk3 j), Hrd2 by (by right).
    rewrite rd_wr_ne by (specialize (Hd j i Hjn Hi); congruence). by apply Hs1. }
  destruct r as [v| | | |]; try done; subst r'.
  - exists (Returned v), (wr s5 (thread_cell ls i) 0). split_and!; [| |done|done].
    + apply (run_access_returned _ _ _ _ _ _ Hinit5 (or_initialized _)). destruct Hs5 as (Hu & _). rewrite usr_wr, Hu. simpl.
      apply lookup_partial_alter_eq.
    + apply (leaves_path path i s3 (upd s3 u4) s5 (OHas v)); [done..| | | |done|by intros w [= <-]|exact (proj1 Hinv3)].
      * intros j Hj Hne. split_and!; [done|done| |done]. by apply lookup_partial_alter_ne.
      * apply lookup_partial_alter_eq.
      * exact Ht3.
  - assert (cyc_inv path (wr s5 (thread_cell ls i) 0)) as Hinv5.
    { by apply (leaves_path path i s3 (upd s3 u4) s5 OFailed); [..|exact (proj1 Hinv3)]. }
    destruct Hs5 as (Hu & _). assert (usr (wr s5 (thread_cell ls i) 0) = usr s3) as Hu5 by (by rewrite usr_wr, Hu).
    rewrite (run_access_panicked _ _ _ _ Hinit5), Hu5.
    eexists Panicked, _. split; [done|].
    destruct (c_payload (usr s3)) eqn:Hpay; [done|..]; rewrite <- Hu5, upd_usr; rewrite Hu5, Hpay; done.
Qed.

Lemma access_always fuel : access_ok fuel.
Proof using Hls.
  induction fuel as [|fuel IH]; intros path i s Hinv Hi Hnd Hpath Hreads Hfuel; [lia|].
  destruct (decide (i ∈ path)) as [Hin|Hin].
  { destruct (access_at_work fuel path i s) as (s' & ? & ? & ? & ?); [by auto..|]. by exists Panicked, s'. }
  pose proof (proj2 Hinv i Hi) as Hl. unfold lazy_is in Hl. rewrite decide_False in Hl by done.
  destruct Hl as (g & Hrd & Hth & Hv & Ht & Hg). destruct g as [| |v].
  3: { destruct (access_at_rest fuel path i s v) as (s' & ? & ? & ?); [done..|]. exists (Returned v), s'.
       split_and!; [done..|]. by apply Hg. }
  all: assert (length (i :: path) ≤ n)%nat by (apply NoDup_below; by constructor).
  - apply (access_initialises fuel path i s ONew); done || simpl in *; lia.
  - apply (access_initialises fuel path i s OFailed); done || simpl in *; lia.
Qed.

Lemma calls_explained fuel script s :
  cyc_inv [] s → Forall (λ i, (i < n)%nat) script → (n < fuel)%nat →
  ∃ answers s', run (calls thread_id ls fuel script) [] s = (Returned answers, s') ∧
    Forall2 (explains ls) script answers ∧ cyc_inv [] s'.
Proof using Hls.
  intros Hinv Hs Hfuel. revert s Hinv. induction Hs as [|i script Hi Hs IH]; intros s Hinv.
  { exists [], s. split_and!; [done|constructor|done]. }
  destruct (access_always fuel [] i s) as (r & s1 & Hrun & Hinv1 & _ & Hr);
    [done|done|constructor|constructor|intros j Hj; by apply not_elem_of_nil in Hj|simpl; lia|].
  assert (∃ a, run (call thread_id ls fuel i) [] s = (Returned a, s1) ∧ explains ls i a) as (a & Hcall & Ha).
  { unfold call. rewrite run_bind, run_catch, Hrun. destruct r as [v| | | |]; try done.
    - by exists (AValue v).
    - exists (ARaises (c_payload (usr s1))). split; [|done]. simpl. by rewrite upd_usr. }
  destruct (IH s1 Hinv1) as (answers & s2 & Hcalls & Hall & Hinv2).
  exists (a :: answers), s2. split_and!; [|by constructor|done]. cbn [calls]. by rewrite run_bind, Hcall, run_bind, Hcalls.
Qed.
(** At rest a lazy is in the register once, if its initialisation was begun and it is
    to be finalised. *)
Lemma at_rest_times s i :
  cyc_inv [] s → (i < n)%nat →
  (times i s ≤ once i)%nat ∧ (is_Some (c_values (usr s) !! i) → times i s = once i).
Proof using.
  intros [_ Hinv] Hi. specialize (Hinv i Hi). unfold lazy_is in Hinv.
  rewrite decide_False in Hinv by (by apply not_elem_of_nil).
  destruct Hinv as (g & _ & _ & -> & -> & _). destruct g; simpl; split; try lia; by intros [? [=]].
Qed.
End invariant.

(** ** Properties *)

Section props.
Context {BF : Bitflags} {L V I R : Type} {RG : Registers R} {RL : RegisterLaws RG}.
Context {ops : PhaseLocker (cyc_state V I R) L} {SL : SoloLocker ops}.

(** Nothing has been accessed yet. *)
Definition untouched (ls : lazies L V I) (n : nat) (s : state (cyc_state V I R)) : Prop :=
  reg_open (c_exit (usr s)) ∧ head_of (c_exit (usr s)) = None ∧ (∀ m, reg_next (c_exit (usr s)) !! m = None) ∧
  c_log (usr s) = [] ∧ c_finals (usr s) = [] ∧
  ∀ i, (i < n)%nat → rd s (solo_cell (locker ls i)) = empty_flags ∧ rd s (thread_cell ls i) = 0 ∧
    c_values (usr s) !! i = None.

Lemma untouched_inv thread_id ls n s : untouched ls n s → cyc_inv thread_id ls n [] s.
Proof using.
  intros (Ho & Hh & Hn & Hr & Hf & Hs). split.
  { unfold reg_ok. rewrite Hh, Hr, Hf. split_and!; [done..| |constructor|done]. intros m [x Hx]. by rewrite Hn in Hx. }
  intros i Hi. unfold lazy_is. rewrite decide_False by (by apply not_elem_of_nil).
  destruct (Hs i Hi) as (? & ? & ?). exists ONew. unfold times. by rewrite Hr.
Qed.

(** C22: In debug mode a thread never waits for itself. For any number of lazies
    whose generators read each other in any way, finalised or not, and for any sequence
    of accesses to them by one thread which catches their panics, every access comes to an end, as
    soon as the fuel exceeds the number of lazies: it gives the value that the
    generators define, or panics with the name of a lazy whose value depends on
    itself and that the accessed one depends on, or panics because a generator does.
    A lazy that has a value gives it, also after accesses that panicked. No access
    ends with the payload [CyclicPanic] itself. A lazy that is finalised is registered
    at most once, however often its generator is run, and before it has a value. *)
Theorem cyclic_access_detected (thread_id : Z) (ls : lazies L V I) (n fuel : nat) script s :
  well_placed thread_id ls n → untouched ls n s →
  Forall (λ i, (i < n)%nat) script → (n < fuel)%nat →
  ∃ answers s', run (calls thread_id ls fuel script) [] s = (Returned answers, s') ∧
    Forall2 (explains ls) script answers ∧
    (∀ k i v, script !! k = Some i → evaluates ls i v → answers !! k = Some (AValue v)) ∧
    ∀ i, (i < n)%nat →
      (times i s' ≤ once ls i)%nat ∧ (is_Some (c_values (usr s') !! i) → times i s' = once ls i).
Proof using.
  intros Hls Hs Hscript Hfuel.
  destruct (calls_explained thread_id ls n Hls fuel script s) as (answers & s' & Hrun & Hall & Hinv);
    [by apply untouched_inv|done|done|].
  exists answers, s'. split_and!; [done..| |intros i Hi; by eapply at_rest_times]. intros k i v Hk Hv.
  destruct (Forall2_lookup_l _ _ _ _ _ Hall Hk) as (a & -> & Ha). by rewrite (explains_value ls i v a).
Qed.
End props.

(** ** Examples

    Lazies 0 and 1 read each other, 2 reads nothing, 3 reads 2 and 4 reads 3, then 1. *)
Section examples.
#[local] Existing Instances bitflags_1 kernel_1.

Definition demo_deps (i : nat) : list nat :=
  match i with 0 => [1] | 1 => [0] | 3 => [2] | 4 => [3; 1] | _ => [] end%nat.
Definition demo_lazies {L} (locker : nat → L) : lazies L Z nat :=
  Lazies _ _ _ demo_deps (λ i vs, Some (Z.of_nat i + foldr Z.add 5 vs)) locker
    (λ i, Pos.of_succ_nat (i + 20)) Some Nat.odd false.
Definition demo_state : state (cyc_state Z nat exit_state) := State ∅ (CycState ∅ REGISTER_INIT [] [] OtherPanic).
Definition demo_script : list nat := [4; 3; 0; 1; 2]%nat.
Definition demo_answers : list (answer Z nat) :=
  [ARaises (Circular (Some 1%nat)); AValue 15; ARaises (Circular (Some 0%nat)); ARaises (Circular (Some 1%nat)); AValue 7].

Definition demo_spin := demo_lazies (λ i, Pos.of_succ_nat i).
Definition demo_futex := demo_lazies (λ i, FutexC (Pos.of_succ_nat (i + 1)) (Pos.of_succ_nat (i + 40)) (Pos.of_succ_nat (i + 60))).

Example unsync_cycles :
  (run (calls (ops := unsync_locker) 3 demo_spin 6 demo_script) [] demo_state).1 = Returned demo_answers.
Proof. vm_compute. reflexivity. Qed.
Example spin_cycles :
  (run (calls (ops := SpinLocker.spin_locker 2) 3 demo_spin 6 demo_script) [] demo_state).1 = Returned demo_answers.
Proof. vm_compute. reflexivity. Qed.
Example futex_cycles :
  (run (calls (ops := futex_locker (λ _, false) true 1) 3 demo_futex 6 demo_script) [] demo_state).1
    = Returned demo_answers.
Proof. vm_compute. reflexivity. Qed.

(** Of the lazies that are finalised, 1 and 3 were tried, the first one in vain. *)
Example spin_register :
  c_log (usr (run (calls (ops := SpinLocker.spin_locker 2) 3 demo_spin 6 demo_script) [] demo_state).2) = [1; 3]%nat.
Proof. vm_compute. reflexivity. Qed.

(** The tests tests/bad_cyclic_lazy.rs and tests/bad_cyclic_thread_local_lazy.rs: a
    static whose generator reads it. Their hook sees [CyclicPanic], then a panic
    that names the static. *)
Definition bad_cyclic : lazies SpinLocker.SyncPhaseLocker Z nat :=
  Lazies _ _ _ (λ _, [0%nat]) (λ _ vs, head vs) (λ _, 1%positive) (λ _, 2%positive) Some (λ _, false) false.
Example bad_cyclic_lazy :
  (run (calls (ops := SpinLocker.spin_locker 2) 3 bad_cyclic 2 [0%nat]) [] demo_state).1
    = Returned [ARaises (Circular (Some 0%nat))].
Proof. vm_compute. reflexivity. Qed.
Example bad_cyclic_thread_local_lazy :
  (run (calls (ops := unsync_locker) 3 bad_cyclic 2 [0%nat]) [] demo_state).1
    = Returned [ARaises (Circular (Some 0%nat))].
Proof. vm_compute. reflexivity. Qed.

Lemma demo_placed {R} : well_placed (R := R) (SL := spin_solo 0) 3 demo_spin 5.
Proof.
  split_and!; [done| | |].
  - intros i j Hi Hj%list_elem_of_In. do 5 (destruct i as [|i]; [simpl in Hj; lia|]). lia.
  - intros i j Hi Hj Hne; simpl. split; lia.
  - intros i j Hi Hj; simpl. lia.
Qed.
Lemma demo_untouched : untouched (SL := spin_solo 0) demo_spin 5 demo_state.
Proof.
  split_and!; try reflexivity. intros i Hi. split_and!; reflexivity.
Qed.
Lemma demo_below : Forall (λ i, (i < 5)%nat) demo_script.
Proof. unfold demo_script. repeat constructor; lia. Qed.

Lemma cyclic_access_detected_witness :
  ∃ answers s',
    run (calls (ops := SpinLocker.spin_locker 2) 3 demo_spin 6 demo_script) [] demo_state = (Returned answers, s') ∧
    Forall2 (explains demo_spin) demo_script answers ∧
    (∀ k i v, demo_script !! k = Some i → evaluates demo_spin i v → answers !! k = Some (AValue v)) ∧
    ∀ i, (i < 5)%nat →
      (times i s' ≤ once demo_spin i)%nat ∧ (is_Some (c_values (usr s') !! i) → times i s' = once demo_spin i).
Proof.
  apply (cyclic_access_detected (SL := spin_solo 0) 3 demo_spin 5 6 demo_script demo_state); [apply demo_placed|apply demo_untouched|apply demo_below|lia].
Defined.
End examples.

(** ** What is not detected

    An operation that takes the write lock whatever the phase tests for a cycle once
    it has the lock, which its own thread never gets while it holds it: on the locker
    of threads, no amount of spinning ends such a cycle. *)
Section undetected.
Context {BF : Bitflags} {U I : Type} {UW : Unwinding U I} {T Data : Type} `{!Sequential T Data SpinLocker.SyncPhaseLocker}.

Lemma spin_write_waits fuel (l : SpinLocker.SyncPhaseLocker) how wake hint p (s : state U) :
  phase_range p → phase_range hint → rd s l = word p 0 true false false → (∀ q, how q = LNWrite) →
  run (SpinLocker.raw_lock fuel l how wake hint) [] s = (OutOfFuel, s).
Proof.
  intros Hp Hh Hrd Hhow. unfold SpinLocker.raw_lock. rewrite run_bind.
  assert (run (SpinLocker.hinted_lock l how hint) [] s = (Returned (Err (word p 0 true false false)), s)) as ->.
  { unfold SpinLocker.hinted_lock. rewrite Hhow. simpl. rewrite Hrd.
    destruct (Z.eqb_spec (word p 0 true false false) hint) as [Heq|]; [|done].
    rewrite (phase_word hint) in Heq. apply word_inj in Heq as (_ & _ & [=] & _); auto with word. }
  generalize SpinWait.new as sw. induction fuel as [|fuel IH]; intros sw; [done|]. cbn [SpinLocker.raw_lock_slow].
  rewrite Hhow, SpinLocker.is_write_lockable_word by auto with word. simpl. rewrite Hrd. apply IH.
Qed.

Lemma write_cycle_waits fuel (thread_of : T → loc) thread_id (t : T) shall_init init info p (s : state U) :
  phase_range p → rd s (seq_locker (sequentializer t)) = word p 0 true false false →
  (run (ls_init_then_write_guard (ops := SpinLocker.spin_locker fuel)
          (LazySequentializerTrait := debug_sequentializer thread_of thread_id info) t shall_init init) [] s).1
    = OutOfFuel.
Proof.
  intros Hp Hrd. cbn [ls_init_then_write_guard debug_sequentializer].
  unfold may_debug, debug_init_then_write_guard, seq_lock. rewrite run_bind, run_catch, run_bind.
  cbn [pl_lock SpinLocker.spin_locker]. unfold SpinLocker.lock. rewrite run_bind, (spin_write_waits fuel _ _ _ _ p) by auto with phase. done.
Qed.
End undetected.

(** The number of the initialising thread is cleared after the lock is released. Two
    threads read a static whose generator reads it: the first one panics and releases
    the lock, the second one takes it and leaves its number, which the first one then
    clears; the second one finds no cycle and waits for the lock that it holds. *)
Section erased.
#[local] Existing Instances bitflags_1.

Definition reader (thread_id : Z) : prog (cyc_state Z nat exit_state) unit :=
  _ ← calls (ops := SpinLocker.spin_locker 6) thread_id bad_cyclic 4 [0%nat]; Ret tt.

Definition waits_forever (ps : list (prog (cyc_state Z nat exit_state) unit)) (s : state (cyc_state Z nat exit_state)) : bool :=
  match ps with
  | [Ret tt; Diverge] => negb (Z.land (rd s 1%positive) LOCKED_BIT =? 0) && (rd s 2%positive =? 0)
  | _ => false
  end.

Lemma number_erased :
  ∃ ps s, reachable [reader 3; reader 5] demo_state ps s ∧ waits_forever ps s = true.
Proof.
  apply (exec_reaches (replicate 10 0 ++ replicate 4 1 ++ replicate 3 0 ++ replicate 8 1)%nat).
  vm_compute. reflexivity.
Qed.
End erased.
