(* ===== verification/ProgramLife.v ===== *)
(** * Many lazies, from their first access to the exit

    The lazies of [Cyclic], whose generators read each other, in a program of one
    thread that exits, or in a thread that ends: the objects that the accesses have
    registered are finalised by the loop over the register
    (src/exit_sequentializer.rs), the one of the program or the one of a thread. *)

From stdpp Require Import base list option numbers gmap relations.
From S2P Require Import Prelude Word Phase Atomics Locker Sequentializer Policy Traits GenericLazy LazyTypes OwnedLazies ExitSequentializer ExitWorld SpinLocker Futex FutexLocker UnSync ThreadExit DebugMode SoloLocker Cyclic.
Open Scope Z_scope.

Section program.
Context {BF : Bitflags} {L V I R : Type} {RG : Registers R} {ops : PhaseLocker (cyc_state V I R) L}.
Context (thread_id : Z) (ls : lazies L V I).
Abbreviation program := (prog (cyc_state V I R)).

(** The finaliser of a lazy reads its value, which the history keeps. *)
Definition finaly (i : nat) : program unit :=
  v ← do_op (Usr (λ u, (c_values u !! i,
    match c_values u !! i with
    | Some v => CycState (c_values u) (c_exit u) (c_log u) ((i, v) :: c_finals u) (c_payload u)
    | None => u
    end)));
  match v with
  | Some _ => Ret tt
  | None => Undef
  end.

Definition lazy_at (m : node) : nat := pred (Pos.to_nat m).
Definition seq_of (i : nat) : GenericLazySeq (L:=L) (X:=nat) := gz_seq (cyc_lazy thread_id ls Diverge i).
Definition execute_node (m : node) : program unit :=
  execute ops _ _ fn_tolerance finaly (seq_of (lazy_at m)).

(** Accesses, with the panics that their caller catches, and the end. *)
Definition life (the_end : program unit) (fuel : nat) (script : list nat) : program (list (answer V I)) :=
  answers ← calls thread_id ls fuel script;
  the_end;;
  Ret answers.

(** What finalises a list of lazies, in its order: those that have a value. *)
Definition finalisations (u : cyc_state V I R) (xs : list nat) : list (nat * V) :=
  omap (λ i, (λ v, (i, v)) <$> c_values u !! i) xs.

(** The lazies that are to be finalised and have a value were finalised, each once,
    with the value that the generators define for it, and no others were; the last
    one that was registered came first. *)
Definition finalised_once (n : nat) (u : cyc_state V I R) : Prop :=
  NoDup (c_finals u).*1 ∧
  (∀ i v, (i < n)%nat → (i, v) ∈ c_finals u ↔ finalised ls i = true ∧ c_values u !! i = Some v) ∧
  (∀ i v, (i, v) ∈ c_finals u → (i < n)%nat ∧ evaluates ls i v) ∧
  rev (c_finals u) = finalisations u (c_log u).
End program.

(** The exit of a program, and the end of a thread. *)
Section ends.
Context {BF : Bitflags} {L V I : Type} (thread_id : Z) (ls : lazies L V I) (fuel : nat).

Definition program_life {ops : PhaseLocker (cyc_state V I exit_state) L} (script : list nat) :=
  life thread_id ls (exit_program (execute_node thread_id ls) fuel) fuel script.

Definition thread_life {ops : PhaseLocker (cyc_state V I thread_state) L} (y : system) (script : list nat) :=
  life (RG := register_of y) thread_id ls
    (match y with
     | Cxa => cxa_destroy (execute_node (RG := register_of y) thread_id ls) fuel
     | Windows => windows_destroy (execute_node (RG := register_of y) thread_id ls) fuel
     end) fuel script.
End ends.

Lemma lazy_at_node i : lazy_at (node_of i) = i.
Proof. unfold lazy_at, node_of. lia. Qed.

Section exit.
Context {BF : Bitflags} {L V I R : Type} {RG : Registers R} {RL : RegisterLaws RG}.
Context {ops : PhaseLocker (cyc_state V I R) L} {SL : SoloLocker ops}.
Context {take : R → option node * R} {take_next : node → R → option node * R} {or_else : R → option node * R}.
Context {closed : R → Prop} (LL : loop_laws RL take take_next or_else closed).
Context (thread_id : Z) (ls : lazies L V I) (n : nat) (Hls : well_placed thread_id ls n).
Implicit Types (s : state (cyc_state V I R)) (xs : list nat).

(** A lazy that waits on the register: its initialisation was begun. *)
Definition waiting i s : Prop := (i < n)%nat ∧ ∃ g : owned_stage V, g ≠ ONew ∧
  rd s (solo_cell (locker ls i)) = rest_phase ls i g ∧ c_values (usr s) !! i = stored g.

(** What the finalisation of one lazy changes. *)
Definition finalised_one i s s' : Prop :=
  (∀ j, (j < n)%nat → j ≠ i → rd s' (solo_cell (locker ls j)) = rd s (solo_cell (locker ls j))) ∧
  c_values (usr s') = c_values (usr s) ∧ c_exit (usr s') = c_exit (usr s) ∧ c_log (usr s') = c_log (usr s) ∧
  c_finals (usr s') = finalisations (usr s) [i] ++ c_finals (usr s).

Lemma run_finaly i s v :
  c_values (usr s) !! i = Some v →
  run (finaly i) [] s = (Returned tt,
    upd s (CycState (c_values (usr s)) (c_exit (usr s)) (c_log (usr s)) ((i, v) :: c_finals (usr s)) (c_payload (usr s)))).
Proof using. intros Hv. unfold finaly. simpl. by rewrite Hv. Qed.

Lemma run_execute i s :
  waiting i s → ∃ s', run (execute_node thread_id ls (node_of i)) [] s = (Returned tt, s') ∧ finalised_one i s s'.
Proof using Hls.
  intros (Hi & g & Hg & Hrd & Hv). pose proof (rest_phase_range ls i g) as Hp.
  pose proof Hls as (_ & _ & Hd & _).
  unfold execute_node, execute, sub. rewrite lazy_at_node.
  cbn [fs_finalize_callback finalizable_sequentializer]. unfold finalize_callback.
  change (seq_locker _) with (locker ls i). change (data _) with i. rewrite run_bind.
  set (how := λ p, if intersects p INITIALIZED then LNWrite else LNNone).
  assert (how (rest_phase ls i g) = match g with OHas _ => LNWrite | _ => LNNone end) as Hhow.
  { unfold how. rewrite rest_initialized. by destruct g. }
  assert (∀ j s1 w, (j < n)%nat → j ≠ i → sets (solo_cell (locker ls i)) w s s1 →
    rd s1 (solo_cell (locker ls j)) = rd s (solo_cell (locker ls j))) as Hframe.
  { intros j s1 w Hj Hne (_ & _ & Hf). apply Hf. by apply Hd. }
  destruct g as [| |v]; [done|..].
  - destruct (solo_none (locker ls i) i how how (INITIALIZED .| REGISTERED) (rest_phase ls i OFailed) false s)
      as (s1 & Hrun & Hs1); [done|auto with phase|by rewrite <- phase_word|done|].
    rewrite Hrun. exists s1. split; [done|]. pose proof Hs1 as (Hu & _). unfold finalised_one, finalisations.
    rewrite Hu. simpl. rewrite Hv. simpl. split_and!; [|done..]. intros j Hj Hne. by eapply Hframe.
  - destruct (solo_lock (locker ls i) i how how (INITIALIZED .| REGISTERED) (rest_phase ls i (OHas v)) s)
      as (s1 & wg & Hrun & Hs1 & Hwg); [done|auto with phase|done..|].
    rewrite Hrun. pose proof Hs1 as (Hu & Hcell & _).
    assert (run (finaly i) [] s1 = (Returned tt, upd s1 (CycState (c_values (usr s)) (c_exit (usr s)) (c_log (usr s))
      ((i, v) :: c_finals (usr s)) (c_payload (usr s))))) as Hfin.
    { rewrite <- Hu. apply run_finaly. by rewrite Hu. }
    destruct (solo_guard_is _ _ _ _ _ Hwg) as [_ Hph].
    set (s2 := upd s1 _) in Hfin.
    pose proof (run_transition _ wg i _ _ finaly (rest_phase ls i (OHas v) .| FINALIZED)
      (rest_phase ls i (OHas v) .| FINALIZATION_PANICKED) s1 _ s2 Hwg Hp ltac:(auto with phase) Hfin)
      as (wg' & Hwg' & Htr); [by unfold s2; rewrite rd_upd|].
    unfold lazy_finalization. rewrite Hph, run_bind, Htr. cbn [fst].
    destruct (solo_drop _ wg' i _ _ s2 Hwg' Hp) as (s3 & Hdrop & Hs3);
      [auto with phase|by unfold s2; rewrite rd_upd|].
    exists s3. split; [done|]. pose proof Hs3 as (Hu3 & _ & Hf3). unfold finalised_one, finalisations.
    rewrite Hu3. simpl. rewrite Hv. simpl. split_and!; [|done..].
    intros j Hj Hne. rewrite Hf3 by (by apply Hd). unfold s2. rewrite rd_upd. by eapply Hframe.
Qed.
(** The loop takes the lazies of a list in its order and then closes the register. *)
Lemma waiting_frame i j s s' :
  (∀ j, (j < n)%nat → j ≠ i → rd s' (solo_cell (locker ls j)) = rd s (solo_cell (locker ls j))) →
  c_values (usr s') = c_values (usr s) → j ≠ i → waiting j s → waiting j s'.
Proof using.
  intros Hcells Hv Hne (Hj & g & Hg & Hrd & Hgv). split; [done|]. exists g.
  by rewrite Hcells, Hv by done.
Qed.

Lemma finalisations_values (u u' : cyc_state V I R) xs : c_values u = c_values u' → finalisations u xs = finalisations u' xs.
Proof using. intros Hv. unfold finalisations. by rewrite Hv. Qed.

Lemma finalisations_cons (u : cyc_state V I R) i xs : finalisations u (i :: xs) = finalisations u [i] ++ finalisations u xs.
Proof using. unfold finalisations. simpl. by destruct (c_values u !! i). Qed.

Lemma finalisations_rev_one (u : cyc_state V I R) i : rev (finalisations u [i]) = finalisations u [i].
Proof using. unfold finalisations. simpl. by destruct (c_values u !! i). Qed.

Lemma run_exit_loop fuel xs h s :
  (length xs ≤ fuel)%nat → chain (reg_next (c_exit (usr s))) h (node_of <$> xs) →
  head_of (c_exit (usr s)) = None → NoDup xs → Forall (λ i, waiting i s) xs →
  ∃ s', run (exit_loop (execute_node thread_id ls) take_next or_else fuel h) [] s = (Returned tt, s') ∧
    c_values (usr s') = c_values (usr s) ∧ c_log (usr s') = c_log (usr s) ∧
    c_finals (usr s') = rev (finalisations (usr s) xs) ++ c_finals (usr s) ∧
    (xs ≠ [] → closed (c_exit (usr s'))).
Proof using Hls LL.
  revert fuel h s. induction xs as [|i xs IH]; intros fuel h s Hfuel Hc Hf Hnd Hw.
  { simpl in Hc. subst h. exists s. by destruct fuel. }
  destruct fuel as [|fuel]; simpl in Hfuel; [lia|]. rewrite fmap_cons in Hc. destruct Hc as [-> Hc].
  apply NoDup_cons in Hnd as [Hi Hnd]. apply Forall_cons in Hw as [Hwi Hw].
  destruct (run_execute i s Hwi) as (s1 & Hrun & Hone). pose proof Hone as (_ & Hv1 & He1 & Hl1 & Hf1).
  assert (node_of i ∉ node_of <$> xs) as Hni.
  { intros (j & Hj & Hin)%list_elem_of_fmap. by apply (inj Pos.of_succ_nat) in Hj as ->. }
  cbn [exit_loop]. rewrite run_bind, Hrun. unfold on_register. rewrite run_do_returned by done. cbn [op_run].
  change (reg_get (usr s1)) with (c_exit (usr s1)). rewrite He1.
  destruct (ll_next _ _ _ _ _ LL (node_of i) (c_exit (usr s))) as (Ho & Hh & Hnx).
  destruct (take_next (node_of i) (c_exit (usr s))) as [o e2]. cbn [fst snd] in Ho, Hh, Hnx. subst o. rewrite Hf in Hh.
  assert (chain (reg_next e2) (reg_next (c_exit (usr s)) !! node_of i) (node_of <$> xs)) as Hc2.
  { rewrite Hnx. by apply chain_set_next. }
  destruct (reg_next (c_exit (usr s)) !! node_of i) as [m|] eqn:Em.
  - destruct (IH fuel (Some m) (upd s1 (reg_set e2 (usr s1)))) as (s' & Hs' & Hv' & Hl' & Hf' & Ho');
      [lia|done|by rewrite usr_upd|done| |].
    { rewrite Forall_forall in Hw |- *. intros j Hj.
      apply (waiting_frame i j s); [|exact Hv1|by intros ->|by apply Hw].
      destruct Hone as (Hcells & _). intros k Hk Hne. rewrite rd_upd. by apply Hcells. }
    exists s'. split; [exact Hs'|]. rewrite usr_upd in Hv', Hl', Hf'. simpl in Hv', Hl', Hf'.
    rewrite Hv', Hl', Hf', Hv1, Hl1, Hf1, (finalisations_cons (usr s) i xs), rev_app_distr, finalisations_rev_one, <- (assoc_L (++)).
    split_and!; [done..| |].
    + do 2 f_equal.
    + intros _. apply Ho'. by intros ->.
  - destruct xs as [|j xs]; [|by destruct Hc2]. rewrite run_do_returned by done. cbn [op_run]. rewrite usr_upd.
    change (reg_get (reg_set e2 (usr s1))) with e2.
    destruct (ll_or_else _ _ _ _ _ LL e2 Hh) as [Ho Hcl]. destruct (or_else e2) as [o e3]. simpl in Ho, Hcl. subst o.
    eexists. split; [by destruct fuel|]. rewrite !usr_upd. simpl. rewrite Hv1, Hl1, Hf1.
    split_and!; try done. unfold finalisations. simpl. by destruct (c_values (usr s) !! i).
Qed.

(** The list is taken off the register, and then its objects. *)
Lemma run_take_loop fuel s :
  (length (c_log (usr s)) ≤ fuel)%nat →
  chain (reg_next (c_exit (usr s))) (head_of (c_exit (usr s))) (node_of <$> c_log (usr s)) →
  NoDup (c_log (usr s)) → Forall (λ i, waiting i s) (c_log (usr s)) → c_finals (usr s) = [] →
  ∃ s', run (list ← on_register take; exit_loop (execute_node thread_id ls) take_next or_else fuel list) [] s = (Returned tt, s') ∧
    c_values (usr s') = c_values (usr s) ∧ c_log (usr s') = c_log (usr s) ∧
    c_finals (usr s') = rev (finalisations (usr s) (c_log (usr s))) ∧
    (c_log (usr s) ≠ [] → closed (c_exit (usr s'))).
Proof using Hls LL.
  intros Hfuel Hc Hnd Hw Hf. unfold on_register. rewrite run_do_returned by done. cbn [op_run].
  change (reg_get (usr s)) with (c_exit (usr s)).
  destruct (ll_take _ _ _ _ _ LL (c_exit (usr s))) as (Ht & Hh & Hn).
  destruct (take (c_exit (usr s))) as [o e1]. cbn [fst snd] in *. subst o.
  destruct (run_exit_loop fuel (c_log (usr s)) (head_of (c_exit (usr s))) (upd s (reg_set e1 (usr s))))
    as (s' & Hrun & Hv & Hl & Hfin & Ho); [done|by rewrite usr_upd; simpl; rewrite Hn|by rewrite usr_upd|done| |].
  { eapply Forall_impl; [exact Hw|]. intros i Hi. by apply (waiting_frame (S i) i s); [|by rewrite usr_upd|lia|]. }
  exists s'. split; [exact Hrun|]. rewrite usr_upd in Hv, Hl, Hfin. simpl in Hv, Hl, Hfin.
  rewrite Hf, app_nil_r in Hfin. by split_and!.
Qed.
End exit.

(** ** What the accesses leave on the register *)

Section register.
Context {BF : Bitflags} {L V I R : Type} {RG : Registers R} {RL : RegisterLaws RG}.
Context {ops : PhaseLocker (cyc_state V I R) L} {SL : SoloLocker ops}.
Context (thread_id : Z) (ls : lazies L V I) (n : nat).

(** What the accesses leave on the register. *)
Lemma log_waits s :
  cyc_inv thread_id ls n [] s →
  NoDup (c_log (usr s)) ∧ Forall (λ i, finalised ls i = true) (c_log (usr s)) ∧
  Forall (λ i, waiting ls n i s) (c_log (usr s)).
Proof using.
  intros Hinv. pose proof Hinv as ((_ & _ & _ & Hlog & _) & Hl). rewrite Forall_forall in Hlog.
  assert (∀ i, i ∈ c_log (usr s) → (times i s = once ls i)%nat ∧ finalised ls i = true) as Honce.
  { intros i Hi. destruct (at_rest_times thread_id ls n s i Hinv (Hlog i Hi)) as [Hle _]. unfold times, once in *.
    apply list_elem_of_In, (List.count_occ_In Nat.eq_dec) in Hi. destruct (finalised ls i); lia. }
  split_and!.
  - apply NoDup_ListNoDup, (List.NoDup_count_occ Nat.eq_dec). intros i.
    destruct (decide (i ∈ c_log (usr s))) as [Hi|Hi].
    + destruct (Honce i Hi) as [Ht Hf]. unfold times, once in Ht. rewrite Hf in Ht. lia.
    + rewrite list_elem_of_In in Hi. apply (List.count_occ_not_In Nat.eq_dec) in Hi. lia.
  - apply Forall_forall. intros i Hi. by apply Honce.
  - apply Forall_forall. intros i Hi. split; [by apply Hlog|].
    specialize (Hl i (Hlog i Hi)). unfold lazy_is in Hl. rewrite decide_False in Hl by (by apply not_elem_of_nil).
    destruct Hl as (g & Hrd & _ & Hv & Ht & _). exists g. split_and!; [|done..]. intros ->.
    by apply (times_none i s Ht).
Qed.

Lemma value_settled s i v :
  cyc_inv thread_id ls n [] s → (i < n)%nat → c_values (usr s) !! i = Some v →
  evaluates ls i v ∧ (finalised ls i = true → i ∈ c_log (usr s)).
Proof using.
  intros Hinv Hi Hv. split.
  - destruct Hinv as [_ Hl]. specialize (Hl i Hi). unfold lazy_is in Hl.
    rewrite decide_False in Hl by (by apply not_elem_of_nil).
    destruct Hl as (g & _ & _ & Hg & _ & He). rewrite Hv in Hg. destruct g; try done. injection Hg as ->. by apply He.
  - intros Hf. destruct (at_rest_times thread_id ls n s i Hinv Hi) as [_ Ht].
    rewrite Hv in Ht. specialize (Ht ltac:(done)). unfold times, once in Ht. rewrite Hf in Ht.
    apply list_elem_of_In, (List.count_occ_In Nat.eq_dec). lia.
Qed.

Lemma finalisations_spec (u : cyc_state V I R) xs i v :
  (i, v) ∈ finalisations u xs ↔ i ∈ xs ∧ c_values u !! i = Some v.
Proof using.
  unfold finalisations. rewrite list_elem_of_omap. split.
  - intros (j & Hj & Hv). destruct (c_values u !! j) eqn:E; simplify_eq/=. done.
  - intros [Hi Hv]. exists i. by rewrite Hv.
Qed.

Lemma finalisations_NoDup (u : cyc_state V I R) xs : NoDup xs → NoDup (finalisations u xs).*1.
Proof using.
  induction 1 as [|i xs Hi _ IH]; [constructor|]. unfold finalisations. simpl.
  destruct (c_values u !! i); [|done]. change (NoDup (i :: (finalisations u xs).*1)). constructor; [|done].
  intros ([j w] & Hj & Hin)%list_elem_of_fmap. simpl in Hj. subst j.
  by apply finalisations_spec in Hin as [? _].
Qed.

Lemma finalised_once_intro s (u : cyc_state V I R) :
  cyc_inv thread_id ls n [] s → c_values u = c_values (usr s) → c_log u = c_log (usr s) →
  c_finals u = rev (finalisations (usr s) (c_log (usr s))) → finalised_once ls n u.
Proof using.
  intros Hinv Hv' Hl' Hf'. destruct (log_waits s Hinv) as (Hnd & Hfin & Hw).
  pose proof Hinv as ((Ho & Hc & _ & Hlog & Hf0) & _). rewrite Forall_forall in Hfin, Hlog.
  assert (∀ i v, (i, v) ∈ c_finals u ↔ i ∈ c_log (usr s) ∧ c_values (usr s) !! i = Some v) as Hspec.
  { intros i v. rewrite Hf', <- finalisations_spec, !list_elem_of_In. symmetry. apply List.in_rev. }
  split_and!.
  - rewrite Hf', <- Permutation_rev. by apply finalisations_NoDup.
  - intros i v Hi. rewrite Hspec, Hv'. split.
    + intros [Hin Hv]. split; [|done]. by apply Hfin.
    + intros [Hf Hv]. split; [|done]. by apply (value_settled s i v).
  - intros i v [Hin Hv]%Hspec. split; [by apply Hlog|]. apply (value_settled s i v Hinv); [by apply Hlog|done].
  - rewrite Hf', rev_involutive, Hl'. by apply finalisations_values.
Qed.

(** The accesses of a script, and a loop over what they have registered; [before]
    and [after] are what surrounds the loop. *)
Context {take : R → option node * R} {take_next : node → R → option node * R} {or_else : R → option node * R}.
Context {closed : R → Prop} (LL : loop_laws RL take take_next or_else closed).

Definition surrounded (before after : R → R) (m : prog (cyc_state V I R) unit) : prog (cyc_state V I R) unit :=
  on_register (λ r, (tt, before r));; m;; on_register (λ r, (tt, after r)).

Lemma run_on_register {T} (f : R → T * R) (s : state (cyc_state V I R)) :
  run (on_register f) [] s = (Returned (f (c_exit (usr s))).1, upd s (reg_set (f (c_exit (usr s))).2 (usr s))).
Proof using. unfold on_register. simpl. by destruct (f (c_exit (usr s))). Qed.

Lemma run_assoc {A B C} (m : prog (cyc_state V I R) A) (k : A → prog (cyc_state V I R) B) (k' : B → prog (cyc_state V I R) C) s :
  run ((m ≫= k) ≫= k') [] s = run (m ≫= λ x, k x ≫= k') [] s.
Proof using. rewrite !run_bind. destruct (run m [] s) as [[a| | | |] s']; try done. by rewrite run_bind. Qed.

Lemma run_register_id (k : prog (cyc_state V I R) unit) s :
  run (on_register (λ r, (tt, id r));; k) [] s = run k [] s.
Proof using. rewrite run_bind, run_on_register. cbn [fst snd]. by destruct s as [? []]. Qed.

Lemma surrounded_id m s : run (surrounded id id m) [] s = run m [] s.
Proof using.
  unfold surrounded. rewrite run_register_id, run_bind.
  destruct (run m [] s) as [[[]| | | |] s']; try done. rewrite run_on_register. by destruct s' as [? []].
Qed.

Lemma life_finalises (before after : R → R) the_end fuel script s :
  (∀ s, run the_end [] s = run (surrounded before after
        (list ← on_register take; exit_loop (execute_node thread_id ls) take_next or_else fuel list)) [] s) →
  (∀ r, head_of (before r) = head_of r ∧ reg_next (before r) = reg_next r) →
  well_placed thread_id ls n → untouched ls n s →
  Forall (λ i, (i < n)%nat) script → (n < fuel)%nat →
  ∃ answers s' r, run (life thread_id ls the_end fuel script) [] s = (Returned answers, s') ∧
    Forall2 (explains ls) script answers ∧ finalised_once ls n (usr s') ∧ c_exit (usr s') = after r ∧
    (c_log (usr s') ≠ [] → closed r).
Proof using LL.
  intros Hend Hb Hls Hs Hscript Hfuel.
  destruct (calls_explained thread_id ls n Hls fuel script s) as (answers & s1 & Hrun & Hall & Hinv);
    [by apply untouched_inv|done|done|].
  destruct (log_waits s1 Hinv) as (Hnd & _ & Hw). pose proof Hinv as ((Ho & Hc & _ & Hlog & Hf0) & _).
  destruct (Hb (c_exit (usr s1))) as [Hbh Hbn].
  set (r1 := before (c_exit (usr s1))) in *. set (sb := upd s1 (reg_set r1 (usr s1))).
  assert (usr sb = reg_set r1 (usr s1)) as Hu by apply usr_upd.
  destruct (run_take_loop LL thread_id ls n Hls fuel sb) as (s2 & Hrun2 & Hv2 & Hl2 & Hf2 & Ho2).
  { rewrite Hu. simpl. pose proof (NoDup_below n _ Hnd Hlog). lia. }
  { rewrite Hu. simpl. by rewrite Hbh, Hbn. }
  { by rewrite Hu. }
  { rewrite Hu. eapply Forall_impl; [exact Hw|]. intros i Hi.
    apply (waiting_frame ls n n i s1); [done|by rewrite Hu|destruct Hi; lia|done]. }
  { by rewrite Hu. }
  rewrite Hu in Hv2, Hl2, Hf2, Ho2. simpl in Hv2, Hl2, Hf2, Ho2.
  exists answers, (upd s2 (reg_set (after (c_exit (usr s2))) (usr s2))), (c_exit (usr s2)). split_and!.
  - unfold life. rewrite run_bind, Hrun, run_bind, Hend. unfold surrounded.
    rewrite run_bind, run_on_register. cbn [fst snd]. fold r1. fold sb.
    rewrite run_bind, Hrun2, run_on_register.
    done.
  - done.
  - rewrite usr_upd. by apply (finalised_once_intro s1).
  - by rewrite usr_upd.
  - rewrite usr_upd. simpl. by rewrite Hl2.
Qed.
End register.

(** ** Properties *)

Section props.
Context {BF : Bitflags} {L V I : Type} (thread_id : Z) (ls : lazies L V I) (n fuel : nat).

(** C10: A program of one thread, with any number of lazies whose generators read each
    other, some of them finalised, ends as it should whatever it accesses: each access
    is explained as in debug mode, and the exit finalises every lazy that is to be
    finalised and has a value, once, with the value that the generators define for
    it; it finalises no other. The order is the one of the register, the last
    registration first, and the register ends closed if anything was on it. *)
Theorem program_finalises_all {ops : PhaseLocker (cyc_state V I exit_state) L} {SL : SoloLocker ops} script s :
  well_placed thread_id ls n → untouched ls n s → Forall (λ i, (i < n)%nat) script → (n < fuel)%nat →
  ∃ answers s', run (program_life thread_id ls fuel script) [] s = (Returned answers, s') ∧
    Forall2 (explains ls) script answers ∧ finalised_once ls n (usr s') ∧
    (c_log (usr s') ≠ [] → registration_opened (register (c_exit (usr s'))) = false).
Proof using.
  intros Hls Hs Hscript Hfuel.
  destruct (life_finalises thread_id ls n program_loop id id (exit_program (execute_node thread_id ls) fuel) fuel script s)
    as (answers & s' & r & Hrun & Hall & Honce & Hr & Hcl); [intros; by rewrite surrounded_id|done..|].
  exists answers, s'. split_and!; [done..|by rewrite Hr].
Qed.

(** C13: The end of a thread finalises its lazies in the same way, with the register of
    the C++ runtime and with that of Windows: each lazy that is to be finalised and
    has a value once, and no other. It leaves the register empty, and the thread
    accepts objects again in the first case and refuses them in the second. *)
Theorem thread_finalises_all (y : system) {ops : PhaseLocker (cyc_state V I thread_state) L} {SL : SoloLocker ops}
    script s :
  well_placed thread_id ls n →
  match y with
  | Cxa => untouched (RL := cxa_laws) ls n s
  | Windows => untouched (RL := windows_laws) ls n s
  end →
  Forall (λ i, (i < n)%nat) script → (n < fuel)%nat →
  ∃ answers s', run (thread_life thread_id ls fuel y script) [] s = (Returned answers, s') ∧
    Forall2 (explains ls) script answers ∧ finalised_once ls n (usr s') ∧
    (c_log (usr s') ≠ [] → REGISTER (c_exit (usr s')) = None) ∧
    match y with Cxa => DESTROYING (c_exit (usr s')) = false | Windows => DONE (c_exit (usr s')) = true end.
Proof using.
  intros Hls Hs Hscript Hfuel. destruct y.
  - destruct (life_finalises thread_id ls n cxa_loop (cxa.set_destroying true) (cxa.set_destroying false)
      (cxa_destroy (execute_node (RG := cxa_register true) thread_id ls) fuel) fuel script s)
      as (answers & s' & r & Hrun & Hall & Honce & Hr & Hcl); try done.
    exists answers, s'. split_and!; [done..|by rewrite Hr|by rewrite Hr].
  - destruct (life_finalises thread_id ls n windows_loop id
      (λ r, ThreadState (REGISTER r) (t_next r) true (DESTROYING r) (ITERATION_COUNT r) (specific r) (callbacks r))
      (windows_destroy (execute_node (RG := windows_register) thread_id ls) fuel) fuel script s)
      as (answers & s' & r & Hrun & Hall & Honce & Hr & Hcl); try done.
    exists answers, s'. split_and!; [done..|by rewrite Hr|by rewrite Hr].
Qed.
End props.

(** ** Examples *)

Section examples.
#[local] Existing Instances bitflags_1 kernel_1.

(** Of the lazies of [demo_script], 1 and 3 are to be finalised; 1 has no value. *)
Example demo_life :
  let '(r, s) := run (program_life (ops := SpinLocker.spin_locker 2) 3 demo_spin 6 demo_script) [] demo_state in
  (r, c_finals (usr s), registration_opened (register (c_exit (usr s)))) = (Returned demo_answers, [(3%nat, 15)], false).
Proof. vm_compute. reflexivity. Qed.
Example demo_life_futex :
  let '(r, s) := run (program_life (ops := futex_locker (λ _, false) true 1) 3 demo_futex 6 demo_script) [] demo_state in
  (r, c_finals (usr s), registration_opened (register (c_exit (usr s)))) = (Returned demo_answers, [(3%nat, 15)], false).
Proof. vm_compute. reflexivity. Qed.

(** An object is registered before its generator runs: what the generator reads for
    the first time is registered later, and finalised before the object. *)
Definition all_finalised : lazies SpinLocker.SyncPhaseLocker Z nat :=
  Lazies _ _ _ demo_deps (λ i vs, Some (Z.of_nat i + foldr Z.add 5 vs)) (λ i, Pos.of_succ_nat i)
    (λ i, Pos.of_succ_nat (i + 20)) Some (λ _, true) false.
Definition finalised_in_order (script : list nat) : list nat :=
  (rev (c_finals (usr (run (program_life (ops := SpinLocker.spin_locker 2) 3 all_finalised 6 script) [] demo_state).2))).*1.
Example dependencies_first : finalised_in_order [3]%nat = [2; 3]%nat.
Proof. vm_compute. reflexivity. Qed.
Example unless_read_before : finalised_in_order [2; 3]%nat = [3; 2]%nat.
Proof. vm_compute. reflexivity. Qed.

(** The same lazies, in the thread that ends. *)
Definition demo_thread : state (cyc_state Z nat thread_state) := State ∅ (CycState ∅ THREAD_INIT [] [] OtherPanic).
Example demo_thread_life :
  (λ y, let '(r, s) := run (thread_life (ops := unsync_locker) 3 demo_spin 6 y demo_script) [] demo_thread in
        (r, c_finals (usr s), c_log (usr s), DONE (c_exit (usr s)))) <$> [Cxa; Windows]
    = (λ b, (Returned demo_answers, [(3%nat, 15)], [1; 3]%nat, b)) <$> [false; true].
Proof. vm_compute. reflexivity. Qed.

Lemma program_finalises_all_witness :
  ∃ answers s',
    run (program_life (ops := SpinLocker.spin_locker 2) 3 demo_spin 6 demo_script) [] demo_state = (Returned answers, s') ∧
    Forall2 (explains demo_spin) demo_script answers ∧ finalised_once demo_spin 5 (usr s') ∧
    (c_log (usr s') ≠ [] → registration_opened (register (c_exit (usr s'))) = false).
Proof.
  apply (program_finalises_all (SL := spin_solo 0) 3 demo_spin 5 6 demo_script demo_state); [apply demo_placed|apply demo_untouched|apply demo_below|lia].
Defined.

Lemma demo_thread_placed {R} : well_placed (R := R) (SL := unsync_solo) 3 demo_spin 5.
Proof. exact (demo_placed (R := R)). Qed.
Lemma demo_thread_untouched : untouched (RL := windows_laws) (SL := unsync_solo) demo_spin 5 demo_thread.
Proof. split_and!; try reflexivity. intros i Hi. split_and!; reflexivity. Qed.
Lemma thread_finalises_all_witness :
  ∃ answers s',
    run (thread_life (ops := unsync_locker) 3 demo_spin 6 Windows demo_script) [] demo_thread = (Returned answers, s') ∧
    Forall2 (explains demo_spin) demo_script answers ∧ finalised_once demo_spin 5 (usr s') ∧
    (c_log (usr s') ≠ [] → REGISTER (c_exit (usr s')) = None) ∧ DONE (c_exit (usr s')) = true.
Proof.
  apply (thread_finalises_all (SL := unsync_solo) 3 demo_spin 5 6 Windows demo_script demo_thread); [apply demo_thread_placed|apply demo_thread_untouched|apply demo_below|lia].
Defined.
End examples.
