(* ===== verification/RawStatic.v ===== *)
(** * Raw statics (src/raw_static.rs)

    The statics that are initialised before [main] and dropped after it, at the
    places their priorities give them. The file has two implementations of them:
    in the mode [debug_mode] every access checks the static's status and the
    priority that is being run; otherwise a static is its memory. The code that
    the attribute [dynamic] generates uses either, through [RawStatics]. *)

From stdpp Require Import base list option numbers gmap.
From S2P Require Import Prelude Word.
Open Scope Z_scope.

(** [InitMode], [FinalyMode] and [StaticInfo] (src/lib.rs). *)
Inductive InitMode := ModeConst | ModeLazy | ModeLesserLazy | ProgramConstructor (priority : Z).
Inductive FinalyMode := FinalyNone | FinalyDrop | FinalyFinalize | ProgramDestructor (priority : Z).
Record StaticInfo := { init_mode : InitMode; drop_mode : FinalyMode }.

Definition i32_MIN : Z := - 2 ^ 31.

(** The message a refused access panics with. *)
Inductive access_panic :=
| BeforeInit | AfterDrop | NotSequencedBeforeDrop | UnexpectedDropOrder
| NotSequencedAfterInit | UnexpectedInitOrder.

(** ** Debug mode *)

Section debug.
Context {V : Type}.

(** A static, [AtomicI32] included; its address is its place in the program's
    list of statics. *)
Record Static := StaticC { value : option V; info : StaticInfo; status : Z }.

(** The statics of the program and the two priorities that are being run. *)
Record program := Program {
  statics : gmap nat Static;
  CUR_INIT_PRIO : Z;
  CUR_DROP_PRIO : Z;
}.

Definition __set_init_prio (v : Z) (s : program) : program :=
  Program (statics s) v (CUR_DROP_PRIO s).
Definition set_drop_prio (v : Z) (s : program) : program :=
  Program (statics s) (CUR_INIT_PRIO s) v.

Definition uninit (i : StaticInfo) : Static := StaticC None i 0.
Definition from (v : V) (i : StaticInfo) : Static := StaticC (Some v) i 1.

Definition update (n : nat) (f : Static → Static) (s : program) : program :=
  Program (alter f n (statics s)) (CUR_INIT_PRIO s) (CUR_DROP_PRIO s).

Definition set_to (n : nat) (v : V) (s : program) : program :=
  update n (λ this, StaticC (Some v) (info this) 1) s.

(** Dropping a static, with what the destructor of its value does. *)
Definition drop (drop_value : V → program → outcome program) (n : nat) (s : program) : outcome program :=
  match statics s !! n with
  | Some (StaticC (Some v) i _) =>
      let erase s := update n (λ this, StaticC None (info this) (status this)) s in
      s ← match drop_mode i with
          | ProgramDestructor prio =>
              s ← drop_value v (erase (set_drop_prio prio s));
              Returned (set_drop_prio i32_MIN s)
          | _ => drop_value v (erase s)
          end;
      Returned (update n (λ this, StaticC (value this) (info this) 2) s)
  | _ => Undefined
  end.

Definition check_access (i : StaticInfo) (st : Z) (s : program) : result unit access_panic :=
  if st =? 0 then Err BeforeInit
  else if st =? 2 then Err AfterDrop
  else
    let init_prio := CUR_INIT_PRIO s in
    let drop_prio := CUR_DROP_PRIO s in
    let check_init :=
      match init_mode i with
      | ProgramConstructor prio =>
          match init_prio ?= prio with
          | Eq => Err NotSequencedAfterInit
          | Gt => Err UnexpectedInitOrder
          | Lt => Ok tt
          end
      | _ => Ok tt
      end in
    match drop_mode i with
    | ProgramDestructor prio =>
        match drop_prio ?= prio with
        | Eq => Err NotSequencedBeforeDrop
        | Gt => Err UnexpectedDropOrder
        | Lt => check_init
        end
    | _ => check_init
    end.

(** [Deref] and [DerefMut]: the value behind the reference. *)
Definition deref (n : nat) (s : program) : outcome V :=
  match statics s !! n with
  | Some this =>
      match check_access (info this) (status this) s with
      | Ok _ => match value this with Some v => Returned v | None => Undefined end
      | Err _ => Panicked
      end
  | None => Undefined
  end.
Definition deref_mut (n : nat) (s : program) : outcome V :=
  match statics s !! n with
  | Some this =>
      match check_access (info this) (status this) s with
      | Ok _ => match value this with Some v => Returned v | None => Undefined end
      | Err _ => Panicked
      end
  | None => Undefined
  end.

(** [ConstStatic] forwards to the [Static] that it wraps. *)
Record ConstStatic := ConstStaticC { const_static : Static }.

Definition const_uninit (i : StaticInfo) : ConstStatic := ConstStaticC (uninit i).
Definition const_from (v : V) (i : StaticInfo) : ConstStatic := ConstStaticC (from v i).
Definition const_set_to (n : nat) (v : V) (s : program) : program := set_to n v s.
Definition const_drop (drop_value : V → program → outcome program) (n : nat) (s : program) : outcome program :=
  drop drop_value n s.
Definition const_deref (n : nat) (s : program) : outcome V := deref n s.

(** Writing through a mutable reference. *)
Definition assign (n : nat) (v : V) (s : program) : program :=
  update n (λ this, StaticC (Some v) (info this) (status this)) s.
End debug.
Arguments Static : clear implicits.
Arguments program : clear implicits.

(** ** Without [debug_mode] *)

Module release.
Section release.
Context {V : Type}.

(** A static is a [MaybeUninit]. *)
Definition Static := option V.
Definition program := gmap nat Static.

Definition __set_init_prio (v : Z) (s : program) : program := s.

Definition uninit : Static := None.
Definition from (v : V) : Static := Some v.

Definition set_to (n : nat) (v : V) (s : program) : program := alter (λ _, Some v) n s.

Definition drop (drop_value : V → program → outcome program) (n : nat) (s : program) : outcome program :=
  match s !! n with
  | Some (Some v) => drop_value v (alter (λ _, None) n s)
  | _ => Undefined
  end.

Definition deref (n : nat) (s : program) : outcome V :=
  match s !! n with
  | Some (Some v) => Returned v
  | _ => Undefined
  end.

(** [DerefMut] reaches the same memory. *)
Definition deref_mut (n : nat) (s : program) : outcome V :=
  match s !! n with
  | Some (Some v) => Returned v
  | _ => Undefined
  end.
Definition assign (n : nat) (v : V) (s : program) : program := alter (λ _, Some v) n s.

Record ConstStatic := ConstStaticC { const_static : Static }.

Definition const_uninit : ConstStatic := ConstStaticC uninit.
Definition const_from (v : V) : ConstStatic := ConstStaticC (from v).
Definition const_set_to (n : nat) (v : V) (s : program) : program := set_to n v s.
Definition const_drop (drop_value : V → program → outcome program) (n : nat) (s : program) : outcome program :=
  drop drop_value n s.
Definition const_deref (n : nat) (s : program) : outcome V := deref n s.
End release.
Arguments Static : clear implicits.
Arguments program : clear implicits.
End release.

(** What the generated code uses of raw statics, in either mode. *)
Class RawStatics (V S : Type) := {
  raw_set_init_prio : Z → S → S;
  raw_set_to : nat → V → S → S;
  raw_deref : nat → S → outcome V;
  raw_deref_mut : nat → S → outcome V;
  raw_assign : nat → V → S → S;
  raw_drop : (V → S → outcome S) → nat → S → outcome S;
}.

#[export] Instance debug_statics V : RawStatics V (program V) := {
  raw_set_init_prio := __set_init_prio;
  raw_set_to := set_to;
  raw_deref := deref;
  raw_deref_mut := deref_mut;
  raw_assign := assign;
  raw_drop := drop;
}.

#[export] Instance release_statics V : RawStatics V (release.program V) := {
  raw_set_init_prio := release.__set_init_prio;
  raw_set_to := release.set_to;
  raw_deref := release.deref;
  raw_deref_mut := release.deref_mut;
  raw_assign := release.assign;
  raw_drop := release.drop;
}.

(** ** The life of a program *)

(** What the attribute [dynamic(init = prio)] generates: a constructor that
    evaluates the expression and stores its value. The expression reads other
    statics and computes a value from theirs. *)
Record initializer (V : Type) := Initializer {
  target : nat;
  priority : Z;
  reads : list nat;
  compute : list V → V;
}.
Arguments Initializer {V} target priority reads compute.
Arguments target {V} i.
Arguments priority {V} i.
Arguments reads {V} i.
Arguments compute {V} i.

(** What [main] does to raw statics. *)
Inductive access (V : Type) := Look (n : nat) | Change (n : nat) (f : V → V).
Arguments Look {V} n.
Arguments Change {V} n f.

Section life.
Context {V S : Type} {R : RawStatics V S}.

Fixpoint read_all (ns : list nat) (s : S) : outcome (list V) :=
  match ns with
  | [] => Returned []
  | n :: ns =>
      v ← raw_deref n s;
      vs ← read_all ns s;
      Returned (v :: vs)
  end.

Definition __static_init_initializer (i : initializer V) (s : S) : outcome S :=
  let s := raw_set_init_prio (priority i) s in
  vs ← read_all (reads i) s;
  Returned (raw_set_init_prio i32_MIN (raw_set_to (target i) (compute i vs) s)).

(** The constructors in the order the loader runs them. *)
Fixpoint startup (inits : list (initializer V)) (s : S) : outcome S :=
  match inits with
  | [] => Returned s
  | i :: inits => s ← __static_init_initializer i s; startup inits s
  end.

Definition run_access (a : access V) (s : S) : outcome S :=
  match a with
  | Look n => _ ← raw_deref n s; Returned s
  | Change n f => v ← raw_deref_mut n s; Returned (raw_assign n (f v) s)
  end.

Fixpoint run_accesses (acts : list (access V)) (s : S) : outcome S :=
  match acts with
  | [] => Returned s
  | a :: acts => s ← run_access a s; run_accesses acts s
  end.

(** The destructor of a value reads other statics. *)
Context (drop_reads : V → list nat).

Definition drop_value (v : V) (s : S) : outcome S := _ ← read_all (drop_reads v) s; Returned s.

(** What [dynamic(drop = prio)] generates, and the destructors in the order the
    loader runs them. *)
Definition __static_init_droper (n : nat) (s : S) : outcome S := raw_drop drop_value n s.

Fixpoint shutdown (ns : list nat) (s : S) : outcome S :=
  match ns with
  | [] => Returned s
  | n :: ns => s ← __static_init_droper n s; shutdown ns s
  end.

Definition life (inits : list (initializer V)) (main : list (access V)) (ns : list nat) (s : S) : outcome S :=
  s ← startup inits s; s ← run_accesses main s; shutdown ns s.
End life.

(** The statics before any constructor has run: those that a constructor
    initialises and those that are constants, each with its priority at the end
    of the program if it is dropped there. *)
Definition drop_mode_of (drops : list (nat * Z)) (n : nat) : FinalyMode :=
  match (list_to_map drops : gmap nat Z) !! n with
  | Some q => ProgramDestructor q
  | None => FinalyNone
  end.

Section linked.
Context {V : Type} (drops : list (nat * Z)).

Definition static_info (i : initializer V) : StaticInfo :=
  {| init_mode := ProgramConstructor (priority i); drop_mode := drop_mode_of drops (target i) |}.
Definition const_info (n : nat) : StaticInfo := {| init_mode := ModeConst; drop_mode := drop_mode_of drops n |}.

Definition linked_statics (inits : list (initializer V)) (consts : list (nat * V)) : list (nat * Static V) :=
  ((λ i, (target i, uninit (static_info i))) <$> inits) ++ ((λ c, (c.1, from c.2 (const_info c.1))) <$> consts).

Definition linked (inits : list (initializer V)) (consts : list (nat * V)) : program V :=
  Program (list_to_map (linked_statics inits consts)) i32_MIN i32_MIN.
End linked.
