(* ===== verification/RawSafety.v ===== *)
(** * The checks of raw statics

    What the checks of the mode [debug_mode] accept at the two ends of a program,
    and that a program that they accept does the same without them. *)

From stdpp Require Import base list option numbers gmap sorting.
From S2P Require Import Prelude Word RawStatic.
Open Scope Z_scope.

(** ** Reading *)

(** The reads of an expression succeed when each of them does. *)
Lemma read_all_split {V S} {R : RawStatics V S} (good : nat → Prop) ns (s : S) :
  (∀ n, n ∈ ns → (∃ v, raw_deref n s = Returned v ∧ good n) ∨ (raw_deref n s = Panicked ∧ ¬ good n)) →
  (∃ vs, read_all ns s = Returned vs ∧ ∀ n, n ∈ ns → good n) ∨
  (read_all ns s = Panicked ∧ ∃ n, n ∈ ns ∧ ¬ good n).
Proof.
  induction ns as [|n ns IH]; intros Hns.
  { left. exists []. split; [done|]. by intros n Hn%elem_of_nil. }
  cbn [read_all]. unfold mbind, outcome_bind.
  destruct (Hns n) as [(v & -> & Hn)|[-> Hn]]; [list_mem| |].
  - destruct IH as [(vs & -> & Hvs)|(-> & m & Hm & Hbad)].
    + intros m Hm. apply Hns. list_mem.
    + left. eexists. split; [done|]. by intros m [->|Hm]%elem_of_cons; [|apply Hvs].
    + right. split; [done|]. exists m. split; [list_mem|done].
  - right. split; [done|]. exists n. split; [list_mem|done].
Qed.

Section debug.
Context {V : Type} (drops : list (nat * Z)) (consts : list (nat * V)).
Implicit Types (s : program V) (i j : initializer V) (done todo inits : list (initializer V)).

(** The priorities at which values are dropped, and the names of the statics. *)
Definition drop_priorities : Prop := ∀ n q, (n, q) ∈ drops → i32_MIN < q.
Definition names inits : list nat := (target <$> inits) ++ consts.*1.
Context (Hdrops : drop_priorities).

Lemma drop_mode_range n q : drop_mode_of drops n = ProgramDestructor q → i32_MIN < q.
Proof using Hdrops.
  unfold drop_mode_of. destruct ((list_to_map drops : gmap nat Z) !! n) as [q'|] eqn:E; [|done].
  intros [= ->]. eapply Hdrops, elem_of_list_to_map_2, E.
Qed.

(** The check of a live static while nothing is being dropped. *)
Lemma check_live (info : StaticInfo) s :
  CUR_DROP_PRIO s = i32_MIN → (∀ q, drop_mode info = ProgramDestructor q → i32_MIN < q) →
  check_access info 1 s =
    match init_mode info with
    | ProgramConstructor prio =>
        match CUR_INIT_PRIO s ?= prio with
        | Eq => Err NotSequencedAfterInit | Gt => Err UnexpectedInitOrder | Lt => Ok tt
        end
    | _ => Ok tt
    end.
Proof using.
  intros Hd Hq. unfold check_access. cbn. destruct (drop_mode info) as [| | |q] eqn:E; try done.
  by rewrite Hd, (proj2 (Z.compare_lt_iff _ _)) by auto.
Qed.

(** ** Before [main]

    The state after the constructors of [done], with those of [todo] to come. *)
Record startup_inv done todo s : Prop := {
  si_init : CUR_INIT_PRIO s = i32_MIN;
  si_drop : CUR_DROP_PRIO s = i32_MIN;
  si_done i : i ∈ done → ∃ v, statics s !! target i = Some (StaticC (Some v) (static_info drops i) 1);
  si_todo i : i ∈ todo → statics s !! target i = Some (uninit (static_info drops i));
  si_const n v : (n, v) ∈ consts → statics s !! n = Some (from v (const_info drops n));
}.

(** A static that an initialiser of priority [prio] may read. *)
Definition readable inits (prio : Z) (n : nat) : Prop :=
  ∀ j, j ∈ inits → target j = n → prio < priority j.

Definition sequenced inits : Prop :=
  ∀ i n, i ∈ inits → n ∈ reads i → readable inits (priority i) n.

Lemma target_inj inits i j :
  NoDup (names inits) → i ∈ inits → j ∈ inits → target i = target j → i = j.
Proof using.
  intros [Hnd _]%NoDup_app Hi Hj Ht.
  apply list_elem_of_lookup in Hi as [a Ha]. apply list_elem_of_lookup in Hj as [b Hb].
  assert (a = b) as ->; [|congruence].
  eapply NoDup_lookup; [exact Hnd|..]; rewrite list_lookup_fmap; [by rewrite Ha|by rewrite Hb, Ht].
Qed.

Lemma const_not_made inits n v j : NoDup (names inits) → (n, v) ∈ consts → j ∈ inits → target j ≠ n.
Proof using.
  intros (_ & Hd & _)%NoDup_app Hn Hj <-.
  apply (Hd (target j)); [by apply list_elem_of_fmap_2|].
  apply list_elem_of_fmap. by exists (target j, v).
Qed.

(** An access while the constructors of priority [prio] run. *)
Lemma deref_startup done todo s prio n :
  startup_inv done todo s → NoDup (names (done ++ todo)) → (∀ j, j ∈ todo → priority j <= prio) →
  n ∈ names (done ++ todo) →
  (∃ v, deref n (__set_init_prio prio s) = Returned v ∧ readable (done ++ todo) prio n) ∨
  (deref n (__set_init_prio prio s) = Panicked ∧ ¬ readable (done ++ todo) prio n).
Proof using Hdrops.
  intros Hs Hnd Hle [Hn|Hn]%elem_of_app; apply list_elem_of_fmap in Hn as (x & -> & Hx);
    unfold deref; cbn [statics __set_init_prio].
  - assert (∀ P : Prop, (prio < priority x → P) → (priority x <= prio → P) → P) as Hcase by
      (intros P ??; destruct (Z.lt_ge_cases prio (priority x)); auto).
    assert (prio < priority x → readable (done ++ todo) prio (target x)) as Hgood.
    { intros Hlt j Hj Ht. by rewrite (target_inj _ j x Hnd Hj Hx Ht). }
    assert (priority x <= prio → ¬ readable (done ++ todo) prio (target x)) as Hbad.
    { intros Hge Hr. specialize (Hr x Hx eq_refl). lia. }
    apply elem_of_app in Hx as [Hx|Hx].
    + destruct (si_done _ _ _ Hs x Hx) as [v ->]. cbn [info status value].
      rewrite check_live by (apply (si_drop _ _ _ Hs) || apply drop_mode_range). cbn.
      destruct (Z.compare_spec prio (priority x)); [right|left|right]; eauto with lia.
    + rewrite (si_todo _ _ _ Hs x Hx). right. split; [done|]. by apply Hbad, Hle.
  - destruct x as [n v]. simpl. rewrite (si_const _ _ _ Hs n v Hx). cbn [info status value from].
    rewrite check_live by (apply (si_drop _ _ _ Hs) || apply drop_mode_range). left.
    exists v. split; [done|]. intros j Hj Ht. by destruct (const_not_made _ n v j Hnd Hx Hj).
Qed.

(** One constructor. *)
Lemma initializer_inv done i todo s :
  startup_inv done (i :: todo) s → NoDup (names (done ++ i :: todo)) →
  (∀ j, j ∈ todo → priority j <= priority i) → (∀ n, n ∈ reads i → n ∈ names (done ++ i :: todo)) →
  (∃ s', __static_init_initializer i s = Returned s' ∧ startup_inv (done ++ [i]) todo s' ∧
     ∀ n, n ∈ reads i → readable (done ++ i :: todo) (priority i) n) ∨
  (__static_init_initializer i s = Panicked ∧
     ∃ n, n ∈ reads i ∧ ¬ readable (done ++ i :: todo) (priority i) n).
Proof using Hdrops.
  intros Hs Hnd Hle Hreads. unfold __static_init_initializer. cbn [raw_set_init_prio debug_statics].
  unfold mbind, outcome_bind.
  destruct (read_all_split (readable (done ++ i :: todo) (priority i)) (reads i)
              (__set_init_prio (priority i) s)) as [(vs & -> & Hvs)|[-> Hp]]; [|left|by right].
  { intros n Hn. apply (deref_startup done (i :: todo)); auto.
    intros j [->|Hj]%elem_of_cons; [lia|by apply Hle]. }
  eexists. split; [done|]. split; [|done]. cbn [raw_set_to raw_set_init_prio debug_statics].
  assert (i ∈ done ++ i :: todo) as Hi by list_mem.
  assert (∀ j, j ∈ done ∨ j ∈ todo → target j ≠ target i) as Hne.
  { intros j Hj Ht. apply NoDup_app in Hnd as [Hnd _].
    rewrite fmap_app, fmap_cons, <- Permutation_middle in Hnd.
    apply NoDup_cons in Hnd as [Hni _]. apply Hni. rewrite <- Ht, <- fmap_app.
    apply list_elem_of_fmap_2. by rewrite elem_of_app. }
  assert (∀ m, m ≠ target i → statics (set_to (target i) (compute i vs) (__set_init_prio (priority i) s)) !! m =
    statics s !! m) as Hother by (intros m Hm; cbn; by rewrite lookup_alter_ne by done).
  split; [done|apply (si_drop _ _ _ Hs)|..]; cbn [statics __set_init_prio].
  - intros j [Hj| ->%list_elem_of_singleton]%elem_of_app.
    + rewrite Hother by auto. by apply (si_done _ _ _ Hs).
    + cbn. rewrite lookup_alter_eq, (si_todo _ _ _ Hs) by list_mem. by eexists.
  - intros j Hj. rewrite Hother by auto. apply (si_todo _ _ _ Hs). list_mem.
  - intros n v Hn. rewrite Hother by (by apply not_eq_sym, (const_not_made _ n v i Hnd)).
    by apply (si_const _ _ _ Hs).
Qed.

(** The order the loader runs the constructors in: by decreasing priority. *)
Definition by_priority inits : Prop := StronglySorted (λ i j, priority j <= priority i) inits.

Lemma startup_steps done todo s :
  startup_inv done todo s → NoDup (names (done ++ todo)) → by_priority todo →
  (∀ i n, i ∈ todo → n ∈ reads i → n ∈ names (done ++ todo)) →
  (∃ s', startup todo s = Returned s' ∧ startup_inv (done ++ todo) [] s' ∧
     ∀ i n, i ∈ todo → n ∈ reads i → readable (done ++ todo) (priority i) n) ∨
  (startup todo s = Panicked ∧
     ∃ i n, i ∈ todo ∧ n ∈ reads i ∧ ¬ readable (done ++ todo) (priority i) n).
Proof using Hdrops.
  revert done s. induction todo as [|i todo IH]; intros done s Hs Hnd Hsort Hreads.
  { left. exists s. rewrite app_nil_r. split_and!; [done..|]. by intros ? ? ?%elem_of_nil. }
  apply StronglySorted_cons in Hsort as [Hi Hsort]. rewrite Forall_forall in Hi. cbn [startup].
  unfold mbind, outcome_bind.
  destruct (initializer_inv done i todo s Hs Hnd) as [(s1 & -> & Hs1 & Hr)|(-> & n & Hn)];
    [done|intros n; apply Hreads; list_mem|..].
  - assert ((done ++ [i]) ++ todo = done ++ i :: todo) as E by (by rewrite <- (assoc_L (++))).
    destruct (IH (done ++ [i]) s1) as [(s' & -> & Hs' & Hlt)|(-> & i' & n & Hi' & ?)]; rewrite ?E in *; try done.
    + intros i' n Hi'. apply Hreads. list_mem.
    + left. exists s'. split_and!; [done..|]. by intros i' n [->|Hi']%elem_of_cons Hn; [apply Hr|apply Hlt].
    + right. split; [done|]. exists i', n. split; [list_mem|done].
  - right. split; [done|]. exists i, n. split; [list_mem|done].
Qed.

Lemma linked_inv inits : NoDup (names inits) → startup_inv [] inits (linked drops inits consts).
Proof using.
  intros Hnd. assert (NoDup (linked_statics drops inits consts).*1) as Hnd'.
  { unfold linked_statics. by rewrite fmap_app, <- !list_fmap_compose. }
  split; [done|done|by intros i Hi%elem_of_nil|..]; unfold linked; cbn [statics].
  - intros i Hi. apply elem_of_list_to_map; [done|]. apply elem_of_app. left.
    apply list_elem_of_fmap. by exists i.
  - intros n v Hn. apply elem_of_list_to_map; [done|]. apply elem_of_app. right.
    apply list_elem_of_fmap. by exists (n, v).
Qed.

(** ** [main]

    Every static is there and nothing is being initialised or dropped. *)
Record live (ns : list nat) s : Prop := {
  lv_init : CUR_INIT_PRIO s = i32_MIN;
  lv_drop : CUR_DROP_PRIO s = i32_MIN;
  lv_static n : n ∈ ns → ∃ v im, statics s !! n = Some (StaticC (Some v) im 1) ∧
    drop_mode im = drop_mode_of drops n ∧ ∀ p, init_mode im = ProgramConstructor p → i32_MIN < p;
}.

Lemma startup_live inits s :
  (∀ i, i ∈ inits → i32_MIN < priority i) → startup_inv inits [] s → live (names inits) s.
Proof using.
  intros Hpos Hs. split; [apply (si_init _ _ _ Hs)|apply (si_drop _ _ _ Hs)|].
  intros n [Hn|Hn]%elem_of_app; apply list_elem_of_fmap in Hn as (x & -> & Hx).
  - destruct (si_done _ _ _ Hs x Hx) as [v Hv]. exists v, (static_info drops x).
    split_and!; [done..|]. intros p [= <-]. by apply Hpos.
  - destruct x as [n v]. simpl. exists v, (const_info drops n). split_and!; [by apply (si_const _ _ _ Hs)|done|done].
Qed.

Lemma deref_live ns s n : live ns s → n ∈ ns → ∃ v, deref n s = Returned v ∧ statics s !! n ≫= value = Some v.
Proof using Hdrops.
  intros Hl Hn. destruct (lv_static _ _ Hl n Hn) as (v & im & Hst & Hdm & Him). exists v.
  unfold deref. rewrite Hst. cbn [info status value mbind option_bind]. split; [|done].
  rewrite check_live by (apply (lv_drop _ _ Hl) || (rewrite Hdm; apply drop_mode_range)).
  destruct (init_mode im) as [| | |p]; try done.
  by rewrite (lv_init _ _ Hl), (proj2 (Z.compare_lt_iff _ _)) by auto.
Qed.

Lemma assign_live ns s n v : live ns s → live ns (assign n v s).
Proof using.
  intros Hl. split; [apply (lv_init _ _ Hl)|apply (lv_drop _ _ Hl)|]. intros m Hm.
  destruct (lv_static _ _ Hl m Hm) as (w & im & Hst & Hi). cbn.
  destruct (decide (m = n)) as [->|].
  - rewrite lookup_alter_eq, Hst. by exists v, im.
  - rewrite lookup_alter_ne, Hst by done. by exists w, im.
Qed.

Definition access_name (a : access V) : nat := match a with Look n | Change n _ => n end.

Lemma main_runs ns acts s :
  live ns s → (∀ a, a ∈ acts → access_name a ∈ ns) →
  ∃ s', run_accesses acts s = Returned s' ∧ live ns s'.
Proof using Hdrops.
  revert s. induction acts as [|a acts IH]; intros s Hl Hacts; [by exists s|].
  assert (∃ s', run_access a s = Returned s' ∧ live ns s') as (s' & Hrun & Hl').
  { destruct (deref_live ns s (access_name a) Hl) as (v & Hv & _); [apply Hacts; list_mem|].
    destruct a as [n|n f]; simpl in *; unfold deref_mut; fold (deref n s); rewrite Hv; simpl; eexists; (split; [reflexivity|]);
      [done|by apply assign_live]. }
  cbn [run_accesses]. unfold mbind, outcome_bind. rewrite Hrun. apply IH; [done|]. intros a' Ha'. apply Hacts. list_mem.
Qed.

(** ** After [main] *)

Section shutdown.
Context (drop_reads : V → list nat) (ns : list nat) (start : program V).
Context (Hnd : NoDup drops.*1) (Hns : ∀ n, n ∈ drops.*1 → n ∈ ns).

(** The value that a static holds when the destructors begin. *)
Definition held (n : nat) : option V := statics start !! n ≫= value.
Context (Hreads : ∀ n v m, held n = Some v → m ∈ drop_reads v → m ∈ ns).

(** A static that the destructor of priority [p] may read: it is dropped later,
    or not at all. *)
Definition droppable_after (p : Z) (m : nat) : Prop := ∀ q, (m, q) ∈ drops → p < q.

Definition drop_sequenced : Prop :=
  ∀ n p v m, (n, p) ∈ drops → held n = Some v → m ∈ drop_reads v → droppable_after p m.

Record shutdown_inv (gone : list (nat * Z)) s : Prop := {
  sh_init : CUR_INIT_PRIO s = i32_MIN;
  sh_drop : CUR_DROP_PRIO s = i32_MIN;
  sh_done n : n ∈ gone.*1 → ∃ im, statics s !! n = Some (StaticC None im 2);
  sh_live n : n ∈ ns → n ∉ gone.*1 → ∃ v im, statics s !! n = Some (StaticC (Some v) im 1) ∧ held n = Some v ∧
    drop_mode im = drop_mode_of drops n ∧ ∀ p, init_mode im = ProgramConstructor p → i32_MIN < p;
}.

Lemma drop_mode_dropped n p : (n, p) ∈ drops → drop_mode_of drops n = ProgramDestructor p.
Proof using Hnd. intros Hn. unfold drop_mode_of. by rewrite (elem_of_list_to_map_1 _ n p). Qed.

Lemma dropped_once n p q : (n, p) ∈ drops → (n, q) ∈ drops → p = q.
Proof using Hnd.
  intros Hp Hq. apply drop_mode_dropped in Hp. apply drop_mode_dropped in Hq. congruence.
Qed.

(** The state in which the destructor of a value runs. *)
Abbreviation dropping n p s :=
  (update n (λ this, StaticC None (info this) (status this)) (set_drop_prio p s)).

Lemma deref_dropping gone n p rest s m :
  shutdown_inv gone s → drops = gone ++ (n, p) :: rest →
  (∀ d, d ∈ gone → d.2 <= p) → m ∈ ns →
  (∃ v, deref m (dropping n p s) = Returned v ∧ droppable_after p m) ∨
  (deref m (dropping n p s) = Panicked ∧ ¬ droppable_after p m).
Proof using Hnd Hns Hdrops.
  intros Hs Heq Hle Hm. unfold deref. cbn [statics update set_drop_prio].
  assert ((n, p) ∈ drops) as Hn by (rewrite Heq; list_mem).
  assert (n ∉ gone.*1) as Hnew.
  { pose proof Hnd as Hnd'. rewrite Heq, fmap_app, fmap_cons in Hnd'.
    apply NoDup_app in Hnd' as (_ & Hd & _). intros Hin. apply (Hd n Hin). list_mem. }
  destruct (decide (m = n)) as [->|Hmn].
  { destruct (sh_live _ _ Hs n Hm Hnew) as (v & im & Hst & _ & Hdm & _).
    rewrite lookup_alter_eq, Hst. cbn [fmap option_fmap option_map info status value].
    unfold check_access. cbn. rewrite Hdm, (drop_mode_dropped n p Hn), Z.compare_refl.
    right. split; [done|]. intros Hr. specialize (Hr p Hn). lia. }
  rewrite lookup_alter_ne by done.
  destruct (decide (m ∈ gone.*1)) as [Hg|Hg].
  { destruct (sh_done _ _ Hs m Hg) as [im ->]. right. split; [done|].
    apply list_elem_of_fmap in Hg as ([m' q] & -> & Hq). intros Hr.
    specialize (Hr q ltac:(rewrite Heq; list_mem)). specialize (Hle _ Hq). simpl in Hle. lia. }
  destruct (sh_live _ _ Hs m Hm Hg) as (v & im & -> & _ & Hdm & Him). cbn [info status value].
  unfold check_access. cbn. rewrite Hdm, (sh_init _ _ Hs).
  assert ((match init_mode im with
           | ProgramConstructor prio =>
               match i32_MIN ?= prio with
               | Eq => Err NotSequencedAfterInit | Gt => Err UnexpectedInitOrder | Lt => Ok tt
               end
           | _ => Ok tt
           end) = Ok tt) as ->.
  { destruct (init_mode im) as [| | |q]; try done. by rewrite (proj2 (Z.compare_lt_iff _ _)) by auto. }
  unfold drop_mode_of. destruct ((list_to_map drops : gmap nat Z) !! m) as [q|] eqn:Eq.
  - apply elem_of_list_to_map_2 in Eq. assert (p < q → droppable_after p m) as Hgood.
    { intros Hlt q' Hq'. by rewrite (dropped_once m q' q Hq' Eq). }
    destruct (Z.compare_spec p q) as [->|Hlt|Hgt]; [right|left; eauto|right];
      (split; [done|]; intros Hr; specialize (Hr q Eq); lia).
  - left. exists v. split; [done|]. intros q Hq. by rewrite (elem_of_list_to_map_1 _ m q Hnd Hq) in Eq.
Qed.

(** One destructor. *)
Lemma droper_inv gone n p rest s :
  shutdown_inv gone s → drops = gone ++ (n, p) :: rest → (∀ d, d ∈ gone → d.2 <= p) →
  (∃ s', __static_init_droper drop_reads n s = Returned s' ∧ shutdown_inv (gone ++ [(n, p)]) s' ∧
     ∀ v m, held n = Some v → m ∈ drop_reads v → droppable_after p m) ∨
  (__static_init_droper drop_reads n s = Panicked ∧
     ∃ v m, held n = Some v ∧ m ∈ drop_reads v ∧ ¬ droppable_after p m).
Proof using Hnd Hns Hdrops Hreads.
  intros Hs Heq Hle. assert ((n, p) ∈ drops) as Hn by (rewrite Heq; list_mem).
  assert (n ∉ gone.*1) as Hnew.
  { pose proof Hnd as Hnd'. rewrite Heq, fmap_app, fmap_cons in Hnd'.
    apply NoDup_app in Hnd' as (_ & Hd & _). intros Hin. apply (Hd n Hin). list_mem. }
  assert (n ∈ ns) as Hnns by (apply Hns, list_elem_of_fmap; by exists (n, p)).
  destruct (sh_live _ _ Hs n Hnns Hnew) as (v & im & Hst & Hheld & Hdm & Him).
  rewrite (drop_mode_dropped n p Hn) in Hdm.
  unfold __static_init_droper. cbn [raw_drop debug_statics]. unfold drop. rewrite Hst, Hdm.
  unfold drop_value, mbind, outcome_bind.
  destruct (read_all_split (droppable_after p) (drop_reads v) (dropping n p s)) as [(vs & -> & Hvs)|(-> & m & Hm & Hbad)].
  - intros m Hm. eapply deref_dropping; eauto.
  - left. eexists. split; [done|]. split.
    + split; [apply (sh_init _ _ Hs)|done|..]; intros m; cbn; rewrite fmap_app.
      * intros [Hm|Hm%list_elem_of_singleton]%elem_of_app.
        -- assert (m ≠ n) by (by intros ->). rewrite !lookup_alter_ne by done. by apply (sh_done _ _ Hs).
        -- simpl in Hm. subst m. rewrite !lookup_alter_eq, Hst. by eexists.
      * intros Hm Hg. assert (m ≠ n) by (intros ->; apply Hg, elem_of_app; right; by apply list_elem_of_singleton).
        rewrite !lookup_alter_ne by done. apply (sh_live _ _ Hs); [done|]. intros Hin. apply Hg, elem_of_app. by left.
    + intros v' m Hv' Hm. apply Hvs. congruence.
  - right. split; [done|]. by exists v, m.
Qed.

Lemma shutdown_steps gone rest s :
  shutdown_inv gone s → drops = gone ++ rest → StronglySorted (λ d e, d.2 <= e.2) drops →
  (∃ s', shutdown drop_reads rest.*1 s = Returned s' ∧ shutdown_inv drops s' ∧
     ∀ n p v m, (n, p) ∈ rest → held n = Some v → m ∈ drop_reads v → droppable_after p m) ∨
  (shutdown drop_reads rest.*1 s = Panicked ∧
     ∃ n p v m, (n, p) ∈ rest ∧ held n = Some v ∧ m ∈ drop_reads v ∧ ¬ droppable_after p m).
Proof using Hnd Hns Hdrops Hreads.
  revert gone s. induction rest as [|[n p] rest IH]; intros gone s Hs Heq Hsort.
  { left. exists s. rewrite app_nil_r in Heq. rewrite Heq. split_and!; [done..|]. by intros ???? ?%elem_of_nil. }
  assert (∀ d, d ∈ gone → d.2 <= p) as Hle.
  { intros d Hd. rewrite Heq in Hsort. apply (StronglySorted_app_1_elem_of _ _ _ d (n, p) Hsort); [done|list_mem]. }
  rewrite fmap_cons. cbn [shutdown fst]. unfold mbind, outcome_bind.
  destruct (droper_inv gone n p rest s Hs Heq Hle) as [(s1 & -> & Hs1 & Hr)|(-> & v & m & ?)].
  - destruct (IH (gone ++ [(n, p)]) s1 Hs1) as [(s' & -> & Hs' & Hlt)|(-> & n' & p' & v & m & Hin & ?)];
      [by rewrite <- (assoc_L (++))|done|left|right].
    + exists s'. split_and!; [done..|].
      intros n' p' v m [[= -> ->]|Hin]%elem_of_cons; [apply Hr|by apply Hlt].
    + split; [done|]. exists n', p', v, m. split; [list_mem|done].
  - right. split; [done|]. exists n, p, v, m. split; [list_mem|done].
Qed.
End shutdown.
End debug.

(** ** Without the checks

    What is left of a static when its checks are compiled out. *)
Section erasure.
Context {V : Type} (drop_reads : V → list nat).
Implicit Types s : program V.

Definition erase s : release.program V := value <$> statics s.

Lemma erase_lookup n s : erase s !! n = value <$> statics s !! n.
Proof using. apply (lookup_fmap (M:=gmap nat)). Qed.

(** The order of the steps of a run that succeeds. *)
Lemma bind_returned {A B} (o : outcome A) (k : A → outcome B) b :
  o ≫= k = Returned b → ∃ a, o = Returned a ∧ k a = Returned b.
Proof using. destruct o as [a| | | |]; try done. by exists a. Qed.

Lemma erase_update n f v s :
  (∀ this, value (f this) = v) → erase (update n f s) = alter (λ _, v) n (erase s).
Proof using.
  intros Hf. unfold erase, update, release.program, release.Static. cbn [statics]. apply (map_eq (M:=gmap nat)). intros m. rewrite lookup_fmap.
  destruct (decide (n = m)) as [->|].
  - rewrite !lookup_alter_eq, lookup_fmap. destruct (statics s !! m); simpl; [by rewrite Hf|done].
  - by rewrite !lookup_alter_ne, lookup_fmap by done.
Qed.

Lemma erase_same_value n f s : (∀ this, value (f this) = value this) → erase (update n f s) = erase s.
Proof using.
  intros Hf. unfold erase, update, release.program, release.Static. cbn [statics]. apply (map_eq (M:=gmap nat)). intros m. rewrite !lookup_fmap.
  destruct (decide (n = m)) as [->|].
  - rewrite lookup_alter_eq. destruct (statics s !! m); simpl; [by rewrite Hf|done].
  - by rewrite lookup_alter_ne by done.
Qed.

Lemma deref_erase n s v : deref n s = Returned v → release.deref n (erase s) = Returned v.
Proof using.
  unfold deref, release.deref. rewrite erase_lookup. destruct (statics s !! n) as [this|]; [|done].
  destruct (check_access _ _ _); [|done]. simpl. by destruct (value this).
Qed.

Lemma read_all_erase ns s vs : read_all ns s = Returned vs → read_all ns (erase s) = Returned vs.
Proof using.
  revert vs. induction ns as [|n ns IH]; intros vs; [done|]. cbn [read_all].
  intros (v & Hv & (vs' & Hvs & [= <-])%bind_returned)%bind_returned.
  cbn [raw_deref debug_statics] in Hv. apply deref_erase in Hv.
  cbn [raw_deref release_statics]. rewrite Hv. simpl. by rewrite (IH vs' Hvs).
Qed.

Lemma initializer_erase i s s' :
  __static_init_initializer i s = Returned s' → __static_init_initializer i (erase s) = Returned (erase s').
Proof using.
  unfold __static_init_initializer. intros (vs & Hvs & [= <-])%bind_returned. apply read_all_erase in Hvs.
  cbn [raw_set_init_prio raw_set_to debug_statics release_statics] in *.
  change (erase (__set_init_prio (priority i) s)) with (erase s) in Hvs. unfold release.__set_init_prio.
  rewrite Hvs. simpl. do 2 f_equal.
  change (erase (__set_init_prio i32_MIN ?x)) with (erase x).
  change (erase s) with (erase (__set_init_prio (priority i) s)). unfold release.set_to. symmetry.
  by apply erase_update.
Qed.

Lemma startup_erase inits s s' :
  startup inits s = Returned s' → startup inits (erase s) = Returned (erase s').
Proof using.
  revert s. induction inits as [|i inits IH]; intros s; cbn [startup]; [by intros [= ->]|].
  intros (s1 & Hs1 & Hs')%bind_returned. rewrite (initializer_erase i s s1 Hs1). by apply IH.
Qed.

Lemma access_erase a s s' : run_access a s = Returned s' → run_access a (erase s) = Returned (erase s').
Proof using.
  destruct a as [n|n f]; cbn [run_access]; intros (v & Hv%deref_erase & [= <-])%bind_returned;
    cbn [raw_deref raw_deref_mut release_statics]; unfold release.deref_mut; fold (release.deref n (erase s));
    rewrite Hv; simpl; [done|].
  f_equal. symmetry. by apply erase_update.
Qed.

Lemma accesses_erase acts s s' :
  run_accesses acts s = Returned s' → run_accesses acts (erase s) = Returned (erase s').
Proof using.
  revert s. induction acts as [|a acts IH]; intros s; cbn [run_accesses]; [by intros [= ->]|].
  intros (s1 & Hs1 & Hs')%bind_returned. rewrite (access_erase a s s1 Hs1). by apply IH.
Qed.

Lemma drop_value_erase v s s' :
  drop_value drop_reads v s = Returned s' → s' = s ∧ drop_value drop_reads v (erase s) = Returned (erase s).
Proof using.
  unfold drop_value. intros (vs & Hvs%read_all_erase & [= <-])%bind_returned. by rewrite Hvs.
Qed.

Lemma droper_erase n s s' :
  __static_init_droper drop_reads n s = Returned s' →
  __static_init_droper drop_reads n (erase s) = Returned (erase s').
Proof using.
  unfold __static_init_droper. cbn [raw_drop debug_statics release_statics]. unfold drop, release.drop.
  rewrite erase_lookup.
  destruct (statics s !! n) as [[[v|] im st]|]; try done. simpl.
  set (gone := update n (λ this, StaticC None (info this) (status this))).
  assert (∀ s, erase (gone s) = alter (λ _, None) n (erase s)) as Hgone by (intros; by apply erase_update).
  intros (s1 & Hs1 & [= <-])%bind_returned. rewrite erase_same_value by done. rewrite <- Hgone.
  destruct (drop_mode im) as [| | |p];
    [by apply drop_value_erase in Hs1 as [-> ?]..|].
  apply bind_returned in Hs1 as (s2 & Hs2 & [= <-]). apply drop_value_erase in Hs2 as [-> Hs2].
  exact Hs2.
Qed.

Lemma shutdown_erase ns s s' :
  shutdown drop_reads ns s = Returned s' → shutdown drop_reads ns (erase s) = Returned (erase s').
Proof using.
  revert s. induction ns as [|n ns IH]; intros s; cbn [shutdown]; [by intros [= ->]|].
  intros (s1 & Hs1 & Hs')%bind_returned. rewrite (droper_erase n s s1 Hs1). by apply IH.
Qed.
End erasure.

(** ** Properties *)

Section props.
Context {V : Type}.
Implicit Types (inits : list (initializer V)) (consts : list (nat * V)) (drops : list (nat * Z)).

(** C26: in debug mode the constructors of a program, which the loader runs by
    decreasing priority, either all succeed or one panics. They succeed exactly
    when every initialiser reads constants and statics whose priority is greater
    than its own, whatever the order among equal priorities; no initialiser ever
    reads uninitialised memory, and once they are done [main] can read and change
    every static. *)
Theorem startup_checks_order drops inits consts acts :
  by_priority inits → NoDup (names consts inits) → drop_priorities drops →
  (∀ i, i ∈ inits → i32_MIN < priority i) →
  (∀ i n, i ∈ inits → n ∈ reads i → n ∈ names consts inits) →
  (∀ a, a ∈ acts → access_name a ∈ names consts inits) →
  (startup inits (linked drops inits consts) = Panicked ∧ ¬ sequenced inits) ∨
  (sequenced inits ∧ ∃ s s', startup inits (linked drops inits consts) = Returned s ∧
     run_accesses acts s = Returned s' ∧ live drops (names consts inits) s').
Proof.
  intros Hsort Hnd Hd Hpos Hreads Hacts.
  destruct (startup_steps drops consts Hd [] inits (linked drops inits consts) (linked_inv drops consts inits Hnd)) as
    [(s & Hrun & Hs & Hlt)|(Hrun & i & n & Hi & Hn & Hbad)]; [done|done|done|right|left].
  - split; [done|]. apply (startup_live drops consts inits s Hpos) in Hs as Hl.
    destruct (main_runs drops Hd _ acts s Hl Hacts) as (s' & Hmain & Hl'). by exists s, s'.
  - split; [done|]. intros Hseq. by apply Hbad, Hseq.
Qed.

(** C27: the destructors, which the loader runs by increasing priority once [main]
    is over, either all succeed or one panics. They succeed exactly when the
    destructor of every value that a static holds by then reads statics that are
    dropped at a greater priority, or not at all; no destructor ever reads
    memory that has been dropped, its own included, and every static that is to
    be dropped is. *)
Theorem shutdown_checks_order (drop_reads : V → list nat) drops ns (s : program V) :
  live drops ns s → StronglySorted (λ d e, d.2 <= e.2) drops → NoDup drops.*1 → drop_priorities drops →
  (∀ n, n ∈ drops.*1 → n ∈ ns) →
  (∀ n v m, held s n = Some v → m ∈ drop_reads v → m ∈ ns) →
  (shutdown drop_reads drops.*1 s = Panicked ∧ ¬ drop_sequenced drops drop_reads s) ∨
  (drop_sequenced drops drop_reads s ∧ ∃ s', shutdown drop_reads drops.*1 s = Returned s' ∧
     ∀ n, n ∈ drops.*1 → ∃ im, statics s' !! n = Some (StaticC None im 2)).
Proof.
  intros Hl Hsort Hnd Hd Hns Hreads.
  assert (shutdown_inv drops ns s [] s) as Hinv.
  { split; [apply (lv_init _ _ _ Hl)|apply (lv_drop _ _ _ Hl)|by intros n Hn%elem_of_nil|].
    intros n Hn _. destruct (lv_static _ _ _ Hl n Hn) as (v & im & Hst & Hi).
    exists v, im. unfold held. by rewrite Hst. }
  destruct (shutdown_steps drops Hd drop_reads ns s Hnd Hns Hreads [] drops s Hinv eq_refl Hsort) as
    [(s' & Hrun & Hs' & Hseq)|(Hrun & n & p & v & m & Hn & Hv & Hm & Hbad)]; [right|left].
  - split; [done|]. exists s'. split; [done|]. apply (sh_done _ _ _ _ _ Hs').
  - split; [done|]. intros Hseq. by eapply Hbad, Hseq.
Qed.

(** C28: a program that passes the checks of the debug mode, from its constructors
    through [main] to its destructors, does the same without them, on statics that
    are nothing but their memory. *)
Theorem release_refines_debug (drop_reads : V → list nat) inits acts ns (s s' : program V) :
  life drop_reads inits acts ns s = Returned s' →
  life drop_reads inits acts ns (erase s) = Returned (erase s').
Proof.
  unfold life. intros (s1 & H1 & (s2 & H2 & H3)%bind_returned)%bind_returned.
  rewrite (startup_erase _ _ _ H1). simpl. rewrite (accesses_erase _ _ _ H2). simpl.
  by apply shutdown_erase.
Qed.
End props.

(** Two statics of which the second reads the first, and a constant whose
    destructor reads static 0 if it is negative, at given priorities. *)
Definition demo_inits (p q : Z) : list (initializer Z) :=
  [Initializer 0 p [] (λ _, 1); Initializer 1 q [0%nat; 2%nat] (λ vs, 1 + foldr Z.add 0 vs)].
Definition demo_consts : list (nat * Z) := [(2%nat, 5)].
Definition demo_drops (p q : Z) : list (nat * Z) := [(0%nat, p); (2%nat, q)].
Definition demo_reads (v : Z) : list nat := if v <? 0 then [0%nat] else [].
Definition demo_linked : program Z := linked (demo_drops 10 20) (demo_inits 9 4) demo_consts.

(** [tests/bad_drop_order.rs] and [tests/bad_drop_unordered.rs]: constants that
    are dropped, of which the second reads the first from its destructor. *)
Definition bad_drop (p q : Z) : outcome (program Z) :=
  life (λ v, if v =? 1 then [0%nat] else []) [] [] (demo_drops p q).*1
    (linked (demo_drops p q) [] [(0%nat, 0); (2%nat, 1)]).
Example bad_drop_order : bad_drop 10 20 = Panicked.
Proof. vm_compute. reflexivity. Qed.
Example bad_drop_unordered : bad_drop 10 10 = Panicked.
Proof. vm_compute. reflexivity. Qed.

(** [tests/bad_init_order.rs] and [tests/bad_init_unordered.rs]: the constructor of
    the greater priority reads the static of the other. *)
Definition bad_inits (p q : Z) : list (initializer Z) :=
  [Initializer 1 p [0%nat] (λ vs, foldr Z.add 0 vs); Initializer 0 q [] (λ _, 12)].
Definition bad_init (p q : Z) : outcome (program Z) := startup (bad_inits p q) (linked [] (bad_inits p q) []).
Example bad_init_order : bad_init 10 0 = Panicked.
Proof. vm_compute. reflexivity. Qed.
Example bad_init_unordered : bad_init 0 0 = Panicked.
Proof. vm_compute. reflexivity. Qed.

Lemma demo_priorities : drop_priorities (demo_drops 10 20).
Proof. intros n q [[= -> ->]|[= -> ->]%list_elem_of_singleton]%elem_of_cons; unfold i32_MIN; lia. Qed.

Lemma startup_checks_order_witness :
  (startup (demo_inits 9 4) demo_linked = Panicked ∧ ¬ sequenced (demo_inits 9 4)) ∨
  (sequenced (demo_inits 9 4) ∧ ∃ s s', startup (demo_inits 9 4) demo_linked = Returned s ∧
     run_accesses [Look 1; Change 2 (λ v, v - 6)] s = Returned s' ∧
     live (demo_drops 10 20) (names demo_consts (demo_inits 9 4)) s').
Proof.
  apply (startup_checks_order (demo_drops 10 20) (demo_inits 9 4) demo_consts [Look 1; Change 2 (λ v, v - 6)]).
  - repeat constructor; simpl; lia.
  - by apply (bool_decide_unpack _).
  - exact demo_priorities.
  - intros i [-> | ->%list_elem_of_singleton]%elem_of_cons; unfold i32_MIN; simpl; lia.
  - intros i n [-> | ->%list_elem_of_singleton]%elem_of_cons Hn; unfold names; simpl in *;
      [by apply elem_of_nil in Hn|list_mem].
  - intros a [-> | ->%list_elem_of_singleton]%elem_of_cons; unfold names; simpl; list_mem.
Defined.

(** What [main] leaves of the constant is negative, so its destructor reads static
    0, which is dropped before it; and with the priorities exchanged. *)
Definition demo_end : program Z :=
  Program {[ 0%nat := StaticC (Some 1) (static_info (demo_drops 10 20) (Initializer 0 9 [] (λ _, 1))) 1;
             2%nat := StaticC (Some (-1)) (const_info (demo_drops 10 20) 2) 1 ]} i32_MIN i32_MIN.

Lemma shutdown_checks_order_witness :
  (shutdown demo_reads (demo_drops 10 20).*1 demo_end = Panicked ∧
     ¬ drop_sequenced (demo_drops 10 20) demo_reads demo_end) ∨
  (drop_sequenced (demo_drops 10 20) demo_reads demo_end ∧
     ∃ s', shutdown demo_reads (demo_drops 10 20).*1 demo_end = Returned s' ∧
     ∀ n, n ∈ (demo_drops 10 20).*1 → ∃ im, statics s' !! n = Some (StaticC None im 2)).
Proof.
  apply (shutdown_checks_order demo_reads (demo_drops 10 20) [0%nat; 2%nat] demo_end).
  - split; [reflexivity..|]. intros n [-> | ->%list_elem_of_singleton]%elem_of_cons.
    + exists 1, (static_info (demo_drops 10 20) (Initializer 0 9 [] (λ _, 1))).
      split; [reflexivity|]. split; [reflexivity|]. intros p [= <-]. unfold i32_MIN. simpl. lia.
    + exists (-1), (const_info (demo_drops 10 20) 2). split; [reflexivity|]. split; [reflexivity|]. discriminate.
  - repeat constructor; simpl; lia.
  - by apply (bool_decide_unpack _).
  - exact demo_priorities.
  - intros n Hn. exact Hn.
  - intros n v m _. unfold demo_reads. destruct (v <? 0); simpl; intros Hm; [list_mem|by apply elem_of_nil in Hm].
Defined.

Lemma release_refines_debug_witness :
  match life demo_reads (demo_inits 9 4) [Look 1; Change 2 (λ v, v - 4)] [0%nat; 2%nat] demo_linked with
  | Returned s' => life demo_reads (demo_inits 9 4) [Look 1; Change 2 (λ v, v - 4)] [0%nat; 2%nat] (erase demo_linked)
                   = Returned (erase s')
  | _ => False
  end.
Proof.
  destruct (life demo_reads (demo_inits 9 4) [Look 1; Change 2 (λ v, v - 4)] [0%nat; 2%nat] demo_linked) as [s'| | | |] eqn:E;
    [|vm_compute in E; discriminate..].
  exact (release_refines_debug demo_reads (demo_inits 9 4) [Look 1; Change 2 (λ v, v - 4)] [0%nat; 2%nat] demo_linked s' E).
Defined.
