(* ===== verification/Macro.v ===== *)
(** * The attribute macros (static_init_macro/src/lib.rs)

    What the procedural macros decide: the sections that order constructors and
    destructors, the options of the attribute [dynamic], the type and the
    constructor they give to a static. The syntax trees of the crate [syn] are
    modelled as far as the macros look into them; the tokens that are produced
    around these decisions are not. *)

From stdpp Require Import base list option numbers strings sorting.
From Stdlib Require Import Ascii.
From S2P Require Import Prelude Word Phase Sequentializer Policy Lazy.
Open Scope Z_scope.
Open Scope string_scope.

(** The build configuration of the macro crate. *)
Record cfg := Cfg {
  elf : bool;
  mach_o : bool;
  coff : bool;
  constructor_destructor : bool;
  support_priority : bool;
}.

(** ** Sections *)

(** [format!("{:05}", n)] for a number of at most five digits. *)
Fixpoint digits (k : nat) (n : Z) : string :=
  match k with
  | O => ""
  | S k => String (ascii_of_nat (Z.to_nat (48 + (n `div` 10 ^ Z.of_nat k) `mod` 10))) (digits k n)
  end.

Inductive section_error := PriorityNotSupported | NoSupport.

Definition init_section (c : cfg) (priority : Z) : result string section_error :=
  if elf c then Ok (".init_array." +:+ digits 5 (65535 - priority))
  else if mach_o c then
    if negb (Z.eqb priority 0) then Err PriorityNotSupported else Ok "__DATA,__mod_init_func"
  else if coff c then Ok (".CRT$XCU" +:+ digits 5 (65535 - priority))
  else Err NoSupport.

Definition fini_section (c : cfg) (priority : Z) : result string section_error :=
  if elf c then Ok (".fini_array." +:+ digits 5 (65535 - priority))
  else if mach_o c then
    if negb (Z.eqb priority 0) then Err PriorityNotSupported else Ok "__DATA,__mod_term_func"
  else if coff c then Ok (".CRT$XPTZ" +:+ digits 5 (65535 - priority))
  else Err NoSupport.

(** A literal; [base10_parse::<u16>] refuses what does not fit. *)
Inductive lit := LInt (n : Z) | LOther.

Definition parse_priority_literal (l : lit) : result Z unit :=
  match l with
  | LInt n => if Z.leb 0 n && Z.leb n 65535 then Ok n else Err tt
  | LOther => Err tt
  end.

(** The tokens of the arguments of [constructor] and [destructor]. *)
Inductive priority_args := NoArgs | ArgIdent (n : string) | ArgLit (l : lit).

Definition parse_priority (args : priority_args) : result Z unit :=
  match args with
  | NoArgs => Ok 0
  | ArgIdent n =>
      if String.eqb n "__lazy_init" then Ok 1
      else if String.eqb n "__lazy_init_finished" then Ok 0
      else Err tt
  | ArgLit l => parse_priority_literal l
  end.

(** ** The options of [dynamic] *)

Inductive init_mode := IConst | ILazy | ILesserLazy | IDynamic (priority : Z).
Inductive drop_mode := DNone | DDrop | DFinalize | DDynamic (priority : Z).
#[export] Instance init_mode_eq_dec : EqDecision init_mode.
Proof. solve_decision. Defined.
#[export] Instance drop_mode_eq_dec : EqDecision drop_mode.
Proof. solve_decision. Defined.

Record tolerance := ToleranceC { init_fail : bool; registration_fail : bool }.

Record dyn_mode := DynMode {
  dm_init : init_mode;
  dm_drop : drop_mode;
  dm_tolerance : tolerance;
  dm_priming : bool;
}.

(** [NestedMeta]; a path of several segments has no identifier. *)
Inductive nested_meta :=
| MPath (id : option string)
| MNameValue (id : option string) (l : lit)
| MLit (l : lit)
| MOther.

Inductive dyn_error :=
| InitAlready | DropAlready | Unexpected | DropUnsupported | FinalizeUnsupported | BadPriority
| UselessTolerateLeak | OnlyLazyPrimed | LazyDropMode | UselessTryInitOnce | RawTolerateLeak
| RawFinalize.

(** The options read so far and the flags [init_set] and [drop_set]. *)
Record dyn_state := DynState { opt : dyn_mode; init_set : bool; drop_set : bool }.

Definition default_options : dyn_mode := DynMode ILesserLazy DNone (ToleranceC true false) false.

Definition set_init (m : init_mode) (s : dyn_state) : result dyn_state dyn_error :=
  if init_set s then Err InitAlready
  else Ok (DynState (DynMode m (dm_drop (opt s)) (dm_tolerance (opt s)) (dm_priming (opt s)))
             true (drop_set s)).

Definition set_drop (m : drop_mode) (s : dyn_state) : result dyn_state dyn_error :=
  if drop_set s then Err DropAlready
  else Ok (DynState (DynMode (dm_init (opt s)) m (dm_tolerance (opt s)) (dm_priming (opt s)))
             (init_set s) true).

(** A literal is parsed once the check that the mode is not set has passed. *)
Definition with_priority (l : lit) (f : Z → result dyn_state dyn_error) : result dyn_state dyn_error :=
  match parse_priority_literal l with
  | Ok p => f p
  | Err _ => Err BadPriority
  end.

Definition parse_arg (c : cfg) (s : dyn_state) (arg : nested_meta) : result dyn_state dyn_error :=
  let o := opt s in
  match arg with
  | MPath None => Err Unexpected
  | MPath (Some id) =>
      if String.eqb id "init" then set_init (IDynamic 0) s
      else if String.eqb id "drop" then
        if negb (constructor_destructor c) then Err DropUnsupported else set_drop DDrop s
      else if String.eqb id "finalize" then
        if negb (constructor_destructor c) then Err FinalizeUnsupported else set_drop DFinalize s
      else if String.eqb id "lazy" then set_init ILazy s
      else if String.eqb id "lesser_lazy" then set_init ILesserLazy s
      else if String.eqb id "try_init_once" then
        Ok (DynState (DynMode (dm_init o) (dm_drop o)
              (ToleranceC false (registration_fail (dm_tolerance o))) (dm_priming o))
              (init_set s) (drop_set s))
      else if String.eqb id "tolerate_leak" then
        Ok (DynState (DynMode (dm_init o) (dm_drop o)
              (ToleranceC (init_fail (dm_tolerance o)) true) (dm_priming o))
              (init_set s) (drop_set s))
      else if String.eqb id "prime" then
        Ok (DynState (DynMode (dm_init o) (dm_drop o) (dm_tolerance o) true) (init_set s) (drop_set s))
      else Err Unexpected
  | MNameValue None _ => Err Unexpected
  | MNameValue (Some id) l =>
      if String.eqb id "init" then
        if init_set s then Err InitAlready else with_priority l (λ p, set_init (IDynamic p) s)
      else if String.eqb id "drop" then
        if drop_set s then Err DropAlready else with_priority l (λ p, set_drop (DDynamic p) s)
      else if String.eqb id "drop_only" then
        if init_set s then Err InitAlready else if drop_set s then Err DropAlready
        else with_priority l (λ p, and_then (set_init IConst s) (set_drop (DDynamic p)))
      else Err Unexpected
  | MLit l => if init_set s then Err InitAlready else with_priority l (λ p, set_init (IDynamic p) s)
  | MOther => Err Unexpected
  end.

Fixpoint parse_args (c : cfg) (s : dyn_state) (args : list nested_meta) : result dyn_state dyn_error :=
  match args with
  | [] => Ok s
  | arg :: args => and_then (parse_arg c s arg) (λ s, parse_args c s args)
  end.

Definition is_lazy (m : init_mode) : bool := bool_decide (m = ILazy ∨ m = ILesserLazy).

(** What follows the loop over the arguments. *)
Definition finish_options (c : cfg) (o : dyn_mode) : result dyn_mode dyn_error :=
  let o :=
    if bool_decide (dm_init o = ILesserLazy) && negb (constructor_destructor c)
    then DynMode ILazy (dm_drop o) (dm_tolerance o) (dm_priming o) else o in
  if bool_decide (dm_drop o = DNone) && registration_fail (dm_tolerance o) then Err UselessTolerateLeak
  else if dm_priming o && negb (is_lazy (dm_init o)) then Err OnlyLazyPrimed
  else if is_lazy (dm_init o)
            && negb (bool_decide (dm_drop o = DNone ∨ dm_drop o = DFinalize ∨ dm_drop o = DDrop))
  then Err LazyDropMode
  else
    match dm_init o with
    | IDynamic p =>
        if negb (init_fail (dm_tolerance o)) then Err UselessTryInitOnce
        else if registration_fail (dm_tolerance o) then Err RawTolerateLeak
        else
          match dm_drop o with
          | DDrop => Ok (DynMode (dm_init o) (DDynamic p) (dm_tolerance o) (dm_priming o))
          | DFinalize => Err RawFinalize
          | _ => Ok o
          end
    | _ => Ok o
    end.

Definition parse_dyn_options (c : cfg) (args : list nested_meta) : result dyn_mode dyn_error :=
  and_then (parse_args c (DynState default_options false false) args)
    (λ s, finish_options c (opt s)).

(** ** The type of the static *)

(** The attributes of the static, each the segments of its path. *)
Definition has_thread_local (attrs : list (list string)) : bool :=
  existsb (existsb (String.eqb "thread_local")) attrs.

Inductive static_type := TConstStatic | TStatic | TLazy (t : lazy_type).

Inductive gen_error :=
| ThreadLocalNotLazy | PrimedNotMut | DropedNotMut | NoMatch | NotInit | TwoArms | BadPattern | Repeated.

(** [if stat.mutability.is_none() { Err } else { into_immutable!(); t }] *)
Definition primed_type (mut : bool) (t : lazy_type) : result static_type gen_error :=
  if negb mut then Err PrimedNotMut else Ok (TLazy t).
Definition droped_type (mut : bool) (t : lazy_type) : result static_type gen_error :=
  if negb mut then Err DropedNotMut else Ok (TLazy t).
(** [if stat.mutability.is_none() { t } else { into_immutable!(); locked }] *)
Definition either_type (mut : bool) (t locked : lazy_type) : result static_type gen_error :=
  Ok (TLazy (if negb mut then t else locked)).

Definition choose_type (is_thread_local mut : bool) (o : dyn_mode) : result static_type gen_error :=
  let lazy := bool_decide (dm_init o = ILazy) in
  let lesser := bool_decide (dm_init o = ILesserLazy) in
  let none := bool_decide (dm_drop o = DNone) in
  let drops := bool_decide (dm_drop o = DDrop) in
  let finalizes := bool_decide (dm_drop o = DFinalize) in
  if is_thread_local && negb (is_lazy (dm_init o)) then Err ThreadLocalNotLazy
  else if negb (is_lazy (dm_init o)) then Ok (if negb mut then TConstStatic else TStatic)
  else if is_thread_local && dm_priming o && none then primed_type mut UnSyncPrimedLockedLazy
  else if is_thread_local && dm_priming o then primed_type mut UnSyncPrimedLockedLazyDroped
  else if dm_priming o && lazy && none then primed_type mut PrimedLockedLazy
  else if dm_priming o && lesser && none then primed_type mut PrimedLesserLockedLazy
  else if dm_priming o && lazy then primed_type mut PrimedLockedLazyDroped
  else if dm_priming o && lesser then primed_type mut PrimedLesserLockedLazyDroped
  else if is_thread_local && finalizes then either_type mut UnSyncLazyFinalize UnSyncLockedLazyFinalize
  else if is_thread_local && drops then either_type mut UnSyncLazyDroped UnSyncLockedLazyDroped
  else if is_thread_local then either_type mut UnSyncLazy UnSyncLockedLazy
  else if finalizes && lesser then either_type mut LesserLazyFinalize LesserLockedLazyFinalize
  else if finalizes && lazy then either_type mut LazyFinalize LockedLazyFinalize
  else if drops && lazy then droped_type mut LockedLazyDroped
  else if drops && lesser then droped_type mut LesserLockedLazyDroped
  else if lesser then either_type mut LesserLazy LesserLockedLazy
  else either_type mut Lazy LockedLazy.

(** The arguments of the attributes [constructor] and [destructor] of the
    functions that are generated beside the static. *)
Definition initer (c : cfg) (is_thread_local : bool) (o : dyn_mode) : option priority_args :=
  match dm_init o with
  | IDynamic p => Some (ArgLit (LInt p))
  | ILesserLazy =>
      if negb is_thread_local && support_priority c then Some (ArgIdent "__lazy_init") else None
  | IConst | ILazy => None
  end.

Definition droper (o : dyn_mode) : option priority_args :=
  match dm_drop o with
  | DDynamic p => Some (ArgLit (LInt p))
  | _ => None
  end.

(** The constants of the generator's [GeneratorTolerance]. *)
Definition generator_tolerance (o : dyn_mode) : GeneratorTolerance :=
  Tolerance (init_fail (dm_tolerance o)) (registration_fail (dm_tolerance o)).

(** ** The expression of a primed static *)

Inductive scrutinee := SPath (segments : list string) | SOther.
(** [plain]: without [ref], [mut] or subpattern. *)
Inductive pat := PIdent (id : string) (plain : bool) | POther.
Inductive expr (E : Type) := EMatch (s : scrutinee) (arms : list (pat * E)) | EOther.
Arguments EMatch {E} s arms.
Arguments EOther {E}.

Section prime.
Context {E : Type}.

(** The loop over the arms, with [expr] and [prime_expr]. *)
Fixpoint parse_arms (arms : list (pat * E)) (dyn prime : option E) : result (option E * option E) gen_error :=
  match arms with
  | [] => Ok (dyn, prime)
  | (PIdent id true, body) :: arms =>
      if String.eqb id "PRIME" && bool_decide (prime = None) then parse_arms arms dyn (Some body)
      else if String.eqb id "DYN" && bool_decide (dyn = None) then parse_arms arms (Some body) prime
      else Err Repeated
  | _ :: _ => Err BadPattern
  end.

(** [!p.path.segments.len() == 1 && first == "INIT"]: the complement of a
    [usize]. *)
Definition refuses_scrutinee (segments : list string) : bool :=
  Z.eqb (2 ^ 64 - 1 - Z.of_nat (length segments)) 1 && bool_decide (head segments = Some "INIT").

(** The pair of the expressions, [None] where [expr.unwrap()] would panic. *)
Definition parse_prime (e : expr E) : result (option E * option E) gen_error :=
  match e with
  | EMatch (SPath segments) arms =>
      if refuses_scrutinee segments then Err NotInit
      else if negb (Nat.eqb (length arms) 2) then Err TwoArms
      else parse_arms arms None None
  | EMatch SOther _ => Err NotInit
  | EOther => Err NoMatch
  end.
End prime.

(** ** Sections and priorities *)

Lemma digit_compare x y :
  0 <= x < 10 → 0 <= y < 10 →
  Ascii.compare (ascii_of_nat (Z.to_nat (48 + x))) (ascii_of_nat (Z.to_nat (48 + y))) = Z.compare x y.
Proof.
  intros Hx Hy.
  assert (∀ x y : Z, x ∈ seqZ 0 10 → y ∈ seqZ 0 10 →
    Ascii.compare (ascii_of_nat (Z.to_nat (48 + x))) (ascii_of_nat (Z.to_nat (48 + y))) = Z.compare x y) as H.
  { assert (Forall (λ x : Z, Forall (λ y : Z,
      Ascii.compare (ascii_of_nat (Z.to_nat (48 + x))) (ascii_of_nat (Z.to_nat (48 + y))) = Z.compare x y)
      (seqZ 0 10)) (seqZ 0 10)) as Hall by (repeat constructor).
    intros x' y' Hx' Hy'. rewrite Forall_forall in Hall. specialize (Hall x' Hx'). simpl in Hall.
    rewrite Forall_forall in Hall. by apply Hall. }
  apply H; apply elem_of_seqZ; lia.
Qed.

(** Numerals of one width are ordered as strings as they are as numbers. *)
Lemma digits_compare k a b :
  0 <= a → 0 <= b →
  String.compare (digits k a) (digits k b) =
  Z.compare (a `mod` 10 ^ Z.of_nat k) (b `mod` 10 ^ Z.of_nat k).
Proof.
  intros Ha Hb. induction k as [|k IH]; [by rewrite !Z.mod_1_r|]. cbn [digits String.compare].
  set (T := 10 ^ Z.of_nat k) in *. assert (0 < T) as HT by (apply Z.pow_pos_nonneg; lia).
  rewrite digit_compare by (apply Z.mod_pos_bound; lia).
  replace (10 ^ Z.of_nat (S k)) with (T * 10) by (rewrite Nat2Z.inj_succ, Z.pow_succ_r by lia; unfold T; lia).
  rewrite !Z.rem_mul_r by lia. rewrite IH.
  pose proof (Z.mod_pos_bound a T HT). pose proof (Z.mod_pos_bound b T HT).
  destruct (Z.compare_spec ((a `div` T) `mod` 10) ((b `div` T) `mod` 10)) as [->|Hlt|Hgt].
  - destruct (Z.compare_spec (a `mod` T) (b `mod` T)); symmetry;
      rewrite ?Z.compare_eq_iff, ?Z.compare_lt_iff, ?Z.compare_gt_iff; lia.
  - symmetry. rewrite Z.compare_lt_iff. nia.
  - symmetry. rewrite Z.compare_gt_iff. nia.
Qed.

Lemma compare_prefix s a b : String.compare (s +:+ a) (s +:+ b) = String.compare a b.
Proof.
  induction s as [|c s IH]; [done|].
  change (match Ascii.compare c c with Eq => String.compare (s +:+ a) (s +:+ b) | r => r end =
          String.compare a b).
  assert (Ascii.compare c c = Eq) as -> by (unfold Ascii.compare; apply N.compare_refl). exact IH.
Qed.

(** The names of the sections order the functions by their priorities: of two
    constructors, or two destructors, of one program the one with the greater
    priority is in the section whose name comes first, and equal priorities
    share a section. In particular the initialisation of a quasi-lazy comes
    before the constructor that sets the hint. *)
Theorem section_order c p q :
  elf c = true ∨ mach_o c = false ∧ coff c = true → 0 <= p <= 65535 → 0 <= q <= 65535 →
  (∃ sp sq, init_section c p = Ok sp ∧ init_section c q = Ok sq ∧ String.compare sp sq = Z.compare q p) ∧
  (∃ sp sq, fini_section c p = Ok sp ∧ fini_section c q = Ok sq ∧ String.compare sp sq = Z.compare q p) ∧
  (∃ pi ph si sh, parse_priority (ArgIdent "__lazy_init") = Ok pi ∧
     parse_priority (ArgIdent "__lazy_init_finished") = Ok ph ∧
     init_section c pi = Ok si ∧ init_section c ph = Ok sh ∧ String.compare si sh = Lt).
Proof.
  intros Hc Hp Hq.
  assert (∀ p q, 0 <= p <= 65535 → 0 <= q <= 65535 →
    String.compare (digits 5 (65535 - p)) (digits 5 (65535 - q)) = Z.compare q p) as Hd.
  { clear. intros p q Hp Hq. rewrite digits_compare by lia. rewrite !Z.mod_small by (simpl; lia).
    destruct (Z.compare_spec q p); rewrite ?Z.compare_eq_iff, ?Z.compare_lt_iff, ?Z.compare_gt_iff; lia. }
  unfold init_section, fini_section.
  destruct Hc as [-> | [-> ->]].
  - split_and!; [eexists _, _..|eexists _, _, _, _]; (split_and!; [done..|]);
      rewrite compare_prefix; [by apply Hd..|reflexivity].
  - destruct (elf c); (split_and!; [eexists _, _..|eexists _, _, _, _]; (split_and!; [done..|]);
      rewrite compare_prefix; [by apply Hd..|reflexivity]).
Qed.

(** ** Primed expressions *)

(** C33: the expression of a primed static is accepted exactly when it is a match
    on a path with two plain arms, [DYN] and [PRIME] in either order, and then
    it is split into the two bodies. The path that is matched is not checked,
    although the message says that it must be [INIT]. *)
Theorem parse_prime_spec {E} (e : expr E) (dyn prime : option E) :
  (∀ segments arms, e = EMatch (SPath segments) arms → Z.of_nat (length segments) < 2 ^ 32) →
  parse_prime e = Ok (dyn, prime) ↔
  ∃ segments d p, dyn = Some d ∧ prime = Some p ∧
    (e = EMatch (SPath segments) [(PIdent "DYN" true, d); (PIdent "PRIME" true, p)] ∨
     e = EMatch (SPath segments) [(PIdent "PRIME" true, p); (PIdent "DYN" true, d)]).
Proof.
  intros Hlen.
  assert (∀ segments, (Z.of_nat (length segments) < 2 ^ 32)%Z → refuses_scrutinee segments = false) as Hscr.
  { intros segments Hs. unfold refuses_scrutinee.
    rewrite (proj2 (Z.eqb_neq _ 1)); [done|]. lia. }
  split.
  - destruct e as [[segments|] arms|]; [|done..]. simpl.
    rewrite Hscr by (by eapply Hlen). destruct arms as [|[p1 b1] [|[p2 b2] [|]]]; try done. cbn.
    destruct p1 as [i1 [|]|]; [|done..]. destruct p2 as [i2 [|]|];
      [|by destruct (String.eqb i1 "PRIME" && _); [|destruct (String.eqb i1 "DYN" && _)]..].
    destruct (String.eqb_spec i1 "PRIME") as [->|]; cbn.
    + destruct (String.eqb_spec i2 "PRIME") as [->|]; cbn; [done|].
      destruct (String.eqb_spec i2 "DYN") as [->|]; cbn; [|done].
      intros [= <- <-]. exists segments, b2, b1. auto.
    + destruct (String.eqb_spec i1 "DYN") as [->|]; cbn; [|done].
      destruct (String.eqb_spec i2 "PRIME") as [->|]; cbn.
      * intros [= <- <-]. exists segments, b1, b2. auto.
      * by destruct (String.eqb_spec i2 "DYN") as [->|].
  - intros (segments & d & p & -> & -> & [-> | ->]); simpl; by rewrite Hscr by (by eapply Hlen).
Qed.

(** ** Options *)

(** The invariant of the loop over the arguments. *)
Record dyn_inv (c : cfg) (s : dyn_state) : Prop := {
  di_const : dm_init (opt s) = IConst → drop_set s = true ∧ ∃ p, dm_drop (opt s) = DDynamic p;
  di_init : init_set s = false → dm_init (opt s) = ILesserLazy;
  di_drop : drop_set s = false → dm_drop (opt s) = DNone;
  di_supported : dm_drop (opt s) = DDrop ∨ dm_drop (opt s) = DFinalize → constructor_destructor c = true;
  di_init_range p : dm_init (opt s) = IDynamic p → 0 <= p <= 65535;
  di_drop_range p : dm_drop (opt s) = DDynamic p → 0 <= p <= 65535;
}.

Lemma priority_range l p : parse_priority_literal l = Ok p → 0 <= p <= 65535.
Proof.
  destruct l as [n|]; simpl; [|done].
  destruct (Z.leb_spec 0 n), (Z.leb_spec n 65535); simpl; try done. intros [= <-]. lia.
Qed.

Lemma with_priority_ok l f s :
  with_priority l f = Ok s → ∃ p, 0 <= p <= 65535 ∧ f p = Ok s.
Proof.
  unfold with_priority. destruct (parse_priority_literal l) as [p|] eqn:E; [|done].
  apply priority_range in E. eauto.
Qed.

Lemma set_init_inv c m s s' :
  dyn_inv c s → m ≠ IConst → (∀ p, m = IDynamic p → 0 <= p <= 65535) → set_init m s = Ok s' → dyn_inv c s'.
Proof.
  intros [] Hm Hp. unfold set_init. destruct (init_set s); [done|]. intros [= <-]. by split.
Qed.

Lemma set_drop_inv c m s s' :
  dyn_inv c s → (m = DDrop ∨ m = DFinalize → constructor_destructor c = true) →
  (∀ p, m = DDynamic p → 0 <= p <= 65535) → set_drop m s = Ok s' → dyn_inv c s'.
Proof.
  intros [] Hm Hp. unfold set_drop. destruct (drop_set s) eqn:Ed; [done|]. intros [= <-]. split; simpl; try done.
  intros H. by destruct (di_const0 H).
Qed.

Lemma parse_arg_inv c s a s' : dyn_inv c s → parse_arg c s a = Ok s' → dyn_inv c s'.
Proof.
  intros Hs. destruct a as [[id|]|[id|] l|l|]; simpl; try done.
  - repeat case_match; try done; intros H'; try (injection H' as <-; destruct Hs; by split).
    + apply (set_init_inv _ _ _ _ Hs) in H'; [done..|]. intros p [= <-]. lia.
    + apply (set_drop_inv _ _ _ _ Hs) in H'; [done| |done]. intros _. by apply negb_false_iff.
    + apply (set_drop_inv _ _ _ _ Hs) in H'; [done| |done]. intros _. by apply negb_false_iff.
    + by apply (set_init_inv _ _ _ _ Hs) in H'.
    + by apply (set_init_inv _ _ _ _ Hs) in H'.
  - repeat case_match; try done; intros (p & Hp & H')%with_priority_ok.
    + apply (set_init_inv _ _ _ _ Hs) in H'; [done..|]. by intros p' [= <-].
    + apply (set_drop_inv _ _ _ _ Hs) in H'; [done|by intros [|]|by intros p' [= <-]].
    + revert H'. unfold set_init. destruct (init_set s) eqn:Ei; [done|]. cbn [and_then].
      unfold set_drop. cbn. destruct (drop_set s) eqn:Ed; [done|]. intros [= <-].
      destruct Hs. split; simpl; try done; [by split; [|exists p]|by intros [|]|by intros p' [= <-]].
  - repeat case_match; try done; intros (p & Hp & H')%with_priority_ok.
    apply (set_init_inv _ _ _ _ Hs) in H'; [done..|]. by intros p' [= <-].
Qed.

Lemma parse_args_inv c args s s' : dyn_inv c s → parse_args c s args = Ok s' → dyn_inv c s'.
Proof.
  revert s. induction args as [|a args IH]; intros s Hs; simpl; [by intros [= <-]|].
  destruct (parse_arg c s a) as [s1|] eqn:E; [|done]. simpl. apply IH. by eapply parse_arg_inv.
Qed.

Lemma start_dyn_inv c : dyn_inv c (DynState default_options false false).
Proof. split; simpl; try done. by intros [|]. Qed.

(** The combinations of options that the rest of the macro may rely on. *)
Record options_wf (c : cfg) (o : dyn_mode) : Prop := {
  wf_lesser : dm_init o = ILesserLazy → constructor_destructor c = true;
  wf_priming : dm_priming o = true → is_lazy (dm_init o) = true;
  wf_lazy : is_lazy (dm_init o) = true → dm_drop o = DNone ∨ dm_drop o = DDrop ∨ dm_drop o = DFinalize;
  wf_supported : dm_drop o = DDrop ∨ dm_drop o = DFinalize → constructor_destructor c = true;
  wf_raw p : dm_init o = IDynamic p → 0 <= p <= 65535 ∧ dm_tolerance o = ToleranceC true false;
  wf_raw_drop : is_lazy (dm_init o) = false → dm_drop o = DNone ∨ ∃ p, dm_drop o = DDynamic p ∧ 0 <= p <= 65535;
  wf_const : dm_init o = IConst → dm_drop o ≠ DNone;
  wf_leak : registration_fail (dm_tolerance o) = true → dm_drop o ≠ DNone;
}.

Lemma parse_dyn_options_wf c args o : parse_dyn_options c args = Ok o → options_wf c o.
Proof.
  unfold parse_dyn_options. destruct (parse_args _ _ _) as [s|] eqn:E; [|done]. cbn [and_then].
  apply parse_args_inv in E as [Hconst _ _ Hsup Hir Hdr]; [|apply start_dyn_inv].
  revert Hconst Hsup Hir Hdr. destruct (opt s) as [i d [tf tr] pr]. intros Hconst Hsup Hir Hdr.
  unfold finish_options. simpl in *.
  destruct c as [? ? ? ctor ?]; simpl in *.
  destruct i as [| | |p], d as [| | |q], tf, tr, pr, ctor; simpl; try done; intros [= <-];
    split; simpl; try done; try (by auto); try (by intros [|]); try (by intros ? [= <-]; auto);
    try (by destruct (Hconst eq_refl) as (_ & ? & ?)); try (by intros _; right; eexists; eauto);
    try (by discriminate (Hsup (or_introl eq_refl))); try (by discriminate (Hsup (or_intror eq_refl))).
Qed.

(** Arguments for given options. *)
Definition init_args (i : init_mode) (d : drop_mode) : list nested_meta :=
  match i, d with
  | IConst, DDynamic q => [MNameValue (Some "drop_only") (LInt q)]
  | IConst, _ => []
  | ILazy, _ => [MPath (Some "lazy")]
  | ILesserLazy, _ => [MPath (Some "lesser_lazy")]
  | IDynamic p, _ => [MLit (LInt p)]
  end.
Definition drop_args (i : init_mode) (d : drop_mode) : list nested_meta :=
  match i, d with
  | IConst, _ | _, DNone => []
  | _, DDrop => [MPath (Some "drop")]
  | _, DFinalize => [MPath (Some "finalize")]
  | _, DDynamic q => [MNameValue (Some "drop") (LInt q)]
  end.
Definition options_args (o : dyn_mode) : list nested_meta :=
  init_args (dm_init o) (dm_drop o) ++ drop_args (dm_init o) (dm_drop o) ++
  (if init_fail (dm_tolerance o) then [] else [MPath (Some "try_init_once")]) ++
  (if registration_fail (dm_tolerance o) then [MPath (Some "tolerate_leak")] else []) ++
  (if dm_priming o then [MPath (Some "prime")] else []).

Lemma options_args_accepted c o : options_wf c o → parse_dyn_options c (options_args o) = Ok o.
Proof.
  intros [Hls Hpr Hlz Hsup Hraw Hdrop Hconst Hleak]. destruct o as [i d [tf tr] pr]. simpl in *.
  assert (is_lazy i = false → pr = false) as Hprf by (destruct pr, i; try done; by discriminate (Hpr eq_refl)).
  destruct c as [? ? ? ctor ?]. simpl in *.
  assert (∀ p, 0 <= p <= 65535 → parse_priority_literal (LInt p) = Ok p) as Hlit.
  { intros p Hp. simpl. by rewrite !(proj2 (Z.leb_le _ _)) by lia. }
  destruct i as [| | |p].
  - destruct (Hdrop eq_refl) as [?|(q & -> & Hq)]; [by destruct (Hconst eq_refl)|]. rewrite Hprf by done.
    unfold parse_dyn_options, options_args. cbn -[parse_priority_literal]. unfold with_priority. rewrite Hlit by done.
    by destruct tf, tr.
  - destruct (Hlz eq_refl) as [-> | [-> | ->]];
      [destruct tr; [by destruct (Hleak eq_refl)|]|specialize (Hsup (or_introl eq_refl)); subst
      |specialize (Hsup (or_intror eq_refl)); subst]; by destruct tf, pr; try destruct tr.
  - specialize (Hls eq_refl). subst.
    destruct (Hlz eq_refl) as [-> | [-> | ->]];
      [destruct tr; [by destruct (Hleak eq_refl)|]|..]; by destruct tf, pr; try destruct tr.
  - destruct (Hraw p eq_refl) as [Hp [= -> ->]]. rewrite Hprf by done.
    unfold parse_dyn_options, options_args.
    destruct (Hdrop eq_refl) as [-> |(q & -> & Hq)]; cbn -[parse_priority_literal]; unfold with_priority;
      rewrite !Hlit by done; by cbn -[parse_priority_literal]; rewrite ?Hlit by done.
Qed.

(** C30: the options that are accepted are exactly the coherent ones: a static is
    primed only if it is lazy; a lazy one is dropped or finalised at exit or not at
    all, where the target supports it, a raw one at a priority or not at all, a
    constant one always; priorities fit 16 bits; a raw static has the default
    tolerances, and leaks are tolerated only of a static that is dropped. Nothing
    restrains the tolerances of a constant static, for which they mean nothing, nor
    the one of an initialisation that fails of a lazy static. *)
Theorem accepted_options_wf c o : (∃ args, parse_dyn_options c args = Ok o) ↔ options_wf c o.
Proof.
  split; [intros [args Hargs]; by eapply parse_dyn_options_wf|].
  intros Hwf. exists (options_args o). by apply options_args_accepted.
Qed.

(** What the table of the types says of the methods, the manager and the
    policy of a type. *)
Definition uses_guards (i : impl) : bool :=
  match impl_methods i with
  | MDeref | MDerefStatic | MDerefGlobal | MDerefThreadLocal => false
  | _ => true
  end.
Definition uses_hint (i : impl) : bool :=
  match impl_methods i with MDerefGlobal | MLockGlobal | MPrimedGlobal => true | _ => false end.
Definition finalised_at_exit (i : impl) : bool :=
  match impl_manager i with ExitSequentializer | ThreadExitSequentializer => true | _ => false end.
Definition checks_finalised (i : impl) : bool :=
  match impl_checker i with CHard | CHardLesser | CHardTL => true | _ => false end.

(** C25: the type given to a lazy static has what its declaration asked for: the
    unsynchronised locker exactly when the static is thread local, registration
    for exit exactly when it is dropped or finalised, guards exactly when it is
    [mut], primed storage exactly when it is primed, the shortcut by the global
    hint exactly when its initialisation is generated before [main]; and whenever
    its finalisation destroys the value, a policy that refuses the access then. *)
Theorem chosen_type_coherent c args o is_thread_local mut t :
  parse_dyn_options c args = Ok o → choose_type is_thread_local mut o = Ok (TLazy t) →
  let i := impl_of t in
  (impl_locker i = KUnSync ↔ is_thread_local = true) ∧
  (finalised_at_exit i = true ↔ dm_drop o ≠ DNone) ∧
  uses_guards i = mut ∧
  (impl_data i = KPrimed ↔ dm_priming o = true) ∧
  (uses_hint i = true → support_priority c = true → initer c is_thread_local o = Some (ArgIdent "__lazy_init")) ∧
  (initer c is_thread_local o = Some (ArgIdent "__lazy_init") → uses_hint i = true) ∧
  (finalised_at_exit i = true → impl_data i ≠ KUnInited → checks_finalised i = true).
Proof.
  intros Hwf%parse_dyn_options_wf. destruct Hwf as [_ Hpr Hlz _ _ _ _ _].
  destruct o as [m d tol pr], c as [? ? ? ? sp]. unfold choose_type, initer. simpl in *.
  assert (is_lazy m = true ∨ is_lazy m = false) as [Hm|Hm] by (destruct (is_lazy m); auto).
  - specialize (Hlz Hm). destruct m as [| | |p]; try done;
      (destruct Hlz as [-> | [-> | ->]]); destruct pr, is_thread_local, mut, sp; simpl;
      intros [= <-]; by split_and!.
  - rewrite Hm. destruct is_thread_local, mut; done.
Qed.

(** ** The order of the options *)

(** What an argument sets, when it is one. *)
Record effect := Effect {
  e_init : option init_mode;
  e_drop : option drop_mode;
  e_once : bool;
  e_leak : bool;
  e_prime : bool;
}.

Definition effect_of (c : cfg) (a : nested_meta) : option effect :=
  let init m := Some (Effect (Some m) None false false false) in
  let drop m := Some (Effect None (Some m) false false false) in
  let prio l (f : Z → option effect) :=
    match parse_priority_literal l with Ok p => f p | Err _ => None end in
  match a with
  | MPath (Some id) =>
      if String.eqb id "init" then init (IDynamic 0)
      else if String.eqb id "drop" then if constructor_destructor c then drop DDrop else None
      else if String.eqb id "finalize" then if constructor_destructor c then drop DFinalize else None
      else if String.eqb id "lazy" then init ILazy
      else if String.eqb id "lesser_lazy" then init ILesserLazy
      else if String.eqb id "try_init_once" then Some (Effect None None true false false)
      else if String.eqb id "tolerate_leak" then Some (Effect None None false true false)
      else if String.eqb id "prime" then Some (Effect None None false false true)
      else None
  | MNameValue (Some id) l =>
      if String.eqb id "init" then prio l (λ p, init (IDynamic p))
      else if String.eqb id "drop" then prio l (λ p, drop (DDynamic p))
      else if String.eqb id "drop_only" then
        prio l (λ p, Some (Effect (Some IConst) (Some (DDynamic p)) false false false))
      else None
  | MLit l => prio l (λ p, init (IDynamic p))
  | _ => None
  end.

Definition apply_effect (e : effect) (s : dyn_state) : dyn_state :=
  let o := opt s in
  DynState
    (DynMode (default (dm_init o) (e_init e)) (default (dm_drop o) (e_drop e))
       (ToleranceC (if e_once e then false else init_fail (dm_tolerance o))
          (if e_leak e then true else registration_fail (dm_tolerance o)))
       (if e_prime e then true else dm_priming o))
    (if e_init e is Some _ then true else init_set s)
    (if e_drop e is Some _ then true else drop_set s).

Definition effect_fits (e : effect) (s : dyn_state) : Prop :=
  (is_Some (e_init e) → init_set s = false) ∧ (is_Some (e_drop e) → drop_set s = false).

(** The code of an argument, in these terms. *)
Lemma parse_arg_effect c s a s' :
  parse_arg c s a = Ok s' ↔ ∃ e, effect_of c a = Some e ∧ effect_fits e s ∧ s' = apply_effect e s.
Proof.
  unfold effect_fits. destruct s as [[m d [tf tr] pr] ini drp].
  destruct a as [[id|]|[id|] l|l|]; simpl; unfold set_init, set_drop, with_priority; simpl;
    try (by split; [|intros (? & ? & _)]);
    repeat case_match; simpl; subst; split; try done;
    try (intros [= <-]; eexists; split; [done|]; split; [split; simpl; first [done|by intros [? ?]]|done]);
    try (by intros (? & [=] & _));
    (intros (e & [= <-] & [Hfi Hfd] & ->); simpl in Hfi, Hfd;
     try specialize (Hfi (mk_is_Some _ _ eq_refl)); try specialize (Hfd (mk_is_Some _ _ eq_refl)); done).
Qed.

Lemma apply_effect_comm e f s :
  (e_init e = None ∨ e_init f = None) → (e_drop e = None ∨ e_drop f = None) →
  apply_effect f (apply_effect e s) = apply_effect e (apply_effect f s).
Proof.
  destruct e as [ei ed [] [] []], f as [fi fd [] [] []]; intros [Hi|Hi] [Hd|Hd];
    simpl in Hi, Hd; subst; unfold apply_effect; simpl; by repeat case_match.
Qed.

(** Two arguments that are accepted one after the other are accepted in the
    other order, to the same effect. *)
Lemma parse_arg_swap c a b s s' :
  and_then (parse_arg c s a) (λ s, parse_arg c s b) = Ok s' →
  and_then (parse_arg c s b) (λ s, parse_arg c s a) = Ok s'.
Proof.
  destruct (parse_arg c s a) as [s1|] eqn:Ea; [|done]. cbn [and_then]. intros Eb.
  apply parse_arg_effect in Ea as (e & He & [Hei Hed] & ->).
  apply parse_arg_effect in Eb as (f & Hf & [Hfi Hfd] & ->).
  assert (e_init e = None ∨ e_init f = None) as Hi.
  { destruct (e_init e) eqn:E1, (e_init f) eqn:E2; auto. exfalso.
    assert (init_set (apply_effect e s) = false) as H by (apply Hfi; by eexists).
    unfold apply_effect in H. by rewrite E1 in H. }
  assert (e_drop e = None ∨ e_drop f = None) as Hd.
  { destruct (e_drop e) eqn:E1, (e_drop f) eqn:E2; auto. exfalso.
    assert (drop_set (apply_effect e s) = false) as H by (apply Hfd; by eexists).
    unfold apply_effect in H. by rewrite E1 in H. }
  assert (parse_arg c s b = Ok (apply_effect f s)) as ->.
  { apply parse_arg_effect. exists f. split_and!; [done| |done]. split.
    - intros H. specialize (Hfi H). revert Hfi. unfold apply_effect. simpl. by destruct (e_init e).
    - intros H. specialize (Hfd H). revert Hfd. unfold apply_effect. simpl. by destruct (e_drop e). }
  cbn [and_then]. apply parse_arg_effect. exists e. split_and!; [done| |by apply apply_effect_comm].
  split; intros H; unfold apply_effect; simpl.
  - destruct Hi as [Hi|Hi]; rewrite Hi in *; [by destruct H|by apply Hei].
  - destruct Hd as [Hd|Hd]; rewrite Hd in *; [by destruct H|by apply Hed].
Qed.

Lemma parse_args_permutation c args args' s s' :
  args ≡ₚ args' → parse_args c s args = Ok s' → parse_args c s args' = Ok s'.
Proof.
  intros Hp. revert s. induction Hp as [|a l l' _ IH|a b l|l1 l2 l3 _ IH1 _ IH2]; intros s; simpl; auto.
  - destruct (parse_arg c s a); [|done]. apply IH.
  - intros H. pose proof (parse_arg_swap c b a s) as Hs.
    destruct (parse_arg c s b) as [s1|]; [|done]. cbn [and_then] in *.
    destruct (parse_arg c s1 a) as [s2|]; [|done]. specialize (Hs s2 eq_refl).
    destruct (parse_arg c s a) as [s1'|]; [|done]. cbn [and_then] in *. by rewrite Hs.
Qed.

(** C31: the options of [dynamic] may be written in any order: a permutation of
    accepted arguments is accepted and means the same. *)
Theorem options_any_order c args args' o :
  args ≡ₚ args' → parse_dyn_options c args = Ok o → parse_dyn_options c args' = Ok o.
Proof.
  unfold parse_dyn_options. intros Hp.
  destruct (parse_args c _ args) as [s|] eqn:E; [|done].
  by rewrite (parse_args_permutation _ _ _ _ _ Hp E).
Qed.

(** ** Concrete declarations *)

Definition linux : cfg := Cfg true false false true true.

Lemma section_order_witness :
  ∃ sp sq, init_section linux 7 = Ok sp ∧ init_section linux 200 = Ok sq ∧ String.compare sp sq = Gt.
Proof.
  destruct (section_order linux 7 200 (or_introl eq_refl) ltac:(lia) ltac:(lia)) as [(sp & sq & H1 & H2 & H3) _].
  by exists sp, sq.
Defined.

Lemma parse_prime_spec_witness :
  parse_prime (EMatch (SPath ["FOO"]) [(PIdent "PRIME" true, 1%nat); (PIdent "DYN" true, 2%nat)])
  = Ok (Some 2%nat, Some 1%nat).
Proof.
  apply (parse_prime_spec (EMatch (SPath ["FOO"]) [(PIdent "PRIME" true, 1%nat); (PIdent "DYN" true, 2%nat)])
           (Some 2%nat) (Some 1%nat)).
  - intros segments arms [= <- _]. simpl. lia.
  - exists ["FOO"], 2%nat, 1%nat. auto.
Defined.

(** A constant static has no initialisation that could be tried, and no
    registration that could fail. *)
Example const_takes_tolerances :
  parse_dyn_options linux [MNameValue (Some "drop_only") (LInt 5); MPath (Some "try_init_once");
                           MPath (Some "tolerate_leak")]
  = Ok (DynMode IConst (DDynamic 5) (ToleranceC false true) false).
Proof. reflexivity. Qed.

Lemma chosen_type_coherent_witness :
  checks_finalised (impl_of LockedLazyDroped) = true.
Proof.
  apply (chosen_type_coherent linux [MPath (Some "drop"); MPath (Some "lazy")]
    (DynMode ILazy DDrop (ToleranceC true false) false) false true LockedLazyDroped);
    [reflexivity|reflexivity|reflexivity|discriminate].
Defined.

Lemma options_any_order_witness :
  parse_dyn_options linux [MPath (Some "prime"); MPath (Some "drop"); MPath (Some "lazy")]
  = Ok (DynMode ILazy DDrop (ToleranceC true false) true).
Proof.
  apply (options_any_order linux [MPath (Some "lazy"); MPath (Some "drop"); MPath (Some "prime")]);
    [|reflexivity].
  apply (Permutation_rev [MPath (Some "lazy"); MPath (Some "drop"); MPath (Some "prime")]).
Defined.
