(* ===== verification/Generate.v ===== *)
(** * What the attribute macros generate (static_init_macro/src/lib.rs)

    The items that [constructor], [destructor] and [dynamic] put in the place of
    the one they are attached to, as data: which type and which constant
    expression the static gets, which functions are generated beside it, with
    which attributes, and the implementation of the generator. The decisions they
    are made of are in [Macro]. A macro panics where it makes a name out of another
    one that is a raw identifier. *)

From stdpp Require Import base list option numbers strings.
From S2P Require Import Prelude Word Phase Sequentializer Policy Lazy RawStatic Macro.
Open Scope Z_scope.
Open Scope string_scope.

(** ** Identifiers

    An identifier of the program is raw, as in [r#type], or not; its text includes the
    prefix. The crate proc_macro2 says which strings [Ident::new] accepts, and panics
    on the others: legal variable names and keywords, but no raw identifiers. *)
Record ident := IdentC { is_raw : bool; sym : string }.
Definition display (i : ident) : string := if is_raw i then "r#" +:+ sym i else sym i.

Definition ascii_letter (a : Ascii.ascii) : bool :=
  let n := Ascii.nat_of_ascii a in
  Nat.leb 65 n && Nat.leb n 90 || Nat.leb 97 n && Nat.leb n 122 || Nat.eqb n 95.
Definition ascii_continue (a : Ascii.ascii) : bool :=
  let n := Ascii.nat_of_ascii a in ascii_letter a || Nat.leb 48 n && Nat.leb n 57.
Fixpoint all_chars (p : Ascii.ascii → bool) (s : string) : bool :=
  match s with
  | EmptyString => true
  | String a s => p a && all_chars p s
  end.
Definition ascii_name (s : string) : bool :=
  match s with
  | EmptyString => false
  | String a s => ascii_letter a && all_chars ascii_continue s
  end.

Class Idents := {
  legal : string → bool;
  legal_ascii s : ascii_name s = true → legal s = true;
  legal_append s t : legal s = true → legal t = true → legal (s +:+ t) = true;
  legal_raw s t : legal (s +:+ "r#" +:+ t) = false;
}.

(** The identifiers that the parser reads. *)
Definition ident_wf {ID : Idents} (i : ident) : Prop := legal (sym i) = true.

(** [Ident::new]; [None] is a panic. *)
Definition ident_new {ID : Idents} (s : string) : option ident := if legal s then Some (IdentC false s) else None.

Lemma ident_new_prefix {ID : Idents} p i :
  ascii_name p = true → ident_wf i →
  ident_new (p +:+ display i) = if is_raw i then None else Some (IdentC false (p +:+ sym i)).
Proof.
  intros Hp Hi. unfold ident_new, display. destruct (is_raw i); [by rewrite legal_raw|].
  by rewrite legal_append by auto using legal_ascii.
Qed.

(** The names of a program that is written in ASCII. *)
Lemma all_chars_append p s t : all_chars p (s +:+ t) = all_chars p s && all_chars p t.
Proof.
  induction s as [|a s IH]; [done|].
  change (p a && all_chars p (s +:+ t) = p a && all_chars p s && all_chars p t). by rewrite IH, andb_assoc.
Qed.
Lemma ascii_name_continue s : ascii_name s = true → all_chars ascii_continue s = true.
Proof.
  destruct s as [|a s]; [done|]. cbn [ascii_name all_chars].
  intros [Ha Hs]%andb_true_iff. unfold ascii_continue at 1. by rewrite Ha, Hs.
Qed.
Lemma ascii_name_append s t : ascii_name s = true → all_chars ascii_continue t = true → ascii_name (s +:+ t) = true.
Proof.
  destruct s as [|a s]; [done|]. intros [Ha Hs]%andb_true_iff Ht.
  change (ascii_letter a && all_chars ascii_continue (s +:+ t) = true). by rewrite all_chars_append, Ha, Hs.
Qed.

Definition ascii_idents : Idents.
Proof.
  refine {| legal := ascii_name |}; [done| |].
  - intros s t Hs Ht. by apply ascii_name_append, ascii_name_continue.
  - intros s t. destruct (ascii_name _) eqn:H; [|done]. apply ascii_name_continue in H.
    rewrite all_chars_append in H. apply andb_true_iff in H as [_ H]. discriminate H.
Defined.

(** ** Constructors and destructors *)

(** [extern "C" fn()] or the signature with the arguments of [main]. *)
Inductive func_type := FnUnit | FnMainArgs.

(** The static that [gen_ctor_dtor] puts beside the function: the linker places it
    in the section, and the loader calls what it points to. *)
Record func_ptr := FuncPtr {
  func_ptr_name : ident;
  link_section : string;
  ptr_type : func_type;
  func_name : ident;
}.

Inductive attr_error := BadArgs | BadSection (e : section_error).

Section attributes.
Context {ID : Idents}.

Definition gen_ctor_dtor (func : ident) (section func_ptr_name : string) (typ : func_type) : option func_ptr :=
  match ident_new func_ptr_name with
  | Some func_ptr_name => Some (FuncPtr func_ptr_name section typ func)
  | None => None
  end.

(** [gnu_unix] is [cfg!(target_env = "gnu") && cfg!(target_family = "unix")]. *)
Definition get_init_func_sig (gnu_unix : bool) (inputs : nat) : func_type :=
  if gnu_unix && negb (Nat.eqb inputs 0) then FnMainArgs else FnUnit.

(** The attributes; [None] is a panic of the macro. *)
Definition constructor (c : cfg) (gnu_unix : bool) (args : priority_args) (func : ident) (inputs : nat)
    : option (result func_ptr attr_error) :=
  match parse_priority args with
  | Err _ => Some (Err BadArgs)
  | Ok priority =>
      match init_section c priority with
      | Err e => Some (Err (BadSection e))
      | Ok section =>
          let func_ptr_name := "__static_init_constructor_" +:+ display func in
          Ok <$> gen_ctor_dtor func section func_ptr_name (get_init_func_sig gnu_unix inputs)
      end
  end.

Definition destructor (c : cfg) (args : priority_args) (func : ident) : option (result func_ptr attr_error) :=
  match parse_priority args with
  | Err _ => Some (Err BadArgs)
  | Ok priority =>
      match fini_section c priority with
      | Err e => Some (Err (BadSection e))
      | Ok section =>
          let func_ptr_name := "__static_init_destructor_" +:+ display func in
          Ok <$> gen_ctor_dtor func section func_ptr_name FnUnit
      end
  end.
End attributes.

(** ** Statics *)

Section dynamic.
Context {ID : Idents} {E : Type}.

(** [ItemStatic], as far as the macro looks into it. *)
Record item_static := ItemStatic {
  stat_name : ident;
  stat_attrs : list (list string);
  stat_mut : bool;
  stat_expr : expr E;
}.

(** The expression of the value: that of the static or the body of an arm. *)
Inductive value_expr := WholeExpr (e : expr E) | ArmBody (e : E).

(** [#stat_ref] *)
Inductive reference := RefMut (name : ident) | RefShared (name : ident).

(** The bodies of the generated functions. *)
Inductive generated_body :=
| SetTo (priority : Z) (r : reference) (e : value_expr) (* between two [__set_init_prio] *)
| InitLazy (r : reference)
| DropStatic (r : reference).

(** A generated function, with the arguments of its attribute [constructor] or
    [destructor]. *)
Record generated_fn := GeneratedFn {
  fn_attr : priority_args;
  fn_name : ident;
  fn_body : generated_body;
}.

(** The generator type of a lazy with its two implementations. *)
Record lazy_generator := LazyGenerator {
  generator_name : ident;
  generate : value_expr;
  constants : GeneratorTolerance;
}.

(** The call that makes the static's value at compile time. *)
Inductive const_init :=
| CallUninit (info : option StaticInfo)
| CallFromGeneratorWithInfo (prime : option value_expr) (generator : ident) (info : option StaticInfo)
| CallFromGenerator (prime : option value_expr) (generator : ident)
| CallFrom (e : value_expr) (info : option StaticInfo).

Record generated := Generated {
  g_type : static_type;
  g_mut : bool;
  g_init : const_init;
  g_initer : option generated_fn;
  g_droper : option generated_fn;
  g_generator : option lazy_generator;
}.

Definition stat_ref (o : dyn_mode) (name : ident) : reference :=
  if negb (is_lazy (dm_init o)) then RefMut name else RefShared name.

(** [into_mutable!] and [into_immutable!] where the type is chosen. *)
Definition new_mutability (t : static_type) (mut : bool) : bool :=
  match t with
  | TConstStatic => true
  | TStatic => mut
  | TLazy _ => if negb mut then mut else false
  end.

(** The names that the functions are written with. *)
Definition initializer_name : ident := IdentC false "__static_init_initializer".
Definition droper_name : ident := IdentC false "__static_init_droper".

Definition gen_initer (c : cfg) (is_thread_local : bool) (o : dyn_mode) (r : reference) (e : value_expr)
    : option generated_fn :=
  match dm_init o with
  | IDynamic p => Some (GeneratedFn (ArgLit (LInt p)) initializer_name (SetTo p r e))
  | ILesserLazy =>
      if negb is_thread_local && support_priority c
      then Some (GeneratedFn (ArgIdent "__lazy_init") initializer_name (InitLazy r))
      else None
  | IConst | ILazy => None
  end.

Definition gen_droper (o : dyn_mode) (r : reference) : option generated_fn :=
  match dm_drop o with
  | DDynamic p => Some (GeneratedFn (ArgLit (LInt p)) droper_name (DropStatic r))
  | _ => None
  end.

Definition init_priority (o : dyn_mode) : InitMode :=
  match dm_init o with
  | IDynamic n => ProgramConstructor n
  | ILazy => ModeLazy
  | ILesserLazy => ModeLesserLazy
  | IConst => ModeConst
  end.
Definition drop_priority (o : dyn_mode) : FinalyMode :=
  match dm_drop o with
  | DDynamic n => ProgramDestructor n
  | DFinalize => FinalyFinalize
  | DDrop => FinalyDrop
  | DNone => FinalyNone
  end.

Definition static_info (debug_mode : bool) (o : dyn_mode) : option StaticInfo :=
  if debug_mode then Some {| RawStatic.init_mode := init_priority o; RawStatic.drop_mode := drop_priority o |}
  else None.

Definition gen_const_init (debug_mode : bool) (o : dyn_mode) (generator : ident) (e : value_expr)
    (prime : option value_expr) : const_init :=
  let info := static_info debug_mode o in
  match dm_init o with
  | IDynamic _ => CallUninit info
  | ILazy | ILesserLazy =>
      if dm_priming o && debug_mode then CallFromGeneratorWithInfo prime generator info
      else if dm_priming o then CallFromGenerator prime generator
      else if debug_mode then CallFromGeneratorWithInfo None generator info
      else CallFromGenerator None generator
  | IConst => CallFrom e info
  end.

Definition gen_lazy_generator (o : dyn_mode) (name : ident) (e : value_expr) : option lazy_generator :=
  if is_lazy (dm_init o) then Some (LazyGenerator name e (generator_tolerance o)) else None.

(** The expressions of the value and of the primed one; [None] where
    [expr.unwrap()] would panic. *)
Definition split_expr (o : dyn_mode) (e : expr E) : option (result (value_expr * option value_expr) gen_error) :=
  if negb (dm_priming o) then Some (Ok (WholeExpr e, None))
  else
    match parse_prime e with
    | Err err => Some (Err err)
    | Ok (None, _) => None
    | Ok (Some dyn, prime) => Some (Ok (ArmBody dyn, ArmBody <$> prime))
    end.

Definition gen_dyn_init (c : cfg) (debug_mode : bool) (stat : item_static) (o : dyn_mode)
    : option (result generated gen_error) :=
  match ident_new ("__StaticInitGeneratorFor_" +:+ display (stat_name stat)) with
  | None => None
  | Some stat_generator_name =>
      let is_thread_local := has_thread_local (stat_attrs stat) in
      let r := stat_ref o (stat_name stat) in
      match choose_type is_thread_local (stat_mut stat) o with
      | Err err => Some (Err err)
      | Ok typ =>
          match split_expr o (stat_expr stat) with
          | None => None
          | Some (Err err) => Some (Err err)
          | Some (Ok (e, prime)) =>
              Some (Ok (Generated typ (new_mutability typ (stat_mut stat))
                (gen_const_init debug_mode o stat_generator_name e prime)
                (gen_initer c is_thread_local o r e) (gen_droper o r)
                (gen_lazy_generator o stat_generator_name e)))
          end
      end
  end.

Inductive dynamic_error := BadOptions (e : dyn_error) | BadStatic (e : gen_error).

(** The attribute [dynamic]; [None] is a panic of the macro. *)
Definition dynamic (c : cfg) (debug_mode : bool) (args : list nested_meta) (stat : item_static)
    : option (result generated dynamic_error) :=
  match parse_dyn_options c args with
  | Err e => Some (Err (BadOptions e))
  | Ok options =>
      match gen_dyn_init c debug_mode stat options with
      | None => None
      | Some (Err e) => Some (Err (BadStatic e))
      | Some (Ok g) => Some (Ok g)
      end
  end.
End dynamic.

(** ** Coherence of what is generated *)

Definition info_of {E} (i : @const_init E) : option StaticInfo :=
  match i with
  | CallUninit info | CallFromGeneratorWithInfo _ _ info | CallFrom _ info => info
  | CallFromGenerator _ _ => None
  end.

(** How a lazy's value is made: the primed expression and the generator. *)
Definition lazy_init {E} (i : @const_init E) : option (option (@value_expr E) * ident) :=
  match i with
  | CallFromGeneratorWithInfo prime g _ | CallFromGenerator prime g => Some (prime, g)
  | _ => None
  end.

(** A target on which the linker orders the constructors. *)
Definition ordered_target (c : cfg) : Prop := elf c = true ∨ mach_o c = false ∧ coff c = true.

(** What the rest of the crate relies on: for a raw static, that it is mutable,
    and that it starts without a value exactly when a constructor of the priority
    that its information states sets it; for a lazy one, that it is immutable,
    that it is made from its generator, with a primed value exactly when its type
    has primed storage, and that no destructor drops it; that the attributes of the
    generated functions are accepted. *)
Record generated_wf {ID : Idents} {E} (c : cfg) (debug : bool) (name : ident) (g : @generated E) : Prop := {
  gw_raw : g_type g = TConstStatic ∨ g_type g = TStatic →
    g_mut g = true ∧ g_generator g = None ∧
    ((∃ p e info, g_init g = CallUninit info ∧
        g_initer g = Some (GeneratedFn (ArgLit (LInt p)) initializer_name (SetTo p (RefMut name) e)) ∧
        (∀ i, info = Some i → RawStatic.init_mode i = ProgramConstructor p)) ∨
     (∃ e info, g_init g = CallFrom e info ∧ g_initer g = None ∧ is_Some (g_droper g) ∧
        (∀ i, info = Some i → RawStatic.init_mode i = ModeConst)));
  gw_lazy t : g_type g = TLazy t →
    g_mut g = false ∧ g_droper g = None ∧
    (∃ gen prime, g_generator g = Some gen ∧ lazy_init (g_init g) = Some (prime, generator_name gen) ∧
       (is_Some prime ↔ impl_data (impl_of t) = KPrimed)) ∧
    (∀ f, g_initer g = Some f → fn_body f = InitLazy (RefShared name));
  gw_info : is_Some (info_of (g_init g)) ↔ debug = true;
  gw_drop_info i q : info_of (g_init g) = Some i →
    RawStatic.drop_mode i = ProgramDestructor q ↔
    g_droper g = Some (GeneratedFn (ArgLit (LInt q)) droper_name (DropStatic (RefMut name)));
  gw_initer gnu f : ordered_target c → g_initer g = Some f →
    ∃ ptr, constructor c gnu (fn_attr f) (fn_name f) 0 = Some (Ok ptr) ∧ func_name ptr = fn_name f ∧ ptr_type ptr = FnUnit;
  gw_droper f : ordered_target c → g_droper g = Some f →
    ∃ ptr, destructor c (fn_attr f) (fn_name f) = Some (Ok ptr) ∧ func_name ptr = fn_name f ∧ ptr_type ptr = FnUnit;
}.

Lemma init_section_accepts c p : ordered_target c → ∃ s, init_section c p = Ok s.
Proof. unfold init_section. intros [-> | [-> ->]]; [by eexists|]. by destruct (elf c); eexists. Qed.
Lemma fini_section_accepts c p : ordered_target c → ∃ s, fini_section c p = Ok s.
Proof. unfold fini_section. intros [-> | [-> ->]]; [by eexists|]. by destruct (elf c); eexists. Qed.

Lemma priority_literal p : 0 <= p <= 65535 → parse_priority_literal (LInt p) = Ok p.
Proof. intros Hp. simpl. by rewrite !(proj2 (Z.leb_le _ _)) by lia. Qed.

Lemma constructor_accepts {ID : Idents} c gnu args p f :
  ordered_target c → parse_priority args = Ok p → ident_wf f → is_raw f = false →
  ∃ ptr, constructor c gnu args f 0 = Some (Ok ptr) ∧ func_name ptr = f ∧ ptr_type ptr = FnUnit.
Proof.
  intros Hc Hp Hf Hraw. unfold constructor, gen_ctor_dtor. rewrite Hp. destruct (init_section_accepts c p Hc) as [s ->].
  cbv zeta. rewrite ident_new_prefix, Hraw by done. eexists. split; [done|]. simpl.
  unfold get_init_func_sig. by rewrite andb_false_r.
Qed.

Lemma destructor_accepts {ID : Idents} c args p f :
  ordered_target c → parse_priority args = Ok p → ident_wf f → is_raw f = false →
  ∃ ptr, destructor c args f = Some (Ok ptr) ∧ func_name ptr = f ∧ ptr_type ptr = FnUnit.
Proof.
  intros Hc Hp Hf Hraw. unfold destructor, gen_ctor_dtor. rewrite Hp. destruct (fini_section_accepts c p Hc) as [s ->].
  cbv zeta. rewrite ident_new_prefix, Hraw by done. by eexists.
Qed.

Lemma generated_names_wf {ID : Idents} : ident_wf initializer_name ∧ ident_wf droper_name.
Proof. split; by apply legal_ascii. Qed.

(** Two arms that are accepted have given both expressions. *)
Lemma parse_prime_both {E} (e : expr E) dyn prime :
  parse_prime e = Ok (dyn, prime) → is_Some dyn ∧ is_Some prime.
Proof.
  destruct e as [[segments|] arms|]; [|done..]. simpl. destruct (refuses_scrutinee _); [done|].
  destruct arms as [|[p1 b1] [|[p2 b2] [|]]]; try done. cbn.
  destruct p1 as [i1 [|]|]; [|done..].
  destruct (String.eqb i1 "PRIME"), (String.eqb i1 "DYN"); cbn; try done;
    (destruct p2 as [i2 [|]|]; [|done..]; destruct (String.eqb i2 "PRIME"), (String.eqb i2 "DYN"); cbn; try done;
     intros [= <- <-]; eauto).
Qed.

(** The three outcomes of the choice of the expressions. *)
Lemma split_expr_some {E} o (e : expr E) :
  ∃ r, split_expr o e = Some r ∧ ∀ v prime, r = Ok (v, prime) → is_Some prime ↔ dm_priming o = true.
Proof.
  unfold split_expr. destruct (dm_priming o); simpl.
  - destruct (parse_prime e) as [[dyn prime]|err] eqn:H; [|by eexists].
    apply parse_prime_both in H as [[d ->] [p ->]]. eexists. split; [done|]. intros v q [= <- <-]. by split.
  - eexists. split; [done|]. intros v prime [= <- <-]. by split; [intros [? [=]]|].
Qed.

(** The kind of type follows the mode, primed storage the option. *)
Lemma choose_type_kind c is_tl mut o typ :
  options_wf c o → choose_type is_tl mut o = Ok typ →
  new_mutability typ mut = negb (is_lazy (dm_init o)) ∧
  match typ with
  | TLazy t => is_lazy (dm_init o) = true ∧ (impl_data (impl_of t) = KPrimed ↔ dm_priming o = true)
  | _ => is_lazy (dm_init o) = false
  end.
Proof.
  intros [_ _ Hlz _ _ _ _ _]. destruct o as [m d tol pr]. unfold choose_type. simpl in *.
  assert (is_lazy m = true ∨ is_lazy m = false) as [Hm|Hm] by (destruct (is_lazy m); auto).
  - specialize (Hlz Hm). destruct m as [| | |p]; try done;
      (destruct Hlz as [-> | [-> | ->]]); destruct pr, is_tl, mut; simpl; intros [= <-]; by split_and!.
  - rewrite Hm. destruct is_tl, mut; simpl; intros [= <-]; done.
Qed.

(** The functions of a static. *)
Lemma gen_initer_accepted {ID : Idents} {E} c is_tl o r (e : @value_expr E) gnu f :
  options_wf c o → ordered_target c → gen_initer c is_tl o r e = Some f →
  ∃ ptr, constructor c gnu (fn_attr f) (fn_name f) 0 = Some (Ok ptr) ∧ func_name ptr = fn_name f ∧ ptr_type ptr = FnUnit.
Proof.
  intros Hwf Hc. unfold gen_initer. destruct (dm_init o) as [| | |p] eqn:Hm; try done.
  - destruct (negb is_tl && support_priority c); [|done]. intros [= <-]. apply (constructor_accepts c _ _ 1); try done. apply generated_names_wf.
  - intros [= <-]. apply (wf_raw _ _ Hwf) in Hm as [Hp _].
    apply (constructor_accepts c _ _ p); try done; [by apply priority_literal|apply generated_names_wf].
Qed.

Lemma gen_droper_accepted {ID : Idents} {E} c o r f :
  options_wf c o → ordered_target c → @gen_droper E o r = Some f →
  ∃ ptr, destructor c (fn_attr f) (fn_name f) = Some (Ok ptr) ∧ func_name ptr = fn_name f ∧ ptr_type ptr = FnUnit.
Proof.
  intros Hwf Hc. unfold gen_droper. destruct (dm_drop o) as [| | |q] eqn:Hd; try done. intros [= <-].
  apply (destructor_accepts c _ q); try done; [|apply generated_names_wf]. apply priority_literal.
  destruct (is_lazy (dm_init o)) eqn:Hm.
  - destruct (wf_lazy _ _ Hwf Hm) as [? | [? | ?]]; congruence.
  - destruct (wf_raw_drop _ _ Hwf Hm) as [?|(q' & ? & ?)]; congruence.
Qed.

Lemma gen_dyn_init_wf {ID : Idents} {E} c debug (stat : @item_static E) o r :
  options_wf c o → gen_dyn_init c debug stat o = Some r →
  ∀ g, r = Ok g → generated_wf c debug (stat_name stat) g.
Proof.
  intros Hwf. unfold gen_dyn_init. destruct (ident_new _) as [name|]; [|done]. cbv zeta.
  destruct (choose_type _ _ _) as [typ|] eqn:Ht; [|by intros [= <-]].
  destruct (split_expr_some o (stat_expr stat)) as (sp & -> & Hsp).
  destruct sp as [[v prime]|]; [|by intros [= <-]]. intros [= <-] g [= <-].
  specialize (Hsp _ _ eq_refl). eapply choose_type_kind in Ht as [Hmut Ht]; [|exact Hwf].
  destruct o as [m d tol pr]. assert (m = IConst → d ≠ DNone) as Hc by apply (wf_const _ _ Hwf).
  split; cbn [g_type g_mut g_init g_initer g_droper g_generator].
  - intros Hraw. assert (is_lazy m = false) as Hm by (destruct Hraw as [-> | ->]; tauto).
    rewrite Hmut. simpl. rewrite Hm. split_and!; [done|unfold gen_lazy_generator; simpl; by rewrite Hm|].
    pose proof (wf_raw_drop _ _ Hwf Hm) as Hd. unfold stat_ref, gen_const_init, static_info. simpl in *. rewrite Hm.
    destruct m as [| | |p]; try done.
    + right. do 2 eexists. split_and!; [done|done| |by destruct debug; intros ? [= <-]].
      destruct Hd as [?|(q & -> & _)]; [by destruct Hc|by eexists].
    + left. do 3 eexists. split_and!; [done|done|by destruct debug; intros ? [= <-]].
  - intros t ->. destruct Ht as [Hm Ht]. simpl in *. rewrite Hmut, Hm.
    pose proof (wf_lazy _ _ Hwf Hm) as Hd. simpl in Hd.
    unfold gen_droper, gen_lazy_generator, gen_const_init, gen_initer, stat_ref. simpl. rewrite Hm.
    split_and!; [done|by destruct Hd as [-> | [-> | ->]]| |].
    + destruct m; try done; destruct pr, debug; simpl; do 2 eexists; (split_and!; [done..|]);
        (etrans; [|symmetry; exact Ht]); first [exact Hsp|by split; try intros [? [=]]].
    + destruct m; try done. simpl. destruct (negb _ && _); [|done]. by intros f [= <-].
  - unfold gen_const_init, static_info. destruct m, pr, debug; simpl; by split; try intros [? [=]].
  - intros i q Hi. assert (RawStatic.drop_mode i = drop_priority (DynMode m d tol pr)) as ->.
    { revert Hi. unfold gen_const_init, static_info. destruct m, pr, debug; by intros [= <-]. }
    unfold gen_droper, drop_priority, stat_ref. simpl. destruct d as [| | |q'] eqn:Hd; try done.
    destruct (is_lazy m) eqn:Hm; [by destruct (wf_lazy _ _ Hwf Hm) as [? | [? | ?]]|]. simpl.
    by split; intros [= ->].
  - intros gnu f Ho Hf. eapply gen_initer_accepted; eauto.
  - intros f Ho Hf. eapply gen_droper_accepted; eauto.
Qed.

(** C24: the attribute [dynamic] panics exactly on a static whose name is a raw
    identifier, once its options are accepted: the name of the generator is formatted
    from it, and is not an identifier then. A static that it accepts is coherent with
    what the rest of the crate assumes: a raw static is mutable and has no value before
    the constructor of the priority that its information states sets it; a lazy one is
    immutable, is made from its generator, with a primed value exactly when its type
    has primed storage, and is never dropped by a destructor; the information of the
    debug mode states the priority of the destructor that drops the static; the
    attributes of the generated functions are accepted where the linker orders
    functions. *)
Theorem dynamic_coherent {ID : Idents} {E} c debug args (stat : @item_static E) :
  ident_wf (stat_name stat) →
  (dynamic c debug args stat = None ↔
     is_raw (stat_name stat) = true ∧ ∃ o, parse_dyn_options c args = Ok o) ∧
  ∀ g, dynamic c debug args stat = Some (Ok g) → generated_wf c debug (stat_name stat) g.
Proof.
  intros Hname. unfold dynamic.
  destruct (parse_dyn_options c args) as [o|] eqn:Ho; [|by split; [split; [|intros [_ [? ?]]]|]].
  apply parse_dyn_options_wf in Ho. destruct (gen_dyn_init c debug stat o) as [r|] eqn:Hg.
  - pose proof (gen_dyn_init_wf _ _ _ _ _ Ho Hg) as H. destruct r as [g|]; (split; [split; [done|]|]);
      try (by intros ? [= <-]; apply H); try done;
      intros [Hraw _]; unfold gen_dyn_init in Hg; by rewrite ident_new_prefix, Hraw in Hg.
  - split; [|done]. split; [intros _; split; [|by eexists]|done]. revert Hg. unfold gen_dyn_init.
    rewrite ident_new_prefix by done. destruct (is_raw _); [done|]. cbv zeta. destruct (choose_type _ _ _); [|done].
    destruct (split_expr_some o (stat_expr stat)) as (sp & -> & _). by destruct sp as [[]|].
Qed.

(** A lesser lazy static, and a raw one that is dropped. *)
Section examples.
#[local] Existing Instance ascii_idents.

Example dynamic_lesser :
  let V := IdentC false "V" in
  ∃ g, dynamic linux false [] (ItemStatic V [] true (@EOther nat)) = Some (Ok g) ∧
    g_type g = TLazy LesserLockedLazy ∧ g_mut g = false ∧
    g_initer g = Some (GeneratedFn (ArgIdent "__lazy_init") initializer_name (InitLazy (RefShared V))).
Proof. by eexists. Qed.

Example dynamic_raw :
  let V := IdentC false "V" in
  ∃ g, dynamic linux true [MLit (LInt 7); MPath (Some "drop")] (ItemStatic V [] false (@EOther nat)) = Some (Ok g) ∧
    g_type g = TConstStatic ∧ g_mut g = true ∧
    g_droper g = Some (GeneratedFn (ArgLit (LInt 7)) droper_name (DropStatic (RefMut V))).
Proof. by eexists. Qed.

(** [#[dynamic] static r#type: _] and [#[constructor] extern "C" fn r#type()]. *)
Example raw_names :
  dynamic linux false [] (ItemStatic (IdentC true "type") [] true (@EOther nat)) = None ∧
  constructor linux true NoArgs (IdentC true "type") 0 = None.
Proof. split; reflexivity. Qed.

Lemma dynamic_coherent_witness :
  generated_wf linux true (IdentC false "V") (Generated TConstStatic true
    (CallUninit (Some {| RawStatic.init_mode := ProgramConstructor 7; RawStatic.drop_mode := ProgramDestructor 7 |}))
    (Some (GeneratedFn (ArgLit (LInt 7)) initializer_name
             (SetTo 7 (RefMut (IdentC false "V")) (WholeExpr (@EOther nat)))))
    (Some (GeneratedFn (ArgLit (LInt 7)) droper_name (DropStatic (RefMut (IdentC false "V"))))) None) ∧
  dynamic linux true [] (ItemStatic (IdentC true "type") [] true (@EOther nat)) = None.
Proof.
  split.
  - apply (dynamic_coherent linux true [MLit (LInt 7); MPath (Some "drop")]
      (ItemStatic (IdentC false "V") [] false (@EOther nat))); reflexivity.
  - apply (dynamic_coherent linux true [] (ItemStatic (IdentC true "type") [] true (@EOther nat))); [reflexivity|].
    split; [reflexivity|]. by eexists.
Defined.
End examples.
