(* ===== verification/Targets.v ===== *)
(** * What is compiled for a target

    The flags that the build scripts set (src/build.rs and static_init_macro/build.rs)
    and what the crate compiles because of them: the register of the objects of a
    thread, the policy of thread locals, the locker of threads, the hint of the
    lesser lazies. The other files take each of these as an argument. *)

From stdpp Require Import base list strings.
From S2P Require Import Prelude Policy Macro.
Open Scope string_scope.

(** What the compiler says of the target, and the features of the crate. *)
Record target := Target {
  target_os : string;
  target_env : string;
  unix : bool;
  debug_assertions : bool;
  feature : string → bool;
}.

Definition one_of (s : string) (l : list string) : bool := existsb (String.eqb s) l.

(** ** src/build.rs *)
Module build.
Section build.
Context (t : target).

Definition elf : bool := one_of (target_os t)
  ["linux"; "android"; "freebsd"; "dragonfly"; "netbsd"; "openbsd"; "solaris"; "illumos"; "emscripten";
   "haiku"; "l4re"; "fuchsia"; "redox"; "vxworks"].
Definition coff : bool := String.eqb (target_os t) "windows".
Definition mach_o : bool := one_of (target_os t) ["macos"; "ios"].
Definition debug_mode : bool := feature t "debug_order" || debug_assertions t.
Definition support_priority : bool := elf || coff.
Definition cxa_thread_at_exit : bool :=
  one_of (target_os t) ["linux"; "fushia"; "redox"; "emscripten"] || String.eqb (target_env t) "gnu".
Definition pthread_thread_at_exit : bool :=
  (unix t || String.eqb (target_env t) "gnu") && negb cxa_thread_at_exit.
Definition coff_thread_at_exit : bool := coff && negb pthread_thread_at_exit.
End build.
End build.

(** ** static_init_macro/build.rs *)
Module macro_build.
Section macro_build.
Context (t : target).

Definition elf : bool := one_of (target_os t)
  ["linux"; "android"; "freebsd"; "dragonfly"; "netbsd"; "openbsd"; "solaris"; "illumos"; "emscripten";
   "haiku"; "l4re"; "fuchsia"; "redox"; "vxworks"].
Definition coff : bool := String.eqb (target_os t) "windows".
Definition mach_o : bool := one_of (target_os t) ["macos"; "ios"].
Definition debug_mode : bool := feature t "debug_order" || debug_assertions t.
Definition support_priority : bool := elf || coff.
Definition constructor_destructor : bool := elf || coff || mach_o.

(** The flags that the macros read. *)
Definition cfg_of : cfg := Cfg elf mach_o coff constructor_destructor support_priority.
End macro_build.
End macro_build.

(** ** What the crate compiles *)

(** The modules of src/exit_sequentializer.rs, as each of them is imported. *)
Inductive thread_module := ThreadWindows | ThreadCxa | ThreadPthread.

Section compiled.
Context (t : target).

(** [mod exit_sequentializer] and [mod raw_static]. *)
Definition supported : bool := build.elf t || build.mach_o t || build.coff t.

Definition uses_windows : bool := build.coff_thread_at_exit t.
Definition uses_cxa : bool := build.cxa_thread_at_exit t && negb (feature t "test_pthread_support").
Definition uses_pthread : bool := build.pthread_thread_at_exit t || feature t "test_pthread_support".
Definition thread_modules : list thread_module :=
  (if uses_windows then [ThreadWindows] else []) ++ (if uses_cxa then [ThreadCxa] else []) ++
  (if uses_pthread then [ThreadPthread] else []).

(** The registration of a thread local is taken for granted. *)
Definition thread_reg_always : bool := build.cxa_thread_at_exit t.

(** [global_inited_hint] may answer that the lesser lazies are initialised. *)
Definition hint_compiled : bool := build.support_priority t && negb (feature t "test_no_global_lazy_hint").

(** The locker of threads, and the implementation of [Futex] it stands on. *)
Definition spins : bool := feature t "spin_loop".
Definition linux_futex : bool :=
  negb (feature t "parking_lot_core") && one_of (target_os t) ["linux"; "android"].
Definition other_futex : bool :=
  feature t "parking_lot_core" || negb (one_of (target_os t) ["linux"; "android"]).
End compiled.

(** ** Properties *)

(** What the compiler says of the systems that the scripts name. *)
Definition truthful (t : target) : Prop :=
  supported t = true → unix t = negb (String.eqb (target_os t) "windows").

Lemma one_of_true s l : one_of s l = true ↔ s ∈ l.
Proof.
  unfold one_of. rewrite existsb_exists. setoid_rewrite String.eqb_eq. rewrite list_elem_of_In.
  split; [by intros (x & ? & ->)|by exists s].
Qed.

(** The two scripts agree, and the macros generate constructors and destructors
    wherever the crate has its registers. *)
Lemma scripts_agree t :
  macro_build.cfg_of t = Cfg (build.elf t) (build.mach_o t) (build.coff t) (supported t) (build.support_priority t) ∧
  macro_build.debug_mode t = build.debug_mode t.
Proof.
  split; [|done]. unfold macro_build.cfg_of, macro_build.constructor_destructor, supported. f_equal.
  change (macro_build.elf t) with (build.elf t). change (macro_build.coff t) with (build.coff t).
  change (macro_build.mach_o t) with (build.mach_o t). by destruct (build.elf t), (build.coff t), (build.mach_o t).
Qed.

(** A thread has one register on each system, but on Windows with the GNU
    environment: there two modules are imported under one name, and the crate does
    not compile with the feature [thread_local]. *)
Theorem thread_module_unique t :
  truthful t → supported t = true → feature t "test_pthread_support" = false →
  thread_modules t =
    if build.coff t then ThreadWindows :: (if String.eqb (target_env t) "gnu" then [ThreadCxa] else [])
    else if build.cxa_thread_at_exit t then [ThreadCxa] else [ThreadPthread].
Proof.
  intros Ht Hs Hf. specialize (Ht Hs).
  unfold thread_modules, uses_windows, uses_cxa, uses_pthread, build.coff_thread_at_exit, build.pthread_thread_at_exit.
  rewrite Hf, Ht, orb_false_r. unfold build.coff in *.
  destruct (String.eqb_spec (target_os t) "windows") as [Hos|Hos]; simpl.
  - unfold build.cxa_thread_at_exit. rewrite Hos. simpl. by destruct (String.eqb (target_env t) "gnu").
  - by destruct (build.cxa_thread_at_exit t).
Qed.

(** Where the policy of thread locals takes their registration for granted, it is
    the one of the C++ runtime, which refuses none. *)
Theorem thread_policy_sound t :
  feature t "test_pthread_support" = false →
  thread_reg_always t = true ↔ ThreadCxa ∈ thread_modules t.
Proof.
  intros Hf. unfold thread_reg_always, thread_modules, uses_cxa, uses_pthread. rewrite Hf, orb_false_r.
  destruct (build.cxa_thread_at_exit t), (uses_windows t), (build.pthread_thread_at_exit t); simpl;
    rewrite ?list_elem_of_In; simpl; intuition congruence.
Qed.

(** The feature that forces the keys of POSIX leaves the policy as it is: on Linux it
    takes registrations for granted that the key may refuse. *)
Lemma test_feature_policy t :
  target_os t = "linux" → feature t "test_pthread_support" = true →
  thread_reg_always t = true ∧ thread_modules t = [ThreadPthread].
Proof.
  intros Hos Hf. unfold thread_reg_always, thread_modules, uses_windows, uses_cxa, uses_pthread,
    build.coff_thread_at_exit, build.cxa_thread_at_exit, build.coff. rewrite Hf, Hos. by rewrite orb_true_r.
Qed.

(** The list of the systems with the C++ runtime names Fuchsia by another name. *)
Lemma fuchsia_uses_keys t :
  truthful t → target_os t = "fuchsia" → target_env t ≠ "gnu" → feature t "test_pthread_support" = false →
  thread_modules t = [ThreadPthread].
Proof.
  intros Ht Hos Henv Hf. rewrite thread_module_unique by (done || (unfold supported, build.elf; by rewrite Hos)).
  unfold build.coff, build.cxa_thread_at_exit. rewrite Hos.
  by rewrite (proj2 (String.eqb_neq _ _) Henv).
Qed.

(** The two implementations of futexes are never both compiled, and the lesser
    lazies have their hint on a supported system only. *)
Lemma one_futex t : other_futex t = negb (linux_futex t).
Proof. unfold other_futex, linux_futex. by destruct (feature t "parking_lot_core"), (one_of _ _). Qed.
Lemma hint_supported t : hint_compiled t = true → supported t = true.
Proof.
  unfold hint_compiled, build.support_priority, supported. intros [H _]%andb_true_iff.
  apply orb_true_iff in H as [-> | ->]; [done|by rewrite orb_true_r].
Qed.

(** Concrete targets. *)
Definition linux_gnu : target := Target "linux" "gnu" true true (λ _, false).
Definition windows_msvc : target := Target "windows" "msvc" false true (λ _, false).
Definition windows_gnu : target := Target "windows" "gnu" false true (λ _, false).
Definition darwin : target := Target "macos" "" true true (λ _, false).

Example thread_modules_of :
  map thread_modules [linux_gnu; windows_msvc; darwin; windows_gnu] =
  [[ThreadCxa]; [ThreadWindows]; [ThreadPthread]; [ThreadWindows; ThreadCxa]].
Proof. reflexivity. Qed.
Example cfg_of_linux : macro_build.cfg_of linux_gnu = Cfg true false false true true.
Proof. reflexivity. Qed.
